(* ===== verification/_CoqProject ===== *)
-Q . S2P
Prelude.v
Intset.v
Dict.v
DictScan.v
Memory.v
DictIter.v
Util.v
ClientFlags.v
Sds.v
SdsArgs.v
Protocol.v
Server.v
StringCommands.v
Transactions.v
ServerLogic.v
StringEffects.v
KeyEffects.v
WatchLogic.v
TransactionLogic.v
ServerProperties.v
StringSpecs.v
Skiplist.v
SkiplistLogic.v
SkiplistSpecs.v
Bitops.v
BitopSpecs.v
Ziplist.v
ZiplistLogic.v
ZiplistOps.v
ZiplistSpecs.v
Lzf.v
LzfSpecs.v
Crc64.v
Rdb.v
RdbLogic.v
RdbSpecs.v
Replication.v
ReplicationSpecs.v
SetType.v
SetSpecs.v
ObjectStore.v
SetCommands.v
SetCommandLogic.v
SetProperties.v
HashType.v
HashSpecs.v
HashCommands.v
HashProperties.v
Glob.v
Pubsub.v
PubsubSpecs.v
