(* ===== verification/Prelude.v ===== *)
(** * Verification of the Redis server shipped with Build in Progress

    The repository is a Rails application; the C program in it is Redis 2.8.7,
    vendored under [src/redis-stable].  This
    development models the parts of [src/redis-stable/src] that compute: the
    data structures, the parsers, the commands on strings and keys, expiration,
    transactions, publication, persistence, replication.  File names below are
    relative to that directory.

    ** How the code is modelled

    Definitions are executable and keep the names of the C functions.  Integers
    are [Z], with the wrap-around of their width written where the code
    computes with it ([uwrap], [swrap] below); bytes are integers from 0 to
    255; memory whose layout matters is a list of bytes or a finite map from
    addresses, and what [malloc] leaves uninitialised is a parameter ([junk]).
    A result [None] means that the process does not survive: a failed
    assertion, an access outside an object, or a loop that has exhausted its
    fuel.  Fuel is chosen from the size of the data (the length of a table, a
    buffer or a list plus one) and every theorem about a function proves that
    the result is [Some], hence that the fuel is enough and the accesses are
    in bounds.

    ** The files

    - [Prelude] (this file): machine integers, bytes and memory blocks, the
      [loop] combinator with its invariant rule, generic lemmas, hints.
    - [Intset]: [intset.c], on the bytes of the array.  [intset_repr] relates a
      block to a strictly increasing list; C1: any sequence of operations
      refines that list, encoding upgrades included.
    - [Dict], [DictScan], [DictIter]: [dict.c].  [dict_repr] relates the two tables to a
      finite map; C4: any sequence of operations refines that map, whatever the
      progress of incremental rehashing; C5, C6: rehashing completes, resizing
      is minimal.  C7, C8: the cursor of [dictScan], its guarantee and
      termination; lemma [dictScan_misses_on_shrink]: where the guarantee fails.
      [DictIter]: the iterator yields the entries.
    - [Util]: integer parsing and printing of [util.c]; C9: round trip.
    - [Sds], [SdsArgs]: [sds.c], header and buffer.  C10: any sequence of
      operations refines byte strings and keeps the buffer invariant; C11: the
      round trip of the quoting syntax; comparison and splitting as lemmas.
    - [ClientFlags]: the bits of [redisClient.flags], for the parser and the commands.
    - [Protocol]: the request parser of [networking.c] and the command printer
      of [aof.c].  C12: printed commands, cut anywhere into reads, are executed
      in order, up to one that blocks or closes the client; quoted inline requests
      and a defect as lemmas.
    - [Server], [StringCommands], [Transactions]: the state of the server
      (databases as the maps that [Dict] implements, clients, watched keys,
      dirty counter, what was propagated), the database API of [db.c], the
      commands of [t_string.c], the commands on keys of [db.c], [multi.c], and
      [call] and [processCommand] of [redis.c], in a state monad.
    - [ServerLogic], [StringEffects], [KeyEffects], [WatchLogic],
      [TransactionLogic]: a weakest-precondition calculus for that monad, the
      invariant [server_inv], the relation [eff] between the states around a
      piece of code (changed values are signalled, changes are accounted for),
      and its proof for every primitive and every command; [allowed] are the
      commands in use, for the theorems that exclude MOVE or FLUSHALL.
    - [ServerProperties]: C13 to C15, for sequences of requests of any clients:
      the server survives, changes are propagated, EXEC aborts when a watched
      key has changed; lemmas: [getrange_reads_outside], [move_not_signalled] and
      [flushall_uncounted], the defects that their conditions exclude.
    - [StringSpecs]: C16 to C19, exact results of commands, expiration; defects
      at the boundaries as lemmas.  [remains]: a key that no reading of the clock
      finds expired, the condition on the keys of the theorems about one command.
    - [Skiplist], [SkiplistLogic], [SkiplistSpecs]: the skip list of [t_zset.c],
      on a memory of nodes.  [shape] relates the memory to the sequence of
      nodes, [zsl_repr] to the increasing list of keys.  C26: any sequence of
      updates refines that list; C27: ranks; ranges as
      lemmas.
    - [Bitops], [BitopSpecs]: [bitops.c].  C28, C29: the algorithms that work
      word by word agree with the definition bit by bit; C30: SETBIT and GETBIT.
    - [Memory]: checked accesses to a block of bytes, for the files below.
    - [Ziplist], [ZiplistLogic], [ZiplistOps], [ZiplistSpecs]: [ziplist.c], on
      the bytes of the list.  [zl_repr] relates a block to a list of entries;
      C31: any sequence of updates refines a list of strings, with the cascade
      of the previous lengths; C32: traversal, search and comparison; lemma
      [insert_reads_outside]: the update that leaves the block.
    - [Lzf], [LzfSpecs]: the compressor and the decompressor.  C33: round trip
      for any contents of the uninitialised hash table; C34: on corrupted data.
    - [Crc64]: [crc64.c]; C35: the table computes the polynomial division, and
      eight changed bytes are always detected.
    - [Rdb], [RdbLogic], [RdbSpecs]: streams ([rio.c]), strings, key-value
      pairs, files ([rdb.c]), DUMP and RESTORE ([migrate.c]).  C36 to C38:
      round trips, refusal of corrupted payloads; two defects as lemmas.
    - [Replication], [ReplicationSpecs]: the master's side of [replication.c]
      as a function of events.  [at_log] relates the circular backlog to the
      log of all that was sent; C39: what a slave receives; C40: slaves that
      wait come online; two defects as lemmas.

    - [SetType], [SetSpecs]: sets of strings ([t_set.c]) as an intset or a hash
      table.  [set_repr] relates a set object to a finite set; C2: any
      sequence of operations refines it, and the type of the encoding.
    - [SetCommands], [SetCommandLogic], [SetProperties]: the commands on sets,
      in a monad over the server and a store of the set objects, since two keys
      given to a command may be the same object.  C23, C24: SINTER,
      SUNION, SDIFF and their storing variants; SADD, SISMEMBER and a defect ([sunion_uses_freed_set]: a
      key that expires during the command) as lemmas.
    - [ObjectStore]: that monad and its weakest preconditions, for a store of
      any type of object, and the relation of a store to abstract values.
    - [HashType], [HashSpecs]: hashes ([t_hash.c]) as a ziplist or a hash table.
      [hash_repr] relates a hash object to a finite map of strings;
      C3: any sequence of operations refines it, and when it is a ziplist.
    - [HashCommands], [HashProperties]: the commands on hashes.  [space] relates
      a database and the store to a key space of maps, [spec_request] says what
      each command does to it; C25: any sequence of requests refines it.  Lemma
      [hincrby_ignores_limit]: a long field left in a ziplist.
    - [Glob]: [stringmatchlen] of [util.c].  C22: it computes the meaning of a
      pattern; lemma [glob_reads_outside]: where it leaves its buffers.
    - [Pubsub], [PubsubSpecs]: [pubsub.c].  [tracks] relates the tables of the
      server and of the clients to one set of subscriptions; C20: any sequence of
      events keeps it; C21: what a publication sends.

    ** How the parts interact

    [Sds.sds_repr] lets [SdsArgs], [Protocol] and [Server] take strings as byte
    lists; [Dict.dict_repr] lets [Server] take databases as finite maps, and
    the skip list and the sets take their tables as such; [Util] prints and parses the
    integers of [Protocol], [Server], [Skiplist], [Rdb] and [Replication].  The
    commands, DUMP and RESTORE included, reach the databases only through the
    API of [Server], whose lemmas in [ServerLogic] are all that the proofs about
    commands use.  [Rdb] calls the compressor and the checksum through their
    theorems' lemmas.  What [Replication] sends is the multi-bulk form that
    [Protocol] parses (C12).  [Pubsub] matches channels by [Glob].

    ** Fuel

    Loops over a block or a list have its length plus one; the loops of
    [Dict] the size of the table; the digits of a 64-bit integer 32; the reads
    and writes of a stream the number of bytes left plus one; [rdbLoad] the
    length of the file plus one; the copy into the backlog the number of bytes
    plus one, and out of it the size of the buffer plus two.

    ** What is not modelled

    Everything whose effect is outside the process or which only calls a
    library: sockets and the event loop, configuration, writing the append-only
    file, the slave's side of replication, Lua scripting, Sentinel, the
    command-line tools, the vendored libraries, the Rails application.
    Reference counts and the allocator's accounting are left out.  Values that
    are not strings are opaque in the key space (sets and hashes are
    addresses in the store of [ObjectStore]), so the files and payloads modelled are those of
    strings; the random choices of SPOP and SRANDMEMBER, and SSCAN, are left
    out.  The offsets of replication do not wrap
    around at 64 bits.  The printing of doubles (INCRBYFLOAT and the scores of
    sorted sets) depends on [printf].  HINCRBYFLOAT is left out for the same reason, and HSCAN.
    The commands on lists and sorted sets are not modelled; [Ziplist] and
    [Skiplist] are what they are built on. *)
From Stdlib Require Export ZArith Lia Sorted.
From stdpp Require Export base numbers gmap sets list.

#[global] Open Scope Z_scope.

(** * Machine integers *)

(** Declares the scope of the development's own notations. *)
Declare Scope redis_scope.
Delimit Scope redis_scope with redis.

(** Value of [x] stored in an unsigned integer of [w] bits. *)
Definition uwrap (w x : Z) : Z := x mod 2 ^ w.

(** Value of [x] stored in a two's complement integer of [w] bits. *)
Definition swrap (w x : Z) : Z := (x + 2 ^ (w - 1)) mod 2 ^ w - 2 ^ (w - 1).

(** Bitwise complement of an unsigned integer of [w] bits. *)
Definition unot (w x : Z) : Z := 2 ^ w - 1 - x.

Notation "'u8' x" := (uwrap 8 x) (at level 9, x at level 9) : redis_scope.
Notation "'u32' x" := (uwrap 32 x) (at level 9, x at level 9) : redis_scope.
Notation "'u64' x" := (uwrap 64 x) (at level 9, x at level 9) : redis_scope.
Notation "'s32' x" := (swrap 32 x) (at level 9, x at level 9) : redis_scope.
Notation "'s64' x" := (swrap 64 x) (at level 9, x at level 9) : redis_scope.

Definition urange (w x : Z) : Prop := 0 <= x < 2 ^ w.
Definition srange (w x : Z) : Prop := - 2 ^ (w - 1) <= x < 2 ^ (w - 1).

#[export] Instance urange_dec w x : Decision (urange w x).
Proof. unfold urange. apply _. Defined.
#[export] Instance srange_dec w x : Decision (srange w x).
Proof. unfold srange. apply _. Defined.

Lemma uwrap_range w x : 0 <= w -> urange w (uwrap w x).
Proof. intros ?. apply Z.mod_pos_bound. lia. Qed.

Lemma uwrap_small w x : urange w x -> uwrap w x = x.
Proof. intros ?. by apply Z.mod_small. Qed.

Lemma pow_pred w : 0 < w -> 2 ^ w = 2 * 2 ^ (w - 1).
Proof. intros. rewrite <- Z.pow_succ_r by lia. f_equal. lia. Qed.

Lemma swrap_range w x : 0 < w -> srange w (swrap w x).
Proof.
  intros Hw. unfold srange, swrap.
  pose proof (pow_pred w Hw).
  assert (0 < 2 ^ (w - 1)) by (apply Z.pow_pos_nonneg; lia).
  pose proof (Z.mod_pos_bound (x + 2 ^ (w - 1)) (2 ^ w) ltac:(lia)). lia.
Qed.

Lemma swrap_small w x : 0 < w -> srange w x -> swrap w x = x.
Proof.
  intros Hw Hx. unfold srange in Hx. unfold swrap. pose proof (pow_pred w Hw).
  rewrite Z.mod_small; lia.
Qed.

Lemma swrap_uwrap w x : 0 < w -> swrap w (uwrap w x) = swrap w x.
Proof. intros. unfold swrap, uwrap. rewrite Zplus_mod_idemp_l. done. Qed.

Lemma uwrap_swrap w x : 0 < w -> uwrap w (swrap w x) = uwrap w x.
Proof.
  intros. unfold swrap, uwrap.
  rewrite Zminus_mod_idemp_l. f_equal. lia.
Qed.

(** * Bytes and memory *)

(** The length of a list as an integer of the C program. *)
Abbreviation zlen l := (Z.of_nat (length l)).

(** A byte is an integer of 8 bits; memory is a list of bytes. *)
Abbreviation is_byte := (urange 8).
Abbreviation bytes_ok := (Forall is_byte).

(** [tolower] in the C locale. *)
Definition tolower (c : Z) : Z := if bool_decide (65 <= c <= 90) then c + 32 else c.

(** Little-endian representation of [x] on [n] bytes, and its inverse. *)
Fixpoint le_encode (n : nat) (x : Z) : list Z :=
  match n with
  | O => []
  | S n => x mod 256 :: le_encode n (x / 256)
  end.

Fixpoint le_decode (bs : list Z) : Z :=
  match bs with
  | [] => 0
  | b :: bs => b + 256 * le_decode bs
  end.

Lemma length_le_encode n x : length (le_encode n x) = n.
Proof. revert x; induction n; intros; simpl; auto. Qed.

Lemma le_encode_ok n x : bytes_ok (le_encode n x).
Proof.
  revert x; induction n; intros; simpl; constructor; auto.
  apply Z.mod_pos_bound. lia.
Qed.

Lemma le_decode_encode n x : le_decode (le_encode n x) = uwrap (8 * Z.of_nat n) x.
Proof.
  revert x; induction n as [|n IH]; intros x.
  - symmetry. apply Z.mod_1_r.
  - cbn [le_encode le_decode]. rewrite IH. unfold uwrap.
    replace (8 * Z.of_nat (S n)) with (8 + 8 * Z.of_nat n) by lia.
    rewrite Z.pow_add_r by lia. rewrite Z.rem_mul_r by lia. done.
Qed.

Lemma le_encode_decode bs :
  bytes_ok bs -> le_encode (length bs) (le_decode bs) = bs.
Proof.
  induction 1 as [|b bs Hb _ IH]; [done|].
  cbn [le_encode le_decode length]. unfold urange in Hb.
  rewrite Z.mul_comm, Z_mod_plus_full, Z.mod_small by lia.
  rewrite Z.div_add, Z.div_small, Z.add_0_l by lia. by rewrite IH.
Qed.

Lemma le_encode_wrap n x : le_encode n (uwrap (8 * Z.of_nat n) x) = le_encode n x.
Proof.
  rewrite <- le_decode_encode.
  rewrite <- (length_le_encode n x) at 1.
  apply le_encode_decode, le_encode_ok.
Qed.

Lemma le_decode_range bs :
  bytes_ok bs -> urange (8 * Z.of_nat (length bs)) (le_decode bs).
Proof.
  intros H. rewrite <- (le_encode_decode bs H) at 2.
  rewrite le_decode_encode. apply uwrap_range. lia.
Qed.

(** Reading, overwriting and moving a block of memory. *)
Definition mem_read (off n : nat) (m : list Z) : list Z := take n (drop off m).

Definition mem_write (off : nat) (bs m : list Z) : list Z :=
  take off m ++ bs ++ drop (off + length bs) m.

Definition memmove (dst src n : nat) (m : list Z) : list Z :=
  mem_write dst (mem_read src n m) m.

(** [realloc] to [n] bytes: the common prefix is kept, the bytes that are
    added hold the unspecified values [junk]. *)
Definition realloc (junk : nat -> Z) (n : nat) (m : list Z) : list Z :=
  take n m ++ ((uwrap 8 ∘ junk) <$> seq 0 (n - length m)).

Lemma length_mem_read off n m : (off + n <= length m)%nat -> length (mem_read off n m) = n.
Proof. intros. unfold mem_read. rewrite length_take, length_drop. lia. Qed.

Lemma length_mem_write off bs m :
  (off + length bs <= length m)%nat -> length (mem_write off bs m) = length m.
Proof.
  intros. unfold mem_write. rewrite !length_app, length_take, length_drop. lia.
Qed.

Lemma length_realloc junk n m : length (realloc junk n m) = n.
Proof.
  unfold realloc. rewrite length_app, length_take, length_fmap, length_seq. lia.
Qed.

Lemma junk_ok junk n k : bytes_ok ((uwrap 8 ∘ junk) <$> seq k n).
Proof.
  apply Forall_fmap, Forall_forall. intros ? _. apply uwrap_range. lia.
Qed.

Lemma realloc_shrink junk n m : (n <= length m)%nat -> realloc junk n m = take n m.
Proof.
  intros. unfold realloc. replace (n - length m)%nat with O by lia.
  by rewrite app_nil_r.
Qed.

Lemma realloc_grow junk n m :
  (length m <= n)%nat ->
  realloc junk n m = m ++ ((uwrap 8 ∘ junk) <$> seq 0 (n - length m)).
Proof. intros. unfold realloc. by rewrite take_ge. Qed.

Lemma mem_write_app_r pre bs m :
  mem_write (length pre) bs (pre ++ m) = pre ++ mem_write 0 bs m.
Proof.
  unfold mem_write. rewrite take_app_length, take_0. simpl. f_equal. f_equal.
  rewrite drop_app_add. done.
Qed.

Lemma mem_read_write off bs m :
  (off + length bs <= length m)%nat -> mem_read off (length bs) (mem_write off bs m) = bs.
Proof.
  intros. unfold mem_read, mem_write.
  rewrite drop_app_length' by (rewrite length_take; lia).
  by rewrite take_app_length.
Qed.

(** A block that starts with [p] when what it is completed with does. *)
Lemma prefix_split {A} (l s p t : list A) :
  l ++ s = p ++ t -> (length p <= length l)%nat -> exists l', l = p ++ l' /\ l' ++ s = t.
Proof.
  intros Heq Hl. exists (drop (length p) l).
  assert (take (length p) l = p) as Hp.
  { rewrite <- (take_app_le l s) by done. rewrite Heq. by rewrite take_app_length. }
  split; [by rewrite <- Hp at 1; rewrite take_drop|].
  rewrite <- (take_drop (length p) l), Hp in Heq. rewrite <- app_assoc in Heq.
  by apply app_inv_head in Heq.
Qed.

Lemma nth_drop_0 {A} n (l : list A) x : nth 0 (drop n l) x = nth n l x.
Proof. rewrite !nth_lookup, lookup_drop. by rewrite Nat.add_0_r. Qed.

Lemma mem_read_drop a n (l : list Z) : mem_read a n l = take n (drop a l).
Proof. done. Qed.

(** * Loops *)

(** What one iteration of a C loop does: go on with a new state, or leave the
    loop (its condition is false, or [break]/[return]) with a result. *)
Inductive ctl (S R : Type) : Type :=
| Continue (s : S)
| Break (r : R).
Arguments Continue {S R} _.
Arguments Break {S R} _.

(** At most [fuel] iterations of [body]; [None] when they are not enough. *)
Fixpoint loop {S R} (fuel : nat) (body : S -> ctl S R) (s : S) : option R :=
  match fuel with
  | O => None
  | Datatypes.S fuel =>
      match body s with
      | Continue s' => loop fuel body s'
      | Break r => Some r
      end
  end.

(** Unfolds one iteration. *)
Lemma loop_S {S R} (body : S -> ctl S R) fuel s :
  loop (Datatypes.S fuel) body s =
    match body s with Continue s' => loop fuel body s' | Break r => Some r end.
Proof. done. Qed.

(** A loop with an invariant and a measure below its fuel leaves with its
    postcondition. *)
Lemma loop_spec {S R} (Inv : S -> Prop) (m : S -> nat) (Post : R -> Prop)
    (body : S -> ctl S R) fuel s :
  (forall s, Inv s -> match body s with
                  | Continue s' => Inv s' /\ (m s' < m s)%nat
                  | Break r => Post r
                  end) ->
  Inv s -> (m s < fuel)%nat ->
  exists r, loop fuel body s = Some r /\ Post r.
Proof.
  intros Hbody. revert s. induction fuel as [|fuel IH]; intros s Hs Hm; [lia|].
  simpl. specialize (Hbody s Hs). destruct (body s) as [s'|r].
  - destruct Hbody. apply IH; [done|lia].
  - eauto.
Qed.

(** The same for a body that can fail. *)
Lemma loop_some {S R} (Inv : S -> Prop) (m : S -> nat) (Post : R -> Prop)
    (body : S -> ctl S (option R)) fuel s :
  (forall s, Inv s -> match body s with
                  | Continue s' => Inv s' /\ (m s' < m s)%nat
                  | Break r => exists x, r = Some x /\ Post x
                  end) ->
  Inv s -> (m s < fuel)%nat ->
  exists x, mjoin (loop fuel body s) = Some x /\ Post x.
Proof.
  intros Hbody Hs Hm. destruct (loop_spec Inv m (fun r => exists x, r = Some x /\ Post x) body fuel s)
    as (r & -> & x & -> & HP); try done. by exists x.
Qed.

(** More fuel does not change the result of a loop that leaves. *)
Lemma loop_more {S R} (body : S -> ctl S R) f1 f2 s r :
  loop f1 body s = Some r -> (f1 <= f2)%nat -> loop f2 body s = Some r.
Proof.
  revert f2 s. induction f1 as [|f1 IH]; intros [|f2] s; simpl; try done; try lia.
  destruct (body s); [|done]. intros. apply IH; [done|lia].
Qed.

Lemma Some_bind {A B} (x : A) (f : A -> option B) : (Some x ≫= f) = f x.
Proof. done. Qed.

(** Reduces the binds of the option monad on known results; [bind_rw] does it
    by rewriting, for goals that computation would unfold too far. *)
Ltac bind_rw := rewrite Some_bind; cbv beta iota.
Ltac bind_simpl := cbn [mbind option_bind].

(** * Filters *)

Lemma filter_all {A} (P : A -> Prop) `{forall x, Decision (P x)} l : Forall P l -> filter P l = l.
Proof. induction 1 as [|x l Hx _ IH]; [done|]. by rewrite filter_cons_True, IH. Qed.

Lemma filter_none {A} (P : A -> Prop) `{forall x, Decision (P x)} l :
  Forall (fun x => ~ P x) l -> filter P l = [].
Proof. induction 1 as [|x l Hx _ IH]; [done|]. by rewrite filter_cons_False, IH. Qed.

(** * Strictly increasing sequences *)

Abbreviation increasing := (StronglySorted Z.lt).

Lemma increasing_lookup l i j x y :
  increasing l -> l !! i = Some x -> l !! j = Some y -> (i < j)%nat -> x < y.
Proof.
  intros Hs. revert i j. induction Hs as [|a l Hs IH Ha]; intros i j Hi Hj Hij.
  - done.
  - destruct j as [|j]; [lia|]. simpl in Hj. destruct i as [|i]; simpl in Hi.
    + simplify_eq. rewrite Forall_forall in Ha. apply Ha. by eapply list_elem_of_lookup_2.
    + eapply IH; eauto. lia.
Qed.

Lemma increasing_app l1 l2 :
  increasing l1 -> increasing l2 ->
  (forall x y, x ∈ l1 -> y ∈ l2 -> x < y) -> increasing (l1 ++ l2).
Proof.
  intros H1 H2 H. induction H1 as [|a l1 H1 IH Ha]; simpl; [done|].
  constructor.
  - apply IH. intros; apply H; [set_solver|done].
  - apply Forall_app; split; [done|]. apply Forall_forall. intros; apply H; set_solver.
Qed.

Lemma increasing_app_inv l1 l2 :
  increasing (l1 ++ l2) ->
  increasing l1 /\ increasing l2 /\ (forall x y, x ∈ l1 -> y ∈ l2 -> x < y).
Proof.
  induction l1 as [|a l1 IH]; simpl; intros H.
  - split_and!; [constructor|done|set_solver].
  - apply StronglySorted_inv in H as [H Ha]. apply Forall_app in Ha as [Ha1 Ha2].
    destruct (IH H) as (?&?&Hxy). rewrite Forall_forall in Ha2.
    split_and!; [by constructor|done|]. intros x y [->|?]%elem_of_cons ?; auto.
Qed.

(** * Bit operations as arithmetic *)

Lemma lor_shiftl_add a b k : 0 <= k -> 0 <= b < 2 ^ k -> Z.lor (Z.shiftl a k) b = a * 2 ^ k + b.
Proof.
  intros Hk Hb. rewrite <- Z.shiftl_mul_pow2 by done.
  assert (Z.land (Z.shiftl a k) b = 0) as Hl.
  { apply Z.bits_inj'. intros i Hi. rewrite Z.land_spec, Z.bits_0.
    destruct (decide (i < k)); [by rewrite Z.shiftl_spec_low|].
    rewrite <- (Z.mod_small b (2 ^ k)) by done. rewrite Z.mod_pow2_bits_high by lia. by rewrite andb_false_r. }
  by rewrite Z.add_nocarry_lxor, Z.lxor_lor.
Qed.

Lemma land_ones_mod x k m : 0 <= k -> m = Z.ones k -> Z.land x m = x mod 2 ^ k.
Proof. intros ? ->. by apply Z.land_ones. Qed.

Lemma land_0xff x : Z.land x 0xff = x mod 256.
Proof. by rewrite (land_ones_mod x 8). Qed.
Lemma land_0x3f x : Z.land x 0x3f = x mod 64.
Proof. by rewrite (land_ones_mod x 6). Qed.

Lemma land31 x : Z.land x 31 = x mod 32.
Proof. by rewrite (land_ones_mod x 5). Qed.
Lemma shiftr5 x : Z.shiftr x 5 = x / 32.
Proof. by rewrite Z.shiftr_div_pow2. Qed.
Lemma shiftr8 x : Z.shiftr x 8 = x / 256.
Proof. by rewrite Z.shiftr_div_pow2. Qed.
Lemma shiftl8 x : Z.shiftl x 8 = x * 256.
Proof. by rewrite Z.shiftl_mul_pow2. Qed.

(** A property of the numbers below [n], by evaluation. *)
Lemma below_by_eval (P : Z -> bool) n : forallb P (Z.of_nat <$> seq 0 (Z.to_nat n)) = true ->
  forall x, 0 <= x < n -> P x = true.
Proof.
  intros H x Hx. rewrite forallb_forall in H. apply H. rewrite <- (Z2Nat.id x) by lia.
  apply list_elem_of_In, list_elem_of_fmap_2, elem_of_seq. lia.
Qed.

#[global] Create HintDb redis discriminated.
#[export] Hint Resolve le_encode_ok length_le_encode length_realloc junk_ok : redis.
#[global] Create Rewrite HintDb len.
#[export] Hint Rewrite @length_app @length_take @length_drop @length_fmap @length_seq length_le_encode length_realloc : len.
