(* ===== verification/Intset.v ===== *)
(** * Integer sets ([intset.c])

    The sorted array of integers behind small sets of integers.  An intset is
    a block of memory: an encoding (the number of bytes of each element), a
    length and the bytes of the elements, little-endian (the host order of the
    machine modelled; [intrev32ifbe] and [memrev*ifbe] are no-ops there).  The
    operations below work on those bytes the way the C code does. *)
From S2P Require Import Prelude.

Definition INTSET_ENC_INT16 : Z := 2.
Definition INTSET_ENC_INT32 : Z := 4.
Definition INTSET_ENC_INT64 : Z := 8.

Record intset := Intset { is_encoding : Z; is_length : Z; is_contents : list Z }.

Definition _intsetValueEncoding (v : Z) : Z :=
  if bool_decide (v < - 2 ^ 31 \/ v > 2 ^ 31 - 1) then INTSET_ENC_INT64
  else if bool_decide (v < - 2 ^ 15 \/ v > 2 ^ 15 - 1) then INTSET_ENC_INT32
  else INTSET_ENC_INT16.

Definition _intsetGetEncoded (s : intset) (pos enc : Z) : Z :=
  if bool_decide (enc = INTSET_ENC_INT64) then
    swrap 64 (le_decode (mem_read (Z.to_nat (8 * pos)) 8 (is_contents s)))
  else if bool_decide (enc = INTSET_ENC_INT32) then
    swrap 32 (le_decode (mem_read (Z.to_nat (4 * pos)) 4 (is_contents s)))
  else
    swrap 16 (le_decode (mem_read (Z.to_nat (2 * pos)) 2 (is_contents s))).

Definition _intsetGet (s : intset) (pos : Z) : Z :=
  _intsetGetEncoded s pos (is_encoding s).

Definition with_contents (s : intset) (m : list Z) : intset :=
  Intset (is_encoding s) (is_length s) m.
Definition with_length (s : intset) (n : Z) : intset :=
  Intset (is_encoding s) n (is_contents s).
Definition with_encoding (s : intset) (e : Z) : intset :=
  Intset e (is_length s) (is_contents s).

Definition _intsetSet (s : intset) (pos value : Z) : intset :=
  if bool_decide (is_encoding s = INTSET_ENC_INT64) then
    with_contents s (mem_write (Z.to_nat (8 * pos)) (le_encode 8 value) (is_contents s))
  else if bool_decide (is_encoding s = INTSET_ENC_INT32) then
    with_contents s (mem_write (Z.to_nat (4 * pos)) (le_encode 4 value) (is_contents s))
  else
    with_contents s (mem_write (Z.to_nat (2 * pos)) (le_encode 2 value) (is_contents s)).

Definition intsetNew : intset := Intset INTSET_ENC_INT16 0 [].

(** One iteration of the binary search of [intsetSearch]: the state is
    [(min, max, mid, cur)]. *)
Definition intsetSearch_step (s : intset) (value : Z) (st : Z * Z * Z * Z)
    : ctl (Z * Z * Z * Z) (Z * Z * Z) :=
  let '(min, max, mid, cur) := st in
  if bool_decide (max >= min) then
    let mid := (min + max) `quot` 2 in
    let cur := _intsetGet s mid in
    if bool_decide (value > cur) then Continue (mid + 1, max, mid, cur)
    else if bool_decide (value < cur) then Continue (min, mid - 1, mid, cur)
    else Break (min, mid, cur)
  else Break (min, mid, cur).

(** [intsetSearch] returns the flag "found" and the position it stores in
    [*pos]; the search takes at most [length + 1] iterations. *)
Definition intsetSearch (s : intset) (value : Z) : option (bool * Z) :=
  if bool_decide (is_length s = 0) then Some (false, 0)
  else if bool_decide (value > _intsetGet s (is_length s - 1)) then
    Some (false, is_length s)
  else if bool_decide (value < _intsetGet s 0) then Some (false, 0)
  else
    '(min, mid, cur) ← loop (S (S (Z.to_nat (is_length s))))
                         (intsetSearch_step s value) (0, is_length s - 1, -1, -1);
    Some (if bool_decide (value = cur) then (true, mid) else (false, min)).

Definition intsetMoveTail (s : intset) (from to : Z) : intset :=
  let bytes := uwrap 32 (is_length s - from) in
  if bool_decide (is_encoding s = INTSET_ENC_INT64) then
    with_contents s (memmove (Z.to_nat (8 * to)) (Z.to_nat (8 * from))
                        (Z.to_nat (uwrap 32 (bytes * 8))) (is_contents s))
  else if bool_decide (is_encoding s = INTSET_ENC_INT32) then
    with_contents s (memmove (Z.to_nat (4 * to)) (Z.to_nat (4 * from))
                        (Z.to_nat (uwrap 32 (bytes * 4))) (is_contents s))
  else
    with_contents s (memmove (Z.to_nat (2 * to)) (Z.to_nat (2 * from))
                        (Z.to_nat (uwrap 32 (bytes * 2))) (is_contents s)).

Definition intsetFind (s : intset) (value : Z) : option bool :=
  let valenc := _intsetValueEncoding value in
  if bool_decide (valenc <= is_encoding s) then
    '(found, _) ← intsetSearch s value; Some found
  else Some false.

(** [r] is what [rand()] returned. *)
Definition intsetRandom (s : intset) (r : Z) : Z :=
  _intsetGet s (r mod is_length s).

Definition intsetGet (s : intset) (pos : Z) : option Z :=
  if bool_decide (pos < is_length s) then Some (_intsetGet s pos) else None.

Definition intsetLen (s : intset) : Z := is_length s.

(** [sizeof(intset)] is 8: the two 32-bit fields. *)
Definition intsetBlobLen (s : intset) : Z := 8 + uwrap 32 (is_length s * is_encoding s).

Section Realloc.
(** The bytes [zrealloc] leaves in the memory it adds. *)
Variable junk : nat -> Z.

Definition intsetResize (s : intset) (len : Z) : intset :=
  let size := uwrap 32 (len * is_encoding s) in
  with_contents s (realloc junk (Z.to_nat size) (is_contents s)).

(** The back-to-front copy of [intsetUpgradeAndAdd]: [n] elements left. *)
Fixpoint upgrade_loop (curenc prepend : Z) (n : nat) (s : intset) : intset :=
  match n with
  | O => s
  | S n =>
      let i := Z.of_nat n in
      upgrade_loop curenc prepend n
        (_intsetSet s (i + prepend) (_intsetGetEncoded s i curenc))
  end.

Definition intsetUpgradeAndAdd (s : intset) (value : Z) : intset :=
  let curenc := is_encoding s in
  let newenc := _intsetValueEncoding value in
  let len := is_length s in
  let prepend := if bool_decide (value < 0) then 1 else 0 in
  let s := with_encoding s newenc in
  let s := intsetResize s (is_length s + 1) in
  let s := upgrade_loop curenc prepend (Z.to_nat len) s in
  let s := if bool_decide (prepend ≠ 0) then _intsetSet s 0 value
            else _intsetSet s (is_length s) value in
  with_length s (uwrap 32 (is_length s + 1)).

(** The flag is what the code stores in [*success]. *)
Definition intsetAdd (s : intset) (value : Z) : option (intset * bool) :=
  let valenc := _intsetValueEncoding value in
  if bool_decide (valenc > is_encoding s) then Some (intsetUpgradeAndAdd s value, true)
  else
    '(found, pos) ← intsetSearch s value;
    if (found : bool) then Some (s, false)
    else
      let s := intsetResize s (is_length s + 1) in
      let s := if bool_decide (pos < is_length s) then intsetMoveTail s pos (pos + 1)
                else s in
      let s := _intsetSet s pos value in
      Some (with_length s (uwrap 32 (is_length s + 1)), true).

Definition intsetRemove (s : intset) (value : Z) : option (intset * bool) :=
  let valenc := _intsetValueEncoding value in
  if bool_decide (valenc <= is_encoding s) then
    '(found, pos) ← intsetSearch s value;
    if (found : bool) then
      let len := is_length s in
      let s := if bool_decide (pos < len - 1) then intsetMoveTail s (pos + 1) pos
                else s in
      let s := intsetResize s (len - 1) in
      Some (with_length s (uwrap 32 (len - 1)), true)
    else Some (s, false)
  else Some (s, false).
End Realloc.

Example add_remove_run :
  (r1 ← intsetAdd (fun _ => 7) intsetNew 5;
   r2 ← intsetAdd (fun _ => 7) r1.1 (-70000);
   r3 ← intsetAdd (fun _ => 7) r2.1 1;
   r4 ← intsetAdd (fun _ => 7) r3.1 5;
   r5 ← intsetRemove (fun _ => 7) r4.1 1;
   Some (r4.2, r5.2, is_encoding r5.1, intsetGet r5.1 0, intsetGet r5.1 1, intsetGet r5.1 2))
  = Some (false, true, 4, Some (-70000), Some 5, None).
Proof. vm_compute. reflexivity. Qed.

(** * Correctness *)

(** ** Arrays of fixed-size slots *)

(** The memory of an array of [e]-byte integers. *)
Definition slots (e : nat) (xs : list Z) : list Z := mjoin (le_encode e <$> xs).

Lemma slots_cons e x xs : slots e (x :: xs) = le_encode e x ++ slots e xs.
Proof. done. Qed.

Lemma slots_app e xs ys : slots e (xs ++ ys) = slots e xs ++ slots e ys.
Proof. unfold slots. by rewrite fmap_app, join_app. Qed.

Lemma length_slots e xs : length (slots e xs) = (e * length xs)%nat.
Proof.
  induction xs as [|x xs IH]; [by rewrite Nat.mul_0_r|].
  rewrite slots_cons, length_app, IH, length_le_encode. simpl. lia.
Qed.

Lemma slots_ok e xs : bytes_ok (slots e xs).
Proof.
  induction xs; [constructor|]. rewrite slots_cons. apply Forall_app. auto with redis.
Qed.

(** Every block of bytes of the right size is such an array. *)
Lemma slots_surj e n bs :
  (0 < e)%nat -> bytes_ok bs -> length bs = (e * n)%nat ->
  exists ys, bs = slots e ys /\ length ys = n /\ Forall (srange (8 * Z.of_nat e)) ys.
Proof.
  intros He. revert bs. induction n as [|n IH]; intros bs Hok Hlen.
  - exists []. split; [|by constructor]. apply nil_length_inv. lia.
  - rewrite <- (take_drop e bs) in Hok. apply Forall_app in Hok as [Ht Hd].
    destruct (IH (drop e bs)) as (ys & Hys & <- & Hr); [done|rewrite length_drop; lia|].
    exists (swrap (8 * Z.of_nat e) (le_decode (take e bs)) :: ys).
    split; [|split; [done|constructor; [apply swrap_range; lia|done]]].
    rewrite slots_cons, <- Hys, <- le_encode_wrap, uwrap_swrap, le_encode_wrap by lia.
    rewrite <- (take_drop e bs) at 1. f_equal.
    rewrite <- (le_encode_decode (take e bs)) at 1 by done.
    f_equal. rewrite length_take. lia.
Qed.

Lemma take_slots e n xs : take (e * n) (slots e xs) = slots e (take n xs).
Proof.
  revert n. induction xs as [|x xs IH]; intros n.
  - rewrite take_nil. apply take_nil.
  - destruct n as [|n]; [by rewrite Nat.mul_0_r|].
    rewrite slots_cons, firstn_cons, slots_cons, <- IH.
    replace (e * S n)%nat with (length (le_encode e x) + e * n)%nat
      by (rewrite length_le_encode; lia).
    apply take_app_add.
Qed.

Lemma drop_slots e n xs : drop (e * n) (slots e xs) = slots e (drop n xs).
Proof.
  revert n. induction xs as [|x xs IH]; intros n.
  - rewrite drop_nil. apply drop_nil.
  - destruct n as [|n]; [by rewrite Nat.mul_0_r|].
    rewrite slots_cons, skipn_cons, <- IH.
    replace (e * S n)%nat with (length (le_encode e x) + e * n)%nat
      by (rewrite length_le_encode; lia).
    apply drop_app_add.
Qed.

Lemma read_slots e n xs x :
  xs !! n = Some x -> mem_read (e * n) e (slots e xs) = le_encode e x.
Proof.
  intros Hx. unfold mem_read. rewrite drop_slots, (drop_S _ x) by done.
  rewrite slots_cons. rewrite <- (length_le_encode e x) at 1. apply take_app_length.
Qed.

Lemma write_slots e n v xs :
  (n < length xs)%nat ->
  mem_write (e * n) (le_encode e v) (slots e xs) = slots e (<[n:=v]> xs).
Proof.
  intros Hn. unfold mem_write. rewrite length_le_encode.
  replace (e * n + e)%nat with (e * S n)%nat by lia.
  rewrite take_slots, drop_slots, insert_take_drop by done.
  by rewrite slots_app, slots_cons.
Qed.

Lemma move_slots e dst src n xs :
  (src + n <= length xs)%nat ->
  memmove (e * dst) (e * src) (e * n) (slots e xs) =
    slots e (take dst xs ++ take n (drop src xs) ++ drop (dst + n) xs).
Proof.
  intros H. unfold memmove, mem_write, mem_read.
  rewrite drop_slots, take_slots, take_slots, length_slots, length_take, length_drop.
  rewrite Nat.min_l by lia.
  replace (e * dst + e * n)%nat with (e * (dst + n))%nat by lia.
  by rewrite drop_slots, <- !slots_app.
Qed.

(** ** The elements of an intset *)

Definition enc_ok (e : Z) : Prop :=
  e = INTSET_ENC_INT16 \/ e = INTSET_ENC_INT32 \/ e = INTSET_ENC_INT64.

(** [s] is a block of memory that holds the array [xs] in its encoding. *)
Record holds (s : intset) (xs : list Z) : Prop := {
  holds_enc : enc_ok (is_encoding s);
  holds_mem : is_contents s = slots (Z.to_nat (is_encoding s)) xs;
  holds_fits : Forall (srange (8 * is_encoding s)) xs;
}.

(** The representation invariant: [s] stores the strictly increasing [xs]. *)
Record intset_repr (s : intset) (xs : list Z) : Prop := {
  repr_holds : holds s xs;
  repr_length : is_length s = zlen xs;
  repr_sorted : increasing xs;
}.

(** The largest length for which the 32-bit sizes and the [int] arithmetic of
    the search cannot wrap. *)
Definition max_length : Z := 2 ^ 29 - 2.

Lemma enc_ok_bounds e : enc_ok e -> 2 <= e <= 8.
Proof. unfold enc_ok, INTSET_ENC_INT16, INTSET_ENC_INT32, INTSET_ENC_INT64. lia. Qed.

Lemma valueEncoding_ok v : enc_ok (_intsetValueEncoding v).
Proof. unfold _intsetValueEncoding, enc_ok. repeat case_bool_decide; auto. Qed.

Lemma srange_mono w w' v : 0 < w <= w' -> srange w v -> srange w' v.
Proof.
  unfold srange. intros ??.
  assert (2 ^ (w - 1) <= 2 ^ (w' - 1)) by (apply Z.pow_le_mono_r; lia). lia.
Qed.

(** The encoding chosen for a value is the least one that can store it. *)
Lemma valueEncoding_spec v e :
  srange 64 v -> enc_ok e ->
  (_intsetValueEncoding v <= e <-> srange (8 * e) v).
Proof.
  unfold _intsetValueEncoding, enc_ok, INTSET_ENC_INT16, INTSET_ENC_INT32, INTSET_ENC_INT64.
  unfold srange. intros Hv [->|[->| ->]]; repeat case_bool_decide; simpl in *; lia.
Qed.

(** Decoding a slot, whatever the encoding the record announces. *)
Lemma getEncoded_read s pos e :
  enc_ok e ->
  _intsetGetEncoded s pos e =
    swrap (8 * e) (le_decode (mem_read (Z.to_nat (e * pos)) (Z.to_nat e) (is_contents s))).
Proof. intros [->|[->| ->]]; reflexivity. Qed.

Lemma set_write s pos v :
  enc_ok (is_encoding s) ->
  _intsetSet s pos v =
    with_contents s (mem_write (Z.to_nat (is_encoding s * pos))
                       (le_encode (Z.to_nat (is_encoding s)) v) (is_contents s)).
Proof.
  destruct s as [e n m]; simpl. intros [->|[->| ->]]; reflexivity.
Qed.

Lemma swrap_decode e v :
  0 < e -> srange (8 * e) v -> swrap (8 * e) (le_decode (le_encode (Z.to_nat e) v)) = v.
Proof.
  intros He Hv. rewrite le_decode_encode, Z2Nat.id by lia.
  rewrite swrap_uwrap by lia. apply swrap_small; [lia|done].
Qed.

Lemma holds_get s xs i x :
  holds s xs -> xs !! i = Some x -> _intsetGet s (Z.of_nat i) = x.
Proof.
  intros [He Hm Hf] Hx. pose proof (enc_ok_bounds _ He).
  unfold _intsetGet. rewrite getEncoded_read by done.
  rewrite Hm, Z2Nat.inj_mul, Nat2Z.id by lia.
  rewrite (read_slots _ _ _ x) by done.
  apply swrap_decode; [lia|]. rewrite Forall_forall in Hf.
  apply Hf. by eapply list_elem_of_lookup_2.
Qed.

Lemma holds_set s xs (i : nat) v :
  holds s xs -> (i < length xs)%nat -> srange (8 * is_encoding s) v ->
  holds (_intsetSet s (Z.of_nat i) v) (<[i:=v]> xs).
Proof.
  intros [He Hm Hf] Hi Hv. pose proof (enc_ok_bounds _ He).
  rewrite set_write by done. split; simpl; [done| |by apply Forall_insert].
  rewrite Hm, Z2Nat.inj_mul, Nat2Z.id by lia. by apply write_slots.
Qed.

Lemma set_length s i v : is_length (_intsetSet s i v) = is_length s.
Proof. unfold _intsetSet. by repeat case_bool_decide. Qed.

Lemma set_encoding s i v : is_encoding (_intsetSet s i v) = is_encoding s.
Proof. unfold _intsetSet. by repeat case_bool_decide. Qed.

(** ** The binary search *)

Section Search.
Context (s : intset) (xs : list Z) (Hrepr : intset_repr s xs) (v : Z).

Definition search_found (pos : Z) : Prop := 0 <= pos /\ xs !! Z.to_nat pos = Some v.
Definition search_insert (pos : Z) : Prop :=
  0 <= pos <= zlen xs /\
  Forall (fun x => x < v) (take (Z.to_nat pos) xs) /\
  Forall (fun x => v < x) (drop (Z.to_nat pos) xs).

Lemma get_at i : 0 <= i < zlen xs -> xs !! Z.to_nat i = Some (_intsetGet s i).
Proof.
  intros Hi. destruct (lookup_lt_is_Some_2 xs (Z.to_nat i)) as [x Hx]; [lia|].
  rewrite Hx. f_equal. symmetry. rewrite <- (Z2Nat.id i) by lia.
  by eapply holds_get; [apply Hrepr|].
Qed.

Lemma get_below i :
  0 <= i < zlen xs -> _intsetGet s i < v ->
  Forall (fun x => x < v) (take (Z.to_nat (i + 1)) xs).
Proof.
  intros Hi Hv. apply Forall_forall. intros x [j Hj]%list_elem_of_lookup.
  apply lookup_take_Some in Hj as [Hj Hji].
  destruct (decide (j = Z.to_nat i)) as [->|].
  - rewrite get_at in Hj by done. by simplify_eq.
  - assert (x < _intsetGet s i); [|lia].
    eapply increasing_lookup; [apply Hrepr|done|by apply get_at|lia].
Qed.

Lemma get_above i :
  0 <= i < zlen xs -> v < _intsetGet s i ->
  Forall (fun x => v < x) (drop (Z.to_nat i) xs).
Proof.
  intros Hi Hv. apply Forall_forall. intros x [j Hj]%list_elem_of_lookup.
  rewrite lookup_drop in Hj. destruct j as [|j].
  - rewrite Nat.add_0_r, get_at in Hj by done. by simplify_eq.
  - assert (_intsetGet s i < x); [|lia].
    eapply increasing_lookup; [apply Hrepr|by apply get_at|done|lia].
Qed.

Definition search_inv (st : Z * Z * Z * Z) : Prop :=
  let '(min, max, mid, cur) := st in
  0 <= min <= zlen xs /\ -1 <= max < zlen xs /\ min <= max + 1 /\
  (min <= max \/ cur <> v) /\
  Forall (fun x => x < v) (take (Z.to_nat min) xs) /\
  Forall (fun x => v < x) (drop (Z.to_nat (max + 1)) xs).

Definition search_post (r : Z * Z * Z) : Prop :=
  let '(min, mid, cur) := r in
  if bool_decide (v = cur) then search_found mid else search_insert min.

Lemma search_step st :
  search_inv st ->
  match intsetSearch_step s v st with
  | Continue st' =>
      search_inv st' /\
      (Z.to_nat (st'.1.1.2 + 1 - st'.1.1.1) < Z.to_nat (st.1.1.2 + 1 - st.1.1.1))%nat
  | Break r => search_post r
  end.
Proof.
  destruct st as [[[min max] mid] cur]. unfold search_inv, intsetSearch_step.
  intros (Hmin & Hmax & Hle & Hcur & Hlo & Hhi).
  case_bool_decide; simpl.
  - rewrite Z.quot_div_nonneg by lia.
    assert (min <= (min + max) / 2 <= max) as Hmid
      by (split; [apply Z.div_le_lower_bound|apply Z.div_le_upper_bound]; lia).
    set (mid' := (min + max) / 2) in *.
    repeat case_bool_decide; simpl.
    + split_and!; try lia; [apply get_below; lia|done].
    + split_and!; try lia; [done|].
      rewrite Z.sub_simpl_r. apply get_above; lia.
    + rewrite bool_decide_true by lia. split; [lia|].
      rewrite get_at by lia. f_equal. lia.
  - rewrite bool_decide_false by lia.
    assert (max + 1 = min) as Heq by lia. rewrite Heq in Hhi. split; [lia|auto].
Qed.

(** The search terminates; it finds the value if it is in the set and
    otherwise gives the position that keeps the array sorted. *)
Lemma search_spec :
  exists found pos, intsetSearch s v = Some (found, pos) /\
    if (found : bool) then search_found pos else search_insert pos.
Proof.
  unfold intsetSearch. rewrite (repr_length _ _ Hrepr).
  case_bool_decide as Hlen.
  { exists false, 0. split; [done|]. split; [lia|].
    by rewrite (nil_length_inv xs) by lia. }
  case_bool_decide as Hlast.
  { exists false, (zlen xs). split; [done|]. split; [lia|]. rewrite Nat2Z.id.
    rewrite drop_all. split; [|constructor].
    replace (length xs) with (Z.to_nat (zlen xs - 1 + 1)) by lia.
    apply get_below; lia. }
  case_bool_decide as Hfirst.
  { exists false, 0. split; [done|]. split; [lia|]. split; [constructor|].
    apply (get_above 0); lia. }
  destruct (loop_spec search_inv (fun st => Z.to_nat (st.1.1.2 + 1 - st.1.1.1))
              search_post (intsetSearch_step s v) (S (S (Z.to_nat (zlen xs))))
              (0, zlen xs - 1, -1, -1)) as ([[min mid] cur] & -> & Hpost).
  - apply search_step.
  - unfold search_inv. split_and!; try lia; [constructor|].
    rewrite drop_ge by lia. constructor.
  - simpl. lia.
  - simpl in *. case_bool_decide; eauto.
Qed.

Lemma search_found_elem pos : search_found pos -> v ∈ xs.
Proof. intros [_ ?]. by eapply list_elem_of_lookup_2. Qed.

Lemma search_insert_not_elem pos : search_insert pos -> v ∉ xs.
Proof.
  intros (_ & Hlo & Hhi) Hv. rewrite <- (take_drop (Z.to_nat pos) xs) in Hv.
  rewrite Forall_forall in Hlo, Hhi.
  apply elem_of_app in Hv as [?%Hlo|?%Hhi]; lia.
Qed.
End Search.

(** ** Resizing, moving the tail, upgrading *)

Section Update.
Variable junk : nat -> Z.

Lemma size_small s n :
  holds s n -> zlen n + 1 <= 2 ^ 29 - 1 ->
  forall k, 0 <= k <= zlen n + 1 ->
  Z.to_nat (uwrap 32 (k * is_encoding s)) =
    (Z.to_nat (is_encoding s) * Z.to_nat k)%nat.
Proof.
  intros Hh ? k ?. pose proof (enc_ok_bounds _ (holds_enc _ _ Hh)).
  rewrite uwrap_small by (unfold urange; nia).
  rewrite Z.mul_comm, Z2Nat.inj_mul by lia. done.
Qed.

Lemma resize_grow s xs :
  holds s xs -> zlen xs <= max_length ->
  exists j, holds (intsetResize junk s (zlen xs + 1)) (xs ++ [j]).
Proof.
  intros Hh Hlen. unfold max_length in *. pose proof Hh as [He Hm Hf].
  pose proof (enc_ok_bounds _ He).
  destruct (slots_surj (Z.to_nat (is_encoding s)) 1
              ((uwrap 8 ∘ junk) <$> seq 0 (Z.to_nat (is_encoding s))))
    as (ys & Hys & Hl & Hr);
    [lia|auto with redis|by rewrite length_fmap, length_seq, Nat.mul_1_r|].
  destruct ys as [|j [|]]; [done| |done]. exists j.
  unfold intsetResize. split; simpl; [done| |].
  - rewrite Hm. rewrite (size_small s xs) by (done || lia).
    rewrite realloc_grow by (rewrite length_slots; nia).
    rewrite length_slots, slots_app, <- Hys. do 3 f_equal. nia.
  - rewrite Z2Nat.id in Hr by lia. by apply Forall_app.
Qed.

Lemma resize_shrink s xs n :
  holds s xs -> zlen xs <= max_length -> (n <= length xs)%nat ->
  holds (intsetResize junk s (Z.of_nat n)) (take n xs).
Proof.
  intros Hh Hlen Hn. unfold max_length in *. pose proof Hh as [He Hm Hf].
  unfold intsetResize. split; simpl; [done| |by apply Forall_take].
  rewrite (size_small s xs), Hm, Nat2Z.id by (done || lia).
  rewrite realloc_shrink by (rewrite length_slots; nia). apply take_slots.
Qed.

Lemma moveTail_encoding s a b : is_encoding (intsetMoveTail s a b) = is_encoding s.
Proof. unfold intsetMoveTail. by repeat case_bool_decide. Qed.

Lemma moveTail_holds s xs (from to : nat) :
  holds s xs -> 0 <= is_length s - Z.of_nat from ->
  is_length s <= zlen xs -> zlen xs <= max_length + 1 ->
  holds (intsetMoveTail s (Z.of_nat from) (Z.of_nat to))
    (take to xs ++ take (Z.to_nat (is_length s) - from) (drop from xs)
       ++ drop (to + (Z.to_nat (is_length s) - from)) xs).
Proof.
  intros [He Hm Hf] Hfrom Hl Hmax. unfold max_length in *.
  split; rewrite ?moveTail_encoding; [done| |].
  - set (n := (Z.to_nat (is_length s) - from)%nat).
    rewrite <- move_slots by lia. rewrite <- Hm.
    assert (uwrap 32 (is_length s - Z.of_nat from) = Z.of_nat n) as Hb
      by (rewrite uwrap_small by (unfold urange; lia); lia).
    unfold intsetMoveTail. rewrite Hb. destruct He as [He|[He|He]]; rewrite He; simpl;
      (rewrite (uwrap_small 32 (_ * _)) by (unfold urange; lia));
      f_equal; lia.
  - rewrite !Forall_app. auto using Forall_take, Forall_drop.
Qed.

Lemma moveTail_length s a b : is_length (intsetMoveTail s a b) = is_length s.
Proof. unfold intsetMoveTail. by repeat case_bool_decide. Qed.

Lemma mem_write_ok off bs m : bytes_ok bs -> bytes_ok m -> bytes_ok (mem_write off bs m).
Proof.
  intros. unfold mem_write. rewrite !Forall_app. auto using Forall_take, Forall_drop.
Qed.

(** The memory during the copy of an upgrade from [c] to [e] bytes, with [n]
    elements still to be moved: they are in the old encoding at the front,
    the others already in the new encoding at their final place. *)
Record upgrading (c e : Z) (pre : nat) (xs tail : list Z) (n : nat) (s : intset) : Prop := {
  up_encoding : is_encoding s = e;
  up_bytes : bytes_ok (is_contents s);
  up_size : length (is_contents s) = (Z.to_nat e * (pre + length xs + length tail))%nat;
  up_old : take (Z.to_nat c * n) (is_contents s) = slots (Z.to_nat c) (take n xs);
  up_new : drop (Z.to_nat e * (n + pre)) (is_contents s) =
           slots (Z.to_nat e) (drop n xs ++ tail);
}.

Lemma upgrade_read c e pre xs tail n s x :
  enc_ok c -> Forall (srange (8 * c)) xs -> xs !! n = Some x ->
  upgrading c e pre xs tail (S n) s -> _intsetGetEncoded s (Z.of_nat n) c = x.
Proof.
  intros Hc Hf Hx [_ _ _ Hold _]. pose proof (enc_ok_bounds _ Hc).
  rewrite getEncoded_read, Z2Nat.inj_mul, Nat2Z.id by (done || lia).
  assert (mem_read (Z.to_nat c * n) (Z.to_nat c) (is_contents s) =
          le_encode (Z.to_nat c) x) as ->.
  { rewrite <- (read_slots _ n (take (S n) xs) x)
      by (apply lookup_take_Some; split; [done|lia]).
    rewrite <- Hold. unfold mem_read.
    replace (Z.to_nat c * S n)%nat with (Z.to_nat c * n + Z.to_nat c)%nat by lia.
    rewrite skipn_firstn_comm, take_take. f_equal. lia. }
  apply swrap_decode; [lia|]. rewrite Forall_forall in Hf.
  apply Hf. by eapply list_elem_of_lookup_2.
Qed.

Lemma upgrade_write c e pre xs tail n s x :
  enc_ok c -> enc_ok e -> c <= e -> xs !! n = Some x ->
  upgrading c e pre xs tail (S n) s ->
  upgrading c e pre xs tail n (_intsetSet s (Z.of_nat n + Z.of_nat pre) x).
Proof.
  intros Hc He Hce Hx [<- Hb Hs Hold Hnew].
  pose proof (enc_ok_bounds _ Hc). pose proof (enc_ok_bounds _ He).
  pose proof (lookup_lt_Some _ _ _ Hx).
  rewrite set_write, <- Nat2Z.inj_add, Z2Nat.inj_mul, Nat2Z.id by (done || lia).
  set (e := Z.to_nat (is_encoding s)) in *.
  assert (length (le_encode e x) = e) as Hel by auto with redis.
  assert (e * (n + pre) + e <= length (is_contents s))%nat by (rewrite Hs; nia).
  assert (Z.to_nat c <= e)%nat by lia.
  split; simpl.
  - done.
  - apply mem_write_ok; auto with redis.
  - rewrite length_mem_write by lia. exact Hs.
  - unfold mem_write. rewrite take_app_le by (rewrite length_take; nia).
    rewrite take_take, Nat.min_l by nia.
    transitivity (take (Z.to_nat c * n) (take (Z.to_nat c * S n) (is_contents s))).
    { rewrite take_take. f_equal. lia. }
    rewrite Hold, take_slots, take_take. do 2 f_equal. lia.
  - unfold mem_write. rewrite drop_app_length' by (rewrite length_take; lia).
    rewrite Hel. replace (e * (n + pre) + e)%nat with (e * (S n + pre))%nat by lia.
    rewrite Hnew, (drop_S xs x n) by done. by rewrite <- app_comm_cons, slots_cons.
Qed.

Lemma upgrade_loop_spec c e pre xs tail n s :
  enc_ok c -> enc_ok e -> c <= e -> Forall (srange (8 * c)) xs -> (n <= length xs)%nat ->
  upgrading c e pre xs tail n s ->
  upgrading c e pre xs tail 0 (upgrade_loop c (Z.of_nat pre) n s) /\
  is_length (upgrade_loop c (Z.of_nat pre) n s) = is_length s.
Proof.
  intros Hc He Hce Hf. revert s. induction n as [|n IH]; intros s Hn Hup; [done|].
  destruct (lookup_lt_is_Some_2 xs n) as [x Hx]; [lia|].
  simpl. erewrite upgrade_read by eauto.
  destruct (IH (_intsetSet s (Z.of_nat n + Z.of_nat pre) x)) as [H1 H2]; [lia| |].
  - by apply upgrade_write.
  - split; [done|]. by rewrite H2, set_length.
Qed.

(** The whole block of an upgrade, when every element has been moved. *)
Lemma upgraded_holds c e pre xs tail s :
  enc_ok e -> upgrading c e pre xs tail 0 s -> Forall (srange (8 * e)) (xs ++ tail) ->
  exists front, length front = pre /\ holds s (front ++ xs ++ tail).
Proof.
  intros He [<- Hb Hs _ Hnew] Hf. pose proof (enc_ok_bounds _ He).
  set (e := Z.to_nat (is_encoding s)) in *.
  destruct (slots_surj e pre (take (e * pre) (is_contents s))) as (front & Hfr & Hl & Hr);
    [lia|by apply Forall_take|rewrite length_take; nia|].
  exists front. split; [done|]. split; [done| |].
  - rewrite slots_app. fold e. rewrite drop_0, Nat.add_0_l in Hnew.
    rewrite <- Hfr, <- Hnew. by rewrite take_drop.
  - apply Forall_app. split; [|done]. unfold e in Hr. by rewrite Z2Nat.id in Hr by lia.
Qed.
End Update.

(** ** The operations on sets of integers *)

(** The set of integers an array holds. *)
Definition members (xs : list Z) : gset Z := list_to_set xs.

Lemma elem_members x xs : x ∈ members xs <-> x ∈ xs.
Proof. apply elem_of_list_to_set. Qed.

Lemma members_insert v xs p :
  members (take p xs ++ v :: drop p xs) = {[v]} ∪ members xs.
Proof.
  apply set_eq. intros x. rewrite elem_of_union, elem_of_singleton, !elem_members.
  rewrite <- (take_drop p xs) at 3. rewrite !elem_of_app, elem_of_cons. tauto.
Qed.

Lemma members_delete v xs p :
  increasing xs -> xs !! p = Some v ->
  members (take p xs ++ drop (S p) xs) = members xs ∖ {[v]}.
Proof.
  intros Hs Hv. rewrite <- (take_drop_middle xs p v Hv) in Hs.
  rewrite <- (take_drop_middle xs p v Hv) at 3.
  apply increasing_app_inv in Hs as (_ & [_ Hhi]%StronglySorted_inv & Hlo).
  rewrite Forall_forall in Hhi. apply set_eq. intros x.
  rewrite elem_of_difference, !elem_members, elem_of_singleton.
  rewrite !elem_of_app, elem_of_cons. split; [|tauto].
  intros [Hx|Hx]; (split; [tauto|]); intros ->.
  - assert (v < v); [apply Hlo; [done|by left]|lia].
  - specialize (Hhi v Hx). lia.
Qed.

Lemma increasing_insert v xs p :
  increasing xs -> Forall (fun x => x < v) (take p xs) ->
  Forall (fun x => v < x) (drop p xs) -> increasing (take p xs ++ v :: drop p xs).
Proof.
  intros Hs Hlo Hhi. rewrite <- (take_drop p xs) in Hs.
  apply increasing_app_inv in Hs as (H1 & H2 & H12).
  rewrite Forall_forall in Hlo, Hhi.
  apply increasing_app; [done| |].
  - constructor; [done|]. by apply Forall_forall.
  - intros x y Hx [->|Hy]%elem_of_cons; auto.
Qed.

Lemma increasing_delete xs p v :
  increasing xs -> xs !! p = Some v -> increasing (take p xs ++ drop (S p) xs).
Proof.
  intros Hs Hv. rewrite <- (take_drop_middle xs p v Hv) in Hs.
  apply increasing_app_inv in Hs as (H1 & [H2 _]%StronglySorted_inv & H12).
  apply increasing_app; [done|done|]. intros x y Hx Hy. apply H12; set_solver.
Qed.

(** A value too large for the encoding is beyond all the elements. *)
Lemma upgrade_outside s xs v :
  holds s xs -> srange 64 v -> is_encoding s < _intsetValueEncoding v ->
  Forall (fun x => if bool_decide (v < 0) then v < x else x < v) xs.
Proof.
  intros [He _ Hf] Hv Henc.
  assert (~ srange (8 * is_encoding s) v) as Hout
    by (rewrite <- valueEncoding_spec by done; lia).
  eapply Forall_impl; [exact Hf|]. intros x Hx. unfold srange in *.
  case_bool_decide; lia.
Qed.

Section Operations.
Variable junk : nat -> Z.

Lemma upgrade_prepare s xs e pre :
  holds s xs -> enc_ok e -> is_encoding s <= e -> zlen xs <= max_length ->
  (pre <= 1)%nat ->
  exists tail, length tail = (1 - pre)%nat /\ Forall (srange (8 * e)) tail /\
    upgrading (is_encoding s) e pre xs tail (length xs)
      (intsetResize junk (with_encoding s e) (zlen xs + 1)).
Proof.
  intros [He Hm Hf] He' Hle Hlen Hpre. unfold max_length in *.
  pose proof (enc_ok_bounds _ He). pose proof (enc_ok_bounds _ He').
  set (m' := is_contents (intsetResize junk (with_encoding s e) (zlen xs + 1))).
  assert (m' = is_contents s ++
            ((uwrap 8 ∘ junk) <$> seq 0 (Z.to_nat e * (1 + length xs) - length (is_contents s))))
    as Hm'.
  { unfold m', intsetResize. simpl. rewrite uwrap_small by (unfold urange; nia).
    rewrite realloc_grow by (rewrite Hm, length_slots; nia).
    repeat f_equal. nia. }
  assert (length m' = (Z.to_nat e * (1 + length xs))%nat) as Hlm.
  { rewrite Hm', Hm, length_app, length_fmap, length_seq, length_slots. nia. }
  assert (bytes_ok m') as Hok.
  { rewrite Hm'. apply Forall_app. rewrite Hm. auto using slots_ok with redis. }
  destruct (slots_surj (Z.to_nat e) (1 - pre) (drop (Z.to_nat e * (length xs + pre)) m'))
    as (tail & Htail & Hl & Hr); [lia|by apply Forall_drop|rewrite length_drop; nia|].
  rewrite Z2Nat.id in Hr by lia.
  exists tail. split_and!; [done|done|]. split; [done|done| | |].
  - fold m'. rewrite Hlm, Hl. f_equal. lia.
  - fold m'. rewrite Hm', Hm, take_app_le by (rewrite length_slots; done).
    apply take_slots.
  - fold m'. rewrite drop_all. done.
Qed.

Lemma upgradeAndAdd_holds s xs v :
  intset_repr s xs -> zlen xs <= max_length -> srange 64 v ->
  is_encoding s < _intsetValueEncoding v ->
  let s' := intsetUpgradeAndAdd junk s v in
  holds s' (if bool_decide (v < 0) then v :: xs else xs ++ [v]) /\
  is_length s' = zlen xs + 1 /\ is_encoding s' = _intsetValueEncoding v.
Proof.
  intros [Hh Hlen _] Hmax Hv Henc s'. pose proof Hh as [He Hm Hf].
  set (e := _intsetValueEncoding v) in *.
  assert (enc_ok e) as He' by apply valueEncoding_ok.
  pose proof (enc_ok_bounds _ He). pose proof (enc_ok_bounds _ He').
  assert (srange (8 * e) v) as Hve by (apply valueEncoding_spec; [done|done|reflexivity]).
  assert (Forall (srange (8 * e)) xs) as Hf'
    by (eapply Forall_impl; [exact Hf|]; intros; eapply srange_mono; [|done]; lia).
  set (pre := if bool_decide (v < 0) then 1%nat else 0%nat).
  destruct (upgrade_prepare s xs e pre) as (tail & Htl & Htr & Hup);
    [done|done|lia|done|unfold pre; case_bool_decide; lia|].
  destruct (upgrade_loop_spec (is_encoding s) e pre xs tail (length xs) _ He He'
              ltac:(lia) Hf ltac:(lia) Hup) as [Hup' Hul].
  destruct (upgraded_holds _ _ _ _ _ _ He' Hup') as (front & Hfl & Hfh);
    [by apply Forall_app|].
  pose proof (up_encoding _ _ _ _ _ _ _ Hup') as Hue.
  assert (is_length (intsetResize junk (with_encoding s e) (zlen xs + 1)) = zlen xs)
    as Hrl by done.
  unfold s', intsetUpgradeAndAdd. fold e. simpl. rewrite Hlen, Nat2Z.id.
  unfold pre in *. clear s' pre. unfold max_length in *.
  case_bool_decide; [change (Z.of_nat 1) with 1 in *|change (Z.of_nat 0) with 0 in *].
  - destruct front as [|f [|]]; [done| |done]. destruct tail; [|done].
    rewrite app_nil_r in Hfh. split_and!; simpl.
    + eapply (holds_set _ _ 0 v) in Hfh; [|simpl; lia|by rewrite Hue].
      destruct Hfh. by split.
    + rewrite set_length, Hul, Hrl. apply uwrap_small. unfold urange. lia.
    + by rewrite set_encoding, Hue.
  - destruct front; [|done]. destruct tail as [|t [|]]; [done| |done].
    rewrite Hul, Hrl. split_and!; simpl.
    + eapply (holds_set _ _ (length xs) v) in Hfh;
        [|simpl; rewrite length_app; simpl; lia|by rewrite Hue].
      simpl in Hfh. rewrite insert_app_r_alt, Nat.sub_diag in Hfh by done.
      destruct Hfh. by split.
    + rewrite set_length, Hul, Hrl. apply uwrap_small. unfold urange. lia.
    + by rewrite set_encoding, Hue.
Qed.

Lemma insert_shifted (xs : list Z) j v p :
  (p <= length xs)%nat ->
  <[p:=v]> (take (S p) (xs ++ [j]) ++
            take (length xs - p) (drop p (xs ++ [j])) ++
            drop (S p + (length xs - p)) (xs ++ [j])) =
  take p xs ++ v :: drop p xs.
Proof.
  intros Hp.
  rewrite (drop_ge (xs ++ [j]) (S p + (length xs - p))) by (rewrite length_app; simpl; lia). rewrite app_nil_r.
  assert (take (S p) (xs ++ [j]) = take p xs ++ take 1 (drop p (xs ++ [j]))) as ->.
  { replace (S p) with (p + 1)%nat by lia.
    by rewrite <- take_take_drop, (take_app_le xs [j] p) by lia. }
  rewrite <- app_assoc.
  assert (exists y ys, drop p (xs ++ [j]) = y :: ys /\ take (length xs - p) (y :: ys) = drop p xs)
    as (y & ys & -> & ->).
  { rewrite drop_app_le by lia. destruct (drop p xs ++ [j]) as [|y ys] eqn:E.
    - by destruct (drop p xs).
    - exists y, ys. split; [done|]. rewrite <- E.
      rewrite take_app_le by (rewrite length_drop; lia).
      apply take_ge. rewrite length_drop. lia. }
  rewrite insert_app_r_alt by (rewrite length_take; lia).
  rewrite length_take, Nat.min_l, Nat.sub_diag by lia. done.
Qed.

Lemma add_at_holds s xs v (p : nat) :
  intset_repr s xs -> zlen xs <= max_length -> (p <= length xs)%nat ->
  srange (8 * is_encoding s) v ->
  let s1 := intsetResize junk s (is_length s + 1) in
  let s2 := if bool_decide (Z.of_nat p < is_length s1)
            then intsetMoveTail s1 (Z.of_nat p) (Z.of_nat p + 1) else s1 in
  let s3 := _intsetSet s2 (Z.of_nat p) v in
  holds s3 (take p xs ++ v :: drop p xs) /\ is_length s3 = zlen xs /\
  is_encoding s3 = is_encoding s.
Proof.
  intros [Hh Hlen _] Hmax Hp Hv s1.
  assert (is_length s1 = zlen xs) as Hl1 by done.
  destruct (resize_grow junk s xs Hh Hmax) as [j Hj]. rewrite <- Hlen in Hj. fold s1 in Hj.
  rewrite Hl1. unfold max_length in *. case_bool_decide; simpl.
  - split_and!.
    + rewrite <- (insert_shifted xs j v p) by done.
      assert (holds (intsetMoveTail s1 (Z.of_nat p) (Z.of_nat p + 1))
                (take (S p) (xs ++ [j]) ++ take (length xs - p) (drop p (xs ++ [j])) ++
                 drop (S p + (length xs - p)) (xs ++ [j]))) as Hmv.
      { pose proof (moveTail_holds s1 (xs ++ [j]) p (S p) Hj) as Hmv.
        rewrite Hl1, Nat2Z.id, length_app in Hmv.
        replace (Z.of_nat p + 1) with (Z.of_nat (S p)) by lia.
        apply Hmv; unfold max_length; simpl; lia. }
      apply holds_set; [done| |by rewrite moveTail_encoding].
      rewrite !length_app, !length_take, length_app, length_drop. cbn [length]. lia.
    + by rewrite set_length, moveTail_length.
    + by rewrite set_encoding, moveTail_encoding.
  - assert (p = length xs) as -> by lia.
    rewrite drop_all, take_ge by done. split_and!.
    + rewrite <- (Nat.add_0_r (length xs)) at 1.
      replace (xs ++ [v]) with (<[length xs:=v]> (xs ++ [j]))
        by (by rewrite insert_app_r_alt, Nat.sub_diag).
      rewrite Nat.add_0_r. apply holds_set; [done|rewrite length_app; simpl; lia|done].
    + by rewrite set_length.
    + by rewrite set_encoding.
Qed.

(** Overwriting position [p] with the tail leaves the other elements in the
    first [length - 1] slots. *)
Lemma shift_out_holds s xs (p : nat) v :
  intset_repr s xs -> zlen xs <= max_length -> xs !! p = Some v ->
  let s2 := if bool_decide (Z.of_nat p < is_length s - 1)
            then intsetMoveTail s (Z.of_nat p + 1) (Z.of_nat p) else s in
  exists ys, holds s2 ys /\ length ys = length xs /\
    take (length xs - 1) ys = take p xs ++ drop (S p) xs /\
    is_encoding s2 = is_encoding s.
Proof.
  intros [Hh Hlen _] Hmax Hget s2. pose proof (lookup_lt_Some _ _ _ Hget) as Hp.
  unfold max_length in *. unfold s2. rewrite Hlen. case_bool_decide.
  - pose proof (moveTail_holds s xs (S p) p Hh) as Hmv.
    rewrite Hlen, Nat2Z.id in Hmv. replace (Z.of_nat p + 1) with (Z.of_nat (S p)) by lia.
    eexists. split; [apply Hmv; unfold max_length; lia|].
    rewrite moveTail_encoding. split_and!; [|..|done].
    + rewrite !length_app, !length_take, !length_drop. lia.
    + rewrite app_assoc, take_app_le
        by (rewrite length_app, !length_take, length_drop; lia).
      rewrite take_ge by (rewrite length_app, !length_take, length_drop; lia).
      f_equal. apply take_ge. rewrite length_drop. lia.
  - exists xs. assert (p = (length xs - 1)%nat) as -> by lia.
    rewrite (drop_ge xs) by lia. by rewrite app_nil_r.
Qed.
End Operations.

Section Correctness.
Variable junk : nat -> Z.

Lemma repr_fits s xs : intset_repr s xs -> Forall (srange (8 * is_encoding s)) xs.
Proof. intros [[]]. done. Qed.

Lemma not_fits_not_elem s xs v :
  intset_repr s xs -> srange 64 v -> is_encoding s < _intsetValueEncoding v -> v ∉ xs.
Proof.
  intros [Hh _ _] Hv Henc Hin.
  pose proof (upgrade_outside s xs v Hh Hv Henc) as Hout.
  rewrite Forall_forall in Hout. specialize (Hout v Hin). case_bool_decide; lia.
Qed.

(** Insertion: the upgrade path. *)
Lemma upgrade_repr s xs v :
  intset_repr s xs -> zlen xs <= max_length -> srange 64 v ->
  is_encoding s < _intsetValueEncoding v ->
  exists xs', intset_repr (intsetUpgradeAndAdd junk s v) xs' /\
    members xs' = {[v]} ∪ members xs /\ zlen xs' = zlen xs + 1.
Proof.
  intros Hr Hmax Hv Henc. pose proof Hr as [Hh Hlen Hs].
  destruct (upgradeAndAdd_holds junk s xs v Hr Hmax Hv Henc) as (Hh' & Hl' & He').
  pose proof (upgrade_outside s xs v Hh Hv Henc) as Hout.
  case_bool_decide.
  - exists (v :: xs). split; [split; [done|cbn [length]; lia|]|].
    + by constructor.
    + split; [by apply (members_insert v xs 0)|cbn [length]; lia].
  - exists (xs ++ [v]). split; [split; [done|rewrite length_app; cbn [length]; lia|]|].
    + rewrite Forall_forall in Hout.
      apply increasing_app; [done|by repeat constructor|].
      intros x y Hx ->%list_elem_of_singleton. by apply Hout.
    + rewrite length_app; simpl. split; [|lia].
      pose proof (members_insert v xs (length xs)) as Hm.
      by rewrite firstn_all, drop_all in Hm.
Qed.

(** Insertion: the flag says whether the value was new; the encoding never
    shrinks, and is the smallest that fits when it grows. *)
Lemma intsetAdd_spec s xs v :
  intset_repr s xs -> zlen xs <= max_length -> srange 64 v ->
  exists s' xs' ok, intsetAdd junk s v = Some (s', ok) /\ intset_repr s' xs' /\
    members xs' = {[v]} ∪ members xs /\
    ok = bool_decide (v ∉ members xs) /\
    intsetLen s' = intsetLen s + (if ok then 1 else 0) /\
    is_encoding s' = Z.max (is_encoding s) (_intsetValueEncoding v).
Proof.
  intros Hr Hmax Hv. pose proof Hr as [Hh Hlen Hs]. unfold intsetAdd, intsetLen.
  case_bool_decide as Henc.
  - destruct (upgrade_repr s xs v) as (xs' & Hr' & Hm & Hl'); [done..|lia|].
    destruct (upgradeAndAdd_holds junk s xs v) as (_ & Hl & He); [done..|lia|].
    eexists _, xs', true. split_and!; [done|done|done| |lia|lia].
    rewrite bool_decide_true; [done|]. rewrite elem_members.
    eapply not_fits_not_elem; [done|done|lia].
  - assert (srange (8 * is_encoding s) v) as Hfit
      by (apply valueEncoding_spec; [done|apply Hh|lia]).
    destruct (search_spec s xs Hr v) as (found & pos & -> & Hpost). simpl.
    destruct found.
    + apply search_found_elem in Hpost.
      exists s, xs, false. rewrite bool_decide_false by (rewrite elem_members; tauto).
      split_and!; [done|done| |done|lia|lia].
      apply set_eq. intros x. rewrite elem_of_union, elem_of_singleton, !elem_members.
      split; [auto|intros [->|]; done].
    + pose proof (search_insert_not_elem _ _ _ Hpost) as Hnew.
      destruct Hpost as (Hpos & Hlo & Hhi).
      rewrite <- (Z2Nat.id pos) by lia. set (p := Z.to_nat pos) in *.
      destruct (add_at_holds junk s xs v p) as (Hh' & Hl' & He'); [done|done|lia|done|].
      set (s3 := _intsetSet _ _ _) in *. unfold max_length in *.
      assert (uwrap 32 (is_length s3 + 1) = zlen xs + 1) as Hw
        by (rewrite Hl'; apply uwrap_small; unfold urange; lia).
      exists (with_length s3 (uwrap 32 (is_length s3 + 1))), (take p xs ++ v :: drop p xs), true.
      rewrite bool_decide_true by (by rewrite elem_members).
      split_and!; [done| |apply members_insert|done|simpl; lia|simpl; lia].
      split; [destruct Hh'; by split| |by apply increasing_insert].
      simpl. rewrite Hw, length_app. simpl. rewrite length_take, length_drop. lia.
Qed.

(** Deletion, in the same encoding. *)
Lemma intsetRemove_spec s xs v :
  intset_repr s xs -> zlen xs <= max_length -> srange 64 v ->
  exists s' xs' ok, intsetRemove junk s v = Some (s', ok) /\ intset_repr s' xs' /\
    members xs' = members xs ∖ {[v]} /\
    ok = bool_decide (v ∈ members xs) /\
    intsetLen s' = intsetLen s - (if ok then 1 else 0) /\
    is_encoding s' = is_encoding s.
Proof.
  intros Hr Hmax Hv. pose proof Hr as [Hh Hlen Hs]. unfold intsetRemove, intsetLen.
  assert (forall (Hn : v ∉ xs), exists s' xs' ok, Some (s, false) = Some (s', ok) /\
    intset_repr s' xs' /\ members xs' = members xs ∖ {[v]} /\
    ok = bool_decide (v ∈ members xs) /\ is_length s' = is_length s - (if ok then 1 else 0) /\
    is_encoding s' = is_encoding s) as Hnone.
  { intros Hn. exists s, xs, false. rewrite bool_decide_false by (by rewrite elem_members).
    split_and!; [done|done| |done|lia|done].
    apply set_eq. intros x. rewrite elem_of_difference, elem_of_singleton, !elem_members.
    split; [|tauto]. intros ?. split; [done|congruence]. }
  destruct (decide (_intsetValueEncoding v <= is_encoding s)) as [Henc|Henc];
    [rewrite (bool_decide_true (_ <= _)) by done
    |rewrite (bool_decide_false (_ <= _)) by done; apply Hnone; eapply not_fits_not_elem; [done|done|lia]].
  destruct (search_spec s xs Hr v) as (found & pos & -> & Hpost). simpl.
  destruct found; [|by apply Hnone, (search_insert_not_elem xs v pos)].
  destruct Hpost as [Hpos Hget]. rewrite <- (Z2Nat.id pos) by lia.
  set (p := Z.to_nat pos) in *. pose proof (lookup_lt_Some _ _ _ Hget) as Hp.
  unfold max_length in *. rewrite Hlen. clear Hnone.
  destruct (shift_out_holds s xs p v Hr Hmax Hget) as (ys & Hh2 & Hl2 & Hys & He2).
  rewrite Hlen in Hh2, He2. set (s2 := if bool_decide _ then _ else _) in *.
  assert (uwrap 32 (zlen xs - 1) = zlen xs - 1) as ->
    by (apply uwrap_small; unfold urange; lia).
  pose proof (resize_shrink junk s2 ys (length xs - 1) Hh2) as Hsh.
  rewrite Hys, Hl2 in Hsh. unfold max_length in Hsh.
  rewrite Nat2Z.inj_sub in Hsh by lia. specialize (Hsh ltac:(lia) ltac:(lia)).
  eexists _, (take p xs ++ drop (S p) xs), true.
  rewrite bool_decide_true by (rewrite elem_members; by eapply list_elem_of_lookup_2).
  split_and!; [done| |by apply members_delete|done|simpl; lia|done].
  split; [destruct Hsh; by split| |by eapply increasing_delete].
  simpl. rewrite length_app, length_take, length_drop. lia.
Qed.

(** Membership; enumeration in increasing order. *)
Lemma intsetFind_Get s xs v pos :
  intset_repr s xs -> srange 64 v -> 0 <= pos ->
  intsetFind s v = Some (bool_decide (v ∈ members xs)) /\
  intsetGet s pos = xs !! Z.to_nat pos.
Proof.
  intros Hr Hv Hpos. split.
  - unfold intsetFind. case_bool_decide.
    + destruct (search_spec s xs Hr v) as (found & p & -> & Hpost). simpl. f_equal.
      destruct found.
      * rewrite bool_decide_true; [done|]. rewrite elem_members.
        by eapply search_found_elem.
      * rewrite bool_decide_false; [done|]. rewrite elem_members.
        by eapply search_insert_not_elem.
    + rewrite bool_decide_false; [done|]. rewrite elem_members.
      eapply not_fits_not_elem; [done|done|lia].
  - unfold intsetGet. rewrite (repr_length _ _ Hr). case_bool_decide.
    + symmetry. by apply get_at.
    + symmetry. apply lookup_ge_None. lia.
Qed.

End Correctness.

(** ** Sequences of operations *)

Inductive intset_op := IsAdd (v : Z) | IsRemove (v : Z) | IsFind (v : Z) | IsGet (pos : Z) | IsLen.
Inductive intset_res := IrFlag (b : bool) | IrElem (v : option Z) | IrLen (n : Z).

Definition intset_op_ok (op : intset_op) : Prop :=
  match op with IsAdd v | IsRemove v | IsFind v => srange 64 v | IsGet pos => urange 32 pos | IsLen => True end.
#[export] Instance intset_op_ok_dec op : Decision (intset_op_ok op).
Proof. destruct op; apply _. Defined.

Section Run.
Variable junk : nat -> Z.

Definition intset_step (s : intset) (op : intset_op) : option (intset * intset_res) :=
  match op with
  | IsAdd v => '(s, ok) ← intsetAdd junk s v; Some (s, IrFlag ok)
  | IsRemove v => '(s, ok) ← intsetRemove junk s v; Some (s, IrFlag ok)
  | IsFind v => b ← intsetFind s v; Some (s, IrFlag b)
  | IsGet pos => Some (s, IrElem (intsetGet s pos))
  | IsLen => Some (s, IrLen (intsetLen s))
  end.

Fixpoint intset_run (s : intset) (ops : list intset_op) : option (intset * list intset_res) :=
  match ops with
  | [] => Some (s, [])
  | op :: ops => '(s, r) ← intset_step s op; '(s, rs) ← intset_run s ops; Some (s, r :: rs)
  end.

(** The specification: an increasing sequence of integers, and the number of
    bytes of the widest one it has ever held. *)
Fixpoint sorted_insert (v : Z) (xs : list Z) : list Z :=
  match xs with
  | [] => [v]
  | x :: xs' => if decide (v = x) then xs else if decide (v < x) then v :: xs else x :: sorted_insert v xs'
  end.

Definition intset_spec_step (st : list Z * Z) (op : intset_op) : list Z * Z * intset_res :=
  let '(xs, enc) := st in
  match op with
  | IsAdd v => (sorted_insert v xs, Z.max enc (_intsetValueEncoding v), IrFlag (bool_decide (v ∉ xs)))
  | IsRemove v => (filter (fun x => x <> v) xs, enc, IrFlag (bool_decide (v ∈ xs)))
  | IsFind v => (xs, enc, IrFlag (bool_decide (v ∈ xs)))
  | IsGet pos => (xs, enc, IrElem (xs !! Z.to_nat pos))
  | IsLen => (xs, enc, IrLen (zlen xs))
  end.

Fixpoint intset_spec_run (st : list Z * Z) (ops : list intset_op) : list Z * Z * list intset_res :=
  match ops with
  | [] => (st, [])
  | op :: ops => let '(st, r) := intset_spec_step st op in let '(st, rs) := intset_spec_run st ops in (st, r :: rs)
  end.

Lemma sorted_insert_elem v xs x : x ∈ sorted_insert v xs <-> x = v \/ x ∈ xs.
Proof.
  induction xs as [|y xs IH]; simpl; [by rewrite list_elem_of_singleton, elem_of_nil; tauto|].
  case_decide as Heq; [subst; rewrite elem_of_cons; tauto|]. case_decide; rewrite !elem_of_cons; [tauto|].
  rewrite IH. tauto.
Qed.

Lemma sorted_insert_increasing v xs : increasing xs -> increasing (sorted_insert v xs).
Proof.
  induction 1 as [|x xs Hs IH Hx]; simpl; [by repeat constructor|].
  case_decide as Heq; [by constructor|]. rewrite Forall_forall in Hx. case_decide.
  - constructor; [constructor; [done|by apply Forall_forall]|]. apply Forall_forall. intros y [->|Hy]%elem_of_cons; [done|].
    specialize (Hx y Hy). lia.
  - constructor; [done|]. apply Forall_forall. intros y [->|Hy]%sorted_insert_elem; [lia|auto].
Qed.

Lemma increasing_filter (P : Z -> Prop) `{forall x, Decision (P x)} xs : increasing xs -> increasing (filter P xs).
Proof.
  induction 1 as [|x xs Hs IH Hx]; [constructor|]. destruct (decide (P x)).
  - rewrite filter_cons_True by done. constructor; [done|]. rewrite Forall_forall in *.
    intros y [_ Hy]%list_elem_of_filter. auto.
  - by rewrite filter_cons_False.
Qed.

(** Two increasing sequences of the same elements. *)
Lemma increasing_unique xs ys : increasing xs -> increasing ys -> members xs = members ys -> xs = ys.
Proof.
  intros Hx Hy Hm. revert ys Hy Hm. induction Hx as [|x xs Hx IH Hxs]; intros ys Hy Hm.
  - destruct ys as [|y ys]; [done|]. exfalso. assert (y ∈ members []) as Hin; [|by apply elem_members, elem_of_nil in Hin].
    rewrite Hm. apply elem_members, list_elem_of_here.
  - assert (forall z, z ∈ x :: xs <-> z ∈ ys) as Hel by (intros z; rewrite <- !elem_members; by rewrite Hm).
    destruct Hy as [|y ys Hy Hys]; [exfalso; by eapply not_elem_of_nil, Hel, list_elem_of_here|].
    rewrite Forall_forall in Hxs, Hys.
    assert (x = y) as ->.
    { pose proof (proj1 (Hel x) (list_elem_of_here _ _)) as [|H1]%elem_of_cons; [done|].
      pose proof (proj2 (Hel y) (list_elem_of_here _ _)) as [|H2]%elem_of_cons; [done|].
      specialize (Hys x H1). specialize (Hxs y H2). lia. }
    f_equal. apply IH; [done|]. apply set_eq. intros z. rewrite !elem_members.
    specialize (Hel z). rewrite !elem_of_cons in Hel. split; intros Hz.
    + destruct (proj1 Hel (or_intror Hz)) as [->|]; [|done]. specialize (Hxs y Hz). lia.
    + destruct (proj2 Hel (or_intror Hz)) as [->|]; [|done]. specialize (Hys y Hz). lia.
Qed.

Lemma intset_step_spec s xs op : intset_repr s xs -> zlen xs <= max_length -> intset_op_ok op ->
  exists s' xs' enc r, intset_step s op = Some (s', r) /\ intset_spec_step (xs, is_encoding s) op = (xs', enc, r) /\
    intset_repr s' xs' /\ is_encoding s' = enc /\ zlen xs' <= zlen xs + 1.
Proof.
  intros Hr Hm Hop. destruct op as [v|v|v|pos|]; simpl in *.
  - destruct (intsetAdd_spec junk s xs v Hr Hm Hop) as (s' & xs' & ok & -> & Hr' & Hmem & -> & Hlen & Henc). bind_simpl.
    assert (xs' = sorted_insert v xs) as ->.
    { apply increasing_unique; [apply Hr'|apply sorted_insert_increasing, Hr|]. rewrite Hmem. apply set_eq. intros x.
      by rewrite elem_of_union, elem_of_singleton, !elem_members, sorted_insert_elem. }
    eexists _, _, _, _. split; [done|]. split; [rewrite <- Henc; do 2 f_equal; apply bool_decide_ext; by rewrite elem_members|]. split_and!; [done|done|].
    unfold intsetLen in Hlen. rewrite (repr_length _ _ Hr), (repr_length _ _ Hr') in Hlen. case_bool_decide; lia.
  - destruct (intsetRemove_spec junk s xs v Hr Hm Hop) as (s' & xs' & ok & -> & Hr' & Hmem & -> & Hlen & Henc). bind_simpl.
    assert (xs' = filter (fun x => x <> v) xs) as ->.
    { apply increasing_unique; [apply Hr'|apply increasing_filter, Hr|]. rewrite Hmem. apply set_eq. intros x.
      rewrite elem_of_difference, elem_of_singleton, !elem_members, list_elem_of_filter. tauto. }
    eexists _, _, _, _. split; [done|]. split; [do 2 f_equal; apply bool_decide_ext; by rewrite elem_members|]. split_and!; [done|done|].
    pose proof (length_filter (fun x => x <> v) xs). lia.
  - rewrite (proj1 (intsetFind_Get s xs v 0 Hr Hop ltac:(lia))). bind_simpl. eexists _, _, _, _.
    split; [done|]. split; [do 2 f_equal; apply bool_decide_ext; by rewrite elem_members|]. split_and!; [done|done|lia].
  - rewrite (proj2 (intsetFind_Get s xs 0 pos Hr ltac:(unfold srange; simpl; lia) ltac:(unfold urange in *; lia))).
    eexists _, _, _, _. split_and!; [done..|lia].
  - unfold intsetLen. rewrite (repr_length _ _ Hr). eexists _, _, _, _. split_and!; [done..|lia].
Qed.

Lemma intset_run_spec ops s xs : intset_repr s xs -> zlen xs + zlen ops <= max_length + 1 -> Forall intset_op_ok ops ->
  exists s' xs' enc rs, intset_run s ops = Some (s', rs) /\ intset_spec_run (xs, is_encoding s) ops = (xs', enc, rs) /\
    intset_repr s' xs' /\ is_encoding s' = enc.
Proof.
  intros Hr Hm Hops. revert s xs Hr Hm. induction Hops as [|op ops Hop _ IH]; intros s xs Hr Hm.
  { by eexists _, _, _, _. }
  cbn [length] in Hm. destruct (intset_step_spec s xs op Hr ltac:(lia) Hop) as (s1 & xs1 & enc1 & r & Hs & Hsp & Hr1 & He1 & Hl).
  destruct (IH s1 xs1 Hr1 ltac:(lia)) as (s' & xs' & enc & rs & Hrun & Hspr & Hr' & He').
  cbn [intset_run intset_spec_run]. rewrite Hs. bind_simpl. rewrite Hrun. bind_simpl. rewrite Hsp, <- He1, Hspr. by eexists _, _, _, _.
Qed.

(** C1: Any sequence of additions, deletions, searches and reads by position
    on a new intset has the results of the same operations on an increasing
    sequence of integers: flags, members, order and length; the block it leaves
    holds this sequence in the encoding of the widest integer that was ever
    added, however the encoding was upgraded on the way. *)
Theorem intset_run_refines ops : zlen ops <= max_length -> Forall intset_op_ok ops ->
  exists s xs enc rs, intset_run intsetNew ops = Some (s, rs) /\
    intset_spec_run ([], INTSET_ENC_INT16) ops = (xs, enc, rs) /\ intset_repr s xs /\ is_encoding s = enc.
Proof.
  intros Hl Hops. apply (intset_run_spec ops intsetNew []); [|simpl; lia|done].
  split; [|done|constructor]. split; [by left|done|constructor].
Qed.
End Run.

Definition sample_intset_ops : list intset_op :=
  [IsAdd 5; IsAdd (-70000); IsAdd 1; IsAdd 5; IsFind (-70000); IsRemove 1; IsAdd (2 ^ 40); IsGet 1; IsGet 3; IsLen].

Lemma intset_run_refines_witness : exists s xs enc rs,
  intset_run (fun _ => 7) intsetNew sample_intset_ops = Some (s, rs) /\
    intset_spec_run ([], INTSET_ENC_INT16) sample_intset_ops = (xs, enc, rs) /\ intset_repr s xs /\ is_encoding s = enc.
Proof. apply intset_run_refines; [by vm_compute|apply (bool_decide_unpack _); vm_compute; exact I]. Defined.

Example sample_intset_results :
  (intset_spec_run ([], INTSET_ENC_INT16) sample_intset_ops).2 =
  [IrFlag true; IrFlag true; IrFlag true; IrFlag false; IrFlag true; IrFlag true; IrFlag true; IrElem (Some 5); IrElem None; IrLen 3].
Proof. vm_compute. reflexivity. Qed.
