(* ===== verification/Dict.v ===== *)
(** * Hash tables ([dict.c], [dict.h])

    The chained hash table with incremental rehashing behind every Redis
    database, set and hash.  A bucket is the list of its entries, in the order
    of the [next] pointers; [NULL] tables are empty lists; an entry is named by
    its table, bucket and position in the chain.  The key type comes with its
    hash function, the [dictType] interface below.  A result [None] stands for
    a read outside a table, a [NULL] dereference or a loop out of fuel; the
    theorems show that none of them happens. *)
From S2P Require Import Prelude.

(** ** The interface of a key type *)

(** [dictType]: a 32-bit hash function on keys compared by equality. *)
Class DictType (K : Type) `{EqDecision K} := {
  hashFunction : K -> Z;
  hashFunction_range k : urange 32 (hashFunction k);
}.

Definition DICT_HT_INITIAL_SIZE : Z := 4.
Definition dict_force_resize_ratio : Z := 5.
Definition LONG_MAX : Z := 2 ^ 63 - 1.

Record dictEntry (K V : Type) := DictEntry { key : K; val : V }.
Arguments DictEntry {K V} _ _.
Arguments key {K V} _.
Arguments val {K V} _.

Record dictht (K V : Type) := Dictht {
  table : list (list (dictEntry K V));
  size : Z;
  sizemask : Z;
  used : Z;
}.
Arguments Dictht {K V} _ _ _ _.
Arguments table {K V} _.
Arguments size {K V} _.
Arguments sizemask {K V} _.
Arguments used {K V} _.

Record dict (K V : Type) := Dict {
  ht0 : dictht K V;
  ht1 : dictht K V;
  rehashidx : Z;
  iterators : Z;
}.
Arguments Dict {K V} _ _ _ _.
Arguments ht0 {K V} _.
Arguments ht1 {K V} _.
Arguments rehashidx {K V} _.
Arguments iterators {K V} _.

(** A pointer to an entry: second table or first, bucket, position. *)
Record entry_ptr := EntryPtr { in_ht1 : bool; bucket : nat; position : nat }.

(** ** Bit reversal, for the cursor of [dictScan] *)


(** One iteration of [dict_rev]: swap the [s]-bit halves. State [(s, mask, v)]. *)
Definition rev_step (st : Z * Z * Z) : ctl (Z * Z * Z) Z :=
  let '(s, mask, v) := st in
  let s := Z.shiftr s 1 in
  if bool_decide (s > 0) then
    let mask := Z.lxor mask (uwrap 64 (Z.shiftl mask s)) in
    Continue (s, mask,
      Z.lor (Z.land (Z.shiftr v s) mask) (Z.land (uwrap 64 (Z.shiftl v s)) (unot 64 mask)))
  else Break v.

(** [rev]. *)
Definition dict_rev (v : Z) : option Z := loop 8 rev_step (64, 2 ^ 64 - 1, v).

Section Dict.
Context {K V : Type} `{DictType K}.

(** The global [dict_can_resize], and the value [zmalloc] leaves in a new
    entry until [dictSetVal] sets it. *)
Variable dict_can_resize : bool.
Variable junk_val : V.

Abbreviation entry := (dictEntry K V).
Abbreviation dictht := (dictht K V).
Abbreviation dict := (dict K V).

Definition _dictReset : dictht := Dictht [] 0 0 0.

(** [dictCreate] and [_dictInit]. *)
Definition dictCreate : dict := Dict _dictReset _dictReset (-1) 0.

Definition dictIsRehashing (d : dict) : bool := bool_decide (rehashidx d <> -1).
Definition dictSize (d : dict) : Z := used (ht0 d) + used (ht1 d).
Definition dictSlots (d : dict) : Z := size (ht0 d) + size (ht1 d).

(** The doubling loop of [_dictNextPower]: at most 62 doublings reach
    [LONG_MAX]. *)
Definition nextPower_step (n i : Z) : ctl Z Z :=
  if bool_decide (i >= n) then Break i else Continue (uwrap 64 (i * 2)).

Definition _dictNextPower (n : Z) : option Z :=
  if bool_decide (n >= LONG_MAX) then Some LONG_MAX
  else loop 64 (nextPower_step n) DICT_HT_INITIAL_SIZE.

(** The flag of [dictExpand] and [dictResize] is true for [DICT_OK]. *)
Definition dictExpand (d : dict) (n : Z) : option (dict * bool) :=
  realsize ← _dictNextPower n;
  if bool_decide (dictIsRehashing d = true \/ used (ht0 d) > n) then Some (d, false)
  else
    let ht := Dictht (replicate (Z.to_nat realsize) []) realsize (realsize - 1) 0 in
    match table (ht0 d) with
    | [] => Some (Dict ht (ht1 d) (rehashidx d) (iterators d), true)
    | _ => Some (Dict (ht0 d) ht 0 (iterators d), true)
    end.

Definition dictResize (d : dict) : option (dict * bool) :=
  if bool_decide (dict_can_resize = false \/ dictIsRehashing d = true) then Some (d, false)
  else
    let minimal := swrap 32 (used (ht0 d)) in
    let minimal := if bool_decide (minimal < DICT_HT_INITIAL_SIZE)
                   then DICT_HT_INITIAL_SIZE else minimal in
    dictExpand d minimal.

(** [while(table[rehashidx] == NULL) rehashidx++]: [None] past the end. *)
Definition skip_empty_step (tbl : list (list entry)) (i : Z) : ctl Z (option Z) :=
  match tbl !! Z.to_nat i with
  | None => Break None
  | Some [] => Continue (i + 1)
  | Some _ => Break (Some i)
  end.

(** Moving the chain of a bucket, entry by entry, to the heads of its new
    buckets. *)
Fixpoint move_chain (de : list entry) (h0 h1 : dictht) : option (dictht * dictht) :=
  match de with
  | [] => Some (h0, h1)
  | e :: next =>
      let h := uwrap 32 (Z.land (hashFunction (key e)) (sizemask h1)) in
      chain ← table h1 !! Z.to_nat h;
      move_chain next
        (Dictht (table h0) (size h0) (sizemask h0) (used h0 - 1))
        (Dictht (<[Z.to_nat h := e :: chain]> (table h1)) (size h1) (sizemask h1) (used h1 + 1))
  end.

(** One bucket of [dictRehash], given that the table is not empty. *)
Definition rehash_bucket (d : dict) : option dict :=
  idx ← mjoin (loop (S (length (table (ht0 d)))) (skip_empty_step (table (ht0 d))) (rehashidx d));
  de ← table (ht0 d) !! Z.to_nat idx;
  '(h0, h1) ← move_chain de (ht0 d) (ht1 d);
  Some (Dict (Dictht (<[Z.to_nat idx := []]> (table h0)) (size h0) (sizemask h0) (used h0))
             h1 (idx + 1) (iterators d)).

(** [n] iterations of the loop of [dictRehash]; the flag is true when keys are
    left to move. *)
Fixpoint rehash_loop (n : nat) (d : dict) : option (dict * bool) :=
  match n with
  | O => Some (d, true)
  | S n =>
      if bool_decide (used (ht0 d) = 0) then
        Some (Dict (ht1 d) _dictReset (-1) (iterators d), false)
      else d ← rehash_bucket d; rehash_loop n d
  end.

Definition dictRehash (d : dict) (n : nat) : option (dict * bool) :=
  if dictIsRehashing d then rehash_loop n d else Some (d, false).

Definition _dictRehashStep (d : dict) : option dict :=
  if bool_decide (iterators d = 0) then '(d, _) ← dictRehash d 1; Some d else Some d.

(** [if (dictIsRehashing(d)) _dictRehashStep(d)], the first action of the
    operations below. *)
Definition rehash_on_access (d : dict) : option dict :=
  if dictIsRehashing d then _dictRehashStep d else Some d.

(** The bucket index of a hash, and the search of its chain. *)
Definition bucket_of (ht : dictht) (h : Z) : nat := Z.to_nat (uwrap 32 (Z.land h (sizemask ht))).

Definition search_table (ht : dictht) (h : Z) (k : K) : option (option (nat * entry)) :=
  chain ← table ht !! bucket_of ht h;
  Some (list_find (fun e => key e = k) chain).

(** The loop over the two tables shared by [dictFind], [dictGenericDelete] and
    [_dictKeyIndex]: the entry found, and the index of the last table. *)
Definition search_tables (d : dict) (k : K) : option (option (entry_ptr * entry) * nat) :=
  let h := hashFunction k in
  let b0 := bucket_of (ht0 d) h in
  r0 ← search_table (ht0 d) h k;
  match r0 with
  | Some (p, e) => Some (Some (EntryPtr false b0 p, e), b0)
  | None =>
      if dictIsRehashing d then
        let b1 := bucket_of (ht1 d) h in
        r1 ← search_table (ht1 d) h k;
        match r1 with
        | Some (p, e) => Some (Some (EntryPtr true b1 p, e), b1)
        | None => Some (None, b1)
        end
      else Some (None, b0)
  end.

Definition dictFind (d : dict) (k : K) : option (dict * option (entry_ptr * entry)) :=
  if bool_decide (size (ht0 d) = 0) then Some (d, None)
  else
    d ← rehash_on_access d;
    '(r, _) ← search_tables d k;
    Some (d, r).

Definition dictFetchValue (d : dict) (k : K) : option (dict * option V) :=
  '(d, he) ← dictFind d k;
  Some (d, option_map (fun r => val (snd r)) he).

Definition _dictExpandIfNeeded (d : dict) : option (dict * bool) :=
  if dictIsRehashing d then Some (d, true)
  else if bool_decide (size (ht0 d) = 0) then dictExpand d DICT_HT_INITIAL_SIZE
  else if bool_decide (used (ht0 d) >= size (ht0 d) /\
          (dict_can_resize = true \/
           used (ht0 d) `quot` size (ht0 d) > dict_force_resize_ratio))
  then dictExpand d (uwrap 64 (used (ht0 d) * 2))
  else Some (d, true).

(** The index is [-1] when the key exists. *)
Definition _dictKeyIndex (d : dict) (k : K) : option (dict * Z) :=
  '(d, ok) ← _dictExpandIfNeeded d;
  if (ok : bool) then
    '(r, idx) ← search_tables d k;
    match r with
    | Some _ => Some (d, -1)
    | None => Some (d, swrap 32 (Z.of_nat idx))
    end
  else Some (d, -1).

(** The table at which [dictAddRaw] and [dictSetVal] write. *)
Definition alter_ht (d : dict) (in1 : bool) (f : dictht -> dictht) : dict :=
  if in1 then Dict (ht0 d) (f (ht1 d)) (rehashidx d) (iterators d)
  else Dict (f (ht0 d)) (ht1 d) (rehashidx d) (iterators d).

Definition dictAddRaw (d : dict) (k : K) : option (dict * option entry_ptr) :=
  d ← rehash_on_access d;
  '(d, index) ← _dictKeyIndex d k;
  if bool_decide (index = -1) then Some (d, None)
  else
    let in1 := dictIsRehashing d in
    let ht := if in1 then ht1 d else ht0 d in
    chain ← table ht !! Z.to_nat index;
    Some (alter_ht d in1 (fun ht =>
            Dictht (<[Z.to_nat index := DictEntry k junk_val :: chain]> (table ht))
                   (size ht) (sizemask ht) (used ht + 1)),
          Some (EntryPtr in1 (Z.to_nat index) 0)).

Definition dictSetVal (d : dict) (p : entry_ptr) (v : V) : dict :=
  alter_ht d (in_ht1 p) (fun ht =>
    Dictht (alter (alter (fun e => DictEntry (key e) v) (position p)) (bucket p) (table ht))
           (size ht) (sizemask ht) (used ht)).

(** The flag is true for [DICT_OK]. *)
Definition dictAdd (d : dict) (k : K) (v : V) : option (dict * bool) :=
  '(d, entry) ← dictAddRaw d k;
  match entry with
  | None => Some (d, false)
  | Some p => Some (dictSetVal d p v, true)
  end.

(** The flag is true when the key was added, false when it was updated. *)
Definition dictReplace (d : dict) (k : K) (v : V) : option (dict * bool) :=
  '(d, ok) ← dictAdd d k v;
  if (ok : bool) then Some (d, true)
  else
    '(d, entry) ← dictFind d k;
    match entry with
    | None => None
    | Some (p, _) => Some (dictSetVal d p v, false)
    end.

Definition dictReplaceRaw (d : dict) (k : K) : option (dict * option entry_ptr) :=
  '(d, entry) ← dictFind d k;
  match entry with
  | Some (p, _) => Some (d, Some p)
  | None => dictAddRaw d k
  end.

(** [dictDelete] and [dictDeleteNoFree] differ by what they free. *)
Definition dictGenericDelete (d : dict) (k : K) : option (dict * bool) :=
  if bool_decide (size (ht0 d) = 0) then Some (d, false)
  else
    d ← rehash_on_access d;
    '(r, _) ← search_tables d k;
    match r with
    | None => Some (d, false)
    | Some (p, _) =>
        Some (alter_ht d (in_ht1 p) (fun ht =>
                Dictht (alter (delete (position p)) (bucket p) (table ht))
                       (size ht) (sizemask ht) (used ht - 1)), true)
    end.

(** [_dictClear] on both tables. *)
Definition dictEmpty (d : dict) : dict := Dict _dictReset _dictReset (-1) 0.

(** One iteration over the expansions of the cursor in the larger table:
    state is the cursor and what was emitted. *)
Definition scan_expand_step (t1 : dictht) (m0 m1 : Z) (st : Z * list entry)
    : ctl (Z * list entry) (option (Z * list entry)) :=
  let '(v, out) := st in
  match table t1 !! Z.to_nat (Z.land v m1) with
  | None => Break None
  | Some chain =>
      let v' := Z.lor (Z.land (uwrap 64 (Z.lor v m0 + 1)) (unot 64 m0)) (Z.land v m0) in
      if bool_decide (Z.land v' (Z.lxor m0 m1) <> 0) then Continue (v', out ++ chain)
      else Break (Some (v', out ++ chain))
  end.

(** The cursor after a bucket: the reversed increment above the mask [m0]. *)
Definition scan_next_cursor (v m0 : Z) : option Z :=
  r ← dict_rev (Z.lor v (unot 64 m0));
  dict_rev (uwrap 64 (r + 1)).

(** "Make sure t0 is the smaller and t1 is the bigger table". *)
Definition scan_tables (d : dict) : dictht * dictht :=
  if bool_decide (size (ht0 d) > size (ht1 d)) then (ht1 d, ht0 d) else (ht0 d, ht1 d).

(** [dictScan]: the new cursor and the entries passed to the callback. *)
Definition dictScan (d : dict) (v : Z) : option (Z * list entry) :=
  if bool_decide (dictSize d = 0) then Some (0, [])
  else if dictIsRehashing d then
    let '(t0, t1) := scan_tables d in
    let m0 := sizemask t0 in
    let m1 := sizemask t1 in
    chain0 ← table t0 !! Z.to_nat (Z.land v m0);
    '(v, out) ← mjoin (loop (S (Z.to_nat (size t1))) (scan_expand_step t1 m0 m1) (v, chain0));
    v ← scan_next_cursor v m0;
    Some (v, out)
  else
    let m0 := sizemask (ht0 d) in
    chain0 ← table (ht0 d) !! Z.to_nat (Z.land v m0);
    v ← scan_next_cursor v m0;
    Some (v, chain0).

End Dict.

(** ** Hash functions *)

Definition dictIntHashFunction (k : Z) : Z :=
  let k := uwrap 32 (k + unot 32 (uwrap 32 (Z.shiftl k 15))) in
  let k := Z.lxor k (Z.shiftr k 10) in
  let k := uwrap 32 (k + uwrap 32 (Z.shiftl k 3)) in
  let k := Z.lxor k (Z.shiftr k 6) in
  let k := uwrap 32 (k + unot 32 (uwrap 32 (Z.shiftl k 11))) in
  Z.lxor k (Z.shiftr k 16).

(** MurmurHash2: the loop over 4-byte blocks, little-endian, and the tail. *)
Definition murmur_m : Z := 0x5bd1e995.

Definition murmur_block (h k : Z) : Z :=
  let k := uwrap 32 (k * murmur_m) in
  let k := Z.lxor k (Z.shiftr k 24) in
  let k := uwrap 32 (k * murmur_m) in
  Z.lxor (uwrap 32 (h * murmur_m)) k.

Fixpoint murmur_loop (data : list Z) (h : Z) : Z :=
  match data with
  | a :: b :: c :: d :: rest => murmur_loop rest (murmur_block h (le_decode [a; b; c; d]))
  | [a; b; c] =>
      uwrap 32 (Z.lxor (Z.lxor (Z.lxor h (Z.shiftl c 16)) (Z.shiftl b 8)) a * murmur_m)
  | [a; b] => uwrap 32 (Z.lxor (Z.lxor h (Z.shiftl b 8)) a * murmur_m)
  | [a] => uwrap 32 (Z.lxor h a * murmur_m)
  | [] => h
  end.

Definition dictGenHashFunction (seed : Z) (data : list Z) : Z :=
  let h := murmur_loop data (Z.lxor seed (uwrap 32 (zlen data))) in
  let h := Z.lxor h (Z.shiftr h 13) in
  let h := uwrap 32 (h * murmur_m) in
  Z.lxor h (Z.shiftr h 15).

Definition dictGenCaseHashFunction (seed : Z) (buf : list Z) : Z :=
  foldl (fun hash c => uwrap 32 (uwrap 32 (uwrap 32 (Z.shiftl hash 5) + hash) + tolower c))
        seed buf.

(** * Correctness *)

Section Repr.
Context {K V : Type} `{DictType K} `{!Countable K}.
Abbreviation entry := (dictEntry K V).
Abbreviation dictht := (dictht K V).
Abbreviation dict := (dict K V).

Definition ht_entries (ht : dictht) : list entry := mjoin (table ht).
Definition entries (d : dict) : list entry := ht_entries (ht0 d) ++ ht_entries (ht1 d).

(** The largest number of elements for which table sizes and bucket indices
    fit the 32-bit variables of the code. *)
Definition max_used : Z := 2 ^ 30.

(** An allocated table: a power of two of buckets, at most [2^31], every entry
    in the bucket of its hash. *)
Record ht_live (ht : dictht) : Prop := {
  live_log : exists n, 2 <= n <= 31 /\ size ht = 2 ^ n;
  live_mask : sizemask ht = size ht - 1;
  live_length : zlen (table ht) = size ht;
  live_used : used ht = zlen (ht_entries ht);
  live_placed : forall i chain e, table ht !! i = Some chain -> e ∈ chain ->
                  bucket_of ht (hashFunction (key e)) = i;
}.

(** The two phases of a dictionary. *)
Inductive phase (d : dict) : Prop :=
| phase_empty : ht0 d = _dictReset -> ht1 d = _dictReset -> rehashidx d = -1 -> phase d
| phase_stable : ht_live (ht0 d) -> ht1 d = _dictReset -> rehashidx d = -1 -> phase d
| phase_rehashing : ht_live (ht0 d) -> ht_live (ht1 d) ->
    0 <= rehashidx d <= size (ht0 d) ->
    (forall i, (i < Z.to_nat (rehashidx d))%nat -> table (ht0 d) !! i = Some []) ->
    phase d.

(** The representation invariant: the dictionary implements the finite map. *)
Record dict_repr (d : dict) (m : gmap K V) : Prop := {
  repr_phase : phase d;
  repr_nodup : NoDup (key <$> entries d);
  repr_map : forall k v, m !! k = Some v <-> DictEntry k v ∈ entries d;
}.

(** ** Tables as lists of entries *)

Lemma join_update {A} (tbl : list (list A)) i c c' :
  tbl !! i = Some c ->
  exists rest, mjoin tbl ≡ₚ c ++ rest /\ mjoin (<[i:=c']> tbl) ≡ₚ c' ++ rest.
Proof.
  intros Hi. exists (mjoin (take i tbl) ++ mjoin (drop (S i) tbl)).
  pose proof (lookup_lt_Some _ _ _ Hi) as Hlt. split.
  - rewrite <- (take_drop_middle tbl i c Hi) at 1.
    rewrite join_app. simpl. rewrite Permutation_app_swap_app. done.
  - rewrite insert_take_drop by done.
    rewrite join_app. simpl. rewrite Permutation_app_swap_app. done.
Qed.

Lemma elem_of_join_at {A} (tbl : list (list A)) i c x :
  tbl !! i = Some c -> x ∈ c -> x ∈ mjoin tbl.
Proof. intros Hi Hx. apply list_elem_of_join. exists c. eauto using list_elem_of_lookup_2. Qed.

Lemma alter_insert {A} (f : A -> A) (l : list A) i x :
  l !! i = Some x -> alter f i l = <[i := f x]> l.
Proof.
  intros Hx. apply list_eq. intros j.
  destruct (decide (i = j)) as [<-|Hij].
  - rewrite list_lookup_alter_eq, list_lookup_insert_eq by eauto using lookup_lt_Some.
    by rewrite Hx.
  - by rewrite list_lookup_alter_ne, list_lookup_insert_ne by done.
Qed.

Lemma live_size ht : ht_live ht -> 4 <= size ht <= 2 ^ 31.
Proof.
  intros [(n & Hn & ->) _ _ _ _]. split.
  - change 4 with (2 ^ 2). apply Z.pow_le_mono_r; lia.
  - apply Z.pow_le_mono_r; lia.
Qed.

(** Masking the hash gives its remainder by the size, inside the table. *)
Lemma bucket_mod ht h :
  ht_live ht -> urange 32 h -> bucket_of ht h = Z.to_nat (h mod size ht).
Proof.
  intros [(n & Hn & Hs) Hm _ _ _] Hh. unfold bucket_of. rewrite Hm, Hs.
  replace (2 ^ n - 1) with (Z.ones n) by (rewrite Z.ones_equiv; lia).
  rewrite Z.land_ones by lia.
  assert (0 < 2 ^ n <= 2 ^ 31) by
    (split; [apply Z.pow_pos_nonneg; lia|apply Z.pow_le_mono_r; lia]).
  pose proof (Z.mod_pos_bound h (2 ^ n) ltac:(lia)).
  rewrite uwrap_small; [done|]. unfold urange. lia.
Qed.

Lemma bucket_lt ht h : ht_live ht -> urange 32 h -> (bucket_of ht h < length (table ht))%nat.
Proof.
  intros Hl Hh. rewrite bucket_mod by done. pose proof (live_size _ Hl).
  pose proof (live_length _ Hl). pose proof (Z.mod_pos_bound h (size ht) ltac:(lia)). lia.
Qed.

Lemma bucket_lookup ht (k : K) :
  ht_live ht -> exists chain, table ht !! bucket_of ht (hashFunction k) = Some chain.
Proof.
  intros Hl. apply lookup_lt_is_Some_2, bucket_lt; [done|]. apply hashFunction_range.
Qed.

(** An entry is in the chain of its bucket. *)
Lemma entry_bucket ht e :
  ht_live ht -> e ∈ ht_entries ht ->
  exists chain, table ht !! bucket_of ht (hashFunction (key e)) = Some chain /\ e ∈ chain.
Proof.
  intros Hl (chain & He & Hc)%list_elem_of_join.
  apply list_elem_of_lookup in Hc as [i Hi]. exists chain. split; [|done].
  by rewrite (live_placed _ Hl i chain e).
Qed.

(** Replacing the chain of a bucket, with the element count adjusted. *)
Lemma live_update ht i c c' :
  ht_live ht -> table ht !! i = Some c ->
  (forall e, e ∈ c' -> bucket_of ht (hashFunction (key e)) = i) ->
  ht_live (Dictht (<[i := c']> (table ht)) (size ht) (sizemask ht)
             (used ht + zlen c' - zlen c)).
Proof.
  intros [Hlog Hm Hlen Hu Hp] Hi Hc'. split; simpl; [done|done| | |].
  - by rewrite length_insert.
  - unfold ht_entries in *. simpl. destruct (join_update (table ht) i c c' Hi) as (rest & Hj1 & Hj2).
    rewrite Hu, Hj1, Hj2, !length_app. lia.
  - intros j chain e Hj He. unfold bucket_of; simpl.
    destruct (decide (i = j)) as [<-|Hij].
    + rewrite list_lookup_insert_eq in Hj by (by eapply lookup_lt_Some). simplify_eq.
      by apply Hc'.
    + rewrite list_lookup_insert_ne in Hj by done. by eapply Hp.
Qed.

Lemma live_push ht e c :
  ht_live ht -> table ht !! bucket_of ht (hashFunction (key e)) = Some c ->
  let ht' := Dictht (<[bucket_of ht (hashFunction (key e)) := e :: c]> (table ht))
               (size ht) (sizemask ht) (used ht + 1) in
  ht_live ht' /\ ht_entries ht' ≡ₚ e :: ht_entries ht.
Proof.
  intros Hl Hc ht'. split.
  - unfold ht'. replace (used ht + 1) with (used ht + zlen (e :: c) - zlen c)
      by (cbn [length]; lia).
    apply live_update; [done|done|]. intros e' [->|He']%elem_of_cons; [done|].
    by eapply (live_placed _ Hl).
  - unfold ht_entries, ht'; simpl.
    destruct (join_update (table ht) _ c (e :: c) Hc) as (rest & Hj1 & Hj2).
    by rewrite Hj2, Hj1.
Qed.

(** ** Rehashing *)

Lemma move_chain_spec (de : list entry) h0 h1 :
  ht_live h1 ->
  exists h1', move_chain de h0 h1 =
      Some (Dictht (table h0) (size h0) (sizemask h0) (used h0 - zlen de), h1') /\
    ht_live h1' /\ ht_entries h1' ≡ₚ de ++ ht_entries h1 /\ size h1' = size h1.
Proof.
  revert h0 h1. induction de as [|e de IH]; intros h0 h1 Hl; simpl.
  - exists h1. destruct h0; simpl. rewrite Z.sub_0_r. done.
  - destruct (bucket_lookup h1 (key e) Hl) as [c Hc].
    fold (bucket_of h1 (hashFunction (key e))). rewrite Hc. simpl.
    destruct (live_push h1 e c Hl Hc) as [Hl' He'].
    edestruct IH as (h1' & -> & Hl'' & He'' & Hs); [exact Hl'|].
    exists h1'. split_and!; [|done| |done].
    + cbn [length table size sizemask used]. do 3 f_equal. lia.
    + rewrite He'', He'. by rewrite <- Permutation_middle.
Qed.

Lemma skip_empty_spec (tbl : list (list entry)) (i : Z) :
  0 <= i -> (forall j, (j < Z.to_nat i)%nat -> tbl !! j = Some []) -> mjoin tbl <> [] ->
  exists idx e c, loop (S (length tbl)) (skip_empty_step tbl) i = Some (Some idx) /\
    i <= idx /\ tbl !! Z.to_nat idx = Some (e :: c) /\
    (forall j, (j < Z.to_nat idx)%nat -> tbl !! j = Some []).
Proof.
  intros Hi Hbelow Hne.
  assert (forall i, (forall j, (j < i)%nat -> tbl !! j = Some []) -> (i < length tbl)%nat) as Hin.
  { intros n Hn. destruct (decide (n < length tbl)%nat) as [|Hge]; [done|]. destruct Hne.
    clear -Hn Hge. assert (forall c, c ∈ tbl -> c = []) as Hall.
    { intros c [j Hj]%list_elem_of_lookup. pose proof (lookup_lt_Some _ _ _ Hj).
      rewrite Hn in Hj by lia. by simplify_eq. }
    clear Hn Hge. induction tbl as [|c tbl IH]; [done|]. simpl.
    rewrite (Hall c) by set_solver. apply IH. intros; apply Hall; set_solver. }
  destruct (loop_spec (fun n => i <= n /\ forall j, (j < Z.to_nat n)%nat -> tbl !! j = Some [])
    (fun n => (length tbl - Z.to_nat n)%nat)
    (fun r => exists idx e c, r = Some idx /\ i <= idx /\ tbl !! Z.to_nat idx = Some (e :: c) /\
       forall j, (j < Z.to_nat idx)%nat -> tbl !! j = Some [])
    (skip_empty_step tbl) (S (length tbl)) i) as (r & Hr & idx & e & c & -> & ?);
    [|done|lia|by exists idx, e, c].
  intros n [Hn Hnb]. unfold skip_empty_step. pose proof (Hin _ Hnb).
  destruct (lookup_lt_is_Some_2 tbl (Z.to_nat n)) as [[|e c] Hc]; [done| |]; rewrite Hc.
  - split; [|lia]. split; [lia|]. intros j Hj.
    destruct (decide (j = Z.to_nat n)) as [->|]; [done|]. apply Hnb. lia.
  - eauto 10.
Qed.

(** What a rehashing step keeps: the entries up to order, the iterators, the
    space of both tables. *)
Record same_contents (d d' : dict) : Prop := {
  same_entries : entries d' ≡ₚ entries d;
  same_iterators : iterators d' = iterators d;
}.

Lemma same_contents_refl d : same_contents d d.
Proof. by split. Qed.
#[local] Hint Resolve same_contents_refl : core.

Lemma repr_same d d' m :
  dict_repr d m -> same_contents d d' -> phase d' -> dict_repr d' m.
Proof.
  intros [_ Hn Hm] [He _] Hp. split; [done|by rewrite He|].
  intros k v. rewrite Hm. by rewrite He.
Qed.

Lemma rehash_bucket_spec d :
  ht_live (ht0 d) -> ht_live (ht1 d) -> 0 <= rehashidx d ->
  (forall i, (i < Z.to_nat (rehashidx d))%nat -> table (ht0 d) !! i = Some []) ->
  used (ht0 d) <> 0 ->
  exists d', rehash_bucket d = Some d' /\ phase d' /\ same_contents d d' /\
    rehashidx d < rehashidx d' /\ used (ht0 d') < used (ht0 d) /\
    size (ht0 d') = size (ht0 d) /\ size (ht1 d') = size (ht1 d).
Proof.
  intros Hl0 Hl1 Hidx Hbelow Hu. unfold rehash_bucket.
  assert (mjoin (table (ht0 d)) <> []) as Hne.
  { rewrite (live_used _ Hl0) in Hu. unfold ht_entries in Hu. by destruct (mjoin _). }
  destruct (skip_empty_spec _ _ Hidx Hbelow Hne) as (idx & e & c & -> & Hle & Hc & Hb).
  simpl. rewrite Hc. bind_simpl.
  destruct (move_chain_spec (e :: c) (ht0 d) (ht1 d) Hl1) as (h1' & -> & Hl1' & He1 & Hs1).
  bind_simpl; cbn [table size sizemask used]. eexists. split; [done|].
  pose proof (live_update _ _ _ [] Hl0 Hc ltac:(set_solver)) as Hl0'.
  cbn [length] in Hl0'. replace (used (ht0 d) + Z.of_nat 0) with (used (ht0 d)) in Hl0' by lia.
  pose proof (lookup_lt_Some _ _ _ Hc). pose proof (live_length _ Hl0).
  split_and!; simpl; try done; try lia.
  - apply phase_rehashing; simpl; [done|done|lia|].
    intros j Hj. destruct (decide (j = Z.to_nat idx)) as [->|].
    + by apply list_lookup_insert_eq.
    + rewrite list_lookup_insert_ne by done. apply Hb. lia.
  - split; [|done]. unfold entries, ht_entries in *; simpl. rewrite He1.
    destruct (join_update _ _ _ [] Hc) as (rest & Hj1 & Hj2). rewrite Hj2, Hj1, app_nil_l.
    by rewrite Permutation_app_swap_app, app_assoc.
Qed.

Lemma phase_unallocated_rehash d : phase d -> rehashidx d <> -1 ->
  ht_live (ht0 d) /\ ht_live (ht1 d) /\ 0 <= rehashidx d <= size (ht0 d) /\
  (forall i, (i < Z.to_nat (rehashidx d))%nat -> table (ht0 d) !! i = Some []).
Proof. by intros []. Qed.

(** The loop of [dictRehash] either stops because nothing is left, with the
    rehashing over, or has moved at least [n] entries. *)
Lemma rehash_loop_spec n d m :
  dict_repr d m -> rehashidx d <> -1 ->
  exists d' more, rehash_loop n d = Some (d', more) /\ dict_repr d' m /\
    same_contents d d' /\ ht_live (ht0 d') /\
    if (more : bool)
    then rehashidx d' <> -1 /\ used (ht0 d') + Z.of_nat n <= used (ht0 d) /\
         size (ht0 d') = size (ht0 d) /\ size (ht1 d') = size (ht1 d)
    else rehashidx d' = -1 /\ size (ht0 d') = size (ht1 d).
Proof.
  revert d. induction n as [|n IH]; intros d Hr Hre;
    destruct (phase_unallocated_rehash d (repr_phase _ _ Hr) Hre) as (Hl0 & Hl1 & Hi & Hb); simpl.
  - exists d, true. split_and!; try done; lia.
  - case_bool_decide as Hu.
    + eexists _, false. split; [done|].
      assert (ht_entries (ht0 d) = []) as He0.
      { rewrite (live_used _ Hl0) in Hu. by destruct (ht_entries (ht0 d)). }
      assert (same_contents d (Dict (ht1 d) _dictReset (-1) (iterators d))) as Hsame.
      { split; [|done]. unfold entries; simpl. rewrite He0, app_nil_r. done. }
      split_and!; simpl; try done.
      eapply repr_same; [done|done|]. by apply phase_stable.
    + destruct (rehash_bucket_spec d) as (d1 & -> & Hp1 & Hs1 & Hi1 & Hu1 & Hsz0 & Hsz1);
        [done..|lia|done|done|].
      bind_simpl.
      destruct (IH d1) as (d2 & more & -> & Hr2 & [He2 Hit2] & Hl2 & Hm);
        [by eapply repr_same|lia|].
      exists d2, more. destruct Hs1 as [He1 Hit1].
      split_and!; [done|done|by split; [rewrite He2|rewrite Hit2]|done|].
      destruct more; [|by rewrite <- Hsz1]. destruct Hm as (? & ? & ? & ?).
      rewrite <- Hsz0, <- Hsz1. split_and!; [done|lia|done|done].
Qed.

Lemma isRehashing_false (d : dict) : dictIsRehashing d = false <-> rehashidx d = -1.
Proof. unfold dictIsRehashing. rewrite bool_decide_eq_false. lia. Qed.

Lemma isRehashing_true (d : dict) : dictIsRehashing d = true <-> rehashidx d <> -1.
Proof. unfold dictIsRehashing. by rewrite bool_decide_eq_true. Qed.

(** The step of rehashing before an access changes nothing that can be seen. *)
Lemma rehash_on_access_spec d m :
  dict_repr d m ->
  exists d', rehash_on_access d = Some d' /\ dict_repr d' m /\ same_contents d d' /\
    (ht_live (ht0 d) -> ht_live (ht0 d')).
Proof.
  intros Hr. unfold rehash_on_access, _dictRehashStep, dictRehash.
  destruct (dictIsRehashing d) eqn:Hre.
  - case_bool_decide.
    + rewrite isRehashing_true in Hre.
      destruct (rehash_loop_spec 1 d m Hr Hre) as (d' & more & -> & Hr' & Hs & Hl & _).
      exists d'. done.
    + exists d. split_and!; try done.
  - exists d. split_and!; try done.
Qed.

(** ** Searching *)

Lemma search_table_spec ht (k : K) :
  ht_live ht ->
  exists r, search_table ht (hashFunction k) k = Some r /\
    match r with
    | Some (p, e) => key e = k /\ e ∈ ht_entries ht /\
        exists chain, table ht !! bucket_of ht (hashFunction k) = Some chain /\ chain !! p = Some e
    | None => forall e, e ∈ ht_entries ht -> key e <> k
    end.
Proof.
  intros Hl. unfold search_table. destruct (bucket_lookup ht k Hl) as [chain Hc].
  rewrite Hc. simpl. eexists. split; [done|].
  destruct (list_find _ chain) as [[p e]|] eqn:Hf.
  - apply list_find_Some in Hf as (Hp & Hk & _).
    split_and!; [done| |by eauto].
    eapply elem_of_join_at; [done|by eapply list_elem_of_lookup_2].
  - apply list_find_None in Hf. rewrite Forall_forall in Hf.
    intros e He <-. destruct (entry_bucket ht e Hl He) as (chain' & Hc' & Hin).
    simplify_eq. by eapply Hf.
Qed.

(** The table to which new entries go. *)
Definition target (d : dict) : dictht := if dictIsRehashing d then ht1 d else ht0 d.

Definition ptr_table (d : dict) (p : entry_ptr) : dictht := if in_ht1 p then ht1 d else ht0 d.

(** [p] points at the entry [e] of [d]. *)
Definition points_to (d : dict) (p : entry_ptr) (e : entry) : Prop :=
  ht_live (ptr_table d p) /\
  exists chain, table (ptr_table d p) !! bucket p = Some chain /\ chain !! position p = Some e.

Lemma search_tables_spec d m (k : K) :
  dict_repr d m -> ht_live (ht0 d) ->
  exists r idx, search_tables d k = Some (r, idx) /\ ht_live (target d) /\
    match r with
    | Some (p, e) => key e = k /\ m !! k = Some (val e) /\ points_to d p e
    | None => m !! k = None /\ idx = bucket_of (target d) (hashFunction k)
    end.
Proof.
  intros [Hp Hn Hm] Hl0. unfold search_tables, target.
  destruct (search_table_spec (ht0 d) k Hl0) as (r0 & -> & H0). bind_simpl.
  assert (forall e, e ∈ entries d -> m !! key e = Some (val e)) as Hin
    by (intros [] ?; by apply Hm).
  assert ((forall e, e ∈ entries d -> key e <> k) -> m !! k = None) as Hnone.
  { intros Hno. destruct (m !! k) as [v|] eqn:Hv; [|done]. apply Hm in Hv.
    by destruct (Hno _ Hv). }
  destruct (dictIsRehashing d) eqn:Hre.
  - apply isRehashing_true in Hre.
    destruct (phase_unallocated_rehash d Hp Hre) as (_ & Hl1 & _).
    destruct r0 as [[p e]|].
    + destruct H0 as (Hk & He & Hc). eexists _, _. split; [done|]. split; [done|].
      split_and!; [done| |done]. rewrite <- Hk. apply Hin, elem_of_app. by left.
    + destruct (search_table_spec (ht1 d) k Hl1) as (r1 & -> & H1). bind_simpl.
      destruct r1 as [[p e]|]; (eexists _, _; split; [done|]; split; [done|]).
      * destruct H1 as (Hk & He & Hc). split_and!; [done| |done].
        rewrite <- Hk. apply Hin, elem_of_app. by right.
      * split; [|done]. apply Hnone. intros e [He|He]%elem_of_app; eauto.
  - destruct r0 as [[p e]|]; (eexists _, _; split; [done|]; split; [done|]).
    + destruct H0 as (Hk & He & Hc). split_and!; [done| |done].
      rewrite <- Hk. apply Hin, elem_of_app. by left.
    + split; [|done]. apply Hnone. intros e [He|He]%elem_of_app; [eauto|].
      apply isRehashing_false in Hre.
      destruct Hp as [_ Hh _|_ Hh _|_ _ Hi _]; [| |lia]; rewrite Hh in He;
        by apply elem_of_nil in He.
Qed.

(** ** Lists of entries as maps *)

Definition list_repr (l : list entry) (m : gmap K V) : Prop :=
  NoDup (key <$> l) /\ forall k v, m !! k = Some v <-> DictEntry k v ∈ l.

#[global] Instance list_repr_proper : Proper ((≡ₚ) ==> (=) ==> iff) list_repr.
Proof.
  intros l l' Hl m ? <-.
  split; intros [Hn Hm]; (split; [first [by rewrite <- Hl|by rewrite Hl]|]); intros k v; rewrite Hm; by rewrite Hl.
Qed.

Lemma repr_list d m : dict_repr d m <-> phase d /\ list_repr (entries d) m.
Proof. split; [intros [? ? ?]; split; [done|by split]|intros (? & ? & ?); by split]. Qed.

Lemma list_repr_cons e l m :
  list_repr l m -> m !! key e = None -> list_repr (e :: l) (<[key e := val e]> m).
Proof.
  intros [Hn Hm] Hk. destruct e as [k v]; simpl in *. split.
  - constructor; [|done]. intros ([k' v'] & Heq & He)%list_elem_of_fmap. simpl in Heq.
    apply Hm in He. congruence.
  - intros k' v'. rewrite elem_of_cons, <- Hm. destruct (decide (k = k')) as [<-|].
    + rewrite lookup_insert_eq, Hk. split; [intros [= ->]; by left|intros [[= ->]|]; done].
    + rewrite lookup_insert_ne by done. split; [by right|intros [[= -> ->]|]; done].
Qed.

Lemma list_repr_uncons e l m :
  list_repr (e :: l) m -> list_repr l (delete (key e) m) /\ m !! key e = Some (val e).
Proof.
  intros [Hn Hm]. destruct e as [k v]. rewrite fmap_cons in Hn.
  apply NoDup_cons in Hn as [Hk Hn]. simpl in *. split; [split; [done|]|].
  - intros k' v'. destruct (decide (k = k')) as [<-|].
    + rewrite lookup_delete_eq. split; [done|]. intros He. destruct Hk.
      apply list_elem_of_fmap. by exists (DictEntry k v').
    + rewrite lookup_delete_ne by done. rewrite Hm, elem_of_cons.
      split; [intros [[= -> ->]|]; done|by right].
  - apply Hm. by left.
Qed.

(** The number of elements the code counts is the size of the map. *)
Lemma dictSize_map d m : dict_repr d m -> dictSize d = Z.of_nat (base.size m).
Proof.
  intros [Hp Hn Hm].
  assert (map_to_list m ≡ₚ (fun e => (key e, val e)) <$> entries d) as Hperm.
  { apply NoDup_Permutation.
    - apply NoDup_map_to_list.
    - apply (NoDup_fmap_1 fst). rewrite <- list_fmap_compose. exact Hn.
    - intros [k v]. rewrite elem_of_map_to_list, Hm, list_elem_of_fmap.
      split; [by exists (DictEntry k v)|]. intros ([k' v'] & [= -> ->] & ?). done. }
  rewrite <- length_map_to_list, Hperm, length_fmap. unfold entries, dictSize.
  rewrite length_app. destruct Hp as [-> -> _|Hl0 -> _|Hl0 Hl1 _ _]; [done| |].
  - rewrite (live_used _ Hl0). simpl. lia.
  - rewrite (live_used _ Hl0), (live_used _ Hl1). lia.
Qed.

Lemma used_le d m : dict_repr d m -> 0 <= used (ht0 d) <= Z.of_nat (base.size m).
Proof.
  intros Hr. rewrite <- (dictSize_map d m) by done. unfold dictSize.
  destruct (repr_phase _ _ Hr) as [-> -> _|Hl0 -> _|Hl0 Hl1 _ _]; [done| |].
  - rewrite (live_used _ Hl0). simpl. lia.
  - rewrite (live_used _ Hl0), (live_used _ Hl1). lia.
Qed.

(** ** Writing one chain *)

Definition update_chain (i : nat) (c c' : list entry) (ht : dictht) : dictht :=
  Dictht (<[i := c']> (table ht)) (size ht) (sizemask ht) (used ht + zlen c' - zlen c).

Lemma not_live_reset : ~ ht_live _dictReset.
Proof. intros Hl. pose proof (live_size _ Hl). simpl in *. lia. Qed.

Lemma chain_update (d : dict) (in1 : bool) i (c c' : list entry) :
  phase d -> let ht := if in1 then ht1 d else ht0 d in
  ht_live ht -> table ht !! i = Some c ->
  (forall e, e ∈ c' -> bucket_of ht (hashFunction (key e)) = i) ->
  c <> [] \/ in1 = dictIsRehashing d ->
  let d' := alter_ht d in1 (update_chain i c c') in
  phase d' /\ exists rest, entries d ≡ₚ c ++ rest /\ entries d' ≡ₚ c' ++ rest.
Proof.
  intros Hp ht Hl Hi Hc' Hside d'.
  pose proof (live_update ht i c c' Hl Hi Hc') as Hl'.
  destruct (join_update (table ht) i c c' Hi) as (rest & Hj1 & Hj2). split.
  - unfold d', alter_ht. destruct Hp as [Hh0 Hh1 Hre|Hl0 Hh1 Hre|Hl0 Hl1 Hre Hb].
    + unfold ht in Hl. rewrite Hh0, Hh1 in Hl. by destruct in1, not_live_reset.
    + destruct in1; [unfold ht in Hl; rewrite Hh1 in Hl; by destruct not_live_reset|].
      by apply phase_stable.
    + destruct in1; [by apply phase_rehashing|]. apply phase_rehashing; try done.
      intros j Hj. simpl. destruct (decide (j = i)) as [->|].
      * destruct Hside as [Hne|Hside]; [unfold ht in Hi; rewrite Hb in Hi by done; congruence|].
        symmetry in Hside. apply isRehashing_false in Hside. lia.
      * rewrite list_lookup_insert_ne by done. by apply Hb.
  - unfold d', alter_ht, entries, ht_entries. subst ht. destruct in1; simpl in *.
    + exists (mjoin (table (ht0 d)) ++ rest). rewrite Hj1, Hj2.
      split; apply Permutation_app_swap_app.
    + exists (rest ++ mjoin (table (ht1 d))). rewrite Hj1, Hj2, <- !app_assoc. done.
Qed.

Lemma points_to_bucket d p e :
  points_to d p e ->
  exists chain, ht_live (ptr_table d p) /\ table (ptr_table d p) !! bucket p = Some chain /\
    chain !! position p = Some e /\ chain <> [] /\
    (forall e', e' ∈ chain -> bucket_of (ptr_table d p) (hashFunction (key e')) = bucket p) /\
    chain ≡ₚ e :: delete (position p) chain.
Proof.
  intros (Hl & chain & Hc & He). exists chain. split_and!; try done.
  - by destruct chain.
  - intros e' He'. by eapply (live_placed _ Hl).
  - by apply delete_Permutation.
Qed.

Lemma dictSetVal_spec d m p e v :
  dict_repr d m -> points_to d p e -> dict_repr (dictSetVal d p v) (<[key e := v]> m).
Proof.
  intros Hr Hp. apply repr_list in Hr as [Hph Hlr].
  destruct (points_to_bucket d p e Hp) as (chain & Hl & Hc & He & Hne & Hb & Hperm).
  set (e' := DictEntry (key e) v). set (c' := <[position p := e']> chain).
  destruct (chain_update d (in_ht1 p) (bucket p) chain c') as (Hph' & rest & H1 & H2);
    [done..| |by left|].
  { intros x Hx. unfold c' in Hx. apply list_elem_of_lookup in Hx as [j Hj].
    apply list_lookup_insert_Some in Hj as [(<- & <- & _)|(_ & Hj)].
    - apply (Hb e). by eapply list_elem_of_lookup_2.
    - apply Hb. by eapply list_elem_of_lookup_2. }
  assert (dictSetVal d p v = alter_ht d (in_ht1 p) (update_chain (bucket p) chain c')) as ->.
  { unfold dictSetVal, alter_ht, update_chain, c'. unfold ptr_table in *.
    destruct (in_ht1 p); rewrite (alter_insert _ _ _ _ Hc), (alter_insert _ _ _ _ He);
      rewrite length_insert; do 2 f_equal; lia. }
  apply repr_list. split; [done|]. rewrite H2. rewrite H1, Hperm in Hlr. simpl in Hlr.
  apply list_repr_uncons in Hlr as [Hlr _].
  assert (c' ≡ₚ e' :: delete (position p) chain) as ->.
  { unfold c'. rewrite insert_take_drop by (by eapply lookup_lt_Some).
    rewrite delete_take_drop. by rewrite Permutation_middle. }
  rewrite <- insert_delete_eq. apply (list_repr_cons e'); [done|]. apply lookup_delete_eq.
Qed.

(** ** Growing *)

Lemma nextPower_spec n :
  0 <= n <= 2 ^ 31 ->
  exists j, 2 <= j <= 31 /\ _dictNextPower n = Some (2 ^ j) /\ n <= 2 ^ j /\
    (j = 2 \/ 2 ^ (j - 1) < n).
Proof.
  intros Hn. unfold _dictNextPower, LONG_MAX. rewrite bool_decide_false by lia.
  destruct (loop_spec
    (fun i => exists j, 2 <= j <= 31 /\ i = 2 ^ j /\ (j = 2 \/ 2 ^ (j - 1) < n))
    (fun i => Z.to_nat (40 - Z.log2 i))
    (fun i => exists j, 2 <= j <= 31 /\ i = 2 ^ j /\ n <= i /\ (j = 2 \/ 2 ^ (j - 1) < n))
    (nextPower_step n) 64 DICT_HT_INITIAL_SIZE) as (r & -> & j & ? & -> & ? & ?).
  - intros i (j & Hj & -> & Hmin). unfold nextPower_step. case_bool_decide.
    + exists j. split_and!; try done; lia.
    + assert (j < 31) by (apply (Z.pow_lt_mono_r_iff 2); lia).
      assert (2 ^ j * 2 = 2 ^ (j + 1)) as -> by (rewrite Z.pow_add_r by lia; lia).
      rewrite uwrap_small.
      * rewrite !Z.log2_pow2 by lia. split; [|lia].
        exists (j + 1). split_and!; [lia|lia|done|]. right. rewrite Z.add_simpl_r. lia.
      * unfold urange. assert (2 ^ (j + 1) <= 2 ^ 32) by (apply Z.pow_le_mono_r; lia).
        pose proof (Z.pow_nonneg 2 (j + 1)). lia.
  - exists 2. split_and!; try done. by left.
  - change (Z.log2 DICT_HT_INITIAL_SIZE) with 2. lia.
  - exists j. auto.
Qed.

Lemma fresh_live j :
  2 <= j <= 31 ->
  let ht := Dictht (replicate (Z.to_nat (2 ^ j)) []) (2 ^ j) (2 ^ j - 1) 0 in
  ht_live ht /\ ht_entries ht = [].
Proof.
  intros Hj ht. assert (ht_entries ht = []) as He.
  { unfold ht_entries, ht; simpl. by induction (Z.to_nat (2 ^ j)). }
  split; [|done]. split; [by exists j|done| |by rewrite He|].
  - unfold ht; simpl. rewrite length_replicate. pose proof (Z.pow_nonneg 2 j). lia.
  - intros i chain e [-> _]%lookup_replicate He'. by apply elem_of_nil in He'.
Qed.

(** [dictExpand] keeps the contents and succeeds exactly when it may: no
    rehashing in progress and room for the elements. *)
Lemma dictExpand_spec d m n :
  dict_repr d m -> 0 <= n <= 2 ^ 31 ->
  exists d' ok, dictExpand d n = Some (d', ok) /\ dict_repr d' m /\ same_contents d d' /\
    ok = bool_decide (rehashidx d = -1 /\ used (ht0 d) <= n) /\
    (if (ok : bool) then ht_live (ht0 d') /\ n <= size (target d') else d' = d).
Proof.
  intros Hr Hn. unfold dictExpand.
  destruct (nextPower_spec n Hn) as (j & Hj & -> & Hnj & _). bind_simpl.
  destruct (fresh_live j Hj) as [Hfl Hfe].
  set (ht := Dictht _ _ _ _) in *.
  destruct (decide (dictIsRehashing d = true \/ used (ht0 d) > n)) as [Hno|Hyes].
  { rewrite (bool_decide_true (_ \/ _)) by done. exists d, false.
    rewrite bool_decide_false by (rewrite isRehashing_true in Hno; lia). done. }
  rewrite (bool_decide_false (_ \/ _)) by done.
  apply Decidable.not_or in Hyes as [Hre Hu]. apply not_true_is_false in Hre.
  pose proof Hre as Hre'. apply isRehashing_false in Hre'.
  rewrite bool_decide_true by lia.
  assert (forall d1, entries d1 = entries d -> iterators d1 = iterators d -> phase d1 ->
    dict_repr d1 m /\ same_contents d d1) as Hsame.
  { intros d1 He Hi Hp. assert (same_contents d d1) by (by split; rewrite ?He).
    split; [|done]. by eapply repr_same. }
  destruct (repr_phase _ _ Hr) as [Hh0 Hh1 _|Hl0 Hh1 _|_ _ ? _]; [| |lia].
  - rewrite Hh0. simpl. eexists _, true. split; [done|].
    destruct (Hsame (Dict ht (ht1 d) (rehashidx d) (iterators d))) as [? ?];
      [|done|by apply phase_stable|].
    { unfold entries; simpl. by rewrite Hfe, Hh0. }
    split_and!; try done. unfold target, dictIsRehashing; simpl.
    by rewrite bool_decide_false by lia.
  - assert (exists b bs, table (ht0 d) = b :: bs) as (b & bs & Ht).
    { pose proof (live_length _ Hl0). pose proof (live_size _ Hl0).
      destruct (table (ht0 d)); [simpl in *; lia|eauto]. }
    rewrite Ht. eexists _, true. split; [done|].
    destruct (Hsame (Dict (ht0 d) ht 0 (iterators d))) as [? ?]; [|done| |].
    + unfold entries; simpl. by rewrite Hfe, Hh1.
    + pose proof (live_size _ Hl0). apply phase_rehashing; simpl; [done..|lia|lia].
    + split_and!; done.
Qed.

(** ** The operations refine those of a finite map *)

Variable dict_can_resize : bool.
Variable junk_val : V.
Implicit Types (d : dict) (m : gmap K V) (k : K) (v : V).

Lemma same_contents_trans d1 d2 d3 :
  same_contents d1 d2 -> same_contents d2 d3 -> same_contents d1 d3.
Proof. intros [E1 I1] [E2 I2]. split; [by rewrite E2|by rewrite I2]. Qed.

Lemma size_zero d m : dict_repr d m -> size (ht0 d) = 0 -> m = ∅.
Proof.
  intros Hr Hs. apply map_size_empty_inv. pose proof (dictSize_map d m Hr) as Hsz.
  destruct (repr_phase _ _ Hr) as [Hh0 Hh1 _|Hl0 _ _|Hl0 _ _ _].
  - unfold dictSize in Hsz. rewrite Hh0, Hh1 in Hsz. simpl in Hsz. lia.
  - pose proof (live_size _ Hl0). lia.
  - pose proof (live_size _ Hl0). lia.
Qed.

Lemma size_nonzero d m : dict_repr d m -> size (ht0 d) <> 0 -> ht_live (ht0 d).
Proof. intros Hr Hs. destruct (repr_phase _ _ Hr) as [Hh _ _| |]; [|done..].
  rewrite Hh in Hs. by destruct Hs. Qed.

Lemma expandIfNeeded_spec d m :
  dict_repr d m -> Z.of_nat (base.size m) <= max_used ->
  exists d', _dictExpandIfNeeded dict_can_resize d = Some (d', true) /\
    dict_repr d' m /\ same_contents d d' /\ ht_live (ht0 d').
Proof.
  intros Hr Hm. unfold _dictExpandIfNeeded, max_used in *.
  pose proof (used_le d m Hr) as Hu.
  destruct (dictIsRehashing d) eqn:Hre.
  { exists d. split_and!; try done.
    by destruct (phase_unallocated_rehash d (repr_phase _ _ Hr) (proj1 (isRehashing_true d) Hre)). }
  apply isRehashing_false in Hre. case_bool_decide as Hz.
  { unfold DICT_HT_INITIAL_SIZE.
    destruct (dictExpand_spec d m 4 Hr ltac:(lia)) as (d' & ok & -> & Hr' & Hs & -> & Hok).
    assert (rehashidx d = -1 /\ used (ht0 d) <= 4) as Hc.
    { split; [done|]. rewrite (size_zero d m Hr Hz), map_size_empty in Hu. lia. }
    rewrite (bool_decide_true _ Hc) in *. exists d'. destruct Hok. done. }
  case_bool_decide as Hfull.
  - rewrite uwrap_small by (unfold urange; lia).
    destruct (dictExpand_spec d m (used (ht0 d) * 2) Hr ltac:(lia))
      as (d' & ok & -> & Hr' & Hs & -> & Hok).
    rewrite bool_decide_true in * by lia. exists d'. destruct Hok. done.
  - exists d. split_and!; try done. by eapply size_nonzero.
Qed.

Lemma bucket_int ht k :
  ht_live ht -> swrap 32 (Z.of_nat (bucket_of ht (hashFunction k))) =
                Z.of_nat (bucket_of ht (hashFunction k)).
Proof.
  intros Hl. pose proof (bucket_lt ht _ Hl (hashFunction_range k)).
  pose proof (live_size _ Hl). pose proof (live_length _ Hl).
  apply swrap_small; [lia|]. unfold srange. lia.
Qed.

Lemma dictAddRaw_spec d m k :
  dict_repr d m -> Z.of_nat (base.size m) <= max_used ->
  exists d' r, dictAddRaw dict_can_resize junk_val d k = Some (d', r) /\
    match r with
    | None => (exists v, m !! k = Some v) /\ dict_repr d' m /\ ht_live (ht0 d')
    | Some p => m !! k = None /\ dict_repr d' (<[k := junk_val]> m) /\
                points_to d' p (DictEntry k junk_val)
    end.
Proof.
  intros Hr Hm. unfold dictAddRaw, _dictKeyIndex.
  destruct (rehash_on_access_spec d m Hr) as (d1 & -> & Hr1 & _ & _). bind_simpl.
  destruct (expandIfNeeded_spec d1 m Hr1 Hm) as (d2 & -> & Hr2 & _ & Hl2). bind_simpl.
  destruct (search_tables_spec d2 m k Hr2 Hl2) as (r & idx & -> & Hlt & Hres).
  destruct r as [[p e]|]; bind_simpl.
  { rewrite bool_decide_true by done. exists d2, None.
    destruct Hres as (_ & Hin & _). split_and!; eauto. }
  destruct Hres as [Hnone ->]. rewrite (bucket_int _ _ Hlt).
  rewrite bool_decide_false by lia. rewrite Nat2Z.id. fold (target d2).
  destruct (bucket_lookup (target d2) k Hlt) as [chain Hc]. rewrite Hc.
  bind_simpl. eexists _, (Some _). split; [done|]. split; [done|].
  set (e := DictEntry k junk_val). set (b := bucket_of (target d2) (hashFunction k)) in *.
  assert (alter_ht d2 (dictIsRehashing d2) (fun ht =>
            Dictht (<[b := e :: chain]> (table ht)) (size ht) (sizemask ht) (used ht + 1)) =
          alter_ht d2 (dictIsRehashing d2) (update_chain b chain (e :: chain))) as ->.
  { unfold alter_ht, update_chain. cbn [length].
    destruct (dictIsRehashing d2); do 2 f_equal; lia. }
  destruct (chain_update d2 (dictIsRehashing d2) b chain (e :: chain))
    as (Hp' & rest & H1 & H2); [apply Hr2|exact Hlt|exact Hc| |by right|].
  { intros e' [->|He']%elem_of_cons; [done|]. by eapply (live_placed _ Hlt). }
  split.
  - apply repr_list. split; [done|]. rewrite H2. simpl. rewrite <- H1.
    apply (list_repr_cons e); [by apply repr_list|done].
  - pose proof (lookup_lt_Some _ _ _ Hc).
    unfold points_to, ptr_table, alter_ht, target in *. simpl.
    destruct (dictIsRehashing d2); simpl in *;
      (split; [|eexists; rewrite list_lookup_insert_eq by done; done]);
      apply live_update; try done; intros e' [->|He']%elem_of_cons; try done;
      by eapply (live_placed _ Hlt).
Qed.

(** Whether the map has no binding for the key. *)
Definition absent (m : gmap K V) (k : K) : bool := bool_decide (m !! k = None).

Lemma absent_none m k : m !! k = None -> absent m k = true.
Proof. intros. by apply bool_decide_true. Qed.

Lemma absent_some m k v : m !! k = Some v -> absent m k = false.
Proof. intros Hk. apply bool_decide_false. congruence. Qed.

(** [dictAdd] adds a key that was absent and leaves the map alone (returning
    [DICT_ERR]) when the key is present. *)
Lemma dictAdd_spec d m k v :
  dict_repr d m -> Z.of_nat (base.size m) <= max_used ->
  exists d', dictAdd dict_can_resize junk_val d k v = Some (d', absent m k) /\
    dict_repr d' (if absent m k then <[k := v]> m else m).
Proof.
  intros Hr Hm. unfold dictAdd.
  destruct (dictAddRaw_spec d m k Hr Hm) as (d' & [p|] & -> & Hres); bind_simpl.
  - destruct Hres as (Hnone & Hr' & Hp). rewrite absent_none by done.
    eexists. split; [done|].
    pose proof (dictSetVal_spec _ _ _ _ v Hr' Hp) as Hset. simpl in Hset.
    by rewrite insert_insert_eq in Hset.
  - destruct Hres as ([v' Hv] & Hr' & _). rewrite (absent_some m k v') by done. eauto.
Qed.

Lemma dictFind_spec d m k :
  dict_repr d m ->
  exists d' r, dictFind d k = Some (d', r) /\ dict_repr d' m /\ same_contents d d' /\
    match r with
    | Some (p, e) => key e = k /\ m !! k = Some (val e) /\ points_to d' p e
    | None => m !! k = None
    end.
Proof.
  intros Hr. unfold dictFind. case_bool_decide as Hz.
  { exists d, None. rewrite (size_zero d m Hr Hz). split_and!; try done.
    by rewrite <- (size_zero d m Hr Hz). }
  destruct (rehash_on_access_spec d m Hr) as (d1 & -> & Hr1 & Hs1 & Hl1).
  bind_simpl.
  destruct (search_tables_spec d1 m k Hr1) as (r & idx & -> & _ & Hres);
    [eauto using size_nonzero|].
  bind_simpl. exists d1, r. destruct r as [[p e]|]; [done|].
  destruct Hres. done.
Qed.

(** [dictFetchValue] is the lookup of the map: it returns the value of the
    key or [NULL], and the rehashing step it performs does not change the
    map. *)
Lemma dictFetchValue_spec d m k :
  dict_repr d m ->
  exists d', dictFetchValue d k = Some (d', m !! k) /\ dict_repr d' m.
Proof.
  intros Hr. unfold dictFetchValue.
  destruct (dictFind_spec d m k Hr) as (d' & r & -> & Hr' & _ & Hres).
  bind_simpl. exists d'. split; [|done]. do 2 f_equal.
  destruct r as [[p e]|]; simpl; [by destruct Hres as (_ & -> & _)|done].
Qed.

(** [dictReplace] sets the key in every case and reports whether it was
    added or updated. *)
Lemma dictReplace_spec d m k v :
  dict_repr d m -> Z.of_nat (base.size m) <= max_used ->
  exists d', dictReplace dict_can_resize junk_val d k v =
      Some (d', absent m k) /\
    dict_repr d' (<[k := v]> m).
Proof.
  intros Hr Hm. unfold dictReplace.
  destruct (dictAdd_spec d m k v Hr Hm) as (d1 & -> & Hr1).
  bind_simpl. unfold absent in *. case_bool_decide as Hk; [eauto|].
  destruct (dictFind_spec d1 m k Hr1) as (d2 & r & -> & Hr2 & _ & Hres).
  bind_simpl. destruct r as [[p e]|]; [|done].
  destruct Hres as (<- & _ & Hp). eexists. split; [done|]. by apply (dictSetVal_spec _ m p e).
Qed.

(** [dictDelete] removes exactly the given key, from whichever table holds
    it, and reports whether it was there. *)
Lemma dictDelete_spec d m k :
  dict_repr d m ->
  exists d', dictGenericDelete d k = Some (d', negb (absent m k)) /\
    dict_repr d' (delete k m).
Proof.
  intros Hr. unfold dictGenericDelete. case_bool_decide as Hz.
  { pose proof (size_zero d m Hr Hz) as ->. exists d.
    by rewrite delete_empty, absent_none. }
  destruct (rehash_on_access_spec d m Hr) as (d1 & -> & Hr1 & Hs1 & Hl1).
  bind_simpl.
  destruct (search_tables_spec d1 m k Hr1) as (r & idx & -> & _ & Hres);
    [eauto using size_nonzero|].
  bind_simpl. destruct r as [[p e]|].
  - destruct Hres as (<- & Hin & Hp). rewrite (absent_some m _ _ Hin).
    eexists. split; [done|].
    destruct (points_to_bucket d1 p e Hp) as (chain & Hl & Hc & He & Hne & Hb & Hperm).
    assert (alter_ht d1 (in_ht1 p) (fun ht =>
              Dictht (alter (delete (position p)) (bucket p) (table ht))
                     (size ht) (sizemask ht) (used ht - 1)) =
            alter_ht d1 (in_ht1 p) (update_chain (bucket p) chain (delete (position p) chain)))
      as ->.
    { pose proof (Permutation_length Hperm) as Hlen. simpl in Hlen.
      unfold alter_ht, update_chain, ptr_table in *.
      destruct (in_ht1 p); rewrite (alter_insert _ _ _ _ Hc); do 2 f_equal; lia. }
    destruct (chain_update d1 (in_ht1 p) (bucket p) chain (delete (position p) chain))
      as (Hp' & rest & H1 & H2); [apply Hr1|done|done| |by left|].
    { intros e' He'. apply Hb. rewrite Hperm. by right. }
    apply repr_list. split; [done|]. rewrite H2.
    apply repr_list in Hr1 as [_ Hr1]. rewrite H1, Hperm in Hr1. simpl in Hr1.
    by apply list_repr_uncons in Hr1 as [Hr1 _].
  - destruct Hres as [Hnone _]. rewrite absent_none by done.
    exists d1. split; [done|]. by rewrite delete_id.
Qed.

(** [dictRehash] and [dictResize] keep the map. *)
Lemma dictRehash_keeps d m n :
  dict_repr d m -> exists d' more, dictRehash d n = Some (d', more) /\ dict_repr d' m.
Proof.
  intros Hr. unfold dictRehash. destruct (dictIsRehashing d) eqn:Hre; [|eauto].
  destruct (rehash_loop_spec n d m Hr (proj1 (isRehashing_true d) Hre))
    as (d' & more & -> & Hr' & _). eauto.
Qed.

Lemma dictResize_keeps d m :
  dict_repr d m -> Z.of_nat (base.size m) <= max_used ->
  exists d' ok, dictResize dict_can_resize d = Some (d', ok) /\ dict_repr d' m.
Proof.
  intros Hr Hm. unfold dictResize, max_used, DICT_HT_INITIAL_SIZE in *.
  case_bool_decide; [eauto|]. pose proof (used_le d m Hr) as Hu.
  rewrite swrap_small by (unfold srange; lia).
  edestruct (dictExpand_spec d m) as (d' & ok & -> & Hr' & _); [done| |eauto].
  case_bool_decide; lia.
Qed.

(** C5: incremental rehashing is invisible and comes to an end: [dictRehash]
    keeps the map and the order-insensitive list of entries, it never runs off
    the table, and enough steps (one per element still in the old table, plus
    one) leave a single table, the new one. *)
Theorem dictRehash_completes d m n :
  dict_repr d m ->
  exists d' more, dictRehash d n = Some (d', more) /\ dict_repr d' m /\
    entries d' ≡ₚ entries d /\
    (dictIsRehashing d = true -> Z.of_nat n > used (ht0 d) ->
     more = false /\ dictIsRehashing d' = false /\ size (ht0 d') = size (ht1 d)).
Proof.
  intros Hr. unfold dictRehash. destruct (dictIsRehashing d) eqn:Hre.
  - destruct (rehash_loop_spec n d m Hr (proj1 (isRehashing_true d) Hre))
      as (d' & more & -> & Hr' & [He _] & Hl & Hm).
    exists d', more. split_and!; try done. intros _ Hn. destruct more.
    + destruct Hm as (_ & Hu & _). pose proof (used_le d' m Hr'). lia.
    + rewrite isRehashing_false. done.
  - by exists d, false.
Qed.

(** C6: [dictResize] shrinks or grows the table to the smallest power of two
    that holds the elements (at least four buckets) when resizing is allowed
    and no rehashing is running; it does nothing otherwise, and never changes
    the map. *)
Theorem dictResize_minimal d m :
  dict_repr d m -> Z.of_nat (base.size m) <= max_used ->
  exists d' ok, dictResize dict_can_resize d = Some (d', ok) /\ dict_repr d' m /\
    ok = dict_can_resize && negb (dictIsRehashing d) /\
    (if (ok : bool) then
       Z.of_nat (base.size m) <= size (target d') /\
       (size (target d') = DICT_HT_INITIAL_SIZE \/
        size (target d') < 2 * Z.of_nat (base.size m))
     else d' = d).
Proof.
  intros Hr Hm. unfold dictResize. unfold max_used in Hm.
  destruct (decide (dict_can_resize = false \/ dictIsRehashing d = true)) as [Hno|Hyes].
  { rewrite (bool_decide_true (_ \/ _)) by done. exists d, false. split_and!; try done.
    destruct Hno as [->| ->]; [done|]. by rewrite andb_false_r. }
  rewrite (bool_decide_false (_ \/ _)) by done.
  apply Decidable.not_or in Hyes as [Hcan Hre].
  apply not_false_is_true in Hcan. apply not_true_is_false in Hre.
  rewrite Hcan, Hre. pose proof (dictSize_map d m Hr) as Hsz. pose proof (used_le d m Hr) as Hu.
  assert (used (ht0 d) = Z.of_nat (base.size m)) as Hused.
  { rewrite <- Hsz. apply isRehashing_false in Hre. unfold dictSize.
    destruct (repr_phase _ _ Hr) as [_ -> _|_ -> _|_ _ ? _]; simpl; lia. }
  rewrite swrap_small by (unfold srange; lia). rewrite Hused.
  set (n := if bool_decide _ then _ else _).
  assert (n = Z.max 4 (Z.of_nat (base.size m))) as Hn
    by (unfold n, DICT_HT_INITIAL_SIZE; case_bool_decide; lia).
  assert (0 <= n <= 2 ^ 31) as Hnr by lia.
  destruct (dictExpand_spec d m n Hr Hnr) as (d' & ok & Hex & Hr' & Hs & -> & Hok).
  rewrite isRehashing_false in Hre. rewrite bool_decide_true in * by lia.
  exists d', true. destruct Hok as [_ Hle]. split_and!; [done|done|done|lia|].
  destruct (nextPower_spec n Hnr) as (j & Hj & Hnp & Hnj & Hmin).
  assert (size (target d') = 2 ^ j) as Hsize.
  { unfold dictExpand in Hex. rewrite Hnp in Hex. cbn [mbind option_bind] in Hex.
    rewrite (bool_decide_false (_ \/ _)) in Hex
      by (rewrite isRehashing_true, Hused; lia).
    destruct (table (ht0 d)); simplify_eq; unfold target, dictIsRehashing; simpl.
    - by rewrite bool_decide_false by lia.
    - done. }
  rewrite Hsize. unfold DICT_HT_INITIAL_SIZE.
  destruct Hmin as [->|Hmin]; [by left|].
  assert (2 ^ j = 2 * 2 ^ (j - 1)) as Hp2 by (apply pow_pred; lia).
  destruct (decide (Z.of_nat (base.size m) <= 4)); [|right; lia].
  left. assert (n = 4) as Hn4 by lia. rewrite Hn4 in *.
  assert (j - 1 < 2) by (apply (Z.pow_lt_mono_r_iff 2); lia).
  replace j with 2 by lia. done.
Qed.

Lemma dictCreate_repr : dict_repr dictCreate ∅.
Proof.
  split; [by apply phase_empty|constructor|].
  intros k v. rewrite lookup_empty. split; [done|]. intros He. by apply elem_of_nil in He.
Qed.

End Repr.

(** ** Traces of operations *)

(** The API of a dictionary as commands with observable results; resizing can
    be enabled and disabled, and rehashing and resizing requested, at any
    point. *)
Inductive dict_op (K V : Type) :=
| OpAdd (k : K) (v : V)
| OpReplace (k : K) (v : V)
| OpDelete (k : K)
| OpFetch (k : K)
| OpRehash (n : nat)
| OpResize
| OpEnableResize (b : bool)
| OpEmpty.
Arguments OpAdd {K V} _ _.
Arguments OpReplace {K V} _ _.
Arguments OpDelete {K V} _.
Arguments OpFetch {K V} _.
Arguments OpRehash {K V} _.
Arguments OpResize {K V}.
Arguments OpEnableResize {K V} _.
Arguments OpEmpty {K V}.

Inductive dict_res (V : Type) := RFlag (b : bool) | RVal (v : option V) | RNone.
Arguments RFlag {V} _.
Arguments RVal {V} _.
Arguments RNone {V}.

Section Trace.
Context {K V : Type} `{DictType K} `{!Countable K} (junk_val : V).

(** The state is the flag [dict_can_resize] and the dictionary. *)
Definition dict_step (st : bool * dict K V) (op : dict_op K V)
    : option (bool * dict K V * dict_res V) :=
  let '(b, d) := st in
  match op with
  | OpAdd k v => '(d, ok) ← dictAdd b junk_val d k v; Some (b, d, RFlag ok)
  | OpReplace k v => '(d, ok) ← dictReplace b junk_val d k v; Some (b, d, RFlag ok)
  | OpDelete k => '(d, ok) ← dictGenericDelete d k; Some (b, d, RFlag ok)
  | OpFetch k => '(d, v) ← dictFetchValue d k; Some (b, d, RVal v)
  | OpRehash n => '(d, _) ← dictRehash d n; Some (b, d, RNone)
  | OpResize => '(d, _) ← dictResize b d; Some (b, d, RNone)
  | OpEnableResize b => Some (b, d, RNone)
  | OpEmpty => Some (b, dictEmpty d, RNone)
  end.

(** The abstract specification: the same commands on a finite map. *)
Definition map_step (m : gmap K V) (op : dict_op K V) : gmap K V * dict_res V :=
  match op with
  | OpAdd k v => (if absent m k then <[k := v]> m else m, RFlag (absent m k))
  | OpReplace k v => (<[k := v]> m, RFlag (absent m k))
  | OpDelete k => (delete k m, RFlag (negb (absent m k)))
  | OpFetch k => (m, RVal (m !! k))
  | OpRehash _ | OpResize | OpEnableResize _ => (m, RNone)
  | OpEmpty => (∅, RNone)
  end.

Fixpoint dict_run (st : bool * dict K V) (ops : list (dict_op K V))
    : option (bool * dict K V * list (dict_res V)) :=
  match ops with
  | [] => Some (st, [])
  | op :: ops =>
      '(st, r) ← dict_step st op;
      '(st, rs) ← dict_run st ops;
      Some (st, r :: rs)
  end.

Fixpoint map_run (m : gmap K V) (ops : list (dict_op K V)) : gmap K V * list (dict_res V) :=
  match ops with
  | [] => (m, [])
  | op :: ops =>
      let '(m, r) := map_step m op in
      let '(m, rs) := map_run m ops in
      (m, r :: rs)
  end.

Lemma dict_step_spec b d m op :
  dict_repr d m -> Z.of_nat (base.size m) <= max_used ->
  exists b' d', dict_step (b, d) op = Some (b', d', (map_step m op).2) /\
    dict_repr d' (map_step m op).1.
Proof.
  intros Hr Hm. destruct op as [k v|k v|k|k|n| |b'|]; simpl.
  - destruct (dictAdd_spec b junk_val d m k v Hr Hm) as (d' & -> & ?). bind_simpl. eauto.
  - destruct (dictReplace_spec b junk_val d m k v Hr Hm) as (d' & -> & ?). bind_simpl. eauto.
  - destruct (dictDelete_spec d m k Hr) as (d' & -> & ?). bind_simpl. eauto.
  - destruct (dictFetchValue_spec d m k Hr) as (d' & -> & ?). bind_simpl. eauto.
  - destruct (dictRehash_keeps d m n Hr) as (d' & ? & -> & ?). bind_simpl. eauto.
  - destruct (dictResize_keeps b d m Hr Hm) as (d' & ? & -> & ?). bind_simpl. eauto.
  - eauto.
  - eexists _, _. split; [done|]. apply dictCreate_repr.
Qed.

Lemma map_step_size m op :
  Z.of_nat (base.size (map_step m op).1) <= Z.of_nat (base.size m) + 1.
Proof.
  assert (forall k v, Z.of_nat (base.size (<[k := v]> m : gmap K V)) <= Z.of_nat (base.size m) + 1)
    as Hins.
  { intros k v. destruct (m !! k) eqn:Hk.
    - rewrite map_size_insert_Some by eauto. lia.
    - rewrite map_size_insert_None by done. lia. }
  destruct op as [k v|k v|k|k|n| |b'|]; simpl; try lia.
  - destruct (absent m k); [apply Hins|lia].
  - apply Hins.
  - destruct (m !! k) eqn:Hk.
    + rewrite map_size_delete_Some by eauto. lia.
    + rewrite map_size_delete_None by done. lia.
  - rewrite map_size_empty. lia.
Qed.

Lemma dict_run_spec ops b d m :
  dict_repr d m -> Z.of_nat (base.size m) + zlen ops <= max_used ->
  exists b' d', dict_run (b, d) ops = Some (b', d', (map_run m ops).2) /\
    dict_repr d' (map_run m ops).1.
Proof.
  revert b d m. induction ops as [|op ops IH]; intros b d m Hr Hm; [simpl; eauto|].
  cbn [length] in Hm. cbn [dict_run map_run].
  destruct (dict_step_spec b d m op Hr) as (b1 & d1 & -> & Hr1); [lia|]. bind_simpl.
  pose proof (map_step_size m op) as Hsz.
  destruct (map_step m op) as [m1 r]. simpl in *.
  destruct (IH b1 d1 m1 Hr1) as (b2 & d2 & -> & Hr2); [lia|]. bind_simpl.
  destruct (map_run m1 ops) as [m2 rs]. simpl in *. eauto.
Qed.

Lemma dict_run_create ops b :
  zlen ops <= max_used ->
  exists b' d', dict_run (b, dictCreate) ops = Some (b', d', (map_run ∅ ops).2) /\
    dict_repr d' (map_run ∅ ops).1.
Proof.
  intros. apply dict_run_spec; [apply dictCreate_repr|]. by rewrite map_size_empty.
Qed.

(** C4: every sequence of additions, replacements, deletions, lookups,
    rehashing steps and resizes on a new dictionary, whatever incremental
    rehashings it starts and leaves in progress, runs to its end without
    reading outside a table, gives exactly the results of the same sequence on
    a finite map, and leaves a dictionary that represents that map and counts
    its bindings. *)
Theorem dict_run_refines ops b :
  zlen ops <= max_used ->
  exists b' d', dict_run (b, dictCreate) ops = Some (b', d', (map_run ∅ ops).2) /\
    dict_repr d' (map_run ∅ ops).1 /\
    dictSize d' = Z.of_nat (base.size (map_run ∅ ops).1).
Proof.
  intros Hl. destruct (dict_run_create ops b Hl) as (b' & d' & Hrun & Hr).
  exists b', d'. split_and!; [done|done|by apply dictSize_map].
Qed.
End Trace.

(** ** The key type of the Redis databases *)

(** Binary-safe strings hashed by [dictGenHashFunction] ([dictSdsHash] in
    [redis.c]), with a given seed. *)
Lemma xorshift_range h n : 0 <= n -> urange 32 h -> urange 32 (Z.lxor h (Z.shiftr h n)).
Proof.
  intros Hn Hh. unfold urange in *.
  assert (0 <= Z.shiftr h n <= h) as Hs.
  { rewrite Z.shiftr_div_pow2 by done. assert (0 < 2 ^ n) by (apply Z.pow_pos_nonneg; lia).
    split; [apply Z.div_pos; lia|]. apply Z.div_le_upper_bound; nia. }
  split; [apply Z.lxor_nonneg; lia|].
  destruct (decide (Z.lxor h (Z.shiftr h n) = 0)) as [->|]; [done|].
  apply Z.log2_lt_pow2; [assert (0 <= Z.lxor h (Z.shiftr h n)) by (apply Z.lxor_nonneg; lia); lia|].
  assert (forall x, 0 <= x < 2 ^ 32 -> Z.log2 x < 32) as Hlog.
  { intros x Hx. destruct (decide (x = 0)) as [->|]; [done|]. apply Z.log2_lt_pow2; lia. }
  pose proof (Z.log2_lxor h (Z.shiftr h n)). pose proof (Hlog h Hh).
  pose proof (Hlog (Z.shiftr h n)). lia.
Qed.

Lemma dictGenHashFunction_range seed data : urange 32 (dictGenHashFunction seed data).
Proof.
  unfold dictGenHashFunction. apply xorshift_range; [done|]. apply uwrap_range. done.
Qed.

Definition sds_dictType (seed : Z) : DictType (list Z) :=
  {| hashFunction := dictGenHashFunction seed;
     hashFunction_range := dictGenHashFunction_range seed |}.

(** ** Concrete runs *)

(** Five keys in a table of four buckets: the fifth one started a rehashing. *)
Definition sample_ops : list (dict_op (list Z) Z) :=
  [OpAdd [97] 1; OpAdd [98] 2; OpAdd [99] 3; OpAdd [100] 4; OpAdd [101] 5; OpAdd [97] 6].

Section Witnesses.
#[local] Instance key_type : DictType (list Z) := sds_dictType 5381.

Definition sample : dict (list Z) Z :=
  from_option (fun r => r.1.2) dictCreate (dict_run 0 (true, dictCreate) sample_ops).

Definition sample_map : gmap (list Z) Z := (map_run ∅ sample_ops).1.

Example sample_rehashing :
  (dictIsRehashing sample, size (ht0 sample), size (ht1 sample), dictSize sample) = (true, 4, 8, 5).
Proof. vm_compute. reflexivity. Qed.

Lemma sample_dict_repr : dict_repr sample sample_map.
Proof.
  destruct (dict_run_create 0 sample_ops true) as (b & d & Hd & Hr); [by vm_compute|].
  unfold sample. rewrite Hd. exact Hr.
Qed.

Lemma dict_run_refines_witness :
  exists b' d', dict_run 0 (true, dictCreate) (sample_ops ++ [OpDelete [98]; OpFetch [98]]) =
      Some (b', d', (map_run ∅ (sample_ops ++ [OpDelete [98]; OpFetch [98]])).2) /\
    dict_repr d' (map_run ∅ (sample_ops ++ [OpDelete [98]; OpFetch [98]])).1 /\
    dictSize d' = Z.of_nat (base.size (map_run ∅ (sample_ops ++ [OpDelete [98]; OpFetch [98]])).1).
Proof. apply dict_run_refines. by vm_compute. Defined.

Lemma dictRehash_completes_witness :
  exists d' more, dictRehash sample 6 = Some (d', more) /\ dict_repr d' sample_map /\
    entries d' ≡ₚ entries sample /\
    (dictIsRehashing sample = true -> Z.of_nat 6 > used (ht0 sample) ->
     more = false /\ dictIsRehashing d' = false /\ size (ht0 d') = size (ht1 sample)).
Proof. apply dictRehash_completes, sample_dict_repr. Defined.

Lemma dictResize_minimal_witness :
  exists d' ok, dictResize true sample = Some (d', ok) /\ dict_repr d' sample_map /\
    ok = true && negb (dictIsRehashing sample) /\
    (if (ok : bool) then
       Z.of_nat (base.size sample_map) <= size (target d') /\
       (size (target d') = DICT_HT_INITIAL_SIZE \/
        size (target d') < 2 * Z.of_nat (base.size sample_map))
     else d' = sample).
Proof. apply dictResize_minimal; [apply sample_dict_repr|by vm_compute]. Defined.
End Witnesses.
