(* ===== verification/DictScan.v ===== *)
(** * Iterating over a changing hash table ([dictScan] of [dict.c])

    The cursor of [dictScan] is incremented from its high-order bits down, so
    that an iteration survives the growth of the table between two calls.  The
    comment above [dictScan] promises that every element present from the start
    to the end of an iteration is returned.  This file proves the promise for
    tables that do not shrink under the cursor and refutes it for a table that
    does. *)
From S2P Require Import Prelude Dict.

(** ** Bit reversal *)

(** One exchange of [s]-bit groups, selected by [mask]. *)
Definition rev_stage (sm : Z * Z) (v : Z) : Z :=
  Z.lor (Z.land (Z.shiftr v sm.1) sm.2) (Z.land (uwrap 64 (Z.shiftl v sm.1)) (unot 64 sm.2)).

Definition rev_masks : list (Z * Z) :=
  [(32, 0x00000000FFFFFFFF); (16, 0x0000FFFF0000FFFF); (8, 0x00FF00FF00FF00FF);
   (4, 0x0F0F0F0F0F0F0F0F); (2, 0x3333333333333333); (1, 0x5555555555555555)].

Lemma rev_stages v : dict_rev v = Some (foldl (fun v sm => rev_stage sm v) v rev_masks).
Proof. reflexivity. Qed.

Lemma uwrap_testbit w x i : 0 <= i < w -> Z.testbit (uwrap w x) i = Z.testbit x i.
Proof. intros. apply Z.mod_pow2_bits_low. lia. Qed.

Lemma uwrap_testbit_high w x i : 0 <= w <= i -> Z.testbit (uwrap w x) i = false.
Proof. intros. apply Z.mod_pow2_bits_high. lia. Qed.

Lemma unot_lnot w x : 0 <= w -> urange w x -> unot w x = uwrap w (Z.lnot x).
Proof.
  intros Hw Hx. unfold unot, uwrap, urange, Z.lnot, Z.pred in *.
  apply Z.mod_unique with (-1); lia.
Qed.

Lemma unot_testbit w x i :
  0 <= i < w -> urange w x -> Z.testbit (unot w x) i = negb (Z.testbit x i).
Proof.
  intros. rewrite unot_lnot, uwrap_testbit by (done || lia). apply Z.lnot_spec. lia.
Qed.

Lemma urange_testbit w x i : 0 <= w <= i -> urange w x -> Z.testbit x i = false.
Proof.
  intros Hw Hx. rewrite <- (uwrap_small w x Hx). apply uwrap_testbit_high. lia.
Qed.

(** A number without bits from [w] up is a [w]-bit number. *)
Lemma testbit_urange w x :
  0 <= w -> (forall i, w <= i -> Z.testbit x i = false) -> urange w x.
Proof.
  intros Hw Hb. assert (x = uwrap w x) as ->.
  - apply Z.bits_inj'. intros i Hi. destruct (decide (i < w)).
    + by rewrite uwrap_testbit by lia.
    + rewrite uwrap_testbit_high by lia. apply Hb. lia.
  - by apply uwrap_range.
Qed.

Lemma urange_bits_inj w x y :
  0 <= w -> urange w x -> urange w y ->
  (forall i, 0 <= i < w -> Z.testbit x i = Z.testbit y i) -> x = y.
Proof.
  intros Hw Hx Hy Hb. apply Z.bits_inj'. intros i Hi. destruct (decide (i < w)); [auto|].
  rewrite !(urange_testbit w) by (done || lia). done.
Qed.

(** The bit a stage brings to position [i]. *)
Definition stage_source (sm : Z * Z) (i : Z) : Z :=
  if Z.testbit sm.2 i then i + sm.1 else i - sm.1.

Lemma rev_stage_testbit s mask v i :
  0 <= s -> urange 64 mask -> 0 <= i < 64 ->
  Z.testbit (rev_stage (s, mask) v) i = Z.testbit v (stage_source (s, mask) i).
Proof.
  intros Hs Hm Hi. unfold rev_stage, stage_source; simpl.
  rewrite Z.lor_spec, !Z.land_spec, unot_testbit, uwrap_testbit by done.
  rewrite Z.shiftr_spec, Z.shiftl_spec by lia.
  by destruct (Z.testbit mask i); rewrite ?andb_true_r, ?andb_false_r, ?orb_false_r.
Qed.

Lemma rev_stage_range s mask v : urange 64 mask -> urange 64 (rev_stage (s, mask) v).
Proof.
  intros Hm. apply testbit_urange; [lia|]. intros i Hi. unfold rev_stage; simpl.
  rewrite Z.lor_spec, !Z.land_spec, (urange_testbit 64 mask), (uwrap_testbit_high 64)
    by (done || lia).
  by rewrite andb_false_r.
Qed.

(** The source of a bit of the composition of the stages, last stage first;
    [None] if a source leaves the word. *)
Definition rev_source (i : Z) : option Z :=
  foldr (fun sm oi => i ← oi;
           let j := stage_source sm i in
           if bool_decide (0 <= j < 64) then Some j else None) (Some i) rev_masks.

Lemma rev_source_mirror :
  forallb (fun i => bool_decide (rev_source i = Some (63 - i))) (seqZ 0 64) = true.
Proof. vm_compute. reflexivity. Qed.

Lemma foldr_source l v i j :
  Forall (fun sm => 0 <= sm.1 /\ urange 64 sm.2) l -> 0 <= i < 64 ->
  foldr (fun sm oi => i ← oi;
           let j := stage_source sm i in
           if bool_decide (0 <= j < 64) then Some j else None) (Some i) l = Some j ->
  Z.testbit (foldl (fun v sm => rev_stage sm v) v l) i = Z.testbit v j.
Proof.
  revert v j. induction l as [|[s mask] l IH]; intros v j Hl Hi; simpl.
  - by intros [= ->].
  - apply Forall_cons in Hl as [[Hs Hm] Hl].
    destruct (foldr _ _ l) as [j'|] eqn:Hf; [|done]. bind_simpl.
    case_bool_decide; [|done]. intros [= <-].
    rewrite (IH _ j') by done. apply rev_stage_testbit; [done|done|].
    clear -Hf Hi. destruct l as [|sm l]; simpl in Hf; [by simplify_eq|].
    destruct (foldr _ _ l); [|done]. simpl in Hf. case_bool_decide; by simplify_eq.
Qed.

Lemma rev_spec v :
  exists r, dict_rev v = Some r /\ urange 64 r /\
    forall i, 0 <= i < 64 -> Z.testbit r i = Z.testbit v (63 - i).
Proof.
  eexists. split; [apply rev_stages|]. split.
  - simpl. apply rev_stage_range. by vm_compute.
  - intros i Hi. apply foldr_source; [|done|].
    + repeat constructor; simpl; (lia || by vm_compute).
    + pose proof rev_source_mirror as Hall. rewrite forallb_forall in Hall.
      assert (In i (seqZ 0 64)) as Hin by (apply list_elem_of_In, elem_of_seqZ; lia).
      specialize (Hall i Hin). by apply bool_decide_eq_true in Hall.
Qed.

(** The reversal as a total function. *)
Definition rv (v : Z) : Z := default 0 (dict_rev v).

Lemma rev_rv v : dict_rev v = Some (rv v).
Proof. unfold rv. by destruct (rev_spec v) as (r & -> & _). Qed.

Lemma rv_range v : urange 64 (rv v).
Proof. unfold rv. by destruct (rev_spec v) as (r & -> & ? & _). Qed.

Lemma rv_testbit v i : 0 <= i < 64 -> Z.testbit (rv v) i = Z.testbit v (63 - i).
Proof. unfold rv. destruct (rev_spec v) as (r & -> & _ & Hb). apply Hb. Qed.

(** The mirror image of a 64-bit word: bit [i] goes to position [63 - i]. *)
Definition mirror_image (v r : Z) : Prop :=
  urange 64 r /\ forall i, 0 <= i < 64 -> Z.testbit r i = Z.testbit v (63 - i).

(** The parallel bit-swapping algorithm of [dict_rev] terminates and gives
    the mirror image of the 64 bits of its argument; it is its own inverse. *)
Theorem rev_mirrors v :
  urange 64 v ->
  exists r, dict_rev v = Some r /\ mirror_image v r /\ dict_rev r = Some v.
Proof.
  intros Hv. exists (rv v). split_and!; [apply rev_rv|split; [apply rv_range|apply rv_testbit]|].
  rewrite rev_rv. f_equal. apply (urange_bits_inj 64); [lia|apply rv_range|done|].
  intros i Hi. rewrite !rv_testbit by lia. f_equal. lia.
Qed.

Lemma rev_mirrors_witness :
  exists r, dict_rev 11 = Some r /\ mirror_image 11 r /\ dict_rev r = Some 11.
Proof. apply rev_mirrors. by vm_compute. Defined.

Lemma rv_involutive v : urange 64 v -> rv (rv v) = v.
Proof.
  intros Hv. apply (urange_bits_inj 64); [lia|apply rv_range|done|].
  intros i Hi. rewrite !rv_testbit by lia. f_equal. lia.
Qed.

(** ** The order in which cursors visit buckets *)

Lemma testbit_lt_pow2_pred n i : 0 <= n -> 0 <= i -> Z.testbit (2 ^ n - 1) i = bool_decide (i < n).
Proof.
  intros Hn Hi. replace (2 ^ n - 1) with (Z.ones n) by (rewrite Z.ones_equiv; lia).
  case_bool_decide.
  - apply Z.ones_spec_low. lia.
  - apply Z.ones_spec_high. lia.
Qed.

(** Agreeing on the low [n] bits is agreeing on the high [n] reversed bits. *)
Lemma land_mask_rv n x y :
  0 <= n <= 64 -> urange 64 x -> urange 64 y ->
  Z.land x (2 ^ n - 1) = Z.land y (2 ^ n - 1) <-> rv x / 2 ^ (64 - n) = rv y / 2 ^ (64 - n).
Proof.
  intros Hn Hx Hy. rewrite <- !Z.shiftr_div_pow2 by lia. split; intros He.
  - apply Z.bits_inj'. intros i Hi. rewrite !Z.shiftr_spec by lia.
    destruct (decide (i + (64 - n) < 64)).
    + rewrite !rv_testbit by lia.
      assert (forall z, Z.testbit z (63 - (i + (64 - n))) =
                Z.testbit (Z.land z (2 ^ n - 1)) (63 - (i + (64 - n)))) as Hz.
      { intros z. rewrite Z.land_spec, testbit_lt_pow2_pred by lia.
        rewrite bool_decide_true by lia. by rewrite andb_true_r. }
      rewrite (Hz x), (Hz y). by rewrite He.
    + rewrite !(urange_testbit 64) by (apply rv_range || lia). done.
  - apply Z.bits_inj'. intros i Hi. rewrite !Z.land_spec, testbit_lt_pow2_pred by lia.
    case_bool_decide; [|by rewrite !andb_false_r]. rewrite !andb_true_r.
    assert (forall z, urange 64 z -> Z.testbit z i =
              Z.testbit (Z.shiftr (rv z) (64 - n)) (63 - i - (64 - n))) as Hz.
    { intros z Hz. rewrite Z.shiftr_spec, rv_testbit by lia. f_equal. lia. }
    rewrite (Hz x Hx), (Hz y Hy). by rewrite He.
Qed.

(** Setting the [n] low bits, in arithmetic. *)
Lemma lor_low_ones n x :
  0 <= n -> Z.lor x (2 ^ n - 1) = x / 2 ^ n * 2 ^ n + (2 ^ n - 1).
Proof.
  intros Hn. replace (2 ^ n - 1) with (Z.ones n) by (rewrite Z.ones_equiv; lia).
  rewrite <- Z.shiftr_div_pow2, <- Z.shiftl_mul_pow2 by lia.
  assert (Z.land (Z.shiftl (Z.shiftr x n) n) (Z.ones n) = 0) as Hz.
  { rewrite Z.land_ones, Z.shiftl_mul_pow2 by lia. apply Z_mod_mult. }
  rewrite Z.add_nocarry_lxor, Z.lxor_lor by done.
  apply Z.bits_inj'. intros i Hi. rewrite !Z.lor_spec.
  destruct (decide (i < n)).
  - rewrite Z.ones_spec_low by lia. by rewrite !orb_true_r.
  - rewrite Z.shiftl_spec, Z.shiftr_spec by lia. do 2 f_equal. lia.
Qed.

(** The next cursor: in reversed order, the first one of the next block. *)
Lemma scan_next_cursor_spec n v :
  0 <= n <= 64 -> urange 64 v ->
  exists v', scan_next_cursor v (2 ^ n - 1) = Some v' /\ urange 64 v' /\
    rv v' = uwrap 64 ((rv v / 2 ^ (64 - n) + 1) * 2 ^ (64 - n)).
Proof.
  intros Hn Hv. unfold scan_next_cursor. rewrite rev_rv. bind_rw. rewrite rev_rv.
  eexists. split; [done|]. split; [apply rv_range|].
  rewrite rv_involutive by (apply uwrap_range; lia). f_equal.
  set (B := 2 ^ (64 - n)). assert (0 < B) by (apply Z.pow_pos_nonneg; lia).
  assert (urange 64 (2 ^ n - 1)) as Hm.
  { unfold urange. assert (2 ^ n <= 2 ^ 64) by (apply Z.pow_le_mono_r; lia).
    pose proof (Z.pow_pos_nonneg 2 n). lia. }
  assert (urange 64 (Z.lor v (unot 64 (2 ^ n - 1)))) as Hor.
  { apply testbit_urange; [lia|]. intros i Hi. rewrite Z.lor_spec.
    rewrite (urange_testbit 64 v), unot_lnot, uwrap_testbit_high by (done || lia). done. }
  assert (rv (Z.lor v (unot 64 (2 ^ n - 1))) = rv v / B * B + (B - 1)) as ->; [|f_equal; lia].
  unfold B. rewrite <- lor_low_ones by lia.
  apply (urange_bits_inj 64); [lia|apply rv_range| |].
  - apply testbit_urange; [lia|]. intros i Hi.
    rewrite Z.lor_spec, testbit_lt_pow2_pred by lia.
    rewrite (urange_testbit 64 (rv v)), bool_decide_false by (apply rv_range || lia). done.
  - intros i Hi. rewrite rv_testbit, !Z.lor_spec, rv_testbit, unot_testbit by (done || lia).
    rewrite !testbit_lt_pow2_pred by lia. f_equal.
    repeat case_bool_decide; (done || lia).
Qed.

(** ** One call *)

Section Scan.
Context {K V : Type} `{DictType K} `{!Countable K}.
Implicit Types (d : dict K V) (e : dictEntry K V) (ht : dictht K V) (m : gmap K V).

Definition hash_of e : Z := hashFunction (key e).

Lemma hash_range64 e : urange 64 (hash_of e).
Proof.
  pose proof (hashFunction_range (key e)) as Hh. unfold hash_of, urange in *. lia.
Qed.

Lemma land_low n x : 0 <= n -> Z.land x (2 ^ n - 1) = x mod 2 ^ n.
Proof.
  intros. replace (2 ^ n - 1) with (Z.ones n) by (rewrite Z.ones_equiv; lia).
  by apply Z.land_ones.
Qed.

Lemma table_chain ht n v :
  ht_live ht -> 0 <= n -> size ht = 2 ^ n ->
  exists chain, table ht !! Z.to_nat (Z.land v (sizemask ht)) = Some chain /\
    (forall e, e ∈ chain -> e ∈ ht_entries ht) /\
    (forall e, e ∈ ht_entries ht -> hash_of e mod 2 ^ n = v mod 2 ^ n -> e ∈ chain).
Proof.
  intros Hl Hn Hs. rewrite (live_mask _ Hl), Hs, land_low by done.
  assert (0 < 2 ^ n) by (apply Z.pow_pos_nonneg; lia).
  pose proof (Z.mod_pos_bound v (2 ^ n) ltac:(lia)). pose proof (live_length _ Hl).
  destruct (lookup_lt_is_Some_2 (table ht) (Z.to_nat (v mod 2 ^ n))) as [chain Hc]; [lia|].
  exists chain. split; [done|]. split.
  - intros e He. by eapply elem_of_join_at.
  - intros e He Hmod. destruct (entry_bucket ht e Hl He) as (chain' & Hc' & Hin).
    rewrite bucket_mod, Hs in Hc' by (done || apply hashFunction_range).
    fold (hash_of e) in Hc'. rewrite Hmod in Hc'. by simplify_eq.
Qed.

(** The arithmetic of the expansion loop: [B] buckets in the smaller table,
    [D] expansions of each. *)
Lemma expand_next n0 v :
  0 <= n0 <= 64 -> urange 64 v ->
  Z.lor (Z.land (uwrap 64 (Z.lor v (2 ^ n0 - 1) + 1)) (unot 64 (2 ^ n0 - 1)))
        (Z.land v (2 ^ n0 - 1)) =
  ((v / 2 ^ n0 + 1) mod 2 ^ (64 - n0)) * 2 ^ n0 + v mod 2 ^ n0.
Proof.
  intros Hn Hv. rewrite lor_low_ones, land_low by lia.
  set (B := 2 ^ n0). assert (0 < B) by (apply Z.pow_pos_nonneg; lia).
  assert (2 ^ 64 = B * 2 ^ (64 - n0)) as HB
    by (unfold B; rewrite <- Z.pow_add_r by lia; f_equal; lia).
  assert (uwrap 64 (v / B * B + (B - 1) + 1) = ((v / B + 1) mod 2 ^ (64 - n0)) * B) as ->.
  { unfold uwrap. rewrite HB.
    replace (v / B * B + (B - 1) + 1) with (B * (v / B + 1)) by lia.
    rewrite Z.mul_mod_distr_l by (pose proof (Z.pow_pos_nonneg 2 (64 - n0)); lia). lia. }
  set (q := (v / B + 1) mod 2 ^ (64 - n0)).
  assert (0 <= q < 2 ^ (64 - n0)) as Hq
    by (apply Z.mod_pos_bound; apply Z.pow_pos_nonneg; lia).
  assert (urange 64 (B - 1)) by (unfold urange; nia).
  assert (Z.land (q * B) (B - 1) = 0) as Hz
    by (unfold B; rewrite land_low by lia; apply Z_mod_mult).
  assert (Z.land (q * B) (unot 64 (B - 1)) = q * B) as ->.
  { apply Z.bits_inj'. intros i Hi. rewrite Z.land_spec.
    destruct (decide (i < 64)).
    - rewrite unot_testbit by (done || lia).
      apply (f_equal (fun x => Z.testbit x i)) in Hz.
      rewrite Z.land_spec, Z.bits_0 in Hz. destruct (Z.testbit (q * B) i); [|done].
      simpl in *. by rewrite Hz.
    - by rewrite (urange_testbit 64 (q * B)) by (unfold urange; nia || lia). }
  assert (Z.land (q * B) (v mod B) = 0) as Hz2.
  { pose proof (land_low n0 v ltac:(lia)) as Hl. fold B in Hl. rewrite <- Hl.
    rewrite Z.land_comm, <- Z.land_assoc, (Z.land_comm (B - 1)), Hz. apply Z.land_0_r. }
  by rewrite Z.add_nocarry_lxor, Z.lxor_lor.
Qed.

Lemma land_between n0 n1 x :
  0 <= n0 <= n1 ->
  Z.land x (Z.lxor (2 ^ n0 - 1) (2 ^ n1 - 1)) = ((x / 2 ^ n0) mod 2 ^ (n1 - n0)) * 2 ^ n0.
Proof.
  intros Hn. rewrite <- land_low, <- Z.shiftl_mul_pow2, <- Z.shiftr_div_pow2 by lia.
  apply Z.bits_inj'. intros i Hi.
  rewrite Z.land_spec, Z.lxor_spec, !testbit_lt_pow2_pred by lia.
  destruct (decide (i < n0)).
  - rewrite Z.shiftl_spec_low by lia. rewrite !bool_decide_true by lia. apply andb_false_r.
  - rewrite Z.shiftl_spec_high, Z.land_spec, Z.shiftr_spec, testbit_lt_pow2_pred by lia.
    rewrite (bool_decide_false (i < n0)) by lia. simpl.
    f_equal; [f_equal; lia|]. apply bool_decide_ext. lia.
Qed.

Lemma mod_split n0 n1 x :
  0 <= n0 <= n1 ->
  x mod 2 ^ n1 = x mod 2 ^ n0 + 2 ^ n0 * ((x / 2 ^ n0) mod 2 ^ (n1 - n0)).
Proof.
  intros. replace n1 with (n0 + (n1 - n0)) at 1 by lia.
  rewrite Z.pow_add_r by lia. apply Z.rem_mul_r; [|apply Z.pow_pos_nonneg; lia].
  pose proof (Z.pow_pos_nonneg 2 n0). lia.
Qed.

Section Expand.
Context (t1 : dictht K V) (n0 n1 v : Z) (chain0 : list (dictEntry K V)).
Context (Hl1 : ht_live t1) (Hn : 0 <= n0 <= n1) (Hn1 : n1 <= 31) (Hs1 : size t1 = 2 ^ n1).
Context (Hv : urange 64 v).

(** The expansion of a bucket of the smaller table an index stands for. *)
Definition expansion (x : Z) : Z := (x / 2 ^ n0) mod 2 ^ (n1 - n0).

Definition expand_inv (st : Z * list (dictEntry K V)) : Prop :=
  urange 64 st.1 /\ st.1 mod 2 ^ n0 = v mod 2 ^ n0 /\ expansion v <= expansion st.1 /\
  (forall e, e ∈ chain0 -> e ∈ st.2) /\
  (forall e, e ∈ st.2 -> e ∈ chain0 \/ e ∈ ht_entries t1) /\
  (forall e, e ∈ ht_entries t1 -> hash_of e mod 2 ^ n0 = v mod 2 ^ n0 ->
     expansion v <= expansion (hash_of e) < expansion st.1 -> e ∈ st.2).

Definition expand_post (r : option (Z * list (dictEntry K V))) : Prop :=
  exists v2 out, r = Some (v2, out) /\ urange 64 v2 /\ v2 mod 2 ^ n0 = v mod 2 ^ n0 /\
  (forall e, e ∈ chain0 -> e ∈ out) /\
  (forall e, e ∈ out -> e ∈ chain0 \/ e ∈ ht_entries t1) /\
  (forall e, e ∈ ht_entries t1 -> hash_of e mod 2 ^ n0 = v mod 2 ^ n0 ->
     expansion v <= expansion (hash_of e) -> e ∈ out).

Lemma expansion_bound x : 0 <= expansion x < 2 ^ (n1 - n0).
Proof. apply Z.mod_pos_bound, Z.pow_pos_nonneg; lia. Qed.

Lemma expansion_step a b :
  0 <= b < 2 ^ n0 ->
  expansion ((a mod 2 ^ (64 - n0)) * 2 ^ n0 + b) = a mod 2 ^ (n1 - n0) /\
  ((a mod 2 ^ (64 - n0)) * 2 ^ n0 + b) mod 2 ^ n0 = b /\
  urange 64 ((a mod 2 ^ (64 - n0)) * 2 ^ n0 + b).
Proof.
  intros Hb. unfold expansion. assert (0 < 2 ^ n0) by lia.
  assert (0 < 2 ^ (n1 - n0)) by (apply Z.pow_pos_nonneg; lia).
  assert (2 ^ 64 = 2 ^ n0 * 2 ^ (64 - n0)) as HB by (rewrite <- Z.pow_add_r by lia; f_equal; lia).
  pose proof (Z.mod_pos_bound a (2 ^ (64 - n0)) ltac:(apply Z.pow_pos_nonneg; lia)).
  split_and!.
  - rewrite Z.div_add_l, (Z.div_small b), Z.add_0_r by lia.
    replace (64 - n0) with ((n1 - n0) + (64 - n1)) by lia.
    rewrite Z.pow_add_r, Z.rem_mul_r by (try apply Z.pow_pos_nonneg; lia).
    rewrite Z.mul_comm, Z_mod_plus_full. by rewrite Z.mod_mod by lia.
  - rewrite Z.add_comm, Z_mod_plus_full. by apply Z.mod_small.
  - unfold urange. nia.
Qed.

Lemma expand_step st :
  expand_inv st ->
  match scan_expand_step t1 (2 ^ n0 - 1) (2 ^ n1 - 1) st with
  | Continue st' => expand_inv st' /\
      (Z.to_nat (2 ^ (n1 - n0) - expansion st'.1) < Z.to_nat (2 ^ (n1 - n0) - expansion st.1))%nat
  | Break r => expand_post r
  end.
Proof.
  destruct st as [vi out]. intros (Hvi & Hb & Ha & Hc0 & Hout & Hcov). simpl in *.
  unfold scan_expand_step.
  destruct (table_chain t1 n1 vi Hl1 ltac:(lia) Hs1) as (chain & Hc & Hcin & Hcall).
  rewrite (live_mask _ Hl1), Hs1 in Hc. rewrite Hc.
  rewrite expand_next by (done || lia).
  assert (0 < 2 ^ n0) by (apply Z.pow_pos_nonneg; lia).
  destruct (expansion_step (vi / 2 ^ n0 + 1) (vi mod 2 ^ n0)) as (He & Hm & Hr);
    [by apply Z.mod_pos_bound|].
  set (v' := (vi / 2 ^ n0 + 1) mod 2 ^ (64 - n0) * 2 ^ n0 + vi mod 2 ^ n0) in *.
  pose proof (expansion_bound vi) as Hbi.
  assert (expansion v' = if bool_decide (expansion vi + 1 = 2 ^ (n1 - n0)) then 0
                         else expansion vi + 1) as He'.
  { rewrite He. unfold expansion in *. rewrite <- Zplus_mod_idemp_l.
    case_bool_decide as Hd; [rewrite Hd; apply Z_mod_same_full|apply Z.mod_small; lia]. }
  assert (forall e, e ∈ ht_entries t1 -> hash_of e mod 2 ^ n0 = v mod 2 ^ n0 ->
     expansion v <= expansion (hash_of e) <= expansion vi -> e ∈ out ++ chain) as Hcov'.
  { intros e He1 Hh Hx. apply elem_of_app.
    destruct (decide (expansion (hash_of e) = expansion vi)) as [Heq|]; [right|left].
    - apply Hcall; [done|]. rewrite !(mod_split n0 n1) by lia.
      fold (expansion (hash_of e)) (expansion vi). rewrite Heq, Hh, Hb. done.
    - apply Hcov; [done|done|lia]. }
  assert (forall e, e ∈ out ++ chain -> e ∈ chain0 \/ e ∈ ht_entries t1) as Hout'
    by (intros e [?|?]%elem_of_app; auto).
  assert (forall e, e ∈ chain0 -> e ∈ out ++ chain) as Hc0'
    by (intros; apply elem_of_app; auto).
  rewrite land_between by lia. fold (expansion v').
  destruct (decide (expansion vi + 1 = 2 ^ (n1 - n0))) as [Hd|Hd].
  - rewrite (bool_decide_true _ Hd) in He'. rewrite He'. rewrite bool_decide_false by lia.
    exists v', (out ++ chain). split_and!; try done; [congruence|].
    intros e He1 Hh Hx. apply Hcov'; [done..|]. pose proof (expansion_bound (hash_of e)). lia.
  - rewrite (bool_decide_false _ Hd) in He'. rewrite bool_decide_true by nia.
    simpl. split; [|lia].
    unfold expand_inv; cbn [fst snd]. split_and!; try done; [congruence|lia|].
    intros e He1 Hh Hx. simpl in Hx. apply Hcov'; [done..|]. lia.
Qed.

Lemma expand_loop :
  expand_post (mjoin (loop (S (Z.to_nat (size t1)))
    (scan_expand_step t1 (2 ^ n0 - 1) (2 ^ n1 - 1)) (v, chain0))).
Proof.
  destruct (loop_spec expand_inv (fun st => Z.to_nat (2 ^ (n1 - n0) - expansion st.1))
    expand_post (scan_expand_step t1 (2 ^ n0 - 1) (2 ^ n1 - 1)) (S (Z.to_nat (size t1)))
    (v, chain0)) as (r & -> & Hr); [apply expand_step| | |done].
  - split_and!; simpl; try done; [auto|]. intros e _ _ Hx. lia.
  - rewrite Hs1. simpl. pose proof (expansion_bound v).
    assert (2 ^ (n1 - n0) <= 2 ^ n1) by (apply Z.pow_le_mono_r; lia). lia.
Qed.
End Expand.

(** The number of buckets of the table the cursor walks over. *)
Definition scan_size d : Z :=
  if dictIsRehashing d then Z.min (size (ht0 d)) (size (ht1 d)) else size (ht0 d).

(** What one call does: the next cursor, in reversed order, is the start of the
    next block; what it emits is in the table, and if the cursor is within the
    smaller table (or there is only one) it emits all that the block holds. *)
Record scan_call d (v : Z) (n v' : Z) (out : list (dictEntry K V)) : Prop := {
  call_log : 2 <= n <= 31 /\ scan_size d = 2 ^ n;
  call_result : dictScan d v = Some (v', out);
  call_range : urange 64 v';
  call_cursor : rv v' = uwrap 64 ((rv v / 2 ^ (64 - n) + 1) * 2 ^ (64 - n));
  call_sound : forall e, e ∈ out -> e ∈ entries d;
  call_complete : dictIsRehashing d = false \/ v < 2 ^ n ->
    forall e, e ∈ entries d -> rv (hash_of e) / 2 ^ (64 - n) = rv v / 2 ^ (64 - n) -> e ∈ out;
}.

Lemma same_block n x y :
  0 <= n <= 64 -> urange 64 x -> urange 64 y ->
  x mod 2 ^ n = y mod 2 ^ n <-> rv x / 2 ^ (64 - n) = rv y / 2 ^ (64 - n).
Proof. intros. rewrite <- land_mask_rv by done. by rewrite !land_low by lia. Qed.

Lemma scan_tables_cases d t0 t1 :
  scan_tables d = (t0, t1) ->
  (forall e, e ∈ entries d <-> e ∈ ht_entries t0 \/ e ∈ ht_entries t1) /\
  Z.min (size (ht0 d)) (size (ht1 d)) = size t0.
Proof.
  unfold scan_tables, entries. case_bool_decide; intros [= <- <-].
  - split; [intros e; rewrite elem_of_app; tauto|lia].
  - split; [intros e; rewrite elem_of_app; tauto|lia].
Qed.

Lemma scan_call_rehashing d v (t0 t1 : dictht K V) :
  dictIsRehashing d = true -> ht_live t0 -> ht_live t1 -> size t0 <= size t1 ->
  scan_tables d = (t0, t1) ->
  dictSize d <> 0 -> urange 64 v ->
  exists n v' out, scan_call d v n v' out.
Proof.
  intros Hre Hl0 Hl1 Hle Ht Hne Hv.
  destruct (live_log _ Hl0) as (n0 & Hn0 & Hs0). destruct (live_log _ Hl1) as (n1 & Hn1 & Hs1).
  assert (0 <= n0 <= n1) as Hn01.
  { split; [lia|]. apply (Z.pow_le_mono_r_iff 2); lia. }
  destruct (table_chain t0 n0 v Hl0 ltac:(lia) Hs0) as (chain0 & Hc & Hcin & Hcall).
  destruct (expand_loop t1 n0 n1 v chain0 Hl1 Hn01 ltac:(lia) Hs1 Hv)
    as (v2 & out & Hloop & Hr2 & Hb2 & Hc0 & Hout & Hcov).
  destruct (scan_next_cursor_spec n0 v2) as (v' & Hnext & Hr' & Hrv); [lia|done|].
  destruct (scan_tables_cases d t0 t1 Ht) as [Hent Hmin].
  assert (scan_size d = 2 ^ n0) as Hsz by (unfold scan_size; by rewrite Hre, Hmin, <- Hs0).
  exists n0, v', out. split; [by split| |exact Hr'| | |].
  - unfold dictScan. rewrite bool_decide_false, Hre by done.
    rewrite Ht, Hc. bind_rw. rewrite (live_mask _ Hl0), (live_mask _ Hl1), Hs0, Hs1.
    rewrite Hs1 in Hloop. rewrite Hloop. bind_rw. rewrite Hnext. by bind_rw.
  - rewrite Hrv. do 3 f_equal. by apply same_block; [lia| | |].
  - intros e He. apply Hent. destruct (Hout e He); auto.
  - intros [Hf|Hlt] e He Hblk; [congruence|].
    apply same_block in Hblk; [|lia|apply hash_range64|done].
    apply Hent in He as [He|He]; [auto|]. apply Hcov; [done|done|].
    unfold expansion. rewrite (Z.div_small v) by (unfold urange in Hv; lia).
    rewrite Z.mod_0_l by (pose proof (Z.pow_pos_nonneg 2 (n1 - n0)); lia).
    apply expansion_bound; lia.
Qed.

Lemma dictScan_call d m v :
  dict_repr d m -> dictSize d <> 0 -> urange 64 v ->
  exists n v' out, scan_call d v n v' out.
Proof.
  intros Hr Hne Hv. destruct (dictIsRehashing d) eqn:Hre.
  - destruct (phase_unallocated_rehash d (repr_phase _ _ Hr) (proj1 (isRehashing_true d) Hre))
      as (Hl0 & Hl1 & _).
    destruct (decide (size (ht0 d) > size (ht1 d))) as [Hgt|Hle].
    + apply (scan_call_rehashing d v (ht1 d) (ht0 d)); [done..|lia| |done|done].
      unfold scan_tables. by rewrite bool_decide_true.
    + apply (scan_call_rehashing d v (ht0 d) (ht1 d)); [done..|lia| |done|done].
      unfold scan_tables. by rewrite bool_decide_false.
  - assert (ht_live (ht0 d) /\ ht_entries (ht1 d) = []) as [Hl0 He1].
    { apply isRehashing_false in Hre. unfold dictSize in Hne.
      destruct (repr_phase _ _ Hr) as [Hh0 Hh1 _|? -> _|_ _ ? _]; [|done|lia].
      rewrite Hh0, Hh1 in Hne. done. }
    destruct (live_log _ Hl0) as (n & Hn & Hs).
    destruct (table_chain (ht0 d) n v Hl0 ltac:(lia) Hs) as (chain & Hc & Hcin & Hcall).
    destruct (scan_next_cursor_spec n v) as (v' & Hnext & Hr' & Hrv); [lia|done|].
    exists n, v', chain. split; [| |exact Hr'|exact Hrv| |].
    + unfold scan_size. by rewrite Hre.
    + unfold dictScan. rewrite bool_decide_false, Hre, Hc by done. bind_rw.
      rewrite (live_mask _ Hl0), Hs, Hnext. by bind_rw.
    + intros e He. apply elem_of_app. left. auto.
    + intros _ e He Hblk. unfold entries in He. rewrite He1, app_nil_r in He.
      apply Hcall; [done|]. apply same_block; [lia|apply hash_range64|done|done].
Qed.

(** ** Whole iterations *)

(** An iteration: the dictionaries at the successive calls (whatever happened
    to the table in between), from cursor [v] to the first return of 0, and
    all the entries returned. *)
Inductive full_scan : list (dict K V) -> Z -> list (dictEntry K V) -> Prop :=
| scan_last d v out : dictScan d v = Some (0, out) -> full_scan [d] v out
| scan_more d ds v v' out outs :
    dictScan d v = Some (v', out) -> v' <> 0 -> full_scan ds v' outs ->
    full_scan (d :: ds) v (out ++ outs).

(** The table the cursor walks over does not shrink between two calls, unless
    the second one sees a single table. *)
Definition no_shrink d d' : Prop := dictIsRehashing d' = false \/ scan_size d <= scan_size d'.

Inductive no_shrinks : list (dict K V) -> Prop :=
| no_shrinks_one d : no_shrinks [d]
| no_shrinks_cons d d' ds : no_shrink d d' -> no_shrinks (d' :: ds) -> no_shrinks (d :: d' :: ds).

(** [k] is in every dictionary of the iteration. *)
Definition present (k : K) d : Prop := exists m v, dict_repr d m /\ m !! k = Some v.

Lemma present_entry k d :
  present k d -> exists e, e ∈ entries d /\ key e = k /\ dictSize d <> 0 /\
    exists m, dict_repr d m.
Proof.
  intros (m & v & Hr & Hk). exists (DictEntry k v). split_and!; [|done| |eauto].
  - by apply (repr_map _ _ Hr).
  - rewrite (dictSize_map d m Hr). intros Hz.
    assert (base.size m = 0%nat) as Hz' by lia.
    apply map_size_empty_inv in Hz'. by rewrite Hz', lookup_empty in Hk.
Qed.

Lemma rv_0 : rv 0 = 0.
Proof. reflexivity. Qed.

Lemma rv_inj x y : urange 64 x -> urange 64 y -> rv x = rv y -> x = y.
Proof. intros Hx Hy He. rewrite <- (rv_involutive x), <- (rv_involutive y) by done. by rewrite He. Qed.

(** The reversed cursor after a call: either the iteration is over and the call
    covered the last block, or it is the start of the next block. *)
Lemma call_progress d v n v' out :
  scan_call d v n v' out -> urange 64 v ->
  let B := 2 ^ (64 - n) in
  0 < B /\
  (v' = 0 -> 2 ^ 64 <= (rv v / B + 1) * B) /\
  (v' <> 0 -> rv v' = (rv v / B + 1) * B /\ v' < 2 ^ n).
Proof.
  intros [[Hn _] _ Hr Hc _ _] Hv B.
  assert (0 < B) by (apply Z.pow_pos_nonneg; lia). split; [done|].
  assert (2 ^ 64 = 2 ^ n * B) as HB by (unfold B; rewrite <- Z.pow_add_r by lia; f_equal; lia).
  pose proof (rv_range v) as Hrv. unfold urange in Hrv.
  assert (0 <= rv v / B < 2 ^ n) as Hq.
  { split; [apply Z.div_pos; lia|]. apply Z.div_lt_upper_bound; lia. }
  fold B in Hc.
  destruct (decide (rv v / B + 1 = 2 ^ n)) as [Hlast|Hlast].
  - rewrite Hlast, <- HB in *. unfold uwrap in Hc. rewrite Z_mod_same_full in Hc.
    assert (v' = 0) as ->; [|lia]. apply rv_inj; [done|done|by rewrite rv_0].
  - rewrite uwrap_small in Hc by (unfold urange; nia). split.
    + intros ->. rewrite rv_0 in Hc. nia.
    + intros _. split; [done|].
      assert (urange n v') as Hrn; [|unfold urange in Hrn; lia].
      apply testbit_urange; [lia|]. intros i Hi. destruct (decide (i < 64)).
      * rewrite <- (rv_involutive v') by done. rewrite rv_testbit, Hc by lia.
        unfold B. apply Z.mul_pow2_bits_low. lia.
      * apply (urange_testbit 64); [lia|done].
Qed.

(** What an iteration that starts at [v] returns: everything from there on in
    reversed order. *)
Lemma scan_from ds v out k n0 :
  full_scan ds v out -> no_shrinks ds -> (forall d, d ∈ ds -> present k d) ->
  urange 64 v -> v < 2 ^ n0 ->
  (forall d ds', ds = d :: ds' -> dictIsRehashing d = false \/ 2 ^ n0 <= scan_size d) ->
  rv v <= rv (hashFunction k) -> exists e, e ∈ out /\ key e = k.
Proof.
  intros Hs. revert n0. induction Hs as [d v out Hd|d ds v v' out outs Hd Hv' Hs IH];
    intros n0 Hns Hp Hv Hlt Hfirst Hle.
  all: destruct (present_entry k d) as (e & He & Hk & Hne & m & Hr); [apply Hp; by left|].
  all: destruct (dictScan_call d m v Hr Hne Hv) as (n & v1 & out1 & Hc).
  all: pose proof (call_result _ _ _ _ _ Hc) as Hres; rewrite Hd in Hres; simplify_eq.
  all: destruct (call_progress _ _ _ _ _ Hc Hv) as (HB & Hend & Hnext).
  all: set (B := 2 ^ (64 - n)) in *.
  all: assert (rv v / B <= rv (hashFunction (key e)) / B) as Hq by (apply Z.div_le_mono; lia).
  all: assert (rv (hashFunction (key e)) / B = rv v / B -> e ∈ out1) as Hnow.
  1, 3: intros Heq; apply (call_complete _ _ _ _ _ Hc); try done;
    destruct (Hfirst d _ eq_refl) as [|Hsz]; [by left|right];
    rewrite (proj2 (call_log _ _ _ _ _ Hc)) in Hsz; lia.
  - exists e. split; [|done]. apply Hnow. specialize (Hend eq_refl).
    pose proof (rv_range (hashFunction (key e))) as Hrh. unfold urange in Hrh.
    assert (rv (hashFunction (key e)) / B < rv v / B + 1); [|lia].
    apply Z.div_lt_upper_bound; lia.
  - destruct (Hnext Hv') as [Hrv Hvn].
    destruct (decide (rv (hashFunction (key e)) / B = rv v / B)) as [Heq|Hgt].
    { exists e. split; [apply elem_of_app; left; auto|done]. }
    edestruct (IH n) as (e' & He' & Hk'); [| | |done| |..].
    + inversion Hns; subst; [by inversion Hs|done].
    + intros d' Hd'. apply Hp. by right.
    + apply (call_range _ _ _ _ _ Hc).
    + intros d' ds' ->. inversion Hns as [|? ? ? Hsh]; subst.
      destruct Hsh as [|Hsh]; [by left|right].
      by rewrite (proj2 (call_log _ _ _ _ _ Hc)) in Hsh.
    + rewrite Hrv. pose proof (Z.mul_div_le (rv (hashFunction (key e))) B HB). nia.
    + exists e'. split; [apply elem_of_app; by right|done].
Qed.

(** C7: the guarantee of [dictScan]: a key present in the dictionary at every
    call of an iteration is returned by one of them, although the dictionary
    may change and grow, start, continue or finish rehashings between the
    calls, as long as the table the cursor walks over does not shrink under
    it. *)
Theorem dictScan_guarantee ds out k :
  full_scan ds 0 out -> no_shrinks ds -> (forall d, d ∈ ds -> present k d) ->
  exists e, e ∈ out /\ key e = k.
Proof.
  intros Hs Hns Hp.
  apply (scan_from ds 0 out k 2 Hs Hns Hp); [done|done| |rewrite rv_0; apply rv_range].
  intros d ds' ->. destruct (dictIsRehashing d) eqn:Hre; [right|by left].
  destruct (present_entry k d) as (e & He & Hk & Hne & m & Hr); [apply Hp; by left|].
  destruct (phase_unallocated_rehash d (repr_phase _ _ Hr) (proj1 (isRehashing_true d) Hre))
    as (Hl0 & Hl1 & _).
  unfold scan_size. rewrite Hre. pose proof (live_size _ Hl0). pose proof (live_size _ Hl1).
  change (2 ^ 2) with 4. lia.
Qed.

(** The calls left until the end of an iteration over a dictionary that does
    not change. *)
Lemma scan_static d m v (j : nat) n :
  dict_repr d m -> dictSize d <> 0 -> urange 64 v -> scan_size d = 2 ^ n ->
  Z.of_nat j = 2 ^ n - rv v / 2 ^ (64 - n) ->
  exists i out, full_scan (replicate i d) v out /\ (1 <= i <= j)%nat.
Proof.
  intros Hr Hne. revert v. induction j as [|j IH]; intros v Hv Hs Hj;
    destruct (dictScan_call d m v Hr Hne Hv) as (n' & v' & out & Hc);
    destruct (call_log _ _ _ _ _ Hc) as [Hn' Hs'];
    (assert (n' = n) as -> by
      (rewrite Hs in Hs'; symmetry; apply (Z.pow_inj_r 2); [lia| |lia|done];
       destruct (decide (0 <= n)); [done|rewrite (Z.pow_neg_r 2 n) in Hs' by lia;
       pose proof (Z.pow_pos_nonneg 2 n'); lia]));
    destruct (call_progress _ _ _ _ _ Hc Hv) as (HB & _ & Hnext).
  - pose proof (rv_range v) as Hrv. unfold urange in Hrv.
    assert (rv v / 2 ^ (64 - n) < 2 ^ n); [|lia]. apply Z.div_lt_upper_bound; [done|].
    rewrite <- Z.pow_add_r by lia. replace (64 - n + n) with 64 by lia. lia.
  - destruct (decide (v' = 0)) as [->|Hv'].
    + exists 1%nat, out. split; [|lia]. apply scan_last, (call_result _ _ _ _ _ Hc).
    + destruct (Hnext Hv') as [Hrv _].
      destruct (IH v') as (i & outs & Hf & Hi); [apply (call_range _ _ _ _ _ Hc)|done| |].
      { rewrite Hrv, Z.div_mul by lia. lia. }
      exists (S i), (out ++ outs). split; [|lia].
      eapply scan_more; [apply (call_result _ _ _ _ _ Hc)|done|done].
Qed.

(** C8: termination of an iteration: with no change between the calls, the
    cursor is back to 0 after at most as many calls as the (smaller) table has
    buckets, and every entry has been returned. *)
Theorem dictScan_terminates d m :
  dict_repr d m -> m <> ∅ ->
  exists n out, full_scan (replicate n d) 0 out /\ Z.of_nat n <= scan_size d /\
    forall k v, m !! k = Some v -> exists e, e ∈ out /\ key e = k.
Proof.
  intros Hr Hm. assert (dictSize d <> 0) as Hne.
  { rewrite (dictSize_map d m Hr). intros Hz. apply Hm, map_size_empty_inv. lia. }
  destruct (dictScan_call d m 0 Hr Hne) as (n & v' & out0 & Hc); [done|].
  destruct (call_log _ _ _ _ _ Hc) as [Hn Hs]. pose proof (Z.pow_pos_nonneg 2 n).
  destruct (scan_static d m 0 (Z.to_nat (2 ^ n)) n) as (i & out & Hf & Hi);
    [done|done|done|done|rewrite rv_0, Z.div_0_l by (pose proof (Z.pow_pos_nonneg 2 (64 - n)); lia); lia|].
  exists i, out. split_and!; [done|lia|]. intros k v Hk.
  assert (no_shrinks (replicate i d)) as Hns.
  { destruct i as [|i]; [lia|]. clear. induction i; [constructor|].
    constructor; [right; lia|done]. }
  apply (scan_from _ 0 out k n Hf Hns); [|done|lia| |rewrite rv_0; apply rv_range].
  - intros d' [-> _]%elem_of_replicate. by exists m, v.
  - intros d' ds' He. destruct i; simplify_eq/=. right. lia.
Qed.

End Scan.

(** ** Concrete iterations *)

Section Runs.
#[local] Instance int_type : DictType Z :=
  {| hashFunction := uwrap 32; hashFunction_range := fun k => uwrap_range 32 k ltac:(lia) |}.

Definition run_from (ops : list (dict_op Z Z)) : dict Z Z :=
  from_option (fun r => r.1.2) dictCreate (dict_run 0 (true, dictCreate) ops).

Lemma run_from_repr ops :
  zlen ops <= max_used -> dict_repr (run_from ops) (map_run ∅ ops).1.
Proof.
  intros Hl. destruct (dict_run_create 0 ops true Hl) as (b & d & Hd & Hr).
  unfold run_from. by rewrite Hd.
Qed.

(** The keys 0, 4 and 12 in a table of 16 buckets, and the same dictionary
    after [dictResize] started to shrink it to 4 buckets. *)
Definition grow_ops : list (dict_op Z Z) :=
  ((fun i => OpAdd i (i * 10)) <$> seqZ 0 8) ++
  [OpRehash 100; OpAdd 12 120; OpRehash 100] ++
  (OpDelete <$> [1; 2; 3; 5; 6; 7]).

Definition wide : dict Z Z := run_from grow_ops.
Definition shrinking : dict Z Z := run_from (grow_ops ++ [OpResize]).

Example wide_state : (dictIsRehashing wide, size (ht0 wide), dictSize wide) = (false, 16, 3).
Proof. vm_compute. reflexivity. Qed.

Example shrinking_state :
  (dictIsRehashing shrinking, size (ht0 shrinking), size (ht1 shrinking), dictSize shrinking) =
  (true, 16, 4, 3).
Proof. vm_compute. reflexivity. Qed.

Lemma present_run ops k :
  zlen ops <= max_used -> (map_run ∅ ops).1 !! k <> None -> present k (run_from ops).
Proof.
  intros Hl Hk. destruct ((map_run ∅ ops).1 !! k) as [v|] eqn:Hv; [|done].
  exists (map_run ∅ ops).1, v. split; [by apply run_from_repr|done].
Qed.

(** Iterations, computed. *)
Fixpoint full_scanb (ds : list (dict Z Z)) (v : Z) : option (list (dictEntry Z Z)) :=
  match ds with
  | [] => None
  | d :: ds =>
      '(v', out) ← dictScan d v;
      match ds with
      | [] => if bool_decide (v' = 0) then Some out else None
      | _ => if bool_decide (v' = 0) then None
             else outs ← full_scanb ds v'; Some (out ++ outs)
      end
  end.

Lemma full_scanb_sound ds v out : full_scanb ds v = Some out -> full_scan ds v out.
Proof.
  revert v out. induction ds as [|d ds IH]; intros v out; [done|].
  cbn [full_scanb]. destruct (dictScan d v) as [[v' o]|] eqn:Hd; [|done]. bind_simpl.
  destruct ds as [|d' ds]; case_bool_decide; try done.
  - intros [= <-]. apply scan_last. congruence.
  - destruct (full_scanb (d' :: ds) v') as [outs|] eqn:Hf; [|done].
    intros [= <-]. eapply scan_more; eauto.
Qed.

(** The guarantee fails when the table shrinks during the iteration: the
    first call sees 16 buckets and returns cursor 8; [dictResize] then starts
    to shrink the table to 4 buckets, and the iteration ends without having
    returned key 4, which is present at every call: the expansion loop of
    [dictScan] goes from the cursor up in the ordinary order, and skips the
    bucket 4 that the reversed order has after 8. *)
Theorem dictScan_misses_on_shrink :
  (exists st, dict_step 0 (true, wide) OpResize = Some st /\ st.1.2 = shrinking) /\
  exists out, full_scan [wide; shrinking; shrinking; shrinking; shrinking] 0 out /\
    (forall d, d ∈ [wide; shrinking; shrinking; shrinking; shrinking] -> present 4 d) /\
    (forall e, e ∈ out -> key e <> 4).
Proof.
  split; [eexists; split; vm_compute; reflexivity|].
  eexists. split; [apply full_scanb_sound; vm_compute; reflexivity|]. split.
  - intros d Hd. assert (d = wide \/ d = shrinking) as [-> | ->]
      by (rewrite !elem_of_cons, elem_of_nil in Hd; tauto).
    + apply present_run; [by vm_compute|]. by vm_compute.
    + apply present_run; [by vm_compute|]. by vm_compute.
  - intros e He. rewrite !elem_of_cons, elem_of_nil in He.
    destruct He as [->|[->|[]]]; by vm_compute.
Qed.

(** A dictionary that starts growing between two calls. *)
Definition small : dict Z Z := run_from ((fun i => OpAdd i i) <$> [0; 1; 2; 7]).
Definition growing : dict Z Z := run_from (((fun i => OpAdd i i) <$> [0; 1; 2; 7; 8])).

Lemma dictScan_guarantee_witness :
  exists out e, full_scan [small; growing; growing; growing] 0 out /\ e ∈ out /\ key e = 7.
Proof.
  assert (exists out, full_scan [small; growing; growing; growing] 0 out) as [out Hout]
    by (eexists; apply full_scanb_sound; vm_compute; reflexivity).
  destruct (dictScan_guarantee [small; growing; growing; growing] out 7) as (e & He & Hk).
  - exact Hout.
  - do 3 (apply no_shrinks_cons; [right; vm_compute; discriminate|]). apply no_shrinks_one.
  - intros d Hd. assert (d = small \/ d = growing) as [-> | ->]
      by (rewrite !elem_of_cons, elem_of_nil in Hd; tauto).
    + apply present_run; by vm_compute.
    + apply present_run; by vm_compute.
  - exists out, e. split_and!; assumption.
Defined.

Lemma dictScan_terminates_witness :
  exists n out, full_scan (replicate n growing) 0 out /\ Z.of_nat n <= scan_size growing /\
    forall k v, (map_run ∅ ((fun i : Z => OpAdd i i) <$> [0; 1; 2; 7; 8])).1 !! k = Some v ->
      exists e, e ∈ out /\ key e = k.
Proof.
  apply dictScan_terminates; [apply run_from_repr; by vm_compute|].
  intros Hm. apply (f_equal (fun m : gmap Z Z => m !! 7)) in Hm. by vm_compute in Hm.
Defined.
End Runs.
