(* ===== verification/Memory.v ===== *)
(** * Checked memory

    A block of memory is a list of bytes, a pointer into it an integer.  Each
    access is [None] when it leaves the block, so a function that returns
    [Some] has read and written inside it. *)
From S2P Require Import Prelude.

Definition zget (p : Z) (m : list Z) : option Z :=
  if bool_decide (0 <= p) then m !! Z.to_nat p else None.

Definition zread (p n : Z) (m : list Z) : option (list Z) :=
  if bool_decide (0 <= p /\ 0 <= n /\ p + n <= zlen m) then Some (mem_read (Z.to_nat p) (Z.to_nat n) m) else None.

Definition zwrite (p : Z) (bs m : list Z) : option (list Z) :=
  if bool_decide (0 <= p /\ p + zlen bs <= zlen m) then Some (mem_write (Z.to_nat p) bs m) else None.

(** [memmove(m + dst, m + src, n)] *)
Definition zmove (dst src n : Z) (m : list Z) : option (list Z) :=
  bs ← zread src n m; zwrite dst bs m.

(** A little-endian unsigned integer of [n] bytes. *)
Definition zload (p n : Z) (m : list Z) : option Z := le_decode <$> zread p n m.
Definition zstore (p : Z) (n : nat) (v : Z) (m : list Z) : option (list Z) := zwrite p (le_encode n v) m.

(** One iteration of a loop whose body may fail: another state, or the result. *)
Definition as_step {S R} (x : option (S + R)) : ctl S (option R) :=
  match x with
  | Some (inl s) => Continue s
  | Some (inr r) => Break (Some r)
  | None => Break None
  end.

(** ** Accesses at the seams of a concatenation *)

Lemma zget_app A b C p : p = zlen A -> zget p (A ++ b :: C) = Some b.
Proof.
  intros ->. unfold zget. rewrite bool_decide_true, Nat2Z.id by lia. by rewrite lookup_app_r, Nat.sub_diag by lia.
Qed.

Lemma zread_app A B C p n : p = zlen A -> n = zlen B -> zread p n (A ++ B ++ C) = Some B.
Proof.
  intros -> ->. unfold zread, mem_read. rewrite !length_app, bool_decide_true, !Nat2Z.id by lia.
  by rewrite drop_app_length, take_app_length.
Qed.

Lemma zwrite_app A B B' C p : p = zlen A -> length B' = length B -> zwrite p B' (A ++ B ++ C) = Some (A ++ B' ++ C).
Proof.
  intros -> HB. unfold zwrite, mem_write. rewrite !length_app, bool_decide_true, Nat2Z.id by lia.
  rewrite take_app_length, HB. do 3 f_equal. rewrite app_assoc. apply drop_app_length'. by rewrite length_app.
Qed.

Lemma zload_app A n v C p k : p = zlen A -> k = Z.of_nat n -> urange (8 * k) v ->
  zload p k (A ++ le_encode n v ++ C) = Some v.
Proof.
  intros -> -> Hv. unfold zload. rewrite (zread_app A (le_encode n v) C) by (by rewrite ?length_le_encode). cbn.
  by rewrite le_decode_encode, uwrap_small.
Qed.

Lemma zstore_app A n v B C p : p = zlen A -> length B = n -> zstore p n v (A ++ B ++ C) = Some (A ++ le_encode n v ++ C).
Proof. intros Hp HB. apply zwrite_app; [done|]. by rewrite length_le_encode. Qed.

Lemma zread_length p n m bs : zread p n m = Some bs -> zlen bs = n.
Proof.
  unfold zread. case_bool_decide; [|done]. intros [= <-]. rewrite length_mem_read by lia. lia.
Qed.

(** A move to the right of [k] bytes, or to the left: what was before the
    destination stays, and what follows the source. *)
Lemma zmove_spec dst src n m : 0 <= dst -> 0 <= src -> 0 <= n -> src + n <= zlen m -> dst + n <= zlen m ->
  zmove dst src n m = Some (take (Z.to_nat dst) m ++ take (Z.to_nat n) (drop (Z.to_nat src) m) ++ drop (Z.to_nat (dst + n)) m).
Proof.
  intros. unfold zmove, zread. rewrite bool_decide_true by lia. bind_simpl. unfold zwrite, mem_write.
  rewrite length_mem_read by lia. rewrite bool_decide_true by lia. do 2 f_equal. f_equal. f_equal. lia.
Qed.
