(* ===== verification/DictIter.v ===== *)
(** * Iteration over hash tables ([dictNext] of [dict.c])

    An iterator holds its table, its index, and the entry it has returned with
    the rest of its chain.  The table does not change during an iteration: a
    release of the iterator asserts it with a fingerprint, and the loops that
    are modelled elsewhere only touch other tables. *)
From S2P Require Import Prelude Memory Dict.

Section Iter.
Context {K V : Type} `{DictType K}.
Abbreviation entry := (dictEntry K V).
Abbreviation dict := (dict K V).

Record dictIterator := DictIterator { it_table : bool; it_index : Z; it_chain : list entry }.

Definition dictGetIterator : dictIterator := DictIterator false (-1) [].

(** The end of an iteration of the loop: an entry is returned if there is one. *)
Definition next_entry (it : dictIterator) : dictIterator + (dictIterator * option entry) :=
  match it_chain it with [] => inl it | e :: _ => inr (it, Some e) end.

Definition next_step (d : dict) (it : dictIterator) : option (dictIterator + (dictIterator * option entry)) :=
  let '(DictIterator tbl index chain) := it in
  match chain with
  | [] =>
      let index := index + 1 in
      let ht := if tbl then ht1 d else ht0 d in
      if bool_decide (index >= swrap 32 (size ht)) then
        if dictIsRehashing d && negb tbl
        then chain ← table (ht1 d) !! O; Some (next_entry (DictIterator true 0 chain))
        else Some (inr (DictIterator tbl index [], None))
      else chain ← table ht !! Z.to_nat index; Some (next_entry (DictIterator tbl index chain))
  | _ :: nextEntry => Some (next_entry (DictIterator tbl index nextEntry))
  end.

Definition dictNext (d : dict) (it : dictIterator) : option (dictIterator * option entry) :=
  mjoin (loop (length (table (ht0 d)) + length (table (ht1 d)) + 5) (fun it => as_step (next_step d it)) it).

(** [while ((de = dictNext(di)) != NULL)]: the entries, in order. *)
Definition dict_iterate (d : dict) : option (list entry) :=
  mjoin (loop (S (Z.to_nat (dictSize d))) (fun '(it, acc) =>
    as_step ('(it, de) ← dictNext d it;
             Some (match de with Some e => inl (it, acc ++ [e]) | None => inr acc end))) (dictGetIterator, [])).
End Iter.
Arguments dictIterator K V : clear implicits.

Section IterSpec.
Context {K V : Type} `{DictType K} `{!Countable K}.
Abbreviation entry := (dictEntry K V).
Implicit Types (d : dict K V) (m : gmap K V) (it : dictIterator K V).

(** Sizes below which [(signed) ht->size] is the size. *)
Definition slots_le (b : Z) d : Prop := size (ht0 d) <= b /\ size (ht1 d) <= b.

(** What is left to return. *)
Definition pending d it : list entry :=
  tail (it_chain it) ++ mjoin (drop (Z.to_nat (it_index it + 1)) (table (if it_table it then ht1 d else ht0 d))) ++
  (if dictIsRehashing d && negb (it_table it) then mjoin (table (ht1 d)) else []).

Record iter_ok d it : Prop := {
  io_index : -1 <= it_index it < zlen (table (if it_table it then ht1 d else ht0 d));
  io_table : it_table it = true -> dictIsRehashing d = true }.

Definition iter_measure d it : nat :=
  match it_chain it with [] => 0 | _ => 1 end +
  (if it_table it then length (table (ht1 d)) - Z.to_nat (it_index it + 1)
   else (length (table (ht0 d)) - Z.to_nat (it_index it + 1)) + length (table (ht1 d)) + 1).

(** The tables of a dictionary, as the loop of [dictNext] reads them. *)
Record iterable d : Prop := {
  ia_size0 : size (ht0 d) = zlen (table (ht0 d));
  ia_size1 : size (ht1 d) = zlen (table (ht1 d));
  ia_rehashing : dictIsRehashing d = true -> table (ht1 d) <> [];
  ia_slots : slots_le (2 ^ 31 - 1) d }.

Lemma repr_iterable d m : dict_repr d m -> slots_le (2 ^ 31 - 1) d -> iterable d.
Proof.
  intros Hr Hs. destruct (repr_phase _ _ Hr) as [H0 H1 Hre|L0 H1 Hre|L0 L1 Hre Hb]; split; try done.
  - by rewrite H0. - by rewrite H1. - by rewrite isRehashing_true.
  - symmetry. apply L0. - by rewrite H1. - by rewrite isRehashing_true.
  - symmetry. apply L0. - symmetry. apply L1.
  - intros _ Hn. pose proof (live_length _ L1). pose proof (live_size _ L1). rewrite Hn in *. simpl in *. lia.
Qed.

Lemma mjoin_drop_lookup {A} (t : list (list A)) i c : t !! i = Some c -> mjoin (drop i t) = c ++ mjoin (drop (S i) t).
Proof. intros Hi. rewrite (drop_S t c i Hi). done. Qed.

Lemma next_step_spec d it : iterable d -> iter_ok d it -> exists r, next_step d it = Some r /\
  match r with
  | inl it' => iter_ok d it' /\ pending d it' = pending d it /\ (iter_measure d it' < iter_measure d it)%nat
  | inr (it', Some e) => iter_ok d it' /\ pending d it = e :: pending d it'
  | inr (_, None) => pending d it = []
  end.
Proof.
  intros [Hs0 Hs1 Hre [Hl0 Hl1]] [Hi Ht]. destruct it as [tbl index chain]. cbn in Hi, Ht. unfold next_step.
  set (ht := if tbl then ht1 d else ht0 d) in *.
  assert (size ht = zlen (table ht) /\ size ht <= 2 ^ 31 - 1) as [Hs Hl] by (unfold ht; by destruct tbl).
  destruct chain as [|e chain].
  - rewrite swrap_small by (unfold srange; simpl; lia). destruct (bool_decide_reflect (index + 1 >= size ht)) as [Hend|Hin].
    + destruct (dictIsRehashing d) eqn:Hr; destruct tbl; cbn [andb negb].
      * eexists. split; [done|]. unfold pending. cbn. fold ht. rewrite Hr, drop_ge by lia. done.
      * specialize (Hre eq_refl). destruct (table (ht1 d)) as [|c t] eqn:Ht1; [done|]. cbn [lookup list_lookup]. bind_rw.
        eexists. split; [done|]. unfold pending, next_entry, iter_measure. cbn [it_table it_index it_chain tail app]. fold ht.
        rewrite Hr, Ht1. cbn [negb andb]. rewrite (drop_ge (table ht)) by lia.
        destruct c as [|e c]; cbn; rewrite Ht1, ?app_nil_r; (split; [split; cbn; [rewrite Ht1; cbn; lia|done]|]); [|done].
        split; [done|]. cbn. lia.
      * by discriminate Ht.
      * eexists. split; [done|]. unfold pending. cbn. fold ht. rewrite Hr, drop_ge by lia. done.
    + destruct (lookup_lt_is_Some_2 (table ht) (Z.to_nat (index + 1))) as [c Hc]; [lia|].
      rewrite Hc. bind_rw. eexists. split; [done|].
      assert (pending d (DictIterator tbl index []) = c ++ pending d (DictIterator tbl (index + 1) [])) as Hp.
      { unfold pending. cbn. fold ht. rewrite (mjoin_drop_lookup _ _ _ Hc), <- app_assoc. do 3 f_equal. f_equal. lia. }
      assert (iter_ok d (DictIterator tbl (index + 1) c)) as Hok by (split; cbn; [fold ht; lia|done]).
      destruct c as [|e c]; cbn [next_entry it_chain]; (split; [done|]); [|by rewrite Hp].
      split; [by rewrite Hp|]. unfold iter_measure. cbn [it_chain it_table it_index]. unfold ht in *. destruct tbl; lia.
  - eexists. split; [done|]. assert (iter_ok d (DictIterator tbl index chain)) as Hok by done.
    destruct chain as [|e' chain]; cbn [next_entry it_chain]; (split; [done|]); [|done].
    split; [done|]. unfold iter_measure. cbn. lia.
Qed.

Lemma dictNext_spec d it : iterable d -> iter_ok d it -> exists it' r, dictNext d it = Some (it', r) /\
  match r with
  | Some e => iter_ok d it' /\ pending d it = e :: pending d it'
  | None => pending d it = []
  end.
Proof.
  intros Hd Hit. unfold dictNext.
  destruct (loop_some (fun it' => iter_ok d it' /\ pending d it' = pending d it) (iter_measure d)
    (fun r : _ * _ => match r.2 with Some e => iter_ok d r.1 /\ pending d it = e :: pending d r.1 | None => pending d it = [] end)
    (fun it => as_step (next_step d it)) (length (table (ht0 d)) + length (table (ht1 d)) + 5) it) as ([it' r] & -> & Hr).
  - intros it1 [Hok Hp]. destruct (next_step_spec d it1 Hd Hok) as ([it2|[it2 [e|]]] & -> & Hr); cbn [as_step].
    + destruct Hr as (? & ? & ?). split; [split; [done|congruence]|done].
    + exists (it2, Some e). cbn. by rewrite <- Hp.
    + exists (it2, None). cbn. by rewrite <- Hp.
  - done.
  - unfold iter_measure. destruct (it_chain it), (it_table it); lia.
  - by exists it', r.
Qed.

Lemma iterate_loop d it acc fuel : iterable d -> iter_ok d it -> (length (pending d it) < fuel)%nat ->
  mjoin (loop fuel (fun '(it, acc) =>
    as_step ('(it, de) ← dictNext d it;
             Some (match de with Some e => inl (it, acc ++ [e]) | None => inr acc end))) (it, acc)) = Some (acc ++ pending d it).
Proof.
  intros Hd. revert it acc. induction fuel as [|fuel IH]; intros it acc Hit Hf; [lia|]. rewrite loop_S.
  destruct (dictNext_spec d it Hd Hit) as (it' & [e|] & -> & Hr); bind_rw; cbn [as_step].
  - destruct Hr as [Hok Hp]. rewrite Hp in *. cbn [length] in Hf. rewrite IH by (done || lia). by rewrite <- app_assoc.
  - rewrite Hr. by rewrite app_nil_r.
Qed.

(** The loop yields the entries, those of the first table first. *)
Lemma dict_iterate_spec d m : dict_repr d m -> slots_le (2 ^ 31 - 1) d -> dict_iterate d = Some (entries d).
Proof.
  intros Hr Hs. pose proof (repr_iterable d m Hr Hs) as Hd.
  assert (pending d dictGetIterator = entries d) as Hp.
  { unfold pending, entries, ht_entries. cbn. rewrite drop_0, andb_true_r. f_equal. destruct (dictIsRehashing d) eqn:Hre; [done|].
    apply isRehashing_false in Hre. destruct (repr_phase _ _ Hr) as [_ -> _|_ -> _|_ _ ? _]; [done..|lia]. }
  unfold dict_iterate. rewrite iterate_loop; [by rewrite Hp|done| |].
  - split; [|done]. cbn. destruct (repr_phase _ _ Hr) as [-> _ _|L _ _|L _ _ _]; cbn; lia.
  - rewrite Hp. assert (dictSize d = zlen (entries d)) as ->; [|lia].
    unfold dictSize, entries. rewrite length_app, Nat2Z.inj_add. f_equal; destruct (repr_phase _ _ Hr) as [H0 H1 _|L0 H1 _|L0 L1 _ _];
      rewrite ?H0, ?H1; cbn; try done; by apply live_used.
Qed.

(** ** The sizes of the tables stay below a bound

    As long as there are at most [2 ^ 28] elements, the tables have at most
    [2 ^ 30] buckets. *)
Definition small_tables d : Prop := slots_le (2 ^ 30) d.
Definition max_elements : Z := 2 ^ 28.

Lemma small_iterable d m : dict_repr d m -> small_tables d -> dict_iterate d = Some (entries d).
Proof. intros Hr [A0 A1]. apply (dict_iterate_spec d m Hr). split; lia. Qed.

Lemma move_chain_size de (h0 h1 h0' h1' : dictht K V) : move_chain de h0 h1 = Some (h0', h1') ->
  size h0' = size h0 /\ size h1' = size h1.
Proof.
  revert h0 h1. induction de as [|e de IH]; intros h0 h1; cbn [move_chain]; [by intros [= -> ->]|].
  destruct (table h1 !! _) as [chain|]; bind_simpl; [|done]. intros Hm. by apply IH in Hm.
Qed.

Lemma rehash_bucket_small d d' : rehash_bucket d = Some d' -> small_tables d -> small_tables d'.
Proof.
  unfold rehash_bucket. destruct (mjoin _) as [idx|]; bind_simpl; [|done].
  destruct (table (ht0 d) !! _) as [de|]; bind_simpl; [|done].
  destruct (move_chain de (ht0 d) (ht1 d)) as [[h0 h1]|] eqn:Hm; bind_simpl; [|done].
  apply move_chain_size in Hm as [E0 E1]. intros [= <-] [A0 A1]. split; cbn; by rewrite ?E0, ?E1.
Qed.

Lemma rehash_loop_small n d d' more : rehash_loop n d = Some (d', more) -> small_tables d -> small_tables d'.
Proof.
  revert d. induction n as [|n IH]; intros d; cbn [rehash_loop]; [by intros [= <- <-]|].
  case_bool_decide; [intros [= <- <-] [A0 A1]; split; cbn; [done|lia]|].
  destruct (rehash_bucket d) as [d1|] eqn:Hb; bind_simpl; [|done]. intros Hl Hs. apply IH in Hl; [done|].
  by eapply rehash_bucket_small.
Qed.

Lemma rehash_on_access_small d d' : rehash_on_access d = Some d' -> small_tables d -> small_tables d'.
Proof.
  unfold rehash_on_access, _dictRehashStep, dictRehash. destruct (dictIsRehashing d); [|by intros [= ->]].
  case_bool_decide; [|by intros [= ->]]. destruct (rehash_loop 1 d) as [[d1 more]|] eqn:Hl; [|done]. intros [= <-].
  by eapply rehash_loop_small.
Qed.

Lemma dictExpand_small n d d' ok : 0 <= n <= 2 ^ 29 -> dictExpand d n = Some (d', ok) -> small_tables d -> small_tables d'.
Proof.
  intros Hn. unfold dictExpand. destruct (nextPower_spec n ltac:(lia)) as (j & Hj & -> & Hnj & Hmin). bind_simpl.
  case_bool_decide; [by intros [= <- <-]|].
  assert (2 ^ j <= 2 ^ 30).
  { apply Z.pow_le_mono_r; [lia|]. destruct Hmin as [->|Hlt]; [lia|].
    assert (j - 1 < 29); [|lia]. apply (Z.pow_lt_mono_r_iff 2); lia. }
  destruct (table (ht0 d)); intros [= <- <-] [A0 A1]; split; cbn; done.
Qed.

Lemma alter_ht_small d in1 f : (forall ht, size (f ht) = size ht) -> small_tables d -> small_tables (alter_ht d in1 f).
Proof. intros Hf [A0 A1]. destruct in1; split; cbn; by rewrite ?Hf. Qed.

Section Ops.
Variable dict_can_resize : bool.
Variable junk_val : V.

Lemma dictFind_small d d' k r : dictFind d k = Some (d', r) -> small_tables d -> small_tables d'.
Proof.
  unfold dictFind. case_bool_decide; [by intros [= <- <-]|]. destruct (rehash_on_access d) as [d1|] eqn:Hr; bind_simpl; [|done].
  destruct (search_tables d1 k) as [[? ?]|]; bind_simpl; [|done]. intros [= <- <-]. by apply rehash_on_access_small.
Qed.

Lemma dictDelete_small d d' k ok : dictGenericDelete d k = Some (d', ok) -> small_tables d -> small_tables d'.
Proof.
  unfold dictGenericDelete. case_bool_decide; [by intros [= <- <-]|].
  destruct (rehash_on_access d) as [d1|] eqn:Hr; bind_simpl; [|done].
  destruct (search_tables d1 k) as [[[[p e]|] ?]|]; bind_simpl; [| |done]; intros [= <- <-] Hs;
    [apply alter_ht_small; [done|]|]; by eapply rehash_on_access_small.
Qed.

Lemma expand_if_needed_small d m d' ok : dict_repr d m -> Z.of_nat (base.size m) <= max_elements ->
  _dictExpandIfNeeded dict_can_resize d = Some (d', ok) -> small_tables d -> small_tables d'.
Proof.
  intros Hr Hm. pose proof (used_le d m Hr) as Hu. unfold _dictExpandIfNeeded, max_elements, DICT_HT_INITIAL_SIZE in *.
  destruct (dictIsRehashing d); [by intros [= <- <-]|].
  case_bool_decide; [apply dictExpand_small; lia|]. case_bool_decide; [|by intros [= <- <-]].
  rewrite uwrap_small by (unfold urange; lia). apply dictExpand_small. lia.
Qed.

Lemma dictAdd_small d m d' k v ok : dict_repr d m -> Z.of_nat (base.size m) <= max_elements ->
  dictAdd dict_can_resize junk_val d k v = Some (d', ok) -> small_tables d -> small_tables d'.
Proof.
  intros Hr Hm. unfold dictAdd, dictAddRaw.
  destruct (rehash_on_access_spec d m Hr) as (d1 & Hd1 & Hr1 & _ & _). rewrite Hd1. bind_simpl.
  unfold _dictKeyIndex. destruct (_dictExpandIfNeeded dict_can_resize d1) as [[d2 []]|] eqn:He; bind_simpl; [| |done].
  - destruct (search_tables d2 k) as [[[?|] idx]|]; bind_simpl; [| |done].
    + rewrite bool_decide_true by done. bind_simpl. intros [= <- <-] Hs.
      eapply expand_if_needed_small; [exact Hr1|done|exact He|]. by eapply rehash_on_access_small.
    + case_bool_decide; bind_simpl.
      { intros [= <- <-] Hs. eapply expand_if_needed_small; [exact Hr1|done|exact He|]. by eapply rehash_on_access_small. }
      destruct (table _ !! _) as [chain|]; bind_simpl; [|done]. intros [= <- <-] Hs. unfold dictSetVal.
      do 2 (apply alter_ht_small; [done|]). eapply expand_if_needed_small; [exact Hr1|done|exact He|].
      by eapply rehash_on_access_small.
  - rewrite bool_decide_true by done. bind_simpl. intros [= <- <-] Hs.
    eapply expand_if_needed_small; [exact Hr1|done|exact He|]. by eapply rehash_on_access_small.
Qed.

Lemma dictReplace_small d m d' k v ok : dict_repr d m -> Z.of_nat (base.size m) <= max_elements ->
  dictReplace dict_can_resize junk_val d k v = Some (d', ok) -> small_tables d -> small_tables d'.
Proof.
  intros Hr Hm. unfold dictReplace. destruct (dictAdd dict_can_resize junk_val d k v) as [[d1 []]|] eqn:Ha; bind_simpl; [| |done].
  - intros [= <- _]. by eapply dictAdd_small.
  - destruct (dictFind d1 k) as [[d2 [[p e]|]]|] eqn:Hf; bind_simpl; [|done..]. intros [= <- _] Hs.
    apply alter_ht_small; [done|]. eapply dictFind_small; [exact Hf|]. by eapply dictAdd_small.
Qed.

Lemma dictResize_small d m d' ok : dict_repr d m -> Z.of_nat (base.size m) <= max_elements ->
  dictResize dict_can_resize d = Some (d', ok) -> small_tables d -> small_tables d'.
Proof.
  intros Hr Hm. pose proof (used_le d m Hr) as Hu. unfold dictResize, max_elements, DICT_HT_INITIAL_SIZE in *.
  case_bool_decide; [by intros [= <- <-]|]. rewrite swrap_small by (unfold srange; simpl; lia).
  apply dictExpand_small. case_bool_decide; lia.
Qed.

Lemma dictCreate_small : small_tables dictCreate.
Proof. split; cbn; lia. Qed.
End Ops.
End IterSpec.
