(* ===== verification/Util.v ===== *)
(** * Number parsing and printing ([util.c])

    Strings are lists of bytes (0 to 255), without the terminating NUL.  *)
From S2P Require Import Prelude.

Definition ULLONG_MAX : Z := 2 ^ 64 - 1.
Definition LLONG_MAX : Z := 2 ^ 63 - 1.
Definition LLONG_MIN : Z := - 2 ^ 63.

Abbreviation c_zero := 48.
Abbreviation c_minus := 45.

(** ** Integers to strings and back *)

(** One iteration of the digit loop of [ll2string]: what is left of the value
    and the characters already written at the end of the buffer. *)
Definition ll2string_step (st : Z * list Z) : ctl (Z * list Z) (list Z) :=
  let '(v, buf) := st in
  let buf := (c_zero + v mod 10) :: buf in
  let v := v / 10 in
  if bool_decide (v = 0) then Break buf else Continue (v, buf).

(** The characters [ll2string] writes before the NUL in a buffer of [len]
    bytes; it returns their number. *)
Definition ll2string (len value : Z) : option (list Z) :=
  if bool_decide (len = 0) then Some []
  else
    let v := uwrap 64 (if bool_decide (value < 0) then swrap 64 (- value) else value) in
    p ← loop 32 ll2string_step (v, []);
    let p := if bool_decide (value < 0) then c_minus :: p else p in
    let l := zlen p in
    let l := if bool_decide (l + 1 > len) then len - 1 else l in
    Some (take (Z.to_nat l) p).

Definition is_digit (c : Z) : bool := bool_decide (c_zero <= c <= 57).

(** The digit loop of [string2ll]: [None] on overflow, otherwise the value and
    the bytes that were not used. *)
Fixpoint string2ll_digits (v : Z) (p : list Z) : option (Z * list Z) :=
  match p with
  | c :: p' =>
      if is_digit c then
        if bool_decide (v > ULLONG_MAX `div` 10) then None
        else
          let v := v * 10 in
          if bool_decide (v > ULLONG_MAX - (c - c_zero)) then None
          else string2ll_digits (v + (c - c_zero)) p'
      else Some (v, p)
  | [] => Some (v, [])
  end.

Definition string2ll_unsigned (p : list Z) : option Z :=
  match p with
  | c :: p' =>
      if bool_decide (49 <= c <= 57) then
        '(v, rest) ← string2ll_digits (c - c_zero) p';
        match rest with [] => Some v | _ => None end
      else None
  | [] => None
  end.

(** The parsed value, or [None] where the code returns 0. *)
Definition string2ll (s : list Z) : option Z :=
  match s with
  | [] => None
  | c :: p =>
      if bool_decide (p = [] /\ c = c_zero) then Some 0
      else if bool_decide (c = c_minus) then
        v ← string2ll_unsigned p;
        if bool_decide (v > - (LLONG_MIN + 1) + 1) then None
        else Some (swrap 64 (uwrap 64 (- v)))
      else
        v ← string2ll_unsigned s;
        if bool_decide (v > LLONG_MAX) then None else Some (swrap 64 v)
  end.

(** [long] has 64 bits. *)
Definition string2l (s : list Z) : option Z :=
  llval ← string2ll s;
  if bool_decide (llval < LLONG_MIN \/ llval > LLONG_MAX) then None else Some llval.

(** *** Correctness *)

Abbreviation digits_ok := (Forall (fun c => c_zero <= c <= 57)).

(** The number a list of digits denotes. *)
Definition digits_value (l : list Z) : Z := foldl (fun v c => v * 10 + (c - c_zero)) 0 l.

(** Decimal notation without leading zeros. *)
Definition canonical (l : list Z) : Prop :=
  digits_ok l /\ (l = [c_zero] \/ exists c l', l = c :: l' /\ c <> c_zero).

Lemma digits_value_snoc l c : digits_value (l ++ [c]) = digits_value l * 10 + (c - c_zero).
Proof. unfold digits_value. by rewrite foldl_app. Qed.

Lemma digits_fold_mono l v w :
  digits_ok l -> 0 <= v <= w ->
  v <= foldl (fun v c => v * 10 + (c - c_zero)) v l
    <= foldl (fun v c => v * 10 + (c - c_zero)) w l.
Proof.
  intros Hl. revert v w. induction Hl as [|c l Hc _ IH]; intros v w Hvw; simpl; [lia|].
  pose proof (IH (v * 10 + (c - 48)) (w * 10 + (c - 48)) ltac:(lia)). lia.
Qed.

Lemma digits_value_nonneg l : digits_ok l -> 0 <= digits_value l.
Proof. intros Hl. pose proof (digits_fold_mono l 0 0 Hl). unfold digits_value. lia. Qed.

Lemma digits_value_lower c l :
  digits_ok (c :: l) -> c <> c_zero -> 10 ^ zlen l <= digits_value (c :: l).
Proof.
  intros Hl Hc. revert Hl. induction l as [|d l IH] using rev_ind; intros Hl.
  - apply Forall_cons in Hl as [Hr _]. unfold digits_value; simpl. lia.
  - rewrite app_comm_cons in *. rewrite digits_value_snoc.
    apply Forall_app in Hl as [Hl Hd]. apply Forall_cons in Hd as [Hd _].
    rewrite length_app, Nat2Z.inj_add, Z.pow_add_r by lia. specialize (IH Hl).
    simpl in *. lia.
Qed.

Lemma canonical_pos l : canonical l -> l <> [c_zero] -> 0 < digits_value l.
Proof.
  intros [Hl [->|(c & l' & -> & Hc)]] Hne; [done|].
  pose proof (digits_value_lower c l' Hl Hc). pose proof (Z.pow_pos_nonneg 10 (zlen l')). lia.
Qed.

Lemma canonical_snoc_inv l d :
  canonical (l ++ [d]) -> l <> [] -> canonical l /\ 0 < digits_value l /\ c_zero <= d <= 57.
Proof.
  intros [Hl Hh] Hne. apply Forall_app in Hl as [Hl Hd]. apply Forall_cons in Hd as [Hd _].
  destruct l as [|c l]; [done|]. destruct Hh as [Hh|(c' & l' & Heq & Hc)].
  - by destruct l.
  - simplify_eq/=. assert (canonical (c' :: l)) as Hcan by (split; [done|right; eauto]).
    split_and!; [done| |lia..]. apply canonical_pos; [done|]. congruence.
Qed.

(** The digit loop of [ll2string] writes the canonical notation. *)
Lemma ll2string_loop l buf fuel :
  canonical l -> (length l <= fuel)%nat ->
  loop fuel ll2string_step (digits_value l, buf) = Some (l ++ buf).
Proof.
  revert buf fuel. induction l as [|d l IH] using rev_ind; intros buf fuel Hl Hf.
  { destruct Hl as [_ [|(?&?&?&?)]]; done. }
  rewrite length_app in Hf. simpl in Hf. destruct fuel as [|fuel]; [lia|].
  rewrite digits_value_snoc. cbn [loop ll2string_step].
  assert (c_zero <= d <= 57) as Hd.
  { destruct Hl as [Hl _]. apply Forall_app in Hl as [_ Hd]. by apply Forall_cons in Hd as [? _]. }
  assert ((digits_value l * 10 + (d - c_zero)) mod 10 = d - c_zero) as ->
    by (rewrite Z.add_comm, Z_mod_plus_full; apply Z.mod_small; lia).
  assert ((digits_value l * 10 + (d - c_zero)) / 10 = digits_value l) as ->
    by (rewrite Z.div_add_l, Z.div_small by lia; lia).
  replace (c_zero + (d - c_zero)) with d by lia.
  destruct (decide (l = [])) as [->|Hne]; [done|].
  destruct (canonical_snoc_inv l d Hl Hne) as (Hcan & Hpos & _).
  rewrite bool_decide_false by lia. rewrite IH by (done || lia). by rewrite <- app_assoc.
Qed.

(** Every number has a canonical notation. *)
Lemma canonical_exists v : 0 <= v -> exists l, canonical l /\ digits_value l = v.
Proof.
  intros Hv0. pose proof Hv0 as Hv. revert v Hv0 Hv.
  apply (Z_lt_induction (fun v => 0 <= v -> exists l, canonical l /\ digits_value l = v)).
  intros v IH Hv.
  destruct (decide (v < 10)) as [Hlt|Hge].
  - exists [c_zero + v]. split; [|unfold digits_value; simpl; lia].
    split; [repeat constructor; lia|]. destruct (decide (v = 0)) as [->|]; [by left|].
    right. exists (c_zero + v), []. split; [done|lia].
  - destruct (IH (v / 10)) as (l & Hl & Hlv).
    { split; [apply Z.div_pos; lia|apply Z.div_lt; lia]. }
    { apply Z.div_pos; lia. }
    exists (l ++ [c_zero + v mod 10]). pose proof (Z.mod_pos_bound v 10 ltac:(lia)). split.
    + destruct Hl as [Hl Hh]. split; [apply Forall_app; split; [done|repeat constructor; lia]|].
      right. destruct Hh as [->|(c & l' & -> & Hc)].
      * unfold digits_value in Hlv; simpl in Hlv.
        assert (1 <= v / 10) by (apply Z.div_le_lower_bound; lia). lia.
      * exists c, (l' ++ [c_zero + v mod 10]). done.
    + rewrite digits_value_snoc, Hlv. pose proof (Z.div_mod v 10). lia.
Qed.

Lemma canonical_unique l l' :
  canonical l -> canonical l' -> digits_value l = digits_value l' -> l = l'.
Proof.
  intros Hl Hl' Hv.
  pose proof (ll2string_loop l [] (length l + length l') Hl ltac:(lia)) as H1.
  pose proof (ll2string_loop l' [] (length l + length l') Hl' ltac:(lia)) as H2.
  rewrite Hv, H2, !app_nil_r in H1. by simplify_eq.
Qed.

Lemma canonical_length_below k l : (1 <= k)%nat -> canonical l -> digits_value l < 10 ^ Z.of_nat k -> (length l <= k)%nat.
Proof.
  intros Hk [Hl [->|(c & l' & -> & Hc)]] Hv; [simpl; lia|].
  pose proof (digits_value_lower c l' Hl Hc) as Hlow. simpl.
  destruct (decide (length l' < k)%nat); [lia|].
  assert (10 ^ Z.of_nat k <= 10 ^ zlen l') by (apply Z.pow_le_mono_r; lia). lia.
Qed.

Lemma canonical_length l : canonical l -> digits_value l < 2 ^ 64 -> (length l <= 20)%nat.
Proof. intros Hl Hv. apply canonical_length_below; [lia|done|]. simpl. lia. Qed.

(** The digit loop of [string2ll] computes the value exactly when it fits. *)
Lemma string2ll_digits_spec v p rest :
  digits_ok p -> 0 <= v <= ULLONG_MAX ->
  (match rest with c :: _ => is_digit c = false | [] => True end) ->
  string2ll_digits v (p ++ rest) =
    (let w := foldl (fun v c => v * 10 + (c - c_zero)) v p in
     if bool_decide (w <= ULLONG_MAX) then Some (w, rest) else None).
Proof.
  intros Hp Hv Hrest. revert v Hv. induction Hp as [|c p Hc Hp IH]; intros v Hv.
  - simpl. rewrite bool_decide_true by lia. destruct rest as [|c rest]; [done|]. simpl.
    by rewrite Hrest.
  - cbn [app string2ll_digits foldl]. unfold is_digit at 1. rewrite bool_decide_true by done.
    pose proof (digits_fold_mono p (v * 10 + (c - c_zero)) (v * 10 + (c - c_zero)) Hp ltac:(lia)).
    assert (ULLONG_MAX `div` 10 = 1844674407370955161) as -> by done. unfold ULLONG_MAX in *.
    case_bool_decide; [rewrite bool_decide_false by lia; done|].
    case_bool_decide; [rewrite bool_decide_false by lia; done|].
    apply IH. lia.
Qed.

(** Splitting off the digits at the front of a string. *)
Lemma digits_prefix p :
  exists ds rest, p = ds ++ rest /\ digits_ok ds /\
    match rest with c :: _ => is_digit c = false | [] => True end.
Proof.
  induction p as [|c p (ds & rest & -> & Hds & Hr)].
  - by exists [], [].
  - destruct (is_digit c) eqn:Hc.
    + exists (c :: ds), rest. split_and!; [done| |done].
      constructor; [by apply bool_decide_eq_true in Hc|done].
    + by exists [], (c :: ds ++ rest).
Qed.

(** The unsigned part accepts the canonical notations of positive numbers. *)
Lemma string2ll_unsigned_spec p v :
  string2ll_unsigned p = Some v <->
  canonical p /\ 0 < v <= ULLONG_MAX /\ digits_value p = v.
Proof.
  unfold string2ll_unsigned. split.
  - destruct p as [|c p]; [done|]. case_bool_decide as Hc; [|done].
    destruct (digits_prefix p) as (ds & rest & -> & Hds & Hr).
    rewrite string2ll_digits_spec by (done || unfold ULLONG_MAX; lia). cbv zeta.
    case_bool_decide as Hle; [|done]. bind_simpl. destruct rest; [|done]. intros [= <-].
    rewrite app_nil_r.
    assert (canonical (c :: ds)) as Hcan by (split; [constructor; [lia|done]|right; exists c, ds; split; [done|lia]]).
    split_and!; try done.
    + change (0 < digits_value (c :: ds)). apply canonical_pos; [done|]. intros [= -> ->]. lia.
  - intros ([Hok Hh] & Hv & <-). destruct p as [|c p]; [by destruct Hh as [|(?&?&?&?)]|].
    apply Forall_cons in Hok as [Hc Hok].
    assert (c <> c_zero) as Hne.
    { destruct Hh as [Hh|(c' & l' & Heq & Hc')]; simplify_eq; [|done].
      unfold digits_value in Hv; simpl in Hv; lia. }
    rewrite bool_decide_true by lia. rewrite <- (app_nil_r p) at 1.
    rewrite string2ll_digits_spec by (done || unfold ULLONG_MAX; lia). cbv zeta.
    unfold digits_value in *. cbn [foldl] in *.
    change (0 * 10 + (c - c_zero)) with (c - c_zero) in *.
    by rewrite bool_decide_true by lia.
Qed.

(** The decimal notation of an integer. *)
Definition decimal (v : Z) (s : list Z) : Prop :=
  exists l, canonical l /\ digits_value l = Z.abs v /\ s = if bool_decide (v < 0) then c_minus :: l else l.

Lemma ll2string_decimal n v s :
  21 <= n -> srange 64 v -> decimal v s -> ll2string n v = Some s.
Proof.
  intros Hn Hv (l & Hl & Hlv & ->). unfold ll2string. unfold srange in Hv. change (64 - 1) with 63 in Hv.
  rewrite bool_decide_false by lia.
  assert (uwrap 64 (if bool_decide (v < 0) then swrap 64 (- v) else v) = Z.abs v) as ->.
  { case_bool_decide; [rewrite uwrap_swrap by lia|]; rewrite uwrap_small by (unfold urange; lia); lia. }
  rewrite <- Hlv. pose proof (canonical_length_below 19 l ltac:(lia) Hl ltac:(simpl; lia)).
  rewrite ll2string_loop by (done || lia). rewrite app_nil_r. bind_simpl.
  cbv zeta. set (s := if bool_decide (v < 0) then c_minus :: l else l).
  assert (length s <= 20)%nat by (unfold s; case_bool_decide; simpl; lia).
  rewrite bool_decide_false by lia. by rewrite take_ge by lia.
Qed.

Lemma decimal_exists v : exists s, decimal v s.
Proof.
  destruct (canonical_exists (Z.abs v)) as (l & Hl & Hv); [lia|]. eexists. by exists l.
Qed.

Lemma string2ll_decimal s v : string2ll s = Some v <-> srange 64 v /\ decimal v s.
Proof.
  assert (forall p v, canonical p -> 0 <= v -> digits_value p = v -> decimal v p) as Hpos.
  { intros p w Hp Hw <-. exists p. rewrite bool_decide_false by lia. split_and!; [done|lia|done]. }
  unfold string2ll, LLONG_MAX, LLONG_MIN, srange, decimal in *. split.
  - destruct s as [|c p]; [done|]. case_bool_decide as Hz.
    { destruct Hz as [-> ->]. intros [= <-]. split; [lia|]. apply Hpos; [|lia|done].
      split; [repeat constructor; lia|by left]. }
    case_bool_decide as Hm.
    + destruct (string2ll_unsigned p) as [w|] eqn:Hu; [|done]. bind_simpl.
      case_bool_decide; [done|]. intros [= <-].
      apply string2ll_unsigned_spec in Hu as (Hcan & Hw & Hval).
      rewrite swrap_uwrap, swrap_small by (unfold srange; lia).
      split; [lia|]. exists p. rewrite bool_decide_true by lia. subst c.
      split_and!; [done|lia|done].
    + destruct (string2ll_unsigned (c :: p)) as [w|] eqn:Hu; [|done]. bind_simpl.
      case_bool_decide; [done|]. intros [= <-].
      apply string2ll_unsigned_spec in Hu as (Hcan & Hw & Hval).
      rewrite swrap_small by (unfold srange; lia). split; [lia|]. apply Hpos; [done|lia|done].
  - intros [Hv (l & Hl & Hlv & ->)]. case_bool_decide as Hneg.
    + assert (string2ll_unsigned l = Some (- v)) as Hu.
      { apply string2ll_unsigned_spec. unfold ULLONG_MAX. split_and!; [done|lia|lia|lia]. }
      rewrite bool_decide_false by (by intros [_ ?]). rewrite bool_decide_true, Hu by done.
      bind_simpl. rewrite bool_decide_false by lia. f_equal.
      rewrite swrap_uwrap, Z.opp_involutive by lia. apply swrap_small; [lia|unfold srange; lia].
    + destruct (decide (v = 0)) as [->|Hnz].
      { assert (l = [c_zero]) as -> by (destruct (decide (l = [c_zero])) as [|Hne]; [done|];
          pose proof (canonical_pos l Hl Hne); lia). done. }
      assert (string2ll_unsigned l = Some v) as Hu.
      { apply string2ll_unsigned_spec. unfold ULLONG_MAX. split_and!; [done|lia|lia|lia]. }
      pose proof Hl as [Hok _]. destruct l as [|c p]; [done|].
      apply Forall_cons in Hok as [Hc _].
      rewrite bool_decide_false by (intros [-> ->]; unfold digits_value in Hlv; simpl in Hlv; lia).
      rewrite bool_decide_false, Hu by lia. bind_simpl. rewrite bool_decide_false by lia.
      f_equal. apply swrap_small; [lia|unfold srange; lia].
Qed.

(** C9: [string2ll] and [ll2string] are inverse of each other on 64-bit
    integers: a string is accepted exactly when it is what [ll2string] prints
    for a number in range, which is then the value; so overflow, leading zeros,
    signs and stray bytes are all rejected, and the smallest [long long] is
    handled. *)
Theorem string2ll_ll2string s v :
  srange 64 v -> (string2ll s = Some v <-> ll2string 32 v = Some s).
Proof.
  intros Hv. destruct (decimal_exists v) as [s' Hs'].
  rewrite (ll2string_decimal 32 v s' ltac:(done) Hv Hs'), string2ll_decimal. split.
  - intros [_ (l & Hl & Hlv & ->)]. destruct Hs' as (l' & Hl' & Hlv' & ->).
    do 2 f_equal. rewrite (canonical_unique l l') by (done || congruence). done.
  - intros [= <-]. done.
Qed.

Lemma string2ll_ll2string_witness :
  string2ll [45;57;50;50;51;51;55;50;48;51;54;56;53;52;55;55;53;56;48;56] = Some LLONG_MIN <->
  ll2string 32 LLONG_MIN = Some [45;57;50;50;51;51;55;50;48;51;54;56;53;52;55;55;53;56;48;56].
Proof. apply string2ll_ll2string. by vm_compute. Defined.

(** Every accepted string denotes a number in range. *)
Lemma string2ll_range s v : string2ll s = Some v -> srange 64 v.
Proof. intros Hs. by apply string2ll_decimal in Hs as [? _]. Qed.

Lemma string2ll_print n v :
  21 <= n -> srange 64 v -> exists s, ll2string n v = Some s /\ decimal v s /\ string2ll s = Some v.
Proof.
  intros Hn Hv. destruct (decimal_exists v) as [s Hs]. exists s.
  split_and!; [by apply ll2string_decimal|done|]. by apply string2ll_decimal.
Qed.
