(* ===== verification/ClientFlags.v ===== *)
(** * Flags of a client ([redis.h])

    The bits of [redisClient.flags] that the parser of requests and the
    commands share. *)
From S2P Require Import Prelude.

Definition REDIS_SLAVE : Z := 1.
Definition REDIS_MASTER : Z := 2.
Definition REDIS_MULTI : Z := 8.
Definition REDIS_BLOCKED : Z := 16.
Definition REDIS_DIRTY_CAS : Z := 32.
Definition REDIS_CLOSE_AFTER_REPLY : Z := 64.
Definition REDIS_ASKING : Z := 512.
Definition REDIS_DIRTY_EXEC : Z := 4096.
