(* ===== verification/Sds.v ===== *)
(** * Dynamic strings ([sds.c])

    The header of a string ([len], [free]) and its buffer are modelled, the
    terminating NUL and the bytes left in the free space included; characters
    are bytes (0 to 255).  [junk] gives the bytes [malloc] and [realloc] do not
    initialise. *)
From S2P Require Import Prelude Util.

Definition SDS_MAX_PREALLOC : Z := 1024 * 1024.

(** [struct sdshdr]. *)
Record sds := Sds { len : Z; free : Z; buf : list Z }.

(** A C string inside a list of bytes: what precedes the first NUL. *)
Fixpoint c_str (l : list Z) : list Z :=
  match l with
  | [] => []
  | c :: l => if bool_decide (c = 0) then [] else c :: c_str l
  end.

(** [strchr(set, c) != NULL]: the terminating NUL is part of the string. *)
Definition in_cset (cset : list Z) (c : Z) : bool := bool_decide (c = 0 \/ c ∈ cset).

Definition toupper (c : Z) : Z := if bool_decide (97 <= c <= 122) then c - 32 else c.
Definition isspace (c : Z) : bool := bool_decide (c = 32 \/ 9 <= c <= 13).
Definition isprint (c : Z) : bool := bool_decide (32 <= c <= 126).

Definition sdslen (s : sds) : Z := uwrap 64 (len s).
Definition sdsavail (s : sds) : Z := uwrap 64 (free s).

Section Sds.
Context (junk : nat -> Z).

(** With [None] for [init] the string is filled with zero bytes. *)
Definition sdsnewlen (init : option (list Z)) (initlen : Z) : sds :=
  let n := Z.to_nat initlen in
  let b := match init with
           | Some t => mem_write 0 (take n t) (realloc junk (n + 1) [])
           | None => replicate (n + 1) 0
           end in
  Sds (swrap 32 initlen) 0 (mem_write n [0] b).

Definition sdsempty : sds := sdsnewlen (Some []) 0.

Definition sdsnew (init : list Z) : sds := sdsnewlen (Some (c_str init)) (zlen (c_str init)).

Definition sdsdup (s : sds) : sds := sdsnewlen (Some (buf s)) (sdslen s).

Definition sdsupdatelen (s : sds) : sds :=
  let reallen := swrap 32 (zlen (c_str (buf s))) in
  Sds reallen (swrap 32 (free s + (len s - reallen))) (buf s).

Definition sdsclear (s : sds) : sds :=
  Sds 0 (swrap 32 (free s + len s)) (mem_write 0 [0] (buf s)).

Definition sdsMakeRoomFor (s : sds) (addlen : Z) : sds :=
  if bool_decide (sdsavail s >= addlen) then s
  else
    let newlen := uwrap 64 (sdslen s + addlen) in
    let newlen := if bool_decide (newlen < SDS_MAX_PREALLOC) then newlen * 2
                  else uwrap 64 (newlen + SDS_MAX_PREALLOC) in
    Sds (len s) (swrap 32 (newlen - sdslen s)) (realloc junk (Z.to_nat newlen + 1) (buf s)).

Definition sdsRemoveFreeSpace (s : sds) : sds :=
  Sds (len s) 0 (realloc junk (Z.to_nat (len s) + 1) (buf s)).

(** [None] when an assertion fails. *)
Definition sdsIncrLen (s : sds) (incr : Z) : option sds :=
  if bool_decide (free s >= incr) then
    let len := swrap 32 (len s + incr) in
    let free := swrap 32 (free s - incr) in
    if bool_decide (free >= 0) then Some (Sds len free (mem_write (Z.to_nat len) [0] (buf s)))
    else None
  else None.

Definition sdsgrowzero (s : sds) (n : Z) : sds :=
  let curlen := len s in
  if bool_decide (n <= curlen) then s
  else
    let s := sdsMakeRoomFor s (n - curlen) in
    let b := mem_write (Z.to_nat curlen) (replicate (Z.to_nat (n - curlen + 1)) 0) (buf s) in
    let totlen := len s + free s in
    Sds (swrap 32 n) (swrap 32 (totlen - n)) b.

(** The source block [t] has the length that is passed. *)
Definition sdscatlen (s : sds) (t : list Z) : sds :=
  let n := zlen t in
  let curlen := sdslen s in
  let s := sdsMakeRoomFor s n in
  let b := mem_write (Z.to_nat curlen) t (buf s) in
  Sds (swrap 32 (curlen + n)) (swrap 32 (free s - n)) (mem_write (Z.to_nat (curlen + n)) [0] b).

Definition sdscat (s : sds) (t : list Z) : sds := sdscatlen s (c_str t).

Definition sdscatsds (s t : sds) : sds := sdscatlen s (take (Z.to_nat (sdslen t)) (buf t)).

Definition sdscpylen (s : sds) (t : list Z) : sds :=
  let n := zlen t in
  let s := if bool_decide (free s + len s < n) then sdsMakeRoomFor s (uwrap 64 (n - len s)) else s in
  let totlen := free s + len s in
  Sds (swrap 32 n) (swrap 32 (totlen - n)) (mem_write (Z.to_nat n) [0] (mem_write 0 t (buf s))).

Definition sdscpy (s : sds) (t : list Z) : sds := sdscpylen s (c_str t).

(** The two loops of [sdstrim], on the offsets of [sp] and [ep]. *)
Definition trim_start_step (cset b : list Z) (e sp : Z) : ctl Z Z :=
  if bool_decide (sp <= e) && in_cset cset (nth (Z.to_nat sp) b 0) then Continue (sp + 1) else Break sp.

Definition trim_end_step (cset b : list Z) (ep : Z) : ctl Z Z :=
  if bool_decide (ep > 0) && in_cset cset (nth (Z.to_nat ep) b 0) then Continue (ep - 1) else Break ep.

Definition sdstrim (s : sds) (cset : list Z) : option sds :=
  let e := sdslen s - 1 in
  let fuel := S (S (Z.to_nat (sdslen s))) in
  sp ← loop fuel (trim_start_step cset (buf s) e) 0;
  ep ← loop fuel (trim_end_step cset (buf s)) e;
  let n := if bool_decide (sp > ep) then 0 else ep - sp + 1 in
  let b := if bool_decide (sp <> 0) then memmove 0 (Z.to_nat sp) (Z.to_nat n) (buf s) else buf s in
  Some (Sds (swrap 32 n) (swrap 32 (free s + (len s - n))) (mem_write (Z.to_nat n) [0] b)).

(** Where the range starts and its length, given the length [n] of the string;
    [start] and [end] are 32-bit [int]s. *)
Definition range_width (start e : Z) : Z :=
  if bool_decide (start > e) then 0 else uwrap 64 (swrap 32 (e - start + 1)).

Definition range_index (n i : Z) : Z :=
  if bool_decide (i < 0) then
    let i := swrap 32 (uwrap 64 (n + i)) in
    if bool_decide (i < 0) then 0 else i
  else i.

Definition range_bounds (n start end_ : Z) : Z * Z :=
  let start := range_index n start in
  let end_ := range_index n end_ in
  let newlen := range_width start end_ in
  if bool_decide (newlen <> 0) then
    if bool_decide (start >= swrap 32 n) then (start, 0)
    else if bool_decide (end_ >= swrap 32 n) then (start, range_width start (swrap 32 (n - 1)))
    else (start, newlen)
  else (0, newlen).

Definition sdsrange (s : sds) (start end_ : Z) : sds :=
  let n := sdslen s in
  if bool_decide (n = 0) then s
  else
    let '(start, newlen) := range_bounds n start end_ in
    let b := if bool_decide (start <> 0 /\ newlen <> 0)
             then memmove 0 (Z.to_nat start) (Z.to_nat newlen) (buf s) else buf s in
    Sds (swrap 32 newlen) (swrap 32 (free s + (len s - newlen)))
        (mem_write (Z.to_nat newlen) [0] b).

(** The loops that map every character in place. *)
Definition map_chars (f : Z -> Z) (s : sds) : sds :=
  let n := Z.to_nat (sdslen s) in
  Sds (len s) (free s) (mem_write 0 (f <$> take n (buf s)) (buf s)).

Definition sdstolower : sds -> sds := map_chars tolower.
Definition sdstoupper : sds -> sds := map_chars toupper.

(** The inner loop of [sdsmapchars]: the first character of [from] that
    matches is replaced. *)
Fixpoint map_char (from to : list Z) (c : Z) : Z :=
  match from, to with
  | f :: from, t :: to => if bool_decide (c = f) then t else map_char from to c
  | _, _ => c
  end.

Definition sdsmapchars (s : sds) (from to : list Z) : sds := map_chars (map_char from to) s.

Definition sdsfromlonglong (value : Z) : option sds :=
  let v := uwrap 64 (if bool_decide (value < 0) then swrap 64 (- value) else value) in
  p ← loop 32 ll2string_step (v, []);
  let p := if bool_decide (value < 0) then 45 :: p else p in
  Some (sdsnewlen (Some p) (zlen p)).

(** The loop of [sdsjoin] on C strings. *)
Fixpoint join_loop (join : sds) (argv : list (list Z)) (sep : list Z) : sds :=
  match argv with
  | [] => join
  | [a] => sdscat join a
  | a :: argv => join_loop (sdscat (sdscat join a) sep) argv sep
  end.

Definition sdsjoin (argv : list (list Z)) (sep : list Z) : sds := join_loop sdsempty argv sep.

End Sds.

(** * Correctness *)

(** The largest length of a string ([512] MB), and the largest capacity that
    [sdsMakeRoomFor] then gives. *)
Definition sds_max : Z := 2 ^ 29.
Definition sds_cap : Z := 2 ^ 30.

(** The representation invariant: the string [s] holds the bytes [l]. *)
Record sds_repr (s : sds) (l : list Z) : Prop := {
  repr_len : len s = zlen l;
  repr_free : 0 <= free s;
  repr_cap : len s + free s <= sds_cap;
  repr_size : zlen (buf s) = len s + free s + 1;
  repr_text : take (length l) (buf s) = l;
  repr_nul : buf s !! length l = Some 0;
}.

Lemma small_wraps w x : 32 <= w -> 0 <= x <= 2 * sds_cap - 1 -> uwrap w x = x /\ swrap w x = x.
Proof.
  unfold sds_cap. intros Hw Hx.
  assert (2 ^ 31 <= 2 ^ (w - 1)) by (apply Z.pow_le_mono_r; lia).
  assert (2 ^ 31 <= 2 ^ w) by (apply Z.pow_le_mono_r; lia).
  split; [apply uwrap_small|apply swrap_small; [lia|]]; unfold urange, srange; lia.
Qed.

Lemma small_u w x : 32 <= w -> 0 <= x <= 2 * sds_cap - 1 -> uwrap w x = x.
Proof. intros Hw Hx. by apply small_wraps. Qed.

Lemma small_s w x : 32 <= w -> 0 <= x <= 2 * sds_cap - 1 -> swrap w x = x.
Proof. intros Hw Hx. by apply small_wraps. Qed.

Lemma repr_sdslen s l : sds_repr s l -> sdslen s = zlen l.
Proof. intros []. unfold sdslen. rewrite repr_len0 in *. apply small_u; unfold sds_cap in *; lia. Qed.

Lemma repr_sdsavail s l : sds_repr s l -> sdsavail s = free s.
Proof. intros []. unfold sdsavail. apply small_u; unfold sds_cap in *; lia. Qed.

(** Arithmetic on lengths, where the casts are the identity. *)
Ltac sds_lia :=
  unfold sds_max in *;
  rewrite ?small_s, ?small_u by (unfold sds_cap in *; lia);
  unfold sds_cap in *; lia.

(** Writing the NUL at [k] seals the first [k] bytes of a buffer. *)
Lemma repr_seal b k total v f l' :
  zlen b = total + 1 -> Z.of_nat k <= total -> total <= sds_cap ->
  v = Z.of_nat k -> f = total - Z.of_nat k -> take k b = l' ->
  sds_repr (Sds v f (mem_write k [0] b)) l'.
Proof.
  intros Hb Hk Ht -> -> <-.
  assert (length (take k b) = k) as Hlt by (rewrite length_take; lia).
  constructor; simpl; rewrite ?Hlt; try lia.
  - rewrite length_mem_write; simpl; lia.
  - unfold mem_write. by rewrite take_app_length'.
  - unfold mem_write. by rewrite lookup_app_r, Hlt, Nat.sub_diag by lia.
Qed.

Section Spec.
Context (junk : nat -> Z).

Lemma sdsMakeRoomFor_spec s l n :
  sds_repr s l -> 0 <= n -> zlen l + n <= sds_max ->
  sds_repr (sdsMakeRoomFor junk s n) l /\ n <= free (sdsMakeRoomFor junk s n).
Proof.
  intros Hs Hn Hmax. unfold sdsMakeRoomFor.
  rewrite (repr_sdslen s l Hs), (repr_sdsavail s l Hs).
  case_bool_decide as Hav; [split; [done|lia]|]. destruct Hs as [Hlen Hfree Hcap Hsize Htext Hnul].
  unfold SDS_MAX_PREALLOC, sds_max, sds_cap in *.
  rewrite (small_u 64 (zlen l + n)) by (unfold sds_cap; lia).
  set (newlen := if bool_decide _ then _ else _).
  assert (zlen l + n <= newlen <= 2 ^ 30) as Hnew.
  { unfold newlen. case_bool_decide; [lia|]. rewrite small_u by (unfold sds_cap; lia). lia. }
  rewrite small_s by (unfold sds_cap; lia).
  split; [|simpl; lia]. constructor; simpl; unfold sds_cap; try lia.
  - rewrite length_realloc. lia.
  - rewrite realloc_grow, take_app_le by lia. done.
  - rewrite realloc_grow, lookup_app_l by lia. done.
Qed.

(** Overwriting the buffer after the text. *)
Lemma append_text s l t :
  sds_repr s l -> zlen t <= free s + 1 ->
  take (length l + length t) (mem_write (length l) t (buf s)) = l ++ t /\
  length (mem_write (length l) t (buf s)) = length (buf s).
Proof.
  intros [] Ht. split; [|apply length_mem_write; lia].
  unfold mem_write. rewrite repr_text0, app_assoc, <- length_app. by rewrite take_app_length.
Qed.

Lemma sdsempty_spec : sds_repr (sdsempty junk) [].
Proof. constructor; try done; simpl; by unfold sds_cap. Qed.

Lemma sdsnewlen_spec t :
  zlen t <= sds_max -> sds_repr (sdsnewlen junk (Some t) (zlen t)) t.
Proof.
  intros Ht. unfold sdsnewlen. rewrite Nat2Z.id, take_ge by lia.
  apply (repr_seal _ _ (zlen t)); try sds_lia.
  - rewrite length_mem_write; rewrite length_realloc; simpl; lia.
  - unfold mem_write. rewrite take_0. simpl. by rewrite take_app_length.
Qed.

Lemma sdscatlen_spec s l t :
  sds_repr s l -> zlen l + zlen t <= sds_max -> sds_repr (sdscatlen junk s t) (l ++ t).
Proof.
  intros Hs Hmax. unfold sdscatlen. rewrite (repr_sdslen s l Hs).
  destruct (sdsMakeRoomFor_spec s l (zlen t) Hs) as [Hs' Hf]; [lia|done|].
  set (s' := sdsMakeRoomFor junk s (zlen t)) in *. rewrite Nat2Z.id.
  destruct (append_text s' l t Hs' ltac:(lia)) as [Htext Hsize]. destruct Hs'.
  replace (Z.to_nat (zlen l + zlen t)) with (length l + length t)%nat by lia.
  apply (repr_seal _ _ (len s' + free s')); done || sds_lia.
Qed.

Lemma sdscpylen_spec s l t :
  sds_repr s l -> zlen l <= sds_max -> zlen t <= sds_max -> sds_repr (sdscpylen junk s t) t.
Proof.
  intros Hs Hl Hmax. unfold sdscpylen.
  set (s' := if bool_decide _ then _ else s).
  assert (sds_repr s' l /\ zlen t <= len s' + free s') as [[] Hroom].
  { unfold s'. pose proof (repr_len s l Hs). case_bool_decide; [|split; [done|lia]].
    pose proof (repr_free s l Hs). unfold sds_max in *.
    rewrite small_u by (unfold sds_cap; lia).
    destruct (sdsMakeRoomFor_spec s l (zlen t - len s) Hs) as [Hs' Hf]; [lia|unfold sds_max; lia|].
    split; [done|]. pose proof (repr_len _ _ Hs'). lia. }
  rewrite Nat2Z.id. apply (repr_seal _ _ (len s' + free s')); try sds_lia.
  - rewrite length_mem_write; lia.
  - unfold mem_write. rewrite take_0. simpl. by rewrite take_app_length.
Qed.

Lemma sdsclear_spec s l : sds_repr s l -> sds_repr (sdsclear s) [].
Proof.
  intros []. unfold sdsclear. apply (repr_seal _ _ (len s + free s)); done || sds_lia.
Qed.

Lemma sdsRemoveFreeSpace_spec s l : sds_repr s l -> sds_repr (sdsRemoveFreeSpace junk s) l.
Proof.
  intros []. unfold sdsRemoveFreeSpace. rewrite realloc_shrink by lia.
  constructor; simpl; try lia.
  - rewrite length_take. lia.
  - rewrite take_take, Nat.min_l by lia. done.
  - rewrite lookup_take_lt by lia. done.
Qed.

Lemma sdsIncrLen_spec s l b n :
  sds_repr s l -> length b = length (buf s) -> - zlen l <= n <= free s ->
  exists s', sdsIncrLen (Sds (len s) (free s) b) n = Some s' /\
             sds_repr s' (take (Z.to_nat (zlen l + n)) b).
Proof.
  intros [] Hb Hn. unfold sdsIncrLen. simpl. unfold sds_cap in *.
  rewrite bool_decide_true by lia. rewrite repr_len0 in *.
  rewrite (small_s 32 (free s - n)) by (unfold sds_cap; lia).
  rewrite bool_decide_true by lia. eexists; split; [done|].
  rewrite (small_s 32 (zlen l + n)) by (unfold sds_cap; lia).
  apply (repr_seal _ _ (zlen l + free s)); done || sds_lia.
Qed.

Lemma sdsgrowzero_spec s l n :
  sds_repr s l -> n <= sds_max ->
  sds_repr (sdsgrowzero junk s n) (l ++ replicate (Z.to_nat (n - zlen l)) 0).
Proof.
  intros Hs Hmax. unfold sdsgrowzero. rewrite (repr_len s l Hs).
  case_bool_decide.
  { replace (Z.to_nat (n - zlen l)) with O by lia. by rewrite app_nil_r. }
  destruct (sdsMakeRoomFor_spec s l (n - zlen l) Hs) as [Hs' Hf]; [lia..|].
  set (s' := sdsMakeRoomFor junk s (n - zlen l)) in *. rewrite Nat2Z.id.
  set (k := Z.to_nat (n - zlen l)). replace (Z.to_nat (n - zlen l + 1)) with (k + 1)%nat by lia.
  destruct (append_text s' l (replicate (k + 1) 0) Hs' ltac:(rewrite length_replicate; lia)) as [Htext Hsize].
  rewrite length_replicate in Htext. destruct Hs'.
  constructor; simpl; rewrite ?length_app, ?length_replicate.
  all: rewrite ?small_s by (unfold sds_cap in *; lia); try lia.
  - change (take (length l + k) (mem_write (length l) (replicate (k + 1) 0) (buf s')) = l ++ replicate k 0).
    replace (length l + k)%nat with ((length l + k) `min` (length l + (k + 1)))%nat by lia.
    rewrite <- take_take, Htext, replicate_add, app_assoc.
    rewrite take_app_length'; [done|]. rewrite length_app, length_replicate. done.
  - rewrite <- (lookup_take_lt _ (length l + (k + 1))) by lia. rewrite Htext.
    rewrite lookup_app_r by lia. apply lookup_replicate. lia.
Qed.

Lemma map_chars_spec f s l : sds_repr s l -> sds_repr (map_chars f s) (f <$> l).
Proof.
  intros Hs. unfold map_chars. rewrite (repr_sdslen s l Hs), Nat2Z.id. destruct Hs.
  rewrite repr_text0.
  assert (length (f <$> l) = length l) as Hlen by apply length_fmap.
  constructor; simpl; rewrite ?Hlen; try done.
  - rewrite length_mem_write; [done|]. rewrite Hlen. lia.
  - unfold mem_write. rewrite take_0. simpl. by rewrite take_app_length'.
  - unfold mem_write. rewrite take_0. simpl. rewrite lookup_app_r, Hlen, lookup_drop by lia.
    rewrite Nat.sub_diag, Nat.add_0_r. done.
Qed.

(** ** [sdsrange] *)

(** The bytes from [start] to [end] included, negative indexes counting from
    the end of the string. *)
Definition range_of (l : list Z) (start end_ : Z) : list Z :=
  let a := if bool_decide (start < 0) then Z.max 0 (zlen l + start) else start in
  let b := if bool_decide (end_ < 0) then Z.max 0 (zlen l + end_) else Z.min end_ (zlen l - 1) in
  mem_read (Z.to_nat a) (Z.to_nat (b - a + 1)) l.

Lemma mem_read_nil a n (l : list Z) : (length l <= a)%nat \/ n = 0%nat -> mem_read a n l = [].
Proof. unfold mem_read. intros [?| ->]; [rewrite drop_ge by done; apply take_nil|done]. Qed.

Lemma mem_read_take a n k (l : list Z) :
  (a + n <= k)%nat -> mem_read a n (take k l) = mem_read a n l.
Proof.
  intros Hk. unfold mem_read. replace k with (a + (k - a))%nat by lia.
  rewrite <- take_drop_commute, take_take, Nat.min_l by lia. done.
Qed.

(** Moving a part of the text to the front. *)
Lemma memmove_front s l a n :
  sds_repr s l -> (a + n <= length l)%nat ->
  let b := if bool_decide (Z.of_nat a <> 0) then memmove 0 a n (buf s) else buf s in
  zlen b = len s + free s + 1 /\ take n b = mem_read a n l.
Proof.
  intros [] Ha. cbv zeta. assert (mem_read a n (buf s) = mem_read a n l) as Hr.
  { rewrite <- repr_text0. by rewrite mem_read_take by lia. }
  case_bool_decide as Hz.
  - unfold memmove. rewrite Hr. assert (length (mem_read a n l) = n) as Hl by (apply length_mem_read; lia).
    split; [rewrite length_mem_write; rewrite ?Hl; lia|].
    unfold mem_write. rewrite take_0. simpl. by rewrite take_app_length'.
  - replace a with O in * by lia. done.
Qed.

Lemma swrap_uwrap_small x : srange 32 x -> swrap 32 (uwrap 64 x) = x.
Proof.
  intros Hx. unfold swrap, uwrap. unfold srange in Hx. change (2 ^ (32 - 1)) with (2 ^ 31) in *.
  replace ((x mod 2 ^ 64 + 2 ^ 31) mod 2 ^ 32) with ((x + 2 ^ 31) mod 2 ^ 32).
  - rewrite Z.mod_small by lia. lia.
  - rewrite <- (Zplus_mod_idemp_l (x mod 2 ^ 64)). rewrite <- (Zplus_mod_idemp_l x).
    f_equal. f_equal. rewrite (Z.div_mod x (2 ^ 64)) at 1 by lia.
    replace (2 ^ 64) with (2 ^ 32 * 2 ^ 32) at 1 by lia.
    rewrite Z.add_comm, <- Z.mul_assoc, Z.mul_comm, Z_mod_plus_full. done.
Qed.

Lemma range_index_spec n i :
  0 <= n <= sds_max -> srange 32 i ->
  range_index n i = (if bool_decide (i < 0) then Z.max 0 (n + i) else i) /\
  0 <= range_index n i < 2 ^ 31.
Proof.
  unfold srange, sds_max, range_index. change (32 - 1) with 31. intros Hn Hi.
  case_bool_decide; [|lia].
  rewrite swrap_uwrap_small by (unfold srange; change (32 - 1) with 31; lia).
  case_bool_decide; lia.
Qed.

Lemma range_bounds_spec l start end_ a n :
  l <> [] -> zlen l <= sds_max -> srange 32 start -> srange 32 end_ ->
  range_bounds (zlen l) start end_ = (a, n) ->
  0 <= a /\ 0 <= n /\ (n = 0 \/ a + n <= zlen l) /\
  mem_read (Z.to_nat a) (Z.to_nat n) l = range_of l start end_.
Proof.
  intros Hne Hmax Hst Hen. unfold range_bounds, range_of.
  destruct (range_index_spec (zlen l) start ltac:(lia) Hst) as [<- Ha].
  destruct (range_index_spec (zlen l) end_ ltac:(lia) Hen) as [He Hbe].
  set (x := range_index (zlen l) start) in *. set (e := range_index (zlen l) end_) in *.
  clearbody x e.
  replace (if bool_decide (end_ < 0) then Z.max 0 (zlen l + end_) else Z.min end_ (zlen l - 1))
    with (Z.min e (zlen l - 1)) by (destruct l; [done|]; cbn [length]; revert He; case_bool_decide; cbn [length]; lia).
  clear He.
  assert (0 < zlen l) by (destruct l; [done|simpl; lia]).
  unfold sds_max in *. rewrite !(small_s 32 (zlen l)), (small_s 32 (zlen l - 1)) by (unfold sds_cap; lia).
  unfold range_width. destruct (decide (x > e)) as [Hgt|Hle].
  { rewrite (bool_decide_true (x > e)), (bool_decide_false (0 <> 0)) by lia. intros [= <- <-].
    rewrite !mem_read_nil by lia. split_and!; lia || done. }
  rewrite (bool_decide_false (x > e)) by done.
  assert (uwrap 64 (swrap 32 (e - x + 1)) <> 0).
  { destruct (decide (e - x + 1 = 2 ^ 31)) as [->|]; [by vm_compute|].
    rewrite small_s, small_u by (unfold sds_cap; lia). lia. }
  rewrite (bool_decide_true (uwrap 64 _ <> 0)) by done.
  destruct (decide (x >= zlen l)).
  { rewrite bool_decide_true by done. intros [= <- <-]. rewrite !mem_read_nil by lia. split_and!; lia || done. }
  rewrite (bool_decide_false (x >= zlen l)) by done.
  case_bool_decide; [rewrite (bool_decide_false (x > zlen l - 1)) by lia|]; intros [= <- <-];
    rewrite small_s, small_u by (unfold sds_cap; lia);
    (split_and!; [lia..|]); do 2 f_equal; lia.
Qed.

Lemma sdsrange_spec s l start end_ :
  sds_repr s l -> zlen l <= sds_max -> srange 32 start -> srange 32 end_ ->
  sds_repr (sdsrange s start end_) (range_of l start end_).
Proof.
  intros Hs Hmax Hst Hen. unfold sdsrange. rewrite (repr_sdslen s l Hs).
  case_bool_decide as Hz.
  { destruct l; [|done]. unfold range_of. by rewrite mem_read_nil by (left; simpl; lia). }
  destruct (range_bounds (zlen l) start end_) as [a n] eqn:Hb.
  destruct (range_bounds_spec l start end_ a n) as (Ha & Hn & Han & <-); [by intros ->|done..|].
  destruct (decide (n = 0)) as [->|Hnz].
  { rewrite bool_decide_false, mem_read_nil by lia. destruct Hs.
    apply (repr_seal _ _ (len s + free s)); done || sds_lia. }
  destruct (memmove_front s l (Z.to_nat a) (Z.to_nat n) Hs ltac:(lia)) as [Hsize Htext].
  rewrite Z2Nat.id in Hsize, Htext by lia.
  assert (bool_decide (a <> 0 /\ n <> 0) = bool_decide (a <> 0)) as ->
    by (apply bool_decide_ext; lia).
  destruct Hs. apply (repr_seal _ _ (len s + free s)); done || sds_lia.
Qed.

(** ** [sdstrim] *)

Fixpoint drop_while (f : Z -> bool) (l : list Z) : list Z :=
  match l with
  | [] => []
  | c :: l' => if f c then drop_while f l' else l
  end.

Definition trim (f : Z -> bool) (l : list Z) : list Z :=
  reverse (drop_while f (reverse (drop_while f l))).

Lemma drop_while_split f l :
  exists p, l = p ++ drop_while f l /\ Forall (fun c => f c = true) p /\
    forall c, head (drop_while f l) = Some c -> f c = false.
Proof.
  induction l as [|c l (p & Hl & Hp & Hh)]; [by exists []|]. simpl. destruct (f c) eqn:Hc.
  - exists (c :: p). simpl. split_and!; [by f_equal|by constructor|done].
  - exists []. split_and!; [done|done|]. simpl. intros ? [= ->]. done.
Qed.

Lemma trim_split f l :
  exists p q, l = p ++ trim f l ++ q /\
    Forall (fun c => f c = true) p /\ Forall (fun c => f c = true) q /\
    (forall c, last (p ++ trim f l) = Some c -> trim f l <> [] -> f c = false) /\
    (forall c, head (trim f l ++ q) = Some c -> f c = false).
Proof.
  destruct (drop_while_split f l) as (p & Hp & Hpf & Hph).
  destruct (drop_while_split f (reverse (drop_while f l))) as (q & Hq & Hqf & Hqh).
  assert (drop_while f l = trim f l ++ reverse q) as Heq.
  { unfold trim. by rewrite <- reverse_app, <- Hq, reverse_involutive. }
  exists p, (reverse q). split_and!.
  - by rewrite <- Heq.
  - done.
  - by apply Forall_reverse.
  - intros c Hc Hne. apply Hqh. rewrite last_app in Hc. unfold trim in *.
    rewrite last_reverse in Hc. by destruct (drop_while f (reverse (drop_while f l))).
  - by rewrite <- Heq.
Qed.

Lemma sds_nth s l i : sds_repr s l -> (i < length l)%nat -> nth i (buf s) 0 = nth i l 0.
Proof.
  intros [] Hi. rewrite !nth_lookup. rewrite <- repr_text0. by rewrite lookup_take_lt.
Qed.

Lemma Forall_nth_lt (P : Z -> Prop) l i : Forall P l -> (i < length l)%nat -> P (nth i l 0).
Proof.
  intros Hl Hi. destruct (lookup_lt_is_Some_2 l i Hi) as [x Hx].
  rewrite (nth_lookup_Some _ _ _ _ Hx). by eapply Forall_lookup_1.
Qed.

Lemma trim_start_spec s p r cset fuel :
  sds_repr s (p ++ r) -> Forall (fun c => in_cset cset c = true) p ->
  (forall c, head r = Some c -> in_cset cset c = false) -> (length (p ++ r) < fuel)%nat ->
  loop fuel (trim_start_step cset (buf s) (zlen (p ++ r) - 1)) 0 = Some (zlen p).
Proof.
  intros Hs Hp Hr Hf.
  destruct (loop_spec (fun sp => 0 <= sp <= zlen p) (fun sp => Z.to_nat (zlen p - sp))
    (fun sp => sp = zlen p) (trim_start_step cset (buf s) (zlen (p ++ r) - 1)) fuel 0)
    as (? & -> & ->); [|lia|rewrite length_app in Hf; lia|done].
  intros sp Hsp. unfold trim_start_step. rewrite length_app. destruct (decide (sp = zlen p)) as [->|Hne].
  - destruct r as [|c r]; simpl.
    + by rewrite bool_decide_false by lia.
    + rewrite bool_decide_true by lia. rewrite (sds_nth _ _ _ Hs) by (rewrite length_app; simpl; lia).
      rewrite Nat2Z.id, app_nth2, Nat.sub_diag by lia. simpl. by rewrite (Hr c).
  - rewrite bool_decide_true by lia. rewrite (sds_nth _ _ _ Hs) by (rewrite length_app; lia).
    rewrite app_nth1 by lia.
    rewrite (Forall_nth_lt _ _ _ Hp) by lia. simpl. lia.
Qed.

Lemma trim_end_spec s p q cset fuel :
  sds_repr s (p ++ q) -> Forall (fun c => in_cset cset c = true) q ->
  (forall c, last p = Some c -> in_cset cset c = false) -> (length (p ++ q) < fuel)%nat ->
  exists ep, loop fuel (trim_end_step cset (buf s)) (zlen (p ++ q) - 1) = Some ep /\
    (p <> [] -> ep = zlen p - 1) /\ (p = [] -> ep <= 0 /\ (q = [] -> ep = -1)).
Proof.
  intros Hs Hq Hp Hf.
  apply (loop_spec (fun ep => zlen p - 1 <= ep < zlen (p ++ q)) (fun ep => Z.to_nat (ep + 1))).
  2: rewrite length_app; lia.
  2: lia.
  intros ep Hep. unfold trim_end_step. rewrite length_app in *. destruct (decide (ep = zlen p - 1)) as [->|Hne].
  - destruct p as [|x p _] using rev_ind.
    { rewrite bool_decide_false by (simpl; lia). simpl. split; [done|]. intros _. split; [lia|]. by intros ->. }
    rewrite length_app in *. simpl in *. destruct (bool_decide (_ > 0)); simpl.
    + rewrite (sds_nth _ _ _ Hs) by (rewrite !length_app; simpl; lia).
      replace (Z.to_nat _) with (length p) by lia.
      rewrite <- app_assoc, app_nth2, Nat.sub_diag by lia. simpl.
      rewrite (Hp x) by (by rewrite last_snoc). split; [lia|]. by destruct p.
    + split; [lia|]. by destruct p.
  - case_bool_decide as Hpos; simpl.
    + rewrite (sds_nth _ _ _ Hs) by (rewrite length_app; lia).
      rewrite app_nth2 by lia. rewrite (Forall_nth_lt _ _ _ Hq) by lia. lia.
    + assert (p = []) as -> by (destruct p; [done|simpl in *; lia]). split; [done|].
      intros _. split; [lia|]. intros ->. simpl in *. lia.
Qed.

Lemma sdstrim_spec s l cset :
  sds_repr s l -> zlen l <= sds_max ->
  exists s', sdstrim s cset = Some s' /\ sds_repr s' (trim (in_cset cset) l).
Proof.
  intros Hs Hmax. unfold sdstrim. rewrite (repr_sdslen s l Hs).
  destruct (trim_split (in_cset cset) l) as (p & q & Hl & Hp & Hq & Hlast & Hhead).
  set (m := trim (in_cset cset) l) in *.
  assert (forall c, last (p ++ m) = Some c -> m <> [] -> in_cset cset c = false) as Hlast' by done.
  assert (loop (S (S (Z.to_nat (zlen l)))) (trim_start_step cset (buf s) (zlen l - 1)) 0 = Some (zlen p)) as ->.
  { rewrite Hl in *. apply trim_start_spec; try done. lia. }
  bind_rw.
  assert (exists ep, loop (S (S (Z.to_nat (zlen l)))) (trim_end_step cset (buf s)) (zlen l - 1) = Some ep /\
    (if bool_decide (zlen p > ep) then 0 else ep - zlen p + 1) = zlen m) as (ep & -> & Hn).
  { destruct (decide (m = [])) as [Hm|Hm].
    - rewrite Hm in *. simpl in Hl, Hhead.
      assert (q = []) as ->. { destruct q as [|c q]; [done|]. apply Forall_cons in Hq as [Hc _].
        by rewrite (Hhead c) in Hc. }
      rewrite app_nil_r in Hl. subst l.
      destruct (trim_end_spec s [] p cset (S (S (Z.to_nat (zlen p))))) as (ep & Hloop & _ & Hep);
        [done|done|done|simpl; lia|].
      exists ep. split; [done|]. destruct (Hep eq_refl) as [Hle Hnil]. simpl.
      destruct p; [rewrite Hnil by done; done|]. by rewrite bool_decide_true by (simpl; lia).
    - rewrite app_assoc in Hl.
      destruct (trim_end_spec s (p ++ m) q cset (S (S (Z.to_nat (zlen l))))) as (ep & Hep & He & _);
        [by rewrite <- Hl|done|intros c Hc; by apply (Hlast c)|rewrite <- Hl; lia|].
      rewrite <- Hl in Hep. exists ep. split; [done|].
      rewrite He by (by destruct p, m). rewrite length_app. destruct m; [done|].
      rewrite bool_decide_false by (simpl; lia). simpl. lia. }
  bind_rw. rewrite Hn. eexists; split; [done|].
  assert (length l = length p + (length m + length q))%nat as Hll by (by rewrite Hl, !length_app).
  destruct (memmove_front s l (length p) (length m) Hs ltac:(lia)) as [Hsize Htext].
  rewrite !Nat2Z.id. destruct Hs.
  apply (repr_seal _ _ (len s + free s)); try sds_lia.
  rewrite Htext. rewrite Hl at 1. unfold mem_read. rewrite drop_app_length. by rewrite take_app_length.
Qed.

Lemma c_str_app l r : c_str (l ++ 0 :: r) = c_str l.
Proof. induction l as [|c l IH]; simpl; [done|]. case_bool_decide; [done|]. by rewrite IH. Qed.

Lemma c_str_prefix l r : exists q, l ++ 0 :: r = c_str l ++ 0 :: q.
Proof.
  induction l as [|c l (q & IH)]; simpl; [by eexists|].
  case_bool_decide as Hc; [subst; by eexists|]. exists q. by rewrite IH.
Qed.

Lemma repr_app s l : sds_repr s l -> exists r, buf s = l ++ 0 :: r.
Proof.
  intros []. exists (drop (S (length l)) (buf s)).
  rewrite <- (take_drop_middle _ _ _ repr_nul0) at 1. by rewrite repr_text0.
Qed.

Lemma sdsupdatelen_spec s l :
  sds_repr s l -> zlen l <= sds_max -> sds_repr (sdsupdatelen s) (c_str l).
Proof.
  intros Hs Hmax. destruct (repr_app s l Hs) as [r Hr]. destruct (c_str_prefix l r) as [q Hq].
  unfold sdsupdatelen. destruct Hs.
  assert (length (c_str l) <= length l)%nat as Hle.
  { clear. induction l; simpl; [lia|]. case_bool_decide; simpl; lia. }
  rewrite Hr at 1 2. rewrite c_str_app, (small_s 32 (zlen (c_str l))) by sds_lia.
  constructor; simpl; try sds_lia.
  - rewrite Hr, Hq. by rewrite take_app_length.
  - rewrite Hr, Hq. by rewrite lookup_app_r, Nat.sub_diag by done.
Qed.

End Spec.

(** ** Sequences of operations *)

(** [OpRead n t] is the protocol of [sdsIncrLen]: make room for [n] bytes, let
    the caller write the bytes [t] after the string, and add their number to
    the length. *)
Inductive sds_op :=
| OpCat (t : list Z) | OpCpy (t : list Z) | OpGrowZero (n : Z) | OpRoom (n : Z)
| OpRead (n : Z) (t : list Z) | OpTrunc (n : Z) | OpRange (a b : Z) | OpTrim (cset : list Z)
| OpClear | OpCompact | OpUpdateLen | OpTolower | OpToupper | OpMap (from to : list Z) | OpDup.

Definition sds_step (junk : nat -> Z) (s : sds) (op : sds_op) : option sds :=
  match op with
  | OpCat t => Some (sdscatlen junk s t)
  | OpCpy t => Some (sdscpylen junk s t)
  | OpGrowZero n => Some (sdsgrowzero junk s n)
  | OpRoom n => Some (sdsMakeRoomFor junk s n)
  | OpRead n t =>
      let s := sdsMakeRoomFor junk s n in
      sdsIncrLen (Sds (len s) (free s) (mem_write (Z.to_nat (sdslen s)) t (buf s))) (zlen t)
  | OpTrunc n => sdsIncrLen s (- n)
  | OpRange a b => Some (sdsrange s a b)
  | OpTrim cset => sdstrim s cset
  | OpClear => Some (sdsclear s)
  | OpCompact => Some (sdsRemoveFreeSpace junk s)
  | OpUpdateLen => Some (sdsupdatelen s)
  | OpTolower => Some (sdstolower s)
  | OpToupper => Some (sdstoupper s)
  | OpMap from to => Some (sdsmapchars s from to)
  | OpDup => Some (sdsdup junk s)
  end.

(** The same operations on lists of bytes. *)
Definition bytes_step (l : list Z) (op : sds_op) : list Z :=
  match op with
  | OpCat t => l ++ t
  | OpCpy t => t
  | OpGrowZero n => l ++ replicate (Z.to_nat (n - zlen l)) 0
  | OpRoom _ | OpCompact | OpDup => l
  | OpRead _ t => l ++ t
  | OpTrunc n => take (Z.to_nat (zlen l - n)) l
  | OpRange a b => range_of l a b
  | OpTrim cset => trim (in_cset cset) l
  | OpClear => []
  | OpUpdateLen => c_str l
  | OpTolower => tolower <$> l
  | OpToupper => toupper <$> l
  | OpMap from to => map_char from to <$> l
  end.

(** What an operation requires of its arguments: strings stay below 512 MB,
    indexes are [int]s, and the bytes read fit the room made for them. *)
Definition op_allowed (l : list Z) (op : sds_op) : bool :=
  match op with
  | OpCat t => bool_decide (zlen l + zlen t <= sds_max)
  | OpCpy t => bool_decide (zlen t <= sds_max)
  | OpGrowZero n => bool_decide (n <= sds_max)
  | OpRoom n => bool_decide (0 <= n /\ zlen l + n <= sds_max)
  | OpRead n t => bool_decide (zlen t <= n /\ zlen l + n <= sds_max)
  | OpTrunc n => bool_decide (0 <= n <= zlen l)
  | OpRange a b => bool_decide (srange 32 a /\ srange 32 b)
  | _ => true
  end.

Fixpoint sds_run (junk : nat -> Z) (s : sds) (ops : list sds_op) : option sds :=
  match ops with
  | [] => Some s
  | op :: ops => s ← sds_step junk s op; sds_run junk s ops
  end.

Fixpoint ops_allowed (l : list Z) (ops : list sds_op) : bool :=
  match ops with
  | [] => true
  | op :: ops => op_allowed l op && ops_allowed (bytes_step l op) ops
  end.

Lemma length_drop_while f l : (length (drop_while f l) <= length l)%nat.
Proof. induction l; simpl; [lia|]. destruct (f a); simpl; lia. Qed.

Lemma bytes_step_length l op :
  op_allowed l op = true -> zlen l <= sds_max -> zlen (bytes_step l op) <= sds_max.
Proof.
  destruct op; simpl; rewrite ?bool_decide_eq_true; intros Ha Hl;
    rewrite ?length_app, ?length_replicate, ?length_take, ?length_fmap; try lia.
  - unfold range_of, mem_read. rewrite length_take, length_drop. lia.
  - unfold trim. rewrite length_reverse. pose proof (length_drop_while (in_cset cset) l).
    pose proof (length_drop_while (in_cset cset) (reverse (drop_while (in_cset cset) l))) as Hd.
    rewrite length_reverse in Hd. lia.
  - assert (length (c_str l) <= length l)%nat; [|lia].
    clear. induction l; simpl; [lia|]. case_bool_decide; simpl; lia.
Qed.

Lemma sds_step_spec junk s l op :
  sds_repr s l -> zlen l <= sds_max -> op_allowed l op = true ->
  exists s', sds_step junk s op = Some s' /\ sds_repr s' (bytes_step l op).
Proof.
  intros Hs Hl. destruct op; simpl; rewrite ?bool_decide_eq_true; intros Ha.
  - eexists; split; [done|]. by apply sdscatlen_spec.
  - eexists; split; [done|]. by eapply sdscpylen_spec.
  - eexists; split; [done|]. by apply sdsgrowzero_spec.
  - eexists; split; [done|]. apply sdsMakeRoomFor_spec; lia || done.
  - destruct (sdsMakeRoomFor_spec junk s l n Hs) as [Hs' Hf]; [lia..|].
    set (s' := sdsMakeRoomFor junk s n) in *. rewrite (repr_sdslen s' l Hs'), Nat2Z.id.
    destruct (append_text s' l t Hs' ltac:(lia)) as [Htext Hsize].
    destruct (sdsIncrLen_spec s' l _ (zlen t) Hs' Hsize) as (s'' & Hinc & Hr); [lia|].
    exists s''. split; [done|]. rewrite <- Htext.
    by replace (length l + length t)%nat with (Z.to_nat (zlen l + zlen t)) by lia.
  - destruct (sdsIncrLen_spec s l (buf s) (- n) Hs eq_refl) as (s' & Hinc & Hr).
    { pose proof (repr_free _ _ Hs). lia. }
    exists s'. split; [by destruct s|]. rewrite <- (repr_text _ _ Hs) at 2.
    rewrite take_take, Nat.min_l by lia. done.
  - eexists; split; [done|]. destruct Ha. by apply sdsrange_spec.
  - by apply sdstrim_spec.
  - eexists; split; [done|]. by eapply sdsclear_spec.
  - eexists; split; [done|]. by apply sdsRemoveFreeSpace_spec.
  - eexists; split; [done|]. by apply sdsupdatelen_spec.
  - eexists; split; [done|]. by apply map_chars_spec.
  - eexists; split; [done|]. by apply map_chars_spec.
  - eexists; split; [done|]. by apply map_chars_spec.
  - eexists; split; [done|]. unfold sdsdup. rewrite (repr_sdslen s l Hs). destruct (repr_app s l Hs) as [r ->].
    unfold sdsnewlen. rewrite Nat2Z.id, take_app_length.
    pose proof (sdsnewlen_spec junk l Hl) as Hn. unfold sdsnewlen in Hn.
    by rewrite Nat2Z.id, take_ge in Hn by lia.
Qed.

Lemma sds_run_spec junk ops s l :
  sds_repr s l -> zlen l <= sds_max -> ops_allowed l ops = true ->
  exists s', sds_run junk s ops = Some s' /\ sds_repr s' (foldl bytes_step l ops).
Proof.
  revert s l. induction ops as [|op ops IH]; intros s l Hs Hl Ha; [by eexists|].
  simpl in Ha. apply andb_true_iff in Ha as [Ha Hops].
  destruct (sds_step_spec junk s l op Hs Hl Ha) as (s' & Hstep & Hs').
  cbn [sds_run foldl]. rewrite Hstep. bind_simpl. apply IH; [done| |done].
  by apply bytes_step_length.
Qed.

(** C10: every sequence of operations on a new string (concatenation, copy,
    growing, truncation, sub-ranges with negative indexes, trimming, case and
    character mapping, [strlen] updates, duplication, and the protocol that
    reads into free space) gives the bytes of the same operations on lists;
    the header stays consistent with the allocation, no write goes past it,
    and the buffer is always NUL-terminated.  Nothing depends on the
    uninitialised bytes. *)
Theorem sds_run_refines junk ops :
  ops_allowed [] ops = true ->
  exists s, sds_run junk (sdsempty junk) ops = Some s /\ sds_repr s (foldl bytes_step [] ops).
Proof. intros Ha. apply sds_run_spec; [apply sdsempty_spec|by vm_compute|done]. Qed.

Lemma sds_run_refines_witness :
  exists s, sds_run (fun _ => 7) (sdsempty (fun _ => 7))
      [OpCat [32; 72; 105; 32]; OpTrim [32]; OpRead 10 [33; 33]; OpRange 1 (-2); OpGrowZero 5] = Some s /\
    sds_repr s [105; 33; 0; 0; 0].
Proof. apply (sds_run_refines (fun _ => 7) [OpCat [32; 72; 105; 32]; OpTrim [32];
  OpRead 10 [33; 33]; OpRange 1 (-2); OpGrowZero 5]). by vm_compute. Defined.
