(* ===== verification/SdsArgs.v ===== *)
(** * Comparing, splitting and quoting strings ([sds.c])

    The functions of [sds.c] that produce or consume whole strings: comparison,
    splitting on a separator, and the quoting syntax of inline commands.
    Strings are the byte lists that [Sds.sds_repr] relates to buffers. *)
From S2P Require Import Prelude Util Sds.

(** ** Comparison *)

(** The sign of [memcmp] on blocks of the same size. *)
Fixpoint memcmp (a b : list Z) : Z :=
  match a, b with
  | x :: a, y :: b => if bool_decide (x = y) then memcmp a b else x - y
  | _, _ => 0
  end.

Definition sdscmp (s1 s2 : sds) : Z :=
  let l1 := sdslen s1 in
  let l2 := sdslen s2 in
  let minlen := if bool_decide (l1 < l2) then l1 else l2 in
  let cmp := memcmp (take (Z.to_nat minlen) (buf s1)) (take (Z.to_nat minlen) (buf s2)) in
  if bool_decide (cmp = 0) then swrap 32 (uwrap 64 (l1 - l2)) else cmp.

(** ** Splitting on a separator *)

(** One iteration of the loop of [sdssplitlen]; state [start], [j], and the
    tokens found. *)
Definition split_step (s sep : list Z) (st : nat * nat * list (list Z))
    : ctl (nat * nat * list (list Z)) (nat * list (list Z)) :=
  let '(start, j, tokens) := st in
  if bool_decide (Z.of_nat j < zlen s - (zlen sep - 1)) then
    if bool_decide ((length sep = 1%nat /\ nth j s 0 = nth 0 sep 0) \/ mem_read j (length sep) s = sep)
    then Continue ((j + length sep)%nat, (j + length sep - 1 + 1)%nat,
                   tokens ++ [mem_read start (j - start) s])
    else Continue (start, (j + 1)%nat, tokens)
  else Break (start, tokens).

(** The inner [None] is the NULL result; the outer one means not enough fuel. *)
Definition sdssplitlen (s sep : list Z) : option (option (list (list Z))) :=
  if bool_decide (zlen sep < 1) then Some None
  else if bool_decide (zlen s = 0) then Some (Some [])
  else
    '(start, tokens) ← loop (S (length s)) (split_step s sep) (0%nat, 0%nat, []);
    Some (Some (tokens ++ [mem_read start (length s - start) s])).

(** ** Quoting *)

(** [sprintf("%02x")]. *)
Definition hex_char (d : Z) : Z := if bool_decide (d < 10) then 48 + d else 87 + d.

(** What [sdscatrepr] appends for one byte. *)
Definition repr_char (c : Z) : list Z :=
  if bool_decide (c = 92 \/ c = 34) then [92; c]
  else if bool_decide (c = 10) then [92; 110]
  else if bool_decide (c = 13) then [92; 114]
  else if bool_decide (c = 9) then [92; 116]
  else if bool_decide (c = 7) then [92; 97]
  else if bool_decide (c = 8) then [92; 98]
  else if isprint c then [c]
  else [92; 120; hex_char (c / 16); hex_char (c mod 16)].

Definition sdscatrepr (junk : nat -> Z) (s : sds) (p : list Z) : sds :=
  sdscatlen junk (foldl (fun s c => sdscatlen junk s (repr_char c)) (sdscatlen junk s [34]) p) [34].

Definition is_hex_digit (c : Z) : bool :=
  bool_decide (48 <= c <= 57 \/ 97 <= c <= 102 \/ 65 <= c <= 70).

Definition hex_digit_to_int (c : Z) : Z :=
  if bool_decide (48 <= c <= 57) then c - 48
  else if bool_decide (97 <= c <= 102) then c - 87
  else if bool_decide (65 <= c <= 70) then c - 55
  else 0.

(** The character after a backslash inside double quotes. *)
Definition unescape (c : Z) : Z :=
  if bool_decide (c = 110) then 10
  else if bool_decide (c = 114) then 13
  else if bool_decide (c = 116) then 9
  else if bool_decide (c = 98) then 8
  else if bool_decide (c = 97) then 7
  else c.

(** Where the tokenizer is: outside quotes, in double or in single quotes
    (the flags [inq] and [insq]). *)
Inductive quote_mode := Unquoted | Inq | Insq.

(** [*(p+i)] in a C string: 0 at its end. *)
Abbreviation char_at p i := (nth i p 0).

(** One iteration of the loop that reads a token.  The state is the mode, the
    rest of the line and the token so far; the loop leaves with the token and
    the rest, or [None] for [goto err]. *)
Definition token_step (st : quote_mode * list Z * list Z)
    : ctl (quote_mode * list Z * list Z) (option (list Z * list Z)) :=
  let '(m, p, current) := st in
  let c := char_at p 0 in
  match m with
  | Inq =>
      if bool_decide (c = 92 /\ char_at p 1 = 120) && is_hex_digit (char_at p 2) && is_hex_digit (char_at p 3)
      then Continue (Inq, drop 4 p,
             current ++ [uwrap 8 (hex_digit_to_int (char_at p 2) * 16 + hex_digit_to_int (char_at p 3))])
      else if bool_decide (c = 92 /\ char_at p 1 <> 0)
      then Continue (Inq, drop 2 p, current ++ [unescape (char_at p 1)])
      else if bool_decide (c = 34) then
        if bool_decide (char_at p 1 <> 0) && negb (isspace (char_at p 1)) then Break None
        else Break (Some (current, drop 1 p))
      else if bool_decide (c = 0) then Break None
      else Continue (Inq, drop 1 p, current ++ [c])
  | Insq =>
      if bool_decide (c = 92 /\ char_at p 1 = 39) then Continue (Insq, drop 2 p, current ++ [39])
      else if bool_decide (c = 39) then
        if bool_decide (char_at p 1 <> 0) && negb (isspace (char_at p 1)) then Break None
        else Break (Some (current, drop 1 p))
      else if bool_decide (c = 0) then Break None
      else Continue (Insq, drop 1 p, current ++ [c])
  | Unquoted =>
      if bool_decide (c ∈ [32; 10; 13; 9; 0]) then Break (Some (current, drop 1 p))
      else if bool_decide (c = 34) then Continue (Inq, drop 1 p, current)
      else if bool_decide (c = 39) then Continue (Insq, drop 1 p, current)
      else Continue (Unquoted, drop 1 p, current ++ [c])
  end.

(** One iteration of the outer loop: skip blanks, then read a token. [None]
    inside [Break] is the NULL result of an error, [None] outside it means not
    enough fuel. *)
Definition args_step (st : list Z * list (list Z))
    : ctl (list Z * list (list Z)) (option (option (list (list Z)))) :=
  let '(p, vector) := st in
  let p := drop_while isspace p in
  match p with
  | [] => Break (Some (Some vector))
  | _ =>
      match loop (S (length p)) token_step (Unquoted, p, []) with
      | None => Break None
      | Some None => Break (Some None)
      | Some (Some (current, p)) => Continue (p, vector ++ [current])
      end
  end.

Definition sdssplitargs (line : list Z) : option (option (list (list Z))) :=
  mjoin (loop (S (length line)) args_step (c_str line, [])).

(** * Correctness *)

(** ** Comparison *)

(** Lexicographic order on bytes. *)
Fixpoint lex_compare (a b : list Z) : comparison :=
  match a, b with
  | [], [] => Eq
  | [], _ :: _ => Lt
  | _ :: _, [] => Gt
  | x :: a, y :: b => match Z.compare x y with Eq => lex_compare a b | c => c end
  end.

Lemma memcmp_lex l1 l2 :
  let n := (length l1 `min` length l2)%nat in
  (memcmp (take n l1) (take n l2) ?= 0) =
    match lex_compare l1 l2 with
    | Lt => if bool_decide (memcmp (take n l1) (take n l2) = 0) then Eq else Lt
    | Gt => if bool_decide (memcmp (take n l1) (take n l2) = 0) then Eq else Gt
    | Eq => Eq
    end /\
  (memcmp (take n l1) (take n l2) = 0 -> lex_compare l1 l2 = Nat.compare (length l1) (length l2)).
Proof.
  revert l2. induction l1 as [|x l1 IH]; intros [|y l2]; try (split; done).
  cbn [length Nat.min take memcmp lex_compare Nat.compare]. destruct (IH l2) as [IH1 IH2].
  destruct (decide (x = y)) as [->|Hxy].
  - rewrite (bool_decide_true (y = y)), Z.compare_refl by done. split; [apply IH1|apply IH2].
  - rewrite (bool_decide_false (x = y)) by done.
    destruct (Z.compare_spec x y); [done| |]; (rewrite bool_decide_false by lia; split; [|lia]).
    + apply Z.compare_lt_iff. lia.
    + apply Z.compare_gt_iff. lia.
Qed.

(** The sign of [sdscmp] is the lexicographic order of the strings as
    sequences of unsigned bytes, a proper prefix coming first. *)
Theorem sdscmp_lexicographic s1 s2 l1 l2 :
  sds_repr s1 l1 -> sds_repr s2 l2 -> (sdscmp s1 s2 ?= 0) = lex_compare l1 l2.
Proof.
  intros H1 H2. unfold sdscmp. rewrite (repr_sdslen _ _ H1), (repr_sdslen _ _ H2).
  assert ((if bool_decide (zlen l1 < zlen l2) then zlen l1 else zlen l2) =
    Z.of_nat (length l1 `min` length l2)) as -> by (case_bool_decide; lia).
  rewrite Nat2Z.id.
  assert (forall s l, sds_repr s l -> (length l1 `min` length l2 <= length l)%nat ->
    take (length l1 `min` length l2) (buf s) = take (length l1 `min` length l2) l) as Ht.
  { intros s l Hr Hle. rewrite <- (repr_text _ _ Hr). by rewrite take_take, (Nat.min_l _ (length l)). }
  rewrite (Ht s1 l1 H1), (Ht s2 l2 H2) by lia.
  destruct (memcmp_lex l1 l2) as [Hc He]. case_bool_decide as Hz.
  - rewrite He by done. pose proof (repr_cap _ _ H1). pose proof (repr_cap _ _ H2).
    pose proof (repr_len _ _ H1). pose proof (repr_len _ _ H2).
    pose proof (repr_free _ _ H1). pose proof (repr_free _ _ H2). unfold sds_cap in *.
    rewrite swrap_uwrap_small by (unfold srange; change (32 - 1) with 31; lia).
    rewrite <- Nat2Z.inj_compare. destruct (Z.compare_spec (zlen l1) (zlen l2));
      [apply Z.compare_eq_iff|apply Z.compare_lt_iff|apply Z.compare_gt_iff]; lia.
  - rewrite Hc, ?bool_decide_false by done. destruct (lex_compare l1 l2) eqn:Hl; try done.
Qed.

Lemma sdscmp_lexicographic_witness :
  let s1 := sdsnewlen (fun _ => 7) (Some [97; 200]) 2 in
  let s2 := sdsnewlen (fun _ => 7) (Some [97; 98; 99]) 3 in
  (sdscmp s1 s2 ?= 0) = Gt.
Proof.
  apply (sdscmp_lexicographic _ _ [97; 200] [97; 98; 99]);
    [apply (sdsnewlen_spec _ [97; 200])|apply (sdsnewlen_spec _ [97; 98; 99])];
    by vm_compute.
Defined.

(** ** Splitting on a separator *)

(** The tokens with the separator between them. *)
Fixpoint join_with (sep : list Z) (tokens : list (list Z)) : list Z :=
  match tokens with
  | [] => []
  | [t] => t
  | t :: tokens => t ++ sep ++ join_with sep tokens
  end.

Definition occurs_at (sep l : list Z) (i : nat) : Prop := mem_read i (length sep) l = sep.
Definition contains (sep l : list Z) : Prop := exists i, occurs_at sep l i.

Lemma join_with_snoc sep tokens t :
  join_with sep (tokens ++ [t]) = mjoin ((fun u => u ++ sep) <$> tokens) ++ t.
Proof.
  induction tokens as [|u tokens IH]; [done|]. rewrite fmap_cons. cbn [app].
  destruct (tokens ++ [t]) as [|v rest] eqn:Heq; [by destruct tokens|].
  cbn [join_with] in *. rewrite IH. simpl. by rewrite <- !app_assoc.
Qed.

Lemma occurs_at_bound sep l i : sep <> [] -> occurs_at sep l i -> (i + length sep <= length l)%nat.
Proof.
  unfold occurs_at, mem_read. intros Hne Ho.
  assert (length (take (length sep) (drop i l)) = length sep) as Hl by (by rewrite Ho).
  rewrite length_take, length_drop in Hl.
  assert (0 < length sep)%nat by (destruct sep; [done|simpl; lia]). lia.
Qed.

Lemma mem_read_mem_read a n b m (l : list Z) :
  (b + m <= n)%nat -> mem_read b m (mem_read a n l) = mem_read (a + b) m l.
Proof. intros. unfold mem_read at 2. rewrite mem_read_take by done. unfold mem_read. by rewrite drop_drop. Qed.

Lemma not_contains_between sep l start j :
  sep <> [] -> (j <= length l)%nat ->
  (forall i, (start <= i < j)%nat -> (i + length sep <= j)%nat -> ~ occurs_at sep l i) ->
  ~ contains sep (mem_read start (j - start) l).
Proof.
  intros Hne Hj Hno [i Hi]. pose proof (occurs_at_bound _ _ _ Hne Hi) as Hb.
  assert (length (mem_read start (j - start) l) <= j - start)%nat
    by (unfold mem_read; rewrite length_take; lia).
  assert (0 < length sep)%nat by (destruct sep; [done|simpl; lia]).
  apply (Hno (start + i)%nat); [lia|lia|].
  unfold occurs_at in *. rewrite mem_read_mem_read in Hi by lia. done.
Qed.

Section Split.
Context (s sep : list Z) (Hsep : sep <> []).

(** The invariant of the loop: what was cut off, and no separator since. *)
Definition split_inv (st : nat * nat * list (list Z)) : Prop :=
  let '(start, j, tokens) := st in
  (start <= j)%nat /\ (start <= length s)%nat /\
  mjoin ((fun u => u ++ sep) <$> tokens) = take start s /\
  Forall (fun t => ~ contains sep t) tokens /\
  (forall i, (start <= i < j)%nat -> ~ occurs_at sep s i).

Definition split_post (r : nat * list (list Z)) : Prop :=
  let '(start, tokens) := r in
  join_with sep (tokens ++ [mem_read start (length s - start) s]) = s /\
  Forall (fun t => ~ contains sep t) (tokens ++ [mem_read start (length s - start) s]).

Lemma split_step_spec st :
  split_inv st ->
  match split_step s sep st with
  | Continue st' => split_inv st' /\ (length s - st'.1.2 < length s - st.1.2)%nat
  | Break r => split_post r
  end.
Proof.
  destruct st as [[start j] tokens]. intros (Hsj & Hstart & Hjoin & Htok & Hno).
  unfold split_step.
  assert (0 < length sep)%nat as Hn by (destruct sep; [done|simpl; lia]). case_bool_decide as Hj.
  - assert (j < length s)%nat by lia. case_bool_decide as Hm.
    + assert (occurs_at sep s j) as Ho.
      { unfold occurs_at. destruct Hm as [[H1 H2]|Hm]; [|done].
        destruct sep as [|x [|]]; [done| |done]. simpl in *. unfold mem_read.
        destruct (lookup_lt_is_Some_2 s j) as [y Hy]; [done|].
        rewrite (drop_S _ _ _ Hy). simpl. rewrite (nth_lookup_Some _ _ _ _ Hy) in H2. by subst. }
      pose proof (occurs_at_bound _ _ _ Hsep Ho). split; [|simpl; lia].
      split_and!; [lia|lia| | |intros; lia].
      * rewrite fmap_app, join_app, Hjoin. simpl. rewrite app_nil_r. unfold occurs_at in Ho.
        rewrite <- Ho at 1. unfold mem_read. rewrite app_assoc, take_take_drop.
        replace (start + (j - start))%nat with j by lia. apply take_take_drop.
      * apply Forall_app; split; [done|]. constructor; [|done].
        apply not_contains_between; [done|lia|]. intros i Hi _. by apply Hno.
    + split; [|simpl; lia]. split_and!; [lia|lia|done|done|].
      intros i Hi. destruct (decide (i = j)) as [->|]; [|apply Hno; lia].
      intros Ho. apply Hm. by right.
  - assert (~ contains sep (mem_read start (length s - start) s)) as Hlast.
    { apply not_contains_between; [done|lia|]. intros i Hi Hb. apply Hno. lia. }
    split.
    + rewrite join_with_snoc, Hjoin. unfold mem_read.
      rewrite (take_ge (drop start s)) by (rewrite length_drop; lia). apply take_drop.
    + apply Forall_app; split; [done|]. by constructor.
Qed.

(** [sdssplitlen] terminates; for a non-empty string and separator it
    returns tokens that give back the string when joined with the separator,
    and none of which contains the separator: no occurrence is missed and no
    byte is lost, also for separators of several bytes that overlap. *)
Theorem sdssplitlen_spec :
  s <> [] ->
  exists tokens, sdssplitlen s sep = Some (Some tokens) /\
    join_with sep tokens = s /\ Forall (fun t => ~ contains sep t) tokens.
Proof.
  intros Hs. unfold sdssplitlen.
  assert (0 < length sep)%nat by (destruct sep; [done|simpl; lia]).
  assert (0 < length s)%nat by (destruct s; [done|simpl; lia]).
  rewrite !bool_decide_false by lia.
  destruct (loop_spec split_inv (fun st => (length s - st.1.2)%nat) split_post
    (split_step s sep) (S (length s)) (0%nat, 0%nat, [])) as ([start tokens] & -> & Hj & Hf).
  - apply split_step_spec.
  - split_and!; [lia|lia|done|done|intros; lia].
  - simpl. lia.
  - by eexists.
Qed.

End Split.

Lemma sdssplitlen_spec_witness :
  exists tokens, sdssplitlen [97; 45; 45; 45; 98] [45; 45] = Some (Some tokens) /\
    join_with [45; 45] tokens = [97; 45; 45; 45; 98] /\ Forall (fun t => ~ contains [45; 45] t) tokens.
Proof. by apply (sdssplitlen_spec [97; 45; 45; 45; 98] [45; 45]). Defined.

(** ** Quoting *)

Definition quote (p : list Z) : list Z := 34 :: flat_map repr_char p ++ [34].

Lemma fold_repr_spec junk p s l :
  sds_repr s l -> zlen l + zlen (flat_map repr_char p) <= sds_max ->
  sds_repr (foldl (fun s c => sdscatlen junk s (repr_char c)) s p) (l ++ flat_map repr_char p).
Proof.
  revert s l. induction p as [|c p IH]; intros s l Hs Hmax; simpl in *; [by rewrite app_nil_r|].
  rewrite length_app in Hmax. rewrite app_assoc. apply IH.
  - apply sdscatlen_spec; [done|lia].
  - rewrite length_app. lia.
Qed.

Lemma sdscatrepr_spec junk s l p :
  sds_repr s l -> zlen l + zlen (quote p) <= sds_max ->
  sds_repr (sdscatrepr junk s p) (l ++ quote p).
Proof.
  unfold quote. intros Hs Hmax. simpl in Hmax. rewrite length_app in Hmax. simpl in Hmax.
  assert (sds_repr (sdscatlen junk s [34]) (l ++ [34])) as H1
    by (apply sdscatlen_spec; [done|simpl; lia]).
  apply (fold_repr_spec junk p) in H1; [|rewrite length_app; simpl; lia].
  apply (sdscatlen_spec junk _ _ [34]) in H1; [|rewrite !length_app; simpl; lia].
  unfold sdscatrepr. by rewrite <- !app_assoc in H1.
Qed.

Lemma hex_char_spec d :
  0 <= d < 16 -> is_hex_digit (hex_char d) = true /\ hex_digit_to_int (hex_char d) = d.
Proof.
  unfold is_hex_digit, hex_digit_to_int, hex_char. intros Hd.
  destruct (decide (d < 10)).
  - rewrite !(bool_decide_true (d < 10)), !bool_decide_true by lia. split; [done|lia].
  - rewrite !(bool_decide_false (d < 10)), (bool_decide_false (48 <= 87 + d <= 57)), !bool_decide_true by lia.
    split; [done|lia].
Qed.

(** The tokenizer reads back what [sdscatrepr] writes for a byte. *)
Lemma token_step_repr c k current :
  is_byte c -> token_step (Inq, repr_char c ++ k, current) = Continue (Inq, k, current ++ [c]).
Proof.
  intros Hc. unfold urange in Hc. unfold repr_char.
  destruct (decide (c = 92 \/ c = 34)) as [[-> | ->]|H1]; [done|done|].
  rewrite (bool_decide_false (c = 92 \/ c = 34)) by done.
  destruct (decide (c = 10)) as [->|]; [done|]. destruct (decide (c = 13)) as [->|]; [done|].
  destruct (decide (c = 9)) as [->|]; [done|]. destruct (decide (c = 7)) as [->|]; [done|].
  destruct (decide (c = 8)) as [->|]; [done|].
  rewrite !bool_decide_false by done. destruct (isprint c) eqn:Hp.
  - apply bool_decide_eq_true in Hp. unfold token_step. cbn [app nth drop].
    rewrite (bool_decide_false (c = 92 /\ _)) by (intros [? _]; lia). cbn [andb].
    rewrite (bool_decide_false (c = 92 /\ _)) by (intros [? _]; lia).
    by rewrite (bool_decide_false (c = 34)), (bool_decide_false (c = 0)) by lia.
  - destruct (hex_char_spec (c / 16)) as [Hx1 Hx2].
    { split; [apply Z.div_pos; lia|apply Z.div_lt_upper_bound; lia]. }
    destruct (hex_char_spec (c mod 16)) as [Hy1 Hy2]; [apply Z.mod_pos_bound; lia|].
    unfold token_step. cbn [app nth drop]. rewrite Hx1, Hy1, Hx2, Hy2. simpl.
    rewrite uwrap_small; rewrite Z.mul_comm, <- Z.div_mod by lia; done.
Qed.

Lemma repr_char_nonempty c : (1 <= length (repr_char c))%nat.
Proof. unfold repr_char. repeat case_bool_decide; simpl; try lia. destruct (isprint c); simpl; lia. Qed.

Lemma quoted_token t rest current fuel :
  bytes_ok t -> (forall c, head rest = Some c -> isspace c = true) -> (length t < fuel)%nat ->
  loop fuel token_step (Inq, flat_map repr_char t ++ 34 :: rest, current) =
    Some (Some (current ++ t, rest)).
Proof.
  intros Ht Hrest. revert current fuel. induction Ht as [|c t Hc Ht IH]; intros current [|fuel] Hf;
    simpl in Hf; try lia.
  - cbn [loop flat_map app]. rewrite app_nil_r. unfold token_step.
    cbn [nth drop]. rewrite !(bool_decide_false (34 = 92 /\ _)) by (by intros []). cbn [andb].
    rewrite (bool_decide_true (34 = 34)) by done. destruct rest as [|c rest]; [done|]. cbn [nth].
    rewrite (Hrest c) by done. by rewrite andb_false_r.
  - cbn [flat_map loop]. rewrite <- app_assoc.
    rewrite token_step_repr by done. rewrite IH by lia. by rewrite <- app_assoc.
Qed.

Definition spaced (args : list (list Z)) : list Z := join_with [32] (quote <$> args).

Lemma args_step_quoted t rest vector :
  bytes_ok t -> (forall c, head rest = Some c -> isspace c = true) ->
  args_step (quote t ++ rest, vector) = Continue (rest, vector ++ [t]).
Proof.
  intros Ht Hrest. unfold args_step, quote. cbn [app drop_while].
  change (isspace 34) with false. cbv iota. rewrite <- app_assoc. cbn [app].
  assert (length t <= length (flat_map repr_char t))%nat as Hl.
  { clear. induction t as [|c t IH]; [done|]. simpl. rewrite length_app.
    pose proof (repr_char_nonempty c). lia. }
  cbn [length]. rewrite loop_S. cbn [token_step nth drop].
  rewrite (bool_decide_false (34 ∈ _)) by (by apply (bool_decide_unpack _); vm_compute).
  rewrite (bool_decide_true (34 = 34)) by done. cbv beta iota.
  rewrite drop_0, quoted_token; [done|done|done|]. rewrite length_app. simpl. lia.
Qed.

Lemma args_loop_quoted args vector fuel :
  Forall bytes_ok args -> (length args < fuel)%nat ->
  loop fuel args_step (spaced args, vector) = Some (Some (Some (vector ++ args))).
Proof.
  intros Hargs. revert vector fuel. induction Hargs as [|t args Ht Hargs IH]; intros vector [|fuel] Hf;
    simpl in Hf; try lia.
  - cbn. by rewrite app_nil_r.
  - cbn [loop]. unfold spaced in *. rewrite fmap_cons.
    destruct args as [|u args].
    + cbn [fmap list_fmap join_with]. rewrite <- (app_nil_r (quote t)), args_step_quoted by done.
      destruct fuel; [lia|]. done.
    + rewrite fmap_cons in *. cbn [join_with] in *.
      rewrite args_step_quoted by (done || by intros ? [= <-]).
      assert (forall r v, args_step ([32] ++ r, v) = args_step (r, v)) as Hsp by done.
      destruct fuel as [|fuel]; [simpl in Hf; lia|]. cbn [loop]. rewrite Hsp.
      rewrite (IH (vector ++ [t]) (S fuel)) at 1; [|simpl in *; lia]. by rewrite <- app_assoc.
Qed.

Lemma c_str_nonzero l : Forall (fun c => c <> 0) (c_str l).
Proof. induction l; simpl; [done|]. case_bool_decide; by constructor. Qed.

Lemma c_str_id l r : Forall (fun c => c <> 0) l -> c_str (l ++ 0 :: r) = l.
Proof. induction 1 as [|c l Hc _ IH]; [done|]. simpl. by rewrite bool_decide_false, IH. Qed.

Lemma hex_char_pos d : 0 <= d -> 0 < hex_char d.
Proof. unfold hex_char. intros. case_bool_decide; lia. Qed.

Lemma repr_char_nonzero c : is_byte c -> Forall (fun c => c <> 0) (repr_char c).
Proof.
  unfold urange, repr_char. intros Hc.
  case_bool_decide; [repeat constructor; lia|]. repeat (case_bool_decide; [by repeat constructor|]).
  destruct (isprint c) eqn:Hp.
  - apply bool_decide_eq_true in Hp. repeat constructor. lia.
  - pose proof (hex_char_pos (c / 16) ltac:(apply Z.div_pos; lia)).
    pose proof (hex_char_pos (c mod 16) ltac:(apply Z.mod_pos_bound; lia)).
    repeat constructor; lia.
Qed.

Lemma quote_nonzero p : bytes_ok p -> Forall (fun c => c <> 0) (quote p).
Proof.
  intros Hp. unfold quote. constructor; [done|]. apply Forall_app; split; [|by repeat constructor].
  induction Hp; simpl; [done|]. apply Forall_app; split; [by apply repr_char_nonzero|done].
Qed.

Lemma spaced_nonzero args : Forall bytes_ok args -> Forall (fun c => c <> 0) (spaced args).
Proof.
  unfold spaced. induction 1 as [|t args Ht _ IH]; [done|]. rewrite fmap_cons.
  destruct args as [|u args]; [by apply quote_nonzero|]. rewrite fmap_cons in *.
  cbn [join_with] in *. apply Forall_app; split; [by apply quote_nonzero|].
  apply Forall_app; split; [by repeat constructor|done].
Qed.

(** The loop of [replicationFeedMonitors] over string arguments. *)
Fixpoint feed_args (junk : nat -> Z) (cmdrepr : sds) (argv : list (list Z)) : sds :=
  match argv with
  | [] => cmdrepr
  | [a] => sdscatrepr junk cmdrepr a
  | a :: argv => feed_args junk (sdscatlen junk (sdscatrepr junk cmdrepr a) [32]) argv
  end.

Lemma feed_args_spec junk s l argv :
  sds_repr s l -> zlen l + zlen (spaced argv) <= sds_max ->
  sds_repr (feed_args junk s argv) (l ++ spaced argv).
Proof.
  unfold spaced. revert s l. induction argv as [|a argv IH]; intros s l Hs Hmax.
  { by rewrite app_nil_r. }
  rewrite fmap_cons in *. destruct argv as [|b argv]; [by apply sdscatrepr_spec|].
  rewrite fmap_cons in *. cbn [feed_args join_with] in *. rewrite !length_app in Hmax.
  rewrite app_assoc, (app_assoc _ [32]). apply IH.
  - apply sdscatlen_spec; [apply sdscatrepr_spec; [done|lia]|rewrite length_app; simpl in *; lia].
  - rewrite !length_app. simpl in *. lia.
Qed.

Lemma length_spaced args : (length args <= length (spaced args))%nat.
Proof.
  unfold spaced. induction args as [|t args IH]; [done|]. rewrite fmap_cons.
  destruct args as [|u args]; [simpl; lia|]. rewrite fmap_cons in *. cbn [join_with] in *.
  rewrite !length_app. simpl in *. lia.
Qed.

(** C11: what is written in the quoted form of [sdscatrepr], arguments
    separated by a blank as [MONITOR] does it, is read back by [sdssplitargs]
    exactly, for arguments of arbitrary bytes (quotes, backslashes, control
    characters, NUL and bytes above 127 included, and empty arguments). *)
Theorem sdssplitargs_feed_args junk args :
  Forall bytes_ok args -> zlen (spaced args) <= sds_max ->
  sds_repr (feed_args junk (sdsempty junk) args) (spaced args) /\
  sdssplitargs (buf (feed_args junk (sdsempty junk) args)) = Some (Some args).
Proof.
  intros Hargs Hmax.
  pose proof (feed_args_spec junk _ [] args (sdsempty_spec junk) ltac:(simpl; lia)) as Hs.
  cbn [app] in Hs.
  split; [done|]. destruct (repr_app _ _ Hs) as [r ->]. unfold sdssplitargs.
  rewrite c_str_id by by apply spaced_nonzero. rewrite args_loop_quoted; [done|done|].
  rewrite !length_app. pose proof (length_spaced args). simpl. lia.
Qed.

Lemma sdssplitargs_feed_args_witness :
  sdssplitargs (buf (feed_args (fun _ => 7) (sdsempty (fun _ => 7)) [[83; 69; 84]; [0; 34; 255]; []])) =
    Some (Some [[83; 69; 84]; [0; 34; 255]; []]).
Proof.
  apply (sdssplitargs_feed_args (fun _ => 7) [[83; 69; 84]; [0; 34; 255]; []]).
  - by repeat constructor; vm_compute.
  - by vm_compute.
Defined.

(** ** Termination of the tokenizer *)

Lemma char_at_drop p i : char_at p i <> 0 -> (i < length p)%nat.
Proof. intros Hc. destruct (decide (i < length p)%nat); [done|]. by rewrite nth_overflow in Hc by lia. Qed.

Lemma hex_nonzero c : is_hex_digit c = true -> c <> 0.
Proof. unfold is_hex_digit. rewrite bool_decide_eq_true. lia. Qed.

(** Every non-zero character that was read is inside the line. *)
Ltac chars_inside :=
  repeat match goal with
  | H : _ /\ _ |- _ => destruct H
  | H : char_at ?p ?i <> 0 |- _ => apply char_at_drop in H
  | H : char_at ?p ?i = ?c |- _ =>
      assert (char_at p i <> 0) by (rewrite H; done); clear H
  end.

Lemma token_step_progress m p current :
  match token_step (m, p, current) with
  | Continue (_, p', _) => (length p' < length p)%nat
  | Break (Some (_, p')) => (length p' <= length p - 1)%nat
  | Break None => True
  end.
Proof.
  unfold token_step. assert (forall n, (length (drop n p) = length p - n)%nat) as Hd by apply length_drop.
  destruct m.
  - case_bool_decide as Hin; [rewrite Hd; lia|].
    assert (char_at p 0 <> 0) by (intros Hz; apply Hin; rewrite Hz; set_solver).
    repeat case_bool_decide; rewrite Hd; chars_inside; lia.
  - destruct (is_hex_digit (char_at p 3)) eqn:H3; [apply hex_nonzero in H3|];
      rewrite ?andb_false_r; try destruct (is_hex_digit _); try destruct (isspace _);
      repeat (case_bool_decide; cbn [andb negb]); rewrite ?Hd; try done; chars_inside; lia.
  - try destruct (isspace _); repeat (case_bool_decide; cbn [andb negb]);
      rewrite ?Hd; try done; chars_inside; lia.
Qed.

Lemma token_loop_total m p current fuel :
  (length p < fuel)%nat -> p <> [] ->
  exists r, loop fuel token_step (m, p, current) = Some r /\
    match r with Some (_, p') => (length p' < length p)%nat | None => True end.
Proof.
  intros Hf Hp.
  assert (forall fuel m p' current, (length p' < fuel)%nat -> (length p' < length p)%nat ->
    exists r, loop fuel token_step (m, p', current) = Some r /\
      match r with Some (_, p') => (length p' < length p)%nat | None => True end) as Hgen.
  { clear. intros fuel. induction fuel as [|fuel IH]; intros m p' current Hf Hlt; [lia|].
    rewrite loop_S. pose proof (token_step_progress m p' current) as Hs.
    destruct (token_step (m, p', current)) as [[[m' q] c']|[[c' q]|]].
    - apply IH; lia.
    - eexists; split; [done|]. simpl. lia.
    - eexists; split; done. }
  destruct fuel as [|fuel]; [lia|]. rewrite loop_S.
  pose proof (token_step_progress m p current) as Hs.
  destruct (token_step (m, p, current)) as [[[m' q] c']|[[c' q]|]].
  - apply Hgen; lia.
  - eexists; split; [done|]. destruct p; [done|]. simpl in *. lia.
  - eexists; split; done.
Qed.

(** The tokenizer always returns: a list of tokens, or the error. *)
Lemma sdssplitargs_total line : exists r, sdssplitargs line = Some r.
Proof.
  unfold sdssplitargs.
  destruct (loop_spec (fun st : list Z * list (list Z) => True) (fun st => length st.1)
    (fun r => exists x, r = Some x) args_step (S (length line)) (c_str line, [])) as (? & -> & r & ->);
    [|done| |by exists r].
  - intros [p vector] _. unfold args_step.
    pose proof (length_drop_while isspace p) as Hd.
    destruct (drop_while isspace p) as [|c q] eqn:Hq; [by eexists|].
    destruct (token_loop_total Unquoted (c :: q) [] (S (length (c :: q)))) as (r & -> & Hr); [lia|done|].
    destruct r as [[cur rest]|]; [|by eexists]. simpl in *. lia.
  - simpl. assert (length (c_str line) <= length line)%nat; [|lia].
    clear. induction line; simpl; [lia|]. case_bool_decide; simpl; lia.
Qed.
