(* ===== verification/Protocol.v ===== *)
(** * The request protocol ([networking.c])

    How the bytes of a connection become commands: the query buffer, the
    incremental parser of multi-bulk requests, the inline parser, the loop that
    runs the commands found, and the read handler.  The query buffer is the
    byte list that [Sds.sds_repr] relates to the dynamic string, so that
    [sdsrange] is [Sds.range_of].  A result [None] stands for a failed
    assertion of the code, or not enough fuel. *)
From S2P Require Import Prelude ClientFlags Util Sds SdsArgs.

Definition REDIS_INLINE_MAX_SIZE : Z := 1024 * 64.
Definition REDIS_MBULK_BIG_ARG : Z := 1024 * 32.
Definition REDIS_IOBUF_LEN : Z := 1024 * 16.
Definition REDIS_MAX_QUERYBUF_LEN : Z := 1024 * 1024 * 1024.

(** [REDIS_REQ_INLINE], [REDIS_REQ_MULTIBULK], or 0 while unknown. *)
Inductive req_type := ReqUnknown | ReqInline | ReqMultibulk.
#[export] Instance req_type_dec : EqDecision req_type.
Proof. solve_decision. Defined.

(** The protocol errors, by their message. *)
Inductive proto_error :=
| TooBigInlineRequest | UnbalancedQuotes | TooBigMbulkCount | InvalidMultibulkLength
| TooBigBulkCount | ExpectedDollar (got : Z) | InvalidBulkLength.

(** The part of [redisClient] the parser uses; [argc] is the length of
    [argv]. *)
Record client := Client {
  querybuf : list Z;
  reqtype : req_type;
  multibulklen : Z;
  bulklen : Z;
  argv : list (list Z);
  flags : Z;
  reply : list proto_error;
  repl_ack_time : Z;
  lastinteraction : Z;
  reploff : Z;
}.

Definition has_flag (c : client) (f : Z) : bool := bool_decide (Z.land (flags c) f <> 0).

Definition set_querybuf (q : list Z) (c : client) : client :=
  Client q (reqtype c) (multibulklen c) (bulklen c) (argv c) (flags c) (reply c)
    (repl_ack_time c) (lastinteraction c) (reploff c).
Definition set_reqtype (r : req_type) (c : client) : client :=
  Client (querybuf c) r (multibulklen c) (bulklen c) (argv c) (flags c) (reply c)
    (repl_ack_time c) (lastinteraction c) (reploff c).
Definition set_lengths (m b : Z) (a : list (list Z)) (c : client) : client :=
  Client (querybuf c) (reqtype c) m b a (flags c) (reply c)
    (repl_ack_time c) (lastinteraction c) (reploff c).
Definition set_flags (f : Z) (c : client) : client :=
  Client (querybuf c) (reqtype c) (multibulklen c) (bulklen c) (argv c) f (reply c)
    (repl_ack_time c) (lastinteraction c) (reploff c).
Definition addReplyError (e : proto_error) (c : client) : client :=
  Client (querybuf c) (reqtype c) (multibulklen c) (bulklen c) (argv c) (flags c) (reply c ++ [e])
    (repl_ack_time c) (lastinteraction c) (reploff c).
Definition set_repl_ack_time (t : Z) (c : client) : client :=
  Client (querybuf c) (reqtype c) (multibulklen c) (bulklen c) (argv c) (flags c) (reply c)
    t (lastinteraction c) (reploff c).

(** [strchr] from offset [pos]: the search stops at a NUL. *)
Fixpoint strchr_from (l : list Z) (ch : Z) (i : nat) : option nat :=
  match l with
  | [] => None
  | c :: l => if bool_decide (c = ch) then Some i
              else if bool_decide (c = 0) then None
              else strchr_from l ch (S i)
  end.
Definition strchr (l : list Z) (pos : nat) (ch : Z) : option nat := strchr_from (drop pos l) ch pos.

Definition trim_query (pos : Z) (c : client) : client :=
  set_querybuf (range_of (querybuf c) pos (-1)) c.

Definition resetClient (c : client) : client :=
  let c := set_reqtype ReqUnknown (set_lengths 0 (-1) [] c) in
  if has_flag c REDIS_MULTI then c
  else set_flags (Z.land (flags c) (Z.lnot REDIS_ASKING)) c.

Definition setProtocolError (c : client) (pos : Z) : client :=
  trim_query pos (set_flags (Z.lor (flags c) REDIS_CLOSE_AFTER_REPLY) c).

(** The flag of the parsers is true for [REDIS_OK]. [unixtime] is
    [server.unixtime]. *)
Definition processInlineBuffer (unixtime : Z) (c : client) : option (client * bool) :=
  match strchr (querybuf c) 0 10 with
  | None =>
      if bool_decide (zlen (querybuf c) > REDIS_INLINE_MAX_SIZE)
      then Some (setProtocolError (addReplyError TooBigInlineRequest c) 0, false)
      else Some (c, false)
  | Some newline =>
      let querylen := if bool_decide (newline <> 0%nat /\ nth (newline - 1) (querybuf c) 0 = 13)
                      then (newline - 1)%nat else newline in
      tokens ← sdssplitargs (take querylen (querybuf c));
      match tokens with
      | None => Some (setProtocolError (addReplyError UnbalancedQuotes c) 0, false)
      | Some tokens =>
          let c := if bool_decide (querylen = 0%nat) && has_flag c REDIS_SLAVE
                   then set_repl_ack_time unixtime c else c in
          let c := trim_query (Z.of_nat querylen + 2) c in
          Some (set_lengths (multibulklen c) (bulklen c) (filter (fun a => a <> []) tokens) c, true)
      end
  end.

(** How the loop over the arguments is left: [break], or [return REDIS_ERR]. *)
Inductive bulk_exit := BulkBreak (c : client) (pos : Z) | BulkError (c : client).

(** The part of an iteration that reads [$<len>\r\n]. *)
Definition read_bulk_header (c : client) (pos : Z) : ctl (client * Z) bulk_exit :=
  if bool_decide (bulklen c <> -1) then Continue (c, pos)
  else
    match strchr (querybuf c) (Z.to_nat pos) 13 with
    | None =>
        if bool_decide (zlen (querybuf c) > REDIS_INLINE_MAX_SIZE)
        then Break (BulkBreak (setProtocolError (addReplyError TooBigBulkCount c) 0) pos)
        else Break (BulkBreak c pos)
    | Some newline =>
        if bool_decide (Z.of_nat newline > zlen (querybuf c) - 2) then Break (BulkBreak c pos)
        else
          let got := nth (Z.to_nat pos) (querybuf c) 0 in
          if bool_decide (got <> 36)
          then Break (BulkError (setProtocolError (addReplyError (ExpectedDollar got) c) pos))
          else
            match string2ll (mem_read (Z.to_nat pos + 1) (newline - (Z.to_nat pos + 1)) (querybuf c)) with
            | Some ll =>
                if bool_decide (ll < 0 \/ ll > 512 * 1024 * 1024)
                then Break (BulkError (setProtocolError (addReplyError InvalidBulkLength c) pos))
                else
                  let pos := Z.of_nat newline + 2 in
                  let '(c, pos) := if bool_decide (ll >= REDIS_MBULK_BIG_ARG)
                                   then (trim_query pos c, 0) else (c, pos) in
                  Continue (set_lengths (multibulklen c) ll (argv c) c, pos)
            | None => Break (BulkError (setProtocolError (addReplyError InvalidBulkLength c) pos))
            end
    end.

(** The part that reads the argument itself: the query buffer becomes the
    argument when it holds nothing else, otherwise the argument is copied. *)
Definition read_bulk_arg (c : client) (pos : Z) : ctl (client * Z) bulk_exit :=
  if bool_decide (zlen (querybuf c) - pos < bulklen c + 2) then Break (BulkBreak c pos)
  else if bool_decide (pos = 0 /\ bulklen c >= REDIS_MBULK_BIG_ARG /\ zlen (querybuf c) = bulklen c + 2)
  then
    let arg := take (length (querybuf c) - 2) (querybuf c) in
    Continue (set_querybuf [] (set_lengths (multibulklen c - 1) (-1) (argv c ++ [arg]) c), 0)
  else
    let arg := mem_read (Z.to_nat pos) (Z.to_nat (bulklen c)) (querybuf c) in
    Continue (set_lengths (multibulklen c - 1) (-1) (argv c ++ [arg]) c, pos + bulklen c + 2).

Definition bulk_step (st : client * Z) : ctl (client * Z) bulk_exit :=
  let '(c, pos) := st in
  if bool_decide (multibulklen c = 0) then Break (BulkBreak c pos)
  else match read_bulk_header c pos with
       | Break r => Break r
       | Continue (c, pos) => read_bulk_arg c pos
       end.

(** From the loop to the end of [processMultibulkBuffer]. *)
Definition process_bulks (c : client) (pos : Z) : option (client * bool) :=
  r ← loop (S (Z.to_nat (multibulklen c))) bulk_step (c, pos);
  match r with
  | BulkError c => Some (c, false)
  | BulkBreak c pos =>
      let c := if bool_decide (pos <> 0) then trim_query pos c else c in
      Some (c, bool_decide (multibulklen c = 0))
  end.

Definition processMultibulkBuffer (c : client) : option (client * bool) :=
  if bool_decide (multibulklen c = 0) then
    if bool_decide (argv c <> []) then None
    else
      match strchr (querybuf c) 0 13 with
      | None =>
          if bool_decide (zlen (querybuf c) > REDIS_INLINE_MAX_SIZE)
          then Some (setProtocolError (addReplyError TooBigMbulkCount c) 0, false)
          else Some (c, false)
      | Some newline =>
          if bool_decide (Z.of_nat newline > zlen (querybuf c) - 2) then Some (c, false)
          else if bool_decide (nth 0 (querybuf c) 0 <> 42) then None
          else
            match string2ll (mem_read 1 (newline - 1) (querybuf c)) with
            | Some ll =>
                if bool_decide (ll > 1024 * 1024)
                then Some (setProtocolError (addReplyError InvalidMultibulkLength c) 0, false)
                else
                  let pos := Z.of_nat newline + 2 in
                  if bool_decide (ll <= 0) then Some (trim_query pos c, true)
                  else process_bulks (set_lengths ll (bulklen c) [] c) pos
            | None => Some (setProtocolError (addReplyError InvalidMultibulkLength c) 0, false)
            end
      end
  else if bool_decide (multibulklen c > 0) then process_bulks c 0 else None.

Section Server.
(** The rest of the server: its state, the current time, and
    [processCommand] ([redis.c]), whose flag is true for [REDIS_OK]. *)
Context {T : Type} (unixtime : Z) (processCommand : T -> client -> T * client * bool).

(** One iteration of [processInputBuffer]. *)
Definition input_step (st : T * client) : ctl (T * client) (option (T * client)) :=
  let '(t, c) := st in
  if bool_decide (querybuf c = []) then Break (Some (t, c))
  else if has_flag c REDIS_BLOCKED then Break (Some (t, c))
  else if has_flag c REDIS_CLOSE_AFTER_REPLY then Break (Some (t, c))
  else
    let c := match reqtype c with
             | ReqUnknown => set_reqtype (if bool_decide (nth 0 (querybuf c) 0 = 42)
                                          then ReqMultibulk else ReqInline) c
             | _ => c
             end in
    match (match reqtype c with
           | ReqInline => processInlineBuffer unixtime c
           | _ => processMultibulkBuffer c
           end) with
    | None => Break None
    | Some (c, false) => Break (Some (t, c))
    | Some (c, true) =>
        if bool_decide (argv c = []) then Continue (t, resetClient c)
        else
          let '(t, c, ok) := processCommand t c in
          Continue (t, if (ok : bool) then resetClient c else c)
    end.

Definition processInputBuffer (t : T) (c : client) : option (T * client) :=
  mjoin (loop (S (length (querybuf c))) input_step (t, c)).

(** What [read] gives: an error that says to retry, another error, the end of
    the connection, or bytes. *)
Inductive read_result := ReadAgain | ReadError | ReadEof | ReadBytes (l : list Z).

(** How many bytes [readQueryFromClient] asks for. *)
Definition query_readlen (c : client) : Z :=
  if bool_decide (reqtype c = ReqMultibulk /\ multibulklen c <> 0 /\ bulklen c <> -1 /\
                  bulklen c >= REDIS_MBULK_BIG_ARG)
  then
    let remaining := swrap 32 (uwrap 32 (bulklen c + 2) - zlen (querybuf c)) in
    if bool_decide (remaining < REDIS_IOBUF_LEN) then remaining else REDIS_IOBUF_LEN
  else REDIS_IOBUF_LEN.

(** [Some (_, None)] when the client is freed. *)
Definition readQueryFromClient (t : T) (c : client) (nread : read_result)
    : option (T * option client) :=
  match nread with
  | ReadAgain => Some (t, Some c)
  | ReadError | ReadEof => Some (t, None)
  | ReadBytes l =>
      let c := Client (querybuf c ++ l) (reqtype c) (multibulklen c) (bulklen c) (argv c) (flags c)
                 (reply c) (repl_ack_time c) unixtime
                 (if has_flag c REDIS_MASTER then reploff c + zlen l else reploff c) in
      if bool_decide (zlen (querybuf c) > REDIS_MAX_QUERYBUF_LEN) then Some (t, None)
      else '(t, c) ← processInputBuffer t c; Some (t, Some c)
  end.

End Server.

(** The multi-bulk form of a command, as [catAppendOnlyGenericCommand]
    ([aof.c]) writes it to the append-only file; lengths are printed into 31
    bytes of a local buffer. *)
Definition print_length (n : Z) : list Z := default [] (ll2string 31 n).

Definition cat_bulk (a : list Z) : list Z :=
  36 :: print_length (zlen a) ++ [13; 10] ++ a ++ [13; 10].

Definition catAppendOnlyGenericCommand (dst : list Z) (argv : list (list Z)) : list Z :=
  foldl (fun dst a => dst ++ cat_bulk a) (dst ++ 42 :: print_length (zlen argv) ++ [13; 10]) argv.

(** * Correctness *)

(** Reduces the fields of an updated client. *)
Ltac client_simpl :=
  cbn [fst snd querybuf reqtype multibulklen bulklen argv flags reply set_querybuf set_reqtype
       set_lengths set_flags addReplyError trim_query set_repl_ack_time app length] in *.

(** ** Searching and trimming the query buffer *)

Lemma strchr_from_app l s p ch tail i :
  l ++ s = p ++ ch :: tail -> Forall (fun c => c <> ch /\ c <> 0) p ->
  strchr_from l ch i = if bool_decide (length p < length l)%nat then Some (i + length p)%nat else None.
Proof.
  intros Heq Hp. revert l i Heq. induction Hp as [|x p [Hx Hz] Hp IH]; intros l i Heq.
  - destruct l as [|y l]; [done|]. simpl in *. injection Heq as -> _.
    rewrite !bool_decide_true by (done || lia). by rewrite Nat.add_0_r.
  - destruct l as [|y l]; [done|]. simpl in *. injection Heq as -> Heq.
    rewrite (bool_decide_false (x = ch)), (bool_decide_false (x = 0)) by done.
    rewrite IH by done. repeat case_bool_decide; try lia; [|done]. f_equal. lia.
Qed.

Lemma strchr_app l s p ch tail pos :
  drop pos l ++ s = p ++ ch :: tail -> Forall (fun c => c <> ch /\ c <> 0) p -> (pos <= length l)%nat ->
  strchr l pos ch = if bool_decide (pos + length p < length l)%nat then Some (pos + length p)%nat else None.
Proof.
  intros Heq Hp Hpos. unfold strchr. rewrite (strchr_from_app _ s p ch tail) by done.
  rewrite length_drop. repeat case_bool_decide; done || lia.
Qed.

Lemma range_to_end l pos : 0 <= pos -> range_of l pos (-1) = drop (Z.to_nat pos) l.
Proof.
  intros Hpos. unfold range_of. rewrite (bool_decide_false (pos < 0)) by lia.
  rewrite bool_decide_true by lia. unfold mem_read. apply take_ge. rewrite length_drop. lia.
Qed.

(** ** Printed lengths *)

Lemma print_length_spec n :
  0 <= n < 2 ^ 31 ->
  string2ll (print_length n) = Some n /\
  Forall (fun c => c <> 13 /\ c <> 0) (print_length n) /\
  (length (print_length n) <= 20)%nat.
Proof.
  intros Hn. destruct (string2ll_print 31 n) as (s & Hp & Hd & Hs);
    [lia|unfold srange; change (64 - 1) with 63; lia|].
  unfold print_length. rewrite Hp. simpl. destruct Hd as (l & Hl & Hv & ->).
  rewrite bool_decide_false by lia. split_and!.
  - by rewrite bool_decide_false in Hs by lia.
  - destruct Hl as [Hl _]. eapply Forall_impl; [exact Hl|]. simpl. intros c Hc. lia.
  - apply canonical_length; [done|]. lia.
Qed.

(** ** The commands on the wire *)

Definition bulks (args : list (list Z)) : list Z := flat_map cat_bulk args.
Definition multibulk (args : list (list Z)) : list Z :=
  42 :: print_length (zlen args) ++ 13 :: 10 :: bulks args.
Definition wire (cmds : list (list (list Z))) : list Z := flat_map multibulk cmds.

Lemma cat_multibulk dst args : catAppendOnlyGenericCommand dst args = dst ++ multibulk args.
Proof.
  unfold catAppendOnlyGenericCommand, multibulk, bulks.
  assert (forall dst, foldl (fun dst a => dst ++ cat_bulk a) dst args = dst ++ flat_map cat_bulk args) as Hf.
  { induction args as [|a args IH]; intros d; simpl; [by rewrite app_nil_r|].
    by rewrite IH, <- app_assoc. }
  rewrite Hf. rewrite <- !app_assoc. simpl. by rewrite <- app_assoc.
Qed.

(** The limits of the protocol. *)
Definition arg_ok (a : list Z) : Prop := zlen a <= 512 * 1024 * 1024.
Definition cmd_ok (args : list (list Z)) : Prop :=
  args <> [] /\ zlen args <= 1024 * 1024 /\ Forall arg_ok args.

(** What is still to come of a command of which the arguments [args] are not
    complete, the length of the first one having been read if [b <> -1]. *)
Definition pending (b : Z) (args : list (list Z)) : list Z :=
  match args with
  | [] => []
  | a :: args' => if bool_decide (b = -1) then bulks args else a ++ 13 :: 10 :: bulks args'
  end.

Definition bulklen_ok (b : Z) (args : list (list Z)) : Prop :=
  b = -1 \/ exists a args', args = a :: args' /\ b = zlen a.

(** The buffer is not longer than what the parser tolerates without finding
    the end of a line, unless it is filled with one large argument. *)
Definition buffer_ok (c : client) (pos : Z) : Prop :=
  zlen (querybuf c) <= REDIS_INLINE_MAX_SIZE \/
  (pos = 0 /\ REDIS_MBULK_BIG_ARG <= bulklen c /\ zlen (querybuf c) <= bulklen c + 2).

(** The fields the parser of a valid request leaves alone. *)
Definition same_conn (c c' : client) : Prop :=
  reqtype c' = reqtype c /\ flags c' = flags c /\ reply c' = reply c.

Section Bulks.
(** [s] are the bytes not yet received, [tl] what follows the command [cmd]. *)
Context (s tl : list Z) (cmd : list (list Z)) (c0 : client).
Context (Hcmd : Forall arg_ok cmd).

Record bulk_inv (st : client * Z) (args : list (list Z)) : Prop := {
  bi_pos : 0 <= st.2 <= zlen (querybuf st.1);
  bi_args : argv st.1 ++ args = cmd;
  bi_count : multibulklen st.1 = zlen args;
  bi_len : bulklen_ok (bulklen st.1) args;
  bi_data : drop (Z.to_nat st.2) (querybuf st.1) ++ s = pending (bulklen st.1) args ++ tl;
  bi_buf : buffer_ok st.1 st.2;
  bi_conn : same_conn c0 st.1;
}.

(** The loop stopped because the buffer ends inside a header, or inside an
    argument. *)
Definition starved (c : client) (pos : Z) (args : list (list Z)) : Prop :=
  match args with
  | a :: _ => if bool_decide (bulklen c = -1)
              then zlen (querybuf c) - pos < zlen (print_length (zlen a)) + 3
              else zlen (querybuf c) - pos < bulklen c + 2
  | [] => True
  end.

Lemma header_spec c pos a args :
  bulk_inv (c, pos) (a :: args) ->
  match read_bulk_header c pos with
  | Continue (c', pos') => bulk_inv (c', pos') (a :: args) /\ bulklen c' = zlen a
  | Break (BulkBreak c' pos') => c' = c /\ pos' = pos /\ starved c pos (a :: args)
  | Break (BulkError _) => False
  end.
Proof.
  intros [Hpos Hargs Hcount Hlen Hdata Hbuf Hconn]; cbn [fst snd] in *. unfold read_bulk_header.
  case_bool_decide as Hb.
  { split; [by constructor|]. destruct Hlen as [|(? & ? & [= <- <-] & ?)]; done. }
  assert (bulklen c = -1) as Hb' by (destruct (decide (bulklen c = -1)); done). clear Hb.
  rewrite Hb' in *. assert (Forall arg_ok (a :: args)) as Hok.
  { rewrite <- Hargs in Hcmd. by apply Forall_app in Hcmd as [_ ?]. }
  apply Forall_cons in Hok as [Ha Hok]. unfold arg_ok in Ha.
  destruct (print_length_spec (zlen a)) as (Hparse & Hchars & Hplen); [lia|].
  set (d := print_length (zlen a)) in *.
  assert (drop (Z.to_nat pos) (querybuf c) ++ s = (36 :: d) ++ 13 :: 10 :: a ++ 13 :: 10 :: bulks args ++ tl) as Hd.
  { rewrite Hdata. unfold pending. rewrite bool_decide_true by done. unfold bulks, cat_bulk. simpl. fold d.
    rewrite <- !app_assoc. simpl. by rewrite <- !app_assoc. }
  assert (zlen (querybuf c) <= REDIS_INLINE_MAX_SIZE) as Hshort
    by (destruct Hbuf as [|(? & ? & ?)]; unfold REDIS_MBULK_BIG_ARG in *; lia).
  rewrite (strchr_app _ s (36 :: d) 13 _ _ Hd) by (done || lia || (by constructor)).
  cbn [length]. set (nl := (Z.to_nat pos + S (length d))%nat).
  case_bool_decide as Hnl.
  2: { rewrite bool_decide_false by lia. split_and!; try done. unfold starved. rewrite Hb'.
       rewrite bool_decide_true by done. fold d. lia. }
  destruct (decide (Z.of_nat nl > zlen (querybuf c) - 2)).
  { rewrite bool_decide_true by done. split_and!; try done. unfold starved. rewrite Hb'.
    rewrite bool_decide_true by done. fold d. lia. }
  rewrite bool_decide_false by done.
  destruct (prefix_split _ _ (36 :: d ++ [13; 10]) (a ++ 13 :: 10 :: bulks args ++ tl)
    ltac:(rewrite Hd; simpl; by rewrite <- app_assoc)) as (q & Hq & Hqs).
  { rewrite length_drop. simpl. rewrite length_app. simpl. lia. }
  rewrite <- nth_drop_0, Hq. cbn [app nth]. rewrite bool_decide_false by (intros Hne; by apply Hne).
  replace (mem_read (Z.to_nat pos + 1) (nl - (Z.to_nat pos + 1)) (querybuf c)) with d.
  2: { unfold mem_read. rewrite <- drop_drop, Hq. replace (nl - _)%nat with (length d) by lia.
       cbn [app drop]. rewrite drop_0, <- app_assoc. by rewrite take_app_length. }
  rewrite Hparse, bool_decide_false by lia.
  assert (drop (Z.to_nat (Z.of_nat nl + 2)) (querybuf c) = q) as Hdrop.
  { replace (Z.to_nat (Z.of_nat nl + 2)) with (Z.to_nat pos + (length d + 3))%nat by lia.
    rewrite <- drop_drop, Hq. rewrite app_comm_cons, drop_app_length'; [done|].
    simpl. rewrite length_app. simpl. lia. }
  assert (bulklen_ok (zlen a) (a :: args)) as Hbl by (right; by exists a, args).
  assert (pending (zlen a) (a :: args) ++ tl = a ++ 13 :: 10 :: bulks args ++ tl) as Hpend.
  { unfold pending. rewrite bool_decide_false by lia. by rewrite <- app_assoc. }
  case_bool_decide; client_simpl; (split; [|done]); constructor; client_simpl; rewrite ?Hpend; try done; try lia.
  - by rewrite range_to_end, Hdrop by lia.
  - left. client_simpl. rewrite range_to_end, length_drop by lia. lia.
  - by rewrite Hdrop.
  - by left.
Qed.

Lemma pending_next args : pending (-1) args = bulks args.
Proof. by destruct args. Qed.

Lemma arg_spec c pos a args :
  bulk_inv (c, pos) (a :: args) -> bulklen c = zlen a ->
  match read_bulk_arg c pos with
  | Continue (c', pos') => bulk_inv (c', pos') args
  | Break (BulkBreak c' pos') => c' = c /\ pos' = pos /\ starved c pos (a :: args)
  | Break (BulkError _) => False
  end.
Proof.
  intros [Hpos Hargs Hcount Hlen Hdata Hbuf Hconn] Hb. client_simpl. unfold read_bulk_arg.
  assert (bulklen c <> -1) as Hne by lia.
  destruct (decide (zlen (querybuf c) - pos < bulklen c + 2)) as [Hlt|Hge].
  { rewrite bool_decide_true by done. split_and!; try done. unfold starved.
    by rewrite bool_decide_false. }
  rewrite bool_decide_false by done. unfold pending in Hdata.
  rewrite bool_decide_false in Hdata by done.
  destruct (prefix_split _ _ (a ++ [13; 10]) (bulks args ++ tl)
    ltac:(rewrite Hdata; rewrite <- !app_assoc; simpl; by rewrite <- ?app_assoc)) as (q & Hq & Hqs).
  { rewrite length_drop, length_app. simpl. lia. }
  assert (bulk_inv (set_lengths (multibulklen c - 1) (-1) (argv c ++ [a]) c, pos + bulklen c + 2) args \/
    (pos = 0 /\ bulklen c >= REDIS_MBULK_BIG_ARG /\ zlen (querybuf c) = bulklen c + 2)) as Hcopy.
  { destruct (decide (pos = 0 /\ bulklen c >= REDIS_MBULK_BIG_ARG /\ zlen (querybuf c) = bulklen c + 2))
      as [|Hn]; [by right|left].
    constructor; client_simpl; try lia; try done.
    - by rewrite <- app_assoc.
    - by left.
    - rewrite pending_next. replace (Z.to_nat (pos + bulklen c + 2)) with (Z.to_nat pos + (length a + 2))%nat by lia.
      rewrite <- drop_drop, Hq, drop_app_length'; [done|]. rewrite length_app. simpl. lia.
    - left. client_simpl. destruct Hbuf as [|(? & ? & ?)]; [done|]. exfalso. apply Hn. lia. }
  case_bool_decide as Hz.
  - destruct Hz as (-> & Hbig & Hsz). rewrite drop_0 in Hq.
    assert (q = []) as ->.
    { apply nil_length_inv. apply (f_equal length) in Hq. rewrite !length_app in Hq. simpl in Hq. lia. }
    assert (take (length (querybuf c) - 2) (querybuf c) = a) as ->.
    { rewrite Hq, app_nil_r, length_app. simpl. rewrite Nat.add_sub. by rewrite take_app_length. }
    constructor; client_simpl; try lia; try done.
    + by rewrite <- app_assoc.
    + by left.
    + by rewrite pending_next.
    + left. client_simpl. unfold REDIS_INLINE_MAX_SIZE. lia.
  - assert (mem_read (Z.to_nat pos) (Z.to_nat (bulklen c)) (querybuf c) = a) as ->.
    { unfold mem_read. rewrite Hq, <- app_assoc, Hb, Nat2Z.id. by rewrite take_app_length. }
    by destruct Hcopy.
Qed.

Definition bulk_post (r : bulk_exit) : Prop :=
  match r with
  | BulkBreak c pos => exists args, bulk_inv (c, pos) args /\ starved c pos args
  | BulkError _ => False
  end.

Lemma bulk_loop_spec c pos args :
  bulk_inv (c, pos) args ->
  exists r, loop (S (Z.to_nat (multibulklen c))) bulk_step (c, pos) = Some r /\ bulk_post r.
Proof.
  intros Hinv. apply (loop_spec (fun st => exists args, bulk_inv st args)
    (fun st => Z.to_nat (multibulklen st.1)) bulk_post); [|by exists args|simpl; lia].
  clear c pos args Hinv. intros [c pos] [args Hinv]. unfold bulk_step. pose proof (bi_count _ _ Hinv) as Hcount.
  client_simpl. destruct args as [|a args].
  { rewrite bool_decide_true by (simpl in *; lia). by exists []. }
  rewrite bool_decide_false by (cbn [length] in *; lia).
  pose proof (header_spec c pos a args Hinv) as Hh.
  destruct (read_bulk_header c pos) as [[c' pos']|[c' pos'|]]; [|by destruct Hh as (-> & -> & ?); exists (a :: args)|done].
  destruct Hh as [Hinv' Hb]. pose proof (arg_spec c' pos' a args Hinv' Hb) as Ha.
  pose proof (bi_count _ _ Hinv') as Hcount'. client_simpl.
  destruct (read_bulk_arg c' pos') as [[c'' pos'']|[c'' pos''|]];
    [|by destruct Ha as (-> & -> & ?); exists (a :: args)|done].
  split; [by exists args|]. pose proof (bi_count _ _ Ha). client_simpl. lia.
Qed.

(** The state between two calls of the parser. *)
Record parsing (c : client) (args : list (list Z)) : Prop := {
  pa_args : argv c ++ args = cmd;
  pa_count : multibulklen c = zlen args;
  pa_len : bulklen_ok (bulklen c) args;
  pa_data : querybuf c ++ s = pending (bulklen c) args ++ tl;
  pa_conn : same_conn c0 c;
}.

Lemma process_bulks_spec c pos args :
  bulk_inv (c, pos) args ->
  exists c' args', process_bulks c pos = Some (c', bool_decide (args' = [])) /\ parsing c' args' /\
    buffer_ok c' 0 /\ starved c' 0 args'.
Proof.
  intros Hinv. unfold process_bulks.
  destruct (bulk_loop_spec c pos args Hinv) as (r & -> & Hr). bind_simpl.
  destruct r as [c' pos'|c']; [|done]. destruct Hr as (args' & [Hpos Hargs Hcount Hlen Hdata Hbuf Hconn] & Hst).
  client_simpl. exists (if bool_decide (pos' <> 0) then trim_query pos' c' else c'), args'.
  assert (bool_decide (multibulklen (if bool_decide (pos' <> 0) then trim_query pos' c' else c') = 0) =
    bool_decide (args' = [])) as ->.
  { apply bool_decide_ext. case_bool_decide; client_simpl; rewrite Hcount; destruct args'; simpl; split; done || lia. }
  split; [done|]. destruct (decide (pos' = 0)) as [->|Hz].
  { rewrite bool_decide_false by (by intros []). split_and!; [by constructor|done|done]. }
  rewrite bool_decide_true by done. split_and!.
  - constructor; client_simpl; try done. by rewrite range_to_end by lia.
  - left. client_simpl. rewrite range_to_end, length_drop by lia.
    destruct Hbuf as [|(? & ? & ?)]; lia.
  - unfold starved in *. client_simpl. destruct args' as [|a args']; [done|].
    rewrite range_to_end, length_drop by lia. destruct (bool_decide _); lia.
Qed.
End Bulks.

Lemma multibulk_header cmd l :
  multibulk cmd ++ l = (42 :: print_length (zlen cmd)) ++ 13 :: 10 :: bulks cmd ++ l.
Proof. unfold multibulk. simpl. rewrite <- app_assoc. simpl. done. Qed.

(** The first call for a command: either its first line is not complete, or
    the parser is inside the command, or at its end. *)
Lemma processMultibulk_start s tl cmd c :
  cmd_ok cmd -> multibulklen c = 0 -> bulklen c = -1 -> argv c = [] ->
  querybuf c ++ s = multibulk cmd ++ tl -> zlen (querybuf c) <= REDIS_INLINE_MAX_SIZE ->
  (processMultibulkBuffer c = Some (c, false) /\
     zlen (querybuf c) < zlen (print_length (zlen cmd)) + 3) \/
  exists c' args, processMultibulkBuffer c = Some (c', bool_decide (args = [])) /\
    parsing s tl cmd c c' args /\ buffer_ok c' 0 /\ starved c' 0 args.
Proof.
  intros (Hne & Hcount & Hargs) Hm Hb Ha Hdata Hbuf. unfold processMultibulkBuffer.
  rewrite (bool_decide_true (multibulklen c = 0)) by done.
  rewrite (bool_decide_false (argv c <> [])) by (intros Hx; by apply Hx).
  destruct (print_length_spec (zlen cmd)) as (Hparse & Hchars & Hplen); [lia|].
  rewrite multibulk_header in Hdata. set (d := print_length (zlen cmd)) in *.
  rewrite (strchr_app _ s (42 :: d) 13 _ 0 Hdata) by (lia || (by constructor)).
  rewrite Nat.add_0_l. cbn [length].
  case_bool_decide as Hnl; [|left; rewrite bool_decide_false by lia; split; [done|lia]].
  destruct (decide (Z.of_nat (S (length d)) > zlen (querybuf c) - 2)).
  { left. rewrite bool_decide_true by done. split; [done|lia]. }
  right. rewrite bool_decide_false by done.
  destruct (prefix_split _ _ (42 :: d ++ [13; 10]) (bulks cmd ++ tl)
    ltac:(rewrite Hdata; simpl; by rewrite <- app_assoc)) as (q & Hq & Hqs).
  { simpl. rewrite length_app. simpl. lia. }
  assert (nth 0 (querybuf c) 0 = 42) as -> by (by rewrite Hq).
  rewrite bool_decide_false by (intros Hx; by apply Hx).
  replace (mem_read 1 (S (length d) - 1) (querybuf c)) with d.
  2: { unfold mem_read. rewrite Hq. cbn [app drop Nat.sub]. rewrite Nat.sub_0_r, drop_0, <- app_assoc.
       by rewrite take_app_length. }
  assert (0 < zlen cmd) by (destruct cmd; [done|simpl; lia]).
  rewrite Hparse, bool_decide_false, bool_decide_false by lia.
  apply (process_bulks_spec s tl cmd c Hargs _ _ cmd). constructor; client_simpl; try done; try lia.
  - by left.
  - rewrite Hb, pending_next. replace (Z.to_nat _) with (length d + 3)%nat by lia.
    rewrite Hq, app_comm_cons, drop_app_length'; [done|]. simpl. rewrite length_app. simpl. lia.
  - by left.
Qed.

(** ** Flags between commands *)

(** The client waits for something, or is to be closed: [processInputBuffer]
    leaves what follows in the buffer. *)
Definition halted (f : Z) : bool :=
  bool_decide (Z.land f REDIS_BLOCKED <> 0) || bool_decide (Z.land f REDIS_CLOSE_AFTER_REPLY <> 0).

(** What [resetClient] leaves of the flags. *)
Definition next_flags (f : Z) : Z := if bool_decide (Z.land f REDIS_MULTI <> 0) then f else Z.land f (Z.lnot REDIS_ASKING).

Lemma resetClient_flags c : flags (resetClient c) = next_flags (flags c).
Proof. unfold resetClient, next_flags, has_flag. client_simpl. by case_bool_decide. Qed.

Lemma halted_next f : halted (next_flags f) = halted f.
Proof. unfold next_flags. case_bool_decide; [done|]. unfold halted. by rewrite <- !Z.land_assoc. Qed.

Section Stream.
(** [run t f args] is what a command does to the server [t] and to the flags
    [f] of its client, and whether [processCommand] returns [REDIS_OK]. *)
Context {T : Type} (unixtime : Z) (run : T -> Z -> list (list Z) -> T * Z * bool).
Context (processCommand : T -> client -> T * client * bool).

(** [processCommand] looks at the arguments and the flags, and does not touch
    the query buffer. *)
Definition runs_commands : Prop := forall t c,
  let '(t', f', ok) := run t (flags c) (argv c) in
  exists c', processCommand t c = (t', c', ok) /\ flags c' = f' /\ querybuf c' = querybuf c /\ reply c' = reply c.

(** [REDIS_ERR] is returned when the client is to be closed. *)
Definition errors_close : Prop := forall t f a, let '(_, f', ok) := run t f a in ok = false -> halted f' = true.

(** A command, unless an earlier one blocks or closes the connection. *)
Definition run_one (st : T * Z) (a : list (list Z)) : T * Z :=
  if halted st.2 then st
  else let '(t, f, ok) := run st.1 st.2 a in (t, if (ok : bool) then next_flags f else f).
Definition execute (st : T * Z) (cmds : list (list (list Z))) : T * Z := foldl run_one st cmds.

Lemma execute_halted st cmds : halted st.2 = true -> execute st cmds = st.
Proof.
  intros Hh. unfold execute. induction cmds as [|a cmds IH]; [done|]. cbn [foldl].
  assert (run_one st a = st) as -> by (unfold run_one; by rewrite Hh). done.
Qed.

Context (Hrun : runs_commands) (Hclose : errors_close).
Context (t0 : T) (f0 : Z) (all : list (list (list Z))) (Hall : Forall cmd_ok all).

(** Nothing more will run. *)
Definition stopped (st : T * client) : Prop :=
  halted (flags st.2) = true /\ execute (t0, f0) all = (st.1, flags st.2) /\ reply st.2 = [].

(** Between two commands, [cmds] being still to come. *)
Record idle (s : list Z) (c : client) (cmds : list (list (list Z))) : Prop := {
  id_fields : multibulklen c = 0 /\ bulklen c = -1 /\ argv c = [];
  id_type : reqtype c = ReqUnknown \/ reqtype c = ReqMultibulk;
  id_data : querybuf c ++ s = wire cmds;
  id_buf : zlen (querybuf c) <= REDIS_INLINE_MAX_SIZE;
  id_conn : halted (flags c) = false /\ reply c = [];
}.

(** Inside the command [cmd], [args] being still to come. *)
Record busy (s : list Z) (c : client) (cmd : list (list Z)) (cmds : list (list (list Z)))
    (args : list (list Z)) : Prop := {
  bz_left : args <> [];
  bz_args : argv c ++ args = cmd;
  bz_count : multibulklen c = zlen args;
  bz_len : bulklen_ok (bulklen c) args;
  bz_type : reqtype c = ReqMultibulk;
  bz_data : querybuf c ++ s = pending (bulklen c) args ++ wire cmds;
  bz_buf : buffer_ok c 0;
  bz_conn : halted (flags c) = false /\ reply c = [];
}.

Inductive conn (s : list Z) : T * client -> Prop :=
| conn_idle t c done cmds : all = done ++ cmds -> execute (t0, f0) done = (t, flags c) -> idle s c cmds -> conn s (t, c)
| conn_busy t c done cmd cmds args : all = done ++ cmd :: cmds -> execute (t0, f0) done = (t, flags c) ->
    busy s c cmd cmds args -> conn s (t, c).

(** When the loop of [processInputBuffer] stops, the buffer has less than the
    next line, or the next argument. *)
Inductive quiet (s : list Z) : T * client -> Prop :=
| quiet_idle t c done cmds : all = done ++ cmds -> execute (t0, f0) done = (t, flags c) -> idle s c cmds ->
    match cmds with
    | [] => querybuf c = []
    | cmd :: _ => zlen (querybuf c) < zlen (print_length (zlen cmd)) + 3
    end -> quiet s (t, c)
| quiet_busy t c done cmd cmds args : all = done ++ cmd :: cmds -> execute (t0, f0) done = (t, flags c) ->
    busy s c cmd cmds args -> starved c 0 args -> quiet s (t, c).

Lemma multibulk_length cmd : zlen (print_length (zlen cmd)) + 3 <= zlen (multibulk cmd).
Proof. unfold multibulk. simpl. rewrite length_app. simpl. lia. Qed.

Lemma pending_length b args : args <> [] -> (0 < length (pending b args))%nat.
Proof.
  destruct args as [|a args]; [done|]. intros _. simpl. case_bool_decide; simpl; [lia|].
  rewrite length_app. simpl. lia.
Qed.

(** The end of a command: the client is reset for the next one. *)
Lemma command_done s c c' c2 cmd cmds :
  parsing s (wire cmds) cmd c c' [] -> buffer_ok c' 0 -> querybuf c2 = querybuf c' ->
  halted (flags c2) = false -> reply c2 = [] -> idle s (resetClient c2) cmds.
Proof.
  intros [Hargs Hcount Hlen Hdata (Ht & Hf & Hr)] Hbuf Hq Hflags Hreply.
  assert (querybuf (resetClient c2) = querybuf c2 /\ reply (resetClient c2) = reply c2 /\
    (multibulklen (resetClient c2) = 0 /\ bulklen (resetClient c2) = -1 /\ argv (resetClient c2) = []) /\
    reqtype (resetClient c2) = ReqUnknown) as (Hq2 & Hr2 & Hl2 & Ht2) by (unfold resetClient; by destruct (has_flag _ _)).
  constructor; [done|by left| | |].
  - by rewrite Hq2, Hq.
  - rewrite Hq2, Hq. destruct Hbuf as [|(_ & Hb & _)]; [done|].
    destruct Hlen as [Hl|(? & ? & ? & ?)]; [|done]. unfold REDIS_MBULK_BIG_ARG in *. lia.
  - by rewrite resetClient_flags, halted_next, Hr2.
Qed.

Abbreviation step := (input_step unixtime processCommand).
Abbreviation input_post s r := (exists st', r = Some st' /\ (quiet s st' \/ stopped st')).

(** A command has been read: it runs. *)
Lemma command_runs s t c c' done_ cmd cmds :
  all = done_ ++ cmd :: cmds -> execute (t0, f0) done_ = (t, flags c) ->
  parsing s (wire cmds) cmd c c' [] -> buffer_ok c' 0 -> halted (flags c) = false -> reply c = [] ->
  let '(t, c2, ok) := processCommand t c' in
  let c2 := if (ok : bool) then resetClient c2 else c2 in
  (conn s (t, c2) \/ stopped (t, c2)) /\ querybuf c2 = querybuf c'.
Proof.
  intros Hsplit Hex Hp Hbuf Hh Hr. pose proof Hp as [Hargs _ _ _ (_ & Hf & Hre)]. rewrite app_nil_r in Hargs.
  pose proof (Hrun t c') as Hc2. rewrite Hargs, Hf, Hre, Hr in Hc2. pose proof (Hclose t (flags c) cmd) as Hok.
  destruct (run t (flags c) cmd) as [[t2 f2] ok] eqn:Hrn. destruct Hc2 as (c2 & -> & Hf2 & Hq2 & Hr2).
  assert (execute (t0, f0) (done_ ++ [cmd]) = (t2, if ok then next_flags f2 else f2)) as Hex2.
  { unfold execute in *. rewrite foldl_app, Hex. cbn [foldl]. unfold run_one. cbn [fst snd]. by rewrite Hh, Hrn. }
  destruct (halted f2) eqn:Hh2.
  - assert (halted (if ok then next_flags f2 else f2) = true) as Hh3 by (destruct ok; [by rewrite halted_next|done]).
    split; [right|by destruct ok; [unfold resetClient; destruct (has_flag _ _)|]]. unfold stopped. cbn [fst snd].
    assert (flags (if ok then resetClient c2 else c2) = if ok then next_flags f2 else f2) as ->
      by (destruct ok; [by rewrite resetClient_flags, Hf2|done]).
    split; [done|split; [|by destruct ok; [unfold resetClient; destruct (has_flag _ _)|]]].
    replace all with ((done_ ++ [cmd]) ++ cmds) by (by rewrite <- app_assoc).
    unfold execute in *. rewrite foldl_app, Hex2. by apply execute_halted.
  - destruct ok; [|by specialize (Hok eq_refl)]. split; [left|unfold resetClient; by destruct (has_flag _ _)].
    apply (conn_idle _ _ _ (done_ ++ [cmd]) cmds); [by rewrite <- app_assoc|by rewrite resetClient_flags, Hf2|].
    apply (command_done s c c' c2 cmd); [done..|by rewrite Hf2|done].
Qed.

(** What follows the parser in an iteration, from its result. *)
Lemma after_parse s t c c' done_ cmd cmds args :
  all = done_ ++ cmd :: cmds -> execute (t0, f0) done_ = (t, flags c) ->
  parsing s (wire cmds) cmd c c' args -> buffer_ok c' 0 -> starved c' 0 args ->
  halted (flags c) = false -> reply c = [] -> reqtype c = ReqMultibulk -> cmd_ok cmd ->
  (length (querybuf c' ++ s) < length (querybuf c ++ s) \/ args <> [])%nat ->
  match (match Some (c', bool_decide (args = [])) with
         | None => Break None
         | Some (c, false) => Break (Some (t, c))
         | Some (c, true) =>
             if bool_decide (argv c = []) then Continue (t, resetClient c)
             else let '(t, c, ok) := processCommand t c in
                  Continue (t, if (ok : bool) then resetClient c else c)
         end) with
  | Continue st' => (conn s st' \/ stopped st') /\ (length (querybuf st'.2) < length (querybuf c))%nat
  | Break r => input_post s r
  end.
Proof.
  intros Hsplit Hex Hp Hbuf Hst Hf Hr Ht (Hne & _) Hlen. destruct args as [|a args].
  - rewrite bool_decide_true by done. pose proof (pa_args _ _ _ _ _ _ Hp) as Hargv. rewrite app_nil_r in Hargv.
    rewrite bool_decide_false by congruence.
    pose proof (command_runs s t c c' done_ cmd cmds Hsplit Hex Hp Hbuf Hf Hr) as Hc.
    destruct (processCommand t c') as [[t2 c2] ok]. destruct Hc as [Hc Hq]. split; [done|]. cbn [snd]. rewrite Hq.
    destruct Hlen as [Hlen|]; [|done]. rewrite !length_app in Hlen. lia.
  - rewrite bool_decide_false by done. eexists; split; [done|]. left.
    destruct Hp as [Hargs Hcount Hlen' Hdata (Hty & Hfl & Hre)].
    apply (quiet_busy _ _ _ done_ cmd cmds (a :: args)); [done|by rewrite Hfl| |done].
    constructor; try done; [congruence|]. by rewrite Hfl, Hre.
Qed.

Lemma cmd_ok_in done_ cmd cmds : all = done_ ++ cmd :: cmds -> cmd_ok cmd.
Proof. intros Heq. rewrite Heq in Hall. apply Forall_app in Hall as [_ Hf]. by apply Forall_cons in Hf as [? _]. Qed.

Lemma input_step_spec s st :
  conn s st ->
  match step st with
  | Continue st' => (conn s st' \/ stopped st') /\ (length (querybuf st'.2) < length (querybuf st.2))%nat
  | Break r => input_post s r
  end.
Proof.
  intros [t c done_ cmds Hsplit Hex Hi|t c done_ cmd cmds args Hsplit Hex Hb]; unfold input_step.
  - destruct (decide (querybuf c = [])) as [Hq|Hq].
    { rewrite bool_decide_true by done. eexists; split; [done|]. left. apply (quiet_idle _ _ _ done_ cmds); [done..|].
      destruct cmds as [|cmd cmds]; [done|]. rewrite Hq. simpl. lia. }
    rewrite bool_decide_false by done.
    destruct Hi as [(Hm & Hbl & Ha) Hty Hdata Hbuf (Hf & Hr)]. pose proof Hf as [Hf1 Hf2]%orb_false_iff.
    unfold has_flag. rewrite Hf1, Hf2.
    destruct cmds as [|cmd cmds]; [by destruct (querybuf c)|].
    pose proof (cmd_ok_in _ _ _ Hsplit) as Hok. cbn [wire flat_map] in Hdata. fold (wire cmds) in Hdata.
    assert (nth 0 (querybuf c) 0 = 42) as -> by (destruct (querybuf c); [done|]; simpl in Hdata; by simplify_eq).
    rewrite (bool_decide_true (42 = 42)) by done.
    set (c1 := match reqtype c with ReqUnknown => _ | _ => c end).
    assert (c1 = set_reqtype ReqMultibulk c) as ->.
    { unfold c1. destruct Hty as [-> |Hty]; [done|]. rewrite Hty. rewrite <- Hty. by destruct c. }
    cbn [reqtype set_reqtype].
    destruct (processMultibulk_start s (wire cmds) cmd (set_reqtype ReqMultibulk c))
      as [[-> Hshort]|(c' & args & -> & Hp & Hb' & Hst)]; [done..| |].
    + eexists; split; [done|]. left. apply (quiet_idle _ _ _ done_ (cmd :: cmds)); [done|done| |done].
      constructor; client_simpl; try done. by right.
    + apply (after_parse s _ (set_reqtype ReqMultibulk c) c' done_ cmd cmds args); try done.
      destruct args; [left|by right]. client_simpl. rewrite (pa_data _ _ _ _ _ _ Hp), Hdata.
      rewrite !length_app. unfold multibulk. simpl. lia.
  - destruct Hb as [Hne Hargs Hcount Hlen Hty Hdata Hbuf (Hf & Hr)].
    destruct (decide (querybuf c = [])) as [Hq|Hq].
    { rewrite bool_decide_true by done. eexists; split; [done|]. left.
      apply (quiet_busy _ _ _ done_ cmd cmds args); [done|done|by constructor|]. unfold starved.
      destruct args as [|a args]; [done|]. rewrite Hq. cbn [length].
      destruct (decide (bulklen c = -1)); [rewrite bool_decide_true by done; lia|].
      destruct Hlen as [|(? & ? & [= <- <-] & Hl)]; [done|]. rewrite bool_decide_false by done. lia. }
    rewrite bool_decide_false by done. pose proof Hf as [Hf1 Hf2]%orb_false_iff.
    unfold has_flag. rewrite Hf1, Hf2, Hty. cbv beta iota.
    rewrite Hty. pose proof (cmd_ok_in _ _ _ Hsplit) as Hok. unfold processMultibulkBuffer.
    assert (0 < zlen args) by (destruct args; [done|simpl; lia]).
    rewrite (bool_decide_false (multibulklen c = 0)), (bool_decide_true (multibulklen c > 0)) by lia.
    destruct (process_bulks_spec s (wire cmds) cmd c ltac:(apply Hok) c 0 args)
      as (c' & args' & -> & Hp & Hb' & Hst).
    { constructor; client_simpl; try done. lia. }
    apply (after_parse s _ c c' done_ cmd cmds args'); try done.
    destruct args'; [left|by right]. rewrite (pa_data _ _ _ _ _ _ Hp), Hdata, !length_app.
    pose proof (pending_length (bulklen c) args Hne). simpl. lia.
Qed.

Lemma stopped_step st : stopped st -> step st = Break (Some st).
Proof.
  destruct st as [t c]. intros (Hh & _). unfold input_step. case_bool_decide; [done|]. cbn [snd] in Hh.
  unfold halted in Hh. fold (has_flag c REDIS_BLOCKED) (has_flag c REDIS_CLOSE_AFTER_REPLY) in Hh.
  destruct (has_flag c REDIS_BLOCKED); [done|]. cbn [orb] in Hh. by rewrite Hh.
Qed.

Lemma processInputBuffer_spec s t c :
  conn s (t, c) \/ stopped (t, c) ->
  exists st', processInputBuffer unixtime processCommand t c = Some st' /\ (quiet s st' \/ stopped st').
Proof.
  intros Hc. unfold processInputBuffer.
  destruct (loop_spec (fun st => conn s st \/ stopped st) (fun st => length (querybuf st.2)) (fun r => input_post s r)
    step (S (length (querybuf c))) (t, c)) as (? & -> & st' & -> & Hq); [|done|simpl; lia|by exists st'].
  intros st [Hst|Hst]; [by apply input_step_spec|]. rewrite stopped_step by done. exists st. by split; [|right].
Qed.

(** ** Reading a stream in pieces of any size *)

(** [readQueryFromClient] called while there is something to read: each time
    the kernel has [n] bytes at hand for it (0 is [EAGAIN]). The result holds
    what was not read. *)
Fixpoint feed (t : T) (c : client) (s : list Z) (ns : list nat)
    : option (T * option client * list Z) :=
  match ns with
  | [] => Some (t, Some c, s)
  | n :: ns =>
      let k := (n `min` Z.to_nat (query_readlen c))%nat in
      let nread := match take k s with [] => ReadAgain | l => ReadBytes l end in
      '(t, c) ← readQueryFromClient unixtime processCommand t c nread;
      match c with
      | Some c => feed t c (drop k s) ns
      | None => Some (t, None, drop k s)
      end
  end.

(** A read of at most [query_readlen] bytes never makes the buffer too long
    for the parser. *)
Lemma quiet_read s t c l s' now off :
  quiet s (t, c) -> s = l ++ s' -> zlen l <= Z.max 0 (query_readlen c) ->
  let c' := Client (querybuf c ++ l) (reqtype c) (multibulklen c) (bulklen c) (argv c) (flags c)
              (reply c) (repl_ack_time c) now off in
  conn s' (t, c') /\ zlen (querybuf c') <= REDIS_MAX_QUERYBUF_LEN.
Proof.
  intros Hq -> Hl. unfold query_readlen in Hl.
  unfold REDIS_MAX_QUERYBUF_LEN, REDIS_IOBUF_LEN, REDIS_MBULK_BIG_ARG in *.
  inversion Hq as [t1 c1 done_ cmds Hsplit Hex Hi Hst [Ht Hc]|t1 c1 done_ cmd cmds args Hsplit Hex Hb Hst [Ht Hc]]; subst c1; subst t1.
  - destruct Hi as [(Hm & Hbl & Ha) Hty Hdata Hbuf Hconn].
    rewrite bool_decide_false in Hl by (intros (_ & Hx & _); done).
    assert (zlen (querybuf c ++ l) <= REDIS_INLINE_MAX_SIZE) as Hlen.
    { rewrite length_app. unfold REDIS_INLINE_MAX_SIZE. destruct cmds as [|cmd cmds]; [rewrite Hst; simpl; lia|].
      pose proof (cmd_ok_in _ _ _ Hsplit) as (_ & Hcnt & _).
      destruct (print_length_spec (zlen cmd)) as (_ & _ & Hp); [lia|]. lia. }
    split; [|cbn [querybuf]; unfold REDIS_INLINE_MAX_SIZE in Hlen; lia].
    apply (conn_idle _ _ _ done_ cmds); [done|done|]. constructor; client_simpl; try done.
    by rewrite <- app_assoc.
  - destruct Hb as [Hne Hargs Hcount Hlen Hty Hdata Hbuf Hconn].
    destruct args as [|a args]; [done|]. pose proof (cmd_ok_in _ _ _ Hsplit) as (_ & _ & Hok).
    rewrite <- Hargs in Hok. apply Forall_app in Hok as [_ Hok]. apply Forall_cons in Hok as [Ha _].
    unfold arg_ok in Ha. destruct (print_length_spec (zlen a)) as (_ & _ & Hp); [lia|].
    assert (bulklen c = -1 \/ bulklen c = zlen a) as Hbl
      by (destruct Hlen as [|(? & ? & [= <- <-] & ?)]; auto).
    unfold starved in Hst.
    assert (buffer_ok (Client (querybuf c ++ l) (reqtype c) (multibulklen c) (bulklen c) (argv c) (flags c)
              (reply c) (repl_ack_time c) now off) 0) as Hbuf'.
    { unfold buffer_ok. client_simpl. rewrite length_app. unfold REDIS_INLINE_MAX_SIZE, REDIS_MBULK_BIG_ARG.
      destruct (decide (bulklen c >= 1024 * 32)) as [Hbig|Hsmall].
      - right. rewrite bool_decide_false in Hst by lia. destruct Hbl as [|Hbl]; [lia|].
        rewrite bool_decide_true in Hl by (split_and!; try done; simpl in *; lia).
        rewrite uwrap_small in Hl by (unfold urange; lia).
        rewrite swrap_small in Hl by (done || unfold srange; change (32 - 1) with 31; lia).
        revert Hl. case_bool_decide; lia.
      - left. rewrite bool_decide_false in Hl by lia. revert Hst. case_bool_decide; lia. }
    split; [|client_simpl; unfold buffer_ok, REDIS_INLINE_MAX_SIZE in Hbuf'; client_simpl; lia].
    apply (conn_busy _ _ _ done_ cmd cmds (a :: args)); [done|done|]. constructor; client_simpl; try done.
    by rewrite <- app_assoc.
Qed.

(** How the reads leave the server, the client, if it is still there, and what
    has not been read. *)
Definition fed (r : T * option client * list Z) : Prop :=
  let '(t, c, s) := r in
  match c with
  | Some c => quiet s (t, c) \/ stopped (t, c)
  | None => exists c, stopped (t, c)
  end.

Lemma feed_spec ns s t c : quiet s (t, c) \/ stopped (t, c) -> exists r, feed t c s ns = Some r /\ fed r.
Proof.
  revert s t c. induction ns as [|n ns IH]; intros s t c Hq; [by eexists|].
  cbn [feed]. set (k := (n `min` _)%nat).
  assert (take k s ++ drop k s = s) as Hs by apply take_drop.
  destruct (take k s) as [|x l] eqn:Hk.
  { simpl. simpl in Hs. rewrite Hs. by apply IH. }
  unfold readQueryFromClient. set (off := if has_flag c REDIS_MASTER then _ else _).
  set (c1 := Client (querybuf c ++ x :: l) _ _ _ _ _ _ _ _ _).
  assert ((conn (drop k s) (t, c1) /\ zlen (querybuf c1) <= REDIS_MAX_QUERYBUF_LEN) \/ stopped (t, c1)) as Hc.
  { destruct Hq as [Hq|Hq]; [left|by right]. apply (quiet_read s t c (x :: l) (drop k s) unixtime off Hq (eq_sym Hs)).
    rewrite <- Hk, length_take. unfold k. lia. }
  case_bool_decide as Hmax.
  { destruct Hc as [[_ Hc]|Hc]; [cbn [querybuf c1] in *; lia|]. bind_simpl. eexists. split; [done|]. by exists c1. }
  destruct (processInputBuffer_spec (drop k s) t c1) as ([t' c'] & -> & Hq'); [by destruct Hc as [[Hc _]|Hc]; [left|right]|].
  bind_simpl. by apply IH.
Qed.

(** A quiet connection with nothing more to receive is at its end. *)
Lemma quiet_end t c : quiet [] (t, c) -> execute (t0, f0) all = (t, flags c) /\ querybuf c = [].
Proof.
  inversion 1 as [t1 c1 done_ cmds Hsplit Hex Hi Hst [Ht Hc]|t1 c1 done_ cmd cmds args Hsplit Hex Hb Hst [Ht Hc]]; subst c1.
  - pose proof (id_data _ _ _ Hi) as Hdata. rewrite app_nil_r in Hdata. destruct cmds as [|cmd cmds].
    + by rewrite app_nil_r in Hsplit; subst.
    + pose proof (multibulk_length cmd). rewrite Hdata in Hst. cbn [wire flat_map] in Hst.
      rewrite length_app in Hst. lia.
  - exfalso. destruct Hb as [Hne Hargs Hcount Hlen Hty Hdata Hbuf Hconn]. rewrite app_nil_r in Hdata.
    destruct args as [|a args]; [done|]. unfold starved in Hst. rewrite Hdata in Hst.
    unfold pending in Hst. case_bool_decide as Hb'.
    + unfold bulks, cat_bulk in Hst. simpl in Hst. rewrite !length_app in Hst. simpl in Hst.
      rewrite !length_app in Hst. simpl in Hst. lia.
    + destruct Hlen as [|(? & ? & [= <- <-] & Hl)]; [done|]. rewrite !length_app in Hst. simpl in Hst. lia.
Qed.

Lemma quiet_prefix s t c : quiet s (t, c) ->
  halted (flags c) = false /\ reply c = [] /\ exists done_, done_ `prefix_of` all /\ execute (t0, f0) done_ = (t, flags c).
Proof.
  inversion 1 as [t1 c1 done_ cmds Hsplit Hex Hi Hst [Ht Hc]|t1 c1 done_ cmd cmds args Hsplit Hex Hb Hst [Ht Hc]]; subst c1.
  - split; [apply Hi|split; [apply Hi|]]. exists done_. split; [by eexists|done].
  - split; [apply Hb|split; [apply Hb|]]. exists done_. split; [by eexists|done].
Qed.

End Stream.

(** The client made by [createClient], as far as the parser is concerned. *)
Definition new_client : client := Client [] ReqUnknown 0 (-1) [] 0 [] 0 0 0.

Lemma new_client_quiet {T} (run : T -> Z -> list (list Z) -> T * Z * bool) t0 f all : halted f = false ->
  quiet run t0 f all (wire all) (t0, set_flags f new_client).
Proof.
  intros Hf. apply (quiet_idle run t0 f all _ t0 (set_flags f new_client) [] all); [done|done| |].
  - constructor; simpl; try done. by left.
  - destruct all; simpl; [done|lia].
Qed.

(** C12: the multi-bulk form of any sequence of commands, as
    [catAppendOnlyGenericCommand] writes it, is parsed back into exactly these
    commands, run in order up to the first that blocks the client or marks it
    to be closed, however the stream is cut into reads.  After any reads a
    prefix of the commands has run and no protocol error was sent; when
    everything was read, all that can run have run, and the buffer is empty
    unless the client is blocked or closing: only then can it be freed, its
    input having filled the buffer.  Commands may change the flags (MULTI,
    ASKING) and the server in any way; the arguments are arbitrary bytes of up
    to 512 MB, a command has at most 1024 * 1024 of them, and nobody else
    touches the client between the reads ([valid_request_refused] is about a
    client unblocked while it sends). *)
Theorem feed_runs_commands {T} unixtime (run : T -> Z -> list (list Z) -> T * Z * bool)
    (processCommand : T -> client -> T * client * bool) cmds t0 f0 ns :
  runs_commands run processCommand -> errors_close run -> Forall cmd_ok cmds ->
  exists t f c s, feed unixtime processCommand t0 (set_flags f0 new_client)
      (foldl catAppendOnlyGenericCommand [] cmds) ns = Some (t, c, s) /\
    (exists done_, done_ `prefix_of` cmds /\ execute run (t0, f0) done_ = (t, f)) /\
    (s = [] \/ halted f = true -> execute run (t0, f0) cmds = (t, f)) /\
    match c with
    | Some c => flags c = f /\ reply c = [] /\ (s = [] -> halted f = false -> querybuf c = [])
    | None => halted f = true
    end.
Proof.
  intros Hrun Hclose Hall.
  assert (foldl catAppendOnlyGenericCommand [] cmds = wire cmds) as ->.
  { assert (forall d, foldl catAppendOnlyGenericCommand d cmds = d ++ wire cmds) as Hf; [|apply Hf].
    clear. induction cmds as [|a cmds IH]; intros d; simpl; [by rewrite app_nil_r|].
    by rewrite IH, cat_multibulk, <- app_assoc. }
  destruct (feed_spec unixtime run processCommand Hrun Hclose t0 f0 cmds Hall ns (wire cmds) t0 (set_flags f0 new_client))
    as ([[t c] s] & Hf & Hq).
  { destruct (halted f0) eqn:Hh; [right|left; by apply new_client_quiet]. split; [done|]. split; [|done]. by apply execute_halted. }
  rewrite Hf. cbn [fed] in Hq. destruct c as [c|].
  - exists t, (flags c), (Some c), s. split; [done|]. destruct Hq as [Hq|(Hh & Hex & Hr)].
    + destruct (quiet_prefix run t0 f0 cmds s t c Hq) as (Hh & Hr & Hp). rewrite Hh. split; [done|]. split.
      * intros [->|]; [|done]. by apply quiet_end.
      * split; [done|split; [done|]]. intros -> _. by eapply quiet_end.
    + cbn [fst snd] in *. split; [by exists cmds|]. split; [done|]. rewrite Hh. done.
  - destruct Hq as (c & Hh & Hex & _). cbn [fst snd] in *. exists t, (flags c), None, s.
    split; [done|]. split; [by exists cmds|]. done.
Qed.

(** A server that records its commands: a command of one argument is MULTI, and
    one without bytes closes the connection. *)
Definition sample_run (t : list (list (list Z))) (f : Z) (a : list (list Z)) : list (list (list Z)) * Z * bool :=
  match a with
  | [[]] => (t, Z.lor f REDIS_CLOSE_AFTER_REPLY, false)
  | [_] => (t ++ [a], Z.lor f REDIS_MULTI, true)
  | _ => (t ++ [a], f, true)
  end.
Definition sample_process (t : list (list (list Z))) (c : client) : list (list (list Z)) * client * bool :=
  let '(t, f, ok) := sample_run t (flags c) (argv c) in (t, set_flags f c, ok).
Definition sample_commands : list (list (list Z)) := [[[71; 69; 84]; [13; 10; 0]]; [[80]]; [[71]; []]; [[]]; [[81]]].

Lemma sample_execute : execute sample_run ([], REDIS_ASKING) sample_commands =
  (take 3 sample_commands, Z.lor REDIS_MULTI REDIS_CLOSE_AFTER_REPLY).
Proof. reflexivity. Qed.

Lemma feed_runs_commands_witness :
  exists t f c s, feed 0 sample_process [] (set_flags REDIS_ASKING new_client)
      (foldl catAppendOnlyGenericCommand [] sample_commands) [3%nat; 9%nat; 100%nat] = Some (t, c, s) /\
    (exists done_, done_ `prefix_of` sample_commands /\ execute sample_run ([], REDIS_ASKING) done_ = (t, f)) /\
    (s = [] \/ halted f = true -> execute sample_run ([], REDIS_ASKING) sample_commands = (t, f)) /\
    match c with
    | Some c => flags c = f /\ reply c = [] /\ (s = [] -> halted f = false -> querybuf c = [])
    | None => halted f = true
    end.
Proof.
  apply (feed_runs_commands 0 sample_run sample_process).
  - intros t c. unfold sample_process. destruct (sample_run t (flags c) (argv c)) as [[t' f'] ok]. by eexists.
  - intros t f [|[|x a] [|y b]]; try done. intros _. unfold halted. apply orb_true_intro. right.
    apply bool_decide_eq_true. intros E. apply (f_equal (fun z => Z.testbit z 6)) in E.
    rewrite Z.land_spec, Z.lor_spec in E. cbn in E. by rewrite orb_true_r in E.
  - by repeat constructor; vm_compute.
Defined.

(** ** Inline commands *)

Definition inline_line (line : list Z) : Prop := Forall (fun c => c <> 10 /\ c <> 0) line.

(** The effect of a complete line on the connection, the line break having
    [skip] bytes fewer or more than the two that are dropped with it. *)
Lemma processInline_line unixtime c line eol rest tokens :
  inline_line line -> (eol = [13; 10] \/ (eol = [10] /\ last line <> Some 13)) ->
  querybuf c = line ++ eol ++ rest -> sdssplitargs line = Some (Some tokens) ->
  exists c', processInlineBuffer unixtime c = Some (c', true) /\
    querybuf c' = drop 2 (eol ++ rest) /\ argv c' = filter (fun a => a <> []) tokens /\
    same_conn c c' /\ multibulklen c' = multibulklen c /\ bulklen c' = bulklen c.
Proof.
  intros Hline Heol Hq Htok. unfold processInlineBuffer.
  assert (exists k, strchr (querybuf c) 0 10 = Some k /\
    (if bool_decide (k <> 0%nat /\ nth (k - 1) (querybuf c) 0 = 13) then (k - 1)%nat else k) = length line)
    as (k & -> & ->).
  { destruct Heol as [-> |[-> Hlast]].
    - exists (length line + 1)%nat. split.
      + rewrite (strchr_app _ [] (line ++ [13]) 10 rest 0); [|by rewrite Hq, app_nil_r, <- app_assoc| |lia].
        * rewrite bool_decide_true; rewrite ?Hq, ?length_app; simpl; [f_equal; lia|lia].
        * apply Forall_app; split; [done|by repeat constructor].
      + rewrite bool_decide_true; [lia|]. split; [lia|].
        rewrite Hq, Nat.add_sub, app_nth2, Nat.sub_diag by lia. done.
    - exists (length line). split.
      + rewrite (strchr_app _ [] line 10 rest 0); [|by rewrite Hq, app_nil_r|done|lia].
        rewrite bool_decide_true; rewrite ?Hq, ?length_app; simpl; [done|lia].
      + rewrite bool_decide_false; [done|]. intros [Hk Hn]. apply Hlast.
        destruct line as [|x line _] using rev_ind; [done|]. rewrite last_snoc. f_equal.
        rewrite Hq, length_app, <- app_assoc in Hn. simpl in Hn. rewrite Nat.add_sub in Hn.
        by rewrite app_nth2, Nat.sub_diag in Hn by lia. }
  assert (take (length line) (querybuf c) = line) as -> by (rewrite Hq; by rewrite take_app_length).
  rewrite Htok. bind_simpl. eexists; split; [done|].
  destruct (bool_decide (length line = 0%nat) && has_flag c REDIS_SLAVE); client_simpl;
    (split_and!; [|done..]); rewrite range_to_end, Hq by lia;
    replace (Z.to_nat (Z.of_nat (length line) + 2)) with (length line + 2)%nat by lia;
    rewrite drop_app_add; done.
Qed.

Lemma quote_inline p : bytes_ok p -> inline_line (quote p).
Proof.
  intros Hp. unfold quote. constructor; [done|]. apply Forall_app; split; [|by repeat constructor].
  induction Hp as [|c p Hc _ IH]; simpl; [done|]. apply Forall_app; split; [|done].
  apply Forall_and; split; [|by apply repr_char_nonzero].
  unfold urange in Hc. unfold repr_char. case_bool_decide; [repeat constructor; lia|].
  repeat (case_bool_decide; [by repeat constructor|]). destruct (isprint c).
  - by repeat constructor.
  - assert (forall d, 0 <= d -> hex_char d <> 10) as Hx by (unfold hex_char; intros; case_bool_decide; lia).
    repeat constructor; try done; apply Hx; [apply Z.div_pos|apply Z.mod_pos_bound]; lia.
Qed.

Lemma spaced_inline args : Forall bytes_ok args -> inline_line (spaced args).
Proof.
  unfold spaced, inline_line. induction 1 as [|t args Ht _ IH]; [done|]. rewrite fmap_cons.
  destruct args as [|u args]; [by apply quote_inline|]. rewrite fmap_cons in *.
  cbn [join_with] in *. apply Forall_app; split; [by apply quote_inline|].
  apply Forall_app; split; [by repeat constructor|done].
Qed.

Lemma splitargs_spaced args :
  Forall bytes_ok args -> sdssplitargs (spaced args) = Some (Some args).
Proof.
  intros Hargs. unfold sdssplitargs.
  assert (c_str (spaced args) = spaced args) as ->.
  { pose proof (c_str_id (spaced args) [] (spaced_nonzero args Hargs)) as H.
    by rewrite c_str_app in H. }
  rewrite args_loop_quoted; [done|done|]. pose proof (length_spaced args). lia.
Qed.

(** An inline command typed in quoted form, ended by CR LF, is parsed into
    exactly its arguments, except that empty ones are dropped, and what follows
    the line stays in the buffer. *)
Theorem inline_quoted unixtime c args rest :
  Forall bytes_ok args -> querybuf c = spaced args ++ [13; 10] ++ rest ->
  exists c', processInlineBuffer unixtime c = Some (c', true) /\
    argv c' = filter (fun a => a <> []) args /\ querybuf c' = rest /\
    flags c' = flags c /\ reply c' = reply c.
Proof.
  intros Hargs Hq.
  destruct (processInline_line unixtime c (spaced args) [13; 10] rest args)
    as (c' & Hp & Hq' & Ha & (_ & Hf & Hr) & _); [by apply spaced_inline|by left|done|by apply splitargs_spaced|].
  by exists c'.
Qed.

Lemma inline_quoted_witness :
  exists c', processInlineBuffer 0 (set_querybuf (spaced [[71; 69; 84]; [10; 0; 34]] ++ [13; 10] ++ [80]) new_client) =
      Some (c', true) /\
    argv c' = filter (fun a => a <> []) [[71; 69; 84]; [10; 0; 34]] /\ querybuf c' = [80] /\
    flags c' = 0 /\ reply c' = [].
Proof.
  apply (inline_quoted 0 (set_querybuf (spaced [[71; 69; 84]; [10; 0; 34]] ++ [13; 10] ++ [80]) new_client)
    [[71; 69; 84]; [10; 0; 34]] [80]); [|done].
  by repeat constructor; vm_compute.
Defined.

(** After an inline command ended by LF alone, the first byte that follows
    the line is lost: two bytes are dropped with the line, whether it ended
    with CR LF or with LF.  A pipelined command is executed without its first
    letter. *)
Theorem inline_bare_lf_loses_byte unixtime c line x rest tokens :
  inline_line line -> last line <> Some 13 -> sdssplitargs line = Some (Some tokens) ->
  querybuf c = line ++ [10] ++ x :: rest ->
  exists c', processInlineBuffer unixtime c = Some (c', true) /\
    argv c' = filter (fun a => a <> []) tokens /\ querybuf c' = rest.
Proof.
  intros Hline Hlast Htok Hq.
  destruct (processInline_line unixtime c line [10] (x :: rest) tokens)
    as (c' & Hp & Hq' & Ha & _); [done|by right|done|done|]. by exists c'.
Qed.

Lemma inline_bare_lf_loses_byte_witness :
  exists c', processInlineBuffer 0 (set_querybuf [80; 73; 78; 71; 10; 80; 73; 78; 71; 10] new_client) =
      Some (c', true) /\
    argv c' = filter (fun a => a <> []) [[80; 73; 78; 71]] /\ querybuf c' = [73; 78; 71; 10].
Proof.
  apply (inline_bare_lf_loses_byte 0 (set_querybuf [80; 73; 78; 71; 10; 80; 73; 78; 71; 10] new_client)
    [80; 73; 78; 71] 80 [73; 78; 71; 10]); [by repeat constructor|done|by vm_compute|done].
Defined.

(** ** A valid request refused *)

(** A command with several arguments below 32 KB, of which all but the line
    break of the last length has arrived. *)
Definition large_cmd : list (list Z) :=
  [replicate (Z.to_nat 30000) 97; replicate (Z.to_nat 30000) 98; replicate (Z.to_nat 10000) 99; [100]].

Definition large_prefix : list Z :=
  take (length (multibulk large_cmd) - 5) (multibulk large_cmd).

Definition record (t : list (list (list Z))) (c : client) : list (list (list Z)) * client * bool :=
  (t ++ [argv c], c, true).

Definition refused (r : option (list (list (list Z)) * client)) : bool :=
  match r with
  | Some (t, c) => bool_decide (t = []) && has_flag c REDIS_CLOSE_AFTER_REPLY &&
                   match reply c with [TooBigBulkCount] => true | _ => false end
  | None => false
  end.

(** The reads of [readQueryFromClient] that bring [large_prefix]. *)
Definition large_reads : list nat := replicate 5 (Z.to_nat REDIS_IOBUF_LEN).

Lemma refused_computed :
  match feed 0 record [] (set_flags REDIS_BLOCKED new_client) large_prefix large_reads with
  | Some (t, Some c, s) =>
      bool_decide (t = [] /\ s = [] /\ querybuf c = large_prefix) &&
      refused (processInputBuffer 0 record [] (set_flags 0 c))
  | _ => false
  end = true.
Proof. vm_compute. reflexivity. Qed.

(** A request within the limits of the protocol can be refused and its
    connection closed.  A blocked client sends the beginning of [large_cmd];
    when it is unblocked, the length of the whole buffer, arguments already
    parsed included, is compared with the limit on a line, and the error "too
    big bulk count string" is sent. *)
Theorem valid_request_refused :
  cmd_ok large_cmd /\ large_prefix `prefix_of` multibulk large_cmd /\
  exists c, feed 0 record [] (set_flags REDIS_BLOCKED new_client) large_prefix large_reads =
      Some ([], Some c, []) /\
    querybuf c = large_prefix /\
    refused (processInputBuffer 0 record [] (set_flags 0 c)) = true.
Proof.
  split_and!.
  - split_and!; [done|by vm_compute|]. repeat constructor; by vm_compute.
  - unfold large_prefix. generalize (length (multibulk large_cmd) - 5)%nat as n.
    generalize (multibulk large_cmd) as l. intros l n. exists (drop n l). by rewrite take_drop.
  - pose proof refused_computed as Hc.
    destruct (feed 0 record [] _ large_prefix large_reads) as [[[t [c|]] s]|]; [|done..].
    apply andb_true_iff in Hc as [Hb Hr]. apply bool_decide_eq_true in Hb as (-> & -> & Hq).
    exists c. split; [reflexivity|split; [exact Hq|exact Hr]].
Qed.
