(* ===== verification/Server.v ===== *)
(** * Server state, objects and the key space ([object.c], [db.c], [multi.c])

    The state shared by the commands, a monad for code that reads and changes
    it, string objects and their numeric values, the database API with
    expiration, and the tables of watched keys.  A database is the finite map
    that [Dict.dict_repr] relates to a hash table; a [None] computation means
    that the process does not survive (a failed assertion, a read outside a
    buffer, an allocation that cannot succeed). *)
From Stdlib Require Import String.
From S2P Require Import Prelude ClientFlags Util Sds.

Definition REDIS_PROPAGATE_AOF : Z := 1.
Definition REDIS_PROPAGATE_REPL : Z := 2.

(** ** Objects *)

Inductive obj_type := REDIS_STRING | REDIS_LIST | REDIS_SET | REDIS_ZSET | REDIS_HASH.
#[export] Instance obj_type_dec : EqDecision obj_type.
Proof. solve_decision. Defined.

(** String objects in their two encodings; [ptr] stands for the contents of an
    object of another type, which the commands modelled here only move. *)
Inductive robj := Raw (s : list Z) | IntObj (v : Z) | Other (t : obj_type) (ptr : nat).
#[export] Instance robj_dec : EqDecision robj.
Proof. solve_decision. Defined.

Definition type_of (o : robj) : obj_type :=
  match o with Raw _ | IntObj _ => REDIS_STRING | Other t _ => t end.

Definition createStringObjectFromLongLong (value : Z) : robj := IntObj value.

Definition tryObjectEncoding (s : list Z) : robj :=
  if bool_decide (zlen s > 21) then Raw s
  else match string2l s with Some value => IntObj value | None => Raw s end.

(** The bytes of a string object. *)
Definition getDecodedObject (o : robj) : option (list Z) :=
  match o with
  | Raw s => Some s
  | IntObj v => ll2string 32 v
  | Other _ _ => None
  end.

Definition stringObjectLen (o : robj) : option Z :=
  s ← getDecodedObject o; Some (zlen s).

(** [strtoll] of the C library in base 10: the value, clamped to the range of
    [long long], the characters that follow the number (all of them when there
    is no number), and whether [errno] is [ERANGE]. *)
Fixpoint scan_digits (v : Z) (p : list Z) : Z * list Z :=
  match p with
  | c :: p' => if is_digit c then scan_digits (v * 10 + (c - 48)) p' else (v, p)
  | [] => (v, [])
  end.

Definition strtoll (s : list Z) : Z * list Z * bool :=
  let s := c_str s in
  let p := (fix skip (p : list Z) := match p with
            | c :: p' => if isspace c then skip p' else p | [] => [] end) s in
  let '(neg, p) := match p with
                   | c :: p' => if bool_decide (c = 45) then (true, p')
                                else if bool_decide (c = 43) then (false, p') else (false, p)
                   | [] => (false, p)
                   end in
  match p with
  | c :: _ =>
      if is_digit c then
        let '(v, rest) := scan_digits 0 p in
        let v := if (neg : bool) then - v else v in
        if bool_decide (v < LLONG_MIN) then (LLONG_MIN, rest, true)
        else if bool_decide (v > LLONG_MAX) then (LLONG_MAX, rest, true)
        else (v, rest, false)
      else (0, s, false)
  | [] => (0, s, false)
  end.

(** [Some None] is [REDIS_ERR]. *)
Definition getLongLongFromObject (o : option robj) : option (option Z) :=
  match o with
  | None => Some (Some 0)
  | Some (Raw s) =>
      let '(value, rest, erange) := strtoll s in
      if isspace (nth 0 s 0) || bool_decide (rest <> []) || erange then Some None
      else Some (Some value)
  | Some (IntObj v) => Some (Some v)
  | Some (Other _ _) => None
  end.

(** ** State *)

(** Replies, one constructor per kind; error replies carry their text. *)
Inductive redis_reply :=
| ReplyOk | ReplyQueued | ReplyNullBulk | ReplyEmptyBulk | ReplyNullMultiBulk
| ReplyMultiBulkLen (n : Z) | ReplyInt (n : Z) | ReplyBulk (s : list Z)
| ReplyStatus (s : string) | ReplyError (msg : string).

(** The commands modelled, entries of [redisCommandTable]. *)
Inductive command :=
| CmdGet | CmdSet | CmdSetnx | CmdSetex | CmdPsetex | CmdAppend | CmdStrlen | CmdDel | CmdExists
| CmdSetrange | CmdGetrange | CmdIncr | CmdDecr | CmdIncrby | CmdDecrby | CmdGetset
| CmdMget | CmdMset | CmdMsetnx | CmdSelect | CmdMove | CmdRename | CmdRenamenx
| CmdExpire | CmdExpireat | CmdPexpire | CmdPexpireat | CmdTtl | CmdPttl | CmdPersist
| CmdDbsize | CmdType | CmdFlushdb | CmdFlushall
| CmdMulti | CmdExec | CmdDiscard | CmdWatch | CmdUnwatch.
#[export] Instance command_dec : EqDecision command.
Proof. solve_decision. Defined.

Abbreviation bytes := (list Z).
Abbreviation client_id := nat.

(** The part of [redisClient] commands use. *)
Record rclient := RClient {
  c_db : nat;
  c_flags : Z;
  c_argv : list bytes;
  c_watched : list (nat * bytes);
  c_mstate : list (command * list bytes);
  c_reply : list redis_reply;
}.

Record redisDb := RedisDb {
  db_dict : gmap bytes robj;
  db_expires : gmap bytes Z;
  db_watched : gmap bytes (list client_id);
}.

Inductive event_class := NOTIFY_STRING | NOTIFY_GENERIC | NOTIFY_EXPIRED | NOTIFY_SET | NOTIFY_HASH.

(** Settings and server modes, constant while commands run; [lua_time] is the
    time of the running script, if any. *)
Record config := Config {
  loading : bool;
  masterhost : bool;
  lua_time : option Z;
  saveparamslen : Z;
}.

(** [propagated] is what went to the append-only file and the slaves: database,
    arguments, target flags; [events] are the calls of
    [notifyKeyspaceEvent]; [ticks] counts the readings of the clock. *)
Record server := Server {
  s_db : list redisDb;
  s_clients : gmap client_id rclient;
  s_dirty : Z;
  s_ticks : nat;
  s_stats : Z * Z * Z;
  s_propagated : list (nat * list bytes * Z);
  s_events : list (event_class * string * bytes * nat);
  s_conf : config;
}.

Definition set_dbs (d : list redisDb) (s : server) : server :=
  Server d (s_clients s) (s_dirty s) (s_ticks s) (s_stats s) (s_propagated s) (s_events s) (s_conf s).
Definition set_clients (c : gmap client_id rclient) (s : server) : server :=
  Server (s_db s) c (s_dirty s) (s_ticks s) (s_stats s) (s_propagated s) (s_events s) (s_conf s).
Definition set_dirty (d : Z) (s : server) : server :=
  Server (s_db s) (s_clients s) d (s_ticks s) (s_stats s) (s_propagated s) (s_events s) (s_conf s).
Definition set_ticks (t : nat) (s : server) : server :=
  Server (s_db s) (s_clients s) (s_dirty s) t (s_stats s) (s_propagated s) (s_events s) (s_conf s).
Definition set_stats (t : Z * Z * Z) (s : server) : server :=
  Server (s_db s) (s_clients s) (s_dirty s) (s_ticks s) t (s_propagated s) (s_events s) (s_conf s).
Definition set_propagated (p : list (nat * list bytes * Z)) (s : server) : server :=
  Server (s_db s) (s_clients s) (s_dirty s) (s_ticks s) (s_stats s) p (s_events s) (s_conf s).
Definition set_events (e : list (event_class * string * bytes * nat)) (s : server) : server :=
  Server (s_db s) (s_clients s) (s_dirty s) (s_ticks s) (s_stats s) (s_propagated s) e (s_conf s).

Definition set_c_db (d : nat) (c : rclient) : rclient :=
  RClient d (c_flags c) (c_argv c) (c_watched c) (c_mstate c) (c_reply c).
Definition set_c_flags (f : Z) (c : rclient) : rclient :=
  RClient (c_db c) f (c_argv c) (c_watched c) (c_mstate c) (c_reply c).
Definition set_c_argv (a : list bytes) (c : rclient) : rclient :=
  RClient (c_db c) (c_flags c) a (c_watched c) (c_mstate c) (c_reply c).
Definition set_c_watched (w : list (nat * bytes)) (c : rclient) : rclient :=
  RClient (c_db c) (c_flags c) (c_argv c) w (c_mstate c) (c_reply c).
Definition set_c_mstate (q : list (command * list bytes)) (c : rclient) : rclient :=
  RClient (c_db c) (c_flags c) (c_argv c) (c_watched c) q (c_reply c).
Definition set_c_reply (r : list redis_reply) (c : rclient) : rclient :=
  RClient (c_db c) (c_flags c) (c_argv c) (c_watched c) (c_mstate c) r.

Definition flag_on (f : Z) (c : rclient) : bool := bool_decide (Z.land (c_flags c) f <> 0).
Definition flag_set (f : Z) (c : rclient) : rclient := set_c_flags (Z.lor (c_flags c) f) c.
Definition flag_clear (f : Z) (c : rclient) : rclient := set_c_flags (Z.land (c_flags c) (Z.lnot f)) c.

(** ** The state monad *)

Definition M (A : Type) : Type := server -> option (A * server).

#[export] Instance M_ret : MRet M := fun A x s => Some (x, s).
#[export] Instance M_bind : MBind M := fun A B f m s =>
  match m s with Some (x, s) => f x s | None => None end.

Definition gets {A} (f : server -> A) : M A := fun s => Some (f s, s).
Definition modify (f : server -> server) : M unit := fun s => Some (tt, f s).
Definition redisAssert (b : bool) : M unit := fun s => if b then Some (tt, s) else None.
Definition lift {A} (o : option A) : M A := fun s => match o with Some x => Some (x, s) | None => None end.

(** The client [c], and a change of it. *)
Definition client (c : client_id) : M rclient := fun s => lift (s_clients s !! c) s.
Definition on_client (c : client_id) (f : rclient -> rclient) : M unit :=
  modify (fun s => set_clients (alter f c (s_clients s)) s).
Definition addReply (c : client_id) (r : redis_reply) : M unit :=
  on_client c (fun cl => set_c_reply (c_reply cl ++ [r]) cl).
Definition addReplyError (c : client_id) (msg : string) : M unit := addReply c (ReplyError msg).

(** Replies that are created once. *)
Definition czero := ReplyInt 0.
Definition cone := ReplyInt 1.
Definition emptymultibulk := ReplyMultiBulkLen 0.
Definition wrongtypeerr := ReplyError "Operation against a key holding the wrong kind of value".

Definition argv (c : client_id) (j : nat) : M bytes :=
  cl ← client c; lift (c_argv cl !! j).
Definition argc (c : client_id) : M nat := cl ← client c; mret (length (c_argv cl)).

(** The database [d], and a change of it. *)
Definition database (d : nat) : M redisDb := fun s => lift (s_db s !! d) s.
Definition on_db (d : nat) (f : redisDb -> redisDb) : M unit :=
  modify (fun s => set_dbs (alter f d (s_db s)) s).
Definition current_db (c : client_id) : M nat := cl ← client c; mret (c_db cl).

Definition set_dict (f : gmap bytes robj -> gmap bytes robj) (db : redisDb) : redisDb :=
  RedisDb (f (db_dict db)) (db_expires db) (db_watched db).
Definition set_expires (f : gmap bytes Z -> gmap bytes Z) (db : redisDb) : redisDb :=
  RedisDb (db_dict db) (f (db_expires db)) (db_watched db).
Definition set_watched (f : gmap bytes (list client_id) -> gmap bytes (list client_id)) (db : redisDb) : redisDb :=
  RedisDb (db_dict db) (db_expires db) (f (db_watched db)).

Definition add_dirty (n : Z) : M unit := modify (fun s => set_dirty (s_dirty s + n) s).

Definition notifyKeyspaceEvent (cls : event_class) (ev : string) (key : bytes) (dbid : nat) : M unit :=
  modify (fun s => set_events (s_events s ++ [(cls, ev, key, dbid)]) s).

(** [propagate]: the append-only file and the slaves, together. *)
Definition propagate (dbid : nat) (av : list bytes) (fl : Z) : M unit :=
  modify (fun s => set_propagated (s_propagated s ++ [(dbid, av, fl)]) s).

(** [getLongLongFromObjectOrReply] and [getLongFromObjectOrReply], which agree
    when [long] has 64 bits: the value, or an error reply. *)
Definition getLongLongFromObjectOrReply (c : client_id) (o : option robj) : M (option Z) :=
  r ← lift (getLongLongFromObject o);
  match r with
  | Some v => mret (Some v)
  | None => addReplyError c "value is not an integer or out of range";; mret None
  end.

(** ** Watched keys *)

(** [touchWatchedKey], the body of [signalModifiedKey]. *)
Definition touchWatchedKey (d : nat) (key : bytes) : M unit :=
  db ← database d;
  match db_watched db !! key with
  | None => mret tt
  | Some clients =>
      modify (fun s => set_clients
        (foldl (fun m w => alter (flag_set REDIS_DIRTY_CAS) w m) (s_clients s) clients) s)
  end.
Definition signalModifiedKey : nat -> bytes -> M unit := touchWatchedKey.

(** The clients that watch a key of database [dbid] (all databases for [None])
    which exists are marked. *)
Definition flush_touches (s : server) (dbid : option nat) (cl : rclient) : bool :=
  existsb (fun '(d, key) =>
    bool_decide (dbid = None \/ dbid = Some d) &&
    match s_db s !! d with
    | Some db => bool_decide (is_Some (db_dict db !! key))
    | None => false
    end) (c_watched cl).

Definition touchWatchedKeysOnFlush (dbid : option nat) : M unit :=
  modify (fun s => set_clients
    ((fun cl => if flush_touches s dbid cl then flag_set REDIS_DIRTY_CAS cl else cl) <$> s_clients s) s).

(** ** The database API *)

Section Api.
(** [mstime()] at its successive calls. *)
Context (clock : nat -> Z).

Definition mstime : M Z := fun s => Some (clock (s_ticks s), set_ticks (S (s_ticks s)) s).

Definition getExpire (d : nat) (key : bytes) : M Z :=
  db ← database d;
  match db_expires db !! key with
  | None => mret (-1)
  | Some when_ => redisAssert (bool_decide (is_Some (db_dict db !! key)));; mret when_
  end.

(** The result tells whether the key was in the dictionary. *)
Definition dbDelete (d : nat) (key : bytes) : M bool :=
  db ← database d;
  on_db d (fun db => set_dict (delete key) (set_expires (delete key) db));;
  mret (bool_decide (is_Some (db_dict db !! key))).

Definition propagateExpire (d : nat) (key : bytes) : M unit :=
  propagate d [[68; 69; 76]; key] (Z.lor REDIS_PROPAGATE_AOF REDIS_PROPAGATE_REPL).

Definition expireIfNeeded (d : nat) (key : bytes) : M bool :=
  when_ ← getExpire d key;
  if bool_decide (when_ < 0) then mret false
  else
    conf ← gets s_conf;
    if loading conf then mret false
    else
      now ← match lua_time conf with Some t => mret t | None => mstime end;
      if masterhost conf then mret (bool_decide (now > when_))
      else if bool_decide (now <= when_) then mret false
      else
        modify (fun s => set_stats (let '(h, m, e) := s_stats s in (h, m, e + 1)) s);;
        propagateExpire d key;;
        notifyKeyspaceEvent NOTIFY_EXPIRED "expired" key d;;
        dbDelete d key.

Definition lookupKey (d : nat) (key : bytes) : M (option robj) :=
  db ← database d; mret (db_dict db !! key).

Definition lookupKeyRead (d : nat) (key : bytes) : M (option robj) :=
  expireIfNeeded d key;;
  val ← lookupKey d key;
  modify (fun s => set_stats (let '(h, m, e) := s_stats s in
    match val with None => (h, m + 1, e) | Some _ => (h + 1, m, e) end) s);;
  mret val.

Definition lookupKeyWrite (d : nat) (key : bytes) : M (option robj) :=
  expireIfNeeded d key;; lookupKey d key.

Definition lookupKeyReadOrReply (c : client_id) (d : nat) (key : bytes) (r : redis_reply) : M (option robj) :=
  o ← lookupKeyRead d key;
  match o with None => addReply c r;; mret None | Some o => mret (Some o) end.

Definition lookupKeyWriteOrReply (c : client_id) (d : nat) (key : bytes) (r : redis_reply) : M (option robj) :=
  o ← lookupKeyWrite d key;
  match o with None => addReply c r;; mret None | Some o => mret (Some o) end.

(** The assertion: the key must not exist. *)
Definition dbAdd (d : nat) (key : bytes) (val : robj) : M unit :=
  db ← database d;
  redisAssert (bool_decide (db_dict db !! key = None));;
  on_db d (set_dict (<[key := val]>)).

(** The assertion: the key must exist. *)
Definition dbOverwrite (d : nat) (key : bytes) (val : robj) : M unit :=
  db ← database d;
  redisAssert (bool_decide (is_Some (db_dict db !! key)));;
  on_db d (set_dict (<[key := val]>)).

Definition removeExpire (d : nat) (key : bytes) : M bool :=
  db ← database d;
  redisAssert (bool_decide (is_Some (db_dict db !! key)));;
  on_db d (set_expires (delete key));;
  mret (bool_decide (is_Some (db_expires db !! key))).

Definition setExpire (d : nat) (key : bytes) (when_ : Z) : M unit :=
  db ← database d;
  redisAssert (bool_decide (is_Some (db_dict db !! key)));;
  on_db d (set_expires (<[key := when_]>)).

Definition setKey (d : nat) (key : bytes) (val : robj) : M unit :=
  o ← lookupKeyWrite d key;
  match o with
  | None => dbAdd d key val
  | Some _ => dbOverwrite d key val
  end;;
  removeExpire d key;;
  signalModifiedKey d key.

Definition dbExists (d : nat) (key : bytes) : M bool :=
  db ← database d; mret (bool_decide (is_Some (db_dict db !! key))).

(** The number of keys removed from all databases. *)
Definition emptyDb : M Z := fun s =>
  Some (foldr (fun db n => n + Z.of_nat (base.size (db_dict db))) 0 (s_db s),
        set_dbs ((fun db => RedisDb ∅ ∅ (db_watched db)) <$> s_db s) s).

(** The flag is true for [REDIS_OK]. *)
Definition selectDb (c : client_id) (id : Z) : M bool :=
  n ← gets (fun s => zlen (s_db s));
  if bool_decide (id < 0 \/ id >= n) then mret false
  else on_client c (set_c_db (Z.to_nat id));; mret true.

(** True when the object has another type, after an error reply. *)
Definition checkType (c : client_id) (o : robj) (t : obj_type) : M bool :=
  if bool_decide (type_of o = t) then mret false
  else addReplyError c "Operation against a key holding the wrong kind of value";; mret true.

End Api.
