(* ===== verification/StringCommands.v ===== *)
(** * String commands ([t_string.c])

    Every handler reads its arguments from the client [c] and replies to it.
    INCRBYFLOAT is left out: it depends on [long double] parsing and printing.
    Reference counts are not modelled: where the code copies a shared or
    encoded object before it writes to it, the model replaces the value of the
    key. *)
From Stdlib Require Import String.
From S2P Require Import Prelude Util Sds Server.

Section StringCommands.
Context (clock : nat -> Z).

(** The flag is true for [REDIS_OK]; [size] is a [long long]. *)
Definition checkStringLength (c : client_id) (size : Z) : M bool :=
  if bool_decide (size > 512 * 1024 * 1024)
  then addReplyError c "string exceeds maximum allowed size (512MB)";; mret false
  else mret true.

Inductive time_unit := UNIT_SECONDS | UNIT_MILLISECONDS.

Record set_flags := SetFlags { set_nx : bool; set_xx : bool }.

(** The expire argument of [setGenericCommand]: [None] after an error reply,
    [Some None] when there is none. *)
Definition parse_expire (c : client_id) (expire : option bytes) (unit : time_unit) : M (option (option Z)) :=
  match expire with
  | None => mret (Some None)
  | Some e =>
      r ← getLongLongFromObjectOrReply c (Some (Raw e));
      match r with
      | None => mret None
      | Some ms =>
          if bool_decide (ms <= 0)
          then addReplyError c "invalid expire time in SETEX";; mret None
          else mret (Some (Some (match unit with UNIT_SECONDS => swrap 64 (ms * 1000)
                                               | UNIT_MILLISECONDS => ms end)))
      end
  end.

(** [flags & NX && lookupKeyWrite(key) != NULL || flags & XX && lookupKeyWrite(key) == NULL] *)
Definition set_aborted (d : nat) (flags : set_flags) (key : bytes) : M bool :=
  nx ← (if set_nx flags then o ← lookupKeyWrite clock d key; mret (bool_decide (is_Some o)) else mret false);
  if (nx : bool) then mret true
  else if set_xx flags then o ← lookupKeyWrite clock d key; mret (bool_decide (o = None))
  else mret false.

Definition setGenericCommand (c : client_id) (flags : set_flags) (key : bytes) (val : robj)
    (expire : option bytes) (unit : time_unit) (ok_reply abort_reply : redis_reply) : M () :=
  ms ← parse_expire c expire unit;
  match ms with
  | None => mret tt
  | Some milliseconds =>
      d ← current_db c;
      aborted ← set_aborted d flags key;
      if (aborted : bool) then addReply c abort_reply
      else
        setKey clock d key val;;
        add_dirty 1;;
        (match milliseconds with
         | Some ms => now ← mstime clock; setExpire d key (swrap 64 (now + ms))
         | None => mret tt
         end);;
        notifyKeyspaceEvent NOTIFY_STRING "set" key d;;
        (match milliseconds with
         | Some _ => notifyKeyspaceEvent NOTIFY_GENERIC "expire" key d
         | None => mret tt
         end);;
        addReply c ok_reply
  end.

(** [a] is the two-letter option [x y], in any case. *)
Definition is_option (a : bytes) (x y : Z) : bool := bool_decide (tolower <$> c_str a = [x; y]).

(** The loop of [setCommand] over the options: [None] is the syntax error. *)
Fixpoint parse_set_options (opts : list bytes) (flags : set_flags) (expire : option bytes)
    (unit : time_unit) : option (set_flags * option bytes * time_unit) :=
  match opts with
  | [] => Some (flags, expire, unit)
  | a :: rest =>
      if is_option a 110 120 then parse_set_options rest (SetFlags true (set_xx flags)) expire unit
      else if is_option a 120 120 then parse_set_options rest (SetFlags (set_nx flags) true) expire unit
      else if is_option a 101 120 then
        match rest with
        | next :: rest => parse_set_options rest flags (Some next) UNIT_SECONDS
        | [] => None
        end
      else if is_option a 112 120 then
        match rest with
        | next :: rest => parse_set_options rest flags (Some next) UNIT_MILLISECONDS
        | [] => None
        end
      else None
  end.

Definition setCommand (c : client_id) : M () :=
  cl ← client c;
  match parse_set_options (drop 3 (c_argv cl)) (SetFlags false false) None UNIT_SECONDS with
  | None => addReplyError c "syntax error"
  | Some (flags, expire, unit) =>
      key ← argv c 1;
      val ← argv c 2;
      setGenericCommand c flags key (tryObjectEncoding val) expire unit ReplyOk ReplyNullBulk
  end.

Definition setnxCommand (c : client_id) : M () :=
  key ← argv c 1; val ← argv c 2;
  setGenericCommand c (SetFlags true false) key (tryObjectEncoding val) None UNIT_SECONDS
    (ReplyInt 1) (ReplyInt 0).

Definition setexCommand (c : client_id) : M () :=
  key ← argv c 1; expire ← argv c 2; val ← argv c 3;
  setGenericCommand c (SetFlags false false) key (tryObjectEncoding val) (Some expire) UNIT_SECONDS
    ReplyOk ReplyNullBulk.

Definition psetexCommand (c : client_id) : M () :=
  key ← argv c 1; expire ← argv c 2; val ← argv c 3;
  setGenericCommand c (SetFlags false false) key (tryObjectEncoding val) (Some expire) UNIT_MILLISECONDS
    ReplyOk ReplyNullBulk.

(** [addReplyBulk] of a string object. *)
Definition addReplyBulk (c : client_id) (o : robj) : M () :=
  s ← lift (getDecodedObject o); addReply c (ReplyBulk s).

(** The flag is true for [REDIS_OK]. *)
Definition getGenericCommand (c : client_id) : M bool :=
  key ← argv c 1;
  d ← current_db c;
  r ← lookupKeyReadOrReply clock c d key ReplyNullBulk;
  match r with
  | None => mret true
  | Some o =>
      wrong ← checkType c o REDIS_STRING;
      if (wrong : bool) then mret false else addReplyBulk c o;; mret true
  end.

Definition getCommand (c : client_id) : M () := getGenericCommand c;; mret tt.

Definition getsetCommand (c : client_id) : M () :=
  key ← argv c 1; val ← argv c 2;
  d ← current_db c;
  ok ← getGenericCommand c;
  if (ok : bool) then
    setKey clock d key (tryObjectEncoding val);;
    notifyKeyspaceEvent NOTIFY_STRING "set" key d;;
    add_dirty 1
  else mret tt.

(** [sdsgrowzero] and [memcpy] at [offset]; growing a string beyond what
    [checkStringLength] admits happens only after an overflow of its argument,
    to a size that cannot be allocated. *)
Definition write_range (s : bytes) (offset : Z) (value : bytes) : option bytes :=
  let n := uwrap 64 (offset + zlen value) in
  if bool_decide (n > 512 * 1024 * 1024) then None
  else
    let s := s ++ replicate (Z.to_nat (n - zlen s)) 0 in
    Some (mem_write (Z.to_nat offset) value s).

Definition setrangeCommand (c : client_id) : M () :=
  key ← argv c 1; off ← argv c 2; value ← argv c 3;
  d ← current_db c;
  r ← getLongLongFromObjectOrReply c (Some (Raw off));
  match r with
  | None => mret tt
  | Some offset =>
      if bool_decide (offset < 0) then addReplyError c "offset is out of range"
      else
        o ← lookupKeyWrite clock d key;
        (* the string to write to, or nothing after a reply *)
        s ← match o with
            | None =>
                if bool_decide (value = []) then addReply c (ReplyInt 0);; mret None
                else
                  ok ← checkStringLength c (swrap 64 (uwrap 64 (offset + zlen value)));
                  if (ok : bool) then dbAdd d key (Raw []);; mret (Some []) else mret None
            | Some o =>
                wrong ← checkType c o REDIS_STRING;
                if (wrong : bool) then mret None
                else
                  s ← lift (getDecodedObject o);
                  if bool_decide (value = []) then addReply c (ReplyInt (zlen s));; mret None
                  else
                    ok ← checkStringLength c (swrap 64 (uwrap 64 (offset + zlen value)));
                    if (ok : bool) then mret (Some s) else mret None
            end;
        match s with
        | None => mret tt
        | Some s =>
            s' ← lift (write_range s offset value);
            dbOverwrite d key (Raw s');;
            signalModifiedKey d key;;
            notifyKeyspaceEvent NOTIFY_STRING "setrange" key d;;
            add_dirty 1;;
            addReply c (ReplyInt (zlen s'))
        end
  end.

(** The bounds of [getrangeCommand] on a string of [n] bytes, [start] and
    [end] being [long]s; the comparison with the length converts [end] to
    [unsigned int]. *)
Definition getrange_bounds (n start end_ : Z) : Z * Z :=
  let start := if bool_decide (start < 0) then swrap 64 (uwrap 64 (n + start)) else start in
  let end_ := if bool_decide (end_ < 0) then swrap 64 (uwrap 64 (n + end_)) else end_ in
  let start := if bool_decide (start < 0) then 0 else start in
  let end_ := if bool_decide (end_ < 0) then 0 else end_ in
  let end_ := if bool_decide (uwrap 32 end_ >= n) then swrap 64 (uwrap 64 (n - 1)) else end_ in
  (start, end_).

(** Reading [len] bytes at [start]: [None] outside the string. *)
Definition read_bytes (s : bytes) (start len : Z) : option bytes :=
  if bool_decide (start + len > zlen s) then None
  else Some (mem_read (Z.to_nat start) (Z.to_nat len) s).

Definition getrangeCommand (c : client_id) : M () :=
  key ← argv c 1; a ← argv c 2; b ← argv c 3;
  d ← current_db c;
  rs ← getLongLongFromObjectOrReply c (Some (Raw a));
  match rs with
  | None => mret tt
  | Some start =>
      re ← getLongLongFromObjectOrReply c (Some (Raw b));
      match re with
      | None => mret tt
      | Some end_ =>
          r ← lookupKeyReadOrReply clock c d key ReplyEmptyBulk;
          match r with
          | None => mret tt
          | Some o =>
              wrong ← checkType c o REDIS_STRING;
              if (wrong : bool) then mret tt
              else
                str ← lift (getDecodedObject o);
                let '(start, end_) := getrange_bounds (zlen str) start end_ in
                if bool_decide (start > end_) then addReply c ReplyEmptyBulk
                else
                  r ← lift (read_bytes str start (end_ - start + 1));
                  addReply c (ReplyBulk r)
          end
      end
  end.

Fixpoint mget_loop (c : client_id) (d : nat) (keys : list bytes) : M () :=
  match keys with
  | [] => mret tt
  | key :: keys =>
      o ← lookupKeyRead clock d key;
      (match o with
       | None => addReply c ReplyNullBulk
       | Some o => if bool_decide (type_of o <> REDIS_STRING) then addReply c ReplyNullBulk
                   else addReplyBulk c o
       end);;
      mget_loop c d keys
  end.

Definition mgetCommand (c : client_id) : M () :=
  cl ← client c;
  addReply c (ReplyMultiBulkLen (zlen (c_argv cl) - 1));;
  mget_loop c (c_db cl) (drop 1 (c_argv cl)).

(** The first loop of [msetGenericCommand]: how many of the keys exist. *)
Fixpoint count_busy (d : nat) (kvs : list bytes) : M Z :=
  match kvs with
  | key :: _ :: kvs =>
      o ← lookupKeyWrite clock d key;
      n ← count_busy d kvs;
      mret (match o with Some _ => n + 1 | None => n end)
  | _ => mret 0
  end.

Fixpoint mset_loop (d : nat) (kvs : list bytes) : M () :=
  match kvs with
  | key :: val :: kvs =>
      setKey clock d key (tryObjectEncoding val);;
      notifyKeyspaceEvent NOTIFY_STRING "set" key d;;
      mset_loop d kvs
  | _ => mret tt
  end.

Definition msetGenericCommand (c : client_id) (nx : bool) : M () :=
  cl ← client c;
  let d := c_db cl in
  let n := length (c_argv cl) in
  let kvs := drop 1 (c_argv cl) in
  if bool_decide (n `mod` 2 = 0)%nat then addReplyError c "wrong number of arguments for MSET"
  else
    busykeys ← (if nx then count_busy d kvs else mret 0);
    if bool_decide (busykeys <> 0) then addReply c (ReplyInt 0)
    else
      mset_loop d kvs;;
      add_dirty ((Z.of_nat n - 1) `div` 2);;
      addReply c (if nx then ReplyInt 1 else ReplyOk).

Definition msetCommand (c : client_id) : M () := msetGenericCommand c false.
Definition msetnxCommand (c : client_id) : M () := msetGenericCommand c true.

(** The overflow test of [incrDecrCommand]. *)
Definition incr_overflows (oldvalue incr : Z) : bool :=
  bool_decide ((incr < 0 /\ oldvalue < 0 /\ incr < LLONG_MIN - oldvalue) \/
               (incr > 0 /\ oldvalue > 0 /\ incr > LLONG_MAX - oldvalue)).

Definition incrDecrCommand (c : client_id) (incr : Z) : M () :=
  key ← argv c 1;
  d ← current_db c;
  o ← lookupKeyWrite clock d key;
  wrong ← match o with Some o => checkType c o REDIS_STRING | None => mret false end;
  if (wrong : bool) then mret tt
  else
    r ← getLongLongFromObjectOrReply c o;
    match r with
    | None => mret tt
    | Some value =>
        if incr_overflows value incr then addReplyError c "increment or decrement would overflow"
        else
          let value := swrap 64 (value + incr) in
          let new := createStringObjectFromLongLong value in
          (match o with Some _ => dbOverwrite d key new | None => dbAdd d key new end);;
          signalModifiedKey d key;;
          notifyKeyspaceEvent NOTIFY_STRING "incrby" key d;;
          add_dirty 1;;
          addReply c (ReplyInt value)
    end.

Definition incrCommand (c : client_id) : M () := incrDecrCommand c 1.
Definition decrCommand (c : client_id) : M () := incrDecrCommand c (-1).

Definition incrbyCommand (c : client_id) : M () :=
  a ← argv c 2;
  r ← getLongLongFromObjectOrReply c (Some (Raw a));
  match r with Some incr => incrDecrCommand c incr | None => mret tt end.

Definition decrbyCommand (c : client_id) : M () :=
  a ← argv c 2;
  r ← getLongLongFromObjectOrReply c (Some (Raw a));
  match r with Some incr => incrDecrCommand c (swrap 64 (- incr)) | None => mret tt end.

Definition appendCommand (c : client_id) : M () :=
  key ← argv c 1; append ← argv c 2;
  d ← current_db c;
  o ← lookupKeyWrite clock d key;
  totlen ← match o with
           | None =>
               dbAdd d key (tryObjectEncoding append);;
               n ← lift (stringObjectLen (tryObjectEncoding append)); mret (Some n)
           | Some o =>
               wrong ← checkType c o REDIS_STRING;
               if (wrong : bool) then mret None
               else
                 s ← lift (getDecodedObject o);
                 ok ← checkStringLength c (zlen s + zlen append);
                 if (ok : bool) then
                   dbOverwrite d key (Raw (s ++ append));; mret (Some (zlen (s ++ append)))
                 else mret None
           end;
  match totlen with
  | None => mret tt
  | Some totlen =>
      signalModifiedKey d key;;
      notifyKeyspaceEvent NOTIFY_STRING "append" key d;;
      add_dirty 1;;
      addReply c (ReplyInt totlen)
  end.

Definition strlenCommand (c : client_id) : M () :=
  key ← argv c 1;
  d ← current_db c;
  r ← lookupKeyReadOrReply clock c d key (ReplyInt 0);
  match r with
  | None => mret tt
  | Some o =>
      wrong ← checkType c o REDIS_STRING;
      if (wrong : bool) then mret tt
      else n ← lift (stringObjectLen o); addReply c (ReplyInt n)
  end.

End StringCommands.
