(* ===== verification/Transactions.v ===== *)
(** * Key space commands, transactions and command dispatch
      ([db.c], [multi.c], [redis.c])

    The generic commands on keys and their expiration, MULTI/EXEC/WATCH, and
    the execution of a command: table, arity, queueing, [call] with its
    propagation.  SHUTDOWN, KEYS, RANDOMKEY, SCAN and MONITOR feeding are left
    out. *)
From Stdlib Require Import String.
From S2P Require Import Prelude ClientFlags Util Sds SdsArgs Server StringCommands.

Section Commands.
Context (clock : nat -> Z).

(** ** Commands on keys *)

Fixpoint del_loop (d : nat) (keys : list bytes) : M Z :=
  match keys with
  | [] => mret 0
  | key :: keys =>
      deleted ← dbDelete d key;
      (if (deleted : bool) then
         signalModifiedKey d key;;
         notifyKeyspaceEvent NOTIFY_GENERIC "del" key d;;
         add_dirty 1
       else mret tt);;
      n ← del_loop d keys;
      mret (if (deleted : bool) then n + 1 else n)
  end.

Definition delCommand (c : client_id) : M () :=
  cl ← client c;
  deleted ← del_loop (c_db cl) (drop 1 (c_argv cl));
  addReply c (ReplyInt deleted).

Definition existsCommand (c : client_id) : M () :=
  key ← argv c 1;
  d ← current_db c;
  expireIfNeeded clock d key;;
  found ← dbExists d key;
  addReply c (ReplyInt (if (found : bool) then 1 else 0)).

Definition selectCommand (c : client_id) : M () :=
  a ← argv c 1;
  r ← lift (getLongLongFromObject (Some (Raw a)));
  match r with
  | None => addReplyError c "invalid DB index"
  | Some id =>
      (* the parameter of selectDb is an int *)
      ok ← selectDb c (swrap 32 id);
      if (ok : bool) then addReply c ReplyOk else addReplyError c "invalid DB index"
  end.

Definition dbsizeCommand (c : client_id) : M () :=
  d ← current_db c;
  db ← database d;
  addReply c (ReplyInt (Z.of_nat (base.size (db_dict db)))).

Definition type_name (t : obj_type) : string :=
  match t with
  | REDIS_STRING => "string" | REDIS_LIST => "list" | REDIS_SET => "set"
  | REDIS_ZSET => "zset" | REDIS_HASH => "hash"
  end.

Definition typeCommand (c : client_id) : M () :=
  key ← argv c 1;
  d ← current_db c;
  o ← lookupKeyRead clock d key;
  addReply c (ReplyStatus (match o with None => "none" | Some o => type_name (type_of o) end)).

Definition flushdbCommand (c : client_id) : M () :=
  d ← current_db c;
  db ← database d;
  add_dirty (Z.of_nat (base.size (db_dict db)));;
  touchWatchedKeysOnFlush (Some d);;
  on_db d (fun db => RedisDb ∅ ∅ (db_watched db));;
  addReply c ReplyOk.

(** Without the snapshot child; [rdbSave], when it runs, does not change the
    state, and [saved_dirty] is an [int]. *)
Definition flushallCommand (c : client_id) : M () :=
  touchWatchedKeysOnFlush None;;
  n ← emptyDb;
  add_dirty n;;
  addReply c ReplyOk;;
  conf ← gets s_conf;
  (if bool_decide (saveparamslen conf > 0)
   then modify (fun s => set_dirty (swrap 32 (s_dirty s)) s) else mret tt);;
  add_dirty 1.

Definition renameGenericCommand (c : client_id) (nx : bool) : M () :=
  src ← argv c 1; dst ← argv c 2;
  d ← current_db c;
  if bool_decide (src = dst)
  then addReplyError c "source and destination objects are the same"
  else
    r ← lookupKeyWriteOrReply clock c d src (ReplyError "no such key");
    match r with
    | None => mret tt
    | Some o =>
        expire ← getExpire d src;
        target ← lookupKeyWrite clock d dst;
        if bool_decide (is_Some target) && nx then addReply c (ReplyInt 0)
        else
          (match target with Some _ => dbDelete d dst;; mret tt | None => mret tt end);;
          dbAdd d dst o;;
          (if bool_decide (expire <> -1) then setExpire d dst expire else mret tt);;
          dbDelete d src;;
          signalModifiedKey d src;;
          signalModifiedKey d dst;;
          notifyKeyspaceEvent NOTIFY_GENERIC "rename_from" src d;;
          notifyKeyspaceEvent NOTIFY_GENERIC "rename_to" dst d;;
          add_dirty 1;;
          addReply c (if nx then ReplyInt 1 else ReplyOk)
    end.

Definition renameCommand (c : client_id) : M () := renameGenericCommand c false.
Definition renamenxCommand (c : client_id) : M () := renameGenericCommand c true.

(** [atoi] of the C library, through [strtoll]. *)
Definition atoi (s : bytes) : Z := swrap 32 (let '(v, _, _) := strtoll s in v).

Definition moveCommand (c : client_id) : M () :=
  key ← argv c 1; a ← argv c 2;
  src ← current_db c;
  ok ← selectDb c (atoi a);
  if (ok : bool) then
    dst ← current_db c;
    selectDb c (Z.of_nat src);;
    if bool_decide (src = dst) then addReplyError c "source and destination objects are the same"
    else
      o ← lookupKeyWrite clock src key;
      match o with
      | None => addReply c (ReplyInt 0)
      | Some o =>
          target ← lookupKeyWrite clock dst key;
          match target with
          | Some _ => addReply c (ReplyInt 0)
          | None =>
              dbAdd dst key o;;
              dbDelete src key;;
              add_dirty 1;;
              addReply c (ReplyInt 1)
          end
      end
  else addReplyError c "index out of range".

(** [rewriteClientCommandVector] as the command is propagated. *)
Definition rewriteClientCommandVector (c : client_id) (av : list bytes) : M () :=
  on_client c (set_c_argv av).

Definition expireGenericCommand (c : client_id) (basetime : Z) (unit : time_unit) : M () :=
  key ← argv c 1; param ← argv c 2;
  d ← current_db c;
  r ← getLongLongFromObjectOrReply c (Some (Raw param));
  match r with
  | None => mret tt
  | Some when_ =>
      let when_ := match unit with UNIT_SECONDS => swrap 64 (when_ * 1000) | UNIT_MILLISECONDS => when_ end in
      let when_ := swrap 64 (when_ + basetime) in
      o ← lookupKeyRead clock d key;
      match o with
      | None => addReply c (ReplyInt 0)
      | Some _ =>
          now ← mstime clock;
          conf ← gets s_conf;
          if bool_decide (when_ <= now) && negb (loading conf) && negb (masterhost conf) then
            deleted ← dbDelete d key;
            redisAssert deleted;;
            add_dirty 1;;
            rewriteClientCommandVector c [[68; 69; 76]; key];;
            signalModifiedKey d key;;
            notifyKeyspaceEvent NOTIFY_GENERIC "del" key d;;
            addReply c (ReplyInt 1)
          else
            setExpire d key when_;;
            addReply c (ReplyInt 1);;
            signalModifiedKey d key;;
            notifyKeyspaceEvent NOTIFY_GENERIC "expire" key d;;
            add_dirty 1
      end
  end.

Definition expireCommand (c : client_id) : M () :=
  now ← mstime clock; expireGenericCommand c now UNIT_SECONDS.
Definition expireatCommand (c : client_id) : M () := expireGenericCommand c 0 UNIT_SECONDS.
Definition pexpireCommand (c : client_id) : M () :=
  now ← mstime clock; expireGenericCommand c now UNIT_MILLISECONDS.
Definition pexpireatCommand (c : client_id) : M () := expireGenericCommand c 0 UNIT_MILLISECONDS.

Definition ttlGenericCommand (c : client_id) (output_ms : bool) : M () :=
  key ← argv c 1;
  d ← current_db c;
  o ← lookupKeyRead clock d key;
  match o with
  | None => addReply c (ReplyInt (-2))
  | Some _ =>
      expire ← getExpire d key;
      ttl ← (if bool_decide (expire <> -1)
             then now ← mstime clock; mret (let ttl := swrap 64 (expire - now) in if bool_decide (ttl < 0) then 0 else ttl)
             else mret (-1));
      addReply c (ReplyInt (if bool_decide (ttl = -1) then -1
                            else if output_ms then ttl else swrap 64 (ttl + 500) `quot` 1000))
  end.

Definition ttlCommand (c : client_id) : M () := ttlGenericCommand c false.
Definition pttlCommand (c : client_id) : M () := ttlGenericCommand c true.

Definition persistCommand (c : client_id) : M () :=
  key ← argv c 1;
  d ← current_db c;
  found ← dbExists d key;
  if (found : bool) then
    removed ← removeExpire d key;
    if (removed : bool) then addReply c (ReplyInt 1);; add_dirty 1
    else addReply c (ReplyInt 0)
  else addReply c (ReplyInt 0).

(** ** Transactions *)

(** One iteration of the loop of [unwatchAllKeys]; the assertion: the key has a
    list of clients, from which the client is removed. *)
Definition unwatch_one (c : client_id) (d : nat) (key : bytes) : M () :=
  db ← database d;
  clients ← lift (db_watched db !! key);
  '(i, _) ← lift (list_find (fun w => w = c) clients);
  let clients := delete i clients in
  on_db d (set_watched (fun m => match clients with [] => delete key m | _ => <[key := clients]> m end)).

Fixpoint unwatch_loop (c : client_id) (keys : list (nat * bytes)) : M () :=
  match keys with
  | [] => mret tt
  | (d, key) :: keys =>
      unwatch_one c d key;;
      on_client c (set_c_watched keys);;
      unwatch_loop c keys
  end.

Definition unwatchAllKeys (c : client_id) : M () :=
  cl ← client c; unwatch_loop c (c_watched cl).

Definition watchForKey (c : client_id) (key : bytes) : M () :=
  cl ← client c;
  if bool_decide ((c_db cl, key) ∈ c_watched cl) then mret tt
  else
    on_db (c_db cl) (set_watched (fun m => <[key := default [] (m !! key) ++ [c]]> m));;
    on_client c (fun cl => set_c_watched (c_watched cl ++ [(c_db cl, key)]) cl).

Fixpoint watch_loop (c : client_id) (keys : list bytes) : M () :=
  match keys with
  | [] => mret tt
  | key :: keys => watchForKey c key;; watch_loop c keys
  end.

Definition watchCommand (c : client_id) : M () :=
  cl ← client c;
  if flag_on REDIS_MULTI cl then addReplyError c "WATCH inside MULTI is not allowed"
  else watch_loop c (drop 1 (c_argv cl));; addReply c ReplyOk.

Definition unwatchCommand (c : client_id) : M () :=
  unwatchAllKeys c;;
  on_client c (flag_clear REDIS_DIRTY_CAS);;
  addReply c ReplyOk.

(** [freeClientMultiState] and [initClientMultiState]. *)
Definition discardTransaction (c : client_id) : M () :=
  on_client c (set_c_mstate []);;
  on_client c (flag_clear (Z.lor REDIS_MULTI (Z.lor REDIS_DIRTY_CAS REDIS_DIRTY_EXEC)));;
  unwatchAllKeys c.

Definition flagTransaction (c : client_id) : M () :=
  on_client c (fun cl => if flag_on REDIS_MULTI cl then flag_set REDIS_DIRTY_EXEC cl else cl).

Definition multiCommand (c : client_id) : M () :=
  cl ← client c;
  if flag_on REDIS_MULTI cl then addReplyError c "MULTI calls can not be nested"
  else on_client c (flag_set REDIS_MULTI);; addReply c ReplyOk.

Definition discardCommand (c : client_id) : M () :=
  cl ← client c;
  if flag_on REDIS_MULTI cl then discardTransaction c;; addReply c ReplyOk
  else addReplyError c "DISCARD without MULTI".

Definition queueMultiCommand (c : client_id) (cmd : command) : M () :=
  on_client c (fun cl => set_c_mstate (c_mstate cl ++ [(cmd, c_argv cl)]) cl).

(** ** Execution of commands *)

(** The table [redisCommandTable]: arity (negative for a minimum), and whether
    the command has the read-only flag. *)
Definition arity (cmd : command) : Z :=
  match cmd with
  | CmdGet => 2 | CmdSet => -3 | CmdSetnx => 3 | CmdSetex => 4 | CmdPsetex => 4
  | CmdAppend => 3 | CmdStrlen => 2 | CmdDel => -2 | CmdExists => 2
  | CmdSetrange => 4 | CmdGetrange => 4 | CmdIncr => 2 | CmdDecr => 2
  | CmdIncrby => 3 | CmdDecrby => 3 | CmdGetset => 3
  | CmdMget => -2 | CmdMset => -3 | CmdMsetnx => -3
  | CmdSelect => 2 | CmdMove => 3 | CmdRename => 3 | CmdRenamenx => 3
  | CmdExpire => 3 | CmdExpireat => 3 | CmdPexpire => 3 | CmdPexpireat => 3
  | CmdTtl => 2 | CmdPttl => 2 | CmdPersist => 2
  | CmdDbsize => 1 | CmdType => 2 | CmdFlushdb => 1 | CmdFlushall => 1
  | CmdMulti => 1 | CmdExec => 1 | CmdDiscard => 1 | CmdWatch => -2 | CmdUnwatch => 1
  end.

Definition is_readonly (cmd : command) : bool :=
  match cmd with
  | CmdGet | CmdStrlen | CmdExists | CmdGetrange | CmdMget | CmdSelect | CmdTtl | CmdPttl
  | CmdDbsize | CmdType | CmdMulti | CmdDiscard | CmdWatch | CmdUnwatch => true
  | _ => false
  end.

(** [c->cmd->proc(c)] for the commands other than EXEC. *)
Definition proc (cmd : command) (c : client_id) : M () :=
  match cmd with
  | CmdGet => getCommand clock c | CmdSet => setCommand clock c | CmdSetnx => setnxCommand clock c
  | CmdSetex => setexCommand clock c | CmdPsetex => psetexCommand clock c
  | CmdAppend => appendCommand clock c | CmdStrlen => strlenCommand clock c
  | CmdDel => delCommand c | CmdExists => existsCommand c
  | CmdSetrange => setrangeCommand clock c | CmdGetrange => getrangeCommand clock c
  | CmdIncr => incrCommand clock c | CmdDecr => decrCommand clock c
  | CmdIncrby => incrbyCommand clock c | CmdDecrby => decrbyCommand clock c
  | CmdGetset => getsetCommand clock c | CmdMget => mgetCommand clock c
  | CmdMset => msetCommand clock c | CmdMsetnx => msetnxCommand clock c
  | CmdSelect => selectCommand c | CmdMove => moveCommand c
  | CmdRename => renameCommand c | CmdRenamenx => renamenxCommand c
  | CmdExpire => expireCommand c | CmdExpireat => expireatCommand c
  | CmdPexpire => pexpireCommand c | CmdPexpireat => pexpireatCommand c
  | CmdTtl => ttlCommand c | CmdPttl => pttlCommand c | CmdPersist => persistCommand c
  | CmdDbsize => dbsizeCommand c | CmdType => typeCommand c
  | CmdFlushdb => flushdbCommand c | CmdFlushall => flushallCommand c
  | CmdMulti => multiCommand c | CmdDiscard => discardCommand c
  | CmdWatch => watchCommand c | CmdUnwatch => unwatchCommand c
  | CmdExec => mret tt
  end.

(** [call], with the propagation of what changed the data set; the flags that
    force propagation are set by none of these commands. *)
Definition call (run : client_id -> M ()) (c : client_id) : M () :=
  dirty0 ← gets s_dirty;
  run c;;
  dirty1 ← gets s_dirty;
  cl ← client c;
  if bool_decide (dirty1 - dirty0 <> 0)
  then propagate (c_db cl) (c_argv cl) (Z.lor REDIS_PROPAGATE_REPL REDIS_PROPAGATE_AOF)
  else mret tt.

(** The loop of [execCommand] over the queued commands; the flag is
    [must_propagate]. *)
Fixpoint exec_loop (c : client_id) (queue : list (command * list bytes)) (must_propagate : bool) : M bool :=
  match queue with
  | [] => mret must_propagate
  | (cmd, av) :: queue =>
      on_client c (set_c_argv av);;
      must_propagate ←
        (if negb must_propagate && negb (is_readonly cmd) then
           d ← current_db c;
           propagate d [[77; 85; 76; 84; 73]] (Z.lor REDIS_PROPAGATE_AOF REDIS_PROPAGATE_REPL);;
           mret true
         else mret must_propagate);
      call (proc cmd) c;;
      exec_loop c queue must_propagate
  end.

Definition execCommand (c : client_id) : M () :=
  cl ← client c;
  if negb (flag_on REDIS_MULTI cl) then addReplyError c "EXEC without MULTI"
  else if flag_on (Z.lor REDIS_DIRTY_CAS REDIS_DIRTY_EXEC) cl then
    addReply c (if flag_on REDIS_DIRTY_EXEC cl
                then ReplyError "Transaction discarded because of previous errors."
                else ReplyNullMultiBulk);;
    discardTransaction c
  else
    unwatchAllKeys c;;
    addReply c (ReplyMultiBulkLen (zlen (c_mstate cl)));;
    must_propagate ← exec_loop c (c_mstate cl) false;
    on_client c (set_c_argv (c_argv cl));;
    discardTransaction c;;
    if (must_propagate : bool) then add_dirty 1 else mret tt.

Definition command_proc (cmd : command) (c : client_id) : M () :=
  match cmd with CmdExec => execCommand c | _ => proc cmd c end.

(** The part of [processCommand] that remains when no limit applies to the
    client or the server: lookup ([None] for an unknown command), arity, and
    queueing inside MULTI. *)
Definition processCommand (c : client_id) (cmd : option command) (av : list bytes) : M () :=
  on_client c (set_c_argv av);;
  match cmd with
  | None => flagTransaction c;; addReplyError c "unknown command"
  | Some cmd =>
      if bool_decide ((arity cmd > 0 /\ arity cmd <> zlen av) \/ zlen av < - arity cmd)
      then flagTransaction c;; addReplyError c "wrong number of arguments"
      else
        cl ← client c;
        if flag_on REDIS_MULTI cl && negb (bool_decide (cmd ∈ [CmdExec; CmdDiscard; CmdMulti; CmdWatch]))
        then queueMultiCommand c cmd;; addReply c ReplyQueued
        else call (command_proc cmd) c
  end.

End Commands.
