(* ===== verification/ServerLogic.v ===== *)
(** * Reasoning about server code

    A weakest-precondition calculus for the monad of [Server], the invariant of
    the server state, and the relation between the states before and after a
    piece of code: which values changed without a signal to the clients that
    watch the key, and whether a change was accounted for in [server.dirty] or
    propagated.  Every primitive of the database API has a lemma [..._wp]. *)
From Stdlib Require Import String.
#[local] Set Warnings "-clear-no-such-hyp".
From S2P Require Import Prelude ClientFlags Util Sds Server.

(** ** Weakest preconditions *)

Definition wp {A} (m : M A) (Q : A -> server -> Prop) (s : server) : Prop :=
  match m s with Some (x, s') => Q x s' | None => False end.

Lemma wp_ret {A} (x : A) (Q : A -> server -> Prop) s : Q x s -> wp (mret x) Q s.
Proof. done. Qed.

Lemma wp_bind {A B} (m : M A) (f : A -> M B) Q s :
  wp m (fun x s' => wp (f x) Q s') s -> wp (m ≫= f) Q s.
Proof. unfold wp, mbind, M_bind. destruct (m s) as [[x s']|]; done. Qed.

Lemma wp_mono {A} (m : M A) (Q Q' : A -> server -> Prop) s :
  wp m Q s -> (forall x s', Q x s' -> Q' x s') -> wp m Q' s.
Proof. unfold wp. destruct (m s) as [[x s']|]; auto. Qed.

Lemma wp_gets {A} (f : server -> A) Q s : Q (f s) s -> wp (gets f) Q s.
Proof. done. Qed.

Lemma wp_assert b Q s : b = true -> Q tt s -> wp (redisAssert b) Q s.
Proof. intros ->. done. Qed.

Lemma wp_lift {A} (o : option A) x Q s : o = Some x -> Q x s -> wp (lift o) Q s.
Proof. intros ->. done. Qed.

Lemma wp_client c cl Q s : s_clients s !! c = Some cl -> Q cl s -> wp (client c) Q s.
Proof. unfold wp, client, lift. intros ->. done. Qed.

Lemma wp_argv c j cl av Q s :
  s_clients s !! c = Some cl -> c_argv cl !! j = Some av -> Q av s -> wp (argv c j) Q s.
Proof.
  intros Hc Hj HQ. apply wp_bind, (wp_client c cl); [done|]. by eapply wp_lift.
Qed.

Lemma wp_current_db c cl Q s : s_clients s !! c = Some cl -> Q (c_db cl) s -> wp (current_db c) Q s.
Proof. intros Hc HQ. by apply wp_bind, (wp_client c cl). Qed.

Lemma wp_database d db Q s : s_db s !! d = Some db -> Q db s -> wp (database d) Q s.
Proof. unfold wp, database, lift. intros ->. done. Qed.

(** ** The invariant *)

Definition value (s : server) (d : nat) (k : bytes) : option robj :=
  db ← s_db s !! d; db_dict db !! k.

Definition watches (s : server) (w : client_id) (d : nat) (k : bytes) : Prop :=
  exists cl, s_clients s !! w = Some cl /\ (d, k) ∈ c_watched cl.

(** No string is longer than 512 MB. *)
Definition size_ok (o : robj) : Prop :=
  match o with Raw s => zlen s <= sds_max | IntObj v => srange 64 v | Other t _ => t <> REDIS_STRING end.

Record server_inv (s : server) : Prop := {
  inv_expires : forall d db k, s_db s !! d = Some db ->
    is_Some (db_expires db !! k) -> is_Some (db_dict db !! k);
  inv_sizes : forall d k o, value s d k = Some o -> size_ok o;
  inv_watch : forall d db k w, s_db s !! d = Some db ->
    (w ∈ default [] (db_watched db !! k) <-> watches s w d k);
  inv_watch_nodup : forall d db k, s_db s !! d = Some db -> NoDup (default [] (db_watched db !! k));
  inv_watched_nodup : forall w cl, s_clients s !! w = Some cl -> NoDup (c_watched cl);
  inv_db_range : forall w cl, s_clients s !! w = Some cl -> (c_db cl < length (s_db s))%nat;
  inv_watched_range : forall w d k, watches s w d k -> (d < length (s_db s))%nat;
}.

(** ** Effects *)

Definition marked (s : server) (w : client_id) : Prop :=
  exists cl, s_clients s !! w = Some cl /\ flag_on REDIS_DIRTY_CAS cl = true.

Definition all_marked (s : server) (d : nat) (k : bytes) : Prop :=
  forall w, watches s w d k -> marked s w.

(** The key was deleted because it had expired. *)
Definition expired (s s' : server) (d : nat) (k : bytes) : Prop :=
  exists l, s_events s' = s_events s ++ l /\ (NOTIFY_EXPIRED, "expired"%string, k, d) ∈ l.

Definition data (s : server) : list (gmap bytes robj * gmap bytes Z) :=
  (fun db => (db_dict db, db_expires db)) <$> s_db s.

(** A client keeps its watched keys and its queue, and stays marked. *)
Definition client_kept (cl cl' : rclient) : Prop :=
  c_watched cl' = c_watched cl /\ c_mstate cl' = c_mstate cl /\
  (flag_on REDIS_DIRTY_CAS cl = true -> flag_on REDIS_DIRTY_CAS cl' = true).

(** How changes of the data since some state stand: all accounted for, some
    pending, or something was added to [server.dirty] or propagated already, so
    that later changes are accounted for too. *)
Inductive account := Settled | Pending | Paid.

Definition after (a1 a2 : account) : account :=
  match a1, a2 with
  | Paid, _ | _, Paid => Paid
  | Settled, Settled => Settled
  | _, _ => Pending
  end.

Definition paid (s s' : server) : Prop :=
  s_dirty s < s_dirty s' \/ s_propagated s <> s_propagated s'.

Definition acct (a : account) (s s' : server) : Prop :=
  match a with
  | Settled => data s' = data s \/ paid s s'
  | Pending => True
  | Paid => paid s s'
  end.

(** From [s] to [s'], the keys of [D] may have changed without a signal, and
    the changes of the data stand as [a] says. *)
Record eff (D : gset (nat * bytes)) (a : account) (s s' : server) : Prop := {
  eff_value : forall d k, value s' d k = value s d k \/ (d, k) ∈ D \/ all_marked s' d k \/ expired s s' d k;
  eff_clients : forall w, match s_clients s !! w, s_clients s' !! w with
                          | Some cl, Some cl' => client_kept cl cl' | None, None => True | _, _ => False end;
  eff_watched : (db_watched <$> s_db s') = (db_watched <$> s_db s);
  eff_events : s_events s `prefix_of` s_events s';
  eff_propagated : s_propagated s `prefix_of` s_propagated s';
  eff_dirty : s_dirty s <= s_dirty s';
  eff_account : acct a s s';
  eff_conf : s_conf s' = s_conf s;
}.

Lemma client_kept_refl cl : client_kept cl cl.
Proof. done. Qed.

Lemma client_kept_trans cl1 cl2 cl3 : client_kept cl1 cl2 -> client_kept cl2 cl3 -> client_kept cl1 cl3.
Proof. intros (H1 & H2 & H3) (H4 & H5 & H6). split_and!; [congruence|congruence|auto]. Qed.

Lemma eff_refl s : eff ∅ Settled s s.
Proof.
  constructor; try done; [by left| |by left].
  intros w. destruct (s_clients s !! w); [apply client_kept_refl|done].
Qed.

Lemma eff_watches D b s s' w d k : eff D b s s' -> watches s' w d k <-> watches s w d k.
Proof.
  intros He. pose proof (eff_clients _ _ _ _ He w) as Hw. unfold watches.
  destruct (s_clients s !! w) as [cl|], (s_clients s' !! w) as [cl'|]; try done.
  - destruct Hw as (Heq & _). split; intros (x & [= <-] & Hin); eexists; (split; [done|]); congruence.
Qed.

Lemma eff_marked D b s s' w : eff D b s s' -> marked s w -> marked s' w.
Proof.
  intros He (cl & Hcl & Hm). pose proof (eff_clients _ _ _ _ He w) as Hw. rewrite Hcl in Hw.
  destruct (s_clients s' !! w) as [cl'|] eqn:Hcl'; [|done]. destruct Hw as (_ & _ & Hf). exists cl'. auto.
Qed.

Lemma eff_all_marked D b s s' d k : eff D b s s' -> all_marked s d k -> all_marked s' d k.
Proof.
  intros He Hm w Hw. apply (eff_marked _ _ _ _ _ He), Hm, (eff_watches _ _ _ _ _ _ _ He), Hw.
Qed.

Lemma expired_mono_r D b s s1 s2 d k : eff D b s1 s2 -> expired s s1 d k -> expired s s2 d k.
Proof.
  intros He (l & Hl & Hin). destruct (eff_events _ _ _ _ He) as [l2 Hl2].
  exists (l ++ l2). split; [by rewrite Hl2, Hl, app_assoc|]. apply elem_of_app. by left.
Qed.

Lemma expired_mono_l D b s s1 s2 d k : eff D b s s1 -> expired s1 s2 d k -> expired s s2 d k.
Proof.
  intros He (l & Hl & Hin). destruct (eff_events _ _ _ _ He) as [l2 Hl2].
  exists (l2 ++ l). split; [by rewrite Hl, Hl2, app_assoc|]. apply elem_of_app. by right.
Qed.

Lemma paid_l D1 a1 D2 a2 s1 s2 s3 : eff D1 a1 s1 s2 -> eff D2 a2 s2 s3 -> paid s1 s2 -> paid s1 s3.
Proof.
  intros H1 H2 [Hp|Hp]; [left; pose proof (eff_dirty _ _ _ _ H2); lia|right].
  intros Heq. apply Hp, (anti_symm prefix); [apply (eff_propagated _ _ _ _ H1)|].
  rewrite Heq. apply (eff_propagated _ _ _ _ H2).
Qed.

Lemma paid_r D1 a1 D2 a2 s1 s2 s3 : eff D1 a1 s1 s2 -> eff D2 a2 s2 s3 -> paid s2 s3 -> paid s1 s3.
Proof.
  intros H1 H2 [Hp|Hp]; [left; pose proof (eff_dirty _ _ _ _ H1); lia|right].
  intros Heq. apply Hp, (anti_symm prefix); [apply (eff_propagated _ _ _ _ H2)|].
  rewrite <- Heq. apply (eff_propagated _ _ _ _ H1).
Qed.

Lemma eff_trans D1 a1 D2 a2 s1 s2 s3 :
  eff D1 a1 s1 s2 -> eff D2 a2 s2 s3 -> eff (D1 ∪ D2) (after a1 a2) s1 s3.
Proof.
  intros H1 H2. constructor.
  - intros d k. destruct (eff_value _ _ _ _ H2 d k) as [Hv|[Hin|[Hm|He]]].
    + rewrite Hv. destruct (eff_value _ _ _ _ H1 d k) as [Hv1|[Hin|[Hm|He]]]; auto.
      * right; left. set_solver.
      * right; right; left. by eapply eff_all_marked.
      * right; right; right. by eapply expired_mono_r.
    + right; left. set_solver.
    + auto.
    + right; right; right. by eapply expired_mono_l.
  - intros w. pose proof (eff_clients _ _ _ _ H1 w) as Hw1. pose proof (eff_clients _ _ _ _ H2 w) as Hw2.
    destruct (s_clients s1 !! w), (s_clients s2 !! w), (s_clients s3 !! w); try done.
    by eapply client_kept_trans.
  - by rewrite (eff_watched _ _ _ _ H2), (eff_watched _ _ _ _ H1).
  - etrans; [apply (eff_events _ _ _ _ H1)|apply (eff_events _ _ _ _ H2)].
  - etrans; [apply (eff_propagated _ _ _ _ H1)|apply (eff_propagated _ _ _ _ H2)].
  - pose proof (eff_dirty _ _ _ _ H1). pose proof (eff_dirty _ _ _ _ H2). lia.
  - pose proof (paid_l _ _ _ _ _ _ _ H1 H2) as Hl. pose proof (paid_r _ _ _ _ _ _ _ H1 H2) as Hr.
    pose proof (eff_account _ _ _ _ H1) as Ha. pose proof (eff_account _ _ _ _ H2) as Hb.
    destruct a1, a2; simpl in *; auto. destruct Ha, Hb; auto. left. congruence.
  - by rewrite (eff_conf _ _ _ _ H2), (eff_conf _ _ _ _ H1).
Qed.

Lemma eff_weaken D a D' a' s s' :
  eff D a s s' -> D ⊆ D' -> (acct a s s' -> acct a' s s') -> eff D' a' s s'.
Proof.
  intros [] HD Ha. constructor; try done; auto.
  intros d k. destruct (eff_value0 d k) as [|[|]]; auto.
Qed.

(** A client with its database and arguments. *)
Definition my (s : server) (c : client_id) (d : nat) (av : list bytes) : Prop :=
  exists cl, s_clients s !! c = Some cl /\ c_db cl = d /\ c_argv cl = av.

(** The state [s] of a computation for the client [c] that started in [s0]. *)
Record st (s0 : server) (c : client_id) (cd : nat) (av : list bytes)
    (D : gset (nat * bytes)) (a : account) (s : server) : Prop := {
  st_inv : server_inv s;
  st_eff : eff D a s0 s;
  st_my : my s c cd av;
}.

Lemma st_step s0 c cd av D a s D' a' s' :
  st s0 c cd av D a s -> server_inv s' -> eff D' a' s s' -> my s' c cd av ->
  st s0 c cd av (D ∪ D') (after a a') s'.
Proof. intros [_ He _] Hi He' ?. split; [done|by eapply eff_trans|done]. Qed.

Lemma after_settled a : after a Settled = a.
Proof. by destruct a. Qed.

Lemma st_quiet s0 c cd av D a s cd' av' s' :
  st s0 c cd av D a s -> server_inv s' -> eff ∅ Settled s s' -> my s' c cd' av' -> st s0 c cd' av' D a s'.
Proof.
  intros [_ He _] Hi He' ?. split; [done| |done]. pose proof (eff_trans _ _ _ _ _ _ _ He He') as Hx.
  by rewrite after_settled, (right_id_L ∅ (∪)) in Hx.
Qed.

Lemma st_init s c cl :
  server_inv s -> s_clients s !! c = Some cl -> st s c (c_db cl) (c_argv cl) ∅ Settled s.
Proof. intros. split; [done|apply eff_refl|by exists cl]. Qed.

(** ** Primitives *)

Definition expire_of (s : server) (d : nat) (k : bytes) : option Z :=
  db ← s_db s !! d; db_expires db !! k.

Definition in_range (s : server) (d : nat) : Prop := (d < length (s_db s))%nat.

Lemma in_range_lookup s d : in_range s d -> exists db, s_db s !! d = Some db.
Proof. apply lookup_lt_is_Some_2. Qed.

Lemma eff_length D b s s' : eff D b s s' -> length (s_db s') = length (s_db s).
Proof. intros He. by rewrite <- (length_fmap db_watched), (eff_watched _ _ _ _ He), length_fmap. Qed.

Lemma eff_in_range D b s s' d : eff D b s s' -> in_range s' d <-> in_range s d.
Proof. intros He. unfold in_range. by rewrite (eff_length _ _ _ _ He). Qed.

(** Changes that leave the databases alone. *)
Lemma eff_same_db s s' :
  s_db s' = s_db s ->
  (forall w, match s_clients s !! w, s_clients s' !! w with
             | Some cl, Some cl' => client_kept cl cl' | None, None => True | _, _ => False end) ->
  s_events s `prefix_of` s_events s' -> s_propagated s `prefix_of` s_propagated s' ->
  s_dirty s <= s_dirty s' -> s_conf s' = s_conf s -> eff ∅ Settled s s'.
Proof.
  intros Hdb Hcl ?? ??. constructor; try done.
  - intros d k. left. unfold value. by rewrite Hdb.
  - by rewrite Hdb.
  - left. unfold data. by rewrite Hdb.
Qed.

Lemma inv_same_db s s' :
  server_inv s -> s_db s' = s_db s ->
  (forall w, match s_clients s !! w, s_clients s' !! w with
             | Some cl, Some cl' => c_watched cl' = c_watched cl /\ in_range s (c_db cl')
             | None, None => True | _, _ => False end) ->
  server_inv s'.
Proof.
  intros [] Hdb Hcl.
  assert (forall w d k, watches s' w d k <-> watches s w d k) as Hw.
  { intros w d k. specialize (Hcl w). unfold watches.
    destruct (s_clients s !! w), (s_clients s' !! w); try done. destruct Hcl as [Heq _].
    split; intros (x & [= <-] & Hin); eexists; (split; [done|]); congruence. }
  constructor; rewrite ?Hdb; try done.
  - intros d k o. unfold value. rewrite Hdb. apply inv_sizes0.
  - intros. rewrite Hw. eauto.
  - intros w cl' Hcl'. specialize (Hcl w). rewrite Hcl' in Hcl.
    destruct (s_clients s !! w) as [cl|] eqn:Hc; [|done]. destruct Hcl as [-> _]. eauto.
  - intros w cl' Hcl'. specialize (Hcl w). rewrite Hcl' in Hcl.
    destruct (s_clients s !! w) as [cl|] eqn:Hc; [|done]. by destruct Hcl.
  - intros w d k Hx. apply Hw in Hx. eauto.
Qed.

Lemma kept_self s w :
  match s_clients s !! w, s_clients s !! w with
  | Some cl, Some cl' => client_kept cl cl' | None, None => True | _, _ => False end.
Proof. destruct (s_clients s !! w); done. Qed.

Lemma range_self s w :
  server_inv s ->
  match s_clients s !! w, s_clients s !! w with
  | Some cl, Some cl' => c_watched cl' = c_watched cl /\ in_range s (c_db cl')
  | None, None => True | _, _ => False end.
Proof. intros []. destruct (s_clients s !! w) eqn:Hw; [split; [done|]; by eapply inv_db_range0|done]. Qed.

Section Primitives.
Context (s0 : server) (c : client_id).

Lemma st_range cd av D a s d : st s0 c cd av D a s -> in_range s d <-> in_range s0 d.
Proof. intros Hs. apply (eff_in_range _ _ _ _ _ (st_eff _ _ _ _ _ _ _ Hs)). Qed.

Lemma st_in_range cd av D a s : st s0 c cd av D a s -> in_range s0 cd.
Proof.
  intros Hs. apply (st_range _ _ _ _ _ _ Hs). destruct (st_my _ _ _ _ _ _ _ Hs) as (cl & Hcl & <- & _).
  by apply (inv_db_range _ (st_inv _ _ _ _ _ _ _ Hs) _ _ Hcl).
Qed.

(** Counters and logs leave the databases and the clients unchanged. *)
Definition log_only (s s' : server) : Prop := s_db s' = s_db s /\ s_clients s' = s_clients s.

Lemma my_log_only s s' cd av : log_only s s' -> my s c cd av -> my s' c cd av.
Proof. intros [_ Hc]. unfold my. by rewrite Hc. Qed.

Lemma log_wp (f : server -> server) Q cd av D a s :
  log_only s (f s) -> s_conf (f s) = s_conf s ->
  s_events s `prefix_of` s_events (f s) -> s_propagated s `prefix_of` s_propagated (f s) ->
  s_dirty s <= s_dirty (f s) ->
  st s0 c cd av D a s -> (st s0 c cd av D a (f s) -> Q tt (f s)) -> wp (modify f) Q s.
Proof.
  intros Hl ???? Hs HQ. apply HQ. pose proof Hl as [Hdb Hcl].
  eapply st_quiet; [done| | |by eapply my_log_only, st_my].
  - eapply inv_same_db; [by eapply st_inv|done|]. intros w. rewrite Hcl. apply range_self. by eapply st_inv.
  - apply eff_same_db; try done. intros w. rewrite Hcl. apply kept_self.
Qed.

Lemma notify_wp cls ev k d Q cd av D a s :
  st s0 c cd av D a s -> (forall s', st s0 c cd av D a s' -> log_only s s' -> Q tt s') ->
  wp (notifyKeyspaceEvent cls ev k d) Q s.
Proof.
  intros Hs HQ. eapply log_wp; try done; try reflexivity; [by eexists|]. intros Hs'. by apply HQ.
Qed.

Lemma stats_wp (f : Z * Z * Z -> Z * Z * Z) Q cd av D a s :
  st s0 c cd av D a s -> (forall s', st s0 c cd av D a s' -> log_only s s' -> Q tt s') ->
  wp (modify (fun s => set_stats (f (s_stats s)) s)) Q s.
Proof. intros Hs HQ. eapply log_wp; try done; try reflexivity. intros Hs'. by apply HQ. Qed.

Lemma mstime_wp clock Q cd av D a s :
  st s0 c cd av D a s -> (forall t s', st s0 c cd av D a s' -> log_only s s' -> Q t s') -> wp (mstime clock) Q s.
Proof.
  intros Hs HQ. unfold wp, mstime. apply HQ; [|done].
  assert (wp (modify (set_ticks (S (s_ticks s)))) (fun _ => st s0 c cd av D a) s) as H.
  { eapply log_wp; done || reflexivity. }
  exact H.
Qed.

Lemma add_dirty_wp n Q cd av D a s :
  0 <= n -> st s0 c cd av D a s ->
  (forall s', st s0 c cd av D (if bool_decide (n = 0) then a else Paid) s' -> log_only s s' -> Q tt s') ->
  wp (add_dirty n) Q s.
Proof.
  intros Hn Hs HQ. apply HQ; [|done].
  assert (wp (add_dirty n) (fun _ => st s0 c cd av D a) s) as [Hi He].
  { eapply log_wp; try done; try reflexivity. simpl; lia. }
  case_bool_decide; [done|]. split; [done| |done].
  destruct He. constructor; try done. left. pose proof (eff_dirty _ _ _ _ (st_eff _ _ _ _ _ _ _ Hs)).
  simpl in *. lia.
Qed.

Lemma propagate_wp d pav fl Q cd av D a s :
  st s0 c cd av D a s -> (forall s', st s0 c cd av D Paid s' -> log_only s s' -> Q tt s') ->
  wp (propagate d pav fl) Q s.
Proof.
  intros Hs HQ. apply HQ; [|done].
  assert (wp (propagate d pav fl) (fun _ => st s0 c cd av D a) s) as [Hi He].
  { eapply log_wp; try done; try reflexivity. by eexists. }
  split; [done| |done]. destruct He. constructor; try done. right.
  destruct (eff_propagated _ _ _ _ (st_eff _ _ _ _ _ _ _ Hs)) as [l Hl]. simpl. rewrite Hl, <- app_assoc.
  intros Heq. apply (f_equal length) in Heq. rewrite !length_app in Heq. simpl in Heq. lia.
Qed.

(** A change of the client that keeps what others rely on. *)
Lemma on_client_wp (f : rclient -> rclient) Q cd av cd' av' D a s :
  (forall cl, client_kept cl (f cl)) ->
  (forall cl, c_db cl = cd -> c_argv cl = av -> c_db (f cl) = cd' /\ c_argv (f cl) = av') -> in_range s0 cd' ->
  st s0 c cd av D a s -> (forall s', st s0 c cd' av' D a s' -> s_db s' = s_db s -> Q tt s') ->
  wp (on_client c f) Q s.
Proof.
  intros Hf Hmy Hr Hs HQ. apply HQ; try done. pose proof (st_inv _ _ _ _ _ _ _ Hs) as Hi.
  destruct (st_my _ _ _ _ _ _ _ Hs) as (cl & Hcl & Hcd & Hav). destruct (Hmy cl Hcd Hav).
  eapply st_quiet; [done| | |].
  - eapply inv_same_db; [done|done|]. intros w. simpl. destruct (decide (c = w)) as [<-|Hne].
    + rewrite lookup_alter_eq, Hcl. simpl. split; [apply Hf|]. apply (st_range _ _ _ _ _ _ Hs). congruence.
    + rewrite lookup_alter_ne by done. by apply range_self.
  - apply eff_same_db; try done. intros w. simpl. destruct (decide (c = w)) as [<-|Hne].
    + rewrite lookup_alter_eq, Hcl. simpl. apply Hf.
    + rewrite lookup_alter_ne by done. apply kept_self.
  - exists (f cl). simpl. by rewrite lookup_alter_eq, Hcl.
Qed.

Lemma addReply_wp r Q cd av D a s :
  st s0 c cd av D a s -> (forall s', st s0 c cd av D a s' -> s_db s' = s_db s -> Q tt s') ->
  wp (addReply c r) Q s.
Proof. intros Hs HQ. eapply on_client_wp; try done. by eapply st_in_range. Qed.

Lemma argv_wp j x Q cd av D a s :
  st s0 c cd av D a s -> av !! j = Some x -> Q x s -> wp (argv c j) Q s.
Proof.
  intros Hs Hj HQ. destruct (st_my _ _ _ _ _ _ _ Hs) as (cl & Hcl & _ & <-). by eapply wp_argv.
Qed.

Lemma current_db_wp Q cd av D a s : st s0 c cd av D a s -> Q cd s -> wp (current_db c) Q s.
Proof.
  intros Hs HQ. destruct (st_my _ _ _ _ _ _ _ Hs) as (cl & Hcl & <- & _). by eapply wp_current_db.
Qed.

Lemma client_wp Q cd av D a s :
  st s0 c cd av D a s ->
  (forall cl, s_clients s !! c = Some cl -> c_db cl = cd -> c_argv cl = av -> Q cl s) -> wp (client c) Q s.
Proof.
  intros Hs HQ. destruct (st_my _ _ _ _ _ _ _ Hs) as (cl & Hcl & ? & ?). eapply wp_client; [done|]. auto.
Qed.

Lemma lift_wp {A} (o : option A) x Q (s : server) : o = Some x -> Q x s -> wp (lift o) Q s.
Proof. apply wp_lift. Qed.

(** A change of one database, at the keys [K]. *)
Lemma value_alter s d (f : redisDb -> redisDb) d' k db :
  s_db s !! d = Some db ->
  value (set_dbs (alter f d (s_db s)) s) d' k =
    if bool_decide (d' = d) then db_dict (f db) !! k else value s d' k.
Proof.
  intros Hdb. unfold value. simpl. case_bool_decide as Hd.
  - subst. by rewrite list_lookup_alter_eq, Hdb.
  - by rewrite list_lookup_alter_ne by done.
Qed.

Lemma expire_of_alter s d (f : redisDb -> redisDb) d' k db :
  s_db s !! d = Some db ->
  expire_of (set_dbs (alter f d (s_db s)) s) d' k =
    if bool_decide (d' = d) then db_expires (f db) !! k else expire_of s d' k.
Proof.
  intros Hdb. unfold expire_of. simpl. case_bool_decide as Hd.
  - subst. by rewrite list_lookup_alter_eq, Hdb.
  - by rewrite list_lookup_alter_ne by done.
Qed.

Lemma on_db_wp (d : nat) (f : redisDb -> redisDb) (K : gset bytes) Q cd av D a s :
  in_range s0 d -> st s0 c cd av D a s ->
  (forall db, s_db s !! d = Some db ->
     db_watched (f db) = db_watched db /\
     (forall k, k ∉ K -> db_dict (f db) !! k = db_dict db !! k) /\
     (forall k o, k ∈ K -> db_dict (f db) !! k = Some o -> size_ok o) /\
     (forall k, is_Some (db_expires (f db) !! k) -> is_Some (db_dict (f db) !! k))) ->
  (forall s', st s0 c cd av (D ∪ set_map (pair d) K) (after a Pending) s' -> s' = set_dbs (alter f d (s_db s)) s ->
     Q tt s') ->
  wp (on_db d f) Q s.
Proof.
  intros Hd Hs Hf HQ. destruct (in_range_lookup _ _ (proj2 (st_range _ _ _ _ _ _ Hs) Hd)) as [db Hdb].
  destruct (Hf db Hdb) as (Hw & Hdict & Hsize & Hexp). apply HQ; [|done..].
  pose proof (st_inv _ _ _ _ _ _ _ Hs) as Hi. set (s' := set_dbs (alter f d (s_db s)) s).
  assert (forall d' db', s_db s' !! d' = Some db' -> exists db0, s_db s !! d' = Some db0 /\
    db_watched db' = db_watched db0 /\ (d' <> d -> db' = db0) /\ (d' = d -> db' = f db)) as Hback.
  { intros d' db' Hdb'. simpl in Hdb'. destruct (decide (d' = d)) as [->|Hne].
    - rewrite list_lookup_alter_eq, Hdb in Hdb'. simpl in Hdb'. exists db. by simplify_eq.
    - rewrite list_lookup_alter_ne in Hdb' by done. by exists db'. }
  assert (server_inv s') as Hi'.
  { destruct Hi. constructor; simpl; rewrite ?length_alter; try done.
    - intros d' db' k Hdb'. destruct (Hback d' db' Hdb') as (db0 & H0 & _ & Hne & Heq).
      destruct (decide (d' = d)) as [Hx|Hx]; [rewrite (Heq Hx); apply Hexp|]. rewrite (Hne Hx). eauto.
    - intros d' k o. unfold s'. rewrite (value_alter _ _ _ _ _ db Hdb). case_bool_decide; [|apply inv_sizes0].
      destruct (decide (k ∈ K)); [by apply Hsize|]. rewrite Hdict by done. subst.
      intros Ho. apply (inv_sizes0 d k). unfold value. by rewrite Hdb.
    - intros d' db' k w Hdb'. destruct (Hback d' db' Hdb') as (db0 & H0 & -> & _). by apply inv_watch0.
    - intros d' db' k Hdb'. destruct (Hback d' db' Hdb') as (db0 & H0 & -> & _). by eapply inv_watch_nodup0. }
  apply (st_step _ _ _ _ _ _ s); [done|done| |by destruct Hs].
  constructor; try done.
  - intros d' k. unfold s'. rewrite (value_alter _ _ _ _ _ db Hdb). case_bool_decide as Hx; [|by left].
    subst d'. destruct (decide (k ∈ K)) as [Hk|Hk].
    + right; left. by apply elem_of_map_2.
    + left. rewrite Hdict by done. unfold value. by rewrite Hdb.
  - intros w. apply (kept_self s w).
  - apply list_eq. intros i. simpl. rewrite !list_lookup_fmap. destruct (decide (i = d)) as [->|Hne].
    + rewrite list_lookup_alter_eq, Hdb. simpl. by rewrite Hw.
    + by rewrite list_lookup_alter_ne by done.
Qed.

(** Removing a signalled key from the set of unsignalled ones. *)
Lemma st_signalled cd av D D' a s :
  st s0 c cd av D a s -> (forall d k, (d, k) ∈ D' -> all_marked s d k) -> st s0 c cd av (D ∖ D') a s.
Proof.
  intros [Hi He ?] Hm. split; [done| |done]. destruct He. constructor; try done.
  intros d k. destruct (eff_value0 d k) as [|[Hin|]]; auto.
  destruct (decide ((d, k) ∈ D')); [right; right; left; auto|right; left; set_solver].
Qed.

Lemma flag_on_set f g cl : flag_on f cl = true -> flag_on f (flag_set g cl) = true.
Proof.
  unfold flag_on, flag_set. simpl. rewrite !bool_decide_eq_true. intros Hf Hz. apply Hf.
  apply Z.bits_inj. intros i. apply (f_equal (fun x => Z.testbit x i)) in Hz.
  rewrite Z.land_spec, Z.lor_spec, Z.bits_0 in Hz. rewrite ?Z.land_spec, Z.bits_0.
  destruct (Z.testbit (c_flags cl) i), (Z.testbit f i); done.
Qed.

Lemma flag_on_set_self f cl : 0 < f -> flag_on f (flag_set f cl) = true.
Proof.
  unfold flag_on, flag_set. simpl. intros Hf. apply bool_decide_eq_true. intros Hz.
  assert (f = 0); [|lia]. apply Z.bits_inj. intros i. apply (f_equal (fun x => Z.testbit x i)) in Hz.
  rewrite Z.land_spec, Z.lor_spec, Z.bits_0 in Hz. rewrite ?Z.land_spec, Z.bits_0.
  destruct (Z.testbit (c_flags cl) i), (Z.testbit f i); done.
Qed.

(** Marking the clients that satisfy a condition. *)
Lemma mark_wp (g : server -> gmap client_id rclient) (P : client_id -> Prop) Q cd av D a s :
  st s0 c cd av D a s ->
  (forall w, match s_clients s !! w, g s !! w with
             | Some cl, Some cl' => (cl' = cl \/ exists cl0, client_kept cl cl0 /\ c_db cl0 = c_db cl /\
                                       c_argv cl0 = c_argv cl /\ cl' = flag_set REDIS_DIRTY_CAS cl0) /\
                                    (P w -> flag_on REDIS_DIRTY_CAS cl' = true)
             | None, None => True | _, _ => False end) ->
  (forall s', st s0 c cd av D a s' -> s_db s' = s_db s ->
     (forall w, P w -> is_Some (s_clients s !! w) -> marked s' w) -> Q tt s') ->
  wp (modify (fun s => set_clients (g s) s)) Q s.
Proof.
  intros Hs Hg HQ. pose proof (st_inv _ _ _ _ _ _ _ Hs) as Hi. apply HQ; [|done|].
  - eapply st_quiet; [done| | |].
    + eapply inv_same_db; [done|done|]. intros w. specialize (Hg w). simpl.
      destruct (s_clients s !! w) as [cl|] eqn:Hw, (g s !! w); try done.
      destruct Hg as [[->|(cl0 & (? & _) & Hdb & _ & ->)] _]; (split; [done|]).
      * by apply (inv_db_range _ Hi _ _ Hw).
      * simpl. rewrite Hdb. by apply (inv_db_range _ Hi _ _ Hw).
    + apply eff_same_db; try done. intros w. specialize (Hg w). simpl.
      destruct (s_clients s !! w), (g s !! w); try done.
      destruct Hg as [[->|(cl0 & (? & ? & Hm) & Hdb & _ & ->)] _]; [done|]. split_and!; try done.
      intros. by apply flag_on_set, Hm.
    + destruct (st_my _ _ _ _ _ _ _ Hs) as (cl & Hcl & <- & <-). specialize (Hg c). rewrite Hcl in Hg.
      unfold my. simpl. destruct (g s !! c) as [cl'|]; [|done]. exists cl'. split; [done|].
      by destruct Hg as [[->|(cl0 & _ & ? & ? & ->)] _].
  - intros w HP [cl Hcl]. specialize (Hg w). rewrite Hcl in Hg. unfold marked. simpl.
    destruct (g s !! w) as [cl'|]; [|done]. exists cl'. split; [done|]. by apply Hg.
Qed.

Lemma fold_mark_lookup (ws : list client_id) (m : gmap client_id rclient) (w : client_id) :
  foldl (fun (m : gmap client_id rclient) w => alter (flag_set REDIS_DIRTY_CAS) w m) m ws !! w =
    (fun cl => foldl (fun cl w' => if bool_decide (w' = w) then flag_set REDIS_DIRTY_CAS cl else cl) cl ws) <$> m !! w.
Proof.
  revert m. induction ws as [|w' ws IH]; intros m; simpl; [by destruct (m !! w)|].
  rewrite IH. case_bool_decide as Hw.
  - subst. rewrite lookup_alter_eq. by destruct (m !! w).
  - by rewrite lookup_alter_ne by done.
Qed.

Lemma fold_mark_client (ws : list client_id) (w : client_id) (cl : rclient) :
  let f := fun (cl : rclient) (w' : client_id) => if bool_decide (w' = w) then flag_set REDIS_DIRTY_CAS cl else cl in
  (foldl f cl ws = cl \/ exists cl0, client_kept cl cl0 /\ c_db cl0 = c_db cl /\
                                     c_argv cl0 = c_argv cl /\ foldl f cl ws = flag_set REDIS_DIRTY_CAS cl0) /\
  (w ∈ ws -> flag_on REDIS_DIRTY_CAS (foldl f cl ws) = true).
Proof.
  intros f. induction ws as [|w' ws IH] using rev_ind; [split; [by left|by intros ?%not_elem_of_nil]|].
  rewrite foldl_snoc. unfold f at 1 3 5. destruct IH as [Hk Hm]. split.
  - case_bool_decide; [|done]. right. exists (foldl f cl ws). split_and!; [|destruct Hk as [->|(c0 & ? & ? & ? & ->)]; done..|done].
    destruct Hk as [->|(c0 & (? & ? & Hx) & ? & ? & ->)]; [apply client_kept_refl|].
    split_and!; [done|done|]. intros. by apply flag_on_set, Hx.
  - rewrite elem_of_app, list_elem_of_singleton. case_bool_decide as Hw.
    + intros _. by apply flag_on_set_self.
    + intros [Hin|Heq]; [by apply Hm|congruence].
Qed.

Lemma signalModifiedKey_wp (d : nat) k Q cd av D a s :
  in_range s0 d -> st s0 c cd av D a s ->
  (forall s', st s0 c cd av (D ∖ {[(d, k)]}) a s' -> s_db s' = s_db s -> Q tt s') ->
  wp (signalModifiedKey d k) Q s.
Proof.
  intros Hd Hs HQ. destruct (in_range_lookup _ _ (proj2 (st_range _ _ _ _ _ _ Hs) Hd)) as [db Hdb].
  pose proof (st_inv _ _ _ _ _ _ _ Hs) as Hi. unfold signalModifiedKey, touchWatchedKey.
  apply wp_bind, (wp_database _ db); [done|].
  destruct (db_watched db !! k) as [ws|] eqn:Hws.
  - apply (mark_wp (fun s => foldl _ (s_clients s) ws) (fun w => w ∈ ws) _ cd av D a s Hs).
    + intros w. rewrite fold_mark_lookup. destruct (s_clients s !! w) as [cl|]; simpl; [|done].
      apply fold_mark_client.
    + intros s' Hs' Hdb' Hm. apply HQ; [|done]. apply st_signalled; [done|].
      intros d' k' [= -> ->]%elem_of_singleton w (cl & Hcl & Hin).
      assert (watches s w d k) as Hw.
      { pose proof (inv_watch _ (st_inv _ _ _ _ _ _ _ Hs') d db k w) as Hx. rewrite Hdb' in Hx.
        pose proof (inv_watch _ Hi d db k w Hdb) as Hy. apply Hy, (Hx Hdb). by exists cl. }
      apply Hm; [|destruct Hw as (? & ? & _); by eexists].
      pose proof (proj2 (inv_watch _ Hi d db k w Hdb) Hw) as Hy. by rewrite Hws in Hy.
  - apply wp_ret, HQ; [|done]. apply st_signalled; [done|].
    intros d' k' [= -> ->]%elem_of_singleton w Hw.
    pose proof (proj2 (inv_watch _ Hi d db k w Hdb) Hw) as Hy. rewrite Hws in Hy. by apply not_elem_of_nil in Hy.
Qed.

End Primitives.

(** ** The database API *)

(** Outside [X] the keys are as before. *)
Definition agree (X : gset (nat * bytes)) (s s' : server) : Prop :=
  forall d k, (d, k) ∉ X -> value s' d k = value s d k /\ expire_of s' d k = expire_of s d k.

Lemma agree_db s s' X : s_db s' = s_db s -> agree X s s'.
Proof. intros Hdb d k _. unfold value, expire_of. by rewrite Hdb. Qed.

Lemma agree_log s s' X : log_only s s' -> agree X s s'.
Proof. intros [? _]. by apply agree_db. Qed.

Lemma agree_trans X s1 s2 s3 : agree X s1 s2 -> agree X s2 s3 -> agree X s1 s3.
Proof. intros H1 H2 d k Hk. destruct (H1 d k Hk) as [<- <-]. by apply H2. Qed.

Lemma agree_alter s d (f : redisDb -> redisDb) X :
  (forall k db, (d, k) ∉ X -> db_dict (f db) !! k = db_dict db !! k /\ db_expires (f db) !! k = db_expires db !! k) ->
  agree X s (set_dbs (alter f d (s_db s)) s).
Proof.
  intros Hf d' k Hk. destruct (s_db s !! d) as [db|] eqn:Hdb.
  - rewrite (value_alter _ _ _ _ _ _ Hdb), (expire_of_alter _ _ _ _ _ _ Hdb).
    case_bool_decide; [|done]. subst. unfold value, expire_of. rewrite Hdb. simpl. by apply Hf.
  - unfold value, expire_of. simpl. 
    assert (alter f d (s_db s) = s_db s) as ->; [|done].
    apply list_eq. intros i. destruct (decide (i = d)) as [->|Hne].
    + by rewrite list_lookup_alter_eq, Hdb.
    + by rewrite list_lookup_alter_ne by done.
Qed.

Lemma alter_self s d (f : redisDb -> redisDb) db :
  s_db s !! d = Some db -> f db = db -> set_dbs (alter f d (s_db s)) s = s.
Proof.
  intros Hdb Hf. assert (alter f d (s_db s) = s_db s) as ->; [|by destruct s].
  apply list_eq. intros i. destruct (decide (i = d)) as [->|Hne].
  - by rewrite list_lookup_alter_eq, Hdb; simpl; rewrite Hf.
  - by rewrite list_lookup_alter_ne by done.
Qed.

Lemma value_db s d db k : s_db s !! d = Some db -> value s d k = db_dict db !! k.
Proof. intros H. unfold value. by rewrite H. Qed.

Lemma expire_of_db s d db k : s_db s !! d = Some db -> expire_of s d k = db_expires db !! k.
Proof. intros H. unfold expire_of. by rewrite H. Qed.

Section DeleteLogic.
Context (s0 : server) (c : client_id).

Lemma getExpire_wp (d : nat) k Q cd av D a s :
  in_range s0 d -> st s0 c cd av D a s -> Q (default (-1) (expire_of s d k)) s -> wp (getExpire d k) Q s.
Proof.
  intros Hd Hs HQ. destruct (in_range_lookup _ _ (proj2 (st_range _ _ _ _ _ _ _ _ Hs) Hd)) as [db Hdb]. unfold getExpire.
  apply wp_bind, (wp_database _ db); [done|]. rewrite (expire_of_db _ _ _ _ Hdb) in HQ.
  destruct (db_expires db !! k) eqn:He; [|done]. apply wp_bind, wp_assert; [|done].
  apply bool_decide_eq_true, (inv_expires _ (st_inv _ _ _ _ _ _ _ Hs) _ _ _ Hdb). by rewrite He.
Qed.

Lemma dbDelete_wp (d : nat) k Q cd av D a s :
  in_range s0 d -> st s0 c cd av D a s ->
  (forall r s', r = bool_decide (is_Some (value s d k)) ->
     (if (r : bool) then st s0 c cd av (D ∪ {[(d, k)]}) (after a Pending) s' else s' = s) ->
     agree {[(d, k)]} s s' -> value s' d k = None -> expire_of s' d k = None ->
     s_events s' = s_events s -> Q r s') ->
  wp (dbDelete d k) Q s.
Proof.
  intros Hd Hs HQ. destruct (in_range_lookup _ _ (proj2 (st_range _ _ _ _ _ _ _ _ Hs) Hd)) as [db Hdb]. unfold dbDelete.
  pose proof (st_inv _ _ _ _ _ _ _ Hs) as Hi.
  apply wp_bind, (wp_database _ db); [done|]. apply wp_bind.
  eapply (on_db_wp _ _ _ _ {[k]}); [done|done| |].
  { intros db' Hdb'. simpl. split_and!; [done| | |].
    - intros k' Hk'. apply lookup_delete_ne. set_solver.
    - intros k' o ->%elem_of_singleton. by rewrite lookup_delete_eq.
    - intros k'. destruct (decide (k = k')) as [<-|Hne]; [rewrite lookup_delete_eq; by intros [? ?]|].
      rewrite !lookup_delete_ne by done. by apply (inv_expires _ Hi d). }
  intros s' Hs' ->. apply wp_ret. rewrite <- (value_db s d db k Hdb).
  rewrite set_map_singleton_L in Hs'.
  assert (value (set_dbs (alter (λ db0, set_dict (delete k) (set_expires (delete k) db0)) d (s_db s)) s) d k = None) as Hv.
  { rewrite (value_alter _ _ _ _ _ _ Hdb), bool_decide_eq_true_2 by done. simpl. apply lookup_delete_eq. }
  assert (expire_of (set_dbs (alter (λ db0, set_dict (delete k) (set_expires (delete k) db0)) d (s_db s)) s) d k = None) as He.
  { rewrite (expire_of_alter _ _ _ _ _ _ Hdb), bool_decide_eq_true_2 by done. simpl. apply lookup_delete_eq. }
  apply HQ; [done| |apply agree_alter|done..].
  - case_bool_decide as Hk; [done|]. eapply alter_self; [done|].
    rewrite (value_db _ _ _ _ Hdb) in Hk. apply eq_None_not_Some in Hk.
    assert (db_expires db !! k = None) as Hx.
    { apply eq_None_not_Some. intros Hx. apply (inv_expires _ Hi _ _ _ Hdb) in Hx. rewrite Hk in Hx. by destruct Hx. }
    destruct db as [di ex wa]. unfold set_dict, set_expires. simpl in *. by rewrite !delete_id.
  - intros k' db' Hk'. simpl. rewrite !lookup_delete_ne by set_solver. done.
Qed.

Lemma lookupKey_wp (d : nat) k Q cd av D a s :
  in_range s0 d -> st s0 c cd av D a s -> Q (value s d k) s -> wp (lookupKey d k) Q s.
Proof.
  intros Hd Hs HQ. destruct (in_range_lookup _ _ (proj2 (st_range _ _ _ _ _ _ _ _ Hs) Hd)) as [db Hdb].
  apply wp_bind, (wp_database _ db); [done|]. by rewrite (value_db _ _ _ _ Hdb) in HQ.
Qed.

Lemma exists_wp (d : nat) k Q cd av D a s :
  in_range s0 d -> st s0 c cd av D a s -> Q (bool_decide (is_Some (value s d k))) s -> wp (dbExists d k) Q s.
Proof.
  intros Hd Hs HQ. destruct (in_range_lookup _ _ (proj2 (st_range _ _ _ _ _ _ _ _ Hs) Hd)) as [db Hdb].
  apply wp_bind, (wp_database _ db); [done|]. apply wp_ret. by rewrite (value_db _ _ _ _ Hdb) in HQ.
Qed.

(** Writing a value. *)
Lemma insert_wp (d : nat) (k : bytes) o Q cd av D a s :
  in_range s0 d -> st s0 c cd av D a s -> size_ok o ->
  (forall s', st s0 c cd av (D ∪ {[(d, k)]}) (after a Pending) s' -> agree {[(d, k)]} s s' ->
     value s' d k = Some o -> expire_of s' d k = expire_of s d k -> Q tt s') ->
  wp (on_db d (set_dict (<[k := o]>))) Q s.
Proof.
  intros Hd Hs Ho HQ. destruct (in_range_lookup _ _ (proj2 (st_range _ _ _ _ _ _ _ _ Hs) Hd)) as [db Hdb].
  eapply (on_db_wp _ _ _ _ {[k]}); [done|done| |].
  { intros db' Hdb'. simpl. split_and!; [done| | |].
    - intros k' Hk'. apply lookup_insert_ne. set_solver.
    - intros k' o' ->%elem_of_singleton. rewrite lookup_insert_eq. by intros [= <-].
    - intros k' Hk'. destruct (decide (k = k')) as [<-|Hne]; [by rewrite lookup_insert_eq|].
      rewrite lookup_insert_ne by done. by apply (inv_expires _ (st_inv _ _ _ _ _ _ _ Hs) d). }
  intros s' Hs' ->. rewrite set_map_singleton_L in Hs'. apply HQ; [done|apply agree_alter| |].
  - intros k' db' Hk'. simpl. by rewrite lookup_insert_ne by set_solver.
  - rewrite (value_alter _ _ _ _ _ _ Hdb), bool_decide_eq_true_2 by done. apply lookup_insert_eq.
  - by rewrite (expire_of_alter _ _ _ _ _ _ Hdb), bool_decide_eq_true_2, (expire_of_db _ _ _ _ Hdb) by done.
Qed.

Lemma dbAdd_wp (d : nat) (k : bytes) o Q cd av D a s :
  in_range s0 d -> st s0 c cd av D a s -> value s d k = None -> size_ok o ->
  (forall s', st s0 c cd av (D ∪ {[(d, k)]}) (after a Pending) s' -> agree {[(d, k)]} s s' ->
     value s' d k = Some o -> expire_of s' d k = expire_of s d k -> Q tt s') ->
  wp (dbAdd d k o) Q s.
Proof.
  intros Hd Hs Hv Ho HQ. destruct (in_range_lookup _ _ (proj2 (st_range _ _ _ _ _ _ _ _ Hs) Hd)) as [db Hdb].
  apply wp_bind, (wp_database _ db); [done|]. apply wp_bind, wp_assert; [|by eapply insert_wp].
  apply bool_decide_eq_true. by rewrite <- (value_db _ _ _ _ Hdb).
Qed.

Lemma dbOverwrite_wp (d : nat) (k : bytes) o Q cd av D a s :
  in_range s0 d -> st s0 c cd av D a s -> is_Some (value s d k) -> size_ok o ->
  (forall s', st s0 c cd av (D ∪ {[(d, k)]}) (after a Pending) s' -> agree {[(d, k)]} s s' ->
     value s' d k = Some o -> expire_of s' d k = expire_of s d k -> Q tt s') ->
  wp (dbOverwrite d k o) Q s.
Proof.
  intros Hd Hs Hv Ho HQ. destruct (in_range_lookup _ _ (proj2 (st_range _ _ _ _ _ _ _ _ Hs) Hd)) as [db Hdb].
  apply wp_bind, (wp_database _ db); [done|]. apply wp_bind, wp_assert; [|by eapply insert_wp].
  apply bool_decide_eq_true. by rewrite <- (value_db _ _ _ _ Hdb).
Qed.

(** Changing the expire of a key that exists. *)
Lemma expires_wp (d : nat) (k : bytes) (f : gmap bytes Z -> gmap bytes Z) Q cd av D a s :
  in_range s0 d -> st s0 c cd av D a s -> is_Some (value s d k) ->
  (forall m k', k' <> k -> f m !! k' = m !! k') ->
  (forall s', st s0 c cd av D (after a Pending) s' -> agree {[(d, k)]} s s' ->
     value s' d k = value s d k -> s' = set_dbs (alter (set_expires f) d (s_db s)) s -> Q tt s') ->
  wp (on_db d (set_expires f)) Q s.
Proof.
  intros Hd Hs Hv Hf HQ. destruct (in_range_lookup _ _ (proj2 (st_range _ _ _ _ _ _ _ _ Hs) Hd)) as [db Hdb].
  eapply (on_db_wp _ _ _ _ ∅); [done|done| |].
  { intros db' Hdb'. simplify_eq. simpl. split_and!; [done|done|set_solver|].
    intros k' Hk'. destruct (decide (k' = k)) as [->|Hne]; [by rewrite <- (value_db _ _ _ _ Hdb)|].
    rewrite Hf in Hk' by done. by apply (inv_expires _ (st_inv _ _ _ _ _ _ _ Hs) d). }
  intros s' Hs' ->. rewrite set_map_empty, (right_id_L ∅ (∪)) in Hs'. apply HQ; [done|apply agree_alter| |done].
  - intros k' db' Hk'. simpl. split; [done|]. apply Hf. set_solver.
  - by rewrite (value_alter _ _ _ _ _ _ Hdb), bool_decide_eq_true_2, (value_db _ _ _ _ Hdb) by done.
Qed.

Lemma removeExpire_wp (d : nat) (k : bytes) Q cd av D a s :
  in_range s0 d -> st s0 c cd av D a s -> is_Some (value s d k) ->
  (forall r s', r = bool_decide (is_Some (expire_of s d k)) ->
     (if (r : bool) then st s0 c cd av D (after a Pending) s' else s' = s) -> agree {[(d, k)]} s s' ->
     value s' d k = value s d k -> expire_of s' d k = None -> Q r s') ->
  wp (removeExpire d k) Q s.
Proof.
  intros Hd Hs Hv HQ. destruct (in_range_lookup _ _ (proj2 (st_range _ _ _ _ _ _ _ _ Hs) Hd)) as [db Hdb].
  apply wp_bind, (wp_database _ db); [done|]. apply wp_bind, wp_assert.
  { apply bool_decide_eq_true. by rewrite <- (value_db _ _ _ _ Hdb). }
  apply wp_bind. eapply expires_wp; [done|done|done| |].
  { intros m k' Hk'. by apply lookup_delete_ne. }
  intros s' Hs' Hag Hv' ->. apply wp_ret. rewrite <- (expire_of_db _ _ _ k Hdb).
  apply HQ; [done| |done|done|].
  - case_bool_decide as Hx; [done|]. eapply alter_self; [done|]. rewrite (expire_of_db _ _ _ _ Hdb) in Hx.
    apply eq_None_not_Some in Hx. destruct db. unfold set_expires. simpl in *. by rewrite delete_id.
  - rewrite (expire_of_alter _ _ _ _ _ _ Hdb), bool_decide_eq_true_2 by done. apply lookup_delete_eq.
Qed.

Lemma setExpire_wp (d : nat) (k : bytes) t Q cd av D a s :
  in_range s0 d -> st s0 c cd av D a s -> is_Some (value s d k) ->
  (forall s', st s0 c cd av D (after a Pending) s' -> agree {[(d, k)]} s s' ->
     value s' d k = value s d k -> expire_of s' d k = Some t -> Q tt s') ->
  wp (setExpire d k t) Q s.
Proof.
  intros Hd Hs Hv HQ. destruct (in_range_lookup _ _ (proj2 (st_range _ _ _ _ _ _ _ _ Hs) Hd)) as [db Hdb].
  apply wp_bind, (wp_database _ db); [done|]. apply wp_bind, wp_assert.
  { apply bool_decide_eq_true. by rewrite <- (value_db _ _ _ _ Hdb). }
  eapply expires_wp; [done|done|done| |].
  { intros m k' Hk'. by apply lookup_insert_ne. }
  intros s' Hs' Hag Hv' ->. apply HQ; try done.
  rewrite (expire_of_alter _ _ _ _ _ _ Hdb), bool_decide_eq_true_2 by done. apply lookup_insert_eq.
Qed.

End DeleteLogic.

Section ApiLogic.
Context (clock : nat -> Z) (s0 : server) (c : client_id).

(** [expireIfNeeded] deletes the key or leaves it alone. *)
Lemma expireIfNeeded_wp (d : nat) k Q cd av D a s :
  in_range s0 d -> st s0 c cd av D a s ->
  (forall r s', st s0 c cd av D a s' -> agree {[(d, k)]} s s' ->
     (value s' d k = value s d k /\ expire_of s' d k = expire_of s d k) \/ value s' d k = None -> Q r s') ->
  wp (expireIfNeeded clock d k) Q s.
Proof.
  intros Hd Hs HQ. unfold expireIfNeeded. apply wp_bind. eapply getExpire_wp; [done|done|].
  case_bool_decide as Hneg; [apply wp_ret, HQ; [done|by apply agree_db|by left]|].
  apply wp_bind, wp_gets. destruct (loading (s_conf s)); [apply wp_ret, HQ; [done|by apply agree_db|by left]|].
  apply wp_bind.
  assert (forall t s1, st s0 c cd av D a s1 -> log_only s s1 ->
    wp (if masterhost (s_conf s) then mret (bool_decide (t > default (-1) (expire_of s d k)))
        else if bool_decide (t <= default (-1) (expire_of s d k)) then mret false
        else modify (fun s => set_stats (let '(h, m, e) := s_stats s in (h, m, e + 1)) s);;
             propagateExpire d k;; notifyKeyspaceEvent NOTIFY_EXPIRED "expired" k d;; dbDelete d k) Q s1) as Hk.
  { intros t s1 Hs1 Hl1.
    assert ((value s1 d k = value s d k /\ expire_of s1 d k = expire_of s d k) \/ value s1 d k = None) as Hv1.
    { left. by apply (agree_log _ _ ∅ Hl1). }
    destruct (masterhost _); [apply wp_ret, HQ; [done|by apply agree_log|done]|].
    case_bool_decide; [apply wp_ret, HQ; [done|by apply agree_log|done]|].
    (* the whole step is an effect that leaves no key unsignalled *)
    pose proof (st_init s1 c) as Hini. destruct (st_my _ _ _ _ _ _ _ Hs1) as (cl & Hcl & Hcd & Hav).
    specialize (Hini cl (st_inv _ _ _ _ _ _ _ Hs1) Hcl). rewrite Hcd, Hav in Hini.
    apply wp_bind. apply (wp_mono _ (fun _ s2 => st s1 c cd av ∅ Settled s2 /\ log_only s1 s2)).
    { by apply (stats_wp s1 c (fun '(h, m, e) => (h, m, e + 1)) _ cd av ∅ Settled). }
    intros _ s2 [Hs2 Hl2]. apply wp_bind. eapply propagate_wp; [done|]. intros s3 Hs3 Hl3.
    apply wp_bind. apply (wp_mono _ (fun _ s4 => (NOTIFY_EXPIRED, "expired"%string, k, d) ∈ s_events s4 /\
        s_events s4 = s_events s3 ++ [(NOTIFY_EXPIRED, "expired"%string, k, d)] /\
        st s1 c cd av ∅ Paid s4 /\ log_only s3 s4)).
    { unfold notifyKeyspaceEvent. eapply log_wp; [done|done|by eexists|done|done|done|].
      intros Hs4. split_and!; try done. simpl. apply elem_of_app. right. by apply list_elem_of_singleton. }
    intros _ s4 (_ & Hev & Hs4 & Hl4).
    assert (agree {[(d, k)]} s s4) as Hag.
    { eapply agree_trans; [by apply agree_log|]. eapply agree_trans; [by apply agree_log|].
      eapply agree_trans; by apply agree_log. }
    eapply dbDelete_wp; [|done|].
    { by apply (st_range _ _ _ _ _ _ _ _ Hs1). }
    intros r s5 Hr Hs5 Hag5 Hv5 He5 Hev5. apply HQ; [|by eapply agree_trans|by right].
    assert (st s1 c cd av {[(d, k)]} Paid s5) as [Hi5 Hf5 Hm5].
    { destruct r; [by rewrite (left_id_L ∅ (∪)) in Hs5|subst s5]. destruct Hs4 as [? He4 ?]. split; [done| |done].
      eapply eff_weaken; [done|apply empty_subseteq|done]. }
    eapply (st_quiet _ _ _ _ _ _ s1); [done|done| |done]. destruct Hf5. constructor; try done; [|by right].
    intros d' k'. destruct (eff_value0 d' k') as [?|[[= -> ->]%elem_of_singleton|?]]; auto.
    right; right; right. destruct (eff_events _ _ _ _ (st_eff _ _ _ _ _ _ _ Hs3)) as [l Hl].
    exists (l ++ [(NOTIFY_EXPIRED, "expired"%string, k, d)]). split; [by rewrite Hev5, Hev, Hl, app_assoc|].
    apply elem_of_app. right. by apply list_elem_of_singleton. }
  destruct (lua_time (s_conf s)) as [t|].
  - apply wp_ret, Hk; done.
  - eapply mstime_wp; [done|]. exact Hk.
Qed.

(** What a lookup of a key does to it. *)
Definition touched (s s' : server) (d : nat) (k : bytes) : Prop :=
  agree {[(d, k)]} s s' /\
  ((value s' d k = value s d k /\ expire_of s' d k = expire_of s d k) \/ value s' d k = None).

Lemma lookupKeyWrite_wp (d : nat) k Q cd av D a s :
  in_range s0 d -> st s0 c cd av D a s ->
  (forall s', st s0 c cd av D a s' -> touched s s' d k -> Q (value s' d k) s') ->
  wp (lookupKeyWrite clock d k) Q s.
Proof.
  intros Hd Hs HQ. apply wp_bind. eapply expireIfNeeded_wp; [done..|]. intros _ s' Hs' Hag Hv.
  eapply lookupKey_wp; [done|done|]. by apply HQ.
Qed.

Lemma lookupKeyRead_wp (d : nat) k Q cd av D a s :
  in_range s0 d -> st s0 c cd av D a s ->
  (forall s', st s0 c cd av D a s' -> touched s s' d k -> Q (value s' d k) s') ->
  wp (lookupKeyRead clock d k) Q s.
Proof.
  intros Hd Hs HQ. apply wp_bind. eapply expireIfNeeded_wp; [done..|]. intros _ s1 Hs1 Hag Hv.
  apply wp_bind. eapply lookupKey_wp; [done|done|]. apply wp_bind.
  apply (stats_wp s0 c (fun '(h, m, e) => match value s1 d k with None => (h, m + 1, e)
                                         | Some _ => (h + 1, m, e) end) _ cd av D a); [done|].
  intros s2 Hs2 Hl. apply wp_ret. destruct (agree_log _ _ ∅ Hl d k) as [Hv' He']; [set_solver|].
  rewrite <- Hv'. apply HQ; [done|]. split; [by eapply agree_trans; [|apply agree_log]|]. by rewrite Hv', He'.
Qed.

End ApiLogic.

(** ** Automation *)

(** Carries what is known of a key to a later state. *)
Ltac carry_to s s' Hag :=
  repeat match goal with
  | H : context [value s ?d ?k] |- _ =>
      lazymatch type of H with agree _ _ _ => fail | touched _ _ _ _ => fail | _ => idtac end;
      rewrite <- (proj1 (Hag d k ltac:(first [done | set_solver]))) in H
  | H : context [expire_of s ?d ?k] |- _ =>
      lazymatch type of H with agree _ _ _ => fail | touched _ _ _ _ => fail | _ => idtac end;
      rewrite <- (proj2 (Hag d k ltac:(first [done | set_solver]))) in H
  end.

Ltac next_state :=
  let s' := fresh "s" in let Hs := fresh "Hs" in let Hag := fresh "Hag" in
  intros s' Hs Hag;
  match type of Hag with
  | log_only ?s s' => apply (agree_log _ _ ∅) in Hag; carry_to s s' Hag
  | s_db s' = s_db ?s => apply (agree_db _ _ ∅) in Hag; carry_to s s' Hag
  | agree _ ?s s' => carry_to s s' Hag
  | touched ?s s' _ _ => destruct Hag as [Hag _]; carry_to s s' Hag
  end; clear Hag;
  repeat match goal with H : st _ _ _ _ _ _ ?s |- _ => tryif unify s s' then fail else clear H end.

(** One primitive of the monad. *)
Ltac step :=
  match goal with
  | |- wp (_ ≫= _) _ _ => apply wp_bind
  | |- wp (mret _) _ _ => apply wp_ret
  | |- wp (gets _) _ _ => apply wp_gets
  | Hs : st _ ?c ?cd ?av _ _ ?s |- wp (current_db ?c) _ ?s => eapply current_db_wp; [exact Hs|]
  | Hs : st _ ?c ?cd ?av _ _ ?s |- wp (argv ?c _) _ ?s => eapply argv_wp; [exact Hs|reflexivity|]
  | Hs : st _ ?c ?cd ?av _ _ ?s |- wp (addReply ?c _) _ ?s => eapply addReply_wp; [exact Hs|]; next_state
  | Hs : st _ ?c ?cd ?av _ _ ?s |- wp (addReplyError ?c _) _ ?s => eapply addReply_wp; [exact Hs|]; next_state
  | Hs : st _ ?c ?cd ?av _ _ ?s |- wp (notifyKeyspaceEvent _ _ _ _) _ ?s =>
      eapply notify_wp; [exact Hs|]; next_state
  | Hs : st _ ?c ?cd ?av _ _ ?s |- wp (mstime _) _ ?s =>
      eapply mstime_wp; [exact Hs|]; let t := fresh "now" in intros t; next_state
  | Hs : st _ ?c ?cd ?av _ _ ?s |- wp (add_dirty _) _ ?s => eapply add_dirty_wp; [try lia|exact Hs|]; next_state
  | Hs : st _ ?c ?cd ?av _ _ ?s |- wp (signalModifiedKey _ _) _ ?s =>
      eapply signalModifiedKey_wp; [try (by eapply st_in_range)|exact Hs|]; next_state
  | Hs : st _ ?c ?cd ?av _ _ ?s |- wp (lookupKeyWrite _ _ _) _ ?s =>
      eapply lookupKeyWrite_wp; [try (by eapply st_in_range)|exact Hs|]; next_state
  | Hs : st _ ?c ?cd ?av _ _ ?s |- wp (lookupKeyRead _ _ _) _ ?s =>
      eapply lookupKeyRead_wp; [try (by eapply st_in_range)|exact Hs|]; next_state
  end.

(** The condition of the statement that comes next. *)
Ltac test := match goal with
  |- wp (if bool_decide ?P then _ else _) _ _ =>
    let H := fresh "Htest" in destruct (bool_decide P) eqn:H;
    [apply bool_decide_eq_true in H|apply bool_decide_eq_false in H]
  end.

(** What a command leaves behind. *)
Definition finished (s0 : server) (c : client_id) (D : gset (nat * bytes)) (s : server) : Prop :=
  exists cd av, st s0 c cd av D Settled s.

Lemma st_finished s0 c cd av D D' a s :
  st s0 c cd av D' a s -> D' ⊆ D -> a <> Pending -> finished s0 c D s.
Proof.
  intros [Hi He Hm] HD Ha. exists cd, av. split; [done| |done]. eapply eff_weaken; [done|done|].
  destruct a; simpl; try done; auto.
Qed.

Ltac finish := match goal with
  Hs : st _ ?c ?cd ?av _ _ ?s |- finished _ ?c _ ?s => eapply st_finished; [exact Hs|set_solver|first [done|repeat match goal with a : account |- _ => destruct a end; done]] end.

(** ** Derived operations *)

Section Derived.
Context (s0 : server) (c : client_id).

Lemma number_wp o Q cd av D a s :
  st s0 c cd av D a s -> match o with Some (Other _ _) => False | _ => True end ->
  (forall r s', st s0 c cd av D a s' -> s_db s' = s_db s -> getLongLongFromObject o = Some r -> Q r s') ->
  wp (getLongLongFromObjectOrReply c o) Q s.
Proof.
  intros Hs Ho HQ. apply wp_bind.
  assert (exists r, getLongLongFromObject o = Some r) as [r Hr].
  { destruct o as [[l|v|]|]; try done; simpl; eauto. destruct (strtoll l) as [[??]?].
    case_match; eauto. }
  eapply wp_lift; [done|]. destruct r as [v|]; [apply wp_ret, HQ; done|].
  apply wp_bind. eapply addReply_wp; [done|]. intros s' Hs' Hdb. apply wp_ret. by apply HQ.
Qed.

Lemma checkType_wp o t Q cd av D a s :
  st s0 c cd av D a s ->
  (forall s', st s0 c cd av D a s' -> s_db s' = s_db s -> Q (negb (bool_decide (type_of o = t))) s') ->
  wp (checkType c o t) Q s.
Proof.
  intros Hs HQ. unfold checkType. destruct (bool_decide (type_of o = t)); [by apply wp_ret, HQ|].
  apply wp_bind. eapply addReply_wp; [done|]. intros s' Hs' Hdb. by apply wp_ret, HQ.
Qed.

Lemma selectDb_wp id Q cd av D a s :
  st s0 c cd av D a s ->
  (forall r s', s_db s' = s_db s ->
     (if (r : bool) then in_range s0 (Z.to_nat id) /\ 0 <= id /\ st s0 c (Z.to_nat id) av D a s'
      else st s0 c cd av D a s') -> Q r s') ->
  wp (selectDb c id) Q s.
Proof.
  intros Hs HQ. unfold selectDb. apply wp_bind, wp_gets. case_bool_decide as Hid.
  - apply wp_ret. by apply HQ.
  - assert (in_range s0 (Z.to_nat id)).
    { apply (st_range _ _ _ _ _ _ _ _ Hs). unfold in_range. clear -Hid. lia. }
    apply wp_bind. eapply (on_client_wp s0 c _ _ cd av (Z.to_nat id) av); [done| |done|done|].
    { by intros cl _ Hav. }
    intros s' Hs' Hdb. apply wp_ret, HQ; [done|]. split_and!; [done|lia|done].
Qed.

Lemma setKey_wp clock d (k : bytes) o Q cd av D a s :
  in_range s0 d -> st s0 c cd av D a s -> size_ok o ->
  (forall s', st s0 c cd av D (after a Pending) s' -> agree {[(d, k)]} s s' ->
     value s' d k = Some o -> Q tt s') ->
  wp (setKey clock d k o) Q s.
Proof.
  intros Hd Hs Ho HQ. apply wp_bind. eapply lookupKeyWrite_wp; [done|done|]. intros s1 Hs1 [Hag1 _].
  apply wp_bind.
  apply (wp_mono _ (fun _ s2 => st s0 c cd av (D ∪ {[(d, k)]}) (after a Pending) s2 /\ agree {[(d, k)]} s s2 /\
                               value s2 d k = Some o)).
  { destruct (value s1 d k) eqn:Hv.
    - eapply dbOverwrite_wp; [done|done|by eexists|done|]. intros. split_and!; [done|by eapply agree_trans|done].
    - eapply dbAdd_wp; [done..|]. intros. split_and!; [done|by eapply agree_trans|done]. }
  intros _ s2 (Hs2 & Hag2 & Hv2). apply wp_bind. eapply removeExpire_wp; [done|done|by eexists|].
  intros r s3 _ Hs3 Hag3 Hv3 _. rewrite Hv2 in Hv3.
  assert (st s0 c cd av (D ∪ {[(d, k)]}) (after a Pending) s3) as Hs3'.
  { destruct r; [|by subst]. destruct a; done. }
  eapply signalModifiedKey_wp; [done|done|]. intros s4 Hs4 Hdb. apply HQ.
  - destruct Hs4 as [? He ?]. split; [done| |done]. eapply eff_weaken; [done|set_solver|done].
  - eapply agree_trans; [done|]. eapply agree_trans; [done|]. by apply agree_db.
  - unfold value in *. by rewrite Hdb.
Qed.

End Derived.
