(* ===== verification/StringEffects.v ===== *)
(** * The effects of string commands

    Every command of [t_string.c] runs to completion from a state that satisfies
    the invariant of the server, keeps the invariant, signals each key it
    changes, and accounts for its changes. *)
From Stdlib Require Import String.
#[local] Set Warnings "-clear-no-such-hyp".
From S2P Require Import Prelude Util Sds SdsArgs Server StringCommands ServerLogic.

(** Induction on a list of pairs laid flat. *)
Lemma list_pair_ind {A} (P : list A -> Prop) :
  P [] -> (forall x, P [x]) -> (forall x y l, P l -> P (x :: y :: l)) -> forall l, P l.
Proof.
  intros H0 H1 H2. enough (forall l, P l /\ forall x, P (x :: l)) as H by apply H.
  intros l. induction l as [|y l [IH1 IH2]]; split; auto.
Qed.

(** The server accepts no longer argument. *)
Abbreviation arg_ok := (fun v : bytes => zlen v <= sds_max).

Lemma tryObjectEncoding_size s : zlen s <= sds_max -> size_ok (tryObjectEncoding s).
Proof.
  intros Hs. unfold tryObjectEncoding. case_bool_decide; [done|].
  destruct (string2l s) as [v|] eqn:Hv; [|done]. simpl. apply (string2ll_range s). unfold string2l in Hv.
  destruct (string2ll s); simpl in Hv; [|done]. case_bool_decide; congruence.
Qed.

(** A string object has bytes, not more than 512 MB of them. *)
Lemma decoded_size o :
  size_ok o -> type_of o = REDIS_STRING -> exists s, getDecodedObject o = Some s /\ zlen s <= sds_max.
Proof.
  destruct o as [s|v|t n]; simpl; [by eauto| |done]. intros Hv _.
  destruct (decimal_exists v) as [s Hs]. exists s. split; [by apply ll2string_decimal|].
  destruct Hs as (l & Hl & Hlv & ->). pose proof (canonical_length l Hl) as Hlen. rewrite Hlv in Hlen.
  unfold sds_max, srange in *. specialize (Hlen ltac:(lia)). case_bool_decide; simpl; lia.
Qed.

Section Strings.
Context (clock : nat -> Z) (s0 : server) (c : client_id).

Lemma checkStringLength_wp n Q cd av D a s :
  st s0 c cd av D a s ->
  (forall r s', st s0 c cd av D a s' -> s_db s' = s_db s -> (r = true -> n <= sds_max) -> Q r s') ->
  wp (checkStringLength c n) Q s.
Proof.
  intros Hs HQ. unfold checkStringLength. case_bool_decide as Hn.
  - apply wp_bind. eapply addReply_wp; [done|]. intros s' Hs' Hdb. apply wp_ret. by apply HQ.
  - apply wp_ret, HQ; [done|done|]. unfold sds_max. lia.
Qed.

Lemma value_size cd av D a s d k o :
  st s0 c cd av D a s -> value s d k = Some o -> size_ok o.
Proof. intros Hs. apply (inv_sizes _ (st_inv _ _ _ _ _ _ _ Hs)). Qed.

(** The object found under a key, when it has the type [t]: the bytes. *)
Lemma found_bytes cd av D a s d k o :
  st s0 c cd av D a s -> value s d k = Some o -> negb (bool_decide (type_of o = REDIS_STRING)) = false ->
  exists b, getDecodedObject o = Some b /\ zlen b <= sds_max.
Proof.
  intros Hs Hv Ht. apply decoded_size; [by eapply value_size|].
  by apply negb_false_iff, bool_decide_eq_true in Ht.
Qed.

Lemma getGenericCommand_wp Q a0 k av cd D a s :
  st s0 c cd (a0 :: k :: av) D a s ->
  (forall r s', st s0 c cd (a0 :: k :: av) D a s' -> Q r s') -> wp (getGenericCommand clock c) Q s.
Proof.
  intros Hs HQ. unfold getGenericCommand, lookupKeyReadOrReply. repeat step.
  destruct (value s1 cd k) as [o|] eqn:Hv; repeat step; [|by apply HQ].
  eapply checkType_wp; [done|]. next_state. destruct (negb _) eqn:Ht; step; [by apply HQ|].
  edestruct found_bytes as (b & Hb & _); [done..|]. unfold addReplyBulk. step. eapply wp_lift; [done|].
  repeat step. by apply HQ.
Qed.

Lemma getCommand_wp a0 k av cd D a s :
  st s0 c cd (a0 :: k :: av) D a s -> a <> Pending -> wp (getCommand clock c) (fun _ => finished s0 c D) s.
Proof.
  intros Hs Ha. unfold getCommand. step. eapply getGenericCommand_wp; [done|]. intros r s' Hs'. step. finish.
Qed.

Lemma getsetCommand_wp a0 k v av cd D a s :
  st s0 c cd (a0 :: k :: v :: av) D a s -> a <> Pending -> zlen v <= sds_max ->
  wp (getsetCommand clock c) (fun _ => finished s0 c D) s.
Proof.
  intros Hs Ha Hv. unfold getsetCommand. repeat step. eapply getGenericCommand_wp; [done|]. intros r s' Hs'.
  destruct r; [|step; finish]. step.
  eapply setKey_wp; [by eapply st_in_range|done|by apply tryObjectEncoding_size|]. next_state.
  intros _. repeat step. finish.
Qed.

Lemma parse_expire_wp e u Q cd av D a s :
  st s0 c cd av D a s -> (forall r s', st s0 c cd av D a s' -> Q r s') -> wp (parse_expire c e u) Q s.
Proof.
  intros Hs HQ. unfold parse_expire. destruct e; [|by apply wp_ret, HQ]. step.
  eapply number_wp; [done|done|]. intros r s' Hs' _ _. destruct r; [|step; auto].
  case_bool_decide; repeat step; auto.
Qed.

Lemma set_aborted_wp fl k Q cd av D a s :
  st s0 c cd av D a s -> (forall r s', st s0 c cd av D a s' -> Q r s') -> wp (set_aborted clock cd fl k) Q s.
Proof.
  intros Hs HQ. unfold set_aborted. step. destruct (set_nx fl); repeat step.
  - case_bool_decide; [step; auto|]. destruct (set_xx fl); repeat step; auto.
  - destruct (set_xx fl); repeat step; auto.
Qed.

Lemma setGenericCommand_wp fl k v e u ok ab cd av D a s :
  st s0 c cd av D a s -> a <> Pending -> size_ok v ->
  wp (setGenericCommand clock c fl k v e u ok ab) (fun _ => finished s0 c D) s.
Proof.
  intros Hs Ha Hv. unfold setGenericCommand. step. eapply parse_expire_wp; [done|]. clear s Hs. intros ms s Hs.
  destruct ms as [ms|]; [|step; finish]. repeat step. eapply set_aborted_wp; [done|]. clear s Hs. intros ab' s Hs.
  destruct ab'; [step; finish|]. step.
  eapply setKey_wp; [by eapply st_in_range|done|done|]. next_state. intros Hval.
  repeat step. destruct ms; repeat step; [|finish].
  eapply setExpire_wp; [by eapply st_in_range|done|by eexists|]. next_state. intros _ _. repeat step. finish.
Qed.

Lemma setCommand_wp a0 k v av cd D a s :
  st s0 c cd (a0 :: k :: v :: av) D a s -> a <> Pending -> zlen v <= sds_max ->
  wp (setCommand clock c) (fun _ => finished s0 c D) s.
Proof.
  intros Hs Ha Hv. unfold setCommand. step. eapply client_wp; [done|]. intros cl Hcl Hcd Hav.
  destruct (parse_set_options _ _ _ _) as [[[fl e] u]|]; [|step; finish]. repeat step.
  eapply setGenericCommand_wp; [done|done|]. by apply tryObjectEncoding_size.
Qed.

Lemma setnxCommand_wp a0 k v av cd D a s :
  st s0 c cd (a0 :: k :: v :: av) D a s -> a <> Pending -> zlen v <= sds_max ->
  wp (setnxCommand clock c) (fun _ => finished s0 c D) s.
Proof. intros. unfold setnxCommand. repeat step. eapply setGenericCommand_wp; eauto using tryObjectEncoding_size. Qed.

Lemma setexCommand_wp a0 k e v av cd D a s :
  st s0 c cd (a0 :: k :: e :: v :: av) D a s -> a <> Pending -> zlen v <= sds_max ->
  wp (setexCommand clock c) (fun _ => finished s0 c D) s.
Proof. intros. unfold setexCommand. repeat step. eapply setGenericCommand_wp; eauto using tryObjectEncoding_size. Qed.

Lemma psetexCommand_wp a0 k e v av cd D a s :
  st s0 c cd (a0 :: k :: e :: v :: av) D a s -> a <> Pending -> zlen v <= sds_max ->
  wp (psetexCommand clock c) (fun _ => finished s0 c D) s.
Proof. intros. unfold psetexCommand. repeat step. eapply setGenericCommand_wp; eauto using tryObjectEncoding_size. Qed.

Lemma strlenCommand_wp a0 k av cd D a s :
  st s0 c cd (a0 :: k :: av) D a s -> a <> Pending -> wp (strlenCommand clock c) (fun _ => finished s0 c D) s.
Proof.
  intros Hs Ha. unfold strlenCommand, lookupKeyReadOrReply. repeat step.
  destruct (value s1 cd k) as [o|] eqn:Hv; repeat step; [|finish].
  eapply checkType_wp; [done|]. next_state. destruct (negb _) eqn:Ht; step; [finish|].
  edestruct found_bytes as (b & Hb & _); [done..|]. eapply wp_lift; [unfold stringObjectLen; by rewrite Hb|].
  repeat step. finish.
Qed.

Lemma write_range_ok b offset v :
  arg_ok b -> 0 <= offset -> offset + zlen v < 2 ^ 63 -> swrap 64 (uwrap 64 (offset + zlen v)) <= sds_max ->
  exists b', write_range b offset v = Some b' /\ arg_ok b'.
Proof.
  intros Hb Ho Hs Hl. rewrite swrap_uwrap, swrap_small in Hl by (unfold srange; change (64 - 1) with 63; lia).
  unfold write_range. rewrite uwrap_small by (unfold urange; change (2 ^ 64) with (2 * 2 ^ 63); lia).
  unfold sds_max in *. rewrite bool_decide_eq_false_2 by lia. eexists; split; [done|].
  rewrite length_mem_write; rewrite length_app, length_replicate; lia.
Qed.

Lemma setrangeCommand_wp a0 k off v av cd D a s :
  st s0 c cd (a0 :: k :: off :: v :: av) D a s -> a <> Pending ->
  (forall o, getLongLongFromObject (Some (Raw off)) = Some (Some o) -> o + zlen v < 2 ^ 63) ->
  wp (setrangeCommand clock c) (fun _ => finished s0 c D) s.
Proof.
  intros Hs Ha Hoff. unfold setrangeCommand. repeat step.
  eapply number_wp; [done|done|]. intros r. next_state. intros Hr.
  destruct r as [offset|]; [|step; finish]. specialize (Hoff _ Hr).
  test; [step; finish|]. repeat step.
  (* from the point where the string is known *)
  assert (forall D' a' b t2, st s0 c cd (a0 :: k :: off :: v :: av) D' a' t2 -> D' ⊆ D ∪ {[(cd, k)]} -> arg_ok b ->
    is_Some (value t2 cd k) -> swrap 64 (uwrap 64 (offset + zlen v)) <= sds_max ->
    wp (s' ← lift (write_range b offset v); dbOverwrite cd k (Raw s');; signalModifiedKey cd k;;
        notifyKeyspaceEvent NOTIFY_STRING "setrange" k cd;; add_dirty 1;; addReply c (ReplyInt (zlen s')))
      (fun _ => finished s0 c D) t2) as Hgo.
  { intros D' a' b t2 Ht2 HD Hb Hv Hl.
    destruct (write_range_ok b offset v) as (b' & Hb' & Hlen); [done|lia|done|done|].
    step. eapply wp_lift; [done|]. step.
    eapply dbOverwrite_wp; [by eapply st_in_range|done|done|done|]. next_state. intros _ _.
    repeat step. finish. }
  destruct (value s2 cd k) as [o|] eqn:Hv.
  - step. eapply checkType_wp; [done|]. next_state. destruct (negb _) eqn:Ht; repeat step; [finish|].
    edestruct found_bytes as (b & Hb & Hlen); [done..|]. eapply wp_lift; [done|].
    test; repeat step; [finish|].
    eapply checkStringLength_wp; [done|]. intros r. next_state. intros Hl.
    destruct r; [|repeat step; finish]. step. eapply Hgo; try done; [set_solver|by apply Hl].
  - test; repeat step; [finish|].
    eapply checkStringLength_wp; [done|]. intros r. next_state. intros Hl.
    destruct r; [|repeat step; finish]. step.
    eapply dbAdd_wp; [by eapply st_in_range|done|done|done|]. next_state. intros Hv2 _. step.
    eapply Hgo; try done. by apply Hl.
Qed.

Lemma getrange_bounds_ok n start end_ start' end' :
  0 <= n <= sds_max -> srange 64 start -> srange 64 end_ -> end_ < 2 ^ 32 ->
  getrange_bounds n start end_ = (start', end') -> 0 <= start' /\ (start' <= end' -> end' < n).
Proof.
  intros Hn Hs He Hlt. unfold getrange_bounds, srange, sds_max in *. change (64 - 1) with 63 in *.
  rewrite !swrap_uwrap by done.
  rewrite (swrap_small 64 (n - 1)) by (unfold srange; change (64 - 1) with 63; lia).
  assert (forall x, x < 0 -> - 2 ^ 63 <= x -> swrap 64 (n + x) = n + x) as Hsw.
  { intros. apply swrap_small; [done|]. unfold srange. change (64 - 1) with 63. lia. }
  set (s1 := if bool_decide (start < 0) then _ else start).
  set (e1 := if bool_decide (end_ < 0) then _ else end_).
  assert (e1 < 2 ^ 32) as He1.
  { unfold e1. case_bool_decide; [rewrite Hsw by lia; lia|lia]. }
  set (e2 := if bool_decide (e1 < 0) then 0 else e1).
  assert (0 <= e2 < 2 ^ 32) as He2 by (unfold e2; case_bool_decide; lia).
  rewrite (uwrap_small 32 e2) by done. intros [= <- <-]. split; [case_bool_decide; lia|].
  intros _. case_bool_decide; lia.
Qed.

Lemma strtoll_range l v r e : strtoll l = (v, r, e) -> srange 64 v.
Proof.
  unfold strtoll, LLONG_MIN, LLONG_MAX, srange. change (64 - 1) with 63. intros H.
  repeat (case_match; simplify_eq; try lia); rewrite ?bool_decide_eq_false in *; lia.
Qed.

Lemma number_range l v : getLongLongFromObject (Some (Raw l)) = Some (Some v) -> srange 64 v.
Proof.
  simpl. destruct (strtoll l) as [[x r] e] eqn:Hx. case_match; [done|]. intros [= <-]. by eapply strtoll_range.
Qed.

Lemma getrangeCommand_wp a0 k x y av cd D a s :
  st s0 c cd (a0 :: k :: x :: y :: av) D a s -> a <> Pending ->
  (forall e, getLongLongFromObject (Some (Raw y)) = Some (Some e) -> e < 2 ^ 32) ->
  wp (getrangeCommand clock c) (fun _ => finished s0 c D) s.
Proof.
  intros Hs Ha He. unfold getrangeCommand, lookupKeyReadOrReply. repeat step.
  eapply number_wp; [done|done|]. intros r. next_state. intros Hx. destruct r as [start|]; [|step; finish]. repeat step.
  eapply number_wp; [done|done|]. intros r. next_state. intros Hy. destruct r as [end_|]; [|step; finish]. repeat step.
  specialize (He _ Hy). apply number_range in Hx, Hy.
  destruct (value s3 cd k) as [o|] eqn:Hv; repeat step; [|finish].
  eapply checkType_wp; [done|]. next_state. destruct (negb _) eqn:Ht; step; [finish|].
  edestruct found_bytes as (b & Hb & Hlen); [done..|]. eapply wp_lift; [done|].
  destruct (getrange_bounds (zlen b) start end_) as [s' e'] eqn:Hbd.
  destruct (getrange_bounds_ok (zlen b) start end_ s' e') as [H0 Hle]; [split; [lia|done]|done..|].
  test; [step; finish|]. step.
  eapply wp_lift; [unfold read_bytes; rewrite bool_decide_eq_false_2 by lia; done|]. step. finish.
Qed.

Lemma mget_loop_wp keys Q cd av D a s :
  st s0 c cd av D a s -> (forall s', st s0 c cd av D a s' -> Q tt s') -> wp (mget_loop clock c cd keys) Q s.
Proof.
  revert s. induction keys as [|k keys IH]; intros s Hs HQ; simpl; repeat step; [by apply HQ|].
  destruct (value s1 cd k) as [o|] eqn:Hv; repeat step; [|by apply IH].
  destruct (bool_decide (type_of o <> REDIS_STRING)) eqn:Ht; repeat step; [by apply IH|].
  edestruct found_bytes as (b & Hb & _); [done|done| |].
  { apply bool_decide_eq_false in Ht. apply negb_false_iff, bool_decide_eq_true. by apply dec_stable. }
  unfold addReplyBulk. step. eapply wp_lift; [done|]. repeat step. by apply IH.
Qed.

Lemma mgetCommand_wp av cd D a s :
  st s0 c cd av D a s -> a <> Pending -> wp (mgetCommand clock c) (fun _ => finished s0 c D) s.
Proof.
  intros Hs Ha. unfold mgetCommand. step. eapply client_wp; [done|]. intros cl _ Hcd Hav. repeat step.
  rewrite Hcd. eapply mget_loop_wp; [done|]. intros. finish.
Qed.

Lemma count_busy_wp kvs Q cd av D a s :
  st s0 c cd av D a s -> (forall r s', st s0 c cd av D a s' -> Q r s') -> wp (count_busy clock cd kvs) Q s.
Proof.
  revert s Q. induction kvs as [| |k v kvs IH] using list_pair_ind; intros s Q Hs HQ; simpl; repeat step; auto.
  apply IH; [done|]. intros r s' Hs'. step. auto.
Qed.

Lemma mset_loop_wp kvs Q cd av D a s :
  st s0 c cd av D a s -> Forall arg_ok kvs ->
  (forall a' s', st s0 c cd av D a' s' -> Q tt s') -> wp (mset_loop clock cd kvs) Q s.
Proof.
  revert a s. induction kvs as [| |k v kvs IH] using list_pair_ind; intros a s Hs Hkvs HQ; simpl; repeat step.
  - by eapply HQ.
  - by eapply HQ.
  - apply Forall_cons in Hkvs as [_ [Hv Hkvs]%Forall_cons].
    eapply setKey_wp; [by eapply st_in_range|done|by apply tryObjectEncoding_size|]. next_state. intros _.
    repeat step. by eapply IH.
Qed.

Lemma msetGenericCommand_wp nx av cd D a s :
  st s0 c cd av D a s -> a <> Pending -> Forall arg_ok av -> (3 <= length av)%nat ->
  wp (msetGenericCommand clock c nx) (fun _ => finished s0 c D) s.
Proof.
  intros Hs Ha Hav Hlen. unfold msetGenericCommand. step. eapply client_wp; [done|]. intros cl _ -> ->.
  test; [step; finish|]. step.
  apply (wp_mono _ (fun _ s' => st s0 c cd av D a s')).
  { destruct nx; [by eapply count_busy_wp|by apply wp_ret]. }
  clear s Hs. intros busy s Hs. test; [step; finish|]. step.
  eapply mset_loop_wp; [done|by apply Forall_drop|]. clear dependent a s. intros a s Hs. step.
  eapply add_dirty_wp; [|exact Hs|].
  { apply Z.div_pos; lia. }
  next_state. step.
  assert ((Z.of_nat (length av) - 1) `div` 2 <> 0) as Hne.
  { assert (1 <= (Z.of_nat (length av) - 1) `div` 2); [|lia]. apply Z.div_le_lower_bound; lia. }
  rewrite bool_decide_eq_false_2 in Hs by done. finish.
Qed.

Lemma incrDecrCommand_wp a0 k av incr cd D a s :
  st s0 c cd (a0 :: k :: av) D a s -> a <> Pending ->
  wp (incrDecrCommand clock c incr) (fun _ => finished s0 c D) s.
Proof.
  intros Hs Ha. unfold incrDecrCommand. repeat step.
  apply (wp_mono _ (fun w s' => st s0 c cd (a0 :: k :: av) D a s' /\ value s' cd k = value s1 cd k /\
    (w = false -> match value s1 cd k with Some o => type_of o = REDIS_STRING | None => True end))).
  { destruct (value s1 cd k) as [o|] eqn:Hv; [|step; done]. eapply checkType_wp; [done|]. next_state.
    split_and!; [done|done|]. intros Ht. by apply negb_false_iff, bool_decide_eq_true in Ht. }
  intros w s' (Hs & Hv & Hw). destruct w; [step; finish|]. specialize (Hw eq_refl). step.
  eapply number_wp; [done| |].
  { destruct (value s1 cd k) as [[| |t p]|]; try done. by apply (value_size _ _ _ _ _ _ _ _ Hs Hv). }
  intros r. clear Hs. intros s2 Hs Hdb Hr. destruct r as [v|]; [|step; finish].
  assert (value s2 cd k = value s1 cd k) as Hv2 by (rewrite <- Hv; unfold value; by rewrite Hdb).
  destruct (incr_overflows v incr); [step; finish|]. step.
  set (new := createStringObjectFromLongLong _).
  assert (size_ok new) as Hnew by (apply swrap_range; done).
  apply (wp_mono _ (fun _ s' => st s0 c cd (a0 :: k :: av) (D ∪ {[(cd, k)]}) (after a Pending) s')).
  { destruct (value s1 cd k); [eapply dbOverwrite_wp|eapply dbAdd_wp];
      try done; try (by eapply st_in_range); by eexists. }
  clear Hs. intros _ s3 Hs. repeat step. finish.
Qed.

Lemma incrby_wp (neg : bool) a0 k x av cd D a s :
  st s0 c cd (a0 :: k :: x :: av) D a s -> a <> Pending ->
  wp (incrbyCommand clock c) (fun _ => finished s0 c D) s /\ wp (decrbyCommand clock c) (fun _ => finished s0 c D) s.
Proof.
  intros Hs Ha. unfold incrbyCommand, decrbyCommand. split; repeat step;
    (eapply number_wp; [done|done|]; intros r; next_state; intros _;
     destruct r; [by eapply incrDecrCommand_wp|step; finish]).
Qed.

Lemma appendCommand_wp a0 k x av cd D a s :
  st s0 c cd (a0 :: k :: x :: av) D a s -> a <> Pending -> arg_ok x ->
  wp (appendCommand clock c) (fun _ => finished s0 c D) s.
Proof.
  intros Hs Ha Hx. unfold appendCommand. repeat step.
  apply (wp_mono _ (fun (r : option Z) s' => exists a', st s0 c cd (a0 :: k :: x :: av)
    (match r with Some _ => D ∪ {[(cd, k)]} | None => D end) a' s' /\ (r = None -> a' <> Pending))).
  { destruct (value s1 cd k) as [o|] eqn:Hv; step.
    - eapply checkType_wp; [done|]. next_state. destruct (negb _) eqn:Ht; repeat step; [by exists a|].
      edestruct found_bytes as (b & Hb & Hlen); [done..|]. eapply wp_lift; [done|]. step.
      eapply checkStringLength_wp; [done|]. intros r. next_state. intros Hl. destruct r; repeat step; [|by exists a].
      eapply dbOverwrite_wp; [by eapply st_in_range|done|by eexists| |].
      { simpl. rewrite length_app. specialize (Hl eq_refl). lia. }
      next_state. intros _ _. step. by eexists.
    - eapply dbAdd_wp; [by eapply st_in_range|done|done|by apply tryObjectEncoding_size|]. next_state. intros _ _. step.
      destruct (decoded_size (tryObjectEncoding x)) as (b & Hb & _).
      { by apply tryObjectEncoding_size. }
      { unfold tryObjectEncoding. by case_bool_decide; [|destruct (string2l x)]. }
      eapply wp_lift; [unfold stringObjectLen; by rewrite Hb|]. step. by eexists. }
  intros r s' (a' & Hs & Ha'). destruct r; repeat step; [finish|]. specialize (Ha' eq_refl). finish.
Qed.

End Strings.
