(* ===== verification/KeyEffects.v ===== *)
(** * The effects of the commands on keys

    As [StringEffects], for the commands of [db.c].  MOVE is the exception: it
    changes a key in two databases without a signal. *)
From Stdlib Require Import String.
#[local] Set Warnings "-clear-no-such-hyp".
From S2P Require Import Prelude Util Sds SdsArgs Server StringCommands Transactions ServerLogic StringEffects.

Section Keys.
Context (clock : nat -> Z) (s0 : server) (c : client_id).

Lemma del_loop_wp keys Q cd av D a s :
  st s0 c cd av D a s -> a <> Pending ->
  (forall r a' s', a' <> Pending -> st s0 c cd av D a' s' -> Q r s') -> wp (del_loop cd keys) Q s.
Proof.
  revert a s Q. induction keys as [|k keys IH]; intros a s Q Hs Ha HQ; simpl; repeat step; [by eapply HQ|].
  eapply dbDelete_wp; [by eapply st_in_range|done|]. intros r s1 _ Hs1 _ _ _ _. step.
  apply (wp_mono _ (fun _ s' => exists a', a' <> Pending /\ st s0 c cd av D a' s')).
  { destruct r; [|subst; apply wp_ret; by exists a]. clear Hs. repeat step. exists Paid. split; [done|].
    destruct Hs as [? He ?]. split; [done| |done]. eapply eff_weaken; [done|set_solver|done]. }
  clear Hs Hs1 s1. intros _ s1 (a' & Ha' & Hs). step. eapply IH; [done|done|]. intros. step. by eapply HQ.
Qed.

Lemma delCommand_wp av cd D a s :
  st s0 c cd av D a s -> a <> Pending -> wp (delCommand c) (fun _ => finished s0 c D) s.
Proof.
  intros Hs Ha. unfold delCommand. step. eapply client_wp; [done|]. intros cl _ -> ->. step.
  eapply del_loop_wp; [done|done|]. clear dependent a s. intros r a s Ha Hs. step. finish.
Qed.

Lemma existsCommand_wp a0 k av cd D a s :
  st s0 c cd (a0 :: k :: av) D a s -> a <> Pending -> wp (existsCommand clock c) (fun _ => finished s0 c D) s.
Proof.
  intros Hs Ha. unfold existsCommand. repeat step.
  eapply expireIfNeeded_wp; [by eapply st_in_range|done|]. intros r. next_state. intros _. step.
  eapply exists_wp; [by eapply st_in_range|done|]. step. finish.
Qed.

Lemma selectCommand_wp a0 x av cd D a s :
  st s0 c cd (a0 :: x :: av) D a s -> a <> Pending -> wp (selectCommand c) (fun _ => finished s0 c D) s.
Proof.
  intros Hs Ha. unfold selectCommand. repeat step.
  assert (exists r, getLongLongFromObject (Some (Raw x)) = Some r) as [r Hr].
  { simpl. destruct (strtoll x) as [[??]?]. case_match; eauto. }
  eapply wp_lift; [done|]. destruct r as [id|]; [|step; finish]. step.
  eapply selectDb_wp; [done|]. intros ok s' _ Hs'. clear Hs. destruct ok; [destruct Hs' as (_ & _ & Hs')|]; step; finish.
Qed.

Lemma database_wp cd av D a s Q :
  st s0 c cd av D a s -> (forall db, s_db s !! cd = Some db -> Q db s) -> wp (database cd) Q s.
Proof.
  intros Hs HQ. destruct (in_range_lookup s cd) as [db Hdb].
  { eapply st_range, st_in_range; done. }
  eapply wp_database; [done|]. auto.
Qed.

Lemma dbsizeCommand_wp av cd D a s :
  st s0 c cd av D a s -> a <> Pending -> wp (dbsizeCommand c) (fun _ => finished s0 c D) s.
Proof.
  intros Hs Ha. unfold dbsizeCommand. repeat step. eapply database_wp; [done|]. intros. step. finish.
Qed.

Lemma typeCommand_wp a0 k av cd D a s :
  st s0 c cd (a0 :: k :: av) D a s -> a <> Pending -> wp (typeCommand clock c) (fun _ => finished s0 c D) s.
Proof. intros Hs Ha. unfold typeCommand. repeat step. finish. Qed.

(** *** Flushing *)

Lemma flush_touches_spec s dbid cl d k :
  (d, k) ∈ c_watched cl -> dbid = None \/ dbid = Some d -> is_Some (value s d k) -> flush_touches s dbid cl = true.
Proof.
  intros Hin Hd Hv. apply existsb_exists. exists (d, k). split; [by apply list_elem_of_In|].
  apply andb_true_iff. split; [by apply bool_decide_eq_true|]. unfold value in Hv.
  destruct (s_db s !! d); [by apply bool_decide_eq_true|]. by destruct Hv.
Qed.

Lemma touchWatchedKeysOnFlush_wp dbid Q cd av D a s :
  st s0 c cd av D a s ->
  (forall s', st s0 c cd av D a s' -> s_db s' = s_db s ->
     (forall d k, dbid = None \/ dbid = Some d -> is_Some (value s d k) -> all_marked s' d k) -> Q tt s') ->
  wp (touchWatchedKeysOnFlush dbid) Q s.
Proof.
  intros Hs HQ.
  apply (mark_wp s0 c _ (fun w => exists cl, s_clients s !! w = Some cl /\ flush_touches s dbid cl = true) _ cd av D a); [done| |].
  - intros w. rewrite lookup_fmap. destruct (s_clients s !! w) as [cl|] eqn:Hw; simpl; [|done].
    destruct (flush_touches s dbid cl) eqn:Hf; (split; [|try (intros (? & [= <-] & ?); congruence)]).
    + right. exists cl. by split_and!.
    + intros _. by apply flag_on_set_self.
    + by left.
  - intros s' Hs' Hdb Hm. apply HQ; [done|done|]. intros d k Hd Hv w (cl & Hcl & Hin).
    assert (watches s w d k) as (cl0 & Hcl0 & Hin0).
    { destruct (in_range_lookup s d) as [db Hdb'].
      { unfold value in Hv. destruct (s_db s !! d) eqn:Hx; [by eapply lookup_lt_Some|by destruct Hv]. }
      apply (inv_watch _ (st_inv _ _ _ _ _ _ _ Hs) d db k w Hdb').
      apply (inv_watch _ (st_inv _ _ _ _ _ _ _ Hs') d db k w); [by rewrite Hdb|]. by exists cl. }
    apply Hm; [|by eexists]. exists cl0. split; [done|]. by eapply flush_touches_spec.
Qed.

(** Databases are emptied after the watchers of their keys were marked. *)
Lemma emptied cd av D a s dbs :
  st s0 c cd av D a s ->
  Forall2 (fun db db' => db' = db \/ db' = RedisDb ∅ ∅ (db_watched db)) (s_db s) dbs ->
  (forall d k, value (set_dbs dbs s) d k = value s d k \/ all_marked s d k) ->
  st s0 c cd av D (after a Pending) (set_dbs dbs s).
Proof.
  intros Hs Hdbs Hv. pose proof (st_inv _ _ _ _ _ _ _ Hs) as Hi.
  assert (forall d db', dbs !! d = Some db' -> exists db, s_db s !! d = Some db /\
    (db' = db \/ db' = RedisDb ∅ ∅ (db_watched db))) as Hback.
  { intros d db' Hd. by apply (Forall2_lookup_r _ _ _ _ _ Hdbs) in Hd. }
  assert (server_inv (set_dbs dbs s)) as Hi'.
  { constructor; simpl; rewrite <- ?(Forall2_length _ _ _ Hdbs); try (by destruct Hi).
    - intros d db' k Hd. destruct (Hback _ _ Hd) as (db & H0 & [->| ->]); [by eapply (inv_expires _ Hi)|].
      simpl. rewrite lookup_empty. by intros [].
    - intros d k o. unfold value. simpl. destruct (dbs !! d) as [db'|] eqn:Hd; [|done]. simpl.
      destruct (Hback _ _ Hd) as (db & H0 & [->| ->]); simpl; [|by rewrite lookup_empty].
      intros Ho. apply (inv_sizes _ Hi d k). unfold value. by rewrite H0.
    - intros d db' k w Hd. destruct (Hback _ _ Hd) as (db & H0 & [->| ->]); exact (inv_watch _ Hi d db k w H0).
    - intros d db' k Hd. destruct (Hback _ _ Hd) as (db & H0 & [->| ->]); exact (inv_watch_nodup _ Hi d db k H0). }
  pose proof (st_step _ _ _ _ _ _ _ ∅ Pending _ Hs Hi') as Hst. rewrite (right_id_L ∅ (∪)) in Hst. apply Hst; [|by destruct Hs].
  constructor; try done.
  - intros d k. destruct (Hv d k); auto.
  - intros w. apply (kept_self s w).
  - apply list_eq. intros i. simpl. rewrite !list_lookup_fmap.
    destruct (dbs !! i) as [db'|] eqn:Hd.
    + by destruct (Hback _ _ Hd) as (db & -> & [->| ->]).
    + apply lookup_ge_None in Hd. rewrite <- (Forall2_length _ _ _ Hdbs) in Hd. by apply lookup_ge_None in Hd as ->.
Qed.

Lemma flushdbCommand_wp av cd D a s :
  st s0 c cd av D a s -> a <> Pending -> wp (flushdbCommand c) (fun _ => finished s0 c D) s.
Proof.
  intros Hs Ha. unfold flushdbCommand. repeat step. eapply database_wp; [done|]. intros db Hdb. step.
  eapply add_dirty_wp; [lia|done|]. intros s1 Hs1 [Hdb1 _]. rewrite <- Hdb1 in Hdb. step.
  eapply touchWatchedKeysOnFlush_wp; [done|]. intros s2 Hs2 Hdb2 Hm. rewrite <- Hdb2 in Hdb. step.
  set (f := fun db => RedisDb ∅ ∅ (db_watched db)).
  apply (wp_mono _ (fun _ s3 => exists a', a' <> Pending /\ st s0 c cd av D a' s3)).
  - change (exists a', a' <> Pending /\ st s0 c cd av D a' (set_dbs (alter f cd (s_db s2)) s2)).
    case_bool_decide as Hz.
    + exists a. split; [done|]. rewrite (alter_self _ _ _ db Hdb); [done|]. unfold f.
      assert (db_dict db = ∅) as Hd by (apply map_size_empty_iff; lia).
      assert (db_expires db = ∅) as He.
      { apply map_eq. intros k. rewrite lookup_empty. apply eq_None_not_Some. intros Hx.
        apply (inv_expires _ (st_inv _ _ _ _ _ _ _ Hs2) cd db k Hdb) in Hx.
        rewrite Hd, lookup_empty in Hx. by destruct Hx. }
      destruct db. simpl in *. by subst.
    + exists Paid. split; [done|]. eapply (emptied cd av D Paid); [done| |].
      * apply Forall2_lookup. intros i. destruct (decide (i = cd)) as [->|Hne].
        -- rewrite list_lookup_alter_eq, Hdb. constructor. by right.
        -- rewrite list_lookup_alter_ne by done. destruct (s_db s2 !! i); constructor. by left.
      * intros d k. rewrite (value_alter _ _ _ _ _ _ Hdb). case_bool_decide as Hd; [|by left]. subst d.
        destruct (value s2 cd k) as [o|] eqn:Hv; [right|left; apply lookup_empty].
        apply Hm; [by right|]. unfold value in *. rewrite <- Hdb2, Hv. by eexists.
  - clear. intros _ s3 (a' & Ha' & Hs). repeat step. finish.
Qed.

Lemma emptyDb_wp Q cd av D a s :
  st s0 c cd av D a s -> (forall d k, is_Some (value s d k) -> all_marked s d k) ->
  (forall n s', 0 <= n -> st s0 c cd av D (after a Pending) s' -> Q n s') -> wp emptyDb Q s.
Proof.
  intros Hs Hm HQ. apply HQ.
  - induction (s_db s); simpl; lia.
  - apply emptied; [done| |].
    + apply Forall2_fmap_r, Forall_Forall2_diag, Forall_true. intros db. by right.
    + intros d k. destruct (value s d k) as [o|] eqn:Hv; [right; apply Hm; by eexists|left].
      unfold value. simpl. rewrite list_lookup_fmap. by destruct (s_db s !! d).
Qed.

(** [saveparamslen] is 0 when no save point is configured. *)
Lemma flushallCommand_wp av cd D a s :
  st s0 c cd av D a s -> a <> Pending -> saveparamslen (s_conf s0) <= 0 ->
  wp (flushallCommand c) (fun _ => finished s0 c D) s.
Proof.
  intros Hs Ha Hsave. unfold flushallCommand. step.
  eapply touchWatchedKeysOnFlush_wp; [done|]. intros s1 Hs1 Hdb1 Hm. step.
  eapply emptyDb_wp; [done| |].
  { intros d k Hv. apply Hm; [by left|]. unfold value in *. by rewrite <- Hdb1. }
  clear dependent s. clear dependent s1. intros n s Hn Hs. repeat step.
  rewrite (eff_conf _ _ _ _ (st_eff _ _ _ _ _ _ _ Hs)).
  destruct (bool_decide_reflect (saveparamslen (s_conf s0) > 0)); [lia|]. repeat step. finish.
Qed.

(** With save points the counter may end at any value. *)
Lemma flushallCommand_counts av cd D a s :
  st s0 c cd av D a s -> a <> Pending ->
  wp (flushallCommand c) (fun _ s' => exists cd' av' a' s1 n, st s0 c cd' av' D a' s1 /\ s' = set_dirty n s1) s.
Proof.
  intros Hs Ha. unfold flushallCommand. step.
  eapply touchWatchedKeysOnFlush_wp; [done|]. intros s1 Hs1 Hdb1 Hm. step.
  eapply emptyDb_wp; [done| |].
  { intros d k Hv. apply Hm; [by left|]. unfold value in *. by rewrite <- Hdb1. }
  clear dependent s. clear dependent s1. intros n s Hn Hs. repeat step.
  match goal with Hs' : st _ c ?cd ?av _ ?a ?s |- _ => destruct (bool_decide (saveparamslen (s_conf s) > 0)); do 5 eexists; (split; [exact Hs'|done]) end.
Qed.

(** *** Renaming, moving, expiring *)

Lemma renameGenericCommand_wp nx a0 k1 k2 av cd D a s :
  st s0 c cd (a0 :: k1 :: k2 :: av) D a s -> a <> Pending ->
  wp (renameGenericCommand clock c nx) (fun _ => finished s0 c D) s.
Proof.
  intros Hs Ha. unfold renameGenericCommand, lookupKeyWriteOrReply. repeat step. test; [step; finish|]. repeat step.
  destruct (value s1 cd k1) as [o|] eqn:Hv; repeat step; [|finish].
  eapply getExpire_wp; [by eapply st_in_range|done|]. step.
  generalize (default (-1) (expire_of s1 cd k1)). intros expire. repeat step.
  destruct (bool_decide (is_Some (value s2 cd k2)) && nx); [step; finish|]. step.
  assert (size_ok o) as Hsize by (by eapply value_size).
  apply (wp_mono _ (fun _ s3 => exists D' a', D' ⊆ D ∪ {[(cd, k2)]} /\ st s0 c cd (a0 :: k1 :: k2 :: av) D' a' s3 /\
    value s3 cd k2 = None /\ value s3 cd k1 = Some o)).
  { destruct (value s2 cd k2) as [o2|] eqn:Hv2; [|step; exists D, a; split_and!; [set_solver|done..]]. step.
    eapply dbDelete_wp; [by eapply st_in_range|done|]. intros r s3 Hr Hs3 Hag Hv3 _ _. carry_to s2 s3 Hag. step.
    destruct r; [by exists (D ∪ {[(cd, k2)]}), (after a Pending)|].
    symmetry in Hr. apply bool_decide_eq_false in Hr. destruct Hr. by eexists. }
  clear Hs. intros _ s3 (D' & a' & HD & Hs & Hv2 & Hv1). step.
  eapply dbAdd_wp; [by eapply st_in_range|done|done|done|]. next_state. intros Hv2' _. step.
  apply (wp_mono _ (fun _ s5 => exists a5, st s0 c cd (a0 :: k1 :: k2 :: av) (D' ∪ {[(cd, k2)]}) a5 s5)).
  { test; [|step; by eexists]. eapply setExpire_wp; [by eapply st_in_range|done|by eexists|]. next_state. by eexists. }
  clear Hs0 Hv1 Hv2'. intros _ s5 (a5 & Hs). step.
  eapply dbDelete_wp; [by eapply st_in_range|done|]. intros r s6 _ Hs6 _ _ _ _.
  assert (exists a6, st s0 c cd (a0 :: k1 :: k2 :: av) (D' ∪ {[(cd, k2)]} ∪ {[(cd, k1)]}) a6 s6) as [a6 Hs7].
  { destruct r; [by eexists|subst s6]. exists Pending. destruct Hs as [? He ?]. split; [done| |done].
    eapply eff_weaken; [done|set_solver|done]. }
  clear Hs6 Hs. repeat step. finish.
Qed.

Lemma moveCommand_wp a0 k x av cd D a s :
  st s0 c cd (a0 :: k :: x :: av) D a s -> a <> Pending ->
  wp (moveCommand clock c) (fun _ s' => exists d, finished s0 c (D ∪ {[(cd, k); (d, k)]}) s') s.
Proof.
  intros Hs Ha. unfold moveCommand. repeat step.
  eapply selectDb_wp; [done|]. intros r s1 Hdb Hs1. pose proof (st_in_range _ _ _ _ _ _ _ Hs) as Hcd. clear Hs.
  destruct r; [destruct Hs1 as (Hr & _ & Hs)|step; exists cd; finish]. repeat step.
  eapply selectDb_wp; [done|]. intros r s2 Hdb2 Hs2. clear Hs.
  set (dst := Z.to_nat (atoi x)) in *.
  assert (exists cd', st s0 c cd' (a0 :: k :: x :: av) D a s2) as [cd' Hs].
  { destruct r; [destruct Hs2 as (_ & _ & ?)|]; by eexists. }
  clear Hs2. test; [step; exists cd; finish|]. repeat step.
  eapply lookupKeyWrite_wp; [done|done|]. next_state.
  destruct (value s3 cd k) as [o|] eqn:Hv; repeat step; [|exists cd; finish].
  eapply lookupKeyWrite_wp; [done|done|]. next_state.
  destruct (value s4 dst k) as [o'|] eqn:Hv2; repeat step; [exists cd; finish|].
  assert (size_ok o) as Hsize by (by eapply value_size).
  eapply dbAdd_wp; [done|done|done|done|]. next_state. intros _ _. step.
  eapply dbDelete_wp; [done|done|]. intros q t5 _ Ht5 _ _ _ _.
  assert (exists a6, st s0 c cd' (a0 :: k :: x :: av) (D ∪ {[(dst, k)]} ∪ {[(cd, k)]}) a6 t5) as [a6 Hs7].
  { destruct q; [by eexists|subst t5]. exists Pending. destruct Hs0 as [? He ?]. split; [done| |done].
    eapply eff_weaken; [done|set_solver|done]. }
  clear Ht5 Hs0. repeat step. exists dst. finish.
Qed.

Lemma expireGenericCommand_wp base u a0 k x av cd D a s :
  st s0 c cd (a0 :: k :: x :: av) D a s -> a <> Pending ->
  wp (expireGenericCommand clock c base u) (fun _ => finished s0 c D) s.
Proof.
  intros Hs Ha. unfold expireGenericCommand. repeat step.
  eapply number_wp; [done|done|]. intros r. next_state. intros _. destruct r as [w|]; [|step; finish].
  cbv zeta. repeat step. destruct (value s2 cd k) as [o|] eqn:Hv; repeat step; [|finish].
  destruct (bool_decide _ && _ && _); step.
  - eapply dbDelete_wp; [by eapply st_in_range|done|]. intros r s4 Hr Hs4 _ _ _ _. step.
    rewrite Hv in Hr. rewrite bool_decide_eq_true_2 in Hr by by eexists. subst r. clear Hs0.
    apply wp_assert; [done|]. repeat step. unfold rewriteClientCommandVector.
    eapply (on_client_wp s0 c _ _ cd _ cd [[68; 69; 76]; k]); [done| |by eapply st_in_range|done|].
    { by intros cl Hd _. }
    next_state. repeat step. finish.
  - eapply setExpire_wp; [by eapply st_in_range|done|by eexists|]. next_state. intros _ _. repeat step. finish.
Qed.

Lemma expires_commands_wp a0 k x av cd D a s :
  st s0 c cd (a0 :: k :: x :: av) D a s -> a <> Pending ->
  wp (expireCommand clock c) (fun _ => finished s0 c D) s /\
  wp (pexpireCommand clock c) (fun _ => finished s0 c D) s /\
  wp (expireatCommand clock c) (fun _ => finished s0 c D) s /\
  wp (pexpireatCommand clock c) (fun _ => finished s0 c D) s.
Proof.
  intros Hs Ha. unfold expireCommand, pexpireCommand.
  split_and!; repeat step; by eapply expireGenericCommand_wp.
Qed.

Lemma ttlGenericCommand_wp ms a0 k av cd D a s :
  st s0 c cd (a0 :: k :: av) D a s -> a <> Pending ->
  wp (ttlGenericCommand clock c ms) (fun _ => finished s0 c D) s.
Proof.
  intros Hs Ha. unfold ttlGenericCommand. repeat step.
  destruct (value s1 cd k) as [o|] eqn:Hv; repeat step; [|finish].
  eapply getExpire_wp; [by eapply st_in_range|done|]. step. test; repeat step; finish.
Qed.

Lemma persistCommand_wp a0 k av cd D a s :
  st s0 c cd (a0 :: k :: av) D a s -> a <> Pending -> wp (persistCommand c) (fun _ => finished s0 c D) s.
Proof.
  intros Hs Ha. unfold persistCommand. repeat step. eapply exists_wp; [by eapply st_in_range|done|].
  test; [|step; finish]. step. eapply removeExpire_wp; [by eapply st_in_range|done|done|].
  intros r s' _ Hs' _ _ _. destruct r; cbv beta iota in Hs'; [clear Hs|subst s']; repeat step; finish.
Qed.

End Keys.
