(* ===== verification/WatchLogic.v ===== *)
(** * The tables of watched keys ([multi.c])

    WATCH, UNWATCH and the operations on transactions keep the invariant of the
    server and change nothing but the client and its entries in the tables. *)
From Stdlib Require Import String.
#[local] Set Warnings "-clear-no-such-hyp".
From S2P Require Import Prelude ClientFlags Util Sds SdsArgs Server StringCommands Transactions ServerLogic.

(** From [s] to [s'] only the client [c], which stays, and its entries in the
    tables of watched keys change. *)
Record tx (c : client_id) (s s' : server) : Prop := {
  tx_inv : server_inv s';
  tx_data : data s' = data s;
  tx_others : forall w, w <> c -> s_clients s' !! w = s_clients s !! w;
  tx_client : is_Some (s_clients s' !! c);
  tx_events : s_events s' = s_events s;
  tx_propagated : s_propagated s' = s_propagated s;
  tx_dirty : s_dirty s' = s_dirty s;
  tx_conf : s_conf s' = s_conf s;
}.

Lemma tx_refl c s : server_inv s -> is_Some (s_clients s !! c) -> tx c s s.
Proof. done. Qed.

Lemma tx_trans c s1 s2 s3 : tx c s1 s2 -> tx c s2 s3 -> tx c s1 s3.
Proof.
  intros H1 H2. constructor; try apply H2.
  - by rewrite (tx_data _ _ _ H2), (tx_data _ _ _ H1).
  - intros w Hw. by rewrite (tx_others _ _ _ H2), (tx_others _ _ _ H1).
  - by rewrite (tx_events _ _ _ H2), (tx_events _ _ _ H1).
  - by rewrite (tx_propagated _ _ _ H2), (tx_propagated _ _ _ H1).
  - by rewrite (tx_dirty _ _ _ H2), (tx_dirty _ _ _ H1).
  - by rewrite (tx_conf _ _ _ H2), (tx_conf _ _ _ H1).
Qed.

Lemma tx_length c s s' : tx c s s' -> length (s_db s') = length (s_db s).
Proof.
  intros H. pose proof (f_equal length (tx_data _ _ _ H)) as Hl. unfold data in Hl. by rewrite !length_fmap in Hl.
Qed.

Lemma data_value s s' d k : data s' = data s -> value s' d k = value s d k.
Proof.
  intros H. pose proof (f_equal (.!! d) H) as Hd. unfold data in Hd. simpl in Hd. rewrite !list_lookup_fmap in Hd.
  unfold value. destruct (s_db s !! d), (s_db s' !! d); simplify_eq/=; congruence.
Qed.

Lemma tx_value c s s' d k : tx c s s' -> value s' d k = value s d k.
Proof. intros H. by apply data_value, (tx_data _ _ _ H). Qed.

(** *** Changes of the client alone *)

Lemma on_client_tx c (f : rclient -> rclient) cl s :
  server_inv s -> s_clients s !! c = Some cl -> c_watched (f cl) = c_watched cl -> in_range s (c_db (f cl)) ->
  tx c s (set_clients (alter f c (s_clients s)) s) /\
  s_clients (set_clients (alter f c (s_clients s)) s) !! c = Some (f cl).
Proof.
  intros Hi Hc Hw Hr.
  assert (s_clients (set_clients (alter f c (s_clients s)) s) !! c = Some (f cl)) as Hc'.
  { simpl. by rewrite lookup_alter_eq, Hc. }
  split; [|done]. constructor; try done.
  - eapply inv_same_db; [done|done|]. intros w. simpl. destruct (decide (c = w)) as [<-|Hne].
    + by rewrite lookup_alter_eq, Hc.
    + rewrite lookup_alter_ne by done. by apply range_self.
  - intros w Hne. simpl. by rewrite lookup_alter_ne.
Qed.

Lemma on_client_txwp c (f : rclient -> rclient) cl s Q :
  server_inv s -> s_clients s !! c = Some cl -> c_watched (f cl) = c_watched cl -> in_range s (c_db (f cl)) ->
  (forall s', tx c s s' -> s_clients s' !! c = Some (f cl) -> Q tt s') -> wp (on_client c f) Q s.
Proof. intros Hi Hc Hw Hr HQ. destruct (on_client_tx c f cl s Hi Hc Hw Hr). by apply HQ. Qed.

(** *** One entry of the tables *)

Definition watchers (s : server) (d : nat) (k : bytes) : list client_id :=
  default [] (db ← s_db s !! d; db_watched db !! k).

Lemma watchers_db s d db k : s_db s !! d = Some db -> watchers s d k = default [] (db_watched db !! k).
Proof. intros H. unfold watchers. by rewrite H. Qed.

Lemma update_watch (c : client_id) (s : server) (cl : rclient) (d : nat) (k : bytes) (g : gmap bytes (list client_id) -> gmap bytes (list client_id)) (wl : list (nat * bytes)) :
  server_inv s -> s_clients s !! c = Some cl -> in_range s d ->
  (forall m k', k' <> k -> g m !! k' = m !! k') ->
  (forall db, s_db s !! d = Some db ->
     NoDup (default [] (g (db_watched db) !! k)) /\
     forall w, w ∈ default [] (g (db_watched db) !! k) <->
       if decide (w = c) then (d, k) ∈ wl else w ∈ default [] (db_watched db !! k)) ->
  NoDup wl -> (forall d' k', (d', k') <> (d, k) -> (d', k') ∈ wl <-> (d', k') ∈ c_watched cl) ->
  let s' := set_clients (alter (set_c_watched wl) c (s_clients s)) (set_dbs (alter (set_watched g) d (s_db s)) s) in
  tx c s s' /\ s_clients s' !! c = Some (set_c_watched wl cl).
Proof.
  intros Hi Hc Hd Hg Hk Hnd Hwl s'. destruct (in_range_lookup _ _ Hd) as [db0 Hdb0].
  destruct (Hk _ Hdb0) as [Hndk Hink].
  assert (forall d' db', s_db s' !! d' = Some db' -> exists db, s_db s !! d' = Some db /\
    db' = if decide (d' = d) then set_watched g db else db) as Hback.
  { intros d' db'. simpl. destruct (decide (d' = d)) as [->|Hne].
    - rewrite list_lookup_alter_eq, Hdb0. simpl. intros [= <-]. by eexists.
    - rewrite list_lookup_alter_ne by done. by eexists. }
  assert (forall d', is_Some (s_db s !! d') -> in_range s d') as Hran by (intros d'; apply lookup_lt_is_Some_1).
  assert (s_clients s' !! c = Some (set_c_watched wl cl)) as Hc' by (simpl; by rewrite lookup_alter_eq, Hc).
  assert (forall w, w <> c -> s_clients s' !! w = s_clients s !! w) as Hoth.
  { intros w Hne. simpl. by rewrite lookup_alter_ne. }
  assert (forall w d' k', watches s' w d' k' <->
    if decide (w = c) then (d', k') ∈ wl else watches s w d' k') as Hws.
  { intros w d' k'. unfold watches. destruct (decide (w = c)) as [->|Hne].
    - rewrite Hc'. split; [by intros (? & [= <-] & ?)|]. intros ?. by eexists.
    - by rewrite Hoth. }
  assert (data s' = data s) as Hdata.
  { unfold data. apply list_eq. intros i. simpl. rewrite !list_lookup_fmap.
    destruct (decide (i = d)) as [->|Hne]; [|by rewrite list_lookup_alter_ne].
    by rewrite list_lookup_alter_eq, Hdb0. }
  split; [|done]. constructor; try done.
  constructor.
  - intros d' db' k' Hd'. destruct (Hback _ _ Hd') as (db & Hdb & ->).
    pose proof (inv_expires _ Hi _ _ k' Hdb). by destruct (decide (d' = d)).
  - intros d' k' o. rewrite (data_value _ _ _ _ Hdata). apply (inv_sizes _ Hi).
  - intros d' db' k' w Hd'. destruct (Hback _ _ Hd') as (db & Hdb & ->). rewrite Hws.
    destruct (decide (d' = d)) as [->|Hne].
    + rewrite Hdb0 in Hdb. simplify_eq. simpl. destruct (decide (k' = k)) as [->|Hkk].
      * rewrite Hink. destruct (decide (w = c)); [done|]. by apply (inv_watch _ Hi).
      * rewrite Hg by done. rewrite (inv_watch _ Hi d db _ _ Hdb0). destruct (decide (w = c)) as [->|]; [|done].
        rewrite Hwl by congruence. unfold watches. rewrite Hc.
        split; [by intros (? & [= <-] & ?)|]. intros ?. by eexists.
    + rewrite (inv_watch _ Hi d' db _ _ Hdb). destruct (decide (w = c)) as [->|]; [|done].
      rewrite Hwl by congruence. unfold watches. rewrite Hc.
      split; [by intros (? & [= <-] & ?)|]. intros ?. by eexists.
  - intros d' db' k' Hd'. destruct (Hback _ _ Hd') as (db & Hdb & ->).
    destruct (decide (d' = d)) as [->|Hne]; [|by apply (inv_watch_nodup _ Hi d')].
    rewrite Hdb0 in Hdb. simplify_eq. simpl. destruct (decide (k' = k)) as [->|Hkk]; [done|].
    rewrite Hg by done. by apply (inv_watch_nodup _ Hi d).
  - intros w cl' Hw. destruct (decide (w = c)) as [->|Hne]; [by simplify_eq|].
    rewrite Hoth in Hw by done. by apply (inv_watched_nodup _ Hi w).
  - intros w cl' Hw. simpl. rewrite length_alter. destruct (decide (w = c)) as [->|Hne].
    + rewrite Hc' in Hw. simplify_eq. simpl. by apply (inv_db_range _ Hi c).
    + rewrite Hoth in Hw by done. by apply (inv_db_range _ Hi w).
  - intros w d' k' Hw. simpl. rewrite length_alter. apply Hws in Hw.
    destruct (decide (w = c)) as [->|Hne]; [|by apply (inv_watched_range _ Hi _ _ _ Hw)].
    destruct (decide ((d', k') = (d, k))) as [[= -> ->]|Hne]; [done|].
    apply (inv_watched_range _ Hi c d' k'). exists cl. split; [done|]. by apply Hwl.
Qed.

(** *** UNWATCH and WATCH *)

Lemma delete_found (c : client_id) (l : list client_id) :
  NoDup l -> c ∈ l ->
  exists i, list_find (fun w => w = c) l = Some (i, c) /\ NoDup (delete i l) /\ forall w, w ∈ delete i l <-> w ∈ l /\ w <> c.
Proof.
  intros Hnd Hin. destruct (list_find_elem_of (fun w => w = c) l c Hin eq_refl) as [[i x] Hf].
  pose proof Hf as (Hi & -> & _)%list_find_Some. exists i. split; [done|]. apply delete_Permutation in Hi as Hp. clear Hf.
  generalize dependent (delete i l). intros l' Hp.
  rewrite Hp in Hnd. apply NoDup_cons in Hnd as [Hnotin Hnd]. split; [done|].
  intros w. rewrite Hp, elem_of_cons. split; [|by intros [[->|]]].
  intros Hw. split; [by right|]. by intros ->.
Qed.

Lemma unwatch_step_wp c cl d k keys s Q :
  server_inv s -> s_clients s !! c = Some cl -> c_watched cl = (d, k) :: keys ->
  (forall s', tx c s s' -> s_clients s' !! c = Some (set_c_watched keys cl) -> Q tt s') ->
  wp (unwatch_one c d k) (fun _ => wp (on_client c (set_c_watched keys)) Q) s.
Proof.
  intros Hi Hc Hw HQ.
  assert (watches s c d k) as Hwatch by (exists cl; split; [done|]; rewrite Hw; by left).
  pose proof (inv_watched_range _ Hi _ _ _ Hwatch) as Hd. destruct (in_range_lookup _ _ Hd) as [db Hdb].
  pose proof (proj2 (inv_watch _ Hi d db k c Hdb) Hwatch) as Hin.
  destruct (db_watched db !! k) as [ws|] eqn:Hws; [|by apply not_elem_of_nil in Hin]. simpl in Hin.
  pose proof (inv_watch_nodup _ Hi d db k Hdb) as Hnd. rewrite Hws in Hnd. simpl in Hnd.
  pose proof (inv_watched_nodup _ Hi c cl Hc) as Hndw. rewrite Hw in Hndw. apply NoDup_cons in Hndw as [Hnotin Hndw].
  destruct (delete_found c ws Hnd Hin) as (i & Hfind & Hnd' & Hin').
  unfold unwatch_one. apply wp_bind, (wp_database _ db); [done|]. apply wp_bind. eapply wp_lift; [done|].
  apply wp_bind. eapply wp_lift; [exact Hfind|]. cbv zeta. set (ws' := delete i ws) in *.
  set (g := fun m : gmap bytes (list client_id) => match ws' with [] => delete k m | _ => <[k := ws']> m end).
  assert (forall m, default [] (g m !! k) = ws') as Hgk.
  { intros m. unfold g. destruct ws'; [by rewrite lookup_delete_eq|by rewrite lookup_insert_eq]. }
  destruct (update_watch c s cl d k g keys Hi Hc Hd) as [Htx Hcl]; [| |done| |by apply HQ].
  - intros m k' Hne. unfold g. destruct ws'; [by rewrite lookup_delete_ne|by rewrite lookup_insert_ne].
  - intros db' Hdb'. simplify_eq. rewrite Hgk, Hws. split; [done|]. intros w. simpl. rewrite Hin'.
    destruct (decide (w = c)) as [->|Hne]; [|by split; [intros []|]]. split; [by intros [_ []]|done].
  - intros d' k' Hne. rewrite Hw, elem_of_cons. split; [by right|]. by intros [|].
Qed.

Lemma unwatch_loop_wp c keys cl s Q :
  server_inv s -> s_clients s !! c = Some cl -> c_watched cl = keys ->
  (forall s', tx c s s' -> s_clients s' !! c = Some (set_c_watched [] cl) -> Q tt s') ->
  wp (unwatch_loop c keys) Q s.
Proof.
  revert cl s. induction keys as [|[d k] keys IH]; intros cl s Hi Hc Hw HQ; simpl.
  - apply wp_ret, HQ; [apply tx_refl; [done|by eexists]|]. rewrite Hc. destruct cl. simpl in *. by subst.
  - apply wp_bind. eapply wp_mono; [by eapply (unwatch_step_wp c cl d k keys s
      (fun _ s1 => tx c s s1 /\ s_clients s1 !! c = Some (set_c_watched keys cl)))|].
    intros [] s1 Hs1. apply wp_bind. eapply wp_mono; [exact Hs1|]. intros [] s2 [Htx Hc2].
    eapply IH; [apply Htx|exact Hc2|done|]. intros s3 Htx3 Hc3. apply HQ; [by eapply tx_trans|].
    by destruct cl.
Qed.

Lemma unwatchAllKeys_wp c cl s Q :
  server_inv s -> s_clients s !! c = Some cl ->
  (forall s', tx c s s' -> s_clients s' !! c = Some (set_c_watched [] cl) -> Q tt s') ->
  wp (unwatchAllKeys c) Q s.
Proof.
  intros Hi Hc HQ. unfold unwatchAllKeys. apply wp_bind. eapply wp_client; [done|]. by eapply unwatch_loop_wp.
Qed.

Lemma watchForKey_wp c cl k s Q :
  server_inv s -> s_clients s !! c = Some cl ->
  (forall s' wl, tx c s s' -> s_clients s' !! c = Some (set_c_watched wl cl) ->
     (forall d' k', (d', k') ∈ wl <-> (d', k') ∈ c_watched cl \/ (d', k') = (c_db cl, k)) -> Q tt s') ->
  wp (watchForKey c k) Q s.
Proof.
  intros Hi Hc HQ. unfold watchForKey. apply wp_bind. eapply wp_client; [done|].
  destruct (bool_decide_reflect ((c_db cl, k) ∈ c_watched cl)) as [Hin|Hin].
  - apply wp_ret. apply (HQ _ (c_watched cl)); [apply tx_refl; [done|by eexists]|rewrite Hc; by destruct cl|].
    intros d' k'. split; [by left|]. by intros [|[= -> ->]].
  - pose proof (inv_db_range _ Hi _ _ Hc) as Hd. destruct (in_range_lookup _ _ Hd) as [db Hdb].
    assert (c ∉ default [] (db_watched db !! k)) as Hnotin.
    { rewrite (inv_watch _ Hi _ _ _ _ Hdb). intros (? & ? & ?). by simplify_eq. }
    set (g := fun m : gmap bytes (list client_id) => <[k := default [] (m !! k) ++ [c]]> m).
    destruct (update_watch c s cl (c_db cl) k g (c_watched cl ++ [(c_db cl, k)]) Hi Hc Hd) as [Htx Hcl].
    + intros m k' Hne. by apply lookup_insert_ne.
    + intros db' Hdb'. simplify_eq. unfold g. rewrite lookup_insert_eq. simpl. split.
      * apply NoDup_app. split_and!; [by apply (inv_watch_nodup _ Hi _ _ _ Hdb)| |apply NoDup_singleton].
        intros w Hw ->%list_elem_of_singleton. done.
      * intros w. rewrite elem_of_app, list_elem_of_singleton. destruct (decide (w = c)) as [->|Hne].
        -- rewrite elem_of_app, list_elem_of_singleton. split; [by right|by right].
        -- split; [by intros [|]|by left].
    + apply NoDup_app. split_and!; [by apply (inv_watched_nodup _ Hi _ _ Hc)| |apply NoDup_singleton].
      intros x Hx ->%list_elem_of_singleton. done.
    + intros d' k' Hne. rewrite elem_of_app, list_elem_of_singleton. split; [by intros [|]|by left].
    + assert (alter (fun cl => set_c_watched (c_watched cl ++ [(c_db cl, k)]) cl) c (s_clients s) =
              alter (set_c_watched (c_watched cl ++ [(c_db cl, k)])) c (s_clients s)) as Heq.
      { apply alter_ext. intros x Hx. by simplify_eq. }
      apply wp_bind. unfold wp, on_db, on_client, modify. simpl. rewrite Heq.
      apply (HQ _ (c_watched cl ++ [(c_db cl, k)])); [done|done|].
      intros d' k'. by rewrite elem_of_app, list_elem_of_singleton.
Qed.

Lemma watch_loop_wp c keys cl s Q :
  server_inv s -> s_clients s !! c = Some cl ->
  (forall s' wl, tx c s s' -> s_clients s' !! c = Some (set_c_watched wl cl) ->
     (forall d k, (d, k) ∈ wl <-> (d, k) ∈ c_watched cl \/ d = c_db cl /\ k ∈ keys) -> Q tt s') ->
  wp (watch_loop c keys) Q s.
Proof.
  revert cl s. induction keys as [|k keys IH]; intros cl s Hi Hc HQ; simpl.
  - apply wp_ret, (HQ _ (c_watched cl)); [apply tx_refl; [done|by eexists]|rewrite Hc; by destruct cl|].
    intros d k. split; [by left|]. by intros [|[_ ?%not_elem_of_nil]].
  - apply wp_bind. eapply watchForKey_wp; [done|done|]. intros s1 wl Htx1 Hc1 Hwl.
    eapply IH; [apply Htx1|exact Hc1|]. intros s2 wl2 Htx2 Hc2 Hwl2.
    apply (HQ _ wl2); [by eapply tx_trans|by destruct cl|].
    intros d' k'. rewrite Hwl2. simpl. rewrite Hwl, elem_of_cons.
    split; [intros [[|[= -> ->]]|[-> ?]]; auto|]. intros [|[-> [->|]]]; auto.
Qed.

(** After DISCARD (and at the end of EXEC) the client is out of the
    transaction and watches nothing. *)
Definition no_transaction (cl : rclient) : rclient :=
  set_c_watched [] (flag_clear (Z.lor REDIS_MULTI (Z.lor REDIS_DIRTY_CAS REDIS_DIRTY_EXEC)) (set_c_mstate [] cl)).

Lemma discardTransaction_txwp c cl s Q :
  server_inv s -> s_clients s !! c = Some cl ->
  (forall s', tx c s s' -> s_clients s' !! c = Some (no_transaction cl) -> Q tt s') ->
  wp (discardTransaction c) Q s.
Proof.
  intros Hi Hc HQ. pose proof (inv_db_range _ Hi _ _ Hc) as Hd. unfold discardTransaction. apply wp_bind.
  eapply on_client_txwp; [done|done|done|done|]. intros s1 Htx1 Hc1. apply wp_bind.
  eapply on_client_txwp; [apply Htx1|exact Hc1|done| |].
  { unfold in_range. simpl. by rewrite (tx_length _ _ _ Htx1). }
  intros s2 Htx2 Hc2. eapply unwatchAllKeys_wp; [apply Htx2|exact Hc2|]. intros s3 Htx3 Hc3.
  apply HQ; [|done]. eapply tx_trans; [done|]. by eapply tx_trans.
Qed.
