(* ===== verification/TransactionLogic.v ===== *)
(** * Transactions and dispatch: the effects

    The relation between the states around any command of any client, EXEC
    included, and the theorems about the whole server: it survives every
    command, accounts for every change of the data, and aborts a transaction
    when a watched key has changed. *)
From Stdlib Require Import String.
#[local] Set Warnings "-clear-no-such-hyp".
From S2P Require Import Prelude ClientFlags Util Sds SdsArgs Server StringCommands Transactions ServerLogic StringEffects.
From S2P Require Import KeyEffects WatchLogic.

(** ** What is asked of the arguments *)

Definition arity_ok (cmd : command) (av : list bytes) : Prop :=
  ~ ((arity cmd > 0 /\ arity cmd <> zlen av) \/ zlen av < - arity cmd).

Definition number (x : bytes) : option Z := mjoin (getLongLongFromObject (Some (Raw x))).

(** GETRANGE and SETRANGE are not safe for every argument: an end from 2^32 on
    escapes the test against the length, and the sum of offset and length may
    overflow. *)
Definition safe_args (cmd : command) (av : list bytes) : Prop :=
  match cmd, av with
  | CmdGetrange, [_; _; _; y] => forall e, number y = Some e -> e < 2 ^ 32
  | CmdSetrange, [_; _; off; v] => forall o, number off = Some o -> o + zlen v < 2 ^ 63
  | _, _ => True
  end.

Definition good_call (cmd : command) (av : list bytes) : Prop :=
  arity_ok cmd av /\ Forall arg_ok av /\ safe_args cmd av.

Definition queueable (cmd : command) : Prop := cmd ∉ [CmdExec; CmdDiscard; CmdMulti; CmdWatch].

Section Allowed.
(** The commands that may be queued or run. *)
Context (allowed : command -> Prop).

Definition queue_ok (q : list (command * list bytes)) : Prop :=
  Forall (fun e => queueable e.1 /\ allowed e.1 /\ good_call e.1 e.2) q.

Definition queues_ok (s : server) : Prop :=
  forall w cl, s_clients s !! w = Some cl -> queue_ok (c_mstate cl).

(** The state between two commands. *)
Record server_ok (s : server) : Prop := {
  ok_inv : server_inv s;
  ok_queues : queues_ok s;
}.

(** FLUSHALL keeps [server.dirty] in an [int] on a server with save points, so
    that the counter is exact only without it. *)
Definition exact_dirty (s : server) : Prop := saveparamslen (s_conf s) <= 0 \/ ~ allowed CmdFlushall.

(** ** The relation *)

(** What [w] watches is unchanged, or [w] is marked, or the key has expired. *)
Record keep (w : client_id) (s s' : server) : Prop := {
  keep_client : match s_clients s !! w, s_clients s' !! w with
                | Some cl, Some cl' => c_watched cl ⊆ c_watched cl' /\
                                       (flag_on REDIS_DIRTY_CAS cl = true -> flag_on REDIS_DIRTY_CAS cl' = true)
                | None, None => True | _, _ => False end;
  keep_value : forall d k, watches s w d k -> value s' d k = value s d k \/ marked s' w \/ expired s s' d k;
}.

Record evolves (K : client_id -> Prop) (s s' : server) : Prop := {
  ev_inv : server_inv s';
  ev_clients : forall w, is_Some (s_clients s !! w) -> is_Some (s_clients s' !! w);
  ev_queues : queues_ok s -> queues_ok s';
  ev_conf : s_conf s' = s_conf s;
  ev_events : s_events s `prefix_of` s_events s';
  ev_propagated : s_propagated s `prefix_of` s_propagated s';
  ev_dirty : exact_dirty s -> s_dirty s <= s_dirty s';
  ev_account : exact_dirty s -> data s' = data s \/ paid s s';
  ev_keep : forall w, K w -> keep w s s';
}.

Lemma keep_watches w s s' d k : keep w s s' -> watches s w d k -> watches s' w d k.
Proof.
  intros [Hc _] (cl & Hcl & Hin). rewrite Hcl in Hc. destruct (s_clients s' !! w) as [cl'|] eqn:Hcl'; [|done].
  exists cl'. split; [done|]. by apply Hc.
Qed.

Lemma keep_marked w s s' : keep w s s' -> marked s w -> marked s' w.
Proof.
  intros [Hc _] (cl & Hcl & Hm). rewrite Hcl in Hc. destruct (s_clients s' !! w) as [cl'|] eqn:Hcl'; [|done].
  exists cl'. split; [done|]. by apply Hc.
Qed.

Lemma expired_before s1 s2 s3 d k : s_events s1 `prefix_of` s_events s2 -> expired s2 s3 d k -> expired s1 s3 d k.
Proof.
  intros [l0 Hl0] (l & Hl & Hin). exists (l0 ++ l). split; [by rewrite Hl, Hl0, app_assoc|].
  apply elem_of_app. by right.
Qed.

Lemma expired_after s1 s2 s3 d k : s_events s2 `prefix_of` s_events s3 -> expired s1 s2 d k -> expired s1 s3 d k.
Proof.
  intros [l0 Hl0] (l & Hl & Hin). exists (l ++ l0). split; [by rewrite Hl0, Hl, app_assoc|].
  apply elem_of_app. by left.
Qed.

Lemma keep_trans w s1 s2 s3 :
  s_events s1 `prefix_of` s_events s2 -> s_events s2 `prefix_of` s_events s3 ->
  keep w s1 s2 -> keep w s2 s3 -> keep w s1 s3.
Proof.
  intros He1 He2 H1 H2. split.
  - pose proof (keep_client _ _ _ H1) as Hc1. pose proof (keep_client _ _ _ H2) as Hc2.
    destruct (s_clients s1 !! w), (s_clients s2 !! w), (s_clients s3 !! w); try done.
    destruct Hc1, Hc2. split; [by etrans|auto].
  - intros d k Hw. destruct (keep_value _ _ _ H2 d k) as [Hv|[Hm|He]]; [by eapply keep_watches| | |].
    + destruct (keep_value _ _ _ H1 d k Hw) as [Hv1|[Hm|He]].
      * left. congruence.
      * right; left. by eapply keep_marked.
      * right; right. by eapply expired_after.
    + auto.
    + right; right. by eapply expired_before.
Qed.

Lemma paid_trans_l s1 s2 s3 :
  s_dirty s2 <= s_dirty s3 -> s_propagated s1 `prefix_of` s_propagated s2 ->
  s_propagated s2 `prefix_of` s_propagated s3 -> paid s1 s2 -> paid s1 s3.
Proof.
  intros Hd H1 H2 [Hp|Hp]; [left; lia|right]. intros Heq. apply Hp, (anti_symm prefix); [done|]. by rewrite Heq.
Qed.

Lemma paid_trans_r s1 s2 s3 :
  s_dirty s1 <= s_dirty s2 -> s_propagated s1 `prefix_of` s_propagated s2 ->
  s_propagated s2 `prefix_of` s_propagated s3 -> paid s2 s3 -> paid s1 s3.
Proof.
  intros Hd H1 H2 [Hp|Hp]; [left; lia|right]. intros Heq. apply Hp, (anti_symm prefix); [done|]. by rewrite <- Heq.
Qed.

Lemma evolves_exact K s s' : evolves K s s' -> exact_dirty s -> exact_dirty s'.
Proof. intros He. unfold exact_dirty. by rewrite (ev_conf _ _ _ He). Qed.

Lemma evolves_trans K s1 s2 s3 : evolves K s1 s2 -> evolves K s2 s3 -> evolves K s1 s3.
Proof.
  intros H1 H2. constructor.
  - apply H2.
  - intros w Hw. by apply (ev_clients _ _ _ H2), (ev_clients _ _ _ H1).
  - intros Hq. by apply (ev_queues _ _ _ H2), (ev_queues _ _ _ H1).
  - by rewrite (ev_conf _ _ _ H2), (ev_conf _ _ _ H1).
  - etrans; [apply (ev_events _ _ _ H1)|apply (ev_events _ _ _ H2)].
  - etrans; [apply (ev_propagated _ _ _ H1)|apply (ev_propagated _ _ _ H2)].
  - intros Hx. pose proof (evolves_exact _ _ _ H1 Hx) as Hx2. etrans; [by apply (ev_dirty _ _ _ H1)|by apply (ev_dirty _ _ _ H2)].
  - intros Hx. pose proof (evolves_exact _ _ _ H1 Hx) as Hx2.
    pose proof (paid_trans_l _ _ _ (ev_dirty _ _ _ H2 Hx2) (ev_propagated _ _ _ H1) (ev_propagated _ _ _ H2)).
    pose proof (paid_trans_r _ _ _ (ev_dirty _ _ _ H1 Hx) (ev_propagated _ _ _ H1) (ev_propagated _ _ _ H2)).
    destruct (ev_account _ _ _ H1 Hx), (ev_account _ _ _ H2 Hx2); auto. left. congruence.
  - intros w Hw. eapply keep_trans; [apply H1|apply H2|by apply H1|by apply H2].
Qed.

Lemma evolves_weaken (K K' : client_id -> Prop) s s' :
  (forall w, K' w -> K w) -> evolves K s s' -> evolves K' s s'.
Proof. intros HK []. constructor; auto. Qed.

Lemma evolves_refl K s : server_inv s -> evolves K s s.
Proof.
  intros Hi. constructor; try done; [by intros _; left|]. intros w _. split; [|auto]. by destruct (s_clients s !! w).
Qed.

(** From the effect of a command. *)
Lemma eff_evolves a s s' : server_inv s' -> eff ∅ a s s' -> (exact_dirty s -> data s' = data s \/ paid s s') -> evolves (fun _ => True) s s'.
Proof.
  intros Hi He Ha. constructor; try done; try apply He.
  - intros w [cl Hcl]. pose proof (eff_clients _ _ _ _ He w) as Hw. rewrite Hcl in Hw.
    destruct (s_clients s' !! w); [by eexists|done].
  - intros Hq w cl' Hcl'. pose proof (eff_clients _ _ _ _ He w) as Hw. rewrite Hcl' in Hw.
    destruct (s_clients s !! w) as [cl|] eqn:Hcl; [|done]. destruct Hw as (_ & -> & _). by eapply Hq.
  - intros _. apply He.
  - intros w _. split.
    + pose proof (eff_clients _ _ _ _ He w) as Hw.
      destruct (s_clients s !! w), (s_clients s' !! w); try done. destruct Hw as (-> & _ & ?). done.
    + intros d k Hwk. destruct (eff_value _ _ _ _ He d k) as [|[|[Hm|]]]; auto; [set_solver|].
      right; left. by apply Hm, (eff_watches _ _ _ _ _ _ _ He).
Qed.

Lemma eff_evolves_move D s s' : server_inv s' -> eff D Settled s s' -> evolves (fun _ => False) s s'.
Proof.
  intros Hi He. constructor; try done; try apply He.
  - intros w [cl Hcl]. pose proof (eff_clients _ _ _ _ He w) as Hw. rewrite Hcl in Hw.
    destruct (s_clients s' !! w); [by eexists|done].
  - intros Hq w cl' Hcl'. pose proof (eff_clients _ _ _ _ He w) as Hw. rewrite Hcl' in Hw.
    destruct (s_clients s !! w) as [cl|] eqn:Hcl; [|done]. destruct Hw as (_ & -> & _). by eapply Hq.
  - intros _. apply He.
  - intros _. apply He.
Qed.

(** From a change of the transaction state of [c]. *)
Lemma tx_evolves c s s' :
  tx c s s' -> (forall cl cl', s_clients s !! c = Some cl -> s_clients s' !! c = Some cl' ->
                 queue_ok (c_mstate cl) -> queue_ok (c_mstate cl')) ->
  is_Some (s_clients s !! c) -> evolves (fun w => w <> c) s s'.
Proof.
  intros Ht Hq [cl Hcl]. destruct (tx_client _ _ _ Ht) as [cl' Hcl'].
  constructor; rewrite ?(tx_conf _ _ _ Ht), ?(tx_events _ _ _ Ht), ?(tx_propagated _ _ _ Ht),
    ?(tx_dirty _ _ _ Ht); try done.
  - apply Ht.
  - intros w Hw. destruct (decide (w = c)) as [->|Hne]; [by eexists|]. by rewrite (tx_others _ _ _ Ht).
  - intros Hqs w x Hx. destruct (decide (w = c)) as [->|Hne].
    + simplify_eq. eapply Hq; [done|done|]. by eapply Hqs.
    + rewrite (tx_others _ _ _ Ht) in Hx by done. by eapply Hqs.
  - intros _. left. apply Ht.
  - intros w Hne. split.
    + rewrite (tx_others _ _ _ Ht) by done. by destruct (s_clients s !! w).
    + intros d k _. left. by eapply tx_value.
Qed.

Lemma tx_evolves_own c s s' cl cl' :
  tx c s s' -> s_clients s !! c = Some cl -> s_clients s' !! c = Some cl' ->
  (queue_ok (c_mstate cl) -> queue_ok (c_mstate cl')) -> c_watched cl ⊆ c_watched cl' ->
  (flag_on REDIS_DIRTY_CAS cl = true -> flag_on REDIS_DIRTY_CAS cl' = true) ->
  evolves (fun _ => True) s s'.
Proof.
  intros Ht Hcl Hcl' Hq Hw Hf.
  assert (evolves (fun w => w <> c) s s') as He.
  { apply tx_evolves; [done|intros; by simplify_eq; auto|by eexists]. }
  constructor; try apply He. intros w _. destruct (decide (w = c)) as [->|Hne]; [|by apply He].
  split; [by rewrite Hcl, Hcl'|]. intros d k _. left. by eapply tx_value.
Qed.

(** A change of the records and counters only. *)
Lemma log_evolves K s s' :
  server_inv s -> log_only s s' -> s_conf s' = s_conf s -> s_events s `prefix_of` s_events s' ->
  s_propagated s `prefix_of` s_propagated s' -> (exact_dirty s -> s_dirty s <= s_dirty s') -> evolves K s s'.
Proof.
  intros Hi Hl ????. pose proof Hl as [Hdb Hcl].
  assert (forall d k, value s' d k = value s d k) as Hv by (intros; unfold value; by rewrite Hdb).
  constructor; rewrite ?Hcl; try done.
  - eapply inv_same_db; [done|done|]. intros w. rewrite Hcl. by apply range_self.
  - intros Hq w cl. rewrite Hcl. apply Hq.
  - intros _. left. unfold data. by rewrite Hdb.
  - intros w _. split; [|intros; left; apply Hv]. rewrite Hcl. by destruct (s_clients s !! w).
Qed.

(** ** The commands *)

Section Dispatch.
Context (clock : nat -> Z).

Definition is_tx (cmd : command) : bool :=
  bool_decide (cmd ∈ [CmdMulti; CmdExec; CmdDiscard; CmdWatch; CmdUnwatch]).

(** The lemma of the command at hand. *)
Ltac command_lemma :=
  lazymatch goal with
  | |- wp (getCommand _ _) _ _ => eapply getCommand_wp
  | |- wp (setCommand _ _) _ _ => eapply setCommand_wp
  | |- wp (setnxCommand _ _) _ _ => eapply setnxCommand_wp
  | |- wp (setexCommand _ _) _ _ => eapply setexCommand_wp
  | |- wp (psetexCommand _ _) _ _ => eapply psetexCommand_wp
  | |- wp (appendCommand _ _) _ _ => eapply appendCommand_wp
  | |- wp (strlenCommand _ _) _ _ => eapply strlenCommand_wp
  | |- wp (setrangeCommand _ _) _ _ => eapply setrangeCommand_wp
  | |- wp (getrangeCommand _ _) _ _ => eapply getrangeCommand_wp
  | |- wp (incrCommand _ _) _ _ => eapply incrDecrCommand_wp
  | |- wp (decrCommand _ _) _ _ => eapply incrDecrCommand_wp
  | |- wp (incrbyCommand _ _) _ _ =>
      eapply (fun a0 k x av cd D a s H Ha => proj1 (incrby_wp _ _ _ true a0 k x av cd D a s H Ha))
  | |- wp (decrbyCommand _ _) _ _ =>
      eapply (fun a0 k x av cd D a s H Ha => proj2 (incrby_wp _ _ _ true a0 k x av cd D a s H Ha))
  | |- wp (getsetCommand _ _) _ _ => eapply getsetCommand_wp
  | |- wp (mgetCommand _ _) _ _ => eapply mgetCommand_wp
  | |- wp (msetCommand _ _) _ _ => eapply msetGenericCommand_wp
  | |- wp (msetnxCommand _ _) _ _ => eapply msetGenericCommand_wp
  | |- wp (delCommand _) _ _ => eapply delCommand_wp
  | |- wp (existsCommand _ _) _ _ => eapply existsCommand_wp
  | |- wp (selectCommand _) _ _ => eapply selectCommand_wp
  | |- wp (renameCommand _ _) _ _ => eapply renameGenericCommand_wp
  | |- wp (renamenxCommand _ _) _ _ => eapply renameGenericCommand_wp
  | |- wp (expireCommand _ _) _ _ =>
      eapply (fun a0 k x av cd D a s H Ha => proj1 (expires_commands_wp _ _ _ a0 k x av cd D a s H Ha))
  | |- wp (pexpireCommand _ _) _ _ =>
      eapply (fun a0 k x av cd D a s H Ha => proj1 (proj2 (expires_commands_wp _ _ _ a0 k x av cd D a s H Ha)))
  | |- wp (expireatCommand _ _) _ _ =>
      eapply (fun a0 k x av cd D a s H Ha => proj1 (proj2 (proj2 (expires_commands_wp _ _ _ a0 k x av cd D a s H Ha))))
  | |- wp (pexpireatCommand _ _) _ _ =>
      eapply (fun a0 k x av cd D a s H Ha => proj2 (proj2 (proj2 (expires_commands_wp _ _ _ a0 k x av cd D a s H Ha))))
  | |- wp (ttlCommand _ _) _ _ => eapply ttlGenericCommand_wp
  | |- wp (pttlCommand _ _) _ _ => eapply ttlGenericCommand_wp
  | |- wp (persistCommand _) _ _ => eapply persistCommand_wp
  | |- wp (dbsizeCommand _) _ _ => eapply dbsizeCommand_wp
  | |- wp (typeCommand _ _) _ _ => eapply typeCommand_wp
  | |- wp (flushdbCommand _) _ _ => eapply flushdbCommand_wp
  end.

(** A command outside the transaction commands, MOVE apart. *)
Lemma plain_wp cmd s0 c cd av s :
  is_tx cmd = false -> cmd <> CmdMove -> cmd <> CmdFlushall -> good_call cmd av ->
  st s0 c cd av ∅ Settled s -> wp (proc clock cmd c) (fun _ => finished s0 c ∅) s.
Proof.
  intros Htx Hmv Hfl (Har & Hav & Hsafe) Hs. unfold arity_ok in Har. unfold safe_args, number in Hsafe.
  destruct cmd; try discriminate Htx; clear Htx; try (exfalso; apply Hmv; reflexivity); try (exfalso; apply Hfl; reflexivity); clear Hmv Hfl;
    cbn [proc arity] in *;
    destruct av as [|a0 [|a1 [|a2 [|a3 av]]]]; try (exfalso; clear -Har; simpl in Har; lia);
    try (destruct av as [|? ?]; [|exfalso; clear -Har; simpl in Har; lia]);
    rewrite ?Forall_cons in Hav; command_lemma;
    try match goal with |- st _ _ _ _ _ _ _ => exact Hs | |- _ <> Pending => discriminate end.
  all: try match goal with
    | |- client_id -> Z => exact clock
    | |- (3 <= _)%nat => simpl; lia
    | |- zlen _ <= _ => decompose [and] Hav; assumption
    | |- Forall arg_ok _ => rewrite !Forall_cons; exact Hav
    | |- forall _, getLongLongFromObject _ = _ -> _ => intros ? He; apply Hsafe; by rewrite He
    end.
Qed.

(** FLUSHALL, whose last steps only set the counter. *)
Lemma flushall_evolves c cl s : allowed CmdFlushall -> server_ok s -> s_clients s !! c = Some cl ->
  wp (flushallCommand c) (fun _ s' => evolves (fun _ => True) s s') s.
Proof.
  intros Hal [Hi Hq] Hcl. pose proof (st_init s c cl Hi Hcl) as Hs.
  destruct (decide (saveparamslen (s_conf s) <= 0)) as [Hsave|Hsave].
  - eapply wp_mono; [by eapply flushallCommand_wp|]. intros _ s' (cd' & av' & Hs'). eapply eff_evolves; [apply Hs'..|].
    intros _. apply Hs'.
  - assert (exact_dirty s -> False) as Hx by (by intros [|Hn]; [|apply Hn]).
    eapply wp_mono; [by eapply flushallCommand_counts|]. intros _ s' (cd' & av' & a & s1 & n & Hs1 & ->).
    assert (evolves (fun _ => True) s s1) as He by (eapply eff_evolves; [apply Hs1..|by intros ?%Hx]).
    eapply evolves_trans; [exact He|]. apply log_evolves; try done; [apply Hs1|]. intros Hx1. exfalso. apply Hx. unfold exact_dirty in *.
    by rewrite <- (ev_conf _ _ _ He).
Qed.

Lemma proc_evolves cmd c cl s :
  is_tx cmd = false -> allowed cmd -> good_call cmd (c_argv cl) -> server_ok s -> s_clients s !! c = Some cl ->
  wp (proc clock cmd c) (fun _ s' => evolves (fun _ => cmd <> CmdMove) s s') s.
Proof.
  intros Htx Hal Hg [Hi Hq] Hcl. pose proof (st_init s c cl Hi Hcl) as Hs.
  destruct (decide (cmd = CmdMove)) as [->|Hmv]; [|destruct (decide (cmd = CmdFlushall)) as [->|Hfl]].
  - destruct Hg as (Har & _). unfold arity_ok in Har. cbn [proc arity] in *.
    destruct (c_argv cl) as [|a0 [|a1 [|a2 av]]]; try (exfalso; clear -Har; simpl in Har; lia).
    eapply wp_mono; [eapply moveCommand_wp; [exact Hs|discriminate]|].
    intros _ s' (d & cd' & av' & Hs'). eapply evolves_weaken; [|eapply eff_evolves_move; apply Hs'].
    intros w Hw. by destruct Hw.
  - eapply wp_mono; [by eapply flushall_evolves|]. intros [] s' He. by eapply evolves_weaken; [|exact He].
  - eapply wp_mono; [by eapply plain_wp|]. intros _ s' (cd' & av' & Hs').
    eapply evolves_weaken; [|eapply eff_evolves; [apply Hs'..|]]; [done|]. intros _. apply Hs'.
Qed.

End Dispatch.

(** ** The transaction commands *)

Lemma evolves_ok K s s' : server_ok s -> evolves K s s' -> server_ok s'.
Proof.
  intros [Hi Hq] He. split; [apply He|by apply (ev_queues _ _ _ He)].
Qed.

(** A change of [c] that leaves its watched keys and its mark alone. *)
Lemma on_client_evolves c (f : rclient -> rclient) cl s :
  server_ok s -> s_clients s !! c = Some cl -> c_watched (f cl) = c_watched cl -> c_db (f cl) = c_db cl ->
  (queue_ok (c_mstate cl) -> queue_ok (c_mstate (f cl))) ->
  wp (on_client c f) (fun _ s' => evolves (fun w => w <> c) s s' /\
    ((flag_on REDIS_DIRTY_CAS cl = true -> flag_on REDIS_DIRTY_CAS (f cl) = true) -> evolves (fun _ => True) s s') /\
    s_clients s' !! c = Some (f cl) /\ data s' = data s) s.
Proof.
  intros [Hi Hq] Hcl Hw Hd Hm. eapply on_client_txwp; [done|done|done| |].
  { rewrite Hd. by apply (inv_db_range _ Hi _ _ Hcl). }
  intros s' Htx Hcl'. split_and!; [| |done|by apply Htx].
  - eapply tx_evolves; [done| |by eexists]. intros x y Hx Hy. simplify_eq. auto.
  - intros Hf. eapply tx_evolves_own; [done..| |done]. by rewrite Hw.
Qed.

Lemma addReply_evolves c r cl s :
  server_ok s -> s_clients s !! c = Some cl ->
  wp (addReply c r) (fun _ s' => evolves (fun _ => True) s s' /\
    s_clients s' !! c = Some (set_c_reply (c_reply cl ++ [r]) cl) /\ data s' = data s) s.
Proof.
  intros Hok Hcl. eapply wp_mono; [by apply (on_client_evolves c _ cl)|]. intros _ s' (_ & He & Hc & Hd).
  split_and!; [by apply He|done|done].
Qed.

Lemma flag_on_other f g cl : Z.land f g = 0 -> flag_on f (flag_clear g cl) = flag_on f cl.
Proof.
  intros Hfg. unfold flag_on, flag_clear. simpl. apply bool_decide_ext. rewrite <- Z.land_assoc.
  assert (Z.land (Z.lnot g) f = f) as ->; [|done].
  apply Z.bits_inj'. intros i Hi. apply (f_equal (fun x => Z.testbit x i)) in Hfg.
  rewrite Z.land_spec, Z.bits_0 in Hfg. rewrite Z.land_spec, Z.lnot_spec by done.
  destruct (Z.testbit f i), (Z.testbit g i); done.
Qed.

Lemma multiCommand_evolves c cl s :
  server_ok s -> s_clients s !! c = Some cl ->
  wp (multiCommand c) (fun _ s' => evolves (fun _ => True) s s') s.
Proof.
  intros Hok Hcl. unfold multiCommand. apply wp_bind. eapply wp_client; [done|]. destruct (flag_on REDIS_MULTI cl).
  - eapply wp_mono; [by eapply addReply_evolves|]. by intros _ s' [? _].
  - apply wp_bind. eapply wp_mono; [by apply (on_client_evolves c _ cl)|]. intros _ s1 (_ & He & Hc1 & _).
    assert (evolves (fun _ => True) s s1) as He1 by (apply He; apply flag_on_set).
    eapply wp_mono; [eapply addReply_evolves; [by eapply evolves_ok|exact Hc1]|]. intros _ s' [He2 _].
    by eapply evolves_trans.
Qed.

Lemma unwatchAllKeys_evolves c cl s :
  server_ok s -> s_clients s !! c = Some cl ->
  wp (unwatchAllKeys c) (fun _ s' => evolves (fun w => w <> c) s s' /\
    s_clients s' !! c = Some (set_c_watched [] cl) /\ data s' = data s) s.
Proof.
  intros [Hi Hq] Hcl. eapply unwatchAllKeys_wp; [done|done|]. intros s' Htx Hcl'.
  split_and!; [|done|by apply Htx]. eapply tx_evolves; [done| |by eexists]. intros x y Hx Hy. by simplify_eq.
Qed.

Lemma unwatchCommand_evolves c cl s :
  server_ok s -> s_clients s !! c = Some cl ->
  wp (unwatchCommand c) (fun _ s' => evolves (fun w => w <> c) s s' /\ is_Some (s_clients s' !! c)) s.
Proof.
  intros Hok Hcl. unfold unwatchCommand. apply wp_bind.
  eapply wp_mono; [by eapply unwatchAllKeys_evolves|]. intros _ s1 (He1 & Hc1 & _).
  apply wp_bind. eapply wp_mono; [apply (on_client_evolves c _ _ s1 (evolves_ok _ _ _ Hok He1) Hc1); done|].
  intros _ s2 (He2 & _ & Hc2 & _). pose proof (evolves_trans _ _ _ _ He1 He2) as He.
  eapply wp_mono; [eapply addReply_evolves; [by eapply evolves_ok|exact Hc2]|]. intros _ s' (He3 & Hc3 & _).
  split; [|by eexists]. eapply evolves_trans; [done|]. eapply evolves_weaken; [|done]. done.
Qed.

Lemma discardTransaction_evolves c cl s :
  server_ok s -> s_clients s !! c = Some cl ->
  wp (discardTransaction c) (fun _ s' => evolves (fun w => w <> c) s s' /\
    s_clients s' !! c = Some (no_transaction cl) /\ data s' = data s) s.
Proof.
  intros Hok Hcl. eapply discardTransaction_txwp; [apply Hok|done|]. intros s' Htx Hcl'.
  split_and!; [|done|by apply Htx]. eapply tx_evolves; [done| |by eexists]. intros x y Hx Hy _. simplify_eq. constructor.
Qed.

Lemma discardCommand_evolves c cl s :
  server_ok s -> s_clients s !! c = Some cl ->
  wp (discardCommand c) (fun _ s' => evolves (fun w => w <> c) s s') s.
Proof.
  intros Hok Hcl. unfold discardCommand. apply wp_bind. eapply wp_client; [done|].
  destruct (flag_on REDIS_MULTI cl).
  - apply wp_bind. eapply wp_mono; [by eapply discardTransaction_evolves|]. intros _ s1 (He1 & Hc1 & _).
    eapply wp_mono; [eapply addReply_evolves; [by eapply evolves_ok|exact Hc1]|]. intros _ s' (He & _).
    eapply evolves_trans; [done|]. eapply evolves_weaken; [|done]. done.
  - eapply wp_mono; [by eapply addReply_evolves|]. intros _ s' (He & _). eapply evolves_weaken; [|done]. done.
Qed.

Lemma watchCommand_evolves c cl s :
  server_ok s -> s_clients s !! c = Some cl ->
  wp (watchCommand c) (fun _ s' => evolves (fun _ => True) s s') s.
Proof.
  intros Hok Hcl. unfold watchCommand. apply wp_bind. eapply wp_client; [done|].
  destruct (flag_on REDIS_MULTI cl).
  - eapply wp_mono; [by eapply addReply_evolves|]. by intros _ s' (He & _).
  - apply wp_bind. eapply watch_loop_wp; [apply Hok|done|]. intros s1 wl Htx Hc1 Hwl.
    assert (evolves (fun _ => True) s s1) as He1.
    { eapply tx_evolves_own; [done|done|exact Hc1|done| |done]. intros [d k] Hin. apply Hwl. by left. }
    eapply wp_mono; [eapply addReply_evolves; [by eapply evolves_ok|exact Hc1]|]. intros _ s' (He & _).
    by eapply evolves_trans.
Qed.

Lemma flagTransaction_evolves c cl s :
  server_ok s -> s_clients s !! c = Some cl ->
  wp (flagTransaction c) (fun _ s' => evolves (fun _ => True) s s' /\ is_Some (s_clients s' !! c) /\ data s' = data s) s.
Proof.
  intros Hok Hcl. unfold flagTransaction.
  eapply wp_mono; [apply (on_client_evolves c _ cl s Hok Hcl)|].
  - by destruct (flag_on REDIS_MULTI cl).
  - by destruct (flag_on REDIS_MULTI cl).
  - by destruct (flag_on REDIS_MULTI cl).
  - intros _ s' (_ & He & Hc & Hd). split_and!; [|by eexists|done]. apply He.
    destruct (flag_on REDIS_MULTI cl); [apply flag_on_set|done].
Qed.

Lemma queueMultiCommand_evolves c cmd cl s :
  server_ok s -> s_clients s !! c = Some cl -> queueable cmd -> allowed cmd -> good_call cmd (c_argv cl) ->
  wp (queueMultiCommand c cmd) (fun _ s' => evolves (fun _ => True) s s' /\ is_Some (s_clients s' !! c) /\ data s' = data s) s.
Proof.
  intros Hok Hcl Hqu Hal Hg. unfold queueMultiCommand.
  eapply wp_mono; [apply (on_client_evolves c _ cl s Hok Hcl)|]; [done|done| |].
  - intros Hq. apply Forall_app. split; [done|]. by constructor.
  - intros _ s' (_ & He & Hc & Hd). split_and!; [by apply He|by eexists|done].
Qed.

(** ** Execution *)

Lemma propagate_evolves K d av fl s :
  server_ok s ->
  wp (propagate d av fl) (fun _ s' => evolves K s s' /\ s_clients s' = s_clients s /\ data s' = data s /\
                                      s_propagated s' = s_propagated s ++ [(d, av, fl)]) s.
Proof.
  intros Hok. assert (evolves K s (set_propagated (s_propagated s ++ [(d, av, fl)]) s)) as He; [|by split_and!].
  apply log_evolves; try done; [apply Hok|by eexists].
Qed.

(** What a command changed was sent to the append-only file and the slaves. *)
Definition sent (s s' : server) : Prop := exact_dirty s -> data s' = data s \/ s_propagated s <> s_propagated s'.

Lemma sent_trans K s1 s2 s3 : evolves K s1 s2 -> evolves K s2 s3 -> sent s1 s2 -> sent s2 s3 -> sent s1 s3.
Proof.
  intros H1 H2 Ha Hb Hx. destruct (Ha Hx) as [Ha'|Ha'], (Hb (evolves_exact _ _ _ H1 Hx)) as [Hb'|Hb']; clear Ha Hb; rename Ha' into Ha, Hb' into Hb.
  - left. congruence.
  - right. intros Heq. apply Hb, (anti_symm prefix); [apply H2|]. rewrite <- Heq. apply H1.
  - right. intros Heq. apply Ha, (anti_symm prefix); [apply H1|]. rewrite Heq. apply H2.
  - right. intros Heq. apply Ha, (anti_symm prefix); [apply H1|]. rewrite Heq. apply H2.
Qed.

Lemma call_evolves (run : client_id -> M ()) (K : client_id -> Prop) c s :
  server_ok s -> is_Some (s_clients s !! c) ->
  wp (run c) (fun _ s' => evolves K s s') s ->
  wp (call run c) (fun _ s' => evolves K s s' /\ sent s s') s.
Proof.
  intros Hok Hc Hrun. unfold call. apply wp_bind, wp_gets, wp_bind. eapply wp_mono; [exact Hrun|].
  intros [] s1 He1. apply wp_bind, wp_gets, wp_bind.
  destruct (ev_clients _ _ _ He1 c Hc) as [cl Hcl]. eapply wp_client; [done|]. test.
  - eapply wp_mono; [by apply (propagate_evolves K), (evolves_ok _ _ _ Hok He1)|].
    intros _ s2 (He2 & _ & _ & Hp). split; [by eapply evolves_trans|]. intros _. right. rewrite Hp.
    intros Heq. destruct (ev_propagated _ _ _ He1) as [l Hl]. rewrite Hl, <- app_assoc in Heq.
    apply (f_equal length) in Heq. rewrite !length_app in Heq. simpl in Heq. lia.
  - apply wp_ret. split; [done|]. intros Hx. destruct (ev_account _ _ _ He1 Hx) as [|[Hd|Hp]]; [by left|lia|by right].
Qed.

Section Execution.
Context (clock : nat -> Z).

Lemma queueable_evolves cmd c cl s :
  queueable cmd -> allowed cmd -> good_call cmd (c_argv cl) -> server_ok s -> s_clients s !! c = Some cl ->
  wp (proc clock cmd c) (fun _ s' => evolves (fun w => w <> c /\ cmd <> CmdMove) s s') s.
Proof.
  intros Hqu Hal Hg Hok Hcl. destruct (is_tx cmd) eqn:Htx.
  - assert (cmd = CmdUnwatch) as ->.
    { unfold is_tx, queueable in *. apply bool_decide_eq_true in Htx. set_solver. }
    eapply wp_mono; [by eapply unwatchCommand_evolves|]. intros _ s' [He _]. eapply evolves_weaken; [|done]. by intros w [].
  - eapply wp_mono; [by eapply proc_evolves|]. intros [] s' He. eapply evolves_weaken; [|done]. by intros w [].
Qed.

Lemma exec_loop_evolves c queue mp s :
  server_ok s -> is_Some (s_clients s !! c) -> queue_ok queue ->
  wp (exec_loop clock c queue mp) (fun _ s' => evolves (fun w => w <> c /\ CmdMove ∉ queue.*1) s s' /\ sent s s') s.
Proof.
  revert mp s. induction queue as [|[cmd av] queue IH]; intros mp s Hok [cl Hcl] Hq; simpl.
  - apply wp_ret. split; [by apply evolves_refl, Hok|by intros _; left].
  - apply Forall_cons in Hq as [(Hqu & Hal & Hg) Hq]. simpl in *. apply wp_bind.
    eapply wp_mono; [by apply (on_client_evolves c _ cl s Hok Hcl)|]. intros _ s1 (_ & He1 & Hc1 & Hd1).
    specialize (He1 (fun H => H)). pose proof (evolves_ok _ _ _ Hok He1) as Hok1. apply wp_bind.
    eapply (wp_mono _ (fun _ s2 => evolves (fun _ => True) s1 s2 /\ s_clients s2 = s_clients s1 /\ data s2 = data s1)).
    { destruct (negb mp && negb (is_readonly cmd)).
      - apply wp_bind. eapply wp_current_db; [exact Hc1|]. apply wp_bind.
        eapply wp_mono; [by apply (propagate_evolves (fun _ => True))|]. intros _ s2 (He2 & Hcl2 & Hd2 & _).
        by apply wp_ret.
      - apply wp_ret. split_and!; [by apply evolves_refl, Hok1|done|done]. }
    intros mp' s2 (He2 & Hcl2 & Hd2). pose proof (evolves_trans _ _ _ _ He1 He2) as He12.
    pose proof (evolves_ok _ _ _ Hok He12) as Hok2. rewrite <- Hcl2 in Hc1. apply wp_bind.
    eapply wp_mono; [eapply (call_evolves _ (fun w => w <> c /\ cmd <> CmdMove)); [done|by eexists|]|].
    { eapply queueable_evolves; [done|done| |done|exact Hc1]. done. }
    intros _ s3 [He3 Hs3]. pose proof (evolves_ok _ _ _ Hok2 He3) as Hok3.
    eapply wp_mono; [apply (IH mp' s3 Hok3); [|done]|].
    { apply (ev_clients _ _ _ He3). by eexists. }
    intros _ s4 [He4 Hs4].
    assert (evolves (fun w => w <> c /\ CmdMove ∉ cmd :: queue.*1) s s2) as H1 by (by eapply evolves_weaken; [|exact He12]).
    assert (evolves (fun w => w <> c /\ CmdMove ∉ cmd :: queue.*1) s2 s3) as H2.
    { eapply evolves_weaken; [|exact He3]. intros w [? Hn]. split; [done|]. intros ->. apply Hn. by left. }
    assert (evolves (fun w => w <> c /\ CmdMove ∉ cmd :: queue.*1) s3 s4) as H3.
    { eapply evolves_weaken; [|exact He4]. intros w [? Hn]. split; [done|]. intros ?. apply Hn. by right. }
    assert (sent s s2) as Hsent by (intros _; left; congruence).
    pose proof (evolves_trans _ _ _ _ H1 H2) as H12. split; [by eapply evolves_trans|].
    eapply sent_trans; [exact H12|exact H3| |done]. exact (sent_trans _ _ _ _ H1 H2 Hsent Hs3).
Qed.

Lemma execCommand_evolves c cl s :
  server_ok s -> s_clients s !! c = Some cl ->
  wp (execCommand clock c) (fun _ s' => evolves (fun w => w <> c /\ CmdMove ∉ (c_mstate cl).*1) s s') s.
Proof.
  intros Hok Hcl. unfold execCommand. apply wp_bind. eapply wp_client; [done|].
  destruct (negb (flag_on REDIS_MULTI cl)).
  { eapply wp_mono; [by eapply addReply_evolves|]. intros _ s' (He & _). by eapply evolves_weaken; [|done]. }
  destruct (flag_on (Z.lor REDIS_DIRTY_CAS REDIS_DIRTY_EXEC) cl); apply wp_bind.
  - eapply wp_mono; [by eapply addReply_evolves|]. intros _ s1 (He1 & Hc1 & _).
    eapply wp_mono; [eapply discardTransaction_evolves; [by eapply evolves_ok|exact Hc1]|]. intros _ s2 (He2 & _).
    eapply evolves_trans; [by eapply evolves_weaken; [|exact He1]|]. eapply evolves_weaken; [|exact He2]. by intros w [].
  - eapply wp_mono; [by eapply unwatchAllKeys_evolves|]. intros _ s1 (He1 & Hc1 & _).
    pose proof (evolves_ok _ _ _ Hok He1) as Hok1. apply wp_bind.
    eapply wp_mono; [by eapply addReply_evolves|]. intros _ s2 (He2 & Hc2 & _).
    pose proof (evolves_ok _ _ _ Hok1 He2) as Hok2. apply wp_bind.
    eapply wp_mono; [apply exec_loop_evolves; [done|by eexists|by eapply (ok_queues _ Hok)]|]. intros mp s3 [He3 _].
    pose proof (evolves_ok _ _ _ Hok2 He3) as Hok3.
    destruct (ev_clients _ _ _ He3 c ltac:(by eexists)) as [cl3 Hc3]. apply wp_bind.
    eapply wp_mono; [by apply (on_client_evolves c _ cl3 s3 Hok3 Hc3)|]. intros _ s4 (He4 & _ & Hc4 & _).
    pose proof (evolves_ok _ _ _ Hok3 He4) as Hok4. apply wp_bind.
    eapply wp_mono; [by eapply discardTransaction_evolves|]. intros _ s5 (He5 & Hc5 & _).
    set (K := fun w => w <> c /\ CmdMove ∉ (c_mstate cl).*1).
    assert (evolves K s s5) as He.
    { eapply evolves_trans; [eapply evolves_weaken; [|exact He1]; by intros w []|].
      eapply evolves_trans; [eapply evolves_weaken; [|exact He2]; done|].
      eapply evolves_trans; [exact He3|].
      eapply evolves_trans; [eapply evolves_weaken; [|exact He4]; by intros w []|].
      eapply evolves_weaken; [|exact He5]; by intros w []. }
    destruct mp; [|by apply wp_ret].
    eapply evolves_trans; [exact He|]. pose proof (evolves_ok _ _ _ Hok He) as Hok5.
    apply log_evolves; try done; [apply Hok5|simpl; intros _; lia].
Qed.

(** Which clients keep what they watch when [c] runs [cmd]: all of them, except
    for MOVE, and except [c] itself for the commands that end its watch. *)
Definition kept (s : server) (c : client_id) (cmd : option command) (w : client_id) : Prop :=
  cmd <> Some CmdMove /\
  (w = c -> cmd ∉ [Some CmdExec; Some CmdDiscard; Some CmdUnwatch]) /\
  (cmd = Some CmdExec -> forall cl, s_clients s !! c = Some cl -> CmdMove ∉ (c_mstate cl).*1).

(** What a client sends: the arguments of a known command that pass the test
    of the arity are safe. *)
Definition request_ok (cmd : option command) (av : list bytes) : Prop :=
  match cmd with Some cmd => allowed cmd /\ (arity_ok cmd av -> good_call cmd av) | None => True end.

Lemma command_proc_evolves cmd c cl s (K : client_id -> Prop) :
  server_ok s -> s_clients s !! c = Some cl -> allowed cmd -> good_call cmd (c_argv cl) ->
  (forall w, K w -> kept s c (Some cmd) w) ->
  wp (command_proc clock cmd c) (fun _ s' => evolves K s s') s.
Proof.
  intros Hok Hcl Hal Hg HK. destruct (is_tx cmd) eqn:Htx.
  - destruct cmd; try discriminate Htx; cbn [command_proc proc].
    + eapply wp_mono; [by eapply multiCommand_evolves|]. intros [] s' He. by eapply evolves_weaken; [|exact He].
    + eapply wp_mono; [by eapply execCommand_evolves|]. intros [] s' He. eapply evolves_weaken; [|exact He].
      intros w Hw. destruct (HK w Hw) as (_ & Hne & Hmv). split; [|by apply Hmv]. intros ->. apply Hne; [done|set_solver].
    + eapply wp_mono; [by eapply discardCommand_evolves|]. intros [] s' He. eapply evolves_weaken; [|exact He].
      intros w Hw. destruct (HK w Hw) as (_ & Hne & _). intros ->. apply Hne; [done|set_solver].
    + eapply wp_mono; [by eapply watchCommand_evolves|]. intros [] s' He. by eapply evolves_weaken; [|exact He].
    + eapply wp_mono; [by eapply unwatchCommand_evolves|]. intros _ s' [He _]. eapply evolves_weaken; [|exact He].
      intros w Hw. destruct (HK w Hw) as (_ & Hne & _). intros ->. apply Hne; [done|set_solver].
  - assert (command_proc clock cmd c = proc clock cmd c) as -> by (by destruct cmd).
    eapply wp_mono; [by eapply proc_evolves|]. intros [] s' He. eapply evolves_weaken; [|exact He].
    intros w Hw. destruct (HK w Hw) as (Hne & _). congruence.
Qed.

Lemma processCommand_evolves c cmd av s :
  server_ok s -> is_Some (s_clients s !! c) -> request_ok cmd av ->
  wp (processCommand clock c cmd av) (fun _ s' => evolves (kept s c cmd) s s' /\ sent s s') s.
Proof.
  intros Hok [cl Hcl] Hreq. unfold processCommand. apply wp_bind.
  eapply wp_mono; [by apply (on_client_evolves c _ cl s Hok Hcl)|]. intros _ s1 (_ & He1 & Hc1 & Hd1).
  specialize (He1 (fun H => H)). pose proof (evolves_ok _ _ _ Hok He1) as Hok1.
  assert (evolves (kept s c cmd) s s1) as HeK by (by eapply evolves_weaken; [|exact He1]).
  assert (forall m : M (), wp m (fun _ s' => evolves (kept s c cmd) s1 s' /\ sent s1 s') s1 ->
            wp m (fun _ s' => evolves (kept s c cmd) s s' /\ sent s s') s1) as Hfrom.
  { intros m Hm. eapply wp_mono; [exact Hm|]. intros _ s' [He Hs]. split; [by eapply evolves_trans|].
    eapply sent_trans; [exact HeK|exact He|by intros _; left|done]. }
  assert (forall msg, wp (flagTransaction c;; addReplyError c msg)
            (fun _ s' => evolves (kept s c cmd) s1 s' /\ sent s1 s') s1) as Herr.
  { intros msg. apply wp_bind. eapply wp_mono; [by eapply flagTransaction_evolves|].
    intros _ s2 (He2 & [cl2 Hc2] & Hd2).
    eapply wp_mono; [eapply addReply_evolves; [by eapply evolves_ok|exact Hc2]|]. intros _ s3 (He3 & _ & Hd3).
    split; [|intros _; left; congruence]. eapply evolves_weaken; [|by eapply evolves_trans]. done. }
  apply Hfrom. destruct cmd as [cmd|]; [|apply Herr]. test; [apply Herr|].
  destruct Hreq as [Hal Hg]. specialize (Hg Htest).
  apply wp_bind. eapply wp_client; [done|].
  destruct (flag_on REDIS_MULTI _ && _) eqn:Hmulti.
  - apply andb_true_iff in Hmulti as [_ Hqu]. apply negb_true_iff, bool_decide_eq_false in Hqu.
    apply wp_bind. eapply wp_mono; [eapply (queueMultiCommand_evolves c cmd _ s1 Hok1 Hc1)|].
    { unfold queueable. set_solver. }
    { done. }
    { done. }
    intros _ s2 (He2 & [cl2 Hc2] & Hd2).
    eapply wp_mono; [eapply addReply_evolves; [by eapply evolves_ok|exact Hc2]|]. intros _ s3 (He3 & _ & Hd3).
    split; [|intros _; left; congruence]. eapply evolves_weaken; [|by eapply evolves_trans]. done.
  - eapply call_evolves; [done|by eexists|]. eapply command_proc_evolves; [done|exact Hc1|done|done|].
    intros w (H1 & H2 & H3). split_and!; [done|done|]. intros Hx x Hx2. rewrite Hc1 in Hx2.
    injection Hx2 as <-. simpl. by apply H3.
Qed.

End Execution.

End Allowed.
