(* ===== verification/ServerProperties.v ===== *)
(** * What the server guarantees to its clients

    Theorems about sequences of requests of any clients: the server survives
    them, sends every change of the data to the append-only file and the slaves,
    and EXEC runs only if what the client watches has not changed. *)
From Stdlib Require Import String.
#[local] Set Warnings "-clear-no-such-hyp".
From S2P Require Import Prelude ClientFlags Util Sds SdsArgs Server StringCommands Transactions ServerLogic StringEffects.
From S2P Require Import KeyEffects WatchLogic TransactionLogic.

(** A request: client, command (if there is one of that name), arguments. *)
Definition request : Type := client_id * option command * list bytes.

Fixpoint run_requests (clock : nat -> Z) (reqs : list request) : M () :=
  match reqs with
  | [] => mret tt
  | (c, cmd, av) :: reqs => processCommand clock c cmd av;; run_requests clock reqs
  end.

Definition any_command (_ : command) : Prop := True.
Definition not_move (cmd : command) : Prop := cmd <> CmdMove.

(** Requests of clients of [s] that keep to the commands [allowed]. *)
Definition requests_ok (allowed : command -> Prop) (s : server) (reqs : list request) : Prop :=
  Forall (fun r => is_Some (s_clients s !! r.1.1) /\ request_ok allowed r.1.2 r.2) reqs.

(** The server as [initServer] leaves it, with clients that have just
    connected. *)
Definition initial_server (dbs : nat) (clients : list client_id) (conf : config) : server :=
  Server (replicate dbs (RedisDb ∅ ∅ ∅))
    (list_to_map ((fun c => (c, RClient 0 0 [] [] [] [])) <$> clients)) 0 0 (0, 0, 0) [] [] conf.

Lemma initial_server_ok allowed dbs clients conf :
  (0 < dbs)%nat -> server_ok allowed (initial_server dbs clients conf).
Proof.
  intros Hdbs. set (s := initial_server dbs clients conf).
  assert (forall w cl, s_clients s !! w = Some cl -> cl = RClient 0 0 [] [] [] []) as Hcl.
  { intros w cl Hw. apply elem_of_list_to_map_2, list_elem_of_fmap in Hw as (? & [= -> ->] & _). done. }
  assert (forall d db, s_db s !! d = Some db -> db = RedisDb ∅ ∅ ∅) as Hdb.
  { intros d db Hd. by apply lookup_replicate_1 in Hd as [-> _]. }
  split; [|intros w cl Hw; rewrite (Hcl w cl Hw); constructor].
  constructor.
  - intros d db k Hd. rewrite (Hdb _ _ Hd). simpl. rewrite lookup_empty. by intros [].
  - intros d k o. unfold value. destruct (s_db s !! d) as [db|] eqn:Hd; [|done]. rewrite (Hdb _ _ Hd). simpl.
    by rewrite lookup_empty.
  - intros d db k w Hd. rewrite (Hdb _ _ Hd). simpl. rewrite lookup_empty. simpl. split; [by intros ?%not_elem_of_nil|].
    intros (cl & Hw & Hin). rewrite (Hcl _ _ Hw) in Hin. by apply not_elem_of_nil in Hin.
  - intros d db k Hd. rewrite (Hdb _ _ Hd). simpl. rewrite lookup_empty. constructor.
  - intros w cl Hw. rewrite (Hcl _ _ Hw). constructor.
  - intros w cl Hw. rewrite (Hcl _ _ Hw). simpl. by rewrite length_replicate.
  - intros w d k (cl & Hw & Hin). rewrite (Hcl _ _ Hw) in Hin. by apply not_elem_of_nil in Hin.
Qed.

(** The bytes of a string literal. *)
Definition str (x : string) : bytes := (fun a => Z.of_nat (Ascii.nat_of_ascii a)) <$> list_ascii_of_string x.

(** The state after requests that succeed. *)
Definition after_requests (clock : nat -> Z) (reqs : list request) (s : server) : server :=
  match run_requests clock reqs s with Some (_, s') => s' | None => s end.

(** ** One step and many *)

Section Requests.
Context (allowed : command -> Prop) (clock : nat -> Z).

Lemma run_requests_wp (K : client_id -> Prop) reqs s :
  server_ok allowed s -> requests_ok allowed s reqs ->
  (forall s1 r w, server_ok allowed s1 -> r ∈ reqs -> K w -> kept s1 r.1.1 r.1.2 w) ->
  wp (run_requests clock reqs) (fun _ s' => evolves allowed K s s' /\ sent allowed s s') s.
Proof.
  revert s. induction reqs as [|[[c cmd] av] reqs IH]; intros s Hok Hreqs HK; simpl.
  - apply wp_ret. split; [apply evolves_refl, Hok|by intros _; left].
  - apply Forall_cons in Hreqs as [[Hc Hr] Hreqs]. simpl in *. apply wp_bind.
    eapply wp_mono; [by eapply (processCommand_evolves allowed clock c cmd av)|].
    intros [] s1 [He1 Hs1]. pose proof (evolves_ok _ _ _ _ Hok He1) as Hok1.
    assert (evolves allowed K s s1) as He1'.
    { eapply evolves_weaken; [|exact He1]. intros w Hw. by apply (HK s (c, cmd, av)); [|left|]. }
    eapply wp_mono; [apply (IH s1 Hok1)|].
    + eapply Forall_impl; [exact Hreqs|]. intros [[c' ?] ?] [Hc' ?]. split; [|done]. by apply (ev_clients _ _ _ _ He1).
    + intros s2 r w Hok2 Hr2. apply HK; [done|by right].
    + intros [] s2 [He2 Hs2]. split; [by eapply evolves_trans|]. by eapply (sent_trans _ K s s1 s2).
Qed.
End Requests.

Lemma wp_run {A} (m : M A) Q s x s' : wp m Q s -> m s = Some (x, s') -> Q x s'.
Proof. unfold wp. intros HQ Hm. by rewrite Hm in HQ. Qed.

Lemma wp_total {A} (m : M A) Q s : wp m Q s -> exists x s', m s = Some (x, s') /\ Q x s'.
Proof. unfold wp. destruct (m s) as [[x s']|]; [by eauto|done]. Qed.

Lemma after_requests_ok allowed clock reqs s :
  server_ok allowed s -> requests_ok allowed s reqs ->
  server_ok allowed (after_requests clock reqs s) /\
  run_requests clock reqs s = Some (tt, after_requests clock reqs s).
Proof.
  intros Hok Hreqs. unfold after_requests.
  destruct (wp_total _ _ _ (run_requests_wp allowed clock (fun _ => False) reqs s Hok Hreqs ltac:(done)))
    as ([] & s' & -> & He & _).
  split; [by eapply evolves_ok|done].
Qed.

(** A server with two databases and three clients, for the examples. *)
Definition sample : server := initial_server 2 [0; 1; 2]%nat (Config false false None 0).
Definition sample_clock (n : nat) : Z := 1000 + 10 * Z.of_nat n.

Lemma sample_ok allowed : server_ok allowed sample.
Proof. apply initial_server_ok. lia. Qed.

(** Decides the conditions on the requests of an example. *)
Ltac requests_tac :=
  repeat constructor; try (by eexists); try discriminate;
  try (unfold arity_ok; simpl; lia); try (apply bool_decide_unpack; vm_compute; done).

(** C13: the server survives requests of any clients.  From a state that
    satisfies the invariant (no expire without its key, no string over 512 MB,
    tables of watched keys and clients that agree, queued commands with
    acceptable arguments), with any or no save points, after any sequence of
    requests of existing clients whose arguments are not longer than 512 MB, an
    end of GETRANGE being below 2^32 and the offset of SETRANGE plus the length
    of its value below 2^63, every assertion of the code holds, no read leaves
    its buffer, no client is lost, and the invariant holds at the end.  The
    bound on GETRANGE is needed: see [getrange_reads_outside]. *)
Theorem server_survives clock reqs s :
  server_ok any_command s -> requests_ok any_command s reqs ->
  exists s', run_requests clock reqs s = Some (tt, s') /\ server_ok any_command s' /\
             forall c, is_Some (s_clients s !! c) -> is_Some (s_clients s' !! c).
Proof.
  intros Hok Hreqs.
  destruct (wp_total _ _ _ (run_requests_wp any_command clock (fun _ => False) reqs s Hok Hreqs ltac:(done)))
    as ([] & s' & Hrun & He & _).
  exists s'. split_and!; [done|by eapply evolves_ok|apply He].
Qed.

(** C14: whatever changes the data (values or expires, of any database) is
    propagated: after any sequence of requests as in C13, MOVE and EXEC
    included, the stream of the append-only file and the slaves has only grown,
    and has grown or the data are the same as before.  The server has no save
    points, or FLUSHALL is not among the commands allowed: with save points
    FLUSHALL passes the counter of changes through an [int], and does not count
    when it removes 2^32 - 1 keys (see [flushall_uncounted]). *)
Theorem changes_are_propagated allowed clock reqs s s' :
  saveparamslen (s_conf s) <= 0 \/ ~ allowed CmdFlushall ->
  server_ok allowed s -> requests_ok allowed s reqs ->
  run_requests clock reqs s = Some (tt, s') ->
  s_propagated s `prefix_of` s_propagated s' /\
  (data s' <> data s -> exists e l, s_propagated s' = s_propagated s ++ e :: l).
Proof.
  intros Hx Hok Hreqs Hrun.
  destruct (wp_run _ _ _ _ _ (run_requests_wp allowed clock (fun _ => False) reqs s Hok Hreqs ltac:(done)) Hrun)
    as [He Hs].
  split; [apply He|]. intros Hne. destruct (Hs Hx) as [|Hs']; [done|].
  destruct (ev_propagated _ _ _ _ He) as [[|e l] Hl]; [by rewrite app_nil_r in Hl|by eauto].
Qed.

Lemma server_survives_witness :
  exists s', run_requests sample_clock
    [(0%nat, Some CmdSet, [str "SET"; str "k"; str "10"]); (1%nat, Some CmdWatch, [str "WATCH"; str "k"]);
     (1%nat, Some CmdMulti, [str "MULTI"]); (1%nat, Some CmdIncrby, [str "INCRBY"; str "k"; str "5"]);
     (2%nat, Some CmdExpire, [str "EXPIRE"; str "k"; str "100"]); (1%nat, Some CmdExec, [str "EXEC"])] sample
     = Some (tt, s') /\ server_ok any_command s' /\ forall c, is_Some (s_clients sample !! c) -> is_Some (s_clients s' !! c).
Proof.
  apply server_survives; [apply sample_ok|]. requests_tac.
Defined.

(** A server with the save points of the default configuration. *)
Definition saving_sample : server := initial_server 2 [0; 1; 2]%nat (Config false false None 3).
Definition not_flushall (cmd : command) : Prop := cmd <> CmdFlushall.

Lemma changes_are_propagated_witness :
  let reqs := [(0%nat, Some CmdSet, [str "SET"; str "k"; str "v"]); (0%nat, Some CmdMove, [str "MOVE"; str "k"; str "1"])] in
  let s' := after_requests sample_clock reqs saving_sample in
  data s' <> data saving_sample /\
  (s_propagated saving_sample `prefix_of` s_propagated s' /\
   (data s' <> data saving_sample -> exists e l, s_propagated s' = s_propagated saving_sample ++ e :: l)).
Proof.
  split; [vm_compute; discriminate|].
  apply (changes_are_propagated not_flushall sample_clock
    [(0%nat, Some CmdSet, [str "SET"; str "k"; str "v"]); (0%nat, Some CmdMove, [str "MOVE"; str "k"; str "1"])]);
    [right; intros Hn; by apply Hn|apply initial_server_ok; lia|requests_tac|vm_compute; reflexivity].
Defined.

(** FLUSHALL on a server with save points: [saved_dirty] keeps 32 bits, so that
    [call] takes the command that removes 2^32 - 1 keys for one that changes
    nothing. *)
Lemma flushall_uncounted c s s' : 0 < saveparamslen (s_conf s) -> srange 32 (s_dirty s - 1) ->
  foldr (fun db n => n + Z.of_nat (base.size (db_dict db))) 0 (s_db s) = 2 ^ 32 - 1 ->
  flushallCommand c s = Some (tt, s') -> s_dirty s' = s_dirty s.
Proof.
  intros Hsave Hd Hn Hrun. revert Hrun. unfold flushallCommand, touchWatchedKeysOnFlush, emptyDb, mbind, M_bind, modify.
  cbn [s_db set_clients]. rewrite Hn. unfold add_dirty, addReply, on_client, modify, gets. cbn. rewrite bool_decide_true by lia. cbn.
  intros [= <-]. cbn. assert (swrap 32 (s_dirty s + (2 ^ 32 - 1)) = s_dirty s - 1) as ->; [|lia].
  rewrite <- (swrap_small 32 (s_dirty s - 1)) by done. unfold swrap. f_equal.
  replace (s_dirty s + (2 ^ 32 - 1) + _) with (s_dirty s - 1 + 2 ^ (32 - 1) + 1 * 2 ^ 32) by lia. by rewrite Z.mod_add.
Qed.

Lemma watch_detects reqs w d k clock s s' :
  server_ok not_move s -> requests_ok not_move s reqs ->
  Forall (fun r => r.1.1 = w -> r.1.2 ∉ [Some CmdExec; Some CmdDiscard; Some CmdUnwatch]) reqs ->
  watches s w d k -> run_requests clock reqs s = Some (tt, s') ->
  server_ok not_move s' /\ watches s' w d k /\
  (value s' d k = value s d k \/ marked s' w \/ expired s s' d k).
Proof.
  intros Hok Hreqs Hw Hwatch Hrun.
  assert (wp (run_requests clock reqs) (fun _ s' => evolves not_move (fun w' => w' = w) s s' /\ sent not_move s s') s) as Hwp.
  { apply run_requests_wp; [done|done|]. intros s1 [[c cmd] av] ? Hok1 Hin ->. simpl.
    rewrite Forall_forall in Hw. specialize (Hw _ Hin). simpl in Hw.
    unfold requests_ok in Hreqs. rewrite Forall_forall in Hreqs. destruct (Hreqs _ Hin) as [_ Hr]. simpl in Hr. split_and!.
    - intros ->. by destruct Hr as [[] _].
    - intros ->. by apply Hw.
    - intros _ cl Hcl Hin'. apply list_elem_of_fmap in Hin' as ([x xs] & Hx & Hin').
      pose proof (ok_queues _ _ Hok1 _ _ Hcl) as Hq. unfold queue_ok in Hq. rewrite Forall_forall in Hq.
      destruct (Hq _ Hin') as (_ & Hal & _). by apply Hal. }
  destruct (wp_run _ _ _ _ _ Hwp Hrun) as [He _]. pose proof (ev_keep _ _ _ _ He w eq_refl) as Hk.
  split_and!; [by eapply evolves_ok|by eapply keep_watches|by apply (keep_value _ _ _ Hk)].
Qed.

Lemma flag_on_lor f g cl : flag_on f cl = true -> flag_on (Z.lor f g) cl = true.
Proof.
  unfold flag_on. rewrite !bool_decide_eq_true. intros Hf Hz. apply Hf. apply Z.bits_inj. intros i.
  apply (f_equal (fun x => Z.testbit x i)) in Hz. rewrite Z.land_spec, Z.lor_spec, Z.bits_0 in Hz.
  rewrite Z.land_spec, Z.bits_0. destruct (Z.testbit (c_flags cl) i), (Z.testbit f i); done.
Qed.

(** EXEC of a client that is marked. *)
Lemma exec_marked_wp allowed clock w cl s :
  server_ok allowed s -> s_clients s !! w = Some cl -> flag_on REDIS_MULTI cl = true ->
  flag_on REDIS_DIRTY_CAS cl = true ->
  wp (processCommand clock w (Some CmdExec) [[101; 120; 101; 99]])
    (fun _ s' => data s' = data s /\ s_propagated s' = s_propagated s /\
       exists r, (r = ReplyNullMultiBulk \/ exists msg, r = ReplyError msg) /\
         s_clients s' !! w =
           Some (no_transaction (set_c_reply (c_reply cl ++ [r]) (set_c_argv [[101; 120; 101; 99]] cl)))) s.
Proof.
  intros [Hi _] Hcl Hmulti Hcas. pose proof (inv_db_range _ Hi _ _ Hcl) as Hd.
  unfold processCommand. apply wp_bind. eapply on_client_txwp; [done|exact Hcl|done|done|]. intros s1 Htx1 Hc1.
  rewrite bool_decide_eq_false_2 by (simpl; lia). apply wp_bind. eapply wp_client; [exact Hc1|].
  rewrite andb_false_r. unfold call. apply wp_bind, wp_gets, wp_bind. cbn [command_proc]. unfold execCommand.
  apply wp_bind. eapply wp_client; [exact Hc1|].
  assert (flag_on REDIS_MULTI (set_c_argv [[101; 120; 101; 99]] cl) = true) as -> by done.
  assert (flag_on (Z.lor REDIS_DIRTY_CAS REDIS_DIRTY_EXEC) (set_c_argv [[101; 120; 101; 99]] cl) = true) as ->.
  { by apply flag_on_lor. }
  cbn [negb]. apply wp_bind. set (r := if flag_on REDIS_DIRTY_EXEC _ then _ else _).
  eapply on_client_txwp; [apply Htx1|exact Hc1|done| |].
  { unfold in_range. simpl. by rewrite (tx_length _ _ _ Htx1). }
  intros s2 Htx2 Hc2. eapply discardTransaction_txwp; [apply Htx2|exact Hc2|]. intros s3 Htx3 Hc3.
  pose proof (tx_trans _ _ _ _ (tx_trans _ _ _ _ Htx1 Htx2) Htx3) as Htx.
  apply wp_bind, wp_gets, wp_bind. eapply wp_client; [exact Hc3|].
  rewrite (tx_dirty _ _ _ Htx), (tx_dirty _ _ _ Htx1), Z.sub_diag. apply wp_ret.
  split_and!; [apply Htx|apply Htx|]. exists r. split; [|done]. unfold r. case_match; eauto.
Qed.

(** C15: optimistic locking.  A client watches a key; any clients send any
    requests as in C13, with two exceptions: nobody uses MOVE, which does not
    mark the clients that watch its key (see [move_not_signalled]), and the
    client itself does not end its watch by EXEC, DISCARD or UNWATCH.  If the
    key then has another value, not because it expired, and the client is in a
    transaction, then its EXEC runs nothing: the data do not change, nothing is
    propagated, the reply is null or an error, and the client is out of the
    transaction and watches nothing. *)
Theorem exec_aborts_after_change clock clock' reqs w d k s s1 cl :
  server_ok not_move s -> requests_ok not_move s reqs ->
  Forall (fun r => r.1.1 = w -> r.1.2 ∉ [Some CmdExec; Some CmdDiscard; Some CmdUnwatch]) reqs ->
  watches s w d k -> run_requests clock reqs s = Some (tt, s1) ->
  value s1 d k <> value s d k -> ~ expired s s1 d k ->
  s_clients s1 !! w = Some cl -> flag_on REDIS_MULTI cl = true ->
  exists s2 r, run_requests clock' [(w, Some CmdExec, [[101; 120; 101; 99]])] s1 = Some (tt, s2) /\
    data s2 = data s1 /\ s_propagated s2 = s_propagated s1 /\
    (r = ReplyNullMultiBulk \/ exists msg, r = ReplyError msg) /\
    s_clients s2 !! w =
      Some (no_transaction (set_c_reply (c_reply cl ++ [r]) (set_c_argv [[101; 120; 101; 99]] cl))).
Proof.
  intros Hok Hreqs Hw Hwatch Hrun Hv Hexp Hcl Hmulti.
  destruct (watch_detects reqs w d k clock s s1 Hok Hreqs Hw Hwatch Hrun) as (Hok1 & _ & [?|[Hm|?]]); [done| |done].
  destruct Hm as (cl' & Hcl' & Hm). simplify_eq.
  destruct (wp_total _ _ _ (exec_marked_wp _ clock' w cl s1 Hok1 Hcl Hmulti Hm))
    as ([] & s2 & Hrun2 & Hd & Hp & r & Hr & Hc2).
  exists s2, r. simpl. unfold mbind, M_bind. by rewrite Hrun2.
Qed.

(** Client 1 watches [k]; client 0 sets it. *)
Definition watching : server := after_requests sample_clock [(1%nat, Some CmdWatch, [str "WATCH"; str "k"])] sample.
Definition interference : list request :=
  [(1%nat, Some CmdMulti, [str "MULTI"]); (0%nat, Some CmdSet, [str "SET"; str "k"; str "v"]);
   (1%nat, Some CmdSet, [str "SET"; str "k"; str "w"])].

Lemma exec_aborts_after_change_witness :
  let s1 := after_requests sample_clock interference watching in
  exists cl s2 r, s_clients s1 !! 1%nat = Some cl /\
    run_requests sample_clock [(1%nat, Some CmdExec, [[101; 120; 101; 99]])] s1 = Some (tt, s2) /\
    data s2 = data s1 /\ s_propagated s2 = s_propagated s1 /\
    (r = ReplyNullMultiBulk \/ exists msg, r = ReplyError msg) /\
    s_clients s2 !! 1%nat =
      Some (no_transaction (set_c_reply (c_reply cl ++ [r]) (set_c_argv [[101; 120; 101; 99]] cl))).
Proof.
  assert (exists cl, s_clients (after_requests sample_clock interference watching) !! 1%nat = Some cl /\
    flag_on REDIS_MULTI cl = true) as (cl & Hcl & Hm).
  { eexists. split; [vm_compute; reflexivity|reflexivity]. }
  exists cl. edestruct (exec_aborts_after_change sample_clock sample_clock interference 1 0 (str "k") watching)
    as (s2 & r & H); [| | | | | | |exact Hcl|exact Hm|by exists s2, r].
  - apply after_requests_ok; [apply sample_ok|requests_tac].
  - requests_tac.
  - repeat constructor; intros Heq; try discriminate Heq; apply (bool_decide_unpack _); vm_compute; exact I.
  - eexists. split; [vm_compute; reflexivity|]. apply (bool_decide_unpack _). vm_compute. exact I.
  - vm_compute. reflexivity.
  - vm_compute. discriminate.
  - intros (l & Hl & Hin). vm_compute in Hl. subst l. apply list_elem_of_singleton in Hin. discriminate Hin.
Defined.

(** MOVE defeats WATCH.  [moveCommand] signals neither
    the source nor the destination key, so a client that watches the key is not
    marked although the value is gone, and its EXEC runs. *)
Theorem move_not_signalled :
  exists s reqs s1, server_ok any_command s /\ requests_ok any_command s reqs /\
    watches s 1 0 (str "k") /\ Forall (fun r => r.1.1 <> 1%nat) reqs /\
    run_requests sample_clock reqs s = Some (tt, s1) /\
    value s 0 (str "k") <> None /\ value s1 0 (str "k") = None /\ s_events s1 = s_events s /\
    ~ marked s1 1.
Proof.
  exists (after_requests sample_clock [(0%nat, Some CmdSet, [str "SET"; str "k"; str "v"]);
           (1%nat, Some CmdWatch, [str "WATCH"; str "k"])] sample).
  exists [(0%nat, Some CmdMove, [str "MOVE"; str "k"; str "1"])]. eexists. split_and!.
  - apply after_requests_ok; [apply sample_ok|requests_tac].
  - requests_tac.
  - eexists. split; [vm_compute; reflexivity|]. apply (bool_decide_unpack _). vm_compute. exact I.
  - by repeat constructor.
  - vm_compute. reflexivity.
  - vm_compute. discriminate.
  - reflexivity.
  - reflexivity.
  - intros (cl & Hcl & Hm). vm_compute in Hcl. injection Hcl as <-. vm_compute in Hm. discriminate.
Qed.

(** The length test of GETRANGE converts [end]
    to [unsigned int], so an end of 2^32 passes it and the reply is read from
    beyond the string: the request is well formed but for [safe_args], and the
    model has no next state. *)
Theorem getrange_reads_outside :
  exists s, server_ok any_command s /\ value s 0 (str "k") = Some (Raw (str "hello")) /\
    arity_ok CmdGetrange [str "GETRANGE"; str "k"; str "0"; str "4294967296"] /\
    run_requests sample_clock [(0%nat, Some CmdGetrange, [str "GETRANGE"; str "k"; str "0"; str "4294967296"])] s = None.
Proof.
  exists (after_requests sample_clock [(0%nat, Some CmdSet, [str "SET"; str "k"; str "hello"])] sample). split_and!.
  - apply after_requests_ok; [apply sample_ok|requests_tac].
  - reflexivity.
  - unfold arity_ok; simpl; lia.
  - reflexivity.
Qed.
