(* ===== verification/StringSpecs.v ===== *)
(** * What the string commands compute

    Exact results: the databases, the reply and the number of changes after a
    command, on every branch.  [at_state] is a symbolic state: the databases,
    the client with its arguments and replies, and [server.dirty]. *)
From Stdlib Require Import String.
#[local] Set Warnings "-clear-no-such-hyp".
From S2P Require Import Prelude Util Sds SdsArgs Server StringCommands Transactions ServerLogic StringEffects.
From S2P Require Import KeyEffects WatchLogic TransactionLogic ServerProperties.

(** The effect of [dbDelete]. *)
Definition without (k : bytes) (db : redisDb) : redisDb := set_dict (delete k) (set_expires (delete k) db).

Lemma wp_modify f Q s : Q tt (f s) -> wp (modify f) Q s.
Proof. done. Qed.

(** The expire [t] is not reached by any reading of the clock: it is negative,
    or nothing expires here (while loading, or on a slave), or the time of the
    script that runs, or else of every reading, is not after it. *)
Definition expire_ahead (clock : nat -> Z) (conf : config) (t : Z) : Prop :=
  t < 0 \/ loading conf = true \/ masterhost conf = true \/
  match lua_time conf with Some now => now <= t | None => forall i, clock i <= t end.

(** The key has no expire, or exists and has one that is ahead. *)
Definition remains (clock : nat -> Z) (conf : config) (db : redisDb) (k : bytes) : Prop :=
  forall t, db_expires db !! k = Some t -> is_Some (db_dict db !! k) /\ expire_ahead clock conf t.

(** A clock for the examples. *)
Definition steady_clock (_ : nat) : Z := 4000.

Lemma remains_none clock conf db k : db_expires db !! k = None -> remains clock conf db k.
Proof. intros He t. by rewrite He. Qed.

Lemma remains_written clock conf db k k' o : remains clock conf db k -> remains clock conf (set_dict (<[k' := o]>) db) k.
Proof.
  intros Hl t Ht. destruct (Hl t Ht) as [[x Hx] Ha]. split; [|done]. cbn. destruct (decide (k' = k)) as [->|Hne].
  - rewrite lookup_insert_eq. by eexists.
  - rewrite lookup_insert_ne, Hx by done. by eexists.
Qed.

Section Symbolic.
Context (conf : config) (c : client_id) (d : nat) (av : list bytes).

Record at_state (dbs : list redisDb) (reply : list redis_reply) (dirty : Z) (s : server) : Prop := {
  at_db : s_db s = dbs;
  at_client : exists cl, s_clients s !! c = Some cl /\ c_db cl = d /\ c_argv cl = av /\ c_reply cl = reply;
  at_dirty : s_dirty s = dirty;
  at_conf : s_conf s = conf;
}.

Implicit Types (dbs : list redisDb) (db : redisDb) (k : bytes) (reply : list redis_reply).

Lemma argv_at j x Q dbs reply n s :
  at_state dbs reply n s -> av !! j = Some x -> Q x s -> wp (argv c j) Q s.
Proof. intros [_ (cl & Hc & _ & <- & _) _ _] Hj HQ. by eapply wp_argv. Qed.

Lemma current_db_at Q dbs reply n s : at_state dbs reply n s -> Q d s -> wp (current_db c) Q s.
Proof. intros [_ (cl & Hc & <- & _ & _) _ _] HQ. by eapply wp_current_db. Qed.

Lemma client_at Q dbs reply n s :
  at_state dbs reply n s -> (forall cl, c_argv cl = av -> c_db cl = d -> Q cl s) -> wp (client c) Q s.
Proof. intros [_ (cl & Hc & <- & <- & _) _ _] HQ. eapply wp_client; [done|]. by apply HQ. Qed.

Lemma addReply_at r Q dbs reply n s :
  at_state dbs reply n s -> (forall s', at_state dbs (reply ++ [r]) n s' -> Q tt s') -> wp (addReply c r) Q s.
Proof.
  intros [Hdb (cl & Hc & Hd & Hav & Hr) Hn Hcf] HQ. apply HQ. constructor; [done| |done|done].
  eexists. simpl. rewrite lookup_alter_eq, Hc. split; [done|]. simpl. by rewrite Hr.
Qed.

Lemma log_at (f : server -> server) Q dbs reply n s :
  s_db (f s) = s_db s -> s_clients (f s) = s_clients s -> s_conf (f s) = s_conf s ->
  at_state dbs reply n s -> (forall s', at_state dbs reply (s_dirty (f s)) s' -> Q tt s') -> wp (modify f) Q s.
Proof. intros Hdb Hcl Hcf [Hdbs Hc Hn Hcf0] HQ. apply HQ. constructor; [by rewrite Hdb|by rewrite Hcl|done|by rewrite Hcf]. Qed.

Lemma notify_at cls ev k e Q dbs reply n s :
  at_state dbs reply n s -> (forall s', at_state dbs reply n s' -> Q tt s') -> wp (notifyKeyspaceEvent cls ev k e) Q s.
Proof.
  intros Hs HQ. eapply log_at; [done|done|done|exact Hs|]. intros s' Hs'. apply HQ. destruct Hs as [_ _ <- _]. exact Hs'.
Qed.

Lemma add_dirty_at m Q dbs reply n s :
  at_state dbs reply n s -> (forall s', at_state dbs reply (n + m) s' -> Q tt s') -> wp (add_dirty m) Q s.
Proof.
  intros Hs HQ. eapply log_at; [done|done|done|exact Hs|]. intros s' Hs'. apply HQ. destruct Hs as [_ _ <- _]. exact Hs'.
Qed.

Lemma signal_at k Q dbs reply n s :
  (d < length dbs)%nat -> at_state dbs reply n s -> (forall s', at_state dbs reply n s' -> Q tt s') ->
  wp (signalModifiedKey d k) Q s.
Proof.
  intros Hd Hs HQ. destruct Hs as [Hdb (cl & Hc & Hcd & Hav & Hr) Hn Hcf].
  destruct (lookup_lt_is_Some_2 dbs d Hd) as [db Hl]. unfold signalModifiedKey, touchWatchedKey.
  apply wp_bind, (wp_database _ db); [by rewrite Hdb|].
  destruct (db_watched db !! k) as [ws|]; [|apply wp_ret, HQ; constructor; [done|by exists cl|done|done]].
  apply HQ. constructor; [done| |done|done]. simpl. rewrite fold_mark_lookup, Hc. simpl.
  eexists. split; [done|].
  induction ws as [|w ws IH] using rev_ind; [done|]. rewrite foldl_snoc. case_bool_decide; [|done].
  unfold flag_set. simpl. exact IH.
Qed.

(** Lookups by a client of a key that does not expire meanwhile. *)
Section Lookups.
Context (clock : nat -> Z) (k : bytes) (db : redisDb) (dbs : list redisDb) (reply : list redis_reply) (n : Z) (s : server).
Context (Hs : at_state dbs reply n s) (Hl : dbs !! d = Some db) (Hlive : remains clock conf db k).

Lemma expireIfNeeded_at (Q : bool -> server -> Prop) : (forall b s', at_state dbs reply n s' -> Q b s') -> wp (expireIfNeeded clock d k) Q s.
Proof using Hs Hl Hlive.
  intros HQ. pose proof Hs as [Hdb Hc Hn Hcf]. unfold expireIfNeeded, getExpire. do 2 apply wp_bind.
  apply (wp_database _ db); [by rewrite Hdb|]. destruct (db_expires db !! k) as [t|] eqn:He; [|by apply wp_ret, wp_ret, HQ].
  destruct (Hlive t He) as [Hin Hahead]. apply wp_bind, wp_assert; [by apply bool_decide_eq_true|]. apply wp_ret.
  test; [by apply wp_ret, HQ|]. apply wp_bind, wp_gets. rewrite Hcf. destruct (loading conf) eqn:Hload; [by apply wp_ret, HQ|]. apply wp_bind.
  eapply (wp_mono _ (fun now s' => at_state dbs reply n s' /\ match lua_time conf with Some x => now = x | None => exists i, now = clock i end)).
  { destruct (lua_time conf) as [x|]; [by apply wp_ret|]. split; [by constructor|by eexists]. }
  intros now s' [Hs' Hnow]. destruct (masterhost conf) eqn:Hmaster; [by apply wp_ret, HQ|].
  test; [by apply wp_ret, HQ|]. exfalso. destruct Hahead as [|[|[|Ht]]]; [lia|congruence..|].
  destruct (lua_time conf) as [x|]; [lia|]. destruct Hnow as [i ->]. specialize (Ht i). lia.
Qed.

Lemma lookupKeyWrite_at (Q : option robj -> server -> Prop) : (forall s', at_state dbs reply n s' -> Q (db_dict db !! k) s') -> wp (lookupKeyWrite clock d k) Q s.
Proof using Hs Hl Hlive.
  intros HQ. apply wp_bind. apply expireIfNeeded_at. intros _ s' Hs'. apply wp_bind, (wp_database _ db); [|by apply HQ].
  by destruct Hs' as [-> _ _ _].
Qed.

Lemma lookupKeyRead_at (Q : option robj -> server -> Prop) : (forall s', at_state dbs reply n s' -> Q (db_dict db !! k) s') -> wp (lookupKeyRead clock d k) Q s.
Proof using Hs Hl Hlive.
  intros HQ. apply wp_bind. apply expireIfNeeded_at. intros _ s1 Hs1. apply wp_bind, wp_bind.
  apply (wp_database _ db); [by destruct Hs1 as [-> _ _ _]|]. apply wp_ret, wp_bind. eapply log_at; [done|done|done|exact Hs1|].
  intros s' Hs'. apply wp_ret, HQ. destruct Hs1 as [_ _ <- _]. exact Hs'.
Qed.
End Lookups.

(** Writing the value of a key, whether it exists or not. *)
Definition write_key (k : bytes) (o : robj) (dbs : list redisDb) : list redisDb :=
  alter (set_dict (<[k := o]>)) d dbs.

Lemma store_at k o (old : option robj) db Q dbs reply n s :
  at_state dbs reply n s -> dbs !! d = Some db -> old = db_dict db !! k ->
  (forall s', at_state (write_key k o dbs) reply n s' -> Q tt s') ->
  wp (match old with Some _ => dbOverwrite d k o | None => dbAdd d k o end) Q s.
Proof.
  intros [Hdb Hc Hn Hcf] Hl -> HQ.
  assert (Q tt (set_dbs (alter (set_dict (<[k := o]>)) d (s_db s)) s)) as HQ'.
  { apply HQ. constructor; [by rewrite <- Hdb|done|done|done]. }
  destruct (db_dict db !! k) eqn:Hk; apply wp_bind, (wp_database _ db); try (by rewrite Hdb);
    (apply wp_bind, wp_assert; [|exact HQ']); apply bool_decide_eq_true; [by rewrite Hk|done].
Qed.

Lemma dbDelete_at k db Q dbs reply n s : at_state dbs reply n s -> dbs !! d = Some db ->
  (forall s', at_state (alter (without k) d dbs) reply n s' -> Q (bool_decide (is_Some (db_dict db !! k))) s') -> wp (dbDelete d k) Q s.
Proof.
  intros [Hdb Hc Hn Hcf] Hl HQ. apply wp_bind, (wp_database _ db); [by rewrite Hdb|]. apply wp_bind, wp_modify, wp_ret, HQ.
  constructor; [by rewrite <- Hdb|done|done|done].
Qed.

Lemma dbAdd_at k o db Q dbs reply n s : at_state dbs reply n s -> dbs !! d = Some db -> db_dict db !! k = None ->
  (forall s', at_state (write_key k o dbs) reply n s' -> Q tt s') -> wp (dbAdd d k o) Q s.
Proof.
  intros Hs Hl Hk HQ. apply (store_at k o None db Q dbs reply n s Hs Hl); [by rewrite Hk|done].
Qed.

Lemma number_at o (v : option Z) Q dbs reply n s :
  at_state dbs reply n s -> getLongLongFromObject o = Some v ->
  match v with
  | Some v => Q (Some v) s
  | None => forall s', at_state dbs (reply ++ [ReplyError "value is not an integer or out of range"]) n s' -> Q None s'
  end -> wp (getLongLongFromObjectOrReply c o) Q s.
Proof.
  intros Hs Hv HQ. apply wp_bind. eapply wp_lift; [done|]. destruct v as [v|]; [by apply wp_ret|].
  apply wp_bind. eapply addReply_at; [exact Hs|]. intros s' Hs'. by apply wp_ret, HQ.
Qed.

Lemma checkType_at o t Q dbs reply n s :
  at_state dbs reply n s ->
  (if bool_decide (type_of o = t) then Q false s
   else forall s', at_state dbs (reply ++ [ReplyError "Operation against a key holding the wrong kind of value"]) n s' -> Q true s') ->
  wp (checkType c o t) Q s.
Proof.
  intros Hs HQ. unfold checkType. destruct (bool_decide (type_of o = t)); [by apply wp_ret|].
  apply wp_bind. eapply addReply_at; [exact Hs|]. intros s' Hs'. by apply wp_ret, HQ.
Qed.

End Symbolic.

(** ** Numbers *)

Lemma scan_digits_spec v l : digits_ok l -> scan_digits v l = (foldl (fun v c => v * 10 + (c - c_zero)) v l, []).
Proof.
  intros Hl. revert v. induction Hl as [|x l Hx _ IH]; intros v; simpl; [done|].
  unfold is_digit. by rewrite bool_decide_eq_true_2.
Qed.

Lemma c_str_digits l : Forall (fun x => x <> 0) l -> c_str l = l.
Proof. induction 1 as [|x l Hx _ IH]; simpl; [done|]. by rewrite bool_decide_eq_false_2, IH. Qed.

(** [getLongLongFromObject] reads the decimal notation of every 64-bit integer. *)
Lemma number_decimal v l : srange 64 v -> decimal v l -> getLongLongFromObject (Some (Raw l)) = Some (Some v).
Proof.
  intros Hv (ds & [Hds Hh] & Hval & ->). unfold srange in Hv. change (64 - 1) with 63 in Hv.
  assert (exists x ds', ds = x :: ds' /\ c_zero <= x <= 57) as (x & ds' & -> & Hx).
  { destruct Hh as [->|(x & ds' & -> & _)]; [by exists c_zero, []|]. apply Forall_cons in Hds as [? _]. eauto. }
  assert (scan_digits 0 (x :: ds') = (Z.abs v, [])) as Hscan by (rewrite scan_digits_spec by done; by rewrite <- Hval).
  assert (Forall (fun y => y <> 0) (x :: ds')) as Hnz by (eapply Forall_impl; [exact Hds|]; intros; simpl in *; lia).
  assert (is_digit x = true) as Hdig by (by apply bool_decide_eq_true_2).
  assert (isspace x = false) as Hsp by (apply bool_decide_eq_false_2; lia).
  unfold getLongLongFromObject, strtoll. case_bool_decide as Hneg.
  - rewrite c_str_digits by (constructor; [lia|done]).
    cbn -[isspace is_digit scan_digits bool_decide Z.sub Z.pow Z.opp].
    assert (isspace c_minus = false) as -> by done.
    rewrite bool_decide_eq_true_2 by done. rewrite Hdig, Hscan.
    rewrite Z.abs_neq, Z.opp_involutive by lia. unfold LLONG_MIN, LLONG_MAX.
    rewrite !bool_decide_eq_false_2 by lia. done.
  - rewrite c_str_digits by done. cbn -[isspace is_digit scan_digits bool_decide Z.sub Z.pow Z.opp]. rewrite Hsp.
    rewrite !(bool_decide_eq_false_2 (x = _)) by lia. rewrite Hdig, Hscan.
    rewrite Z.abs_eq by lia. unfold LLONG_MIN, LLONG_MAX. by rewrite !bool_decide_eq_false_2 by lia.
Qed.

(** The value of a key as a number: a missing key counts as 0. *)
Definition holds_number (o : option robj) (v : Z) : Prop :=
  match o with
  | None => v = 0
  | Some (IntObj i) => v = i
  | Some (Raw l) => decimal v l
  | Some (Other _ _) => False
  end.

Lemma holds_number_get o v : srange 64 v -> holds_number o v -> getLongLongFromObject o = Some (Some v).
Proof. intros Hv. destruct o as [[l|i|]|]; simpl; try done; [by apply number_decimal|by intros ->|by intros ->]. Qed.

(** ** Results of commands *)

(** From [s] to [s'] the client [c] got [replies], the databases became [dbs],
    and [n] changes were counted. *)
Definition outcome (c : client_id) (replies : list redis_reply) (dbs : list redisDb) (n : Z) (s s' : server) : Prop :=
  s_db s' = dbs /\ s_dirty s' = s_dirty s + n /\
  exists cl cl', s_clients s !! c = Some cl /\ s_clients s' !! c = Some cl' /\ c_reply cl' = c_reply cl ++ replies.

(** The client [c] runs a command with arguments [av] in database [d], where
    [k] does not expire meanwhile. *)
Record runs (clock : nat -> Z) (c : client_id) (av : list bytes) (d : nat) (db : redisDb) (k : bytes) (s : server) : Prop := {
  runs_client : exists cl, s_clients s !! c = Some cl /\ c_db cl = d /\ c_argv cl = av;
  runs_db : s_db s !! d = Some db;
  runs_key : remains clock (s_conf s) db k;
}.

Lemma runs_at clock c av d db k s :
  runs clock c av d db k s -> exists reply, at_state (s_conf s) c d av (s_db s) reply (s_dirty s) s /\
    forall replies dbs n s', at_state (s_conf s) c d av dbs (reply ++ replies) (s_dirty s + n) s' -> outcome c replies dbs n s s'.
Proof.
  intros [(cl & Hc & Hd & Hav) Hdb Hk]. exists (c_reply cl). split.
  - constructor; [done| |done|done]. by exists cl.
  - intros replies dbs n s' [Hdbs (cl' & Hc' & _ & _ & Hr) Hn _]. split_and!; [done|done|]. by exists cl, cl'.
Qed.

Lemma wp_exists {A} (m : M A) (Q : server -> Prop) s :
  wp m (fun _ => Q) s -> exists x s', m s = Some (x, s') /\ Q s'.
Proof. intros H. destruct (wp_total _ _ _ H) as (x & s' & Hm & HQ). eauto. Qed.

Lemma incr_overflows_spec v incr :
  srange 64 v -> srange 64 incr -> incr_overflows v incr = negb (bool_decide (srange 64 (v + incr))).
Proof.
  unfold incr_overflows, srange, LLONG_MIN, LLONG_MAX. change (64 - 1) with 63. intros Hv Hi.
  rewrite <- bool_decide_not. apply bool_decide_ext. lia.
Qed.

(** Adding [incr] to the number [v] under the key [k]. *)
Definition counted (c : client_id) (d : nat) (k : bytes) (v incr : Z) (s s' : server) : Prop :=
  if bool_decide (srange 64 (v + incr))
  then outcome c [ReplyInt (v + incr)] (write_key d k (IntObj (v + incr)) (s_db s)) 1 s s'
  else outcome c [ReplyError "increment or decrement would overflow"] (s_db s) 0 s s'.

Definition not_an_integer : redis_reply := ReplyError "value is not an integer or out of range".

(** What [incrDecrCommand] does to the value [o] of the key [k]: a number is
    what [getLongLongFromObject] reads. *)
Definition incremented (c : client_id) (d : nat) (k : bytes) (o : option robj) (incr : Z) (s s' : server) : Prop :=
  match o with
  | Some (Other _ _) => outcome c [wrongtypeerr] (s_db s) 0 s s'
  | _ => match mjoin (getLongLongFromObject o) with
         | Some v => counted c d k v incr s s'
         | None => outcome c [not_an_integer] (s_db s) 0 s s'
         end
  end.

(** An integer-encoded value is a [long]; strings are bytes or integers. *)
Definition value_ok (o : option robj) : Prop :=
  match o with Some (IntObj v) => srange 64 v | Some (Other t _) => t <> REDIS_STRING | _ => True end.

Lemma value_read_range o v : value_ok o -> getLongLongFromObject o = Some (Some v) -> srange 64 v.
Proof.
  destruct o as [[l|i|]|]; cbn [value_ok]; try done; [intros _; apply number_range|by intros Hi [= <-]|].
  intros _ [= <-]. by apply (bool_decide_unpack _).
Qed.

Lemma string_reads o : match o with Some (Other _ _) => False | _ => True end -> getLongLongFromObject o = Some (mjoin (getLongLongFromObject o)).
Proof. destruct o as [[l|i|]|]; try done. intros _. cbn. destruct (strtoll l) as [[v r] e]. by destruct (_ || _). Qed.

Lemma incrDecr_at clock c av d db k incr s :
  runs clock c av d db k s -> av !! 1%nat = Some k -> srange 64 incr -> value_ok (db_dict db !! k) ->
  exists s', incrDecrCommand clock c incr s = Some (tt, s') /\ incremented c d k (db_dict db !! k) incr s s'.
Proof.
  intros Hruns Hk Hincr Hval. destruct (runs_at _ _ _ _ _ _ _ Hruns) as (reply & Hs & Hout).
  destruct Hruns as [_ Hdb Hlive].
  edestruct (wp_exists (incrDecrCommand clock c incr) (incremented c d k (db_dict db !! k) incr s) s) as ([] & s' & Hrun & Hres); [|by exists s'].
  assert (forall r s', at_state (s_conf s) c d av (s_db s) (reply ++ [r]) (s_dirty s) s' -> outcome c [r] (s_db s) 0 s s') as Herr.
  { intros r s' Hs'. apply Hout. by rewrite Z.add_0_r. }
  unfold incrDecrCommand. apply wp_bind. eapply argv_at; [exact Hs|done|]. apply wp_bind.
  eapply current_db_at; [exact Hs|]. apply wp_bind. eapply lookupKeyWrite_at; [exact Hs|done|done|]. clear Hs. intros s1 Hs.
  apply wp_bind. eapply (wp_mono _ (fun w s2 => exists reply', at_state (s_conf s) c d av (s_db s) reply' (s_dirty s) s2 /\
    if w : bool then incremented c d k (db_dict db !! k) incr s s2 else s2 = s1 /\ match db_dict db !! k with Some (Other _ _) => False | _ => True end)).
  { destruct (db_dict db !! k) as [o|] eqn:Ho; [|by apply wp_ret; exists reply].
    eapply checkType_at; [exact Hs|]. destruct o as [l|i|ty p]; [by exists reply..|]. rewrite bool_decide_eq_false_2 by done.
    intros s2 Hs2. eexists. split; [exact Hs2|]. by apply Herr. }
  intros [] s2 (reply' & _ & H2); [by apply wp_ret|]. destruct H2 as [-> Hstr].
  assert (forall s', incremented c d k (db_dict db !! k) incr s s' <-> match mjoin (getLongLongFromObject (db_dict db !! k)) with
    | Some v => counted c d k v incr s s' | None => outcome c [not_an_integer] (s_db s) 0 s s' end) as Hinc.
  { intros s'. unfold incremented. by destruct (db_dict db !! k) as [[]|]. }
  apply wp_bind. eapply number_at; [exact Hs|by apply string_reads|].
  destruct (mjoin (getLongLongFromObject (db_dict db !! k))) as [v|] eqn:Hnum; [|intros s2 Hs2; apply wp_ret, Hinc; by apply Herr].
  assert (srange 64 v) as Hv by (apply (value_read_range (db_dict db !! k)); [done|]; rewrite string_reads by done; by rewrite Hnum).
  rewrite incr_overflows_spec by done. apply (wp_mono _ (fun _ => counted c d k v incr s)); [|intros _ s' Hs'; by apply Hinc]. unfold counted.
  destruct (bool_decide_reflect (srange 64 (v + incr))) as [Hr|Hr]; cbn [negb].
  - rewrite swrap_small by done. apply wp_bind. eapply store_at; [exact Hs|done|done|]. clear Hs.
    intros s2 Hs2. apply wp_bind. eapply signal_at; [|exact Hs2|].
    { unfold write_key. rewrite length_alter. by eapply lookup_lt_Some. }
    intros s3 Hs3. apply wp_bind. eapply notify_at; [exact Hs3|]. intros s4 Hs4.
    apply wp_bind. eapply add_dirty_at; [exact Hs4|]. intros s5 Hs5.
    eapply addReply_at; [exact Hs5|]. intros s6 Hs6. by apply Hout.
  - eapply addReply_at; [exact Hs|]. intros s5 Hs5. by apply Herr.
Qed.

Lemma incrby_number clock c d av db k x i s :
  runs clock c av d db k s -> av !! 2%nat = Some x -> srange 64 i -> decimal i x ->
  incrbyCommand clock c s = incrDecrCommand clock c i s /\
  decrbyCommand clock c s = incrDecrCommand clock c (swrap 64 (- i)) s.
Proof.
  intros [(cl & Hc & _ & Hav) _ _] Hx Hi Hd. unfold incrbyCommand, decrbyCommand, argv, client, mbind, M_bind, lift.
  rewrite Hc. simpl. rewrite Hav, Hx. simpl. unfold getLongLongFromObjectOrReply, mbind, M_bind, lift.
  by rewrite (number_decimal i x).
Qed.

Lemma incrby_at clock c av d db k x s :
  runs clock c av d db k s -> av !! 1%nat = Some k -> av !! 2%nat = Some x -> value_ok (db_dict db !! k) ->
  exists s', incrbyCommand clock c s = Some (tt, s') /\
    match number x with Some i => incremented c d k (db_dict db !! k) i s s' | None => outcome c [not_an_integer] (s_db s) 0 s s' end.
Proof.
  intros Hruns Hk Hx Hval. pose proof (string_reads (Some (Raw x)) I) as Hread. fold (number x) in Hread.
  destruct (runs_at _ _ _ _ _ _ _ Hruns) as (reply & Hs & Hout). destruct (number x) as [i|] eqn:Hi.
  - destruct (incrDecr_at clock c av d db k i s Hruns Hk) as (s' & Hrun & Hres); [by apply (number_range x)|done|].
    exists s'. split; [|done]. rewrite <- Hrun. unfold incrbyCommand, argv, client, mbind, M_bind, lift.
    destruct (at_client _ _ _ _ _ _ _ _ Hs) as (cl & Hc & _ & Hav & _). rewrite Hc. simpl. rewrite Hav, Hx. simpl.
    unfold getLongLongFromObjectOrReply, mbind, M_bind, lift. by rewrite Hread.
  - edestruct (wp_exists (incrbyCommand clock c) (outcome c [not_an_integer] (s_db s) 0 s) s) as ([] & s' & Hrun & Hres); [|by exists s'].
    apply wp_bind. eapply argv_at; [exact Hs|done|]. apply wp_bind. eapply number_at; [exact Hs|exact Hread|].
    intros s' Hs'. apply wp_ret, Hout. by rewrite Z.add_0_r.
Qed.

(** C16: INCR, DECR and INCRBY on every branch.  The key, which may be missing
    or have an expire that is not reached, holds a value of another type: the
    reply is an error; it holds a string in which [strtoll] does not read a
    64-bit integer up to a NUL or its end, or the argument of INCRBY is such a
    string: the reply is an error; it holds a number, 0 when it is missing: the
    sum is stored and replied when it is a 64-bit integer, and the reply is an
    error otherwise.  An error changes nothing.  The decimal notation of every
    64-bit integer is read as that integer; [incr_accepts_non_numbers] shows
    what else is read. *)
Theorem incr_exact clock c av d db k s :
  runs clock c av d db k s -> av !! 1%nat = Some k -> value_ok (db_dict db !! k) ->
  (exists s', incrCommand clock c s = Some (tt, s') /\ incremented c d k (db_dict db !! k) 1 s s') /\
  (exists s', decrCommand clock c s = Some (tt, s') /\ incremented c d k (db_dict db !! k) (-1) s s') /\
  (forall x, av !! 2%nat = Some x -> exists s', incrbyCommand clock c s = Some (tt, s') /\
     match number x with Some i => incremented c d k (db_dict db !! k) i s s' | None => outcome c [not_an_integer] (s_db s) 0 s s' end) /\
  (forall v l, srange 64 v -> decimal v l -> number l = Some v).
Proof.
  intros Hruns Hk Hval. split_and!.
  - by apply (incrDecr_at clock c av d db).
  - by apply (incrDecr_at clock c av d db).
  - intros x Hx. by apply (incrby_at clock c av d db k x s).
  - intros v l Hv Hl. unfold number. by rewrite (number_decimal v l Hv Hl).
Qed.

Lemma incr_exact_witness :
  let s := Server [RedisDb {[str "k" := Raw (str "41")]} {[str "k" := 5000]} ∅]
             {[0%nat := RClient 0 0 [str "INCRBY"; str "k"; str "7"] [] [] []]} 0 0 (0, 0, 0) [] []
             (Config false false None 0) in
  (exists s', incrCommand steady_clock 0 s = Some (tt, s') /\ incremented 0 0 (str "k") (Some (Raw (str "41"))) 1 s s') /\
  (exists s', decrCommand steady_clock 0 s = Some (tt, s') /\ incremented 0 0 (str "k") (Some (Raw (str "41"))) (-1) s s') /\
  (forall x, [str "INCRBY"; str "k"; str "7"] !! 2%nat = Some x -> exists s', incrbyCommand steady_clock 0 s = Some (tt, s') /\
     match number x with Some i => incremented 0 0 (str "k") (Some (Raw (str "41"))) i s s' | None => outcome 0 [not_an_integer] (s_db s) 0 s s' end) /\
  (forall v l, srange 64 v -> decimal v l -> number l = Some v).
Proof.
  intros s. refine (incr_exact steady_clock 0 [str "INCRBY"; str "k"; str "7"] 0 (RedisDb {[str "k" := Raw (str "41")]} {[str "k" := 5000]} ∅)
    (str "k") s _ _ _).
  - split; [by eexists|done|]. intros t Ht. cbn [db_expires] in Ht.
    apply lookup_singleton_Some in Ht as [_ <-]. split; [by eexists|]. do 3 right. intros i. unfold steady_clock. simpl. lia.
  - done.
  - done.
Defined.

(** *** SET and GET *)

Lemma tryObjectEncoding_bytes v : getDecodedObject (tryObjectEncoding v) = Some v /\ type_of (tryObjectEncoding v) = REDIS_STRING.
Proof.
  unfold tryObjectEncoding. case_bool_decide; [done|]. destruct (string2l v) as [n|] eqn:Hn; [|done].
  split; [|done]. simpl. unfold string2l in Hn. destruct (string2ll v) as [m|] eqn:Hm; simpl in Hn; [|done].
  case_bool_decide; simplify_eq. apply string2ll_decimal in Hm as [Hr Hd]. by apply ll2string_decimal.
Qed.

(** The value replaces what the key held, and its expire. *)
Definition set_key (d : nat) (k : bytes) (o : robj) (dbs : list redisDb) : list redisDb :=
  alter (fun db => set_expires (delete k) (set_dict (<[k := o]>) db)) d dbs.

Section SetGet.
Context (clock : nat -> Z) (conf : config) (c : client_id) (d : nat).

Lemma setKey_at av k o db Q dbs reply n s :
  at_state conf c d av dbs reply n s -> dbs !! d = Some db -> remains clock conf db k ->
  (forall s', at_state conf c d av (set_key d k o dbs) reply n s' -> Q tt s') -> wp (setKey clock d k o) Q s.
Proof.
  intros Hs Hl He HQ. unfold setKey. apply wp_bind. eapply lookupKeyWrite_at; [exact Hs|done|done|]. clear s Hs. intros s Hs.
  apply wp_bind. eapply store_at; [exact Hs|done|done|]. clear s Hs. intros s Hs.
  assert (write_key d k o dbs !! d = Some (set_dict (<[k := o]>) db)) as Hl'.
  { unfold write_key. by rewrite list_lookup_alter_eq, Hl. }
  apply wp_bind. unfold removeExpire. apply wp_bind, (wp_database _ (set_dict (<[k := o]>) db)).
  { by destruct Hs as [-> _ _ _]. }
  apply wp_bind, wp_assert; [apply bool_decide_eq_true; simpl; by rewrite lookup_insert_eq|]. apply wp_bind, wp_modify, wp_ret.
  eapply (signal_at conf c d av k Q (set_key d k o dbs) reply n); [|destruct Hs as [Hdb Hc Hn Hcf]; constructor|exact HQ].
  - unfold set_key. rewrite length_alter. by eapply lookup_lt_Some.
  - simpl. rewrite Hdb. unfold set_key, write_key. apply list_eq. intros i. destruct (decide (i = d)) as [->|Hne];
      [by rewrite !list_lookup_alter_eq, Hl|by rewrite !list_lookup_alter_ne].
  - done.
  - done.
  - done.
Qed.

Lemma setCommand_at a0 k v db Q dbs reply n s :
  at_state conf c d [a0; k; v] dbs reply n s -> dbs !! d = Some db -> remains clock conf db k ->
  (forall s', at_state conf c d [a0; k; v] (set_key d k (tryObjectEncoding v) dbs) (reply ++ [ReplyOk]) (n + 1) s' -> Q tt s') ->
  wp (setCommand clock c) Q s.
Proof.
  intros Hs Hl He HQ. unfold setCommand. apply wp_bind. eapply client_at; [exact Hs|]. intros cl Hav _.
  rewrite Hav. cbn [drop parse_set_options]. apply wp_bind. eapply argv_at; [exact Hs|done|].
  apply wp_bind. eapply argv_at; [exact Hs|done|]. unfold setGenericCommand, parse_expire, set_aborted.
  apply wp_bind, wp_ret, wp_bind. eapply current_db_at; [exact Hs|]. cbn [set_nx set_xx].
  apply wp_bind, wp_bind, wp_ret, wp_ret, wp_bind.
  eapply setKey_at; [exact Hs|done|done|]. clear s Hs. intros s Hs.
  apply wp_bind. eapply add_dirty_at; [exact Hs|]. clear s Hs. intros s Hs.
  apply wp_bind, wp_ret, wp_bind. eapply notify_at; [exact Hs|]. clear s Hs. intros s Hs.
  apply wp_bind, wp_ret. eapply addReply_at; [exact Hs|]. exact HQ.
Qed.

Lemma getCommand_at a0 k b o db Q dbs reply n s :
  at_state conf c d [a0; k] dbs reply n s -> dbs !! d = Some db -> remains clock conf db k ->
  db_dict db !! k = Some o -> type_of o = REDIS_STRING -> getDecodedObject o = Some b ->
  (forall s', at_state conf c d [a0; k] dbs (reply ++ [ReplyBulk b]) n s' -> Q tt s') ->
  wp (getCommand clock c) Q s.
Proof.
  intros Hs Hl He Ho Ht Hb HQ. unfold getCommand, getGenericCommand, lookupKeyReadOrReply. apply wp_bind, wp_bind.
  eapply argv_at; [exact Hs|done|]. apply wp_bind. eapply current_db_at; [exact Hs|]. apply wp_bind, wp_bind.
  eapply lookupKeyRead_at; [exact Hs|done|done|]. clear s Hs. intros s Hs. rewrite Ho. apply wp_ret, wp_bind.
  eapply checkType_at; [exact Hs|]. rewrite Ht. cbv beta iota. rewrite bool_decide_eq_true_2 by done.
  apply wp_bind, wp_bind. eapply wp_lift; [done|]. eapply addReply_at; [exact Hs|]. clear s Hs. intros s Hs.
  by apply wp_ret, wp_ret, HQ.
Qed.

End SetGet.

(** C17: a value that is set is read back byte for byte, whether the server
    stores it as bytes or recognises a number in it, whatever the key held
    before; an expire that the key had, not reached yet, is removed. *)
Theorem set_get clock c a0 b0 k v d db s :
  runs clock c [a0; k; v] d db k s ->
  exists s', (setCommand clock c;; on_client c (set_c_argv [b0; k]);; getCommand clock c) s = Some (tt, s') /\
    outcome c [ReplyOk; ReplyBulk v] (set_key d k (tryObjectEncoding v) (s_db s)) 1 s s'.
Proof.
  intros Hruns. destruct (runs_at _ _ _ _ _ _ _ Hruns) as (reply & Hs & _).
  destruct Hruns as [(cl & Hc & Hd & Hav) Hdb Hlive].
  edestruct (wp_exists (setCommand clock c;; on_client c (set_c_argv [b0; k]);; getCommand clock c)
    (outcome c [ReplyOk; ReplyBulk v] (set_key d k (tryObjectEncoding v) (s_db s)) 1 s) s) as ([] & s' & Hrun & Hout);
    [|by exists s'].
  pose proof (at_client _ _ _ _ _ _ _ _ Hs) as (cl0 & Hc0 & _ & _ & Hreply). simplify_eq.
  apply wp_bind. eapply setCommand_at; [exact Hs|done|done|]. intros s1 [Hdb1 (cl1 & Hc1 & Hd1 & _ & Hr1) Hn1 Hcf1].
  apply wp_bind.
  assert (at_state (s_conf s) c (c_db cl) [b0; k] (set_key (c_db cl) k (tryObjectEncoding v) (s_db s)) (c_reply cl ++ [ReplyOk])
            (s_dirty s + 1) (set_clients (alter (set_c_argv [b0; k]) c (s_clients s1)) s1)) as Hs2.
  { constructor; [done| |done|done]. exists (set_c_argv [b0; k] cl1). simpl. by rewrite lookup_alter_eq, Hc1. }
  apply (getCommand_at clock (s_conf s) c (c_db cl) b0 k v (tryObjectEncoding v) (set_expires (delete k) (set_dict (<[k := tryObjectEncoding v]>) db)) _
    _ _ _ _ Hs2).
  - unfold set_key. by rewrite list_lookup_alter_eq, Hdb.
  - apply remains_none. simpl. apply lookup_delete_eq.
  - simpl. apply lookup_insert_eq.
  - apply tryObjectEncoding_bytes.
  - apply tryObjectEncoding_bytes.
  - intros s3 [Hdb3 (cl3 & Hc3 & _ & _ & Hr3) Hn3 _]. split_and!; [done|done|].
    exists cl, cl3. split_and!; [done|done|]. by rewrite Hr3, <- app_assoc.
Qed.

Lemma set_get_witness :
  let s := after_requests sample_clock [(0%nat, None, [str "set"; str "k"; str "-12"])] sample in
  exists s', (setCommand sample_clock 0;; on_client 0 (set_c_argv [str "get"; str "k"]);; getCommand sample_clock 0) s
      = Some (tt, s') /\
    outcome 0 [ReplyOk; ReplyBulk (str "-12")] (set_key 0 (str "k") (IntObj (-12)) (s_db s)) 1 s s'.
Proof.
  apply (set_get sample_clock 0 (str "set") (str "get") (str "k") (str "-12") 0 (RedisDb ∅ ∅ ∅)).
  split; [by eexists|done|done].
Defined.

(** *** GETRANGE *)

(** Bytes [i] to [j] of [b], both included, negative indices counted from the
    end. *)
Definition index_from (n i : Z) : Z := Z.max 0 (if bool_decide (i < 0) then n + i else i).
Definition slice (b : bytes) (i j : Z) : bytes :=
  let i := Z.to_nat (index_from (zlen b) i) in
  take (S (Z.to_nat (index_from (zlen b) j)) - i) (drop i b).

Lemma getrange_bounds_slice b i j i' j' :
  zlen b <= sds_max -> srange 64 i -> srange 64 j -> j < 2 ^ 32 -> getrange_bounds (zlen b) i j = (i', j') ->
  if bool_decide (i' > j') then slice b i j = [] else read_bytes b i' (j' - i' + 1) = Some (slice b i j).
Proof.
  intros Hb Hi Hj Hlt. unfold getrange_bounds, slice, srange, sds_max, index_from in *. change (64 - 1) with 63 in *.
  rewrite !swrap_uwrap by done.
  rewrite (swrap_small 64 (zlen b - 1)) by (unfold srange; change (64 - 1) with 63; lia).
  assert (forall x, x < 0 -> - 2 ^ 63 <= x -> swrap 64 (zlen b + x) = zlen b + x) as Hsw.
  { intros. apply swrap_small; [done|]. unfold srange. change (64 - 1) with 63. lia. }
  set (i1 := if bool_decide (i < 0) then swrap 64 (zlen b + i) else i).
  set (j1 := if bool_decide (j < 0) then swrap 64 (zlen b + j) else j).
  assert (i1 = if bool_decide (i < 0) then zlen b + i else i) as <- by (unfold i1; case_bool_decide; [apply Hsw; lia|done]).
  assert (j1 = if bool_decide (j < 0) then zlen b + j else j) as <- by (unfold j1; case_bool_decide; [apply Hsw; lia|done]).
  assert (j1 < 2 ^ 32) as Hj1.
  { unfold j1. case_bool_decide; [rewrite Hsw by lia; lia|lia]. }
  set (i2 := if bool_decide (i1 < 0) then 0 else i1). set (j2 := if bool_decide (j1 < 0) then 0 else j1).
  assert (i2 = Z.max 0 i1) as Hi2 by (unfold i2; case_bool_decide; lia).
  assert (j2 = Z.max 0 j1) as Hj2 by (unfold j2; case_bool_decide; lia).
  rewrite <- Hi2, <- Hj2. assert (0 <= j2 < 2 ^ 32) as Hj2r by lia.
  rewrite (uwrap_small 32 j2) by done. clearbody i1 j1 i2 j2. intros [= <- <-].
  destruct (bool_decide_reflect (j2 >= zlen b)) as [Hge|Hge].
  - case_bool_decide as Hgt.
    + apply nil_length_inv. rewrite length_take, length_drop. lia.
    + unfold read_bytes. rewrite bool_decide_eq_false_2 by lia. f_equal. unfold mem_read.
      rewrite !take_ge; [done|rewrite length_drop; lia..].
  - case_bool_decide as Hgt.
    + apply nil_length_inv. rewrite length_take, length_drop. lia.
    + unfold read_bytes. rewrite bool_decide_eq_false_2 by lia. f_equal. unfold mem_read. f_equal. lia.
Qed.

(** C18: GETRANGE replies exactly the bytes between the two indices, negative
    ones counted from the end and both clamped to the string, for every end
    below 2^32. *)
Theorem getrange_slice clock c a0 k x y i j d db b o s :
  runs clock c [a0; k; x; y] d db k s -> srange 64 i -> srange 64 j -> decimal i x -> decimal j y -> j < 2 ^ 32 ->
  db_dict db !! k = Some o -> type_of o = REDIS_STRING -> getDecodedObject o = Some b -> zlen b <= sds_max ->
  exists s' r, getrangeCommand clock c s = Some (tt, s') /\ outcome c [r] (s_db s) 0 s s' /\
    (r = ReplyBulk (slice b i j) \/ r = ReplyEmptyBulk /\ slice b i j = []).
Proof.
  intros Hruns Hi Hj Hx Hy Hlt Ho Ht Hb Hlen. destruct (runs_at _ _ _ _ _ _ _ Hruns) as (reply & Hs & Hout).
  destruct Hruns as [_ Hdb Hlive].
  edestruct (wp_exists (getrangeCommand clock c) (fun s' => exists r, outcome c [r] (s_db s) 0 s s' /\
    (r = ReplyBulk (slice b i j) \/ r = ReplyEmptyBulk /\ slice b i j = [])) s) as ([] & s' & Hrun & r & Hr & Heq);
    [|by exists s', r].
  specialize (Hout [ReplyBulk (slice b i j)] (s_db s) 0) as Hout1.
  specialize (Hout [ReplyEmptyBulk] (s_db s) 0) as Hout2. rewrite Z.add_0_r in Hout1, Hout2.
  unfold getrangeCommand, lookupKeyReadOrReply. apply wp_bind. eapply argv_at; [exact Hs|done|].
  apply wp_bind. eapply argv_at; [exact Hs|done|]. apply wp_bind. eapply argv_at; [exact Hs|done|].
  apply wp_bind. eapply current_db_at; [exact Hs|]. apply wp_bind.
  eapply number_at; [exact Hs|exact (number_decimal i x Hi Hx)|].
  cbv beta iota. apply wp_bind. eapply number_at; [exact Hs|exact (number_decimal j y Hj Hy)|]. cbv beta iota.
  apply wp_bind, wp_bind. eapply lookupKeyRead_at; [exact Hs|done|done|]. intros s1 Hs1. rewrite Ho.
  apply wp_ret, wp_bind. eapply checkType_at; [exact Hs1|]. rewrite bool_decide_eq_true_2 by done. cbv beta iota.
  apply wp_bind. eapply wp_lift; [done|].
  destruct (getrange_bounds (zlen b) i j) as [i' j'] eqn:Hbd.
  pose proof (getrange_bounds_slice b i j i' j' Hlen Hi Hj Hlt Hbd) as Hsl.
  destruct (bool_decide (i' > j')).
  - eapply addReply_at; [exact Hs1|]. intros s2 Hs2. exists ReplyEmptyBulk. split; [by apply Hout2|by right].
  - apply wp_bind. eapply wp_lift; [done|]. eapply addReply_at; [exact Hs1|]. intros s2 Hs2.
    eexists. split; [by apply Hout1|by left].
Qed.

Definition getrange_sample : server :=
  after_requests sample_clock [(0%nat, Some CmdSet, [str "set"; str "k"; str "hello world"]);
                               (0%nat, None, [str "getrange"; str "k"; str "-5"; str "99"])] sample.

Lemma getrange_slice_witness :
  exists s' r, getrangeCommand sample_clock 0 getrange_sample = Some (tt, s') /\
    outcome 0 [r] (s_db getrange_sample) 0 getrange_sample s' /\
    (r = ReplyBulk (str "world") \/ r = ReplyEmptyBulk /\ str "world" = []).
Proof.
  apply (getrange_slice sample_clock 0 (str "getrange") (str "k") (str "-5") (str "99") (-5) 99 0
    (RedisDb {[str "k" := Raw (str "hello world")]} ∅ ∅) (str "hello world") (Raw (str "hello world")));
    try (apply (bool_decide_unpack _); vm_compute; exact I); try reflexivity.
  - split; [eexists; split; [vm_compute; reflexivity|done]|reflexivity|by apply remains_none].
  - exists (str "5"). split_and!; [|done|done].
    split; [apply (bool_decide_unpack _); vm_compute; exact I|right; by eexists _, _].
  - exists (str "99"). split_and!; [|done|done].
    split; [apply (bool_decide_unpack _); vm_compute; exact I|right; by eexists _, _].
Defined.

(** *** Where the arithmetic goes wrong *)

(** DECRBY of the least 64-bit integer.  The
    negation overflows back to the same number, so decrementing 0 by -2^63
    stores -2^63, although the exact result is 2^63 and the overflow of the
    symmetric INCRBY is refused. *)
Theorem decrby_min_wraps clock c a0 k x d db s :
  runs clock c [a0; k; x] d db k s -> decimal LLONG_MIN x -> db_dict db !! k = None ->
  exists s', decrbyCommand clock c s = Some (tt, s') /\
    outcome c [ReplyInt LLONG_MIN] (write_key d k (IntObj LLONG_MIN) (s_db s)) 1 s s'.
Proof.
  intros Hruns Hx Hk. destruct (incrby_number clock c d _ db k x LLONG_MIN s Hruns) as [_ ->]; [done| |done|].
  { by apply (bool_decide_unpack _). }
  destruct (incrDecr_at clock c _ d db k (swrap 64 (- LLONG_MIN)) s Hruns) as (s' & Hrun & Hout); [done|by apply swrap_range|by rewrite Hk|].
  rewrite Hk in Hout. by exists s'.
Qed.

Lemma decrby_min_wraps_witness :
  let s := after_requests sample_clock [(0%nat, None, [str "decrby"; str "k"; str "-9223372036854775808"])] sample in
  exists s', decrbyCommand sample_clock 0 s = Some (tt, s') /\
    outcome 0 [ReplyInt LLONG_MIN] (write_key 0 (str "k") (IntObj LLONG_MIN) (s_db s)) 1 s s'.
Proof.
  apply (decrby_min_wraps sample_clock 0 (str "decrby") (str "k") (str "-9223372036854775808") 0 (RedisDb ∅ ∅ ∅)).
  - split; [by eexists|done|done].
  - exists (str "9223372036854775808"). split_and!; [|done|done].
    split; [apply (bool_decide_unpack _); vm_compute; exact I|right; by eexists _, _].
  - done.
Defined.

(** *** Numbers that are not numbers *)

(** [getLongLongFromObject] looks for the end of
    the number with [strtoll], which stops at a NUL byte and accepts the empty
    string, so INCR succeeds on a value that is no decimal integer: the empty
    string counts as 0, and the bytes after a NUL are thrown away. *)
Theorem incr_accepts_non_numbers clock c av d db k l r s :
  runs clock c av d db k s -> av !! 1%nat = Some k -> (l = [] \/ exists v, srange 64 v /\ decimal v l) ->
  db_dict db !! k = Some (Raw (l ++ 0 :: r)) -> (forall v, ~ decimal v (l ++ 0 :: r)) /\
  exists v s', getLongLongFromObject (db_dict db !! k) = Some (Some v) /\
    incrCommand clock c s = Some (tt, s') /\ counted c d k v 1 s s'.
Proof.
  intros Hruns Hk Hl Ho. split.
  { intros v (ds & [Hds _] & _ & Heq). assert (0 ∈ l ++ 0 :: r) as Hin by (apply elem_of_app; right; by left).
    rewrite Heq in Hin. rewrite Forall_forall in Hds. case_bool_decide; [apply elem_of_cons in Hin as [|Hin]; [done|]|];
      specialize (Hds _ Hin); simpl in Hds; lia. }
  assert (exists v, srange 64 v /\ getLongLongFromObject (Some (Raw (l ++ 0 :: r))) = Some (Some v)) as (v & Hv & Hnum).
  { destruct Hl as [->|(v & Hv & Hd)]; [exists 0; split; [by apply (bool_decide_unpack _)|done]|].
    exists v. split; [done|]. rewrite <- (number_decimal v l Hv Hd). unfold getLongLongFromObject, strtoll.
    rewrite c_str_app. destruct l; [|done]. destruct Hd as (ds & [_ Hh] & _ & Heq).
    case_bool_decide; [done|]. destruct Hh as [->|(? & ? & -> & _)]; done. }
  exists v. rewrite Ho. destruct (incrDecr_at clock c av d db k 1 s Hruns Hk) as (s' & Hrun & Hc); [done|by rewrite Ho|].
  exists s'. split; [done|]. split; [done|]. rewrite Ho in Hc. unfold incremented in Hc. by rewrite Hnum in Hc.
Qed.

Lemma incr_accepts_non_numbers_witness :
  let db := RedisDb {[str "k" := Raw [49; 50; 0; 97]]} ∅ ∅ in
  let s := Server [db] {[0%nat := RClient 0 0 [str "INCR"; str "k"] [] [] []]} 0 0 (0, 0, 0) [] []
             (Config false false None 0) in
  (forall v, ~ decimal v ([49; 50] ++ 0 :: [97])) /\
  exists v s', getLongLongFromObject (db_dict db !! str "k") = Some (Some v) /\
    incrCommand sample_clock 0 s = Some (tt, s') /\ counted 0 0 (str "k") v 1 s s'.
Proof.
  apply (incr_accepts_non_numbers sample_clock 0 [str "INCR"; str "k"] 0
    (RedisDb {[str "k" := Raw [49; 50; 0; 97]]} ∅ ∅) (str "k") [49; 50] [97]).
  - split; [by eexists|done|done].
  - done.
  - right. exists 12. split; [by apply (bool_decide_unpack _)|]. exists [49; 50]. split_and!; [|done|done].
    split; [apply (bool_decide_unpack _); vm_compute; exact I|right; by eexists _, _].
  - reflexivity.
Defined.

(** *** Expiration *)

(** The time against which a key is checked. *)
Definition lookup_time (clock : nat -> Z) (s : server) : Z :=
  match lua_time (s_conf s) with Some t => t | None => clock (s_ticks s) end.

(** The key is deleted by the lookup. *)
Definition gone (clock : nat -> Z) (d : nat) (k : bytes) (s : server) : bool :=
  match expire_of s d k with
  | Some t => bool_decide (0 <= t) && negb (loading (s_conf s)) && negb (masterhost (s_conf s)) &&
              bool_decide (t < lookup_time clock s)
  | None => false
  end.

(** The result of looking up [k], whose database was [db] in [s]. *)
Definition looked_up (clock : nat -> Z) (d : nat) (k : bytes) (db : redisDb) (s : server)
    (x : option robj) (s' : server) : Prop :=
  if gone clock d k s
  then x = None /\
       s_db s' = alter (fun db => set_dict (delete k) (set_expires (delete k) db)) d (s_db s) /\
       s_propagated s' = s_propagated s ++ [(d, [[68; 69; 76]; k], Z.lor REDIS_PROPAGATE_AOF REDIS_PROPAGATE_REPL)] /\
       s_events s' = s_events s ++ [(NOTIFY_EXPIRED, "expired"%string, k, d)]
  else x = db_dict db !! k /\ s_db s' = s_db s /\ s_propagated s' = s_propagated s /\ s_events s' = s_events s.

(** C19: a lookup sees a key exactly until its time has passed.  On a master
    that is not loading, a key whose expire is before the current time (the
    time the script began, inside a script) is removed with its expire, its DEL
    is propagated, the "expired" event is sent, and the lookup finds nothing;
    in every other case, a slave, a loading server or a negative expire
    included, the lookup returns the value and the data stay as they are. *)
Theorem lookup_expires clock d k db s :
  server_inv s -> s_db s !! d = Some db ->
  exists x s', lookupKeyWrite clock d k s = Some (x, s') /\ looked_up clock d k db s x s'.
Proof.
  intros Hi Hdb. apply (wp_total _ (looked_up clock d k db s)).
  assert (forall s1, s_db s1 = s_db s -> s_propagated s1 = s_propagated s -> s_events s1 = s_events s ->
    gone clock d k s = false -> wp (lookupKey d k) (looked_up clock d k db s) s1) as Hkeep.
  { intros s1 H1 H2 H3 Hg. apply wp_bind, (wp_database _ db); [by rewrite H1|]. apply wp_ret.
    unfold looked_up. by rewrite Hg. }
  assert (gone clock d k s = match db_expires db !! k with
    | Some t => bool_decide (0 <= t) && negb (loading (s_conf s)) && negb (masterhost (s_conf s)) &&
                bool_decide (t < lookup_time clock s)
    | None => false end) as Hgone by (unfold gone, expire_of; by rewrite Hdb).
  unfold lookupKeyWrite, expireIfNeeded, getExpire. do 3 apply wp_bind. apply (wp_database _ db); [done|].
  destruct (db_expires db !! k) as [t|] eqn:He; [|by apply wp_ret, wp_ret, Hkeep].
  apply wp_bind, wp_assert.
  { apply bool_decide_eq_true, (inv_expires _ Hi _ _ _ Hdb). by rewrite He. }
  apply wp_ret. test; [apply wp_ret, Hkeep; try done; rewrite Hgone, bool_decide_eq_false_2 by lia; done|].
  rewrite (bool_decide_eq_true_2 (0 <= t)) in Hgone by lia. apply wp_bind, wp_gets.
  destruct (loading (s_conf s)); [by apply wp_ret, Hkeep|]. apply wp_bind.
  apply (wp_mono _ (fun now s1 => now = lookup_time clock s /\ s_db s1 = s_db s /\ s_propagated s1 = s_propagated s /\
                                  s_events s1 = s_events s)).
  { unfold lookup_time. by destruct (lua_time (s_conf s)). }
  intros now s1 (-> & H1 & H2 & H3). destruct (masterhost (s_conf s)); [by apply wp_ret, Hkeep|].
  test; [apply wp_ret, Hkeep; try done; rewrite Hgone, (bool_decide_eq_false_2 (t < _)) by lia; done|].
  rewrite (bool_decide_eq_true_2 (t < _)) in Hgone by lia. apply wp_bind, wp_modify, wp_bind, wp_modify, wp_bind, wp_modify.
  unfold dbDelete. apply wp_bind, (wp_database _ db); [by simpl; rewrite H1|]. apply wp_bind, wp_modify, wp_ret.
  apply wp_bind, (wp_database _ (set_dict (delete k) (set_expires (delete k) db))).
  { simpl. by rewrite H1, list_lookup_alter_eq, Hdb. }
  apply wp_ret. unfold looked_up. rewrite Hgone. simpl.
  by rewrite lookup_delete_eq, H1, H2, H3.
Qed.

Lemma lookup_expires_witness :
  let s := after_requests sample_clock [(0%nat, Some CmdSetex, [str "setex"; str "k"; str "1"; str "v"])] sample in
  let db := RedisDb {[str "k" := Raw (str "v")]} {[str "k" := 2000]} ∅ in
  exists x s', lookupKeyWrite (fun _ => 2001) 0 (str "k") s = Some (x, s') /\
    looked_up (fun _ => 2001) 0 (str "k") db s x s'.
Proof.
  apply lookup_expires; [|reflexivity].
  apply (ok_inv any_command). apply after_requests_ok; [apply sample_ok|requests_tac].
Defined.

(** The seconds of SETEX are multiplied by 1000
    without a test, so an accepted expire can wrap to a negative time, and a
    negative time means that the key never expires. *)
Theorem setex_overflow_never_expires :
  exists s, server_ok any_command s /\
    run_requests sample_clock [(0%nat, Some CmdSetex, [str "setex"; str "k"; str "9223372036854776"; str "v"])] sample
      = Some (tt, s) /\
    (exists cl, s_clients s !! 0%nat = Some cl /\ c_reply cl = [ReplyOk]) /\
    exists t, expire_of s 0 (str "k") = Some t /\ t < 0 /\ forall clock, gone clock 0 (str "k") s = false.
Proof.
  destruct (after_requests_ok any_command sample_clock
    [(0%nat, Some CmdSetex, [str "setex"; str "k"; str "9223372036854776"; str "v"])] sample (sample_ok _))
    as [Hok Hrun]; [requests_tac|].
  eexists. split; [exact Hok|]. split; [exact Hrun|]. split.
  - eexists. split; [vm_compute; reflexivity|reflexivity].
  - eexists. split; [vm_compute; reflexivity|]. split; [done|]. intros clock. vm_compute. reflexivity.
Qed.
