(* ===== verification/Skiplist.v ===== *)
(** * Skip lists ([t_zset.c])

    The ordered index of a sorted set: nodes sorted by score, then by the bytes
    of the element, with several levels of forward pointers whose spans count
    the nodes they jump over.  Nodes live in a memory indexed by pointers; a
    result [None] stands for a failed assertion, the dereference of a pointer
    that is [NULL] or freed, or a loop out of fuel. *)
From S2P Require Import Prelude Util Sds SdsArgs Server.

(** ** Scores *)

(** [double]: a finite value is a multiple of 2^-1074, counted in that unit
    (the two zeros are equal for every operator used here). *)
Inductive double := Finite (v : Z) | Infinity (negative : bool) | NaN.

#[export] Instance double_dec : EqDecision double.
Proof. solve_decision. Defined.

(** The operators [<], [==] and [<=]; [>] and [>=] are these with the
    operands exchanged. *)
Definition dlt (x y : double) : bool :=
  match x, y with
  | Finite a, Finite b => bool_decide (a < b)
  | Infinity true, Finite _ | Finite _, Infinity false | Infinity true, Infinity false => true
  | _, _ => false
  end.
Definition deq (x y : double) : bool :=
  match x, y with
  | Finite a, Finite b => bool_decide (a = b)
  | Infinity a, Infinity b => Bool.eqb a b
  | _, _ => false
  end.
Definition dle (x y : double) : bool := dlt x y || deq x y.

(** ** String objects *)

Definition compareStringObjects (a b : robj) : option Z :=
  astr ← getDecodedObject a;
  bstr ← getDecodedObject b;
  let minlen := if bool_decide (zlen astr < zlen bstr) then zlen astr else zlen bstr in
  let cmp := memcmp (take (Z.to_nat minlen) astr) (take (Z.to_nat minlen) bstr) in
  Some (if bool_decide (cmp = 0) then swrap 32 (uwrap 64 (zlen astr - zlen bstr)) else cmp).

Definition equalStringObjects (a b : robj) : option bool :=
  match a, b with
  | IntObj x, IntObj y => Some (bool_decide (x = y))
  | _, _ => cmp ← compareStringObjects a b; Some (bool_decide (cmp = 0))
  end.

(** ** Nodes *)

Definition ZSKIPLIST_MAXLEVEL : nat := 32.

(** Addresses of nodes. *)
Abbreviation ptr := nat.

Record level := Level { forward : option ptr; span : Z }.
Record node := Node { score : double; obj : option robj; backward : option ptr; levels : list level }.
Abbreviation memory := (gmap ptr node).

Record zskiplist := Zskiplist {
  heap : memory; header : ptr; tail : option ptr; zsl_length : Z; zsl_level : nat }.

Definition set_heap (h : memory) (z : zskiplist) : zskiplist :=
  Zskiplist h (header z) (tail z) (zsl_length z) (zsl_level z).

(** [p->level[i]], read and written. *)
Definition level_of (h : memory) (p : ptr) (i : nat) : option level :=
  nd ← h !! p; levels nd !! i.
Definition set_level (p : ptr) (i : nat) (lv : level) (h : memory) : option memory :=
  nd ← h !! p;
  _ ← levels nd !! i;
  Some (<[p := Node (score nd) (obj nd) (backward nd) (<[i := lv]> (levels nd))]> h).
Definition set_backward (p : ptr) (b : option ptr) (h : memory) : option memory :=
  nd ← h !! p; Some (<[p := Node (score nd) (obj nd) b (levels nd)]> h).

(** [for] loops whose iterations can fail. *)
Fixpoint for_each {S} (body : nat -> S -> option S) (js : list nat) (s : S) : option S :=
  match js with
  | [] => Some s
  | j :: js => s ← body j s; for_each body js s
  end.

(** The [while] loop of every search: it goes forward on level [i] from [x] as
    long as [go] accepts the next node.  The spans jumped over are added to
    [traversed], an unsigned integer of [w] bits that some callers ignore and
    some tests of [go] read, as it would be after the jump. *)
Fixpoint walk (fuel : nat) (h : memory) (w : Z) (go : Z -> node -> option bool) (i : nat)
    (x : ptr) (traversed : Z) : option (ptr * Z) :=
  match fuel with
  | O => None
  | S fuel =>
      lv ← level_of h x i;
      match forward lv with
      | None => Some (x, traversed)
      | Some q =>
          nd ← h !! q;
          b ← go (uwrap w (traversed + span lv)) nd;
          if (b : bool) then walk fuel h w go i q (uwrap w (traversed + span lv))
          else Some (x, traversed)
      end
  end.

(** The [for] loop around it, from level [n - 1] down to 0: for each level the
    node where the search left it and the value of [traversed] there
    ([update[i]] and [rank[i]]), and the last ones. *)
Fixpoint descend (n : nat) (h : memory) (w : Z) (go : Z -> node -> option bool)
    (x : ptr) (traversed : Z) : option (list (ptr * Z) * (ptr * Z)) :=
  match n with
  | O => Some ([], (x, traversed))
  | S i =>
      '(x, traversed) ← walk (S (size h)) h w go i x traversed;
      '(update, last) ← descend i h w go x traversed;
      Some (update ++ [(x, traversed)], last)
  end.

Definition search (z : zskiplist) (w : Z) (go : Z -> node -> option bool) :
    option (list (ptr * Z) * (ptr * Z)) :=
  descend (zsl_level z) (heap z) w go (header z) 0.

(** "x is before (score, obj)": the test of [zslInsert] and [zslDelete], and,
    with [equal], that of [zslGetRank]. *)
Definition before (equal : bool) (s : double) (o : robj) (_ : Z) (nd : node) : option bool :=
  if dlt (score nd) s then Some true
  else if deq (score nd) s then
    o' ← obj nd;
    cmp ← compareStringObjects o' o;
    Some (if equal then bool_decide (cmp <= 0) else bool_decide (cmp < 0))
  else Some false.

(** ** Creation, destruction, random levels *)

Section Skiplist.
(** The address [zmalloc] returns in a given memory, and what it contains. *)
Context (zmalloc : memory -> ptr) (junk : level).

Definition zslCreateNode (n : nat) (s : double) (o : option robj) (h : memory) : memory * ptr :=
  let zn := zmalloc h in
  (<[zn := Node s o (forward junk) (replicate n junk)]> h, zn).

Definition zslCreate (h : memory) : option zskiplist :=
  let '(h, header) := zslCreateNode ZSKIPLIST_MAXLEVEL (Finite 0) None h in
  h ← for_each (fun j => set_level header j (Level None 0)) (seq 0 ZSKIPLIST_MAXLEVEL) h;
  h ← set_backward header None h;
  Some (Zskiplist h header None 0 1).

Definition zslFreeNode (p : ptr) (h : memory) : memory := delete p h.

Fixpoint zslFree_loop (fuel : nat) (x : option ptr) (h : memory) : option memory :=
  match fuel, x with
  | _, None => Some h
  | O, Some _ => None
  | S fuel, Some p =>
      next ← level_of h p 0;
      zslFree_loop fuel (forward next) (zslFreeNode p h)
  end.

Definition zslFree (z : zskiplist) : option memory :=
  first ← level_of (heap z) (header z) 0;
  zslFree_loop (size (heap z)) (forward first) (delete (header z) (heap z)).

(** The argument is the sequence of the results of [random()];
    [ZSKIPLIST_P * 0xFFFF] is 16383.75. *)
Fixpoint random_level (level : nat) (randoms : list Z) : option (nat * list Z) :=
  match randoms with
  | [] => None
  | r :: randoms =>
      if bool_decide (4 * Z.land r 65535 < 65535) then random_level (S level) randoms
      else Some (level, randoms)
  end.

Definition zslRandomLevel (randoms : list Z) : option (nat * list Z) :=
  '(level, randoms) ← random_level 1 randoms;
  Some (if bool_decide (level < ZSKIPLIST_MAXLEVEL)%nat then level else ZSKIPLIST_MAXLEVEL, randoms).

(** ** Insertion *)

(** The levels above the current ones start at the header. *)
Definition raise_level (z : zskiplist) (level : nat) (update : list (ptr * Z)) :
    option (zskiplist * list (ptr * Z)) :=
  if bool_decide (zsl_level z < level)%nat then
    h ← for_each (fun i h => lv ← level_of h (header z) i;
                   set_level (header z) i (Level (forward lv) (uwrap 32 (zsl_length z))) h)
          (seq (zsl_level z) (level - zsl_level z)) (heap z);
    Some (Zskiplist h (header z) (tail z) (zsl_length z) level,
          update ++ replicate (level - zsl_level z) (header z, 0))
  else Some (z, update).

(** [x] becomes the successor of [update[i]] on level [i]. *)
Definition link_level (x : ptr) (update : list (ptr * Z)) (i : nat) (h : memory) : option memory :=
  '(_, rank0) ← update !! O;
  '(u, rank) ← update !! i;
  lv ← level_of h u i;
  h ← set_level x i (Level (forward lv) (uwrap 32 (span lv - uwrap 32 (rank0 - rank)))) h;
  set_level u i (Level (Some x) (uwrap 32 (uwrap 32 (rank0 - rank) + 1))) h.

(** "increment span for untouched levels" *)
Definition lengthen_level (update : list (ptr * Z)) (i : nat) (h : memory) : option memory :=
  '(u, _) ← update !! i;
  lv ← level_of h u i;
  set_level u i (Level (forward lv) (uwrap 32 (span lv + 1))) h.

(** The backward pointers around [x], and the tail. *)
Definition link_backward (z : zskiplist) (x : ptr) (update : list (ptr * Z)) (h : memory) :
    option (memory * option ptr) :=
  '(u, _) ← update !! O;
  h ← set_backward x (if bool_decide (u = header z) then None else Some u) h;
  lv ← level_of h x 0;
  match forward lv with
  | Some q => h ← set_backward q (Some x) h; Some (h, tail z)
  | None => Some (h, Some x)
  end.

Definition zslInsert (z : zskiplist) (randoms : list Z) (s : double) (o : robj) :
    option (zskiplist * ptr * list Z) :=
  if bool_decide (s = NaN) then None
  else
    '(update, _) ← search z 32 (before false s o);
    '(level, randoms) ← zslRandomLevel randoms;
    '(z, update) ← raise_level z level update;
    let '(h, x) := zslCreateNode level s (Some o) (heap z) in
    h ← for_each (link_level x update) (seq 0 level) h;
    h ← for_each (lengthen_level update) (seq level (zsl_level z - level)) h;
    '(h, tl) ← link_backward z x update h;
    Some (Zskiplist h (header z) tl (uwrap 64 (zsl_length z + 1)) (zsl_level z), x, randoms).

(** ** Deletion *)

Definition unlink_level (x : ptr) (update : list (ptr * Z)) (i : nat) (h : memory) : option memory :=
  '(u, _) ← update !! i;
  lv ← level_of h u i;
  if bool_decide (forward lv = Some x) then
    xl ← level_of h x i;
    set_level u i (Level (forward xl) (uwrap 32 (span lv + uwrap 32 (span xl - 1)))) h
  else set_level u i (Level (forward lv) (uwrap 32 (span lv - 1))) h.

(** "while(zsl->level > 1 && ...) zsl->level--" *)
Fixpoint lower_level (h : memory) (header : ptr) (level : nat) : option nat :=
  match level with
  | S ((S _) as below) =>
      lv ← level_of h header below;
      match forward lv with None => lower_level h header below | Some _ => Some level end
  | _ => Some level
  end.

(** The backward pointer behind [x], or the tail. *)
Definition unlink_backward (z : zskiplist) (x : ptr) (h : memory) : option (memory * option ptr) :=
  nd ← h !! x;
  lv ← level_of h x 0;
  match forward lv with
  | Some q => h ← set_backward q (backward nd) h; Some (h, tail z)
  | None => Some (h, backward nd)
  end.

Definition zslDeleteNode (z : zskiplist) (x : ptr) (update : list (ptr * Z)) : option zskiplist :=
  h ← for_each (unlink_level x update) (seq 0 (zsl_level z)) (heap z);
  '(h, tl) ← unlink_backward z x h;
  level ← lower_level h (header z) (zsl_level z);
  Some (Zskiplist h (header z) tl (uwrap 64 (zsl_length z - 1)) level).

Definition zslDelete (z : zskiplist) (s : double) (o : robj) : option (zskiplist * bool) :=
  '(update, (x, _)) ← search z 64 (before false s o);
  lv ← level_of (heap z) x 0;
  match forward lv with
  | None => Some (z, false)
  | Some x =>
      nd ← heap z !! x;
      found ← (if deq s (score nd) then o' ← obj nd; equalStringObjects o' o else Some false);
      if (found : bool) then
        z ← zslDeleteNode z x update;
        Some (set_heap (zslFreeNode x (heap z)) z, true)
      else Some (z, false)
  end.

(** ** Ranges *)

Record zrangespec := Zrangespec { min : double; max : double; minex : bool; maxex : bool }.

Definition zslValueGteMin (value : double) (spec : zrangespec) : bool :=
  if minex spec then dlt (min spec) value else dle (min spec) value.
Definition zslValueLteMax (value : double) (spec : zrangespec) : bool :=
  if maxex spec then dlt value (max spec) else dle value (max spec).

Definition zslIsInRange (z : zskiplist) (range : zrangespec) : option bool :=
  if dlt (max range) (min range) || (deq (min range) (max range) && (minex range || maxex range))
  then Some false
  else
    match tail z with
    | None => Some false
    | Some x =>
        nd ← heap z !! x;
        if negb (zslValueGteMin (score nd) range) then Some false
        else
          lv ← level_of (heap z) (header z) 0;
          match forward lv with
          | None => Some false
          | Some x => nd ← heap z !! x; Some (zslValueLteMax (score nd) range)
          end
    end.

(** [Some None] is a [NULL] result. *)
Definition zslFirstInRange (z : zskiplist) (range : zrangespec) : option (option ptr) :=
  inside ← zslIsInRange z range;
  if negb inside then Some None
  else
    '(_, (x, _)) ← search z 64 (fun _ nd => Some (negb (zslValueGteMin (score nd) range)));
    lv ← level_of (heap z) x 0;
    x ← forward lv;
    nd ← heap z !! x;
    Some (if negb (zslValueLteMax (score nd) range) then None else Some x).

Definition zslLastInRange (z : zskiplist) (range : zrangespec) : option (option ptr) :=
  inside ← zslIsInRange z range;
  if negb inside then Some None
  else
    '(_, (x, _)) ← search z 64 (fun _ nd => Some (zslValueLteMax (score nd) range));
    nd ← heap z !! x;
    Some (if negb (zslValueGteMin (score nd) range) then None else Some x).

(** [dictDelete] on the table from elements to scores. *)
Definition dict_delete (o : robj) (d : gmap bytes double) : option (gmap bytes double) :=
  key ← getDecodedObject o; Some (delete key d).

(** The loop of both range deletions; [inside] is the test on the number of
    nodes removed so far and the next node. *)
Fixpoint delete_loop (fuel : nat) (inside : Z -> node -> bool) (update : list (ptr * Z))
    (x : option ptr) (z : zskiplist) (d : gmap bytes double) (removed : Z) :
    option (zskiplist * gmap bytes double * Z) :=
  match fuel, x with
  | _, None => Some (z, d, removed)
  | O, Some _ => None
  | S fuel, Some p =>
      nd ← heap z !! p;
      if inside removed nd then
        next ← level_of (heap z) p 0;
        z ← zslDeleteNode z p update;
        o ← obj nd;
        d ← dict_delete o d;
        delete_loop fuel inside update (forward next)
          (set_heap (zslFreeNode p (heap z)) z) d (uwrap 64 (removed + 1))
      else Some (z, d, removed)
  end.

Definition zslDeleteRangeByScore (z : zskiplist) (range : zrangespec) (d : gmap bytes double) :
    option (zskiplist * gmap bytes double * Z) :=
  '(update, (x, _)) ← search z 64 (fun _ nd =>
     Some (if minex range then dle (score nd) (min range) else dlt (score nd) (min range)));
  lv ← level_of (heap z) x 0;
  delete_loop (size (heap z))
    (fun _ nd => if maxex range then dlt (score nd) (max range) else dle (score nd) (max range))
    update (forward lv) z d 0.

(** [traversed] starts at one more than where the search ended and grows with
    [removed]. *)
Definition zslDeleteRangeByRank (z : zskiplist) (start end_ : Z) (d : gmap bytes double) :
    option (zskiplist * gmap bytes double * Z) :=
  '(update, (x, traversed)) ← search z 64 (fun next _ => Some (bool_decide (next < start)));
  let traversed := uwrap 64 (traversed + 1) in
  lv ← level_of (heap z) x 0;
  delete_loop (size (heap z))
    (fun removed _ => bool_decide (uwrap 64 (traversed + removed) <= end_))
    update (forward lv) z d 0.

(** ** Ranks *)

Fixpoint rank_loop (n : nat) (z : zskiplist) (s : double) (o : robj) (x : ptr) (rank : Z) : option Z :=
  match n with
  | O => Some 0
  | S i =>
      '(x, rank) ← walk (S (size (heap z))) (heap z) 64 (before true s o) i x rank;
      nd ← heap z !! x;
      found ← match obj nd with None => Some false | Some o' => equalStringObjects o' o end;
      if (found : bool) then Some rank else rank_loop i z s o x rank
  end.

Definition zslGetRank (z : zskiplist) (s : double) (o : robj) : option Z :=
  rank_loop (zsl_level z) z s o (header z) 0.

Fixpoint by_rank_loop (n : nat) (z : zskiplist) (rank : Z) (x : ptr) (traversed : Z) : option (option ptr) :=
  match n with
  | O => Some None
  | S i =>
      '(x, traversed) ← walk (S (size (heap z))) (heap z) 64
                          (fun next _ => Some (bool_decide (next <= rank))) i x traversed;
      if bool_decide (traversed = rank) then Some (Some x) else by_rank_loop i z rank x traversed
  end.

Definition zslGetElementByRank (z : zskiplist) (rank : Z) : option (option ptr) :=
  by_rank_loop (zsl_level z) z rank (header z) 0.

End Skiplist.
