(* ===== verification/SkiplistLogic.v ===== *)
(** * The shape of a skip list

    What the memory of a skip list contains for the sequence of its nodes, and
    how searching, linking and unlinking a node act on it.  The cut of a
    sequence on a level is its longest prefix that ends with a node of that
    level: there the search leaves the level and the links to update are. *)
#[local] Set Warnings "-clear-no-such-hyp".
From S2P Require Import Prelude Util Sds SdsArgs Server Skiplist.

(** ** Scores and elements in order *)

Lemma lex_compare_refl l : lex_compare l l = Eq.
Proof. induction l; cbn; [done|]. by rewrite Z.compare_refl. Qed.

Lemma lex_compare_eq l1 l2 : lex_compare l1 l2 = Eq <-> l1 = l2.
Proof.
  split; [|intros ->; apply lex_compare_refl]. revert l2.
  induction l1 as [|x l1 IH]; intros [|y l2]; cbn; try done.
  destruct (Z.compare_spec x y) as [->| |]; try done. intros ?%IH. congruence.
Qed.

Lemma lex_compare_antisym l1 l2 : lex_compare l2 l1 = CompOpp (lex_compare l1 l2).
Proof.
  revert l2. induction l1 as [|x l1 IH]; intros [|y l2]; cbn; try done.
  rewrite Z.compare_antisym. destruct (x ?= y) eqn:?; cbn; auto.
Qed.

Lemma lex_compare_trans l1 l2 l3 :
  lex_compare l1 l2 = Lt -> lex_compare l2 l3 = Lt -> lex_compare l1 l3 = Lt.
Proof.
  revert l2 l3. induction l1 as [|x l1 IH]; intros [|y l2] [|t l3]; cbn; try done.
  destruct (Z.compare_spec x y) as [->|Hxy|]; try done.
  - destruct (y ?= t); try done. apply IH.
  - intros _. destruct (Z.compare_spec y t) as [->| |]; intros; try done.
    + by rewrite (proj2 (Z.compare_lt_iff _ _) Hxy).
    + by rewrite (proj2 (Z.compare_lt_iff x t)) by lia.
Qed.

(** Position in a sorted set: the score, then the bytes of the element. *)
Abbreviation zkey := (double * list Z)%type.

Definition key_ltb (a b : zkey) : bool :=
  dlt a.1 b.1 || bool_decide (a.1 = b.1) && bool_decide (lex_compare a.2 b.2 = Lt).
Definition key_lt (a b : zkey) : Prop := key_ltb a b = true.

Lemma dlt_irrefl a : dlt a a = false.
Proof. destruct a as [v|[]|]; cbn; try done. rewrite bool_decide_false; [done|lia]. Qed.

Lemma dlt_trans a b c : dlt a b = true -> dlt b c = true -> dlt a c = true.
Proof.
  destruct a as [|[]|], b as [|[]|], c as [|[]|]; cbn; try done.
  rewrite !bool_decide_eq_true. lia.
Qed.

Lemma deq_eq a b : a <> NaN -> deq a b = bool_decide (a = b).
Proof.
  intros. destruct a as [|[]|], b as [|[]|]; cbn; try done; try apply bool_decide_ext; naive_solver.
Qed.

Lemma dlt_total a b : a <> NaN -> b <> NaN -> a <> b -> dlt a b = negb (dlt b a).
Proof.
  destruct a as [|[]|], b as [|[]|]; cbn; intros ? ? Hn; try done; try congruence.
  assert (v <> v0) by congruence. repeat case_bool_decide; done || lia.
Qed.

#[export] Instance key_lt_trans : Transitive key_lt.
Proof.
  intros [a x] [b y] [c t]. unfold key_lt, key_ltb. cbn [fst snd].
  rewrite !orb_true_iff, !andb_true_iff, !bool_decide_eq_true.
  intros [H1|[-> H1]] [H2|[-> H2]]; eauto using dlt_trans, lex_compare_trans.
Qed.

Lemma key_lt_irrefl a : key_ltb a a = false.
Proof.
  destruct a as [s b]. unfold key_ltb. cbn [fst snd]. by rewrite dlt_irrefl, lex_compare_refl, andb_false_r.
Qed.

Lemma key_lt_total a b :
  a.1 <> NaN -> b.1 <> NaN -> a <> b -> key_ltb a b = negb (key_ltb b a).
Proof.
  destruct a as [s x], b as [t y]. unfold key_ltb. cbn [fst snd]. intros Hs Ht Hn.
  destruct (decide (s = t)) as [->|Hst].
  - rewrite dlt_irrefl, !bool_decide_true by done. cbn. rewrite (lex_compare_antisym x y).
    destruct (lex_compare x y) eqn:Hc; cbn; try done.
    apply lex_compare_eq in Hc. congruence.
  - rewrite (bool_decide_false (s = t)), (bool_decide_false (t = s)) by congruence.
    cbn. rewrite !orb_false_r. by apply dlt_total.
Qed.

(** [o] is a string object with contents [b]. *)
Definition element_is (o : robj) (b : list Z) : Prop :=
  getDecodedObject o = Some b /\ zlen b <= sds_max /\
  match o with IntObj v => srange 64 v | _ => True end.

Lemma compareStringObjects_spec o1 o2 x y :
  element_is o1 x -> element_is o2 y ->
  exists c, compareStringObjects o1 o2 = Some c /\ (c ?= 0) = lex_compare x y.
Proof.
  intros (H1 & Hx & _) (H2 & Hy & _). unfold compareStringObjects. rewrite H1, H2. bind_simpl.
  eexists. split; [done|].
  assert ((if bool_decide (zlen x < zlen y) then zlen x else zlen y) =
    Z.of_nat (length x `min` length y)) as -> by (case_bool_decide; lia).
  rewrite Nat2Z.id. destruct (memcmp_lex x y) as [Hc He]. case_bool_decide as Hz.
  - rewrite (He Hz). unfold sds_max in *.
    rewrite swrap_uwrap_small by (unfold srange; change (32 - 1) with 31; lia).
    rewrite <- Nat2Z.inj_compare. destruct (Z.compare_spec (zlen x) (zlen y));
      [apply Z.compare_eq_iff|apply Z.compare_lt_iff|apply Z.compare_gt_iff]; lia.
  - rewrite Hc, ?bool_decide_false by done. by destruct (lex_compare x y).
Qed.

Lemma equalStringObjects_spec o1 o2 x y :
  element_is o1 x -> element_is o2 y ->
  equalStringObjects o1 o2 = Some (bool_decide (x = y)).
Proof.
  intros H1 H2. destruct (compareStringObjects_spec _ _ _ _ H1 H2) as (c & Hc & He).
  assert (bool_decide (c = 0) = bool_decide (x = y)) as Hd.
  { apply bool_decide_ext. rewrite <- lex_compare_eq, <- He. symmetry. apply Z.compare_eq_iff. }
  unfold equalStringObjects.
  destruct o1 as [s|v|], o2 as [s'|v'|]; rewrite ?Hc; bind_simpl; try (by rewrite Hd).
  f_equal. apply bool_decide_ext. destruct H1 as (H1 & _ & Hv), H2 as (H2 & _ & Hv').
  cbn in H1, H2.
  destruct (string2ll_print 32 v ltac:(lia) Hv) as (t & Ht & _ & Hr).
  destruct (string2ll_print 32 v' ltac:(lia) Hv') as (t' & Ht' & _ & Hr').
  split; congruence.
Qed.

(** ** Reading and writing nodes *)

(** What a node holds besides its levels: score, element, backward pointer and
    number of levels. *)
Definition core_of (h : memory) (p : ptr) : option (double * option robj * option ptr * nat) :=
  nd ← h !! p; Some (score nd, obj nd, backward nd, length (levels nd)).

Definition set_core_backward (b : option ptr) (c : double * option robj * option ptr * nat) :=
  let '(s, o, _, n) := c in (s, o, b, n).

Lemma core_of_node h p s o b n :
  core_of h p = Some (s, o, b, n) <->
  exists nd, h !! p = Some nd /\ score nd = s /\ obj nd = o /\ backward nd = b /\ length (levels nd) = n.
Proof.
  unfold core_of. split.
  - destruct (h !! p) as [nd|]; [|done]. intros [= <- <- <- <-]. by exists nd.
  - by intros (nd & -> & <- & <- & <- & <-).
Qed.

Lemma set_level_spec h p i lv s o b n :
  core_of h p = Some (s, o, b, n) -> (i < n)%nat ->
  exists h', set_level p i lv h = Some h' /\ dom h' = dom h /\
    (forall q, core_of h' q = core_of h q) /\
    (forall q j, level_of h' q j = if decide (q = p /\ j = i) then Some lv else level_of h q j).
Proof.
  intros (nd & Hp & <- & <- & <- & <-)%core_of_node Hi. unfold set_level. rewrite Hp. cbn.
  destruct (lookup_lt_is_Some_2 (levels nd) i Hi) as [old ->]. cbn. eexists. split; [done|].
  split; [apply dom_insert_lookup_L; eauto|]. split.
  - intros q. unfold core_of. destruct (decide (q = p)) as [->|].
    + rewrite lookup_insert_eq, Hp. cbn. by rewrite length_insert.
    + by rewrite lookup_insert_ne.
  - intros q j. unfold level_of. destruct (decide (q = p)) as [->|].
    + rewrite lookup_insert_eq, Hp. cbn. destruct (decide (j = i)) as [->|].
      * rewrite decide_True by done. by apply list_lookup_insert_eq.
      * rewrite decide_False by tauto. by apply list_lookup_insert_ne.
    + rewrite decide_False by tauto. by rewrite lookup_insert_ne.
Qed.

Lemma set_backward_spec h p b c :
  core_of h p = Some c ->
  exists h', set_backward p b h = Some h' /\ dom h' = dom h /\
    (forall q, core_of h' q = if decide (q = p) then Some (set_core_backward b c) else core_of h q) /\
    (forall q j, level_of h' q j = level_of h q j).
Proof.
  unfold core_of, set_backward. destruct (h !! p) as [nd|] eqn:Hp; cbn; [|done].
  intros [= <-]. eexists. split; [done|]. split; [apply dom_insert_lookup_L; eauto|].
  split; intros q; unfold level_of; destruct (decide (q = p)) as [->|];
    rewrite ?lookup_insert_eq, ?lookup_insert_ne, ?Hp; done.
Qed.

Lemma level_of_core h p i lv :
  level_of h p i = Some lv -> exists s o b n, core_of h p = Some (s, o, b, n) /\ (i < n)%nat.
Proof.
  unfold level_of, core_of. destruct (h !! p) as [nd|]; cbn; [|done]. intros H%lookup_lt_Some. eauto 6.
Qed.

Lemma for_each_spec {S} (P : nat -> S -> Prop) body a n (s : S) :
  P a s ->
  (forall i s, (a <= i < a + n)%nat -> P i s -> exists s', body i s = Some s' /\ P (Datatypes.S i) s') ->
  exists s', for_each body (seq a n) s = Some s' /\ P (a + n)%nat s'.
Proof.
  revert a s. induction n as [|n IH]; intros a s Ha Hstep; cbn.
  - exists s. split; [done|]. by rewrite Nat.add_0_r.
  - destruct (Hstep a s ltac:(lia) Ha) as (s1 & -> & H1). cbn.
    destruct (IH _ _ H1) as (s2 & -> & H2).
    + intros. apply Hstep; [lia|done].
    + exists s2. split; [done|]. by rewrite Nat.add_succ_r.
Qed.

(** ** Nodes in order *)

Record entry := Entry { e_ptr : ptr; e_height : nat; e_key : zkey; e_obj : robj }.

(** The level [i] of a node followed by the entries [l]. *)
Fixpoint link (i : nat) (l : list entry) : level :=
  match l with
  | [] => Level None 0
  | e :: r =>
      if bool_decide (i < e_height e)%nat then Level (Some (e_ptr e)) 1
      else Level (forward (link i r)) (span (link i r) + 1)
  end.

(** The entries are not on level [i]. *)
Definition low (i : nat) : list entry -> Prop := Forall (fun e => (e_height e <= i)%nat).

(** The last of the entries, or the header ([hd]) when there is none: its
    address, and that it is on level [i]. *)
Definition at_ptr (hd : ptr) (a : list entry) : ptr := match last a with Some e => e_ptr e | None => hd end.
Definition backward_of (a : list entry) : option ptr := e_ptr <$> last a.
Definition top (i : nat) (a : list entry) : Prop :=
  match last a with Some e => (i < e_height e)%nat | None => True end.

(** [a] is the part of [l] up to the last node of level [i]. *)
Definition cut (i : nat) (l a : list entry) : Prop := exists m, l = a ++ m /\ top i a /\ low i m.

Lemma link_low i m r :
  low i m -> link i (m ++ r) = Level (forward (link i r)) (span (link i r) + zlen m).
Proof.
  induction 1 as [|e m He Hm IH]; cbn [app link].
  - destruct (link i r). cbn. f_equal. lia.
  - rewrite bool_decide_false, IH by lia. cbn. f_equal. lia.
Qed.

Lemma link_high i m e r :
  low i m -> (i < e_height e)%nat -> link i (m ++ e :: r) = Level (Some (e_ptr e)) (zlen m + 1).
Proof.
  intros Hm He. rewrite link_low by done. cbn. rewrite bool_decide_true by done. cbn. f_equal. lia.
Qed.

Lemma link_span i l : 0 <= span (link i l) <= zlen l.
Proof.
  induction l as [|e l IH]; cbn [link]; [cbn; lia|].
  case_bool_decide; cbn [span length]; lia.
Qed.

Lemma low_or_high i m : low i m \/ exists b e c, m = b ++ e :: c /\ low i b /\ (i < e_height e)%nat.
Proof.
  induction m as [|e m IH]; [by left; constructor|]. destruct (decide (i < e_height e)%nat).
  - right. exists [], e, m. by split_and!; [|constructor|].
  - destruct IH as [Hm|(b & e' & c & -> & Hb & He')].
    + left. constructor; [lia|done].
    + right. exists (e :: b), e', c. split_and!; [done| |done]. constructor; [lia|done].
Qed.

Lemma link_low_app i m r : low i (m ++ r) <-> low i m /\ low i r.
Proof. apply Forall_app. Qed.

(** Beyond a node of level [i], nothing matters for the link. *)
Lemma link_not_low i m r r' : ~ low i m -> link i (m ++ r) = link i (m ++ r').
Proof.
  intros Hm. destruct (low_or_high i m) as [|(b & e & c & -> & Hb & He)]; [done|].
  rewrite <- !app_assoc. cbn [app]. by rewrite !link_high.
Qed.

Lemma link_none i l : forward (link i l) = None <-> low i l.
Proof.
  split; [|intros H; rewrite <- (app_nil_r l); by rewrite link_low].
  intros H. destruct (low_or_high i l) as [|(b & e & c & -> & Hb & He)]; [done|].
  rewrite link_high in H by done. done.
Qed.

Lemma link_all_low i l : low i l -> link i l = Level None (zlen l).
Proof. intros. rewrite <- (app_nil_r l) at 1. rewrite link_low by done. cbn. f_equal. Qed.

Lemma at_ptr_snoc hd a e : at_ptr hd (a ++ [e]) = e_ptr e.
Proof. unfold at_ptr. by rewrite last_snoc. Qed.
Lemma top_snoc i a e : top i (a ++ [e]) <-> (i < e_height e)%nat.
Proof. unfold top. by rewrite last_snoc. Qed.
Lemma backward_of_snoc a e : backward_of (a ++ [e]) = Some (e_ptr e).
Proof. unfold backward_of. by rewrite last_snoc. Qed.

Lemma top_mono i j a : (i <= j)%nat -> top j a -> top i a.
Proof. unfold top. destruct (last a); [lia|done]. Qed.
Lemma low_mono i j a : (i <= j)%nat -> low i a -> low j a.
Proof. intros ? Ha. eapply Forall_impl; [exact Ha|]. cbn. lia. Qed.

Lemma cut_refl i l : top i l -> cut i l l.
Proof. exists []. rewrite app_nil_r. by split_and!; [| |constructor]. Qed.

Lemma cut_0 l a : Forall (fun e => 1 <= e_height e)%nat l -> cut 0 l a -> a = l.
Proof.
  intros Hl (m & -> & _ & Hm). destruct m as [|e m]; [by rewrite app_nil_r|].
  apply Forall_app in Hl as [_ Hl]. inversion Hl; inversion Hm; subst. lia.
Qed.

(** A prefix on the level is the cut, or a node of the level follows it. *)
Lemma cut_or_not i l a m b :
  cut i l b -> l = a ++ m -> top i a -> (a = b /\ low i m) \/ (a <> b /\ ~ low i m).
Proof.
  intros (m' & Hl & Hb & Hm') Ha Ht. subst l.
  assert (a = b <-> low i m) as Hiff.
  { split; [intros ->; by apply app_inv_head in Ha as ->|]. intros Hm.
    apply app_eq_inv in Ha as [(k & -> & ->)|(k & -> & ->)];
      destruct (last k) as [e|] eqn:Hk; try (apply last_None in Hk as ->; by rewrite app_nil_r);
      apply last_Some in Hk as [k' ->]; rewrite app_assoc, top_snoc in Hb || rewrite app_assoc, top_snoc in Ht;
      rewrite !link_low_app in *; destruct_and?; 
      match goal with H : low i [e] |- _ => inversion H; lia end. }
  destruct (low_or_high i m) as [Hm|(c & e & c' & -> & Hc & He)]; [left; tauto|].
  right. rewrite Hiff. assert (~ low i (c ++ e :: c')); [|tauto].
  intros [_ Hl]%link_low_app. inversion Hl. lia.
Qed.

(** ** The shape *)

Record shape (z : zskiplist) (l : list entry) : Prop := {
  shape_nodup : NoDup (header z :: (e_ptr <$> l));
  shape_dom : dom (heap z) = list_to_set (header z :: (e_ptr <$> l));
  shape_header : core_of (heap z) (header z) = Some (Finite 0, None, None, ZSKIPLIST_MAXLEVEL);
  shape_core a e b : l = a ++ e :: b ->
    core_of (heap z) (e_ptr e) = Some ((e_key e).1, Some (e_obj e), backward_of a, e_height e);
  shape_link a b i : l = a ++ b -> (i < zsl_level z)%nat -> top i a ->
    level_of (heap z) (at_ptr (header z) a) i = Some (link i b);
  shape_high i : (zsl_level z <= i < ZSKIPLIST_MAXLEVEL)%nat ->
    exists lv, level_of (heap z) (header z) i = Some lv /\ forward lv = None;
  shape_heights : Forall (fun e => 1 <= e_height e <= zsl_level z)%nat l;
  shape_level : (1 <= zsl_level z <= ZSKIPLIST_MAXLEVEL)%nat;
  shape_tail : tail z = backward_of l;
  shape_length : zsl_length z = zlen l /\ zlen l < 2 ^ 32 }.

Lemma at_ptr_app_inj hd a k r :
  NoDup (hd :: (e_ptr <$> (a ++ k) ++ r)) -> at_ptr hd (a ++ k) = at_ptr hd a -> k = [].
Proof.
  intros Hd. destruct (last k) as [e|] eqn:Hk; [|by apply last_None in Hk].
  apply last_Some in Hk as [k' ->]. rewrite app_assoc, at_ptr_snoc.
  rewrite !fmap_app in Hd. cbn in Hd. apply NoDup_cons in Hd as [Hn Hd].
  unfold at_ptr. destruct (last a) as [e'|] eqn:Ha'.
  - apply last_Some in Ha' as [a'' ->]. rewrite fmap_app in Hd. cbn in Hd.
    intros He. rewrite He in Hd. exfalso. revert Hd. rewrite <- !app_assoc. cbn.
    intros (_ & _ & Hd)%NoDup_app. inversion Hd as [|? ? Hx]; subst. apply Hx. set_solver.
  - intros He. exfalso. apply Hn. rewrite <- He. set_solver.
Qed.

Lemma shape_inj z l a b a' b' :
  shape z l -> l = a ++ b -> l = a' ++ b' -> at_ptr (header z) a = at_ptr (header z) a' -> a = a'.
Proof.
  intros Hz -> Hl He. pose proof (shape_nodup _ _ Hz) as Hd.
  apply app_eq_inv in Hl as [(k & -> & ->)|(k & -> & ->)].
  - apply at_ptr_app_inj in Hd as ->; [by rewrite app_nil_r|done].
  - rewrite app_assoc in Hd. apply at_ptr_app_inj in Hd as ->; [by rewrite app_nil_r|done].
Qed.

Lemma shape_ptr_in z l a b : shape z l -> l = a ++ b -> at_ptr (header z) a ∈ dom (heap z).
Proof.
  intros Hz ->. rewrite (shape_dom _ _ Hz), elem_of_list_to_set. unfold at_ptr.
  destruct (last a) as [e|] eqn:He; [|left]. apply last_Some in He as [a' ->].
  rewrite !fmap_app. set_solver.
Qed.

Lemma shape_size z l : shape z l -> size (heap z) = S (length l).
Proof.
  intros Hz. rewrite <- size_dom, (shape_dom _ _ Hz), size_list_to_set, length_cons, length_fmap;
    [done|apply Hz].
Qed.

(** [u] gives, for each level, the cut of [l]: the node and its rank. *)
Definition cuts (hd : ptr) (u : list (ptr * Z)) (l : list entry) (n : nat) : Prop :=
  length u = n /\
  forall i, (i < n)%nat -> exists a, u !! i = Some (at_ptr hd a, zlen a) /\ cut i l a.

(** ** Searching *)

Section Search.
Context (z : zskiplist) (l1 l2 : list entry) (Hz : shape z (l1 ++ l2)) (w : Z) (Hw : 32 <= w)
  (go : Z -> node -> option bool)
  (Hgo : forall a e b nd, l1 ++ l2 = a ++ e :: b -> heap z !! e_ptr e = Some nd ->
    go (zlen a + 1) nd = Some (bool_decide (length a < length l1)%nat)).

Lemma search_wrap n : 0 <= n <= zlen (l1 ++ l2) -> uwrap w n = n.
Proof using Hz Hw.
  intros. apply uwrap_small. destruct (shape_length _ _ Hz). unfold urange.
  assert (2 ^ 32 <= 2 ^ w) by (apply Z.pow_le_mono_r; lia). lia.
Qed.

Lemma walk_spec i m a fuel :
  l1 = a ++ m -> top i a -> (i < zsl_level z)%nat -> (length m < fuel)%nat ->
  exists a', cut i l1 a' /\
    walk fuel (heap z) w go i (at_ptr (header z) a) (zlen a) = Some (at_ptr (header z) a', zlen a').
Proof using Hz Hw Hgo.
  intros Hl Ht Hi. revert m a Hl Ht. induction fuel as [|fuel IH]; intros m a Hl Ht Hf; [lia|].
  cbn [walk]. pose proof Hl as Hl'. rewrite (shape_link _ _ Hz a (m ++ l2) i) by (done || (subst; by rewrite <- app_assoc)).
  bind_simpl. destruct (low_or_high i m) as [Hm|(b & e & c & -> & Hb & He)].
  - exists a. split; [by exists m|]. rewrite link_low by done. cbn [forward span].
    destruct (low_or_high i l2) as [H2|(b & e & c & Hl2 & Hb & He)].
    { rewrite link_all_low by done. done. }
    rewrite Hl2, link_high by done. cbn [forward span].
    assert (l1 ++ l2 = (l1 ++ b) ++ e :: c) as Hs by (by rewrite <- app_assoc, Hl2).
    pose proof (shape_core _ _ Hz _ e _ Hs) as Hc.
    apply core_of_node in Hc as (nd & Hnd & _). rewrite Hnd. bind_simpl.
    assert (zlen a + (zlen b + 1 + zlen m) = zlen (l1 ++ b) + 1) as -> by (subst l1; rewrite !length_app; lia).
    rewrite search_wrap by (rewrite Hs, !length_app; cbn; lia).
    rewrite (Hgo _ e _ nd Hs Hnd).
    rewrite bool_decide_false by (rewrite length_app; lia). done.
  - rewrite <- app_assoc. cbn [app]. rewrite link_high by done. cbn [forward span].
    assert (l1 ++ l2 = (a ++ b) ++ e :: c ++ l2) as Hs by (subst l1; by rewrite <- !app_assoc).
    pose proof (shape_core _ _ Hz _ e _ Hs) as Hc.
    apply core_of_node in Hc as (nd & Hnd & _). rewrite Hnd. bind_simpl.
    assert (zlen a + (zlen b + 1) = zlen (a ++ b) + 1) as -> by (rewrite !length_app; lia).
    rewrite search_wrap by (rewrite Hs, !length_app; cbn; rewrite ?length_app; lia).
    rewrite (Hgo _ e _ nd Hs Hnd), bool_decide_true by (subst l1; rewrite !length_app; cbn; lia).
    bind_simpl. rewrite <- (at_ptr_snoc (header z) (a ++ b) e).
    assert (zlen (a ++ b) + 1 = zlen ((a ++ b) ++ [e])) as -> by (rewrite !length_app; cbn; lia).
    apply (IH c); [subst l1; by rewrite <- !app_assoc|by rewrite top_snoc|].
    rewrite !length_app in Hf. cbn in Hf. lia.
Qed.

Lemma descend_spec n a m :
  l1 = a ++ m -> (n <> 0 -> top (n - 1) a)%nat -> (n <= zsl_level z)%nat ->
  exists u b, descend n (heap z) w go (at_ptr (header z) a) (zlen a) = Some (u, (at_ptr (header z) b, zlen b)) /\
    cuts (header z) u l1 n /\ (n = 0%nat -> b = a) /\ (n <> 0%nat -> b = l1).
Proof using Hz Hw Hgo.
  revert a m. induction n as [|n IH]; intros a m Hl Ht Hn; cbn [descend].
  - exists [], a. split_and!; try done. split; [done|]. lia.
  - destruct (walk_spec n m a (S (size (heap z))) Hl) as (a' & Hcut & ->).
    { replace n with (S n - 1)%nat by lia. auto. } { lia. }
    { rewrite (shape_size _ _ Hz). subst l1. rewrite !length_app. lia. }
    bind_simpl. pose proof Hcut as (m' & Hl' & Ht' & Hm').
    destruct (IH a' m' Hl') as (u & b & -> & [Hu Hc] & Hb0 & Hb).
    { intros _. eapply top_mono; [|exact Ht']. lia. } { lia. }
    bind_simpl. exists (u ++ [(at_ptr (header z) a', zlen a')]), b. split; [done|].
    split; [split; [rewrite length_app; cbn; lia|]|split; [done|]].
    + intros i Hi. destruct (decide (i = n)) as [->|].
      * exists a'. split; [|done]. rewrite lookup_app_r, Hu, Nat.sub_diag by lia. done.
      * destruct (Hc i ltac:(lia)) as (a'' & Ha'' & ?). exists a''. split; [|done].
        rewrite lookup_app_l; [done|lia].
    + intros _. destruct n as [|n]; [|auto]. rewrite Hb0 by done. eapply cut_0, Hcut.
      pose proof (shape_heights _ _ Hz) as Hh. apply Forall_app in Hh as [Hh _].
      eapply Forall_impl; [exact Hh|]. cbn. lia.
Qed.

(** The search ends at the last entry of [l1] and finds the cuts of [l1]. *)
Lemma zsl_search_spec :
  exists u, search z w go = Some (u, (at_ptr (header z) l1, zlen l1)) /\ cuts (header z) u l1 (zsl_level z).
Proof using Hz Hw Hgo.
  destruct (descend_spec (zsl_level z) [] l1) as (u & b & Hd & Hc & _ & Hb); try done.
  exists u. destruct (shape_level _ _ Hz). rewrite Hb in Hd by lia. done.
Qed.
End Search.

(** ** Linking a node *)

Lemma set_level_header z l lv i :
  shape z l -> (zsl_level z <= i < ZSKIPLIST_MAXLEVEL)%nat ->
  forall h, core_of h (header z) = core_of (heap z) (header z) ->
  exists h', set_level (header z) i lv h = Some h' /\ dom h' = dom h /\
    (forall q, core_of h' q = core_of h q) /\
    (forall q j, level_of h' q j = if decide (q = header z /\ j = i) then Some lv else level_of h q j).
Proof.
  intros Hz Hi h Hh. rewrite (shape_header _ _ Hz) in Hh. eapply set_level_spec; [exact Hh|lia].
Qed.

Lemma heights_low z l i : shape z l -> (zsl_level z <= i)%nat -> low i l.
Proof.
  intros Hz Hi. eapply Forall_impl; [apply (shape_heights _ _ Hz)|]. cbn. lia.
Qed.

Lemma raise_level_spec z l l2 u level :
  shape z (l ++ l2) -> cuts (header z) u l (zsl_level z) -> (level <= ZSKIPLIST_MAXLEVEL)%nat ->
  exists z' u', raise_level z level u = Some (z', u') /\ shape z' (l ++ l2) /\
    header z' = header z /\ tail z' = tail z /\ zsl_length z' = zsl_length z /\
    dom (heap z') = dom (heap z) /\ (level <= zsl_level z')%nat /\ cuts (header z) u' l (zsl_level z').
Proof.
  intros Hz [Hu Hc] Hlevel. unfold raise_level. case_bool_decide as Hl; [|exists z, u; by split_and!; [| | | | | |lia|]].
  set (n := zsl_level z) in *. destruct (shape_length _ _ Hz) as [Hlen Hmax].
  assert (uwrap 32 (zsl_length z) = zlen (l ++ l2)) as Hw by (rewrite Hlen; apply uwrap_small; unfold urange; lia).
  rewrite Hw.
  destruct (for_each_spec (fun i h => dom h = dom (heap z) /\ (forall q, core_of h q = core_of (heap z) q) /\
      forall q j, level_of h q j = if decide (q = header z /\ n <= j < i)%nat
        then Some (Level None (zlen (l ++ l2))) else level_of (heap z) q j)
    (fun i h => lv ← level_of h (header z) i; set_level (header z) i (Level (forward lv) (zlen (l ++ l2))) h)
    n (level - n) (heap z)) as (h & -> & Hd & Hco & Hle).
  { split_and!; [done|done|]. intros. by rewrite decide_False by lia. }
  { intros i h Hi (Hd & Hco & Hle). destruct (shape_high _ _ Hz i ltac:(lia)) as (lv & Hlv & Hf).
    rewrite Hle, decide_False, Hlv by lia. bind_simpl. rewrite Hf.
    destruct (set_level_header _ _ (Level None (zlen (l ++ l2))) i Hz ltac:(lia) h (Hco _)) as (h' & -> & Hd' & Hco' & Hle').
    exists h'. split_and!; [done|congruence|intros; by rewrite Hco'|].
    intros q j. rewrite Hle', Hle. destruct (decide (q = header z)) as [->|]; [|by rewrite !decide_False by tauto].
    destruct (decide (j = i)) as [->|]; [by rewrite !decide_True by (done || lia)|].
    rewrite (decide_False (P := _ /\ j = i)) by tauto. apply decide_ext. lia. }
  bind_simpl. eexists _, _. split; [done|]. cbn. split_and!; try done.
  - destruct Hz as [Hnodup Hdom Hhd Hcore Hlink Hhigh Hhei Hlev Htl _].
    constructor; cbn [header heap tail zsl_length zsl_level]; rewrite ?Hco; try done.
    + by rewrite Hd.
    + intros. rewrite Hco. by eapply Hcore.
    + intros a b i Hab Hi Ht. rewrite Hle. destruct (decide (i < n)%nat).
      { rewrite decide_False by lia. by apply Hlink. }
      assert (low i (l ++ l2)) as Hlow by (eapply Forall_impl; [exact Hhei|]; cbn; lia).
      destruct (last a) as [e|] eqn:Ha.
      { unfold top in Ht. rewrite Ha in Ht. apply last_Some in Ha as [a' ->]. rewrite Hab in Hlow.
        unfold low in Hlow. rewrite !Forall_app, Forall_singleton in Hlow. lia. }
      unfold at_ptr. rewrite Ha, decide_True by (split; [done|lia]). apply last_None in Ha as ->.
      cbn in Hab. subst b. by rewrite link_all_low.
    + intros i Hi. rewrite Hle, decide_False by lia. apply Hhigh. lia.
    + eapply Forall_impl; [exact Hhei|]. cbn. lia.
    + lia.
  - split; [rewrite length_app, length_replicate; lia|]. intros i Hi. destruct (decide (i < n)%nat).
    + rewrite lookup_app_l by lia. by apply Hc.
    + exists []. rewrite lookup_app_r, lookup_replicate_2 by lia. split; [done|].
      exists l. split_and!; [done|done|]. apply (heights_low _ _ i) in Hz; [|lia].
      by apply link_low_app in Hz as [? _].
Qed.

Section Link.
(** Node [x] of height [n] comes between [l1] and [l2]. *)
Context (hd : ptr) (l1 l2 : list entry) (x : ptr) (n L : nat) (u : list (ptr * Z)) (h0 : memory).
Context (Hu : cuts hd u l1 L) (Hn : (1 <= n <= L)%nat) (Hlen : zlen (l1 ++ l2) + 1 < 2 ^ 32)
  (Hx : forall a b, l1 = a ++ b -> at_ptr hd a <> x)
  (Hcore : exists s o b, core_of h0 x = Some (s, o, b, n))
  (Hone : Forall (fun e => 1 <= e_height e)%nat l1)
  (Hlink : forall a m i, l1 = a ++ m -> (i < L)%nat -> top i a -> level_of h0 (at_ptr hd a) i = Some (link i (m ++ l2))).

(** The new level [i] of the node at a cut of length [r]. *)
Definition linked (i : nat) (r : Z) (old : level) : level :=
  if bool_decide (i < n)%nat then Level (Some x) (zlen l1 - r + 1) else Level (forward old) (span old + 1).

Definition links_upto (k : nat) (h : memory) : Prop :=
  dom h = dom h0 /\ (forall q, core_of h q = core_of h0 q) /\
  forall q j, level_of h q j =
    if decide (j < k)%nat then
      if decide (q = x /\ j < n)%nat then Some (link j l2)
      else match u !! j with
           | Some (p, r) => if decide (q = p) then linked j r <$> level_of h0 q j else level_of h0 q j
           | None => level_of h0 q j
           end
    else level_of h0 q j.

Lemma links_step i h lvx lvu p r :
  links_upto i h -> (i < L)%nat -> u !! i = Some (p, r) -> p <> x ->
  forall h1 h2, dom h1 = dom h -> dom h2 = dom h1 -> 
  (forall q, core_of h1 q = core_of h q) -> (forall q, core_of h2 q = core_of h1 q) ->
  (forall q j, level_of h1 q j = if decide (q = x /\ j = i /\ i < n)%nat then Some lvx else level_of h q j) ->
  (forall q j, level_of h2 q j = if decide (q = p /\ j = i) then Some lvu else level_of h1 q j) ->
  ((i < n)%nat -> lvx = link i l2) -> Some lvu = linked i r <$> level_of h0 p i ->
  links_upto (S i) h2.
Proof using Hn.
  intros (Hd & Hco & Hle) Hi Hui Hpx h1 h2 Hd1 Hd2 Hco1 Hco2 Hle1 Hle2 Hlvx Hlvu.
  split_and!; [congruence|intros; by rewrite Hco2, Hco1|]. intros q j. rewrite Hle2, Hle1, Hle.
  destruct (decide (j = i)) as [->|Hji].
  - rewrite (decide_True (P := (i < S i)%nat)) by lia. rewrite (decide_False (P := (i < i)%nat)) by lia. rewrite Hui.
    destruct (decide (q = p)) as [->|Hqp].
    + rewrite decide_True by done. by rewrite decide_False by tauto.
    + rewrite decide_False by tauto. destruct (decide (q = x /\ i < n)%nat) as [[-> Hin]|Hn'].
      * rewrite decide_True by done. by rewrite Hlvx.
      * by rewrite decide_False by tauto.
  - rewrite (decide_False (P := q = p /\ j = i)), (decide_False (P := q = x /\ j = i /\ (i < n)%nat)) by tauto.
    destruct (decide (j < i)%nat); [rewrite (decide_True (P := (j < S i)%nat)) by lia|rewrite (decide_False (P := (j < S i)%nat)) by lia]; done.
Qed.

Lemma cut_at i : (i < L)%nat ->
  exists a m, l1 = a ++ m /\ low i m /\ top i a /\ u !! i = Some (at_ptr hd a, zlen a) /\ at_ptr hd a <> x /\
    level_of h0 (at_ptr hd a) i = Some (Level (forward (link i l2)) (span (link i l2) + zlen m)) /\
    0 <= span (link i l2) <= zlen l2 /\ zlen l1 = zlen a + zlen m.
Proof using Hu Hx Hlink Hn.
  intros Hi. destruct (proj2 Hu i Hi) as (a & Ha & m & Hl & Ht & Hm). exists a, m.
  split_and!; try done; try (by eapply (Hx a m)).
  - rewrite (Hlink a m i) by done. by rewrite link_low.
  - pose proof (link_span i l2). lia.
  - pose proof (link_span i l2). lia.
  - rewrite Hl, length_app. lia.
Qed.

Lemma link_level_step i h : (i < n)%nat -> links_upto i h ->
  exists h', link_level x u i h = Some h' /\ links_upto (S i) h'.
Proof using Hu Hx Hlink Hn Hlen Hcore Hone.
  intros Hi Hh. pose proof Hh as (Hd & Hco & Hle).
  destruct (cut_at i ltac:(lia)) as (a & m & Hl & Hm & Ht & Hui & Hax & Hlv & Hspan & Hl1).
  destruct (proj2 Hu 0%nat ltac:(lia)) as (a0 & Ha0 & ->%cut_0); [|done].
  pose proof Hlen as Hl2. rewrite length_app in Hl2.
  unfold link_level. rewrite Ha0. bind_simpl. rewrite Hui. bind_simpl.
  rewrite Hle, decide_False, Hlv by lia. bind_simpl. cbn [forward span].
  assert (uwrap 32 (zlen l1 - zlen a) = zlen m) as ->.
  { rewrite uwrap_small; unfold urange; lia. }
  assert (uwrap 32 (span (link i l2) + zlen m - zlen m) = span (link i l2)) as ->.
  { rewrite uwrap_small by (unfold urange; lia). lia. }
  assert (uwrap 32 (zlen m + 1) = zlen l1 - zlen a + 1) as ->.
  { rewrite uwrap_small; unfold urange; lia. }
  destruct Hcore as (s & o & b & Hcx). rewrite <- Hco in Hcx.
  destruct (set_level_spec h x i (Level (forward (link i l2)) (span (link i l2))) _ _ _ _ Hcx Hi)
    as (h1 & -> & Hd1 & Hco1 & Hle1).
  bind_simpl. destruct (level_of_core _ _ _ _ Hlv) as (s' & o' & b' & n' & Hcp & Hi').
  rewrite <- Hco, <- Hco1 in Hcp.
  destruct (set_level_spec h1 (at_ptr hd a) i (Level (Some x) (zlen l1 - zlen a + 1)) _ _ _ _ Hcp Hi')
    as (h2 & Hh2 & Hd2 & Hco2 & Hle2).
  exists h2. split; [done|]. eapply (links_step i h); try done; [lia| |].
  - intros q j. rewrite Hle1. destruct (link i l2). apply decide_ext. tauto.
  - rewrite Hlv. cbn. unfold linked. by rewrite bool_decide_true.
Qed.

Lemma lengthen_level_step i h : (n <= i < L)%nat -> links_upto i h ->
  exists h', lengthen_level u i h = Some h' /\ links_upto (S i) h'.
Proof using Hu Hx Hlink Hn Hlen.
  intros Hi Hh. pose proof Hh as (Hd & Hco & Hle).
  destruct (cut_at i ltac:(lia)) as (a & m & Hl & Hm & Ht & Hui & Hax & Hlv & Hspan & Hl1).
  unfold lengthen_level. rewrite Hui. bind_simpl.
  rewrite Hle, decide_False, Hlv by lia. bind_simpl. cbn [forward span].
  pose proof Hlen as Hl2. rewrite length_app in Hl2. rewrite uwrap_small by (unfold urange; lia).
  destruct (level_of_core _ _ _ _ Hlv) as (s' & o' & b' & n' & Hcp & Hi'). rewrite <- Hco in Hcp.
  destruct (set_level_spec h (at_ptr hd a) i
    (Level (forward (link i l2)) (span (link i l2) + zlen m + 1)) _ _ _ _ Hcp Hi')
    as (h2 & Hh2 & Hd2 & Hco2 & Hle2).
  exists h2. split; [done|]. eapply (links_step i h (Level None 0)) with (h1 := h); try done; try lia.
  - intros q j. by rewrite decide_False by lia.
  - rewrite Hlv. cbn. unfold linked. by rewrite bool_decide_false by lia.
Qed.

Lemma links_spec :
  exists h1 h2, for_each (link_level x u) (seq 0 n) h0 = Some h1 /\
    for_each (lengthen_level u) (seq n (L - n)) h1 = Some h2 /\ links_upto L h2.
Proof using Hu Hx Hlink Hn Hlen Hcore Hone.
  destruct (for_each_spec links_upto (link_level x u) 0 n h0) as (h1 & H1 & Hl1).
  { split_and!; [done|done|]. intros. by rewrite decide_False by lia. }
  { intros i h Hi Hh. apply link_level_step; [lia|done]. }
  destruct (for_each_spec links_upto (lengthen_level u) n (L - n) h1) as (h2 & H2 & Hl2).
  { done. }
  { intros i h Hi Hh. apply lengthen_level_step; [lia|done]. }
  exists h1, h2. split_and!; [done|done|]. by replace (n + (L - n))%nat with L in Hl2 by lia.
Qed.
End Link.

(** ** The skip list with the node inserted *)

Lemma shape_split z l1 l2 : shape z (l1 ++ l2) ->
  Forall (fun e => 1 <= e_height e)%nat l1 /\ Forall (fun e => 1 <= e_height e)%nat l2.
Proof.
  intros Hz. apply Forall_app. eapply Forall_impl; [apply (shape_heights _ _ Hz)|]. cbn. lia.
Qed.

Lemma forward_head l : Forall (fun e => 1 <= e_height e)%nat l -> forward (link 0 l) = e_ptr <$> head l.
Proof. destruct 1 as [|e l He _]; [done|]. cbn. by rewrite bool_decide_true by lia. Qed.

Lemma backward_header z l1 l2 : shape z (l1 ++ l2) ->
  (if bool_decide (at_ptr (header z) l1 = header z) then None else Some (at_ptr (header z) l1)) = backward_of l1.
Proof.
  intros Hz. destruct l1 as [|e l1 _] using rev_ind; [by rewrite bool_decide_true|].
  rewrite at_ptr_snoc, backward_of_snoc, bool_decide_false; [done|]. intros He.
  pose proof (shape_nodup _ _ Hz) as [Hn _]%NoDup_cons. apply Hn. rewrite !fmap_app. set_solver.
Qed.

(** Where a split of the new sequence lies. *)
Lemma split_insert {A} (l1 l2 a b : list A) e : l1 ++ e :: l2 = a ++ b ->
  (exists m, l1 = a ++ m /\ b = m ++ e :: l2) \/ (exists a', a = l1 ++ e :: a' /\ l2 = a' ++ b).
Proof.
  intros H. apply app_eq_inv in H as [(k & -> & ->)|(k & -> & Hk)]; [left; by exists k|].
  destruct k as [|e' k]; cbn in Hk.
  - left. exists []. by rewrite !app_nil_r, Hk.
  - right. injection Hk as -> ->. by exists k.
Qed.

Lemma at_ptr_insert hd l1 e a : a <> [] -> at_ptr hd (l1 ++ e :: a) = at_ptr hd (l1 ++ a).
Proof.
  intros Ha. destruct a as [|e' a _] using rev_ind; [done|].
  by rewrite app_comm_cons, !app_assoc, !at_ptr_snoc.
Qed.
Lemma backward_of_insert l1 e a : a <> [] -> backward_of (l1 ++ e :: a) = backward_of (l1 ++ a).
Proof.
  intros Ha. destruct a as [|e' a _] using rev_ind; [done|].
  by rewrite app_comm_cons, !app_assoc, !backward_of_snoc.
Qed.
Lemma top_insert i l1 e a : a <> [] -> top i (l1 ++ e :: a) <-> top i (l1 ++ a).
Proof.
  intros Ha. destruct a as [|e' a _] using rev_ind; [done|].
  by rewrite app_comm_cons, !app_assoc, !top_snoc.
Qed.

Section Inserted.
Context (z : zskiplist) (l1 l2 : list entry) (e : entry) (u : list (ptr * Z)) (h0 h2 h : memory).
Context (Hz : shape z (l1 ++ l2)) (Hx : e_ptr e ∉ dom (heap z)) (Hu : cuts (header z) u l1 (zsl_level z))
  (Hn : (1 <= e_height e <= zsl_level z)%nat) (Hlen : zlen (l1 ++ l2) + 1 < 2 ^ 32)
  (Hh0 : forall q j, q <> e_ptr e -> level_of h0 q j = level_of (heap z) q j)
  (Hh2 : links_upto l1 l2 (e_ptr e) (e_height e) u h0 (zsl_level z) h2)
  (Hlevel : forall q j, level_of h q j = level_of h2 q j)
  (Hdom : dom h = {[e_ptr e]} ∪ dom (heap z))
  (Hcore : forall q, core_of h q =
    if decide (q = e_ptr e) then Some ((e_key e).1, Some (e_obj e), backward_of l1, e_height e)
    else if decide (Some q = e_ptr <$> head l2) then set_core_backward (Some (e_ptr e)) <$> core_of (heap z) q
    else core_of (heap z) q).

Lemma inserted_link a b i :
  l1 ++ e :: l2 = a ++ b -> (i < zsl_level z)%nat -> top i a ->
  level_of h (at_ptr (header z) a) i = Some (link i b).
Proof using All.
  intros Hab Hi Ht. rewrite Hlevel, (proj2 (proj2 Hh2)), decide_True by done.
  destruct (proj2 Hu i Hi) as (c & -> & Hc). pose proof Hc as (mc & Hmc & Htc & Hlc).
  assert (forall a m, l1 ++ l2 = a ++ m -> at_ptr (header z) a <> e_ptr e) as Hne.
  { intros a' m' Ham He. apply Hx. rewrite <- He. by eapply shape_ptr_in. }
  destruct (split_insert _ _ _ _ _ Hab) as [(m & Hm & ->)|(a' & -> & Ha')].
  - assert (l1 ++ l2 = a ++ m ++ l2) as Hs by (by rewrite Hm, <- app_assoc).
    rewrite decide_False by (intros [He _]; by eapply Hne).
    rewrite Hh0, (shape_link _ _ Hz _ _ _ Hs Hi Ht) by (by eapply Hne).
    destruct (cut_or_not _ _ _ _ _ Hc Hm Ht) as [[-> Hlow]|[Hac Hlow]].
    + rewrite decide_True by done. cbn. f_equal. unfold linked. rewrite (link_low i m), (link_low i m (e :: l2)) by done. cbn.
      case_bool_decide; cbn; f_equal; try lia. rewrite Hm, length_app. lia.
    + rewrite decide_False; [by rewrite (link_not_low _ _ _ (e :: l2))|].
      intros He. apply Hac. eapply (shape_inj z); [exact Hz|exact Hs| |exact He].
      by rewrite Hmc, <- app_assoc.
  - destruct (decide (length a' = 0)%nat) as [Hnil|Hnil].
    + apply nil_length_inv in Hnil as ->. cbn in Ha'. subst l2. rewrite at_ptr_snoc.
      apply top_snoc in Ht. by rewrite decide_True.
    + assert (a' <> []) as Hnil' by (by intros ->). rewrite at_ptr_insert by done. rewrite top_insert in Ht by done.
      assert (l1 ++ l2 = (l1 ++ a') ++ b) as Hs by (by rewrite Ha', app_assoc).
      rewrite decide_False by (intros [He _]; by eapply Hne).
      rewrite Hh0, (shape_link _ _ Hz _ _ _ Hs Hi Ht), decide_False; [done| |by eapply Hne].
      intros He. apply Hnil. assert (l1 ++ a' = c) as Heq.
      { eapply (shape_inj z); [exact Hz|exact Hs| |exact He]. by rewrite Hmc, <- app_assoc. }
      rewrite Hmc in Heq. apply (f_equal length) in Heq. rewrite !length_app in Heq. lia.
Qed.

Lemma inserted_core a e' b : l1 ++ e :: l2 = a ++ e' :: b ->
  core_of h (e_ptr e') = Some ((e_key e').1, Some (e_obj e'), backward_of a, e_height e').
Proof using All.
  intros Hab. rewrite Hcore. pose proof (shape_nodup _ _ Hz) as [_ Hd]%NoDup_cons.
  assert (forall a e' b, l1 ++ l2 = a ++ e' :: b -> e_ptr e' <> e_ptr e) as Hne.
  { intros a0 e0 b0 Hs He. apply Hx. rewrite <- He, <- (at_ptr_snoc (header z) a0 e0).
    eapply shape_ptr_in; [exact Hz|]. by rewrite Hs, <- app_assoc. }
  destruct (split_insert _ _ _ _ _ Hab) as [(m & Hm & Hb)|(a' & -> & Ha')].
  - destruct m as [|e0 m]; cbn in Hb; injection Hb as -> ->.
    { rewrite app_nil_r in Hm. subst a. by rewrite decide_True. }
    assert (l1 ++ l2 = a ++ e0 :: m ++ l2) as Hs by (by rewrite Hm, <- app_assoc).
    rewrite decide_False by (by eapply Hne). rewrite decide_False; [by apply (shape_core _ _ Hz _ _ _ Hs)|].
    destruct l2 as [|e2 l2']; [done|]. cbn. intros [= He]. revert Hd.
    rewrite Hs, !fmap_app, !fmap_cons, !fmap_app. cbn. intros (_ & _ & [Hd _]%NoDup_cons)%NoDup_app.
    apply Hd. rewrite He. set_solver.
  - assert (l1 ++ l2 = (l1 ++ a') ++ e' :: b) as Hs by (by rewrite Ha', app_assoc).
    rewrite decide_False by (by eapply Hne). pose proof (shape_core _ _ Hz _ _ _ Hs) as Hc.
    destruct a' as [|e2 a'].
    + cbn in Ha'. rewrite decide_True by (by rewrite Ha'). rewrite Hc. cbn.
      by rewrite backward_of_snoc.
    + rewrite decide_False; [by rewrite backward_of_insert|].
      rewrite Ha'. cbn. intros [= He]. revert Hd. rewrite Ha'. cbn.
      rewrite fmap_app. cbn. intros (_ & _ & [Hd _]%NoDup_cons)%NoDup_app.
      apply Hd. rewrite <- He, fmap_app. set_solver.
Qed.

Lemma inserted_shape :
  shape (Zskiplist h (header z) (match l2 with [] => Some (e_ptr e) | _ => tail z end)
           (zsl_length z + 1) (zsl_level z)) (l1 ++ e :: l2).
Proof using All.
  pose proof (shape_nodup _ _ Hz) as Hd.
  assert (e_ptr e <> header z) as Hhd.
  { intros He. apply Hx. rewrite He. by eapply (shape_ptr_in z _ []). }
  assert (e_ptr e ∉ e_ptr <$> l1 ++ l2) as Hfresh.
  { intros Hin. apply Hx. rewrite (shape_dom _ _ Hz). set_solver. }
  assert (e_ptr <$> l1 ++ e :: l2 ≡ₚ e_ptr e :: (e_ptr <$> l1 ++ l2)) as Hperm.
  { rewrite !fmap_app, fmap_cons. symmetry. apply Permutation_middle. }
  assert (header z ∉ e_ptr <$> l1 ++ l2) as Hnot by (by apply NoDup_cons in Hd as [? _]).
  destruct (shape_length _ _ Hz) as [Hl _]. pose proof (shape_heights _ _ Hz) as Hhei.
  constructor; cbn [heap header tail zsl_length zsl_level].
  - rewrite Hperm. apply NoDup_cons in Hd as [Hd1 Hd2]. rewrite !NoDup_cons. set_solver.
  - rewrite Hdom, (shape_dom _ _ Hz). cbn. rewrite Hperm. cbn. set_solver.
  - rewrite Hcore, decide_False by done. rewrite decide_False; [apply (shape_header _ _ Hz)|].
    destruct l2 as [|e2 l2']; [done|]. cbn. intros [= He]. apply Hnot. rewrite He, fmap_app. set_solver.
  - apply inserted_core.
  - apply inserted_link.
  - intros i Hi. rewrite Hlevel, (proj2 (proj2 Hh2)), decide_False, Hh0 by (done || lia).
    by apply (shape_high _ _ Hz).
  - apply Forall_app in Hhei as [? ?]. apply Forall_app. split; [done|]. by constructor.
  - apply (shape_level _ _ Hz).
  - pose proof (shape_tail _ _ Hz) as Ht. destruct l2 as [|e2 l2']; [by rewrite backward_of_snoc|].
    by rewrite backward_of_insert.
  - rewrite Hl, !length_app in *. cbn [length] in *. lia.
Qed.
End Inserted.

(** ** Insertion *)

Lemma links_of_shape z l1 l2 x n u h0 :
  shape z (l1 ++ l2) -> x ∉ dom (heap z) -> cuts (header z) u l1 (zsl_level z) ->
  (1 <= n <= zsl_level z)%nat -> zlen (l1 ++ l2) + 1 < 2 ^ 32 ->
  (exists s o b, core_of h0 x = Some (s, o, b, n)) ->
  (forall q j, q <> x -> level_of h0 q j = level_of (heap z) q j) ->
  exists h1 h2, for_each (link_level x u) (seq 0 n) h0 = Some h1 /\
    for_each (lengthen_level u) (seq n (zsl_level z - n)) h1 = Some h2 /\
    links_upto l1 l2 x n u h0 (zsl_level z) h2.
Proof.
  intros Hz Hx Hu Hn Hlen Hc0 Hh0. destruct (shape_split _ _ _ Hz) as [Hone1 Hone2].
  assert (forall a m, l1 = a ++ m -> at_ptr (header z) a <> x) as Hne.
  { intros a m -> He. apply Hx. rewrite <- He. eapply shape_ptr_in; [done|]. by rewrite <- app_assoc. }
  apply (links_spec (header z)); try done.
  intros a m i Ham Hi Ht. rewrite Hh0 by (by apply (Hne a m)).
  eapply shape_link; [done| |done|done]. by rewrite Ham, <- app_assoc.
Qed.

Lemma link_backward_spec z l1 l2 e u h0 h2 :
  shape z (l1 ++ l2) -> e_ptr e ∉ dom (heap z) -> cuts (header z) u l1 (zsl_level z) ->
  (1 <= e_height e <= zsl_level z)%nat -> zlen (l1 ++ l2) + 1 < 2 ^ 32 ->
  (forall q j, q <> e_ptr e -> level_of h0 q j = level_of (heap z) q j) ->
  links_upto l1 l2 (e_ptr e) (e_height e) u h0 (zsl_level z) h2 ->
  (exists b, core_of h0 (e_ptr e) = Some ((e_key e).1, Some (e_obj e), b, e_height e)) ->
  (forall q, q <> e_ptr e -> core_of h0 q = core_of (heap z) q) ->
  dom h0 = {[e_ptr e]} ∪ dom (heap z) ->
  exists h tl, link_backward z (e_ptr e) u h2 = Some (h, tl) /\
    shape (Zskiplist h (header z) tl (zsl_length z + 1) (zsl_level z)) (l1 ++ e :: l2).
Proof.
  intros Hz Hx Hu Hn Hlen Hh0 Hh2 [b0 Hc0] Hc0' Hd0. destruct (shape_split _ _ _ Hz) as [Hone1 Hone2].
  assert (forall q, core_of (heap z) q <> None -> q <> e_ptr e) as Hne.
  { intros q Hq ->. apply Hq. apply not_elem_of_dom in Hx. unfold core_of. by rewrite Hx. }
  unfold link_backward. destruct (proj2 Hu 0%nat ltac:(lia)) as (a0 & -> & ->%cut_0); [|done]. bind_simpl.
  pose proof Hh2 as (Hd2 & Hc2 & Hl2). rewrite <- Hc2 in Hc0. rewrite (backward_header _ _ _ Hz).
  destruct (set_backward_spec h2 (e_ptr e) (backward_of l1) _ Hc0) as (h3 & -> & Hd3 & Hc3 & Hl3). bind_simpl.
  rewrite Hl3, Hl2, decide_True, decide_True by (done || lia). bind_simpl. rewrite forward_head by done.
  assert (Hc3' : forall q, q <> e_ptr e -> core_of h3 q = core_of (heap z) q).
  { intros q Hq. by rewrite Hc3, decide_False, Hc2, Hc0'. }
  destruct l2 as [|e2 l2']; cbn [head fmap option_fmap option_map].
  - exists h3, (Some (e_ptr e)). split; [done|]. apply (inserted_shape z l1 [] e u h0 h2); try done.
    + congruence.
    + intros q. destruct (decide (q = e_ptr e)) as [->|]; [by rewrite Hc3, decide_True|]. by rewrite decide_False, Hc3'.
  - pose proof (shape_core _ _ Hz l1 e2 l2' eq_refl) as Hce2.
    assert (e_ptr e2 <> e_ptr e) as Hne2 by (apply Hne; by rewrite Hce2). rewrite <- Hc3' in Hce2 by done.
    destruct (set_backward_spec h3 (e_ptr e2) (Some (e_ptr e)) _ Hce2) as (h4 & -> & Hd4 & Hc4 & Hl4). bind_simpl.
    exists h4, (tail z). split; [done|]. apply (inserted_shape z l1 (e2 :: l2') e u h0 h2); try done.
    + intros. by rewrite Hl4.
    + congruence.
    + intros q. cbn [head fmap option_fmap option_map]. rewrite Hc4.
      destruct (decide (q = e_ptr e2)) as [->|].
      * by rewrite decide_False, decide_True, <- Hc3', Hce2 by done.
      * rewrite (decide_False (P := Some q = _)) by congruence.
        destruct (decide (q = e_ptr e)) as [->|]; [by rewrite Hc3, decide_True|]. by rewrite Hc3'.
Qed.

(** [random()] eventually gives a number that ends the loop of
    [zslRandomLevel]. *)
Definition random_ok (randoms : list Z) : Prop := Exists (fun r => 65535 <= 4 * Z.land r 65535) randoms.

Lemma random_level_ok level randoms :
  random_ok randoms -> exists n rest, random_level level randoms = Some (n, rest) /\ (level <= n)%nat.
Proof.
  intros H. revert level. induction H as [r rs Hr|r rs _ IH]; intros level; cbn.
  - rewrite bool_decide_false by lia. eauto.
  - case_bool_decide; [|eauto]. destruct (IH (S level)) as (n & rest & -> & ?).
    exists n, rest. split; [done|lia].
Qed.

Lemma zslRandomLevel_ok randoms :
  random_ok randoms -> exists n rest, zslRandomLevel randoms = Some (n, rest) /\ (1 <= n <= ZSKIPLIST_MAXLEVEL)%nat.
Proof.
  intros H. destruct (random_level_ok 1 _ H) as (n & rest & Hr & Hn). unfold zslRandomLevel. rewrite Hr. bind_simpl.
  eexists _, rest. split; [done|]. unfold ZSKIPLIST_MAXLEVEL. case_bool_decide; lia.
Qed.

(** [zmalloc] returns an address that is not in use. *)
Definition fresh_alloc (zmalloc : memory -> ptr) : Prop := forall h, zmalloc h ∉ dom h.

Section Operations.
Context (zmalloc : memory -> ptr) (junk : level) (Hfresh : fresh_alloc zmalloc).

Lemma zslCreate_spec h : h = ∅ -> exists z, zslCreate zmalloc junk h = Some z /\ shape z [].
Proof using All.
  intros ->. unfold zslCreate, zslCreateNode. set (hd := zmalloc ∅).
  set (h0 := <[hd := _]> ∅).
  assert (core_of h0 hd = Some (Finite 0, None, forward junk, ZSKIPLIST_MAXLEVEL)) as Hc0.
  { unfold core_of, h0. rewrite lookup_insert_eq. cbn. done. }
  destruct (for_each_spec (fun i h => dom h = {[hd]} /\
      core_of h hd = Some (Finite 0, None, forward junk, ZSKIPLIST_MAXLEVEL) /\
      forall j, (j < i)%nat -> level_of h hd j = Some (Level None 0))
    (fun j => set_level hd j (Level None 0)) 0 ZSKIPLIST_MAXLEVEL h0) as (h1 & -> & Hd1 & Hc1 & Hl1).
  { split_and!; [unfold h0; set_solver|done|lia]. }
  { intros i h Hi (Hd & Hc & Hl).
    destruct (set_level_spec h hd i (Level None 0) _ _ _ _ Hc ltac:(lia)) as (h' & -> & Hd' & Hc' & Hl').
    exists h'. split_and!; [done|congruence|by rewrite Hc'|]. intros j Hj. rewrite Hl'.
    destruct (decide (j = i)); [by rewrite decide_True|]. rewrite decide_False by tauto. apply Hl. lia. }
  bind_simpl. destruct (set_backward_spec h1 hd None _ Hc1) as (h2 & -> & Hd2 & Hc2 & Hl2).
  bind_simpl. eexists. split; [done|]. constructor; cbn [heap header tail zsl_length zsl_level]; try done.
  - repeat constructor. set_solver.
  - rewrite Hd2, Hd1. set_solver.
  - rewrite Hc2, decide_True by done. done.
  - intros [] ? ? [=].
  - intros a b i [-> ->]%eq_sym%app_nil Hi _. cbn. rewrite Hl2. apply Hl1. unfold ZSKIPLIST_MAXLEVEL. lia.
  - intros i Hi. rewrite Hl2, Hl1 by lia. eauto.
  - unfold ZSKIPLIST_MAXLEVEL. lia.
Qed.

Lemma zslInsert_spec z l1 l2 randoms s o b :
  shape z (l1 ++ l2) -> zlen (l1 ++ l2) + 1 < 2 ^ 32 -> random_ok randoms -> s <> NaN ->
  (forall a e c nd, l1 ++ l2 = a ++ e :: c -> heap z !! e_ptr e = Some nd ->
    before false s o (zlen a + 1) nd = Some (bool_decide (length a < length l1)%nat)) ->
  exists z' x n rest, zslInsert zmalloc junk z randoms s o = Some (z', x, rest) /\
    shape z' (l1 ++ Entry x n (s, b) o :: l2).
Proof using All.
  intros Hz Hlen Hr Hs Hgo. unfold zslInsert. rewrite bool_decide_false by done.
  destruct (zsl_search_spec z l1 l2 Hz 32 ltac:(lia) _ Hgo) as (u & -> & Hu). bind_simpl.
  destruct (zslRandomLevel_ok _ Hr) as (n & rest & -> & Hn). bind_simpl.
  destruct (raise_level_spec _ _ _ _ n Hz Hu ltac:(lia)) as (z1 & u1 & -> & Hz1 & Hhd & _ & _ & _ & Hnl & Hu1).
  bind_simpl. unfold zslCreateNode. set (x := zmalloc (heap z1)). set (h0 := <[x := _]> (heap z1)).
  pose proof (Hfresh (heap z1)) as Hx. fold x in Hx. rewrite <- Hhd in Hu1.
  assert (Hh0 : forall q j, q <> x -> level_of h0 q j = level_of (heap z1) q j).
  { intros q j Hq. unfold level_of, h0. by rewrite lookup_insert_ne. }
  assert (Hc0 : forall q, core_of h0 q = if decide (q = x) then Some (s, Some o, forward junk, n) else core_of (heap z1) q).
  { intros q. unfold core_of, h0. destruct (decide (q = x)) as [->|].
    - rewrite lookup_insert_eq. cbn. by rewrite length_replicate.
    - by rewrite lookup_insert_ne. }
  destruct (links_of_shape z1 l1 l2 x n u1 h0 Hz1 Hx Hu1) as (h1 & h2 & -> & Hh2' & Hh2); try done; try lia.
  { rewrite Hc0, decide_True by done. eauto. }
  bind_simpl. rewrite Hh2'. bind_simpl.
  destruct (link_backward_spec z1 l1 l2 (Entry x n (s, b) o) u1 h0 h2 Hz1 Hx Hu1) as (h & tl & Hlb & Hsh); try done; try (cbn; lia).
  { cbn. rewrite Hc0, decide_True by done. eauto. }
  { intros q Hq. by rewrite Hc0, decide_False. }
  { unfold h0. by rewrite dom_insert_L. }
  cbn [e_ptr] in Hlb. rewrite Hlb. bind_simpl. destruct (shape_length _ _ Hz1) as [Hlz1 _].
  rewrite (uwrap_small 64) by (unfold urange; lia). eauto 10.
Qed.
End Operations.

(** ** Unlinking a node *)

Lemma uwrap_add_r w a b : 0 <= w -> uwrap w (a + uwrap w b) = uwrap w (a + b).
Proof. intros. unfold uwrap. by rewrite Z.add_mod_idemp_r by lia. Qed.

Section Unlink.
(** [e] stands between [l1] and [l2]; [u] may have more levels than the list. *)
Context (z : zskiplist) (l1 l2 : list entry) (e : entry) (u : list (ptr * Z)) (n : nat).
Context (Hz : shape z (l1 ++ e :: l2)) (Hu : cuts (header z) u l1 n) (Hn : (zsl_level z <= n)%nat).

Let x := e_ptr e.
Let h0 := heap z.

Definition unlinked_upto (k : nat) (h : memory) : Prop :=
  dom h = dom h0 /\ (forall q, core_of h q = core_of h0 q) /\
  forall q j, level_of h q j =
    match u !! j with
    | Some (p, r) => if decide (q = p /\ j < k)%nat
        then Some (Level (forward (link j l2)) (span (link j l2) + (zlen l1 - r))) else level_of h0 q j
    | None => level_of h0 q j
    end.

Lemma prefix_not_x a m : l1 = a ++ m -> at_ptr (header z) a <> x.
Proof using All.
  intros Ha He. unfold x in He. rewrite <- (at_ptr_snoc (header z) l1 e) in He.
  apply (shape_inj z (l1 ++ e :: l2) a (m ++ e :: l2) (l1 ++ [e]) l2) in He; try done.
  - rewrite Ha in He. apply (f_equal length) in He. rewrite !length_app in He. cbn in He. lia.
  - by rewrite Ha, <- app_assoc.
  - by rewrite <- app_assoc.
Qed.

Lemma later_not_x i : forward (link i l2) <> Some x.
Proof using All.
  intros Hf. destruct (low_or_high i l2) as [Hlow|(b & e' & c & Hl2 & Hb & He)].
  - by apply link_none in Hlow; rewrite Hlow in Hf.
  - rewrite Hl2, link_high in Hf by done. injection Hf as Hf.
    pose proof (shape_nodup _ _ Hz) as [_ Hd]%NoDup_cons. revert Hd.
    rewrite Hl2, fmap_app, fmap_cons. intros (_ & _ & [Hd _]%NoDup_cons)%NoDup_app.
    apply Hd. fold x. rewrite <- Hf, fmap_app. set_solver.
Qed.

Lemma unlink_level_step i h : (i < zsl_level z)%nat -> unlinked_upto i h ->
  exists h', unlink_level x u i h = Some h' /\ unlinked_upto (S i) h'.
Proof using All.
  intros Hi (Hd & Hc & Hl). destruct (proj2 Hu i ltac:(lia)) as (a & Hui & m & Ham & Ht & Hm).
  pose proof (prefix_not_x _ _ Ham) as Hax. pose proof (shape_length _ _ Hz) as [_ Hlen].
  assert (zlen l1 = zlen a + zlen m) as Hl1 by (rewrite Ham, length_app; lia).
  rewrite length_app in Hlen. cbn [length] in Hlen. pose proof (link_span i l2) as Hspan.
  assert (level_of h (at_ptr (header z) a) i = Some (link i (m ++ e :: l2))) as Hlv.
  { rewrite Hl, Hui, decide_False by lia. apply (shape_link _ _ Hz); [|done..]. by rewrite Ham, <- app_assoc. }
  unfold unlink_level. rewrite Hui. bind_simpl. rewrite Hlv. bind_simpl.
  set (new := Level (forward (link i l2)) (span (link i l2) + (zlen l1 - zlen a))).
  destruct (level_of_core _ _ _ _ Hlv) as (s & o & b & k & Hcp & Hik).
  destruct (set_level_spec h (at_ptr (header z) a) i new _ _ _ _ Hcp Hik) as (h' & Hh' & Hd' & Hc' & Hl').
  exists h'. split.
  - rewrite <- Hh'. destruct (decide (i < e_height e)%nat) as [He|He].
    + rewrite link_high by done. cbn [forward span]. rewrite bool_decide_true by done.
      assert (level_of h x i = Some (link i l2)) as ->.
      { rewrite Hl, Hui, decide_False by lia. unfold x. rewrite <- (at_ptr_snoc (header z) l1 e).
        apply (shape_link _ _ Hz); [by rewrite <- app_assoc|done|by apply top_snoc]. }
      bind_simpl. rewrite uwrap_add_r by lia. rewrite uwrap_small by (unfold urange; lia).
      do 2 f_equal. lia.
    + rewrite link_low by done. cbn [link]. rewrite (bool_decide_false (i < e_height e)%nat) by done. cbn [forward span].
      rewrite bool_decide_false by apply later_not_x. rewrite uwrap_small by (unfold urange; lia).
      do 2 f_equal. lia.
  - split_and!; [congruence|intros; by rewrite Hc'|]. intros q j. rewrite Hl', Hl.
    destruct (decide (j = i)) as [->|]; [rewrite Hui|destruct (u !! j) as [[p r]|]].
    + rewrite (decide_False (P := _ /\ (i < i)%nat)) by lia. apply decide_ext. lia.
    + rewrite decide_False by tauto. apply decide_ext. lia.
    + by rewrite decide_False by tauto.
Qed.

Lemma unlinks_spec : exists h, for_each (unlink_level x u) (seq 0 (zsl_level z)) (heap z) = Some h /\
  unlinked_upto (zsl_level z) h.
Proof using All.
  apply (for_each_spec unlinked_upto); [|intros; apply unlink_level_step; [lia|done]].
  split_and!; [done|done|]. intros q j. destruct (u !! j) as [[p r]|]; [|done]. by rewrite decide_False by lia.
Qed.

(** The links of the list without [e]. *)
Lemma unlinked_link h a b i : unlinked_upto (zsl_level z) h ->
  l1 ++ l2 = a ++ b -> (i < zsl_level z)%nat -> top i a -> level_of h (at_ptr (header z) a) i = Some (link i b).
Proof using All.
  intros (_ & _ & Hl) Hab Hi Ht. rewrite Hl. destruct (proj2 Hu i ltac:(lia)) as (c & -> & Hc).
  pose proof Hc as (mc & Hmc & Htc & Hlc).
  assert (l1 ++ e :: l2 = c ++ mc ++ e :: l2) as Hsc by (by rewrite Hmc, <- app_assoc).
  apply app_eq_inv in Hab as [(m & Hm & Hb)|(a' & -> & Ha')].
  - assert (l1 ++ e :: l2 = a ++ m ++ e :: l2) as Hs by (by rewrite Hm, <- app_assoc).
    subst b. destruct (cut_or_not _ _ _ _ _ Hc Hm Ht) as [[-> Hlow]|[Hac Hlow]].
    + rewrite decide_True, link_low by done. do 2 f_equal. rewrite Hm, length_app. lia.
    + rewrite decide_False; [|intros [He _]; by apply Hac, (shape_inj z _ _ _ _ _ Hz Hs Hsc)].
      rewrite (link_not_low _ _ _ (e :: l2)) by done. by apply (shape_link _ _ Hz).
  - destruct (decide (length a' = 0)%nat) as [Hnil|Hnil].
    + apply nil_length_inv in Hnil as ->. rewrite app_nil_r in *. cbn in Ha'. subst b.
      assert (l1 = c /\ low i []) as [<- _].
      { destruct (cut_or_not i l1 l1 [] c Hc) as [|[_ []]]; try done; [by rewrite app_nil_r|constructor]. }
      rewrite decide_True by done. destruct (link i l2). cbn. do 2 f_equal. lia.
    + assert (a' <> []) as Hnil' by (by intros ->).
      assert (l1 ++ e :: l2 = (l1 ++ e :: a') ++ b) as Hs by (by rewrite Ha', <- app_assoc).
      rewrite <- (at_ptr_insert _ _ e) by done. rewrite <- (top_insert _ _ e) in Ht by done.
      rewrite decide_False; [by apply (shape_link _ _ Hz)|].
      intros [He _]. apply (shape_inj z _ _ _ _ _ Hz Hs Hsc) in He.
      rewrite Hmc in He. apply (f_equal length) in He. rewrite !length_app in He. cbn in He. lia.
Qed.

Lemma unlink_backward_spec h : unlinked_upto (zsl_level z) h ->
  exists h' tl, unlink_backward z x h = Some (h', tl) /\ tl = backward_of (l1 ++ l2) /\ dom h' = dom h /\
    (forall q j, level_of h' q j = level_of h q j) /\
    (forall q, core_of h' q = if decide (Some q = e_ptr <$> head l2)
       then set_core_backward (backward_of l1) <$> core_of h q else core_of h q).
Proof using All.
  intros Hh. pose proof Hh as (Hd & Hc & Hl). pose proof (shape_core _ _ Hz l1 e l2 eq_refl) as Hx.
  fold x in Hx. change (heap z) with h0 in Hx. rewrite <- Hc in Hx.
  assert (level_of h x 0 = Some (link 0 l2)) as Hx0.
  { rewrite Hl. destruct (proj2 Hu 0%nat) as (c & -> & m & Hm & _); [destruct (shape_level _ _ Hz); lia|].
    rewrite decide_False by (intros [He _]; by apply (prefix_not_x _ _ Hm)).
    unfold x. rewrite <- (at_ptr_snoc (header z) l1 e). apply (shape_link _ _ Hz).
    - by rewrite <- app_assoc. - destruct (shape_level _ _ Hz); lia.
    - apply top_snoc. destruct (shape_split _ _ _ Hz) as [_ He]. inversion He. lia. }
  unfold unlink_backward. rewrite Hx0. apply core_of_node in Hx as (nd & -> & _ & _ & Hb & _).
  bind_simpl. destruct (shape_split _ _ _ Hz) as [_ Hone]. apply Forall_cons in Hone as [_ Hone].
  rewrite forward_head by done. destruct l2 as [|e2 l2'] eqn:Hl2; cbn [head fmap option_fmap option_map].
  - exists h, (backward nd). split_and!; try done; by rewrite app_nil_r.
  - pose proof (shape_core _ _ Hz (l1 ++ [e]) e2 l2' ltac:(by rewrite <- app_assoc)) as Hc2.
    change (heap z) with h0 in Hc2. rewrite <- Hc in Hc2.
    destruct (set_backward_spec h (e_ptr e2) (backward nd) _ Hc2) as (h' & -> & Hd' & Hc' & Hl').
    bind_simpl. exists h', (tail z). split_and!; try done.
    + rewrite (shape_tail _ _ Hz). by apply backward_of_insert.
    + intros q. rewrite Hc', Hb. destruct (decide (q = e_ptr e2)) as [->|].
      * by rewrite decide_True, Hc2.
      * by rewrite decide_False by congruence.
Qed.
End Unlink.

Lemma lower_level_S h hd n : lower_level h hd (S (S n)) =
  (lv ← level_of h hd (S n); match forward lv with None => lower_level h hd (S n) | Some _ => Some (S (S n)) end).
Proof. reflexivity. Qed.

Lemma lower_level_spec h hd n :
  (1 <= n)%nat -> (forall i, (i < n)%nat -> is_Some (level_of h hd i)) ->
  exists k, lower_level h hd n = Some k /\ (1 <= k <= n)%nat /\
    forall i lv, (k <= i < n)%nat -> level_of h hd i = Some lv -> forward lv = None.
Proof.
  induction n as [|[|n] IH]; intros Hn Hs; [lia|exists 1%nat; split_and!; [done|lia|lia|lia]|].
  rewrite lower_level_S. destruct (Hs (S n) ltac:(lia)) as [lv Hlv]. rewrite Hlv. bind_simpl.
  destruct (forward lv) as [q|] eqn:Hf; [exists (S (S n)); split_and!; [done|lia|lia|lia]|].
  destruct IH as (k & -> & Hk & Hnone); [lia|intros; apply Hs; lia|].
  exists k. split_and!; [done|lia|lia|]. intros i lv' Hi Hlv'.
  destruct (decide (i = S n)) as [->|]; [congruence|]. apply (Hnone i); [lia|done].
Qed.

(** What remains of a node list once [e] is gone. *)
Section Removed.
Context (z : zskiplist) (l1 l2 : list entry) (e : entry) (h : memory) (tl : option ptr) (k : nat).
Context (Hz : shape z (l1 ++ e :: l2)) (Htl : tl = backward_of (l1 ++ l2)) (Hk : (1 <= k <= zsl_level z)%nat)
  (Hdom : dom h = dom (heap z))
  (Hlink : forall a b i, l1 ++ l2 = a ++ b -> (i < zsl_level z)%nat -> top i a ->
    level_of h (at_ptr (header z) a) i = Some (link i b))
  (Hlow : forall i lv, (k <= i < zsl_level z)%nat -> level_of h (header z) i = Some lv -> forward lv = None)
  (Hhigh : forall i, (zsl_level z <= i)%nat -> level_of h (header z) i = level_of (heap z) (header z) i)
  (Hcore : forall q, core_of h q = if decide (Some q = e_ptr <$> head l2)
     then set_core_backward (backward_of l1) <$> core_of (heap z) q else core_of (heap z) q).

Lemma free_core p q : q <> p -> core_of (zslFreeNode p h) q = core_of h q.
Proof using. intros. unfold core_of, zslFreeNode. by rewrite lookup_delete_ne. Qed.
Lemma free_level p q j : q <> p -> level_of (zslFreeNode p h) q j = level_of h q j.
Proof using. intros. unfold level_of, zslFreeNode. by rewrite lookup_delete_ne. Qed.

Lemma removed_core a e' b : l1 ++ l2 = a ++ e' :: b ->
  core_of h (e_ptr e') = Some ((e_key e').1, Some (e_obj e'), backward_of a, e_height e').
Proof using All.
  intros Hab. rewrite Hcore. pose proof (shape_nodup _ _ Hz) as [_ Hd]%NoDup_cons.
  destruct (app_eq_inv _ _ _ _ Hab) as [(m & Hm & Hb)|(a' & -> & Ha')].
  - destruct m as [|e0 m]; cbn in Hb.
    + subst l2. rewrite app_nil_r in Hm. subst a. rewrite decide_True by done.
      rewrite (shape_core _ _ Hz (l1 ++ [e]) e' b) by (by rewrite <- app_assoc). done.
    + injection Hb as -> ->. rewrite (shape_core _ _ Hz a e0 (m ++ e :: l2)) by (by rewrite Hm, <- app_assoc).
      rewrite decide_False; [done|]. destruct l2 as [|e2 l2']; [done|]. cbn. intros [= He].
      revert Hd. rewrite Hm, <- app_assoc, fmap_app. cbn. intros (_ & _ & [Hd _]%NoDup_cons)%NoDup_app.
      apply Hd. rewrite He, fmap_app. set_solver.
  - rewrite (shape_core _ _ Hz (l1 ++ e :: a') e' b) by (by rewrite Ha', <- app_assoc).
    destruct a' as [|e2 a'].
    + subst l2. rewrite decide_True by done. cbn. by rewrite app_nil_r.
    + rewrite backward_of_insert by done. rewrite decide_False; [done|]. subst l2. cbn. intros [= He].
      revert Hd. rewrite fmap_app, !fmap_cons. cbn. rewrite fmap_app.
      intros (_ & _ & [_ [Hd _]%NoDup_cons]%NoDup_cons)%NoDup_app. apply Hd. rewrite <- He. set_solver.
Qed.

Lemma removed_heights : Forall (fun e => 1 <= e_height e <= k)%nat (l1 ++ l2).
Proof using All.
  assert (Forall (fun e => 1 <= e_height e <= zsl_level z)%nat (l1 ++ l2)) as Hh.
  { pose proof (shape_heights _ _ Hz) as [H1 [_ H2]%Forall_cons]%Forall_app. by apply Forall_app. }
  destruct (decide (k < zsl_level z)%nat); [|eapply Forall_impl; [exact Hh|]; cbn; lia].
  pose proof (Hlink [] (l1 ++ l2) k eq_refl ltac:(lia) I) as Hlk. cbn [at_ptr last] in Hlk.
  pose proof (Hlow k _ ltac:(lia) Hlk) as Hlw%link_none.
  apply Forall_forall. intros e' He'. unfold low in Hlw. rewrite Forall_forall in Hh, Hlw.
  specialize (Hh e' He'). specialize (Hlw e' He'). lia.
Qed.

Lemma removed_shape :
  shape (Zskiplist (zslFreeNode (e_ptr e) h) (header z) tl (zsl_length z - 1) k) (l1 ++ l2).
Proof using All.
  pose proof (shape_nodup _ _ Hz) as Hd. pose proof removed_heights as Hhei.
  assert (e_ptr <$> l1 ++ e :: l2 ≡ₚ e_ptr e :: (e_ptr <$> l1 ++ l2)) as Hperm.
  { rewrite !fmap_app, fmap_cons. symmetry. apply Permutation_middle. }
  rewrite Hperm in Hd. apply NoDup_cons in Hd as [Hhd Hd]. pose proof Hd as [Hex Hd']%NoDup_cons.
  assert (header z <> e_ptr e) as Hhx by set_solver.
  assert (forall a b, l1 ++ l2 = a ++ b -> at_ptr (header z) a <> e_ptr e) as Hne.
  { intros a b Hab He. unfold at_ptr in He. destruct (last a) as [e'|] eqn:Ha; [|done].
    apply last_Some in Ha as [a' ->]. apply Hex. rewrite Hab, <- He, !fmap_app. set_solver. }
  destruct (shape_level _ _ Hz) as [_ Hmax]. destruct (shape_length _ _ Hz) as [Hlen Hlen'].
  constructor; cbn [heap header tail zsl_length zsl_level].
  - apply NoDup_cons. split; [set_solver|done].
  - unfold zslFreeNode. rewrite dom_delete_L, Hdom, (shape_dom _ _ Hz). cbn. rewrite Hperm. cbn. set_solver.
  - rewrite free_core, Hcore by done. rewrite decide_False; [apply (shape_header _ _ Hz)|].
    destruct l2 as [|e2 l2']; [done|]. cbn. intros [= He]. apply Hhd. rewrite He, fmap_app. set_solver.
  - intros a e' b Hab. rewrite free_core; [by apply (removed_core a e' b)|].
    rewrite <- (at_ptr_snoc (header z) a e'). apply (Hne _ b). by rewrite <- app_assoc.
  - intros a b i Hab Hi Ht. rewrite free_level by (by eapply Hne). apply Hlink; [done|lia|done].
  - intros i Hi. rewrite free_level by done. destruct (decide (i < zsl_level z)%nat).
    + pose proof (Hlink [] (l1 ++ l2) i eq_refl ltac:(done) I) as Hlk. cbn [at_ptr last] in Hlk.
      eexists. split; [exact Hlk|]. eapply Hlow; [|exact Hlk]. lia.
    + rewrite Hhigh by lia. apply (shape_high _ _ Hz). lia.
  - done.
  - lia.
  - done.
  - rewrite Hlen, !length_app in *. cbn [length] in *. lia.
Qed.
End Removed.

Lemma zslDeleteNode_spec z l1 l2 e u n :
  shape z (l1 ++ e :: l2) -> cuts (header z) u l1 n -> (zsl_level z <= n)%nat ->
  exists z', zslDeleteNode z (e_ptr e) u = Some z' /\ header z' = header z /\ (zsl_level z' <= zsl_level z)%nat /\
    shape (set_heap (zslFreeNode (e_ptr e) (heap z')) z') (l1 ++ l2).
Proof.
  intros Hz Hu Hn. unfold zslDeleteNode.
  destruct (unlinks_spec z l1 l2 e u n Hz Hu Hn) as (h & -> & Hh). bind_simpl.
  destruct (unlink_backward_spec z l1 l2 e u n Hz Hu Hn h Hh) as (h' & tl & -> & Htl & Hd & Hl & Hc). bind_simpl.
  assert (Hlk : forall a b i, l1 ++ l2 = a ++ b -> (i < zsl_level z)%nat -> top i a ->
    level_of h' (at_ptr (header z) a) i = Some (link i b)).
  { intros. rewrite Hl. by apply (unlinked_link z l1 l2 e u n). }
  pose proof (shape_level _ _ Hz) as Hlev. destruct (shape_length _ _ Hz) as [Hlen Hlen'].
  destruct (lower_level_spec h' (header z) (zsl_level z)) as (k & -> & Hk & Hlow); [lia| |].
  { intros i Hi. exists (link i (l1 ++ l2)). by apply (Hlk [] (l1 ++ l2)). }
  bind_simpl. eexists. split; [done|]. cbn. split_and!; [done|lia|].
  rewrite uwrap_small by (unfold urange; rewrite Hlen, length_app in *; cbn in *; lia).
  destruct Hh as (Hd0 & Hc0 & Hl0).
  apply (removed_shape z l1 l2 e); try done; [congruence| |intros q; by rewrite Hc, Hc0].
  intros i Hi. rewrite Hl, Hl0. destruct (u !! i) as [[p r]|]; [|done]. by rewrite decide_False by lia.
Qed.
