(* ===== verification/SkiplistSpecs.v ===== *)
(** * What skip lists compute

    A skip list refines the strictly increasing list of its keys (score and
    element): the operations that change it, the searches by rank and the
    searches by range of scores, for any heights of the nodes. *)
#[local] Set Warnings "-clear-no-such-hyp".
From S2P Require Import Prelude Util Sds SdsArgs Server Skiplist SkiplistLogic.

(** ** The keys of a skip list *)

Definition entry_ok (e : entry) : Prop := element_is (e_obj e) (e_key e).2 /\ (e_key e).1 <> NaN.

(** The list [l] of nodes is a skip list with the keys [S]. *)
Record sorted_entries (l : list entry) (S : list zkey) : Prop := {
  entries_keys : e_key <$> l = S;
  entries_sorted : StronglySorted key_lt S;
  entries_ok : Forall entry_ok l }.

Definition zsl_repr (z : zskiplist) (S : list zkey) : Prop :=
  exists l, shape z l /\ sorted_entries l S.

(** The key of the node at [p]. *)
Definition node_key (z : zskiplist) (p : ptr) : option zkey :=
  nd ← heap z !! p; o ← obj nd; b ← getDecodedObject o; Some (score nd, b).

Lemma shape_node z l a e b nd : shape z l -> l = a ++ e :: b -> heap z !! e_ptr e = Some nd ->
  score nd = (e_key e).1 /\ obj nd = Some (e_obj e).
Proof.
  intros Hz Hl Hnd. pose proof (shape_core _ _ Hz a e b Hl) as (nd' & Hnd' & Hs & Ho & _)%core_of_node.
  by simplify_eq.
Qed.

Lemma shape_node_exists z l a e b : shape z l -> l = a ++ e :: b ->
  exists nd, heap z !! e_ptr e = Some nd /\ score nd = (e_key e).1 /\ obj nd = Some (e_obj e).
Proof.
  intros Hz Hl. pose proof (shape_core _ _ Hz a e b Hl) as (nd & ? & ? & ? & _)%core_of_node. eauto.
Qed.

Lemma shape_node_key z l a e b : shape z l -> l = a ++ e :: b -> entry_ok e -> node_key z (e_ptr e) = Some (e_key e).
Proof.
  intros Hz Hl [[Ho _] _]. destruct (shape_node_exists _ _ _ _ _ Hz Hl) as (nd & Hnd & Hs & Hob).
  unfold node_key. rewrite Hnd. bind_simpl. rewrite Hob. bind_simpl. rewrite Ho. bind_simpl.
  rewrite Hs. by destruct (e_key e).
Qed.

(** ** Splitting sorted lists *)

(** A property of keys that, of two keys in order, holds of the first when it
    holds of the second. *)
Definition downward (P : zkey -> bool) : Prop :=
  forall a b, a.1 <> NaN -> b.1 <> NaN -> key_lt a b -> P b = true -> P a = true.

Lemma split_entries l S (P : zkey -> bool) : sorted_entries l S -> downward P ->
  exists l1 l2, l = l1 ++ l2 /\ Forall (fun e => P (e_key e) = true) l1 /\ Forall (fun e => P (e_key e) = false) l2.
Proof.
  intros [<- Hs Hok] HP. revert Hs. induction Hok as [|e l [_ He] Hok IH]; intros Hs; [by exists [], []|].
  inversion Hs as [|? ? Hs' He']; subst. destruct (IH Hs') as (l1 & l2 & -> & H1 & H2).
  destruct (P (e_key e)) eqn:HPe; [exists (e :: l1), l2; by split_and!; [|constructor|]|].
  exists [], (e :: l1 ++ l2). split_and!; [done|constructor|]. constructor; [done|].
  apply Forall_forall. intros e' Hin. destruct (P (e_key e')) eqn:HP'; [|done].
  rewrite <- HPe. symmetry. rewrite Forall_forall in He'. rewrite Forall_forall in Hok. apply (HP _ (e_key e')); try done.
  - by apply Hok. - apply He'. by apply list_elem_of_fmap_2.
Qed.

Lemma split_position l1 l2 a e c (P : zkey -> bool) : l1 ++ l2 = a ++ e :: c ->
  Forall (fun e => P (e_key e) = true) l1 -> Forall (fun e => P (e_key e) = false) l2 ->
  P (e_key e) = bool_decide (length a < length l1)%nat.
Proof.
  intros Hs H1 H2. apply app_eq_inv in Hs as [(k & -> & Hk)|(k & -> & ->)].
  - destruct k as [|e' k]; cbn in Hk.
    + subst l2. inversion H2. by rewrite app_nil_r, bool_decide_false by lia.
    + injection Hk as -> ->. apply Forall_app in H1 as [_ H1]. inversion H1.
      rewrite bool_decide_true; [done|]. rewrite length_app. cbn. lia.
  - apply Forall_app in H2 as [_ H2]. inversion H2. rewrite bool_decide_false; [done|].
    rewrite length_app. lia.
Qed.

Lemma filter_split (P : zkey -> bool) l1 l2 :
  Forall (fun e => P (e_key e) = true) l1 -> Forall (fun e => P (e_key e) = false) l2 ->
  filter (fun k => P k = true) (e_key <$> l1 ++ l2) = e_key <$> l1 /\
  filter (fun k => P k = false) (e_key <$> l1 ++ l2) = e_key <$> l2.
Proof.
  intros H1 H2. rewrite fmap_app, !filter_app. induction H1 as [|e l1 He _ [IH1 IH2]]; cbn [fmap list_fmap app].
  - rewrite !filter_nil. induction H2 as [|e l2 He _ [IH1 IH2]]; cbn [fmap list_fmap app]; [done|].
    rewrite filter_cons_False, filter_cons_True by (cbn; congruence). cbn in *. by rewrite IH1, IH2.
  - rewrite filter_cons_True, filter_cons_False by (cbn; congruence). split; [cbn; by f_equal|done].
Qed.

(** A search whose test is such a property. *)
Lemma search_downward z l S w go (P : zkey -> bool) :
  shape z l -> sorted_entries l S -> 32 <= w -> downward P ->
  (forall a e c nd, l = a ++ e :: c -> score nd = (e_key e).1 -> obj nd = Some (e_obj e) ->
    go (zlen a + 1) nd = Some (P (e_key e))) ->
  exists l1 l2 u, l = l1 ++ l2 /\ Forall (fun e => P (e_key e) = true) l1 /\
    Forall (fun e => P (e_key e) = false) l2 /\
    search z w go = Some (u, (at_ptr (header z) l1, zlen l1)) /\ cuts (header z) u l1 (zsl_level z).
Proof.
  intros Hz HS Hw HP Hgo. destruct (split_entries _ _ _ HS HP) as (l1 & l2 & -> & H1 & H2).
  destruct (zsl_search_spec z l1 l2 Hz w Hw go) as (u & Hu & Hc); [|by exists l1, l2, u].
  intros a e c nd Hs Hnd. destruct (shape_node _ _ _ _ _ _ Hz Hs Hnd) as [Hsc Ho].
  rewrite (Hgo a e c nd Hs Hsc Ho). f_equal. by eapply split_position.
Qed.

(** ** The tests of the searches *)

Lemma before_spec equal s o b n nd e :
  s <> NaN -> element_is o b -> entry_ok e -> score nd = (e_key e).1 -> obj nd = Some (e_obj e) ->
  before equal s o n nd = Some (if equal then negb (key_ltb (s, b) (e_key e)) else key_ltb (e_key e) (s, b)).
Proof.
  intros Hs Ho [He Hnan] Hsc Hob. unfold before. rewrite Hsc, Hob. unfold key_ltb. cbn [fst snd].
  destruct (compareStringObjects_spec _ _ _ _ He Ho) as (c & Hc & Hlex).
  destruct (decide ((e_key e).1 = s)) as [Heq|Heq].
  - rewrite Heq, dlt_irrefl, deq_eq, !bool_decide_true by done. bind_simpl. rewrite Hc. bind_simpl.
    rewrite (lex_compare_antisym (e_key e).2 b), <- Hlex. cbn. f_equal.
    destruct equal; [|by apply bool_decide_ext; rewrite Z.compare_lt_iff].
    destruct (Z.compare_spec c 0); cbn; rewrite ?bool_decide_true, ?bool_decide_false by (done || lia); done.
  - rewrite (deq_eq (e_key e).1 s), !(bool_decide_false (_ = _)) by congruence. cbn. rewrite !orb_false_r.
    rewrite (dlt_total s) by congruence. rewrite negb_involutive. by destruct dlt, equal.
Qed.

Lemma before_downward (equal : bool) s b : s <> NaN ->
  downward (fun k => if equal then negb (key_ltb (s, b) k) else key_ltb k (s, b)).
Proof.
  intros Hs x y Hx Hy Hxy. destruct equal; [|intros ?; change (key_lt x (s, b)); by transitivity y].
  rewrite !negb_true_iff. intros Hn. destruct (key_ltb (s, b) x) eqn:Hlt; [|done].
  rewrite <- Hn. symmetry. change (key_lt (s, b) y). by transitivity x.
Qed.

(** Scores in order. *)
Ltac by_cases_on_scores :=
  unfold dle; repeat match goal with x : double |- _ => destruct x as [|[]|] end; cbn;
  rewrite ?orb_true_iff, ?orb_false_iff, ?bool_decide_eq_true, ?bool_decide_eq_false;
  try done; try lia; intuition (done || lia || congruence).

Lemma dle_trans a b c : dle a b = true -> dle b c = true -> dle a c = true.
Proof. by_cases_on_scores. Qed.
Lemma dlt_dle_trans a b c : dlt a b = true -> dle b c = true -> dlt a c = true.
Proof. by_cases_on_scores. Qed.
Lemma dle_dlt_trans a b c : dle a b = true -> dlt b c = true -> dlt a c = true.
Proof. by_cases_on_scores. Qed.
Lemma dlt_negb a b : a <> NaN -> b <> NaN -> dlt a b = negb (dle b a).
Proof.
  destruct a as [|[]|], b as [|[]|]; unfold dle; cbn; try done; intros; repeat case_bool_decide; done || lia.
Qed.

Lemma key_lt_dle a b : a.1 <> NaN -> key_lt a b -> dle a.1 b.1 = true.
Proof.
  intros Ha. unfold key_lt, key_ltb, dle. rewrite !orb_true_iff, andb_true_iff, bool_decide_eq_true.
  intros [?|[<- _]]; [by left|right]. by rewrite deq_eq, bool_decide_true.
Qed.

(** [zslParseRange] does not accept NaN. *)
Definition range_ok (r : zrangespec) : Prop := min r <> NaN /\ max r <> NaN.
Definition in_range (r : zrangespec) (k : zkey) : bool := zslValueGteMin k.1 r && zslValueLteMax k.1 r.

Lemma below_downward r : downward (fun k => negb (zslValueGteMin k.1 r)).
Proof.
  intros a b Ha Hb Hab. rewrite !negb_true_iff. intros Hg.
  destruct (zslValueGteMin a.1 r) eqn:Hga; [|done]. rewrite <- Hg. symmetry. revert Hga.
  apply key_lt_dle in Hab; [|done]. unfold zslValueGteMin.
  destruct (minex r); eauto using dle_trans, dlt_dle_trans.
Qed.

Lemma within_downward r : downward (fun k => zslValueLteMax k.1 r).
Proof.
  intros a b Ha Hb Hab. apply key_lt_dle in Hab; [|done]. unfold zslValueLteMax.
  destruct (maxex r); eauto using dle_trans, dle_dlt_trans.
Qed.

(** The test of [zslDeleteRangeByScore] is the negation of [zslValueGteMin]. *)
Lemma below_min r s : range_ok r -> s <> NaN ->
  (if minex r then dle s (min r) else dlt s (min r)) = negb (zslValueGteMin s r).
Proof.
  intros [Hmin _] Hs. unfold zslValueGteMin. destruct (minex r); rewrite dlt_negb by done; by rewrite ?negb_involutive.
Qed.

Lemma empty_range r k : range_ok r ->
  dlt (max r) (min r) || (deq (min r) (max r) && (minex r || maxex r)) = true -> in_range r k = false.
Proof.
  destruct r as [mn mx [] []], k as [s b]; unfold range_ok, in_range, zslValueGteMin, zslValueLteMax, dle; cbn;
    destruct mn as [|[]|], mx as [|[]|], s as [|[]|]; cbn; try done; intros [? ?];
    repeat case_bool_decide; try done; lia.
Qed.

(** ** Updates of the list of keys *)

Definition zinsert (k : zkey) (S : list zkey) : list zkey :=
  filter (fun a => key_ltb a k = true) S ++ k :: filter (fun a => key_ltb a k = false) S.
Definition zremove (k : zkey) (S : list zkey) : list zkey := filter (fun a => a <> k) S.

Lemma sorted_app (S1 S2 : list zkey) : StronglySorted key_lt (S1 ++ S2) <->
  StronglySorted key_lt S1 /\ StronglySorted key_lt S2 /\ forall a b, a ∈ S1 -> b ∈ S2 -> key_lt a b.
Proof.
  induction S1 as [|a S1 IH]; cbn.
  - split; [intros; split_and!; [constructor|done|set_solver]|tauto].
  - split.
    + intros Hs. inversion Hs as [|? ? Hs' Ha]; subst. apply IH in Hs' as (H1 & H2 & H12).
      apply Forall_app in Ha as [Ha1 Ha2]. split_and!; [by constructor|done|].
      intros x y [->|Hx]%elem_of_cons Hy; [|by apply H12]. by eapply Forall_forall in Ha2.
    + intros (H1 & H2 & H12). inversion H1; subst. constructor.
      * apply IH. split_and!; [done|done|]. intros. apply H12; [by right|done].
      * apply Forall_app. split; [done|]. apply Forall_forall. intros. apply H12; [by left|done].
Qed.

Lemma key_lt_ne a b : key_lt a b -> a <> b.
Proof. intros Hab ->. unfold key_lt in Hab. by rewrite key_lt_irrefl in Hab. Qed.

Lemma zremove_middle S1 S2 k : StronglySorted key_lt (S1 ++ k :: S2) -> zremove k (S1 ++ k :: S2) = S1 ++ S2.
Proof.
  intros (H1 & H2 & H12)%sorted_app. inversion H2 as [|? ? _ Hk]; subst. rewrite Forall_forall in Hk.
  unfold zremove. rewrite filter_app, filter_cons_False by tauto. rewrite !filter_all; [done| |].
  - apply Forall_forall. intros a Ha. apply not_eq_sym, key_lt_ne, Hk, Ha.
  - apply Forall_forall. intros a Ha. apply key_lt_ne, H12; [done|left].
Qed.

Lemma zremove_absent S k : k ∉ S -> zremove k S = S.
Proof. intros Hk. apply filter_all, Forall_forall. intros a Ha ->. done. Qed.

(** The invariant of the keys is kept when entries are taken out. *)
Lemma sorted_entries_app l1 l2 l3 S : sorted_entries (l1 ++ l2 ++ l3) S ->
  sorted_entries (l1 ++ l3) (e_key <$> l1 ++ l3).
Proof.
  intros [<- Hs Hok]. rewrite !fmap_app in Hs. apply sorted_app in Hs as (H1 & (H2 & H3 & H23)%sorted_app & H123).
  apply Forall_app in Hok as [Hok1 [_ Hok3]%Forall_app]. constructor; [done| |by apply Forall_app].
  rewrite fmap_app. apply sorted_app. split_and!; [done|done|]. intros. apply H123; [done|]. apply elem_of_app. by right.
Qed.

Lemma sorted_entries_insert l1 l2 e S : sorted_entries (l1 ++ l2) S -> entry_ok e -> e_key e ∉ S ->
  Forall (fun a => key_ltb (e_key a) (e_key e) = true) l1 -> Forall (fun a => key_ltb (e_key a) (e_key e) = false) l2 ->
  sorted_entries (l1 ++ e :: l2) (zinsert (e_key e) S).
Proof.
  intros [<- Hs Hok] He Hnot H1 H2. unfold zinsert.
  destruct (filter_split (fun k => key_ltb k (e_key e)) l1 l2 H1 H2) as [-> ->].
  apply Forall_app in Hok as [Hok1 Hok2]. rewrite fmap_app in Hs, Hnot. apply sorted_app in Hs as (Hs1 & Hs2 & Hs12).
  constructor; [by rewrite fmap_app| |apply Forall_app; by split; [|constructor]].
  rewrite Forall_forall in H1. rewrite Forall_forall in H2. rewrite Forall_forall in Hok2.
  assert (forall b, b ∈ e_key <$> l2 -> key_lt (e_key e) b) as Hlt.
  { intros b Hin. pose proof Hin as (e' & -> & He')%list_elem_of_fmap. unfold key_lt.
    rewrite key_lt_total; [by rewrite H2|apply He|by apply Hok2|]. intros Heq. apply Hnot. rewrite Heq. set_solver. }
  apply sorted_app. split_and!; [done| |].
  - constructor; [done|]. apply Forall_forall. auto.
  - intros a b (e' & -> & He')%list_elem_of_fmap [->|Hb]%elem_of_cons; [by apply H1|].
    apply Hs12; [set_solver|done].
Qed.

Lemma entry_ok_at a e c S : sorted_entries (a ++ e :: c) S -> entry_ok e.
Proof. intros HS. by pose proof (entries_ok _ _ HS) as [_ [Hok _]%Forall_cons]%Forall_app. Qed.

(** The node after the last of [l1]. *)
Lemma next_after z l1 l2 : shape z (l1 ++ l2) ->
  exists lv, level_of (heap z) (at_ptr (header z) l1) 0 = Some lv /\ forward lv = e_ptr <$> head l2.
Proof.
  intros Hz. exists (link 0 l2). destruct (shape_split _ _ _ Hz) as [H1 H2]. split; [|by apply forward_head].
  apply (shape_link _ _ Hz); [done|destruct (shape_level _ _ Hz); lia|].
  unfold top. destruct (last l1) as [e|] eqn:He; [|done]. apply last_Some in He as [l1' ->].
  apply Forall_app in H1 as [_ [He _]%Forall_cons]. lia.
Qed.

Lemma key_absent l1 l2 S k : sorted_entries (l1 ++ l2) S ->
  Forall (fun e => key_ltb (e_key e) k = true) l1 -> Forall (fun e => key_ltb (e_key e) k = false) l2 ->
  (forall e, head l2 = Some e -> e_key e <> k) -> k ∉ S.
Proof.
  intros [<- Hs _] H1 H2 Hne (e & -> & [He|He]%elem_of_app)%list_elem_of_fmap.
  - rewrite Forall_forall in H1. specialize (H1 e He). by rewrite key_lt_irrefl in H1.
  - destruct l2 as [|e2 l2]; [by apply elem_of_nil in He|]. apply elem_of_cons in He as [->|He].
    { by apply (Hne e2). }
    rewrite fmap_app in Hs. apply sorted_app in Hs as (_ & Hs & _). inversion Hs as [|? ? _ Hlt]; subst.
    rewrite Forall_forall in Hlt. inversion H2 as [|? ? Hge _]; subst.
    specialize (Hlt (e_key e) (list_elem_of_fmap_2 _ _ _ He)). unfold key_lt in Hlt. congruence.
Qed.

(** ** Insertion and deletion *)

Section Operations.
Context (zmalloc : memory -> ptr) (junk : level) (Hfresh : fresh_alloc zmalloc).

Lemma zslInsert_refines z S randoms s o b :
  zsl_repr z S -> zlen S + 1 < 2 ^ 32 -> random_ok randoms -> s <> NaN -> element_is o b -> (s, b) ∉ S ->
  exists z' x rest, zslInsert zmalloc junk z randoms s o = Some (z', x, rest) /\ zsl_repr z' (zinsert (s, b) S).
Proof using Hfresh.
  intros (l & Hz & HS) Hlen Hr Hs Ho Hnot.
  destruct (split_entries _ _ _ HS (before_downward false s b Hs)) as (l1 & l2 & -> & H1 & H2).
  destruct (zslInsert_spec zmalloc junk Hfresh z l1 l2 randoms s o b Hz) as (z' & x & n & rest & -> & Hz'); try done.
  - rewrite <- (entries_keys _ _ HS), length_fmap in Hlen. done.
  - intros a e c nd Hl Hnd. destruct (shape_node _ _ _ _ _ _ Hz Hl Hnd) as [Hsc Hob].
    rewrite (before_spec false s o b _ nd e); try done.
    + f_equal. by apply (split_position l1 l2 a e c (fun k => key_ltb k (s, b))).
    + rewrite Hl in HS. by eapply entry_ok_at.
  - exists z', x, rest. split; [done|]. eexists. split; [exact Hz'|]. by apply (sorted_entries_insert l1 l2 (Entry x n (s, b) o)).
Qed.
End Operations.

Lemma zslDelete_refines z S s o b :
  zsl_repr z S -> s <> NaN -> element_is o b ->
  exists z', zslDelete z s o = Some (z', bool_decide ((s, b) ∈ S)) /\ zsl_repr z' (zremove (s, b) S).
Proof.
  intros (l & Hz & HS) Hs Ho. unfold zslDelete.
  destruct (search_downward z l S 64 (before false s o) _ Hz HS ltac:(lia) (before_downward false s b Hs))
    as (l1 & l2 & u & -> & H1 & H2 & -> & Hu).
  { intros a e c nd -> Hsc Hob. apply (before_spec false s o b _ nd e); try done. by eapply entry_ok_at. }
  bind_simpl. destruct (next_after z l1 l2 Hz) as (lv & -> & Hlv). bind_simpl. rewrite Hlv.
  destruct l2 as [|e l2]; cbn [head fmap option_fmap option_map].
  { exists z. pose proof (key_absent l1 [] S (s, b) HS H1 H2 ltac:(done)) as Hnot.
    rewrite bool_decide_false, zremove_absent by done. split; [done|]. by exists (l1 ++ []). }
  destruct (shape_node_exists z _ l1 e l2 Hz eq_refl) as (nd & -> & Hsc & Hob). bind_simpl.
  pose proof (entry_ok_at _ _ _ _ HS) as Hok. pose proof (equalStringObjects_spec _ _ _ _ (proj1 Hok) Ho) as Heq.
  rewrite Hsc, deq_eq, Hob by done. bind_simpl. rewrite Heq.
  assert ((if bool_decide (s = (e_key e).1) then Some (bool_decide ((e_key e).2 = b)) else Some false) =
    Some (bool_decide (e_key e = (s, b)))) as ->.
  { destruct (e_key e) as [s' b']. cbn. repeat case_bool_decide; naive_solver. }
  bind_simpl. clear Heq. destruct (bool_decide_reflect (e_key e = (s, b))) as [Hk|Hk].
  - destruct (zslDeleteNode_spec z l1 l2 e u _ Hz Hu ltac:(done)) as (z' & -> & _ & _ & Hz'). bind_simpl.
    eexists. split; [|eexists; split; [exact Hz'|]].
    + rewrite bool_decide_true; [reflexivity|]. rewrite <- (entries_keys _ _ HS), <- Hk. set_solver.
    + pose proof (sorted_entries_app l1 [e] l2 S HS) as HS'. pose proof (entries_sorted _ _ HS) as Hso.
      rewrite <- (entries_keys _ _ HS) in Hso |- *. rewrite fmap_app in Hso |- *. cbn in Hso |- *.
      rewrite Hk in Hso |- *. by rewrite zremove_middle, <- fmap_app.
  - assert ((s, b) ∉ S) as Hnot by (apply (key_absent _ _ _ _ HS H1 H2); naive_solver).
    exists z. rewrite bool_decide_false, zremove_absent by done. split; [done|]. by exists (l1 ++ e :: l2).
Qed.

(** ** Range deletions *)

Definition dict_remove (d : gmap bytes double) (ks : list zkey) : gmap bytes double :=
  foldl (fun d k => delete k.2 d) d ks.

Lemma delete_loop_spec inside u n mid : forall fuel z l1 rest d removed,
  shape z (l1 ++ mid ++ rest) -> cuts (header z) u l1 n -> (zsl_level z <= n)%nat ->
  Forall entry_ok mid -> (length (mid ++ rest) <= fuel)%nat -> 0 <= removed -> removed + zlen mid < 2 ^ 64 ->
  (forall i e nd, (mid ++ rest) !! i = Some e -> (i <= length mid)%nat -> score nd = (e_key e).1 ->
    inside (removed + Z.of_nat i) nd = bool_decide (i < length mid)%nat) ->
  exists z', delete_loop fuel inside u (e_ptr <$> head (mid ++ rest)) z d removed =
      Some (z', dict_remove d (e_key <$> mid), removed + zlen mid) /\ shape z' (l1 ++ rest).
Proof.
  induction mid as [|e mid IH]; intros fuel z l1 rest d removed Hz Hu Hn Hok Hfuel Hr0 Hr Hin.
  - exists z. rewrite Z.add_0_r. split; [|done]. cbn [app] in *.
    destruct rest as [|e rest]; [by destruct fuel|]. destruct fuel as [|fuel]; [cbn in Hfuel; lia|].
    cbn [head fmap option_fmap option_map delete_loop].
    destruct (shape_node_exists z _ l1 e rest Hz eq_refl) as (nd & -> & Hsc & _). bind_simpl.
    specialize (Hin 0%nat e nd eq_refl ltac:(cbn; lia) Hsc). rewrite Z.add_0_r in Hin. by rewrite Hin.
  - destruct fuel as [|fuel]; [cbn in Hfuel; lia|]. cbn [app head fmap option_fmap option_map delete_loop] in *.
    destruct (shape_node_exists z _ l1 e (mid ++ rest) Hz eq_refl) as (nd & -> & Hsc & Hob). bind_simpl.
    pose proof (Hin 0%nat e nd eq_refl ltac:(cbn; lia) Hsc) as Hin0. rewrite Z.add_0_r in Hin0. rewrite Hin0.
    cbn [length]. rewrite bool_decide_true by lia.
    destruct (next_after z (l1 ++ [e]) (mid ++ rest)) as (lv & Hlv & Hf); [by rewrite <- app_assoc|].
    rewrite at_ptr_snoc in Hlv. rewrite Hlv. bind_simpl.
    destruct (zslDeleteNode_spec z l1 (mid ++ rest) e u n Hz Hu Hn) as (z' & -> & Hhd & Hlev & Hz'). bind_simpl.
    rewrite Hob. bind_simpl. apply Forall_cons in Hok as [[[Ho _] _] Hok]. unfold dict_delete. rewrite Ho. bind_simpl.
    rewrite Hf, uwrap_small by (unfold urange; cbn in Hr; lia).
    destruct (IH fuel _ l1 rest (delete (e_key e).2 d) (removed + 1) Hz') as (z'' & -> & Hz''); cbn; try done; try lia.
    + by rewrite Hhd.
    + cbn in Hfuel; lia.
    + cbn in Hr; lia.
    + intros i e' nd' Hi Hle Hs'. replace (removed + 1 + Z.of_nat i) with (removed + Z.of_nat (S i)) by lia.
      rewrite (Hin (S i) e' nd' Hi ltac:(cbn; lia) Hs'). apply bool_decide_ext. cbn. lia.
    + exists z''. split; [|done]. f_equal. f_equal. lia.
Qed.

(** Deleting the part [mid] found between the search and the end of the loop. *)
Lemma delete_part z S u l1 mid rest inside d :
  shape z (l1 ++ mid ++ rest) -> sorted_entries (l1 ++ mid ++ rest) S -> cuts (header z) u l1 (zsl_level z) ->
  (forall i e nd, (mid ++ rest) !! i = Some e -> (i <= length mid)%nat -> score nd = (e_key e).1 ->
    inside (Z.of_nat i) nd = bool_decide (i < length mid)%nat) ->
  exists z', delete_loop (size (heap z)) inside u (e_ptr <$> head (mid ++ rest)) z d 0 =
      Some (z', dict_remove d (e_key <$> mid), zlen mid) /\ zsl_repr z' (e_key <$> l1 ++ rest).
Proof.
  intros Hz HS Hu Hin. pose proof (entries_ok _ _ HS) as [_ [Hok _]%Forall_app]%Forall_app.
  destruct (shape_length _ _ Hz) as [_ Hlen]. rewrite !length_app in Hlen.
  destruct (delete_loop_spec inside u (zsl_level z) mid (size (heap z)) z l1 rest d 0 Hz Hu)
    as (z' & -> & Hz'); try done.
  - rewrite (shape_size _ _ Hz), !length_app. lia.
  - lia.
  - exists z'. split; [done|]. exists (l1 ++ rest). split; [done|]. by eapply sorted_entries_app.
Qed.

Lemma filter_entries (P : zkey -> bool) b c l : Forall (fun e => P (e_key e) = b) l ->
  filter (fun k => P k = c) (e_key <$> l) = if bool_decide (b = c) then e_key <$> l else [].
Proof.
  intros Hl. case_bool_decide as Hbc; [apply filter_all|apply filter_none]; apply Forall_fmap;
    (eapply Forall_impl; [exact Hl|]); cbn; congruence.
Qed.

(** The entries of a range lie between those below it and those above. *)
Lemma split_range l S r : sorted_entries l S -> range_ok r ->
  forall l1 l2, l = l1 ++ l2 -> Forall (fun e => negb (zslValueGteMin (e_key e).1 r) = true) l1 ->
  Forall (fun e => negb (zslValueGteMin (e_key e).1 r) = false) l2 ->
  exists mid rest, l2 = mid ++ rest /\ Forall (fun e => zslValueLteMax (e_key e).1 r = true) mid /\
    Forall (fun e => zslValueLteMax (e_key e).1 r = false) rest /\
    filter (fun k => in_range r k = true) S = e_key <$> mid /\
    filter (fun k => in_range r k = false) S = e_key <$> l1 ++ rest.
Proof.
  intros HS Hr l1 l2 -> H1 H2. rewrite <- (app_nil_r (l1 ++ l2)), <- app_assoc in HS.
  pose proof (sorted_entries_app [] l1 (l2 ++ []) S HS) as HS2. cbn in HS2. rewrite app_nil_r in HS2.
  destruct (split_entries _ _ _ HS2 (within_downward r)) as (mid & rest & -> & H3 & H4).
  exists mid, rest. split_and!; try done; rewrite <- (entries_keys _ _ HS), app_nil_r, !fmap_app, !filter_app;
    apply Forall_app in H2 as [H2 H2'];
    rewrite (filter_entries _ false _ l1), (filter_entries _ true _ mid), (filter_entries _ false _ rest);
    rewrite ?app_nil_r; try done; unfold in_range; eapply Forall_impl; try exact H1;
    try (eapply Forall_and; split; [exact H2|exact H3]); try (eapply Forall_and; split; [exact H2'|exact H4]);
    cbn; intros e; destruct (zslValueGteMin _ r), (zslValueLteMax _ r); naive_solver.
Qed.

Lemma zslDeleteRangeByScore_refines z S r d :
  zsl_repr z S -> range_ok r ->
  exists z', zslDeleteRangeByScore z r d =
      Some (z', dict_remove d (filter (fun k => in_range r k = true) S),
            zlen (filter (fun k => in_range r k = true) S)) /\
    zsl_repr z' (filter (fun k => in_range r k = false) S).
Proof.
  intros (l & Hz & HS) Hr. unfold zslDeleteRangeByScore.
  destruct (search_downward z l S 64 (fun _ nd => Some (if minex r then dle (score nd) (min r) else dlt (score nd) (min r)))
    _ Hz HS ltac:(lia) (below_downward r)) as (l1 & l2 & u & -> & H1 & H2 & -> & Hu).
  { intros a e c nd -> Hsc _. rewrite Hsc, below_min; [done|done|]. by apply (entry_ok_at _ _ _ _ HS). }
  bind_simpl. destruct (next_after z l1 l2 Hz) as (lv & -> & Hf). bind_simpl. rewrite Hf.
  destruct (split_range _ _ _ HS Hr l1 l2 eq_refl H1 H2) as (mid & rest & -> & H3 & H4 & -> & ->).
  destruct (delete_part z S u l1 mid rest
    (fun _ nd => if maxex r then dlt (score nd) (max r) else dle (score nd) (max r)) d Hz HS Hu)
    as (z' & -> & Hz'); [|exists z'; by rewrite length_fmap].
  intros i e nd Hi _ Hsc. rewrite Hsc. apply list_elem_of_split_length in Hi as (a & c & Hl & ->).
  by apply (split_position mid rest a e c (fun k => zslValueLteMax k.1 r)).
Qed.

Lemma zslDeleteRangeByRank_refines z S start end_ d :
  zsl_repr z S -> 1 <= start < 2 ^ 32 -> 0 <= end_ < 2 ^ 32 ->
  let mid := take (Z.to_nat (end_ + 1 - start)) (drop (Z.to_nat (start - 1)) S) in
  exists z', zslDeleteRangeByRank z start end_ d = Some (z', dict_remove d mid, zlen mid) /\
    zsl_repr z' (take (Z.to_nat (start - 1)) S ++ drop (Z.to_nat (end_ + 1 - start)) (drop (Z.to_nat (start - 1)) S)).
Proof.
  intros (l & Hz & HS) Hs He mid. unfold zslDeleteRangeByRank.
  set (n := Z.to_nat (start - 1)) in *. set (k := Z.to_nat (end_ + 1 - start)) in *.
  rewrite <- (take_drop n l) in Hz. pose proof (shape_length _ _ Hz) as [_ Hlen]. rewrite take_drop in Hlen.
  destruct (zsl_search_spec z (take n l) (drop n l) Hz 64 ltac:(lia) (fun next _ => Some (bool_decide (next < start))))
    as (u & -> & Hu).
  { intros a e c nd Hl _. f_equal. apply bool_decide_ext. apply (f_equal length) in Hl.
    rewrite take_drop, length_app in Hl. cbn in Hl. rewrite length_take. lia. }
  bind_simpl. destruct (next_after z _ _ Hz) as (lv & -> & Hf). bind_simpl.
  rewrite <- (take_drop k (drop n l)) in Hz. rewrite <- (take_drop n l), <- (take_drop k (drop n l)) in HS.
  rewrite <- (take_drop k (drop n l)) in Hf. rewrite Hf.
  destruct (delete_part z S u (take n l) (take k (drop n l)) (drop k (drop n l))
    (fun removed _ => bool_decide (uwrap 64 (uwrap 64 (zlen (take n l) + 1) + removed) <= end_)) d Hz HS Hu)
    as (z' & -> & Hz').
  { intros i e nd Hi Hle _. apply bool_decide_ext. apply lookup_lt_Some in Hi.
    rewrite take_drop, length_drop in Hi. rewrite length_take, length_drop in Hle.
    rewrite !length_take, length_drop, !uwrap_small; unfold urange;
      rewrite ?uwrap_small; unfold urange; lia. }
  exists z'. rewrite !take_drop in HS. unfold mid. rewrite <- (entries_keys _ _ HS).
  rewrite fmap_app, fmap_take, !fmap_drop in Hz'. rewrite fmap_take, fmap_drop.
  split; [|done]. by rewrite <- fmap_drop, <- fmap_take, length_fmap.
Qed.

(** ** Searching a range of scores *)

Lemma sorted_head k S a : StronglySorted key_lt (k :: S) -> a ∈ k :: S -> a = k \/ key_lt k a.
Proof.
  intros Hs [->|Ha]%elem_of_cons; [by left|right]. inversion Hs as [|? ? _ Hk]; subst. by eapply Forall_forall in Hk.
Qed.
Lemma sorted_last k S a : StronglySorted key_lt (S ++ [k]) -> a ∈ S ++ [k] -> a = k \/ key_lt a k.
Proof.
  intros (_ & _ & Hlt)%sorted_app [Ha| ->%list_elem_of_singleton]%elem_of_app; [right|by left].
  apply Hlt; [done|by left].
Qed.

Lemma scores_ok l S k : sorted_entries l S -> k ∈ S -> k.1 <> NaN.
Proof.
  intros [<- _ Hok] (e & -> & He)%list_elem_of_fmap. rewrite Forall_forall in Hok. by apply Hok.
Qed.

Lemma not_in_range r S : (forall k, k ∈ S -> in_range r k = false) -> filter (fun k => in_range r k = true) S = [].
Proof. intros H. apply filter_none, Forall_forall. intros k Hk. by rewrite H. Qed.

(** Above the first key, below the last: out of range when it is. *)
Lemma first_above l r k S : sorted_entries l (k :: S) -> zslValueLteMax k.1 r = false ->
  forall a, a ∈ k :: S -> in_range r a = false.
Proof.
  intros HS Hk a Ha. unfold in_range. rewrite andb_false_iff. right.
  destruct (sorted_head _ _ _ (entries_sorted _ _ HS) Ha) as [->|Hlt]; [done|].
  destruct (zslValueLteMax a.1 r) eqn:Hla; [|done]. rewrite <- Hk. symmetry.
  apply (within_downward r k a); try done; eapply scores_ok; try exact HS; [left|done].
Qed.
Lemma last_below l r k S : sorted_entries l (S ++ [k]) -> zslValueGteMin k.1 r = false ->
  forall a, a ∈ S ++ [k] -> in_range r a = false.
Proof.
  intros HS Hk a Ha. unfold in_range. rewrite andb_false_iff. left. rewrite <- negb_true_iff.
  destruct (sorted_last _ _ _ (entries_sorted _ _ HS) Ha) as [->|Hlt]; [by rewrite Hk|].
  apply (below_downward r a k); try done; [eapply scores_ok; [exact HS|done]| |by rewrite Hk].
  eapply scores_ok; [exact HS|]. set_solver.
Qed.

Lemma zslIsInRange_spec z l S r : shape z l -> sorted_entries l S -> range_ok r ->
  exists b, zslIsInRange z r = Some b /\
    if b then (exists e l', l = e :: l' /\ zslValueLteMax (e_key e).1 r = true) /\
              (exists e l', l = l' ++ [e] /\ zslValueGteMin (e_key e).1 r = true)
    else filter (fun k => in_range r k = true) S = [].
Proof.
  intros Hz HS Hr. unfold zslIsInRange. destruct (dlt (max r) (min r) || _) eqn:Hempty.
  { exists false. split; [done|]. apply not_in_range. intros. by apply empty_range. }
  rewrite (shape_tail _ _ Hz). destruct l as [|e l' _] using rev_ind.
  { exists false. split; [done|]. by rewrite <- (entries_keys _ _ HS). }
  rewrite backward_of_snoc. destruct (shape_node_exists z _ l' e [] Hz eq_refl) as (nd & -> & Hsc & _).
  bind_simpl. rewrite Hsc. destruct (zslValueGteMin (e_key e).1 r) eqn:Hge; cbn [negb].
  2: { exists false. split; [done|]. apply not_in_range. pose proof HS as HS'. rewrite <- (entries_keys _ _ HS), fmap_app in HS' |- *.
       by apply (last_below _ _ _ _ HS'). }
  destruct (next_after z [] (l' ++ [e]) Hz) as (lv & Hlv & Hf). cbn [at_ptr last] in Hlv. rewrite Hlv. bind_simpl. rewrite Hf.
  destruct (l' ++ [e]) as [|e0 l0] eqn:Hl; [by destruct l'|]. cbn [head fmap option_fmap option_map].
  destruct (shape_node_exists z _ [] e0 l0 Hz eq_refl) as (nd0 & -> & Hsc0 & _). bind_simpl. rewrite Hsc0.
  eexists. split; [done|]. destruct (zslValueLteMax (e_key e0).1 r) eqn:Hle; [by split; eauto|].
  apply not_in_range. pose proof HS as HS'. rewrite <- (entries_keys _ _ HS) in HS' |- *. by apply (first_above _ _ _ _ HS').
Qed.

Lemma zslFirstInRange_spec z l S r : shape z l -> sorted_entries l S -> range_ok r ->
  exists p, zslFirstInRange z r = Some p /\ (p ≫= node_key z) = head (filter (fun k => in_range r k = true) S).
Proof.
  intros Hz HS Hr. unfold zslFirstInRange. destruct (zslIsInRange_spec z l S r Hz HS Hr) as ([] & -> & Hb); bind_simpl; cbn [negb].
  2: { exists None. by rewrite Hb. }
  destruct Hb as [_ (el & l' & Hlast & Hge)].
  destruct (search_downward z l S 64 (fun _ nd => Some (negb (zslValueGteMin (score nd) r)))
    _ Hz HS ltac:(lia) (below_downward r)) as (l1 & l2 & u & -> & H1 & H2 & -> & Hu).
  { intros a e c nd _ Hsc _. by rewrite Hsc. }
  bind_simpl. destruct (next_after z l1 l2 Hz) as (lv & -> & Hf). bind_simpl. rewrite Hf.
  destruct l2 as [|e l2]; cbn [head fmap option_fmap option_map].
  { exfalso. rewrite app_nil_r in Hlast. subst l1. apply Forall_app in H1 as [_ [H1 _]%Forall_cons]. by rewrite Hge in H1. }
  bind_simpl. destruct (shape_node_exists z _ l1 e l2 Hz eq_refl) as (nd & -> & Hsc & _). bind_simpl. rewrite Hsc.
  eexists. split; [done|]. pose proof HS as HS'. rewrite <- (entries_keys _ _ HS), fmap_app, filter_app.
  rewrite (filter_none _ (e_key <$> l1)).
  2: { apply Forall_fmap. eapply Forall_impl; [exact H1|]. cbn. unfold in_range. intros e0 Hn%negb_true_iff. by rewrite Hn. }
  apply Forall_cons in H2 as [H2 _]. rewrite negb_false_iff in H2.
  destruct (zslValueLteMax (e_key e).1 r) eqn:Hle; cbn [negb app fmap list_fmap].
  - rewrite filter_cons_True by (unfold in_range; by rewrite H2, Hle). cbn.
    apply (shape_node_key z _ l1 e l2 Hz eq_refl). by apply (entry_ok_at _ _ _ _ HS).
  - pose proof (sorted_entries_app [] l1 (e :: l2) S) as HS2. cbn [app] in HS2.
    rewrite (not_in_range r); [done|]. apply (first_above (e :: l2)); [|done]. by apply HS2.
Qed.

Lemma zslLastInRange_spec z l S r : shape z l -> sorted_entries l S -> range_ok r ->
  exists p, zslLastInRange z r = Some p /\ (p ≫= node_key z) = last (filter (fun k => in_range r k = true) S).
Proof.
  intros Hz HS Hr. unfold zslLastInRange. destruct (zslIsInRange_spec z l S r Hz HS Hr) as ([] & -> & Hb); bind_simpl; cbn [negb].
  2: { exists None. by rewrite Hb. }
  destruct Hb as [(ef & l' & Hfirst & Hle) _].
  destruct (search_downward z l S 64 (fun _ nd => Some (zslValueLteMax (score nd) r))
    _ Hz HS ltac:(lia) (within_downward r)) as (l1 & l2 & u & -> & H1 & H2 & -> & Hu).
  { intros a e c nd _ Hsc _. by rewrite Hsc. }
  bind_simpl. destruct l1 as [|e l1 _] using rev_ind.
  { exfalso. cbn in Hfirst. subst l2. apply Forall_cons in H2 as [H2 _]. congruence. }
  rewrite at_ptr_snoc. rewrite <- app_assoc in Hz, HS. cbn [app] in Hz, HS.
  destruct (shape_node_exists z _ l1 e l2 Hz eq_refl) as (nd & -> & Hsc & _). bind_simpl. rewrite Hsc.
  eexists. split; [done|]. rewrite <- (entries_keys _ _ HS), fmap_app, fmap_cons, filter_app, filter_cons.
  rewrite (filter_none _ (e_key <$> l2)).
  2: { apply Forall_fmap. eapply Forall_impl; [exact H2|]. cbn. unfold in_range. intros e0 ->. by rewrite andb_false_r. }
  apply Forall_app in H1 as [_ [H1 _]%Forall_cons].
  destruct (zslValueGteMin (e_key e).1 r) eqn:Hge; cbn [negb].
  - rewrite decide_True by (unfold in_range; by rewrite Hge, H1). rewrite last_snoc. cbn.
    apply (shape_node_key z _ l1 e l2 Hz eq_refl). by apply (entry_ok_at _ _ _ _ HS).
  - rewrite decide_False by (unfold in_range; by rewrite Hge). rewrite app_nil_r.
    assert (sorted_entries (l1 ++ [e]) ((e_key <$> l1) ++ [e_key e])) as HS1.
    { pose proof (sorted_entries_app (l1 ++ [e]) l2 [] S) as HS1. rewrite !app_nil_r, <- app_assoc, fmap_app in HS1. by apply HS1. }
    rewrite (not_in_range r); [done|]. intros a Ha. apply (last_below _ _ _ _ HS1 Hge). set_solver.
Qed.

(** ** Ranks *)

Section Rank.
Context (z : zskiplist) (l1 l2 : list entry) (S : list zkey) (s : double) (o : robj) (b : list Z).
Context (Hz : shape z (l1 ++ l2)) (HS : sorted_entries (l1 ++ l2) S) (Hs : s <> NaN) (Ho : element_is o b).
Context (H1 : Forall (fun e => negb (key_ltb (s, b) (e_key e)) = true) l1)
  (H2 : Forall (fun e => negb (key_ltb (s, b) (e_key e)) = false) l2).

(** The last entry of [a] has the element searched for. *)
Definition ends_with (a : list entry) : bool :=
  match last a with Some e => bool_decide ((e_key e).2 = b) | None => false end.

Lemma rank_step i a m : l1 = a ++ m -> top i a -> (i < zsl_level z)%nat ->
  exists a', cut i l1 a' /\
    rank_loop (Datatypes.S i) z s o (at_ptr (header z) a) (zlen a) =
    if ends_with a' then Some (zlen a') else rank_loop i z s o (at_ptr (header z) a') (zlen a').
Proof using All.
  intros Hl Ht Hi. cbn [rank_loop].
  destruct (walk_spec z l1 l2 Hz 64 ltac:(lia) (before true s o)) with (i := i) (m := m) (a := a)
    (fuel := Datatypes.S (size (heap z))) as (a' & Hcut & ->); try done.
  { intros a0 e c nd Hs0 Hnd. destruct (shape_node _ _ _ _ _ _ Hz Hs0 Hnd) as [Hsc Hob].
    rewrite (before_spec true s o b _ nd e); try done; [|rewrite Hs0 in HS; by eapply entry_ok_at].
    f_equal. by apply (split_position l1 l2 a0 e c (fun k => negb (key_ltb (s, b) k))). }
  { rewrite (shape_size _ _ Hz), Hl, !length_app. lia. }
  bind_simpl. exists a'. split; [done|]. unfold ends_with. destruct Hcut as (m' & Hl' & _).
  destruct a' as [|e a' _] using rev_ind; cbn [last].
  - cbn [at_ptr last]. pose proof (shape_header _ _ Hz) as (nd & -> & _ & Hob & _)%core_of_node.
    bind_simpl. by rewrite Hob.
  - assert (l1 ++ l2 = a' ++ e :: m' ++ l2) as Hs0 by (by rewrite Hl', <- !app_assoc).
    rewrite at_ptr_snoc, last_snoc. destruct (shape_node_exists z _ a' e _ Hz Hs0) as (nd & -> & _ & Hob).
    bind_simpl. rewrite Hob. rewrite Hs0 in HS. pose proof (entry_ok_at _ _ _ _ HS) as [He _].
    by rewrite (equalStringObjects_spec _ _ _ _ He Ho).
Qed.

Lemma rank_loop_absent n : forall a m, b ∉ snd <$> S -> l1 = a ++ m -> (n <= zsl_level z)%nat ->
  (n <> 0 -> top (n - 1) a)%nat -> rank_loop n z s o (at_ptr (header z) a) (zlen a) = Some 0.
Proof using All.
  induction n as [|i IH]; intros a m Hb Hl Hn Ht; [done|].
  destruct (rank_step i a m Hl) as (a' & (m' & Hl' & Ht' & Hm') & ->).
  { replace i with (Datatypes.S i - 1)%nat by lia. auto. } { lia. }
  assert (ends_with a' = false) as ->.
  { unfold ends_with. destruct (last a') as [e|] eqn:He; [|done]. apply bool_decide_false. intros Heq.
    apply Hb. rewrite <- (entries_keys _ _ HS), <- Heq, Hl'. apply last_Some in He as [a'' ->].
    rewrite !fmap_app. set_solver. }
  apply (IH a' m'); [done|done|lia|]. intros _. eapply top_mono; [|exact Ht']. lia.
Qed.

Lemma rank_loop_present n : forall a m, NoDup (snd <$> S) -> ends_with l1 = true -> l1 = a ++ m ->
  (n <= zsl_level z)%nat -> (0 < n)%nat -> top (n - 1) a ->
  rank_loop n z s o (at_ptr (header z) a) (zlen a) = Some (zlen l1).
Proof using All.
  induction n as [|i IH]; intros a m Hnd Hend Hl Hn Hpos Ht; [lia|].
  replace (Datatypes.S i - 1)%nat with i in Ht by lia.
  destruct (rank_step i a m Hl Ht ltac:(lia)) as (a' & Hcut & ->). pose proof Hcut as (m' & Hl' & Ht' & Hm').
  destruct (ends_with a') eqn:Ha'.
  - assert (m' = []) as ->; [|by rewrite Hl', app_nil_r].
    destruct m' as [|e m' _] using rev_ind; [done|exfalso].
    unfold ends_with in Hend, Ha'. rewrite Hl', app_assoc, last_snoc in Hend. apply bool_decide_eq_true in Hend.
    destruct (last a') as [e'|] eqn:He'; [|done]. apply bool_decide_eq_true in Ha'. apply last_Some in He' as [a'' ->].
    revert Hnd. rewrite <- (entries_keys _ _ HS), Hl', !fmap_app, <- !app_assoc. cbn. rewrite Ha', Hend.
    intros (_ & _ & [Hnd _]%NoDup_cons)%NoDup_app. apply Hnd. set_solver.
  - destruct (decide (i = 0)%nat) as [->|].
    { apply cut_0 in Hcut as ->; [congruence|]. by destruct (shape_split _ _ _ Hz). }
    apply (IH a' m'); try done; [lia|lia|]. eapply top_mono; [|exact Ht']. lia.
Qed.
End Rank.

Lemma sorted_NoDup S : StronglySorted key_lt S -> NoDup S.
Proof.
  induction 1 as [|k S _ IH Hk]; [constructor|]. apply NoDup_cons. split; [|done].
  intros Hin. rewrite Forall_forall in Hk. by apply (key_lt_ne k k (Hk k Hin)).
Qed.

(** The entries up to a key end with it. *)
Lemma split_at_key l1 l2 S k : sorted_entries (l1 ++ l2) S -> k ∈ S ->
  Forall (fun e => negb (key_ltb k (e_key e)) = true) l1 -> Forall (fun e => negb (key_ltb k (e_key e)) = false) l2 ->
  exists a e, l1 = a ++ [e] /\ e_key e = k.
Proof.
  intros HS Hk H1 H2. rewrite <- (entries_keys _ _ HS) in Hk.
  apply list_elem_of_fmap in Hk as (e & -> & [He|He]%elem_of_app).
  2: { rewrite Forall_forall in H2. specialize (H2 e He). by rewrite key_lt_irrefl in H2. }
  apply list_elem_of_split in He as (a & c & ->). exists a, e. split; [|done].
  destruct c as [|e' c]; [done|exfalso]. apply Forall_app in H1 as [_ [_ [H1 _]%Forall_cons]%Forall_cons].
  pose proof (entries_sorted _ _ HS) as Hso. rewrite <- (entries_keys _ _ HS), <- app_assoc, fmap_app in Hso.
  apply sorted_app in Hso as (_ & Hso & _). inversion Hso as [|? ? _ Hx]; subst.
  apply Forall_cons in Hx as [Hx _]. unfold key_lt in Hx. by rewrite Hx in H1.
Qed.

Lemma zslGetRank_spec z S s o b :
  zsl_repr z S -> s <> NaN -> element_is o b -> NoDup (snd <$> S) ->
  (forall i, S !! i = Some (s, b) -> zslGetRank z s o = Some (Z.of_nat i + 1)) /\
  (b ∉ snd <$> S -> zslGetRank z s o = Some 0).
Proof.
  intros (l & Hz & HS) Hs Ho Hnd. unfold zslGetRank. destruct (shape_level _ _ Hz) as [Hlev _].
  destruct (split_entries _ _ _ HS (before_downward true s b Hs)) as (l1 & l2 & -> & H1 & H2).
  split; [|intros Hb; by apply (rank_loop_absent z l1 l2 S s o b Hz HS Hs Ho H1 H2 _ [] l1)].
  intros i Hi. destruct (split_at_key l1 l2 S (s, b) HS) as (a & e & Hl1 & He); try done.
  { by eapply list_elem_of_lookup_2. }
  assert (i = length a) as ->.
  { eapply (NoDup_lookup S); [by eapply sorted_NoDup, HS|exact Hi|].
    rewrite <- (entries_keys _ _ HS), Hl1, <- app_assoc, fmap_app, lookup_app_r, length_fmap, Nat.sub_diag
      by (by rewrite length_fmap). cbn. by rewrite He. }
  rewrite (rank_loop_present z l1 l2 S s o b Hz HS Hs Ho H1 H2 _ [] l1); try done.
  - rewrite Hl1, length_app. cbn. f_equal. lia.
  - unfold ends_with. rewrite Hl1, last_snoc, bool_decide_true; [done|]. by rewrite He.
Qed.

(** ** Elements by rank *)

Lemma by_rank_loop_spec z l rank n : shape z l -> 1 <= rank -> forall a m,
  take (Z.to_nat rank) l = a ++ m -> (n <= zsl_level z)%nat -> (n <> 0 -> top (n - 1) a)%nat ->
  by_rank_loop n z rank (at_ptr (header z) a) (zlen a) =
    Some (if bool_decide (n <> 0%nat /\ rank <= zlen l)
          then Some (at_ptr (header z) (take (Z.to_nat rank) l)) else None).
Proof.
  intros Hz Hr. induction n as [|i IH]; intros a m Hl Hn Ht; [done|]. cbn [by_rank_loop].
  pose proof (take_drop (Z.to_nat rank) l) as Htd. set (l1 := take _ l) in *. set (l2 := drop _ l) in *.
  rewrite <- Htd in Hz.
  assert (zlen l1 = Z.min rank (zlen l)) as Hl1 by (unfold l1; rewrite length_take; lia).
  destruct (walk_spec z l1 l2 Hz 64 ltac:(lia) (fun next _ => Some (bool_decide (next <= rank))))
    with (i := i) (m := m) (a := a) (fuel := S (size (heap z))) as (a' & Hcut & ->); try done.
  { intros a0 e c nd Hs0 _. f_equal. apply bool_decide_ext. apply (f_equal length) in Hs0.
    rewrite Htd, length_app in Hs0. cbn in Hs0. lia. }
  { replace i with (S i - 1)%nat by lia. auto. }
  { rewrite (shape_size _ _ Hz), length_app, Hl, length_app. lia. }
  bind_simpl. pose proof Hcut as (m' & Hl' & Ht' & Hm').
  assert (zlen l1 = zlen a' + zlen m') as Hlen' by (rewrite Hl', length_app; lia).
  destruct (decide (zlen a' = rank)) as [Heq|Hne].
  - rewrite (bool_decide_true (zlen a' = rank)), bool_decide_true by (done || lia).
    destruct m' as [|e m']; [by rewrite Hl', app_nil_r|]. cbn in Hlen'. lia.
  - rewrite (bool_decide_false (zlen a' = rank)) by done.
    rewrite (IH a' m') by (done || lia || (intros _; eapply top_mono; [|exact Ht']; lia)).
    erewrite (bool_decide_ext (i <> 0%nat /\ _)); [done|].
    split; [intros [_ ?]; split; [done|lia]|intros [_ ?]; split; [|lia]]. intros ->. apply cut_0 in Hcut as ->; [|by destruct (shape_split _ _ _ Hz)]. lia.
Qed.

Lemma zslGetElementByRank_spec z S rank : zsl_repr z S -> 1 <= rank ->
  exists p, zslGetElementByRank z rank = Some p /\ (p ≫= node_key z) = S !! Z.to_nat (rank - 1).
Proof.
  intros (l & Hz & HS) Hr. unfold zslGetElementByRank. destruct (shape_level _ _ Hz) as [Hlev _].
  rewrite (by_rank_loop_spec z l rank _ Hz Hr [] (take (Z.to_nat rank) l)) by done. eexists. split; [done|].
  rewrite <- (entries_keys _ _ HS). destruct (decide (rank <= zlen l)).
  - rewrite bool_decide_true by (split; [lia|done]).
    destruct (lookup_lt_is_Some_2 l (Z.to_nat (rank - 1))) as [e He]; [lia|].
    replace (Z.to_nat rank) with (Datatypes.S (Z.to_nat (rank - 1))) by lia.
    rewrite (take_S_r _ _ _ He), at_ptr_snoc, list_lookup_fmap, He. cbn.
    pose proof He as (a & c & -> & _)%list_elem_of_split_length.
    apply (shape_node_key z _ a e c Hz eq_refl). by apply (entry_ok_at _ _ _ _ HS).
  - rewrite bool_decide_false by lia. cbn. symmetry. apply lookup_ge_None. rewrite length_fmap. lia.
Qed.

(** ** Freeing the list *)

Lemma zslFree_loop_spec l : forall a z0 h fuel, shape z0 (a ++ l) ->
  dom h = list_to_set (e_ptr <$> l) -> (forall e j, e ∈ l -> level_of h (e_ptr e) j = level_of (heap z0) (e_ptr e) j) ->
  (length l <= fuel)%nat -> zslFree_loop fuel (e_ptr <$> head l) h = Some ∅.
Proof.
  induction l as [|e l IH]; intros a z0 h fuel Hz Hd Hl Hf.
  - cbn. apply dom_empty_inv_L in Hd as ->. by destruct fuel.
  - destruct fuel as [|fuel]; [cbn in Hf; lia|]. cbn [head fmap option_fmap option_map zslFree_loop].
    rewrite Hl by left. destruct (next_after z0 (a ++ [e]) l) as (lv & Hlv & Hfw); [by rewrite <- app_assoc|].
    rewrite at_ptr_snoc in Hlv. rewrite Hlv. bind_simpl. rewrite Hfw.
    pose proof (shape_nodup _ _ Hz) as [_ Hnd]%NoDup_cons. rewrite fmap_app in Hnd. cbn in Hnd.
    apply NoDup_app in Hnd as (_ & _ & [Hnot _]%NoDup_cons).
    apply (IH (a ++ [e]) z0); [by rewrite <- app_assoc| | |cbn in Hf; lia].
    + unfold zslFreeNode. rewrite dom_delete_L, Hd. cbn. set_solver.
    + intros e' j He'. rewrite free_level; [apply Hl; by right|]. intros Heq. apply Hnot. rewrite <- Heq. set_solver.
Qed.

Lemma zslFree_spec z S : zsl_repr z S -> zslFree z = Some ∅.
Proof.
  intros (l & Hz & _). unfold zslFree. destruct (next_after z [] l Hz) as (lv & Hlv & Hf).
  cbn [at_ptr last] in Hlv. rewrite Hlv. bind_simpl. rewrite Hf.
  pose proof (shape_nodup _ _ Hz) as [Hnot _]%NoDup_cons.
  apply (zslFree_loop_spec l [] z); [done| | |rewrite (shape_size _ _ Hz); lia].
  - rewrite dom_delete_L, (shape_dom _ _ Hz). cbn. set_solver.
  - intros e j He. unfold level_of. rewrite lookup_delete_ne; [done|]. intros Heq. apply Hnot. rewrite Heq. set_solver.
Qed.

(** ** Sequences of operations *)

(** The operations that change a skip list, with the numbers [random()] returns
    to an insertion. *)
Inductive zop :=
  | ZInsert (s : double) (o : robj) (randoms : list Z)
  | ZDelete (s : double) (o : robj)
  | ZDeleteRangeByScore (r : zrangespec)
  | ZDeleteRangeByRank (start end_ : Z).

(** The number of elements inserted or removed. *)
Definition zout := Z.

Definition element (o : robj) : bytes := default [] (getDecodedObject o).

Section Run.
Context (zmalloc : memory -> ptr) (junk : level).

(** The skip list and the table of the sorted set, of which only the range
    deletions know. *)
Definition zsl_step (op : zop) (st : zskiplist * gmap bytes double) :
    option (zskiplist * gmap bytes double * zout) :=
  let '(z, d) := st in
  match op with
  | ZInsert s o randoms => '(z, _, _) ← zslInsert zmalloc junk z randoms s o; Some (z, d, 1)
  | ZDelete s o => '(z, found) ← zslDelete z s o; Some (z, d, if (found : bool) then 1 else 0)
  | ZDeleteRangeByScore r => zslDeleteRangeByScore z r d
  | ZDeleteRangeByRank start end_ => zslDeleteRangeByRank z start end_ d
  end.

Fixpoint zsl_run (ops : list zop) (st : zskiplist * gmap bytes double) :
    option (zskiplist * gmap bytes double * list zout) :=
  match ops with
  | [] => Some (st, [])
  | op :: ops =>
      '(st, out) ← zsl_step op st;
      '(st, outs) ← zsl_run ops st;
      Some (st, out :: outs)
  end.
End Run.

(** What the operations mean on the list of keys. *)
Definition spec_step (op : zop) (st : list zkey * gmap bytes double) : list zkey * gmap bytes double * zout :=
  let '(keys, d) := st in
  match op with
  | ZInsert s o _ => (zinsert (s, element o) keys, d, 1)
  | ZDelete s o => (zremove (s, element o) keys, d, if bool_decide ((s, element o) ∈ keys) then 1 else 0)
  | ZDeleteRangeByScore r =>
      let gone := filter (fun k => in_range r k = true) keys in
      (filter (fun k => in_range r k = false) keys, dict_remove d gone, zlen gone)
  | ZDeleteRangeByRank start end_ =>
      let gone := take (Z.to_nat (end_ + 1 - start)) (drop (Z.to_nat (start - 1)) keys) in
      (take (Z.to_nat (start - 1)) keys ++ drop (Z.to_nat (end_ + 1 - start)) (drop (Z.to_nat (start - 1)) keys),
       dict_remove d gone, zlen gone)
  end.

(** What the callers guarantee: no NaN, string elements, and no second
    insertion of a key. *)
Definition zop_ok (op : zop) (S : list zkey) : Prop :=
  match op with
  | ZInsert s o randoms => s <> NaN /\ element_is o (element o) /\ ~ (s, element o) ∈ S /\
      zlen S + 1 < 2 ^ 32 /\ random_ok randoms
  | ZDelete s o => s <> NaN /\ element_is o (element o)
  | ZDeleteRangeByScore r => range_ok r
  | ZDeleteRangeByRank start end_ => 1 <= start < 2 ^ 32 /\ 0 <= end_ < 2 ^ 32
  end.

Fixpoint spec_run (ops : list zop) (st : list zkey * gmap bytes double) : list zkey * gmap bytes double * list zout :=
  match ops with
  | [] => (st, [])
  | op :: ops =>
      let '(st, out) := spec_step op st in
      let '(st, outs) := spec_run ops st in (st, out :: outs)
  end.
Fixpoint zops_ok (ops : list zop) (st : list zkey * gmap bytes double) : Prop :=
  match ops with
  | [] => True
  | op :: ops => zop_ok op st.1 /\ zops_ok ops (spec_step op st).1
  end.

Lemma zsl_step_refines zmalloc junk op z S d :
  fresh_alloc zmalloc -> zsl_repr z S -> zop_ok op S ->
  exists z', zsl_step zmalloc junk op (z, d) = Some (z', (spec_step op (S, d)).1.2, (spec_step op (S, d)).2) /\
    zsl_repr z' (spec_step op (S, d)).1.1.
Proof.
  intros Hf Hz Hok. destruct op as [s o randoms|s o|r|start end_]; cbn [zsl_step spec_step fst snd].
  - destruct Hok as (Hs & Ho & Hnot & Hlen & Hr).
    destruct (zslInsert_refines zmalloc junk Hf z S randoms s o _ Hz Hlen Hr Hs Ho Hnot) as (z' & x & rest & -> & Hz').
    by exists z'.
  - destruct Hok as [Hs Ho]. destruct (zslDelete_refines z S s o _ Hz Hs Ho) as (z' & -> & Hz').
    exists z'. split; [|done]. bind_simpl. by case_bool_decide.
  - destruct (zslDeleteRangeByScore_refines z S r d Hz Hok) as (z' & -> & Hz'). by exists z'.
  - destruct Hok as [Hs He]. destruct (zslDeleteRangeByRank_refines z S start end_ d Hz Hs He) as (z' & -> & Hz').
    by exists z'.
Qed.

Lemma zsl_run_spec zmalloc junk ops : fresh_alloc zmalloc -> forall z S d, zsl_repr z S -> zops_ok ops (S, d) ->
  exists z', zsl_run zmalloc junk ops (z, d) = Some (z', (spec_run ops (S, d)).1.2, (spec_run ops (S, d)).2) /\
    zsl_repr z' (spec_run ops (S, d)).1.1.
Proof.
  intros Hf. induction ops as [|op ops IH]; intros z S d Hz Hok; [by exists z|].
  destruct Hok as [Hop Hok]. cbn [zsl_run spec_run fst] in *.
  destruct (zsl_step_refines zmalloc junk op z S d Hf Hz Hop) as (z' & -> & Hz').
  destruct (spec_step op (S, d)) as [[S' d'] out]. cbn [fst snd] in *. bind_simpl.
  destruct (IH z' S' d' Hz' Hok) as (z'' & -> & Hz''). destruct (spec_run ops (S', d')) as [[S'' d''] outs].
  by exists z''.
Qed.

Lemma zsl_create_repr zmalloc junk : fresh_alloc zmalloc ->
  exists z, zslCreate zmalloc junk ∅ = Some z /\ zsl_repr z [].
Proof.
  intros Hf. destruct (zslCreate_spec zmalloc junk Hf ∅ eq_refl) as (z & -> & Hz). exists z. split; [done|].
  exists []. split; [done|]. repeat constructor.
Qed.

(** ** A concrete skip list *)

Definition sample_malloc (h : memory) : ptr := fresh (dom h : gset ptr).
Definition sample_ops : list zop :=
  [ZInsert (Finite 5) (Raw [97]) [0; 0; 65535]; ZInsert (Finite 3) (IntObj 12) [65535];
   ZInsert (Infinity false) (Raw [98]) [0; 65535]; ZInsert (Finite 5) (Raw [96]) [0; 0; 0; 65535];
   ZDelete (Finite 5) (Raw [97]); ZInsert (Finite 9) (Raw [99]) [65535];
   ZDeleteRangeByScore (Zrangespec (Finite 3) (Finite 5) true false); ZDeleteRangeByRank 2 2].

Lemma sample_fresh : fresh_alloc sample_malloc.
Proof. intros h. apply (is_fresh (dom h : gset ptr)). Defined.

Lemma sample_ops_ok : zops_ok sample_ops ([], ∅).
Proof.
  unfold sample_ops. cbn [zops_ok zop_ok]. unfold random_ok.
  repeat match goal with
  | |- _ /\ _ => split
  | |- element_is _ _ => split_and!
  | |- Exists _ _ => first [apply Exists_cons_hd; vm_compute; congruence | apply Exists_cons_tl]
  | |- _ ∉ _ => apply (bool_decide_unpack _); vm_compute; exact I
  | |- True => exact I
  | _ => by vm_compute
  end.
Defined.

Lemma sample_result : spec_run sample_ops ([], {[ [99] := Finite 9 ]}) =
  ([(Finite 3, [49; 50]); (Infinity false, [98])], ∅, [1; 1; 1; 1; 1; 1; 1; 1]).
Proof. vm_compute. reflexivity. Qed.

(** The skip list after the first four insertions. *)
Definition sample_list : option zskiplist :=
  z ← zslCreate sample_malloc (Level None 7) ∅;
  '(st, _) ← zsl_run sample_malloc (Level None 7) (take 4 sample_ops) (z, ∅); Some st.1.

Definition sample_keys : list zkey :=
  [(Finite 3, [49; 50]); (Finite 5, [96]); (Finite 5, [97]); (Infinity false, [98])].

Lemma sample_prefix_ok : zops_ok (take 4 sample_ops) ([], ∅).
Proof.
  pose proof sample_ops_ok as Hok. unfold sample_ops in *. cbn [take zops_ok fst snd] in *.
  destruct Hok as (H1 & H2 & H3 & H4 & _). exact (conj H1 (conj H2 (conj H3 (conj H4 I)))).
Qed.

Lemma sample_list_repr : exists z, sample_list = Some z /\ zsl_repr z sample_keys.
Proof.
  destruct (zsl_create_repr sample_malloc (Level None 7) sample_fresh) as (z0 & Hc & Hz0).
  destruct (zsl_run_spec sample_malloc (Level None 7) (take 4 sample_ops) sample_fresh z0 [] ∅ Hz0 sample_prefix_ok)
    as (z & Hr & Hz).
  exists z. unfold sample_list. rewrite Hc. bind_simpl. rewrite Hr. bind_simpl. split; [done|].
  replace sample_keys with (spec_run (take 4 sample_ops) ([], ∅)).1.1 by (vm_compute; reflexivity). done.
Qed.

(** [zslGetRank] looks at the element alone once the score is not too small: it
    finds "a" of score 5 for the score 8, which its comment excludes. *)
Lemma zslGetRank_ignores_score :
  (z ← sample_list; zslGetRank z (Finite 8) (Raw [97])) = Some 3 /\ ~ (Finite 8, [97]) ∈ sample_keys.
Proof. split; [by vm_compute|]. apply (bool_decide_unpack _). by vm_compute. Qed.

(** C26: from an empty skip list, any sequence of insertions, deletions, range
    deletions by score and by rank terminates without touching memory it does
    not own, whatever heights the random generator gives to the nodes; counts
    and keys left in the table are those of the same operations on the strictly
    increasing list of keys, which the skip list represents at the end; freeing
    it then leaves no memory behind. *)
Theorem zsl_run_refines zmalloc junk ops d :
  fresh_alloc zmalloc -> zops_ok ops ([], d) ->
  exists z0 z, zslCreate zmalloc junk ∅ = Some z0 /\
    zsl_run zmalloc junk ops (z0, d) = Some (z, (spec_run ops ([], d)).1.2, (spec_run ops ([], d)).2) /\
    zsl_repr z (spec_run ops ([], d)).1.1 /\ zslFree z = Some ∅.
Proof.
  intros Hf Hok. destruct (zsl_create_repr zmalloc junk Hf) as (z0 & Hc & Hz0).
  destruct (zsl_run_spec zmalloc junk ops Hf z0 [] d Hz0 Hok) as (z & Hr & Hz).
  exists z0, z. split_and!; [done|done|done|]. by eapply zslFree_spec.
Qed.

(** C27: the rank of a key is its position, counted from 1, in the increasing
    order; it is 0 for an element that the sorted set does not have; and the
    element found by rank is the one at that position, or NULL past the end. *)
Theorem zsl_ranks z S :
  zsl_repr z S -> NoDup (snd <$> S) ->
  (forall s o i, element_is o (element o) -> S !! i = Some (s, element o) -> zslGetRank z s o = Some (Z.of_nat i + 1)) /\
  (forall s o, s <> NaN -> element_is o (element o) -> element o ∉ snd <$> S -> zslGetRank z s o = Some 0) /\
  (forall rank, 1 <= rank -> exists p, zslGetElementByRank z rank = Some p /\
     (p ≫= node_key z) = S !! Z.to_nat (rank - 1)).
Proof.
  intros Hz Hnd. split_and!.
  - intros s o i Ho Hi. apply (zslGetRank_spec z S s o (element o)); try done.
    destruct Hz as (l & _ & HS). apply (scores_ok _ _ (s, element o) HS). by eapply list_elem_of_lookup_2.
  - intros s o Hs Ho. by apply (zslGetRank_spec z S s o (element o)).
  - intros rank. by apply zslGetElementByRank_spec.
Qed.

(** The first and the last node in a range of scores are the first and the
    last key of that range, exclusive bounds, infinite bounds and empty ranges
    included, or NULL when no key is in the range. *)
Theorem zsl_range_ends z S r :
  zsl_repr z S -> range_ok r ->
  (exists p, zslFirstInRange z r = Some p /\ (p ≫= node_key z) = head (filter (fun k => in_range r k = true) S)) /\
  (exists p, zslLastInRange z r = Some p /\ (p ≫= node_key z) = last (filter (fun k => in_range r k = true) S)).
Proof.
  intros (l & Hz & HS) Hr. split; [by apply (zslFirstInRange_spec z l)|by apply (zslLastInRange_spec z l)].
Qed.


Lemma zsl_run_refines_witness :
  exists z0 z, zslCreate sample_malloc (Level None 7) ∅ = Some z0 /\
    zsl_run sample_malloc (Level None 7) sample_ops (z0, ∅) =
      Some (z, (spec_run sample_ops ([], ∅)).1.2, (spec_run sample_ops ([], ∅)).2) /\
    zsl_repr z (spec_run sample_ops ([], ∅)).1.1 /\ zslFree z = Some ∅.
Proof. apply (zsl_run_refines sample_malloc (Level None 7) sample_ops ∅ sample_fresh sample_ops_ok). Defined.

Lemma zsl_ranks_witness : exists z, sample_list = Some z /\
  zslGetRank z (Finite 5) (Raw [97]) = Some 3 /\ zslGetRank z (Finite 5) (Raw [95]) = Some 0 /\
  exists p, zslGetElementByRank z 4 = Some p /\ (p ≫= node_key z) = Some (Infinity false, [98]).
Proof.
  destruct sample_list_repr as (z & Hz & Hr). exists z. split; [exact Hz|].
  assert (NoDup (snd <$> sample_keys)) as Hnd by (apply (bool_decide_unpack _); by vm_compute).
  destruct (zsl_ranks z sample_keys Hr Hnd) as (H1 & H2 & H3). split_and!.
  - apply (H1 (Finite 5) (Raw [97]) 2%nat); [split_and!; by vm_compute|reflexivity].
  - apply H2; [done|split_and!; by vm_compute|]. apply (bool_decide_unpack _). by vm_compute.
  - apply H3. done.
Defined.

Lemma zsl_range_ends_witness : exists z, sample_list = Some z /\
  exists p, zslFirstInRange z (Zrangespec (Finite 3) (Infinity false) true false) = Some p /\
    (p ≫= node_key z) = Some (Finite 5, [96]).
Proof.
  destruct sample_list_repr as (z & Hz & Hr). exists z. split; [exact Hz|].
  apply (zsl_range_ends z sample_keys (Zrangespec (Finite 3) (Infinity false) true false) Hr). by split.
Defined.
