(* ===== verification/Bitops.v ===== *)
(** * Bit operations ([bitops.c])

    Counting and finding bits with machine words, BITOP with its word-by-word
    fast path, and the commands on bits.  The first bit of a string is the most
    significant bit of its first byte.  A result [None] stands for a read or
    write outside an array, the panic of [redisBitpos], or a loop out of
    fuel. *)
From Stdlib Require Import String.
From S2P Require Import Prelude Util Sds SdsArgs Server StringCommands.

(** ** Reading words *)

(** An unsigned integer of [n] bytes at [p], in the order of the host. *)
Definition read_word (n p : nat) (s : list Z) : option Z :=
  if bool_decide (p + n <= length s)%nat then Some (le_decode (mem_read p n s)) else None.

(** ** Counting bits *)

Definition bitsinbyte : list Z := [
   0; 1; 1; 2; 1; 2; 2; 3; 1; 2; 2; 3; 2; 3; 3; 4; 1; 2; 2; 3; 2; 3; 3; 4;
   2; 3; 3; 4; 3; 4; 4; 5; 1; 2; 2; 3; 2; 3; 3; 4; 2; 3; 3; 4; 3; 4; 4; 5;
   2; 3; 3; 4; 3; 4; 4; 5; 3; 4; 4; 5; 4; 5; 5; 6; 1; 2; 2; 3; 2; 3; 3; 4;
   2; 3; 3; 4; 3; 4; 4; 5; 2; 3; 3; 4; 3; 4; 4; 5; 3; 4; 4; 5; 4; 5; 5; 6;
   2; 3; 3; 4; 3; 4; 4; 5; 3; 4; 4; 5; 4; 5; 5; 6; 3; 4; 4; 5; 4; 5; 5; 6;
   4; 5; 5; 6; 5; 6; 6; 7; 1; 2; 2; 3; 2; 3; 3; 4; 2; 3; 3; 4; 3; 4; 4; 5;
   2; 3; 3; 4; 3; 4; 4; 5; 3; 4; 4; 5; 4; 5; 5; 6; 2; 3; 3; 4; 3; 4; 4; 5;
   3; 4; 4; 5; 4; 5; 5; 6; 3; 4; 4; 5; 4; 5; 5; 6; 4; 5; 5; 6; 5; 6; 6; 7;
   2; 3; 3; 4; 3; 4; 4; 5; 3; 4; 4; 5; 4; 5; 5; 6; 3; 4; 4; 5; 4; 5; 5; 6;
   4; 5; 5; 6; 5; 6; 6; 7; 3; 4; 4; 5; 4; 5; 5; 6; 4; 5; 5; 6; 5; 6; 6; 7;
   4; 5; 5; 6; 5; 6; 6; 7; 5; 6; 6; 7; 6; 7; 7; 8].

(** "bits += bitsinbyte[*p++]; count--" on the position, the bytes left and
    the bits counted, with the test that precedes it; [size_t] has 64 bits. *)
Definition count_byte (test : nat -> Z -> bool) (s : list Z) (st : nat * Z * Z) :
    ctl (nat * Z * Z) (option (nat * Z * Z)) :=
  let '(p, count, bits) := st in
  if test p count then
    match (b ← s !! p; bitsinbyte !! Z.to_nat b) with
    | Some n => Continue (S p, count - 1, uwrap 64 (bits + n))
    | None => Break None
    end
  else Break (Some st).

(** The bits of a word of 32 bits, all fields at once. *)
Definition popcount_word (aux : Z) : Z :=
  let aux := uwrap 32 (aux - Z.land (Z.shiftr aux 1) 0x55555555) in
  let aux := uwrap 32 (Z.land aux 0x33333333 + Z.land (Z.shiftr aux 2) 0x33333333) in
  Z.shiftr (uwrap 32 (Z.land (uwrap 32 (aux + Z.shiftr aux 4)) 0x0F0F0F0F * 0x01010101)) 24.

Definition count_words (s : list Z) (st : nat * Z * Z) : ctl (nat * Z * Z) (option (nat * Z * Z)) :=
  let '(p, count, bits) := st in
  if bool_decide (count >= 16) then
    match (aux1 ← read_word 4 p s; aux2 ← read_word 4 (p + 4) s;
           aux3 ← read_word 4 (p + 8) s; aux4 ← read_word 4 (p + 12) s;
           Some (uwrap 32 (uwrap 32 (uwrap 32 (popcount_word aux1 + popcount_word aux2)
                             + popcount_word aux3) + popcount_word aux4))) with
    | Some n => Continue ((p + 16)%nat, count - 16, uwrap 64 (bits + n))
    | None => Break None
    end
  else Break (Some st).

(** The string starts at the address [addr]. *)
Definition redisPopcount (addr : Z) (s : list Z) (count : Z) : option Z :=
  let fuel := S (Z.to_nat count) in
  st ← mjoin (loop fuel (count_byte (fun p count =>
         bool_decide (Z.land (addr + Z.of_nat p) 3 <> 0) && bool_decide (count <> 0)) s) (O, count, 0));
  st ← mjoin (loop fuel (count_words s) st);
  '(_, _, bits) ← mjoin (loop fuel (count_byte (fun _ count => bool_decide (count <> 0)) s) st);
  Some bits.

(** ** Finding a bit *)

(** Whole bytes without the bit, then whole words: the position in bytes, the
    bytes left and the position in bits. *)
Definition skip_bytes (addr skipval : Z) (s : list Z) (st : nat * Z * Z) :
    ctl (nat * Z * Z) (option (nat * Z * Z)) :=
  let '(c, count, pos) := st in
  if bool_decide (Z.land (addr + Z.of_nat c) 7 <> 0) && bool_decide (count <> 0) then
    match s !! c with
    | Some b => if bool_decide (b <> skipval) then Break (Some st)
                else Continue (S c, count - 1, pos + 8)
    | None => Break None
    end
  else Break (Some st).

Definition skip_words (skipval : Z) (s : list Z) (st : nat * Z * Z) :
    ctl (nat * Z * Z) (option (nat * Z * Z)) :=
  let '(l, count, pos) := st in
  if bool_decide (count >= 8) then
    match read_word 8 l s with
    | Some w => if bool_decide (w <> skipval) then Break (Some st)
                else Continue ((l + 8)%nat, count - 8, pos + 64)
    | None => Break None
    end
  else Break (Some st).

(** Up to [n] bytes loaded into [word], the first as the most significant. *)
Fixpoint load_word (n : nat) (c : nat) (count word : Z) (s : list Z) : option Z :=
  match n with
  | O => Some word
  | S n =>
      let word := uwrap 64 (Z.shiftl word 8) in
      if bool_decide (count <> 0) then
        b ← s !! c; load_word n (S c) (count - 1) (Z.lor word b) s
      else load_word n c count word s
  end.

Definition scan_bit (word bit : Z) (st : Z * Z) : ctl (Z * Z) (option Z) :=
  let '(one, pos) := st in
  if bool_decide (one <> 0) then
    if bool_decide ((if bool_decide (Z.land one word <> 0) then 1 else 0) = bit) then Break (Some pos)
    else Continue (Z.shiftr one 1, pos + 1)
  else Break None.

Definition redisBitpos (addr : Z) (s : list Z) (count bit : Z) : option Z :=
  let fuel := S (Z.to_nat count) in
  let skipval := if bool_decide (bit <> 0) then 0 else 255 in
  st ← mjoin (loop fuel (skip_bytes addr skipval s) (O, count, 0));
  let skipval := if bool_decide (bit <> 0) then 0 else 2 ^ 64 - 1 in
  '(l, count, pos) ← mjoin (loop fuel (skip_words skipval s) st);
  word ← load_word 8 l count 0 s;
  if bool_decide (bit = 1 /\ word = 0) then Some (-1)
  else
    let one := 2 ^ 64 - 1 in
    let one := Z.shiftr one 1 in
    let one := unot 64 one in
    mjoin (loop 65 (scan_bit word bit) (one, pos)).

(** ** BITOP *)

Inductive bitop := BITOP_AND | BITOP_OR | BITOP_XOR | BITOP_NOT.
#[export] Instance bitop_dec : EqDecision bitop.
Proof. solve_decision. Defined.

(** The compound assignments of the fast path and of the last loop. *)
Definition bitop_apply (op : bitop) (x y : Z) : Z :=
  match op with
  | BITOP_AND => Z.land x y
  | BITOP_OR => Z.lor x y
  | BITOP_XOR => Z.lxor x y
  | BITOP_NOT => x
  end.

(** [minlen] and [maxlen] after the loop that looks up the keys; a missing key
    is [None]. *)
Definition source_lengths (sources : list (option bytes)) : Z * Z :=
  let '(minlen, maxlen, _) := foldl (fun '(minlen, maxlen, j) src =>
    match src with
    | None => (0, maxlen, S j)
    | Some s =>
        let maxlen := if bool_decide (zlen s > maxlen) then zlen s else maxlen in
        let minlen := if bool_decide (j = O) || bool_decide (zlen s < minlen) then zlen s else minlen in
        (minlen, maxlen, S j)
    end) (0, 0, O) sources in
  (minlen, maxlen).

(** [lres[k] op= lp[i][k]] for [k] from 0 to 3, at the byte [j] of both. *)
Definition combine_words (op : bitop) (j : nat) (src res : list Z) : option (list Z) :=
  foldl (fun r k =>
    res ← r;
    x ← read_word 8 (j + 8 * k) res;
    y ← read_word 8 (j + 8 * k) src;
    Some (mem_write (j + 8 * k) (le_encode 8 (bitop_apply op x y)) res)) (Some res) (seq 0 4).

Definition invert_words (j : nat) (res : list Z) : option (list Z) :=
  foldl (fun r k =>
    res ← r;
    x ← read_word 8 (j + 8 * k) res;
    Some (mem_write (j + 8 * k) (le_encode 8 (unot 64 x)) res)) (Some res) (seq 0 4).

(** One iteration of the fast path on the result, [j] and [minlen]. *)
Definition fast_step (op : bitop) (others : list bytes) (st : list Z * nat * Z) :
    ctl (list Z * nat * Z) (option (list Z * nat)) :=
  let '(res, j, minlen) := st in
  if bool_decide (minlen >= 32) then
    match (if bool_decide (op = BITOP_NOT) then invert_words j res
           else foldl (fun r src => res ← r; combine_words op j src res) (Some res) others) with
    | Some res => Continue (res, (j + 32)%nat, minlen - 32)
    | None => Break None
    end
  else Break (Some (res, j)).

(** One byte of the result. *)
Definition bitop_byte (op : bitop) (sources : list bytes) (j : nat) : Z :=
  let byte src := if bool_decide (zlen src <= Z.of_nat j) then 0 else nth j src 0 in
  match sources with
  | [] => 0
  | first :: others =>
      let output := byte first in
      let output := if bool_decide (op = BITOP_NOT) then unot 8 output else output in
      foldl (fun output src => bitop_apply op output (byte src)) output others
  end.

(** The result string of [maxlen] bytes, when it is not empty. *)
Definition bitop_result (op : bitop) (sources : list (option bytes)) : option (list Z) :=
  let '(minlen, maxlen) := source_lengths sources in
  let strings := default [] <$> sources in
  let res := replicate (Z.to_nat maxlen) 0 in
  '(res, j) ←
    (if bool_decide (minlen <> 0) && bool_decide (length sources <= 16)%nat then
       let res := mem_write 0 (mem_read 0 (Z.to_nat minlen) (nth 0 strings [])) res in
       mjoin (loop (S (Z.to_nat minlen)) (fast_step op (drop 1 strings)) (res, O, minlen))
     else Some (res, O));
  Some (foldl (fun res j => <[j := bitop_byte op strings j]> res) res (seq j (Z.to_nat maxlen - j))).

(** ** The commands *)

Definition BIT_OFFSET_ERR : string := "bit offset is not an integer or out of range".
Definition BIT_ERR : string := "bit is not an integer or out of range".

(** [getLongLongFromObjectOrReply] with its own error message. *)
Definition number_or_reply (c : client_id) (o : bytes) (msg : string) : M (option Z) :=
  r ← lift (getLongLongFromObject (Some (Raw o)));
  match r with
  | Some v => mret (Some v)
  | None => addReplyError c msg;; mret None
  end.

Definition getBitOffsetFromArgument (c : client_id) (o : bytes) : M (option Z) :=
  r ← number_or_reply c o BIT_OFFSET_ERR;
  match r with
  | None => mret None
  | Some loffset =>
      if bool_decide (loffset < 0) || bool_decide (Z.shiftr (uwrap 64 loffset) 3 >= 512 * 1024 * 1024)
      then addReplyError c BIT_OFFSET_ERR;; mret None
      else mret (Some loffset)
  end.

(** The byte with bit [bit] replaced by [on]. *)
Definition replace_bit (byteval bit on : Z) : Z :=
  uwrap 8 (Z.lor (Z.land byteval (Z.lnot (Z.shiftl 1 bit))) (Z.shiftl (Z.land on 1) bit)).

Section Commands.
Context (clock : nat -> Z).

Definition setbitCommand (c : client_id) : M () :=
  key ← argv c 1; off ← argv c 2; onarg ← argv c 3;
  d ← current_db c;
  r ← getBitOffsetFromArgument c off;
  match r with
  | None => mret tt
  | Some bitoffset =>
      r ← number_or_reply c onarg BIT_ERR;
      match r with
      | None => mret tt
      | Some on =>
          if bool_decide (Z.land on (Z.lnot 1) <> 0) then addReplyError c BIT_ERR
          else
            o ← lookupKeyWrite clock d key;
            s ← match o with
                | None => dbAdd d key (Raw []);; mret (Some [])
                | Some o =>
                    wrong ← checkType c o REDIS_STRING;
                    if (wrong : bool) then mret None
                    else s ← lift (getDecodedObject o); mret (Some s)
                end;
            match s with
            | None => mret tt
            | Some s =>
                let byte := Z.shiftr bitoffset 3 in
                let s := s ++ replicate (Z.to_nat (byte + 1 - zlen s)) 0 in
                byteval ← lift (s !! Z.to_nat byte);
                let bit := 7 - Z.land bitoffset 7 in
                let bitval := Z.land byteval (Z.shiftl 1 bit) in
                dbOverwrite d key (Raw (<[Z.to_nat byte := replace_bit byteval bit on]> s));;
                signalModifiedKey d key;;
                notifyKeyspaceEvent NOTIFY_STRING "setbit" key d;;
                add_dirty 1;;
                addReply c (ReplyInt (if bool_decide (bitval <> 0) then 1 else 0))
            end
      end
  end.

Definition getbitCommand (c : client_id) : M () :=
  key ← argv c 1; off ← argv c 2;
  d ← current_db c;
  r ← getBitOffsetFromArgument c off;
  match r with
  | None => mret tt
  | Some bitoffset =>
      o ← lookupKeyReadOrReply clock c d key (ReplyInt 0);
      match o with
      | None => mret tt
      | Some o =>
          wrong ← checkType c o REDIS_STRING;
          if (wrong : bool) then mret tt
          else
            let byte := Z.shiftr bitoffset 3 in
            let bit := 7 - Z.land bitoffset 7 in
            s ← lift (getDecodedObject o);
            let bitval := match s !! Z.to_nat byte with
                          | Some b => Z.land b (Z.shiftl 1 bit) | None => 0 end in
            addReply c (ReplyInt (if bool_decide (bitval <> 0) then 1 else 0))
      end
  end.

(** [strcasecmp(opname, name) == 0] *)
Definition strcaseeq (opname : bytes) (name : string) : bool :=
  bool_decide (tolower <$> c_str opname = (fun a => Z.of_nat (Ascii.nat_of_ascii a)) <$> String.list_ascii_of_string name).

Definition parse_bitop (opname : bytes) : option bitop :=
  if strcaseeq opname "and" then Some BITOP_AND
  else if strcaseeq opname "or" then Some BITOP_OR
  else if strcaseeq opname "xor" then Some BITOP_XOR
  else if strcaseeq opname "not" then Some BITOP_NOT
  else None.

(** The strings of the source keys; [None] after an error reply. *)
Fixpoint lookup_sources (c : client_id) (d : nat) (keys : list bytes) (sources : list (option bytes)) :
    M (option (list (option bytes))) :=
  match keys with
  | [] => mret (Some sources)
  | key :: keys =>
      o ← lookupKeyRead clock d key;
      match o with
      | None => lookup_sources c d keys (sources ++ [None])
      | Some o =>
          wrong ← checkType c o REDIS_STRING;
          if (wrong : bool) then mret None
          else s ← lift (getDecodedObject o); lookup_sources c d keys (sources ++ [Some s])
      end
  end.

Definition bitopCommand (c : client_id) : M () :=
  cl ← client c;
  opname ← argv c 1; targetkey ← argv c 2;
  let d := c_db cl in
  match parse_bitop opname with
  | None => addReply c (ReplyError "syntax error")
  | Some op =>
      if bool_decide (op = BITOP_NOT /\ length (c_argv cl) <> 4%nat)
      then addReplyError c "BITOP NOT must be called with a single source key."
      else
        r ← lookup_sources c d (drop 3 (c_argv cl)) [];
        match r with
        | None => mret tt
        | Some sources =>
            let maxlen := (source_lengths sources).2 in
            (if bool_decide (maxlen <> 0) then
               res ← lift (bitop_result op sources);
               setKey clock d targetkey (Raw res);;
               notifyKeyspaceEvent NOTIFY_STRING "set" targetkey d
             else
               deleted ← dbDelete d targetkey;
               if (deleted : bool) then
                 signalModifiedKey d targetkey;;
                 notifyKeyspaceEvent NOTIFY_GENERIC "del" targetkey d
               else mret tt);;
            add_dirty 1;;
            addReply c (ReplyInt maxlen)
        end
  end.

(** The ranges of BITCOUNT and BITPOS: negative indices count from the end. *)
Definition bit_range (strlen start end_ : Z) : Z * Z :=
  let start := if bool_decide (start < 0) then swrap 64 (strlen + start) else start in
  let end_ := if bool_decide (end_ < 0) then swrap 64 (strlen + end_) else end_ in
  let start := if bool_decide (start < 0) then 0 else start in
  let end_ := if bool_decide (end_ < 0) then 0 else end_ in
  let end_ := if bool_decide (end_ >= strlen) then strlen - 1 else end_ in
  (start, end_).

(** [addr] is the address of the string. *)
Definition bitcountCommand (addr : Z) (c : client_id) : M () :=
  cl ← client c;
  key ← argv c 1;
  o ← lookupKeyReadOrReply clock c (c_db cl) key (ReplyInt 0);
  match o with
  | None => mret tt
  | Some o =>
      wrong ← checkType c o REDIS_STRING;
      if (wrong : bool) then mret tt
      else
        s ← lift (getDecodedObject o);
        range ← match c_argv cl with
                | [_; _; a; b] =>
                    r ← getLongLongFromObjectOrReply c (Some (Raw a));
                    match r with
                    | None => mret None
                    | Some start =>
                        r ← getLongLongFromObjectOrReply c (Some (Raw b));
                        match r with
                        | None => mret None
                        | Some end_ => mret (Some (bit_range (zlen s) start end_))
                        end
                    end
                | [_; _] => mret (Some (0, zlen s - 1))
                | _ => addReply c (ReplyError "syntax error");; mret None
                end;
        match range with
        | None => mret tt
        | Some (start, end_) =>
            if bool_decide (start > end_) then addReply c (ReplyInt 0)
            else
              n ← lift (redisPopcount (addr + start) (drop (Z.to_nat start) s) (end_ - start + 1));
              addReply c (ReplyInt n)
        end
  end.

Definition bitposCommand (addr : Z) (c : client_id) : M () :=
  cl ← client c;
  key ← argv c 1; bitarg ← argv c 2;
  r ← getLongLongFromObjectOrReply c (Some (Raw bitarg));
  match r with
  | None => mret tt
  | Some bit =>
      if bool_decide (bit <> 0 /\ bit <> 1) then addReplyError c "The bit argument must be 1 or 0."
      else
        o ← lookupKeyRead clock (c_db cl) key;
        match o with
        | None => addReply c (ReplyInt (if bool_decide (bit <> 0) then -1 else 0))
        | Some o =>
            wrong ← checkType c o REDIS_STRING;
            if (wrong : bool) then mret tt
            else
              s ← lift (getDecodedObject o);
              range ← match c_argv cl with
                      | [_; _; _] => mret (Some ((0, zlen s - 1), false))
                      | [_; _; _; a] =>
                          r ← getLongLongFromObjectOrReply c (Some (Raw a));
                          match r with
                          | None => mret None
                          | Some start => mret (Some (bit_range (zlen s) start (zlen s - 1), false))
                          end
                      | [_; _; _; a; b] =>
                          r ← getLongLongFromObjectOrReply c (Some (Raw a));
                          match r with
                          | None => mret None
                          | Some start =>
                              r ← getLongLongFromObjectOrReply c (Some (Raw b));
                              match r with
                              | None => mret None
                              | Some end_ => mret (Some (bit_range (zlen s) start end_, true))
                              end
                          end
                      | _ => addReply c (ReplyError "syntax error");; mret None
                      end;
              match range with
              | None => mret tt
              | Some ((start, end_), end_given) =>
                  if bool_decide (start > end_) then addReply c (ReplyInt (-1))
                  else
                    let bytes := end_ - start + 1 in
                    pos ← lift (redisBitpos (addr + start) (drop (Z.to_nat start) s) bytes bit);
                    if (end_given : bool) && bool_decide (bit = 0) && bool_decide (pos = bytes * 8)
                    then addReply c (ReplyInt (-1))
                    else addReply c (ReplyInt (if bool_decide (pos <> -1) then pos + start * 8 else pos))
              end
        end
  end.

End Commands.
