(* ===== verification/BitopSpecs.v ===== *)
(** * What bit operations compute

    The word-by-word algorithms agree with bit-by-bit definitions: counting and
    finding bits at any alignment, BITOP on strings of different lengths, and
    the commands on single bits and on ranges. *)
From Stdlib Require Import String.
#[local] Set Warnings "-clear-no-such-hyp".
From S2P Require Import Prelude Util Sds SdsArgs Server StringCommands ServerLogic StringEffects StringSpecs.
From S2P Require Import KeyEffects WatchLogic TransactionLogic ServerProperties Bitops.

(** ** The bits of a string *)

(** From the most significant bit of the first byte. *)
Definition bits_of_byte (b : Z) : list bool := (fun i => Z.testbit b i) <$> [7; 6; 5; 4; 3; 2; 1; 0].
Definition bits_of (s : list Z) : list bool := s ≫= bits_of_byte.

(** The number of bits set. *)
Definition ones (s : list Z) : Z := zlen (filter (fun b => b = true) (bits_of s)).

Lemma bits_of_app s t : bits_of (s ++ t) = bits_of s ++ bits_of t.
Proof. apply bind_app. Qed.

Lemma length_bits_of s : zlen (bits_of s) = 8 * zlen s.
Proof.
  induction s as [|b s IH]; [done|]. change (b :: s) with ([b] ++ s). rewrite bits_of_app, !length_app.
  change (length (bits_of [b])) with 8%nat. cbn [length]. lia.
Qed.

Lemma ones_app s t : ones (s ++ t) = ones s + ones t.
Proof. unfold ones. rewrite bits_of_app, filter_app, length_app. lia. Qed.

Lemma ones_bound s : 0 <= ones s <= 8 * zlen s.
Proof.
  unfold ones. rewrite <- length_bits_of. pose proof (length_filter (fun b => b = true) (bits_of s)). lia.
Qed.

(** A property of bytes, by evaluation. *)
Lemma all_bytes (P : Z -> bool) : forallb P (Z.of_nat <$> seq 0 256) = true -> forall b, urange 8 b -> P b = true.
Proof.
  intros H b Hb. rewrite forallb_forall in H. apply H. rewrite <- (Z2Nat.id b) by (destruct Hb; done).
  apply list_elem_of_In, list_elem_of_fmap_2, elem_of_seq. unfold urange in Hb. change (2 ^ 8) with 256 in Hb. lia.
Qed.

Ltac by_all_bytes P Hb := apply (all_bytes P) in Hb; [|vm_compute; reflexivity].

Lemma bitsinbyte_spec b : urange 8 b -> bitsinbyte !! Z.to_nat b = Some (ones [b]).
Proof.
  intros Hb. pose proof Hb as H.
  by_all_bytes (fun b => bool_decide (bitsinbyte !! Z.to_nat b = Some (ones [b]))) H.
  by apply bool_decide_eq_true in H.
Qed.

(** ** Words, byte by byte *)

Lemma testbit_cons a c i : urange 8 a -> 0 <= i ->
  Z.testbit (a + 256 * c) i = if bool_decide (i < 8) then Z.testbit a i else Z.testbit c (i - 8).
Proof.
  intros Ha Hi. unfold urange in Ha. change (2 ^ 8) with 256 in Ha. case_bool_decide.
  - rewrite <- (Z.mod_pow2_bits_low _ 8) by lia. f_equal. change (2 ^ 8) with 256.
    rewrite Z.mul_comm, Z_mod_plus_full. apply Z.mod_small. lia.
  - replace i with ((i - 8) + 8) at 1 by lia. rewrite <- Z.div_pow2_bits by lia. f_equal.
    change (2 ^ 8) with 256. rewrite Z.mul_comm, Z.div_add, Z.div_small by lia. lia.
Qed.

Lemma land_byte x m : 0 <= x -> urange 8 m -> urange 8 (Z.land x m).
Proof.
  intros Hx Hm. assert (Z.land x m = uwrap 8 (Z.land x m)) as ->; [|by apply uwrap_range].
  apply Z.bits_inj'. intros i Hi. unfold uwrap. destruct (decide (i < 8)).
  - by rewrite Z.mod_pow2_bits_low.
  - rewrite Z.mod_pow2_bits_high, Z.land_spec by lia.
    rewrite <- (uwrap_small 8 m Hm). unfold uwrap. by rewrite Z.mod_pow2_bits_high, andb_false_r by lia.
Qed.

(** Masks and shifts inside the bytes of a word. *)
Lemma masked_shift a c k m M : urange 8 a -> 0 <= k <= 8 -> urange (8 - k) m ->
  Z.land (Z.shiftr (a + 256 * c) k) (m + 256 * M) = Z.land (Z.shiftr a k) m + 256 * Z.land (Z.shiftr c k) M.
Proof.
  intros Ha Hk Hm. assert (urange 8 m) as Hm8.
  { unfold urange in *. assert (2 ^ (8 - k) <= 2 ^ 8) by (apply Z.pow_le_mono_r; lia). lia. }
  assert (urange 8 (Z.land (Z.shiftr a k) m)) as Hl.
  { apply land_byte; [apply Z.shiftr_nonneg; apply Ha|done]. }
  apply Z.bits_inj'. intros i Hi. rewrite (testbit_cons _ _ i Hl Hi), !Z.land_spec, Z.shiftr_spec by done.
  rewrite (testbit_cons m M i Hm8 Hi), (testbit_cons a c (i + k) Ha) by lia.
  destruct (decide (i < 8)).
  - rewrite !(bool_decide_true (i < 8)), Z.shiftr_spec by lia. case_bool_decide; [done|].
    assert (Z.testbit m i = false) as -> by (by rewrite <- (Z.mod_small m (2 ^ (8 - k))), Z.mod_pow2_bits_high by (unfold urange in Hm; lia)).
    by rewrite !andb_false_r.
  - rewrite !bool_decide_false, Z.shiftr_spec by lia. do 2 f_equal. lia.
Qed.

Definition word4 (a b c d : Z) : Z := a + 256 * (b + 256 * (c + 256 * d)).

Lemma masked_word a b c d k m : urange 8 a -> urange 8 b -> urange 8 c -> urange 8 d ->
  0 <= k <= 8 -> urange (8 - k) m ->
  Z.land (Z.shiftr (word4 a b c d) k) (word4 m m m m) =
  word4 (Z.land (Z.shiftr a k) m) (Z.land (Z.shiftr b k) m) (Z.land (Z.shiftr c k) m) (Z.land (Z.shiftr d k) m).
Proof. intros. unfold word4. by rewrite !masked_shift. Qed.

Lemma word4_range a b c d : urange 8 a -> urange 8 b -> urange 8 c -> urange 8 d -> urange 32 (word4 a b c d).
Proof. unfold urange, word4. change (2 ^ 8) with 256. change (2 ^ 32) with 4294967296. lia. Qed.

(** The three steps of [popcount_word] on one byte. *)
Definition pairs (b : Z) : Z := b - Z.land (Z.shiftr b 1) 0x55.
Definition nibbles (b : Z) : Z := Z.land (pairs b) 0x33 + Z.land (Z.shiftr (pairs b) 2) 0x33.

Lemma pairs_range b : urange 8 b -> urange 8 (pairs b) /\ urange 8 (nibbles b) /\
  nibbles b mod 16 <= 4 /\ nibbles b / 16 <= 4 /\ nibbles b mod 16 + nibbles b / 16 = ones [b].
Proof.
  intros Hb. pose proof Hb as H.
  by_all_bytes (fun b => bool_decide (urange 8 (pairs b) /\ urange 8 (nibbles b) /\
    nibbles b mod 16 <= 4 /\ nibbles b / 16 <= 4 /\ nibbles b mod 16 + nibbles b / 16 = ones [b])) H.
  by apply bool_decide_eq_true in H.
Qed.

Lemma nibble_parts a : 0 <= a < 256 -> a mod 16 <= 4 -> a / 16 <= 4 ->
  exists l h, a = l + 16 * h /\ a mod 16 = l /\ a / 16 = h /\ 0 <= l <= 4 /\ 0 <= h <= 4.
Proof. intros. exists (a mod 16), (a / 16). split_and!; try done; Z.div_mod_to_equations; lia. Qed.

Section PopcountWord.
Context (a b c d : Z) (Ha : urange 8 a) (Hb : urange 8 b) (Hc : urange 8 c) (Hd : urange 8 d).

Lemma pair_step :
  uwrap 32 (word4 a b c d - Z.land (Z.shiftr (word4 a b c d) 1) 0x55555555) =
  word4 (pairs a) (pairs b) (pairs c) (pairs d).
Proof using All.
  change 0x55555555 with (word4 0x55 0x55 0x55 0x55). rewrite masked_word by (done || by vm_compute).
  replace (word4 a b c d - _) with (word4 (pairs a) (pairs b) (pairs c) (pairs d)) by (unfold word4, pairs; lia).
  apply uwrap_small, word4_range; by apply pairs_range.
Qed.

Lemma nibble_step :
  let aux := word4 (pairs a) (pairs b) (pairs c) (pairs d) in
  uwrap 32 (Z.land aux 0x33333333 + Z.land (Z.shiftr aux 2) 0x33333333) =
  word4 (nibbles a) (nibbles b) (nibbles c) (nibbles d).
Proof using All.
  intros aux. change 0x33333333 with (word4 0x33 0x33 0x33 0x33).
  rewrite <- (Z.shiftr_0_r aux) at 1. unfold aux.
  rewrite !masked_word by (by apply pairs_range || by vm_compute). rewrite !Z.shiftr_0_r.
  match goal with |- uwrap 32 ?x = _ => replace x with (word4 (nibbles a) (nibbles b) (nibbles c) (nibbles d))
    by (unfold word4, nibbles; lia) end.
  apply uwrap_small, word4_range; by apply pairs_range.
Qed.

(** The last fold: byte sums, then their total in the top byte. *)
Lemma fold_step : let aux := word4 (nibbles a) (nibbles b) (nibbles c) (nibbles d) in
  Z.shiftr (uwrap 32 (Z.land (uwrap 32 (aux + Z.shiftr aux 4)) 0x0F0F0F0F * 0x01010101)) 24 = ones [a; b; c; d].
Proof using All.
  intros aux.
  destruct (pairs_range a Ha) as (_ & Ha2 & Ha3 & Ha4 & Ha5), (pairs_range b Hb) as (_ & Hb2 & Hb3 & Hb4 & Hb5),
    (pairs_range c Hc) as (_ & Hc2 & Hc3 & Hc4 & Hc5), (pairs_range d Hd) as (_ & Hd2 & Hd3 & Hd4 & Hd5).
  change [a; b; c; d] with ([a] ++ [b] ++ [c] ++ [d]). rewrite !ones_app, <- Ha5, <- Hb5, <- Hc5, <- Hd5.
  clear Ha5 Hb5 Hc5 Hd5. unfold aux. unfold urange in Ha2, Hb2, Hc2, Hd2. change (2 ^ 8) with 256 in *.
  revert Ha2 Hb2 Hc2 Hd2 Ha3 Hb3 Hc3 Hd3 Ha4 Hb4 Hc4 Hd4.
  generalize (nibbles a) (nibbles b) (nibbles c) (nibbles d). clear. intros a b c d. intros.
  destruct (nibble_parts a) as (la & ha & -> & -> & -> & ? & ?); [done..|].
  destruct (nibble_parts b) as (lb & hb & -> & -> & -> & ? & ?); [done..|].
  destruct (nibble_parts c) as (lc & hc & -> & -> & -> & ? & ?); [done..|].
  destruct (nibble_parts d) as (ld & hd & -> & -> & -> & ? & ?); [done..|].
  set (x := word4 (la + ha + 16 * (ha + lb)) (lb + hb + 16 * (hb + lc)) (lc + hc + 16 * (hc + ld)) (ld + hd + 16 * hd)).
  assert (uwrap 32 (word4 (la + 16 * ha) (lb + 16 * hb) (lc + 16 * hc) (ld + 16 * hd)
    + Z.shiftr (word4 (la + 16 * ha) (lb + 16 * hb) (lc + 16 * hc) (ld + 16 * hd)) 4) = x) as ->.
  { rewrite Z.shiftr_div_pow2 by lia. change (2 ^ 4) with 16. unfold x, word4.
    rewrite uwrap_small; unfold urange; change (2 ^ 32) with 4294967296; Z.div_mod_to_equations; lia. }
  change 0x0F0F0F0F with (word4 0x0F 0x0F 0x0F 0x0F). rewrite <- (Z.shiftr_0_r x). unfold x.
  assert (forall l h, 0 <= l < 16 -> 0 <= h -> Z.land (l + 16 * h) 15 = l) as Hland.
  { intros l h Hl Hh. change 15 with (Z.ones 4). rewrite Z.land_ones by lia. change (2 ^ 4) with 16.
    rewrite Z.mul_comm, Z_mod_plus_full. apply Z.mod_small. lia. }
  rewrite masked_word by (unfold urange; change (2 ^ 8) with 256; change (2 ^ (8 - 0)) with 256; lia).
  rewrite !Z.shiftr_0_r, !Hland by lia.
  unfold word4. rewrite Z.shiftr_div_pow2 by lia. unfold uwrap. change (2 ^ 32) with 4294967296. change (2 ^ 24) with 16777216.
  set (p := la + ha). set (q := lb + hb). set (r := lc + hc). set (t := ld + hd).
  replace ((p + 256 * (q + 256 * (r + 256 * t))) * 0x01010101) with
    ((p + 256 * (p + q) + 65536 * (p + q + r)) + (p + q + r + t) * 16777216
      + ((q + r + t) + 256 * (r + t) + 65536 * t) * 4294967296) by lia.
  rewrite Z_mod_plus_full, Z.mod_small, Z.div_add, Z.div_small; lia.
Qed.

Lemma popcount_bytes : popcount_word (word4 a b c d) = ones [a; b; c; d].
Proof using All. unfold popcount_word. rewrite pair_step, nibble_step. apply fold_step. Qed.
End PopcountWord.

(** ** Counting *)

Lemma take_snoc {A} (s : list A) p b : s !! p = Some b -> take (S p) s = take p s ++ [b].
Proof. intros H. by apply take_S_r. Qed.

Lemma read_word_ok n p s : (p + n <= length s)%nat -> read_word n p s = Some (le_decode (mem_read p n s)).
Proof. intros. unfold read_word. by rewrite bool_decide_true. Qed.

Lemma take_plus {A} n p (s : list A) : take (p + n) s = take p s ++ take n (drop p s).
Proof. by rewrite take_take_drop. Qed.

Lemma popcount_read p s : bytes_ok s -> (p + 4 <= length s)%nat ->
  (aux ← read_word 4 p s; Some (popcount_word aux)) = Some (ones (mem_read p 4 s)).
Proof.
  intros Hs Hp. rewrite read_word_ok by done. bind_simpl. f_equal. unfold mem_read.
  assert (bytes_ok (take 4 (drop p s))) as Hok by (by apply Forall_take, Forall_drop).
  assert (length (take 4 (drop p s)) = 4%nat) as Hl by (rewrite length_take, length_drop; lia).
  destruct (take 4 (drop p s)) as [|a [|b [|c [|d []]]]]; try done.
  rewrite !Forall_cons in Hok. destruct Hok as (? & ? & ? & ? & _). rewrite <- popcount_bytes by done.
  f_equal. cbn [le_decode]. unfold word4. lia.
Qed.

Section Popcount.
Context (addr : Z) (s : list Z) (count : Z) (Hs : bytes_ok s) (Hcount : 0 <= count <= zlen s) (Hmax : count < 2 ^ 60).

(** The first [p] bytes are counted. *)
Definition counted_upto (st : nat * Z * Z) : Prop :=
  let '(p, rest, bits) := st in Z.of_nat p + rest = count /\ 0 <= rest /\ bits = ones (take p s).

Definition bytes_togo (st : nat * Z * Z) : nat := Z.to_nat st.1.2.

Lemma counted_small p n : Z.of_nat p <= count -> 0 <= n <= 8 * (count - Z.of_nat p) ->
  uwrap 64 (ones (take p s) + n) = ones (take p s) + n.
Proof using Hcount Hmax.
  intros Hp Hn. pose proof (ones_bound (take p s)) as Hb. rewrite length_take in Hb.
  apply uwrap_small. unfold urange. change (2 ^ 60) with 1152921504606846976 in Hmax.
  change (2 ^ 64) with 18446744073709551616. lia.
Qed.

Lemma count_byte_step test st : (forall p, test p 0 = false) -> counted_upto st ->
  match count_byte test s st with
  | Continue st' => counted_upto st' /\ (bytes_togo st' < bytes_togo st)%nat
  | Break r => exists st', r = Some st' /\ counted_upto st' /\ test st'.1.1 st'.1.2 = false
  end.
Proof using All.
  intros Htest. destruct st as [[p rest] bits]. intros (Hp & Hl & ->). unfold count_byte.
  destruct (test p rest) eqn:Ht; [|by exists (p, rest, ones (take p s))].
  assert (rest <> 0) as Hne by (intros ->; by rewrite Htest in Ht).
  destruct (lookup_lt_is_Some_2 s p) as [b Hb]; [lia|]. rewrite Hb. bind_simpl.
  assert (urange 8 b) as Hbyte by (by eapply Forall_lookup_1).
  rewrite bitsinbyte_spec by done. cbn beta iota. pose proof (ones_bound [b]). cbn [length] in *.
  rewrite counted_small by lia. split; [|unfold bytes_togo; cbn; lia].
  split_and!; [lia|lia|]. by rewrite (take_snoc _ _ _ Hb), ones_app.
Qed.

Lemma count_words_step st : counted_upto st ->
  match count_words s st with
  | Continue st' => counted_upto st' /\ (bytes_togo st' < bytes_togo st)%nat
  | Break r => exists st', r = Some st' /\ counted_upto st'
  end.
Proof using All.
  destruct st as [[p rest] bits]. intros (Hp & Hl & ->). unfold count_words. case_bool_decide; [|by exists (p, rest, ones (take p s))].
  pose proof (popcount_read p s Hs ltac:(lia)) as H1. pose proof (popcount_read (p + 4) s Hs ltac:(lia)) as H2.
  pose proof (popcount_read (p + 8) s Hs ltac:(lia)) as H3. pose proof (popcount_read (p + 12) s Hs ltac:(lia)) as H4.
  rewrite !read_word_ok in * by lia. bind_simpl. cbn [mbind option_bind] in *.
  injection H1 as ->. injection H2 as ->. injection H3 as ->. injection H4 as ->.
  pose proof (ones_bound (mem_read p 4 s)) as B1. pose proof (ones_bound (mem_read (p + 4) 4 s)) as B2.
  pose proof (ones_bound (mem_read (p + 8) 4 s)) as B3. pose proof (ones_bound (mem_read (p + 12) 4 s)) as B4.
  rewrite length_mem_read in B1, B2, B3, B4 by lia.
  set (n1 := ones (mem_read p 4 s)) in *. set (n2 := ones (mem_read (p + 4) 4 s)) in *.
  set (n3 := ones (mem_read (p + 8) 4 s)) in *. set (n4 := ones (mem_read (p + 12) 4 s)) in *.
  assert (forall n, 0 <= n <= 128 -> uwrap 32 n = n) as Hw.
  { intros. apply uwrap_small. unfold urange. change (2 ^ 32) with 4294967296. lia. }
  rewrite (Hw (n1 + n2)), (Hw (n1 + n2 + n3)), (Hw (n1 + n2 + n3 + n4)) by lia.
  rewrite counted_small by lia. split; [|unfold bytes_togo; cbn; lia]. split_and!; [lia|lia|].
  replace (p + 16)%nat with (p + (4 + (4 + (4 + 4))))%nat by lia.
  rewrite (take_plus _ p), !(take_plus _ 4), !ones_app, !drop_drop. unfold n1, n2, n3, n4, mem_read.
  replace (p + 4 + 4)%nat with (p + 8)%nat by lia. replace (p + 8 + 4)%nat with (p + 12)%nat by lia. lia.
Qed.

Lemma redisPopcount_ones : redisPopcount addr s count = Some (ones (take (Z.to_nat count) s)).
Proof using All.
  unfold redisPopcount. set (fuel := S (Z.to_nat count)).
  assert (forall st, counted_upto st -> (bytes_togo st < fuel)%nat) as Hfuel.
  { intros [[p rest] bits] (Hp & Hl & _). unfold bytes_togo, fuel. cbn. lia. }
  destruct (loop_some counted_upto bytes_togo counted_upto (count_byte (fun p count =>
    bool_decide (Z.land (addr + Z.of_nat p) 3 <> 0) && bool_decide (count <> 0)) s) fuel (O, count, 0)) as (st1 & -> & H1).
  { intros st Hst. pose proof (count_byte_step (fun p count =>
      bool_decide (Z.land (addr + Z.of_nat p) 3 <> 0) && bool_decide (count <> 0)) st) as Hstep.
    destruct (count_byte _ s st); [apply Hstep|destruct Hstep as (st' & -> & ? & _); [|done|eauto]]; try done;
      intros p; by rewrite (bool_decide_false (0 <> 0)), andb_false_r by lia. }
  { split_and!; [lia|lia|done]. } { apply Hfuel. split_and!; [lia|lia|done]. }
  bind_simpl. destruct (loop_some counted_upto bytes_togo counted_upto (count_words s) fuel st1) as (st2 & -> & H2).
  { apply count_words_step. } { done. } { by apply Hfuel. }
  bind_simpl. destruct (loop_some counted_upto bytes_togo (fun st => counted_upto st /\ st.1.2 = 0)
    (count_byte (fun _ count => bool_decide (count <> 0)) s) fuel st2) as (st3 & -> & H3 & Hend).
  { intros st Hst. pose proof (count_byte_step (fun _ count => bool_decide (count <> 0)) st) as Hstep.
    destruct (count_byte _ s st); [apply Hstep|destruct Hstep as (st' & -> & ? & He)]; try done.
    eexists. split; [done|]. split; [done|]. apply bool_decide_eq_false in He. lia. }
  { done. } { by apply Hfuel. }
  bind_simpl. destruct st3 as [[p r] bits]. destruct H3 as (Hp & Hl & ->). cbn in Hend. do 2 f_equal. f_equal. lia.
Qed.
End Popcount.

(** ** Finding a bit *)

(** The position of the first [v], or the number of bits. *)
Fixpoint bit_index (v : bool) (l : list bool) : Z :=
  match l with
  | [] => 0
  | b :: l => if Bool.eqb b v then 0 else bit_index v l + 1
  end.

Lemma bit_index_app v l1 l2 : Forall (fun b => b = negb v) l1 -> bit_index v (l1 ++ l2) = zlen l1 + bit_index v l2.
Proof.
  induction 1 as [|b l1 Hb _ IH]; [done|]. cbn [app bit_index length]. rewrite Hb, IH. destruct v; cbn; lia.
Qed.

Lemma bit_index_prefix v l1 l2 : ~ Forall (fun b => b = negb v) l1 -> bit_index v (l1 ++ l2) = bit_index v l1.
Proof.
  induction l1 as [|b l1 IH]; intros H; [by destruct H|]. cbn [app bit_index]. destruct (Bool.eqb b v) eqn:Hb; [done|].
  rewrite IH; [done|]. intros Hl. apply H. constructor; [|done]. by destruct b, v.
Qed.

Lemma bit_index_none v l : Forall (fun b => b = negb v) l -> bit_index v l = zlen l.
Proof. intros H. rewrite <- (app_nil_r l) at 1. rewrite bit_index_app by done. cbn. lia. Qed.

Lemma bit_index_bound v l : 0 <= bit_index v l <= zlen l.
Proof. induction l as [|b l IH]; cbn [bit_index length]; [lia|]. destruct (Bool.eqb b v); lia. Qed.

(** A big-endian integer and its bits. *)
Definition be (l : list Z) : Z := foldl (fun w b => w * 256 + b) 0 l.

Lemma be_snoc l b : be (l ++ [b]) = b + 256 * be l.
Proof. unfold be. rewrite foldl_snoc. lia. Qed.

Lemma be_range l : bytes_ok l -> urange (8 * zlen l) (be l).
Proof.
  induction l as [|b l IH] using rev_ind; intros Hl; [by vm_compute|].
  apply Forall_app in Hl as [Hl [Hb _]%Forall_cons]. specialize (IH Hl). rewrite be_snoc, length_app.
  unfold urange in *. change (2 ^ 8) with 256 in Hb. cbn [length].
  replace (8 * Z.of_nat (length l + 1)) with (8 * zlen l + 8) by lia. rewrite Z.pow_add_r by lia. change (2 ^ 8) with 256. lia.
Qed.

Lemma be_testbit l k : bytes_ok l -> 0 <= k < 8 * zlen l ->
  bits_of l !! Z.to_nat k = Some (Z.testbit (be l) (8 * zlen l - 1 - k)).
Proof.
  induction l as [|b l IH] using rev_ind; intros Hl Hk; [cbn in Hk; lia|].
  apply Forall_app in Hl as [Hl [Hb _]%Forall_cons]. rewrite length_app in Hk |- *. cbn [length] in Hk |- *.
  rewrite bits_of_app, be_snoc, testbit_cons by (done || lia). pose proof (length_bits_of l) as Hlen.
  case_bool_decide.
  - rewrite lookup_app_r by lia. change (bits_of [b]) with (bits_of_byte b ++ []). rewrite app_nil_r. unfold bits_of_byte.
    rewrite list_lookup_fmap. replace (8 * Z.of_nat (length l + 1) - 1 - k) with (7 - (k - 8 * zlen l)) by lia.
    replace (Z.to_nat k - length (bits_of l))%nat with (Z.to_nat (k - 8 * zlen l)) by lia.
    assert (0 <= k - 8 * zlen l < 8) as Hj by lia. revert Hj. generalize (k - 8 * zlen l). intros j Hj.
    assert (j = 0 \/ j = 1 \/ j = 2 \/ j = 3 \/ j = 4 \/ j = 5 \/ j = 6 \/ j = 7) as Hcases by lia.
    destruct Hcases as [->|[->|[->|[->|[->|[->|[->| ->]]]]]]]; reflexivity.
  - rewrite lookup_app_l by lia. rewrite IH by (done || lia). do 2 f_equal. lia.
Qed.

Section Bitpos.
Context (addr : Z) (s : list Z) (count bit : Z) (Hs : bytes_ok s) (Hcount : 0 <= count <= zlen s) (Hbit : bit = 0 \/ bit = 1).

Let v : bool := bool_decide (bit = 1).

(** The bits of the first [c] bytes are not those looked for. *)
Definition skipped (st : nat * Z * Z) : Prop :=
  let '(c, rest, pos) := st in
  Z.of_nat c + rest = count /\ 0 <= rest /\ pos = 8 * Z.of_nat c /\ Forall (fun b => b = negb v) (bits_of (take c s)).

(** A word of [n] bytes without the bit. *)
Definition skip_word (n : nat) : Z := if bool_decide (bit <> 0) then 0 else 2 ^ (8 * Z.of_nat n) - 1.

Lemma skip_byte b : urange 8 b -> b = skip_word 1 <-> Forall (fun x => x = negb v) (bits_of [b]).
Proof using All.
  intros Hb. pose proof Hb as H0. pose proof Hb as H1.
  by_all_bytes (fun b => bool_decide (b = 255 <-> Forall (fun x => x = true) (bits_of [b]))) H0.
  by_all_bytes (fun b => bool_decide (b = 0 <-> Forall (fun x => x = false) (bits_of [b]))) H1.
  apply bool_decide_eq_true in H0, H1. unfold v, skip_word. destruct Hbit as [->| ->]; [exact H0|exact H1].
Qed.

Lemma skip_value w : bytes_ok w -> le_decode w = skip_word (length w) <-> Forall (fun b => b = negb v) (bits_of w).
Proof using All.
  induction w as [|b w IH]; intros Hw; [split; [constructor|by unfold skip_word; destruct Hbit as [->| ->]]|].
  apply Forall_cons in Hw as [Hb Hw]. change (b :: w) with ([b] ++ w). rewrite bits_of_app, Forall_app, <- IH, <- skip_byte by done.
  pose proof (le_decode_range w Hw) as Hr. cbn [app le_decode length]. unfold urange in *. change (2 ^ 8) with 256 in *.
  assert (skip_word (S (length w)) = skip_word 1 + 256 * skip_word (length w) /\ 0 <= skip_word 1 < 256) as [-> ?].
  { unfold skip_word. destruct Hbit as [->| ->]; [rewrite !bool_decide_false by lia|rewrite !bool_decide_true by lia; lia].
    rewrite Nat2Z.inj_succ.
    replace (8 * Z.succ (zlen w)) with (8 * zlen w + 8) by lia. rewrite Z.pow_add_r by lia. change (2 ^ 8) with 256.
    change (2 ^ (8 * Z.of_nat 1)) with 256. lia. }
  lia.
Qed.

Lemma skip_bytes_step st : skipped st ->
  match skip_bytes addr (skip_word 1) s st with
  | Continue st' => skipped st' /\ (bytes_togo st' < bytes_togo st)%nat
  | Break r => exists st', r = Some st' /\ skipped st'
  end.
Proof using All.
  destruct st as [[c rest] pos]. intros (Hc & Hr & -> & Hall). unfold skip_bytes.
  destruct (_ && _) eqn:Ht; [|eexists; split; [done|by split_and!]].
  apply andb_true_iff in Ht as [_ Ht]. apply bool_decide_eq_true in Ht.
  destruct (lookup_lt_is_Some_2 s c) as [b Hb]; [lia|]. rewrite Hb. case_bool_decide as Hskip.
  - eexists. split; [done|]. by split_and!.
  - split; [|unfold bytes_togo; cbn; lia]. split_and!; [lia|lia|lia|].
    rewrite (take_snoc _ _ _ Hb), bits_of_app, Forall_app. split; [done|].
    apply skip_byte; [by eapply Forall_lookup_1|]. by destruct (decide (b = skip_word 1)).
Qed.

(** Where the skipping of words ends: less than a word is left, or the next
    word has the bit. *)
Definition at_word (st : nat * Z * Z) : Prop :=
  skipped st /\ (st.1.2 < 8 \/ ~ Forall (fun b => b = negb v) (bits_of (mem_read st.1.1 8 s))).

Lemma skip_words_step st : skipped st ->
  match skip_words (skip_word 8) s st with
  | Continue st' => skipped st' /\ (bytes_togo st' < bytes_togo st)%nat
  | Break r => exists st', r = Some st' /\ at_word st'
  end.
Proof using All.
  destruct st as [[c rest] pos]. intros (Hc & Hr & -> & Hall). unfold skip_words.
  case_bool_decide; [|eexists; split; [done|split; [by split_and!|left; cbn; lia]]].
  assert (bytes_ok (mem_read c 8 s)) as Hok by (by apply Forall_take, Forall_drop).
  pose proof (skip_value _ Hok) as Hval. rewrite length_mem_read in Hval by lia.
  rewrite read_word_ok by lia. case_bool_decide as Hskip.
  - eexists. split; [done|]. split; [by split_and!|]. right. by rewrite <- Hval.
  - split; [|unfold bytes_togo; cbn; lia]. split_and!; [lia|lia|lia|].
    rewrite take_plus, bits_of_app, Forall_app. split; [done|]. apply Hval.
    by destruct (decide (le_decode (mem_read c 8 s) = skip_word 8)).
Qed.

(** The bytes loaded: the next ones, completed with zeros. *)
Lemma load_word_spec n : forall c rest w, Z.of_nat c + rest = count -> 0 <= rest -> (n <= 8)%nat ->
  0 <= w < 2 ^ (64 - 8 * Z.of_nat n) ->
  load_word n c rest w s =
    Some (foldl (fun w b => w * 256 + b) w (take n (take (Z.to_nat rest) (drop c s) ++ replicate n 0))).
Proof using Hs Hcount.
  induction n as [|n IH]; intros c rest w Hc Hr Hn Hw; [done|]. cbn [load_word].
  assert (uwrap 64 (Z.shiftl w 8) = w * 256) as ->.
  { rewrite Z.shiftl_mul_pow2 by lia. change (2 ^ 8) with 256. apply uwrap_small. unfold urange.
    replace (64 - 8 * Z.of_nat (S n)) with (56 - 8 * Z.of_nat n) in Hw by lia.
    assert (2 ^ (56 - 8 * Z.of_nat n) <= 2 ^ 56) by (apply Z.pow_le_mono_r; lia).
    change (2 ^ 56) with 72057594037927936 in *. change (2 ^ 64) with 18446744073709551616. lia. }
  assert (2 ^ (64 - 8 * Z.of_nat n) = 2 ^ (64 - 8 * Z.of_nat (S n)) * 256) as Hpow.
  { change 256 with (2 ^ 8). rewrite <- Z.pow_add_r by lia. f_equal. lia. }
  case_bool_decide as Hz.
  - destruct (lookup_lt_is_Some_2 s c) as [b Hb]; [lia|]. rewrite Hb. bind_simpl.
    assert (urange 8 b) as Hbyte by (by eapply Forall_lookup_1).
    assert (Z.lor (w * 256) b = w * 256 + b) as ->.
    { symmetry. rewrite Z.add_comm. apply Z.bits_inj'. intros i Hi. rewrite Z.mul_comm, testbit_cons, Z.lor_spec by done.
      change 256 with (2 ^ 8). case_bool_decide.
      - by rewrite Z.mul_comm, Z.mul_pow2_bits_low by lia.
      - rewrite Z.mul_comm, Z.mul_pow2_bits by lia. assert (Z.testbit b i = false) as ->; [|by rewrite orb_false_r].
        rewrite <- (uwrap_small 8 b Hbyte). unfold uwrap. apply Z.mod_pow2_bits_high. lia. }
    unfold urange in Hbyte. change (2 ^ 8) with 256 in Hbyte. rewrite IH by lia.
    rewrite (drop_S s b c) by done. replace (Z.to_nat rest) with (S (Z.to_nat (rest - 1))) by lia.
    cbn [take app foldl]. do 2 f_equal.
    rewrite replicate_S_end, app_assoc, (take_app_le (_ ++ replicate n 0)); [done|].
    rewrite length_app, length_replicate. lia.
  - rewrite IH by lia. replace rest with 0 by lia. change (Z.to_nat 0) with 0%nat.
    rewrite take_0. cbn [app take foldl replicate]. by rewrite Z.add_0_r.
Qed.

(** The scan stops at the first bit looked for, if there is one. *)
Lemma scan_bit_spec pos word d : forall k fuel, urange 64 word -> 0 <= k -> k + Z.of_nat d < 64 ->
  Z.testbit word (63 - (k + Z.of_nat d)) = v ->
  (forall i, k <= i < k + Z.of_nat d -> Z.testbit word (63 - i) = negb v) -> (d < fuel)%nat ->
  mjoin (loop fuel (scan_bit word bit) (2 ^ (63 - k), pos + k)) = Some (pos + k + Z.of_nat d).
Proof using All.
  assert (forall i, 0 <= i < 64 -> (if bool_decide (Z.land (2 ^ (63 - i)) word <> 0) then 1 else 0) =
    if Z.testbit word (63 - i) then 1 else 0) as Htest.
  { intros i Hi. assert (Z.land (2 ^ (63 - i)) word = if Z.testbit word (63 - i) then 2 ^ (63 - i) else 0) as ->.
    { apply Z.bits_inj'. intros n Hn. rewrite Z.land_spec, Z.pow2_bits_eqb by lia.
      destruct (Z.eqb_spec (63 - i) n) as [<-|Hne]; cbn [andb].
      - destruct (Z.testbit word (63 - i)); [by rewrite Z.pow2_bits_true by lia|by rewrite Z.testbit_0_l].
      - destruct (Z.testbit word (63 - i)); [by rewrite Z.pow2_bits_false by lia|by rewrite Z.testbit_0_l]. }
    destruct (Z.testbit word (63 - i)); [|done]. rewrite bool_decide_true; [done|]. apply Z.pow_nonzero; lia. }
  assert (forall b : bool, bool_decide ((if b then 1 else 0) = bit) = Bool.eqb b v) as Heq.
  { intros b. unfold v. destruct Hbit as [->| ->], b; reflexivity. }
  induction d as [|d IH]; intros k fuel Hw Hk Hd Hv Hbefore Hf; (destruct fuel as [|fuel]; [lia|]); cbn [loop scan_bit];
    rewrite bool_decide_true by (apply Z.pow_nonzero; lia); rewrite Htest, Heq by lia.
  - rewrite Z.add_0_r in Hv |- *. by rewrite Hv, Bool.eqb_reflx.
  - rewrite (Hbefore k) by lia. assert (Bool.eqb (negb v) v = false) as -> by (by destruct v).
    rewrite Z.shiftr_div_pow2 by lia. replace (63 - k) with ((63 - (k + 1)) + 1) by lia.
    rewrite Z.pow_add_r, Z.div_mul by lia. replace (pos + k + 1) with (pos + (k + 1)) by lia.
    rewrite (IH (k + 1)); try done; try lia; [f_equal; lia| |].
    + rewrite <- Hv. do 2 f_equal. lia.
    + intros i Hi. apply Hbefore. lia.
Qed.
End Bitpos.

Lemma bit_index_lookup v l : ~ Forall (fun b => b = negb v) l ->
  l !! Z.to_nat (bit_index v l) = Some v /\ bit_index v l < zlen l /\
  forall i, (i < Z.to_nat (bit_index v l))%nat -> l !! i = Some (negb v).
Proof.
  induction l as [|b l IH]; intros H; [by destruct H|]. cbn [bit_index length]. destruct (Bool.eqb b v) eqn:Hb.
  - apply Bool.eqb_prop in Hb as ->. split_and!; [done|lia|lia].
  - assert (b = negb v) as -> by (by destruct b, v). destruct IH as (H1 & H2 & H3); [intros Hl; by apply H; constructor|].
    pose proof (bit_index_bound v l). replace (Z.to_nat (bit_index v l + 1)) with (S (Z.to_nat (bit_index v l))) by lia.
    split_and!; [done|lia|]. intros [|i] Hi; [done|]. apply H3. lia.
Qed.

(** Eight bytes without a bit set make the word zero. *)
Lemma be_zero w : bytes_ok w -> Forall (fun b => b = false) (bits_of w) -> be w = 0.
Proof.
  intros Hw Hall. apply Z.bits_inj'. intros i Hi. rewrite Z.testbit_0_l. destruct (decide (i < 8 * zlen w)).
  - pose proof (be_testbit w (8 * zlen w - 1 - i) Hw ltac:(lia)) as Hb.
    replace (8 * zlen w - 1 - (8 * zlen w - 1 - i)) with i in Hb by lia.
    by eapply Forall_lookup_1 in Hb; [|exact Hall].
  - rewrite <- (uwrap_small _ _ (be_range w Hw)). unfold uwrap. apply Z.mod_pow2_bits_high. lia.
Qed.

(** The word loaded has the bit at the same place as the bytes left. *)
Lemma padded_index v r : let w := take 8 (r ++ replicate 8 0) in
  (8 <= zlen r -> ~ Forall (fun b => b = negb v) (bits_of (take 8 r))) ->
  ~ Forall (fun b => b = negb v) (bits_of w) -> bit_index v (bits_of w) = bit_index v (bits_of r).
Proof.
  intros w Hlong Hw. unfold w in *. destruct (decide (8 <= zlen r)).
  - rewrite take_app_le in * by lia. rewrite <- (take_drop 8 r) at 2. rewrite bits_of_app.
    by rewrite bit_index_prefix by (by apply Hlong).
  - rewrite take_app_ge, take_replicate, bits_of_app in * by lia.
    destruct (decide (Forall (fun b => b = negb v) (bits_of r))) as [Hr|Hr]; [|by apply bit_index_prefix].
    rewrite bit_index_app, (bit_index_none v (bits_of r)) by done. destruct v; [|].
    + destruct Hw. apply Forall_app. split; [done|]. clear. cbn [negb].
      induction (_ `min` _)%nat as [|n IH]; [constructor|]. cbn [replicate]. change (0 :: replicate n 0) with ([0] ++ replicate n 0).
      rewrite bits_of_app, Forall_app. split; [|done]. repeat constructor.
    + replace ((8 - length r) `min` 8)%nat with (S (7 - length r)) by lia. cbn [replicate]. 
      change (bits_of (0 :: _)) with (false :: [false; false; false; false; false; false; false] ++ bits_of (replicate (7 - length r) 0)).
      cbn [bit_index Bool.eqb]. lia.
Qed.

Lemma redisBitpos_index addr s count bit :
  bytes_ok s -> 0 <= count <= zlen s -> bit = 0 \/ bit = 1 ->
  let i := bit_index (bool_decide (bit = 1)) (bits_of (take (Z.to_nat count) s)) in
  redisBitpos addr s count bit = Some (if bool_decide (bit = 1 /\ i = 8 * count) then -1 else i).
Proof.
  intros Hs Hcount Hbit i. unfold redisBitpos. set (fuel := S (Z.to_nat count)). set (v := bool_decide (bit = 1)) in *.
  change (if bool_decide (bit <> 0) then 0 else 255) with (skip_word bit 1).
  change (if bool_decide (bit <> 0) then 0 else 2 ^ 64 - 1) with (skip_word bit 8).
  assert (forall st, skipped s count bit st -> (bytes_togo st < fuel)%nat) as Hfuel.
  { intros [[c rest] pos] (Hc & Hr & _). unfold bytes_togo, fuel. cbn. lia. }
  assert (skipped s count bit (O, count, 0)) as H0 by (split_and!; [lia|lia|lia|constructor]).
  destruct (loop_some (skipped s count bit) bytes_togo (skipped s count bit) (skip_bytes addr (skip_word bit 1) s) fuel (O, count, 0))
    as (st1 & -> & H1); [by apply skip_bytes_step|done|by apply Hfuel|].
  bind_simpl. destruct (loop_some (skipped s count bit) bytes_togo (at_word s count bit) (skip_words (skip_word bit 8) s) fuel st1)
    as ([[c rest] pos] & -> & (Hc & Hr & -> & Hall) & Hword); [by apply skip_words_step|done|by apply Hfuel|].
  bind_simpl. rewrite (load_word_spec s count Hs Hcount) by (done || lia || (cbn; lia)). bind_simpl.
  set (r := take (Z.to_nat rest) (drop c s)). set (w := take 8 (r ++ replicate 8 0)). fold (be w).
  assert (bytes_ok w) as Hw.
  { apply Forall_take, Forall_app. split; [by apply Forall_take, Forall_drop|by repeat constructor]. }
  assert (zlen w = 8) as Hlw by (unfold w; rewrite length_take, length_app, length_replicate; lia).
  assert (take (Z.to_nat count) s = take c s ++ r) as Hsplit.
  { unfold r. rewrite <- take_plus. f_equal. lia. }
  assert (i = 8 * Z.of_nat c + bit_index v (bits_of r)) as Hi.
  { unfold i. rewrite Hsplit, bits_of_app, bit_index_app, length_bits_of, length_take by done. lia. }
  assert (zlen r = rest) as Hlr by (unfold r; rewrite length_take, length_drop; lia).
  assert (8 <= zlen r -> ~ Forall (fun b => b = negb v) (bits_of (take 8 r))) as Hlong.
  { intros Hge. destruct Hword as [Hlt|Hn]; [cbn in Hlt; lia|]. cbn [fst] in Hn.
    unfold mem_read in Hn. unfold r. rewrite take_take. by replace (8 `min` Z.to_nat rest)%nat with 8%nat by lia. }
  destruct (decide (Forall (fun b => b = negb v) (bits_of w))) as [Hnone|Hsome].
  - (* no bit in the word: it is shorter and the bit is 1 *)
    destruct (decide (8 <= zlen r)) as [Hge|Hlt].
    { exfalso. apply (Hlong Hge). unfold w in Hnone. by rewrite take_app_le in Hnone by lia. }
    unfold w in Hnone. rewrite take_app_ge, take_replicate, bits_of_app, Forall_app in Hnone by lia.
    destruct Hnone as [Hnr Hnz]. assert (bit = 1) as ->.
    { destruct Hbit as [->| ->]; [|done]. replace ((8 - length r) `min` 8)%nat with (S (7 - length r)) in Hnz by lia.
      by inversion Hnz. }
    assert (be w = 0) as -> by (apply be_zero; [done|]; unfold w; rewrite take_app_ge, take_replicate, bits_of_app, Forall_app by lia; done).
    rewrite (bool_decide_true (1 = 1 /\ 0 = 0)) by done. rewrite bool_decide_true; [done|]. split; [done|].
    rewrite Hi, bit_index_none, length_bits_of by done. lia.
  - pose proof (padded_index v r Hlong Hsome) as Hidx. fold w in Hidx.
    destruct (bit_index_lookup v _ Hsome) as (Hat & Hlt & Hbefore).
    rewrite length_bits_of, Hlw in Hlt. change (8 * 8) with 64 in Hlt. pose proof (bit_index_bound v (bits_of w)) as [Hpos _].
    pose proof (be_range w Hw) as Hrange. rewrite Hlw in Hrange. change (8 * 8) with 64 in Hrange.
    assert (forall k, 0 <= k < 64 -> bits_of w !! Z.to_nat k = Some (Z.testbit (be w) (63 - k))) as Hbits.
    { intros k Hk. rewrite be_testbit by (done || lia). do 2 f_equal. lia. }
    rewrite (bool_decide_false (bit = 1 /\ be w = 0)).
    2: { intros [-> Hz]. rewrite Hz in Hbits. rewrite Hbits, Z.testbit_0_l in Hat by lia. done. }
    change (unot 64 (Z.shiftr (2 ^ 64 - 1) 1)) with (2 ^ (63 - 0)).
    replace (8 * Z.of_nat c) with (8 * Z.of_nat c + 0) by lia.
    rewrite (scan_bit_spec addr s count bit Hs Hcount Hbit _ (be w) (Z.to_nat (bit_index v (bits_of w)))); try done; try lia.
    + rewrite bool_decide_false; [f_equal; lia|]. intros [-> Heq].
      rewrite Hi in Heq. pose proof (length_bits_of r) as Hlb. remember (bit_index v (bits_of w)) as j eqn:Hj.
      unfold w in Hat. rewrite take_app_ge, take_replicate, bits_of_app, lookup_app_r in Hat by lia.
      replace (Z.to_nat j - length (bits_of r))%nat with 0%nat in Hat by lia.
      by replace ((8 - length r) `min` 8)%nat with (S (7 - length r)) in Hat by lia.
    + rewrite Hbits in Hat by lia. injection Hat as Hat. etransitivity; [|exact Hat]. f_equal. lia.
    + intros k Hk. specialize (Hbefore (Z.to_nat k) ltac:(lia)). rewrite Hbits in Hbefore by lia. by injection Hbefore.
Qed.

(** ** BITOP *)

(** The bit [i] of a string completed with zeros. *)
Definition bit_at (i : nat) (s : list Z) : bool := nth i (bits_of s) false.

Definition bit_combine (op : bitop) (l : list bool) : bool :=
  match op with
  | BITOP_AND => forallb (fun b => b) l
  | BITOP_OR => existsb (fun b => b) l
  | BITOP_XOR => foldr xorb false l
  | BITOP_NOT => negb (List.hd false l)
  end.

Lemma bit_at_byte i s : bit_at i s = Z.testbit (nth (i / 8) s 0) (7 - Z.of_nat (i mod 8)).
Proof.
  unfold bit_at. revert i. induction s as [|b s IH]; intros i.
  - rewrite !nth_lookup, !lookup_nil. cbn [default]. by rewrite Z.testbit_0_l.
  - change (bits_of (b :: s)) with (bits_of_byte b ++ bits_of s).
    destruct (decide (i < 8)%nat) as [Hi|Hi].
    + rewrite app_nth1 by (cbn; lia). rewrite Nat.div_small, Nat.mod_small by lia. cbn [nth].
      do 8 (destruct i as [|i]; [reflexivity|]). lia.
    + rewrite app_nth2 by (cbn; lia). change (length (bits_of_byte b)) with 8%nat. rewrite IH.
      replace i with ((i - 8) + 1 * 8)%nat at 3 4 by lia. rewrite Nat.div_add, Nat.Div0.mod_add by lia.
      by replace ((i - 8) / 8 + 1)%nat with (S ((i - 8) / 8)) by lia.
Qed.

Lemma byte_land x y : urange 8 x -> urange 8 y -> urange 8 (Z.land x y).
Proof. intros [? _]. by apply land_byte. Qed.

Lemma byte_bits (f : Z -> Z -> Z) (g : bool -> bool -> bool) x y :
  (forall x y i, 0 <= i -> Z.testbit (f x y) i = g (Z.testbit x i) (Z.testbit y i)) -> g false false = false ->
  (forall x y, 0 <= x -> 0 <= y -> 0 <= f x y) -> urange 8 x -> urange 8 y -> urange 8 (f x y).
Proof.
  intros Hf Hg Hpos Hx Hy. assert (f x y = uwrap 8 (f x y)) as ->; [|by apply uwrap_range].
  apply Z.bits_inj'. intros i Hi. unfold uwrap. destruct (decide (i < 8)).
  - by rewrite Z.mod_pow2_bits_low.
  - rewrite Z.mod_pow2_bits_high, Hf by lia. rewrite <- (uwrap_small 8 x Hx), <- (uwrap_small 8 y Hy). unfold uwrap.
    by rewrite !Z.mod_pow2_bits_high by lia.
Qed.

(** The three binary operators act bit by bit. *)
Definition op_bool (op : bitop) : bool -> bool -> bool :=
  match op with BITOP_AND => andb | BITOP_OR => orb | BITOP_XOR => xorb | BITOP_NOT => fun x _ => x end.

Lemma bitop_testbit op x y i : 0 <= i ->
  Z.testbit (bitop_apply op x y) i = op_bool op (Z.testbit x i) (Z.testbit y i).
Proof. intros _. destruct op; [apply Z.land_spec|apply Z.lor_spec|apply Z.lxor_spec|done]. Qed.

Lemma bitop_byte_range op x y : urange 8 x -> urange 8 y -> urange 8 (bitop_apply op x y).
Proof.
  apply (byte_bits _ (op_bool op)); [intros; by apply bitop_testbit|by destruct op|].
  intros x' y' ? ?. destruct op; cbn; [apply Z.land_nonneg; auto|apply Z.lor_nonneg; auto|apply Z.lxor_nonneg; lia|done].
Qed.

(** Words as the bytes they are made of. *)
Lemma bitop_word op x y : bytes_ok x -> bytes_ok y -> length x = length y ->
  le_encode (length x) (bitop_apply op (le_decode x) (le_decode y)) = zip_with (bitop_apply op) x y.
Proof.
  intros Hx Hy Hl.
  assert (bytes_ok (zip_with (bitop_apply op) x y) /\ le_decode (zip_with (bitop_apply op) x y) = bitop_apply op (le_decode x) (le_decode y)) as [Hok <-].
  { revert y Hy Hl. induction Hx as [|b x Hb Hx IH]; intros [|b' y] Hy Hl; try done; [by destruct op|].
    apply Forall_cons in Hy as [Hb' Hy]. destruct (IH y Hy ltac:(by injection Hl)) as [IH1 IH2].
    pose proof (bitop_byte_range op b b' Hb Hb') as Hbb. cbn [zip_with le_decode]. split; [by constructor|]. rewrite IH2.
    apply Z.bits_inj'. intros i Hi. rewrite bitop_testbit, !testbit_cons by done. case_bool_decide; by rewrite bitop_testbit by lia. }
  replace (length x) with (length (zip_with (bitop_apply op) x y)) by (rewrite length_zip_with; lia).
  by apply le_encode_decode.
Qed.

Lemma invert_word x : bytes_ok x -> le_encode (length x) (unot (8 * zlen x) (le_decode x)) = unot 8 <$> x.
Proof.
  intros Hx. assert (bytes_ok (unot 8 <$> x) /\ le_decode (unot 8 <$> x) = unot (8 * zlen x) (le_decode x)) as [Hok <-].
  { induction Hx as [|b x Hb Hx [IH1 IH2]]; [done|]. rewrite fmap_cons. cbn [le_decode length]. rewrite IH2. clear IH2.
    assert (urange 8 (unot 8 b)) as Hu by (unfold urange, unot in *; change (2 ^ 8) with 256 in *; lia).
    split; [by constructor|]. replace (8 * Z.of_nat (S (length x))) with (8 * zlen x + 8) by lia.
    unfold unot. rewrite Z.pow_add_r by lia. change (2 ^ 8) with 256. lia. }
  rewrite <- (length_fmap (unot 8) x) at 1. by apply le_encode_decode.
Qed.

Lemma nth_mem_write off bs m i : (off + length bs <= length m)%nat ->
  nth i (mem_write off bs m) 0 = if decide (off <= i < off + length bs)%nat then nth (i - off) bs 0 else nth i m 0.
Proof.
  intros Hl. rewrite !nth_lookup. unfold mem_write. case_decide as Hi.
  - rewrite lookup_app_r, lookup_app_l by (rewrite length_take; lia). rewrite length_take. do 2 f_equal. lia.
  - destruct (decide (i < off)%nat).
    + by rewrite lookup_app_l, lookup_take_lt by (rewrite ?length_take; lia).
    + rewrite lookup_app_r, lookup_app_r, lookup_drop by (rewrite ?length_take; lia). rewrite length_take. do 2 f_equal. lia.
Qed.

Lemma nth_mem_read a n i m : (i < n)%nat -> nth i (mem_read a n m) 0 = nth (a + i) m 0.
Proof. intros. rewrite !nth_lookup. unfold mem_read. by rewrite lookup_take_lt, lookup_drop. Qed.

(** Four words at [j]: every byte of them goes through [f]. *)
Definition block_spec (f : nat -> Z -> Z) (j n : nat) (res res' : list Z) : Prop :=
  length res' = length res /\ bytes_ok res' /\
  forall i, nth i res' 0 = if decide (j <= i < j + n)%nat then f i (nth i res 0) else nth i res 0.

Lemma four_words (g : nat -> list Z -> option (list Z)) f j res :
  (forall k res, (k < 4)%nat -> (j + 32 <= length res)%nat -> bytes_ok res -> exists res', g k res = Some res' /\ block_spec f (j + 8 * k) 8 res res') ->
  (j + 32 <= length res)%nat -> bytes_ok res ->
  exists res', foldl (fun r k => res ← r; g k res) (Some res) (seq 0 4) = Some res' /\ block_spec f j 32 res res'.
Proof.
  intros Hg Hj Hok. cbn [seq foldl]. bind_simpl.
  destruct (Hg 0%nat res ltac:(lia) Hj Hok) as (r1 & -> & L1 & O1 & H1). bind_simpl.
  destruct (Hg 1%nat r1 ltac:(lia) ltac:(lia) O1) as (r2 & -> & L2 & O2 & H2). bind_simpl.
  destruct (Hg 2%nat r2 ltac:(lia) ltac:(lia) O2) as (r3 & -> & L3 & O3 & H3). bind_simpl.
  destruct (Hg 3%nat r3 ltac:(lia) ltac:(lia) O3) as (r4 & -> & L4 & O4 & H4). bind_simpl.
  exists r4. split; [done|]. split; [lia|]. split; [done|]. intros i. rewrite H4, H3, H2, H1.
  repeat case_decide; try done; lia.
Qed.

Lemma combine_words_spec op j src res :
  (j + 32 <= length src)%nat -> bytes_ok src -> (j + 32 <= length res)%nat -> bytes_ok res ->
  exists res', combine_words op j src res = Some res' /\ block_spec (fun i x => bitop_apply op x (nth i src 0)) j 32 res res'.
Proof.
  intros Hsrc Hs Hres Hr.
  apply (four_words (fun k res => x ← read_word 8 (j + 8 * k) res; y ← read_word 8 (j + 8 * k) src;
    Some (mem_write (j + 8 * k) (le_encode 8 (bitop_apply op x y)) res))); [|done|done].
  clear res Hres Hr. intros k res Hk Hres Hr. rewrite !read_word_ok by lia. bind_simpl. eexists. split; [done|].
  assert (bytes_ok (mem_read (j + 8 * k) 8 res)) as H1 by (by apply Forall_take, Forall_drop).
  assert (bytes_ok (mem_read (j + 8 * k) 8 src)) as H2 by (by apply Forall_take, Forall_drop).
  pose proof (length_mem_read (j + 8 * k) 8 res ltac:(lia)) as L1. pose proof (length_mem_read (j + 8 * k) 8 src ltac:(lia)) as L2.
  pose proof (bitop_word op _ _ H1 H2 ltac:(congruence)) as Hw. rewrite L1 in Hw. rewrite Hw.
  assert (length (zip_with (bitop_apply op) (mem_read (j + 8 * k) 8 res) (mem_read (j + 8 * k) 8 src)) = 8%nat) as Lz
    by (rewrite length_zip_with; lia).
  split; [by rewrite length_mem_write by lia|]. split.
  { apply Forall_app. split; [by apply Forall_take|]. apply Forall_app. split; [|by apply Forall_drop].
    rewrite <- Hw. apply le_encode_ok. }
  intros i. rewrite nth_mem_write, Lz by lia. case_decide as Hi; [|done].
  rewrite nth_lookup, lookup_zip_with.
  destruct (lookup_lt_is_Some_2 (mem_read (j + 8 * k) 8 res) (i - (j + 8 * k))) as [x Hx]; [lia|].
  destruct (lookup_lt_is_Some_2 (mem_read (j + 8 * k) 8 src) (i - (j + 8 * k))) as [y Hy]; [lia|].
  rewrite Hx, Hy. cbn. f_equal.
  - symmetry. replace i with (j + 8 * k + (i - (j + 8 * k)))%nat at 1 by lia.
    rewrite <- (nth_mem_read _ 8) by lia. by rewrite nth_lookup, Hx.
  - symmetry. replace i with (j + 8 * k + (i - (j + 8 * k)))%nat at 1 by lia.
    rewrite <- (nth_mem_read _ 8) by lia. by rewrite nth_lookup, Hy.
Qed.

Lemma invert_words_spec j res : (j + 32 <= length res)%nat -> bytes_ok res ->
  exists res', invert_words j res = Some res' /\ block_spec (fun _ x => unot 8 x) j 32 res res'.
Proof.
  intros Hres Hr. apply (four_words (fun k res => x ← read_word 8 (j + 8 * k) res;
    Some (mem_write (j + 8 * k) (le_encode 8 (unot 64 x)) res))); [|done|done].
  clear res Hres Hr. intros k res Hk Hres Hr. rewrite !read_word_ok by lia. bind_simpl. eexists. split; [done|].
  assert (bytes_ok (mem_read (j + 8 * k) 8 res)) as H1 by (by apply Forall_take, Forall_drop).
  pose proof (length_mem_read (j + 8 * k) 8 res ltac:(lia)) as L1.
  pose proof (invert_word _ H1) as Hw. rewrite L1 in Hw. change (8 * Z.of_nat 8) with 64 in Hw.
  split; [by rewrite length_mem_write by (rewrite length_le_encode; lia)|]. split.
  { apply Forall_app. split; [by apply Forall_take|]. apply Forall_app. split; [apply le_encode_ok|by apply Forall_drop]. }
  intros i. rewrite nth_mem_write, length_le_encode by (rewrite length_le_encode; lia). case_decide as Hi; [|done].
  rewrite Hw, nth_lookup, list_lookup_fmap.
  destruct (lookup_lt_is_Some_2 (mem_read (j + 8 * k) 8 res) (i - (j + 8 * k))) as [x Hx]; [lia|]. rewrite Hx. cbn. f_equal.
  symmetry. replace i with (j + 8 * k + (i - (j + 8 * k)))%nat at 1 by lia.
  rewrite <- (nth_mem_read _ 8) by lia. by rewrite nth_lookup, Hx.
Qed.

(** The other sources, one after the other. *)
Lemma combine_all_spec op j others : forall res,
  Forall (fun src => bytes_ok src /\ (j + 32 <= length src)%nat) others -> (j + 32 <= length res)%nat -> bytes_ok res ->
  exists res', foldl (fun r src => res ← r; combine_words op j src res) (Some res) others = Some res' /\
    block_spec (fun i x => foldl (fun x src => bitop_apply op x (nth i src 0)) x others) j 32 res res'.
Proof.
  induction others as [|src others IH]; intros res Ho Hres Hr.
  - exists res. split; [done|]. split_and!; [done|done|]. intros i. by case_decide.
  - apply Forall_cons in Ho as [[Hs Hls] Ho]. cbn [foldl]. bind_simpl.
    destruct (combine_words_spec op j src res Hls Hs Hres Hr) as (r1 & -> & L1 & O1 & H1).
    destruct (IH r1 Ho ltac:(lia) O1) as (r2 & -> & L2 & O2 & H2). exists r2. split; [done|].
    split_and!; [lia|done|]. intros i. rewrite H2, H1. by case_decide.
Qed.

(** ** The lengths of the sources *)

Definition longest (strings : list bytes) : Z := foldl (fun m s => Z.max m (zlen s)) 0 strings.

Lemma source_lengths_spec sources minlen maxlen : source_lengths sources = (minlen, maxlen) ->
  maxlen = longest (default [] <$> sources) /\ 0 <= maxlen /\ 0 <= minlen <= maxlen /\
  Forall (fun s => minlen <= zlen s <= maxlen) (default [] <$> sources).
Proof.
  unfold source_lengths. match goal with |- context [foldl ?f (0, 0, O) _] => set (step := f) end. unfold longest.
  assert (let '(mn, mx, j) := foldl step (0, 0, O) sources in
    j = length sources /\ mx = foldl (fun m s => Z.max m (zlen s)) 0 (default [] <$> sources) /\ 0 <= mx /\ 0 <= mn <= mx /\
    (j = O -> mn = 0) /\ Forall (fun s => mn <= zlen s <= mx) (default [] <$> sources)) as H.
  { induction sources as [|src sources IH] using rev_ind; [cbn; split_and!; [done..|constructor]|].
    rewrite foldl_app, fmap_app, foldl_app, length_app. cbn [foldl fmap list_fmap length].
    destruct (foldl step (0, 0, O) sources) as [[mn mx] j]. destruct IH as (Hj & <- & H0 & H1 & H2 & HF).
    destruct src as [s|]; cbn [step from_option]; unfold id; [|split_and!; cbn [length]; [lia..|]].
    - repeat case_bool_decide; cbn [orb]; (split_and!; [lia..|]);
        (apply Forall_app; split; [|apply Forall_singleton; lia]);
        try (destruct sources; [constructor|cbn in *; lia]); eapply Forall_impl; try exact HF; cbn; lia.
    - apply Forall_app. split; [|apply Forall_singleton; cbn; lia]. eapply Forall_impl; [exact HF|]. cbn. lia. }
  destruct (foldl step (0, 0, O) sources) as [[mn mx] j]. intros [= <- <-]. tauto.
Qed.

(** ** The bytes of the result *)

Lemma bitop_byte_nth op first others i :
  bitop_byte op (first :: others) i =
    foldl (fun x src => bitop_apply op x (nth i src 0)) (if bool_decide (op = BITOP_NOT) then unot 8 (nth i first 0) else nth i first 0) others.
Proof.
  unfold bitop_byte.
  assert (forall src : bytes, (if bool_decide (zlen src <= Z.of_nat i) then 0 else nth i src 0) = nth i src 0) as Hb.
  { intros src. case_bool_decide; [|done]. symmetry. apply nth_overflow. lia. }
  rewrite Hb. generalize (if bool_decide (op = BITOP_NOT) then unot 8 (nth i first 0) else nth i first 0).
  induction others as [|src others IH]; intros x; [done|]. cbn [foldl]. by rewrite IH, Hb.
Qed.

Lemma foldl_not (f : bytes -> Z) others x : foldl (fun x src => bitop_apply BITOP_NOT x (f src)) x others = x.
Proof. by induction others. Qed.

Lemma nth_byte_ok i s : bytes_ok s -> urange 8 (nth i s 0).
Proof.
  intros Hs. rewrite nth_lookup. destruct (s !! i) as [b|] eqn:E; [|done]. exact (Forall_lookup_1 _ _ _ _ Hs E).
Qed.

Lemma unot_ok b : urange 8 b -> urange 8 (unot 8 b).
Proof. unfold urange, unot. change (2 ^ 8) with 256. lia. Qed.

Lemma bitop_byte_ok op strings i : Forall bytes_ok strings -> urange 8 (bitop_byte op strings i).
Proof.
  intros H. destruct H as [|first others Hf Ho]; [done|]. rewrite bitop_byte_nth.
  assert (urange 8 (if bool_decide (op = BITOP_NOT) then unot 8 (nth i first 0) else nth i first 0)) as Hx.
  { pose proof (nth_byte_ok i first Hf). case_bool_decide; [by apply unot_ok|done]. }
  revert Hx. generalize (if bool_decide (op = BITOP_NOT) then unot 8 (nth i first 0) else nth i first 0).
  induction Ho as [|src others Hs Ho IH]; intros x Hx; [done|]. cbn [foldl]. apply IH, bitop_byte_range; [done|by apply nth_byte_ok].
Qed.

(** ** The fast path *)

(** 32 bytes at [j], from those of the first source to those of the result. *)
Lemma fast_block op first others j res :
  Forall (fun src => bytes_ok src /\ (j + 32 <= length src)%nat) others -> (j + 32 <= length res)%nat -> bytes_ok res ->
  exists res', (if bool_decide (op = BITOP_NOT) then invert_words j res
      else foldl (fun r src => res ← r; combine_words op j src res) (Some res) others) = Some res' /\
    length res' = length res /\ bytes_ok res' /\
    forall i, nth i res' 0 = if decide (j <= i < j + 32)%nat then
      (if decide (nth i res 0 = nth i first 0) then bitop_byte op (first :: others) i else nth i res' 0) else nth i res 0.
Proof.
  intros Ho Hj Hok. case_bool_decide as Hop.
  - destruct (invert_words_spec j res Hj Hok) as (r & Hr & L & O & H). exists r. split_and!; [done..|].
    intros i. case_decide as Hi; [|rewrite H, decide_False; done]. case_decide as Hn; [|done].
    rewrite H, decide_True, bitop_byte_nth, Hn, bool_decide_true by done. subst op. by rewrite foldl_not.
  - destruct (combine_all_spec op j others res Ho Hj Hok) as (r & Hr & L & O & H). exists r. split_and!; [done..|].
    intros i. case_decide as Hi; [|rewrite H, decide_False; done]. case_decide as Hn; [|done].
    by rewrite H, decide_True, bitop_byte_nth, Hn, bool_decide_false by done.
Qed.

Lemma fast_loop op first others minlen res :
  Forall (fun src => bytes_ok src /\ minlen <= zlen src) others -> 0 <= minlen <= zlen res -> bytes_ok res ->
  (forall i, (i < Z.to_nat minlen)%nat -> nth i res 0 = nth i first 0) ->
  exists st, mjoin (loop (S (Z.to_nat minlen)) (fast_step op others) (res, O, minlen)) = Some st /\
    length st.1 = length res /\ (st.2 <= length res)%nat /\
    forall i, (i < st.2)%nat -> nth i st.1 0 = bitop_byte op (first :: others) i.
Proof.
  intros Ho Hmin Hres Hfirst.
  apply (loop_some (fun '(r, j, m) => Z.of_nat j + m = minlen /\ 0 <= m /\ length r = length res /\ bytes_ok r /\
       (forall i, (i < j)%nat -> nth i r 0 = bitop_byte op (first :: others) i) /\
       (forall i, (j <= i < Z.to_nat minlen)%nat -> nth i r 0 = nth i first 0)) (fun '(_, _, m) => Z.to_nat m));
    [|split_and!; [lia|lia|done|done|lia|intros; apply Hfirst; lia]|lia].
  intros [[r j] m] (Hjm & Hm & Hl & Hok & Hdone & Htodo). unfold fast_step. case_bool_decide as H32.
  - destruct (fast_block op first others j r) as (r' & -> & L & O & H); [|lia|done|].
    { eapply Forall_impl; [exact Ho|]. cbn. intros src [? ?]. split; [done|lia]. }
    split; [|lia]. split_and!; [lia|lia|congruence|done| |]; intros i Hi; rewrite H; case_decide.
    + rewrite decide_True by (apply Htodo; lia). done.
    + apply Hdone. lia.
    + lia.
    + apply Htodo. lia.
  - exists (r, j). split; [done|]. split_and!; [done|cbn; lia|done].
Qed.

(** ** The last loop *)

Lemma foldl_insert (f : nat -> Z) n : forall j res, (j + n <= length res)%nat ->
  length (foldl (fun res j => <[j := f j]> res) res (seq j n)) = length res /\
  forall i, nth i (foldl (fun res j => <[j := f j]> res) res (seq j n)) 0 =
    if decide (j <= i < j + n)%nat then f i else nth i res 0.
Proof.
  induction n as [|n IH]; intros j res Hj; cbn [seq foldl].
  - split; [done|]. intros i. rewrite decide_False; [done|lia].
  - destruct (IH (S j) (<[j := f j]> res)) as [IHl IHn]; [rewrite length_insert; lia|]. rewrite length_insert in IHl.
    split; [done|]. intros i. rewrite IHn. destruct (decide (i = j)) as [->|Hne].
    + rewrite decide_False, decide_True, nth_lookup, list_lookup_insert_eq by lia. done.
    + rewrite (nth_lookup (<[j := f j]> res)), list_lookup_insert_ne, <- nth_lookup by done.
      repeat case_decide; done || lia.
Qed.

Lemma bitop_result_bytes op sources : Forall bytes_ok (default [] <$> sources) ->
  exists r, bitop_result op sources = Some r /\ zlen r = longest (default [] <$> sources) /\
    forall i, (i < length r)%nat -> nth i r 0 = bitop_byte op (default [] <$> sources) i.
Proof.
  intros Hok. destruct sources as [|src0 sources]; [exists []; split_and!; [by destruct op|done|cbn; lia]|].
  unfold bitop_result. destruct (source_lengths (src0 :: sources)) as [minlen maxlen] eqn:E.
  apply source_lengths_spec in E as (<- & Hmax & Hmin & Hlens). set (strings := default [] <$> src0 :: sources) in *.
  set (res := replicate (Z.to_nat maxlen) 0). assert (length res = Z.to_nat maxlen) as Lres by apply length_replicate.
  assert (exists st, (if bool_decide (minlen <> 0) && bool_decide (length (src0 :: sources) <= 16)%nat then
       mjoin (loop (S (Z.to_nat minlen)) (fast_step op (drop 1 strings))
         (mem_write 0 (mem_read 0 (Z.to_nat minlen) (nth 0 strings [])) res, O, minlen))
     else Some (res, O)) = Some st /\ length st.1 = length res /\ (st.2 <= length res)%nat /\
    forall i, (i < st.2)%nat -> nth i st.1 0 = bitop_byte op strings i) as ([r j] & -> & Hl & Hj & Hr).
  { destruct (bool_decide (minlen <> 0) && _); [|exists (res, O); split_and!; [done|done|cbn; lia|cbn; lia]].
    change strings with (default [] src0 :: (default [] <$> sources)) in Hok, Hlens |- *. cbn [nth drop].
    apply Forall_cons in Hok as [Hok0 Hok]. apply Forall_cons in Hlens as [Hlen0 Hlens].
    set (first := default [] src0) in *.
    assert (length (mem_read 0 (Z.to_nat minlen) first) = Z.to_nat minlen) as Lr by (apply length_mem_read; lia).
    assert (length (mem_write 0 (mem_read 0 (Z.to_nat minlen) first) res) = length res) as Lw by (apply length_mem_write; lia).
    rewrite <- Lw. apply fast_loop.
    - apply Forall_forall. intros s Hs. rewrite Forall_forall in Hok, Hlens. split; [by apply Hok|]. by apply Hlens.
    - lia.
    - apply Forall_app. split; [constructor|]. apply Forall_app. split; [by apply Forall_take, Forall_drop|].
      apply Forall_drop, Forall_replicate. done.
    - intros i Hi. rewrite nth_mem_write, decide_True, nth_mem_read by lia. f_equal. lia. }
  rewrite Some_bind. cbv beta iota. cbn [fst snd] in *.
  destruct (foldl_insert (bitop_byte op strings) (Z.to_nat maxlen - j) j r ltac:(lia)) as [Lf Hf].
  eexists. split; [done|]. rewrite Lf. split; [lia|]. intros i Hi. rewrite Hf. case_decide; [done|]. apply Hr. lia.
Qed.

(** ** Bit by bit *)

Lemma testbit_unot b k : urange 8 b -> 0 <= k < 8 -> Z.testbit (unot 8 b) k = negb (Z.testbit b k).
Proof.
  intros Hb Hk. by_all_bytes (fun b => forallb (fun k => Bool.eqb (Z.testbit (unot 8 b) k) (negb (Z.testbit b k))) [0; 1; 2; 3; 4; 5; 6; 7]) Hb.
  rewrite forallb_forall in Hb. apply Bool.eqb_prop, Hb. cbn. lia.
Qed.

Lemma bitop_byte_bit op strings j k : Forall bytes_ok strings -> strings <> [] -> 0 <= k < 8 ->
  Z.testbit (bitop_byte op strings j) k = bit_combine op ((fun s => Z.testbit (nth j s 0) k) <$> strings).
Proof.
  intros Hok Hne Hk. destruct Hok as [|first others Hf Ho]; [done|]. rewrite bitop_byte_nth.
  assert (forall x, Z.testbit (foldl (fun x src => bitop_apply op x (nth j src 0)) x others) k =
    foldl (fun b src => op_bool op b (Z.testbit (nth j src 0) k)) (Z.testbit x k) others) as H.
  { clear -Hk. induction others as [|src others IH]; intros x; [done|]. cbn [foldl]. rewrite IH, bitop_testbit by (destruct Hk; done); done. }
  rewrite H. clear H. rewrite fmap_cons. destruct op.
  - rewrite bool_decide_false by done. cbn [bit_combine forallb op_bool]. generalize (Z.testbit (nth j first 0) k). clear.
    induction others as [|s o IH]; intros b; cbn; [by rewrite andb_true_r|]. by rewrite IH, andb_assoc.
  - rewrite bool_decide_false by done. cbn [bit_combine existsb op_bool]. generalize (Z.testbit (nth j first 0) k). clear.
    induction others as [|s o IH]; intros b; cbn; [by rewrite orb_false_r|]. by rewrite IH, orb_assoc.
  - rewrite bool_decide_false by done. cbn [bit_combine foldr op_bool]. generalize (Z.testbit (nth j first 0) k). clear.
    induction others as [|s o IH]; intros b; cbn; [by rewrite xorb_false_r|]. by rewrite IH, xorb_assoc.
  - rewrite bool_decide_true, testbit_unot by (done || by apply nth_byte_ok).
    cbn. generalize (negb (Z.testbit (nth j first 0) k)). clear. by induction others.
Qed.

(** ** The claims *)

(** C28: the word-at-a-time loops compute what a bit-by-bit reading computes,
    at every alignment [addr] of the string.  [redisPopcount] returns the number
    of bits set in the first [count] bytes.  [redisBitpos] returns the position
    of the first bit equal to [bit] ([bit_index], the number of bits when there
    is none), and -1 when a set bit is looked for and there is none; it never
    panics and reads nothing after the [count] bytes. *)
Theorem word_algorithms_exact addr s count bit :
  bytes_ok s -> 0 <= count <= zlen s -> count < 2 ^ 60 -> bit = 0 \/ bit = 1 ->
  let bits := bits_of (take (Z.to_nat count) s) in
  let i := bit_index (bool_decide (bit = 1)) bits in
  redisPopcount addr s count = Some (zlen (filter (fun b => b = true) bits)) /\
  redisBitpos addr s count bit = Some (if bool_decide (bit = 1 /\ i = zlen bits) then -1 else i).
Proof.
  intros Hs Hc Hmax Hb bits i. split; [by apply redisPopcount_ones|].
  assert (zlen bits = 8 * count) as -> by (unfold bits; rewrite length_bits_of, length_take; lia). by apply redisBitpos_index.
Qed.

Definition bits_sample : list Z := replicate 19 0 ++ [16; 255; 1].

Lemma word_algorithms_exact_witness :
  let bits := bits_of (take 21 bits_sample) in
  let i := bit_index (bool_decide (1 = 1)) bits in
  redisPopcount 3 bits_sample 21 = Some (zlen (filter (fun b => b = true) bits)) /\
  redisBitpos 3 bits_sample 21 1 = Some (if bool_decide (1 = 1 /\ i = zlen bits) then -1 else i).
Proof.
  apply (word_algorithms_exact 3 bits_sample 21 1); [|cbn; lia|lia|by right].
  apply (bool_decide_unpack _). vm_compute. exact I.
Defined.

Example bits_sample_runs : redisPopcount 3 bits_sample 21 = Some 9 /\ redisBitpos 3 bits_sample 21 1 = Some 155.
Proof. vm_compute. done. Qed.

(** C29: BITOP computes its operation bit by bit, short strings being completed
    with zeros: the result has the length of the longest source, and each of its
    bits combines the bits of the sources at the same position.  The fast path
    over words, taken for at most 16 keys, and the loop over bytes agree. *)
Theorem bitop_bitwise op sources :
  sources <> [] -> Forall bytes_ok (default [] <$> sources) ->
  exists r, bitop_result op sources = Some r /\ zlen r = longest (default [] <$> sources) /\
    forall i, (i < 8 * length r)%nat -> bit_at i r = bit_combine op (bit_at i <$> (default [] <$> sources)).
Proof.
  intros Hne Hok. destruct (bitop_result_bytes op sources Hok) as (r & Hr & Hl & Hn). exists r. split_and!; [done|done|].
  assert ((default [] <$> sources) <> []) as Hne' by (by destruct sources).
  intros i Hi. pose proof (Nat.mod_upper_bound i 8 ltac:(lia)) as Hm.
  rewrite bit_at_byte, Hn, bitop_byte_bit by (done || lia || apply Nat.Div0.div_lt_upper_bound; lia).
  f_equal. apply list_fmap_ext. intros j s _. by rewrite bit_at_byte.
Qed.

Definition bitop_sample : list (option bytes) :=
  [Some (replicate 40 170); Some (replicate 33 255 ++ replicate 9 3)].

Lemma bitop_bitwise_witness :
  exists r, bitop_result BITOP_XOR bitop_sample = Some r /\ zlen r = 42 /\
    forall i, (i < 8 * length r)%nat -> bit_at i r = bit_combine BITOP_XOR (bit_at i <$> (default [] <$> bitop_sample)).
Proof.
  apply (bitop_bitwise BITOP_XOR bitop_sample); [done|apply (bool_decide_unpack _); vm_compute; exact I].
Defined.

(** *** One bit *)

(** The bytes of a string value; a missing key counts as an empty string. *)
Definition holds_bytes (o : option robj) (b : bytes) : Prop :=
  match o with
  | None => b = []
  | Some o => type_of o = REDIS_STRING /\ getDecodedObject o = Some b
  end.

(** [s] up to the byte of the bit [i], completed with zeros. *)
Definition grown (i : Z) (s : bytes) : bytes := s ++ replicate (Z.to_nat (Z.shiftr i 3 + 1 - zlen s)) 0.
Definition set_bit (i on : Z) (s : bytes) : bytes :=
  alter (fun b => replace_bit b (7 - Z.land i 7) on) (Z.to_nat (Z.shiftr i 3)) (grown i s).

Lemma nth_grown j i s : nth j (grown i s) 0 = nth j s 0.
Proof.
  unfold grown. destruct (decide (j < length s)%nat).
  - by rewrite app_nth1.
  - rewrite app_nth2, (nth_overflow s), nth_lookup by lia.
    destruct (replicate _ 0 !! _) eqn:E; [by apply lookup_replicate_1 in E as [-> _]|done].
Qed.

Lemma replace_bit_spec b k k' on : urange 8 b -> 0 <= k < 8 -> 0 <= k' < 8 -> on = 0 \/ on = 1 ->
  Z.testbit (replace_bit b (7 - k) on) (7 - k') = if bool_decide (k' = k) then bool_decide (on = 1) else Z.testbit b (7 - k').
Proof.
  intros Hb Hk Hk' Hon.
  by_all_bytes (fun b => forallb (fun k => forallb (fun k' => forallb (fun on =>
    Bool.eqb (Z.testbit (replace_bit b (7 - k) on) (7 - k'))
      (if bool_decide (k' = k) then bool_decide (on = 1) else Z.testbit b (7 - k')))
    [0; 1]) [0; 1; 2; 3; 4; 5; 6; 7]) [0; 1; 2; 3; 4; 5; 6; 7]) Hb.
  rewrite forallb_forall in Hb. specialize (Hb k ltac:(cbn; lia)). rewrite forallb_forall in Hb.
  specialize (Hb k' ltac:(cbn; lia)). rewrite forallb_forall in Hb. apply Bool.eqb_prop, Hb. cbn. lia.
Qed.

Lemma bit_masked b k : urange 8 b -> 0 <= k < 8 ->
  bool_decide (Z.land b (Z.shiftl 1 (7 - k)) <> 0) = Z.testbit b (7 - k).
Proof.
  intros Hb Hk. by_all_bytes (fun b => forallb (fun k =>
    Bool.eqb (bool_decide (Z.land b (Z.shiftl 1 (7 - k)) <> 0)) (Z.testbit b (7 - k))) [0; 1; 2; 3; 4; 5; 6; 7]) Hb.
  rewrite forallb_forall in Hb. apply Bool.eqb_prop, Hb. cbn. lia.
Qed.

Lemma bit_split i : 0 <= i -> Z.to_nat (Z.shiftr i 3) = (Z.to_nat i / 8)%nat /\ Z.land i 7 = Z.of_nat (Z.to_nat i mod 8).
Proof.
  intros Hi. rewrite Z.shiftr_div_pow2 by lia. change 7 with (Z.ones 3). rewrite Z.land_ones by lia. change (2 ^ 3) with 8.
  split; [apply Nat2Z.inj; rewrite Nat2Z.inj_div|rewrite Nat2Z.inj_mod]; rewrite ?Z2Nat.id; try done; try lia.
  apply Z.div_pos; lia.
Qed.

Lemma length_grown i s : 0 <= i -> (Z.to_nat (Z.shiftr i 3) < length (grown i s))%nat /\
  zlen (grown i s) = Z.max (zlen s) (Z.shiftr i 3 + 1).
Proof.
  intros Hi. assert (0 <= Z.shiftr i 3) by (by apply Z.shiftr_nonneg). unfold grown. rewrite length_app, length_replicate. lia.
Qed.

Lemma bit_at_set i on s j : bytes_ok s -> 0 <= i -> on = 0 \/ on = 1 ->
  bit_at j (set_bit i on s) = if decide (j = Z.to_nat i) then bool_decide (on = 1) else bit_at j s.
Proof.
  intros Hs Hi Hon. destruct (bit_split i Hi) as [Hq Hr]. destruct (length_grown i s Hi) as [Hlen _].
  assert (bytes_ok (grown i s)) as Hok by (apply Forall_app; split; [done|by apply Forall_replicate]).
  rewrite !bit_at_byte. rewrite Hq in Hlen. unfold set_bit. rewrite Hq, Hr, nth_lookup.
  pose proof (Nat.div_mod_eq j 8) as Dj. pose proof (Nat.div_mod_eq (Z.to_nat i) 8) as Di.
  pose proof (Nat.mod_upper_bound j 8 ltac:(lia)). pose proof (Nat.mod_upper_bound (Z.to_nat i) 8 ltac:(lia)).
  destruct (decide (j / 8 = Z.to_nat i / 8)%nat) as [Heq|Hne].
  - rewrite Heq, list_lookup_alter_eq. destruct (lookup_lt_is_Some_2 _ _ Hlen) as [b Hb]. rewrite Hb. cbn [fmap option_fmap option_map default from_option].
    unfold id. rewrite replace_bit_spec by (lia || exact (Forall_lookup_1 _ _ _ _ Hok Hb) || done).
    assert (nth (Z.to_nat i / 8) s 0 = b) as -> by (rewrite <- (nth_grown _ i), nth_lookup, Hb; done).
    destruct (decide (j = Z.to_nat i)) as [->|Hj]; [by rewrite bool_decide_true|]. rewrite bool_decide_false; [done|]. lia.
  - rewrite list_lookup_alter_ne, <- nth_lookup, nth_grown by congruence. rewrite decide_False; [done|]. congruence.
Qed.

Section OneBit.
Context (clock : nat -> Z) (conf : config) (c : client_id) (d : nat).

(** The number arguments of the bit commands. *)
Lemma number_or_reply_at av dbs reply n v x msg Q s :
  at_state conf c d av dbs reply n s -> srange 64 v -> decimal v x -> Q (Some v) s -> wp (number_or_reply c x msg) Q s.
Proof.
  intros Hs Hv Hx HQ. unfold number_or_reply. apply wp_bind. eapply wp_lift; [by apply number_decimal|]. by apply wp_ret.
Qed.

Lemma bit_offset_at av dbs reply n x i Q s :
  at_state conf c d av dbs reply n s -> 0 <= i < 2 ^ 32 -> decimal i x -> Q (Some i) s -> wp (getBitOffsetFromArgument c x) Q s.
Proof.
  intros Hs Hi Hx HQ. unfold getBitOffsetFromArgument. apply wp_bind.
  eapply (number_or_reply_at _ _ _ _ i); [exact Hs|unfold srange; change (64 - 1) with 63; lia|exact Hx|]. cbv beta iota.
  rewrite uwrap_small by (unfold urange; lia). rewrite Z.shiftr_div_pow2 by lia. change (2 ^ 3) with 8.
  assert (i / 8 < 2 ^ 29) by (apply Z.div_lt_upper_bound; lia).
  rewrite (bool_decide_eq_false_2 (i < 0)), (bool_decide_eq_false_2 (i / 8 >= _)) by lia. by apply wp_ret.
Qed.

Lemma write_key_twice k o o' dbs : write_key d k o (write_key d k o' dbs) = write_key d k o dbs.
Proof.
  unfold write_key. apply list_eq. intros i. destruct (decide (i = d)) as [->|Hne].
  - rewrite !list_lookup_alter_eq. destruct (dbs !! d) as [db|]; [|done]. unfold set_dict. cbn. by rewrite insert_insert_eq.
  - by rewrite !list_lookup_alter_ne.
Qed.

Lemma write_key_lookup k o dbs db : dbs !! d = Some db -> write_key d k o dbs !! d = Some (set_dict (<[k := o]>) db).
Proof. intros Hl. unfold write_key. by rewrite list_lookup_alter_eq, Hl. Qed.

Lemma setbit_body_at av k i on b db Q dbs reply n s :
  at_state conf c d av dbs reply n s -> dbs !! d = Some db -> bytes_ok b -> 0 <= i -> is_Some (db_dict db !! k) ->
  (forall s', at_state conf c d av (write_key d k (Raw (set_bit i on b)) dbs)
     (reply ++ [ReplyInt (if bit_at (Z.to_nat i) b then 1 else 0)]) (n + 1) s' -> Q tt s') ->
  wp (let byte := Z.shiftr i 3 in
      let s := b ++ replicate (Z.to_nat (byte + 1 - zlen b)) 0 in
      byteval ← lift (s !! Z.to_nat byte);
      let bit := 7 - Z.land i 7 in
      let bitval := Z.land byteval (Z.shiftl 1 bit) in
      dbOverwrite d k (Raw (<[Z.to_nat byte := replace_bit byteval bit on]> s));;
      signalModifiedKey d k;;
      notifyKeyspaceEvent NOTIFY_STRING "setbit" k d;;
      add_dirty 1;;
      addReply c (ReplyInt (if bool_decide (bitval <> 0) then 1 else 0))) Q s.
Proof.
  intros Hs Hl Hb Hi [old Hold] HQ. cbv zeta. fold (grown i b). destruct (length_grown i b Hi) as [Hlen _].
  destruct (lookup_lt_is_Some_2 _ _ Hlen) as [x Hx]. apply wp_bind. eapply wp_lift; [done|].
  assert (bytes_ok (grown i b)) as Hok by (apply Forall_app; split; [done|by apply Forall_replicate]).
  pose proof (Forall_lookup_1 _ _ _ _ Hok Hx) as Hxb. destruct (bit_split i Hi) as [Hq Hr].
  pose proof (Nat.mod_upper_bound (Z.to_nat i) 8 ltac:(lia)).
  assert (<[Z.to_nat (Z.shiftr i 3) := replace_bit x (7 - Z.land i 7) on]> (grown i b) = set_bit i on b) as ->.
  { unfold set_bit. apply list_eq. intros j. destruct (decide (j = Z.to_nat (Z.shiftr i 3))) as [->|Hne].
    - rewrite list_lookup_insert_eq, list_lookup_alter_eq, Hx by done. done.
    - by rewrite list_lookup_insert_ne, list_lookup_alter_ne by done. }
  rewrite Hr, bit_masked by (done || lia).
  assert (Z.testbit x (7 - Z.of_nat (Z.to_nat i mod 8)) = bit_at (Z.to_nat i) b) as ->.
  { rewrite bit_at_byte, <- (nth_grown _ i), nth_lookup, <- Hq, Hx. done. }
  apply wp_bind. eapply (store_at conf c d av k _ (Some old)); [exact Hs|done|by rewrite Hold|]. clear s Hs. intros s Hs.
  apply wp_bind. eapply signal_at; [|exact Hs|].
  { unfold write_key. rewrite length_alter. by eapply lookup_lt_Some. }
  clear s Hs. intros s Hs. apply wp_bind. eapply notify_at; [exact Hs|]. clear s Hs. intros s Hs.
  apply wp_bind. eapply add_dirty_at; [exact Hs|]. clear s Hs. intros s Hs. by eapply addReply_at.
Qed.

Lemma setbitCommand_at a0 k x i y on b db Q dbs reply n s :
  at_state conf c d [a0; k; x; y] dbs reply n s -> dbs !! d = Some db -> remains clock conf db k ->
  0 <= i < 2 ^ 32 -> decimal i x -> on = 0 \/ on = 1 -> decimal on y -> holds_bytes (db_dict db !! k) b -> bytes_ok b ->
  (forall s', at_state conf c d [a0; k; x; y] (write_key d k (Raw (set_bit i on b)) dbs)
     (reply ++ [ReplyInt (if bit_at (Z.to_nat i) b then 1 else 0)]) (n + 1) s' -> Q tt s') ->
  wp (setbitCommand clock c) Q s.
Proof.
  intros Hs Hl He Hi Hx Hon Hy Hold Hb HQ. unfold setbitCommand.
  do 3 (apply wp_bind; eapply argv_at; [exact Hs|done|]). apply wp_bind. eapply current_db_at; [exact Hs|].
  apply wp_bind. eapply bit_offset_at; [exact Hs|exact Hi|exact Hx|]. cbv beta iota. apply wp_bind.
  eapply (number_or_reply_at _ _ _ _ on); [exact Hs|unfold srange; change (64 - 1) with 63; lia|exact Hy|]. cbv beta iota.
  rewrite bool_decide_eq_false_2 by (destruct Hon as [->| ->]; intros H; by apply H). cbv beta iota.
  apply wp_bind. eapply lookupKeyWrite_at; [exact Hs|done|done|]. clear s Hs. intros s Hs. apply wp_bind.
  destruct (db_dict db !! k) as [o|] eqn:Ho; cbn [holds_bytes] in Hold.
  - destruct Hold as [Ht Hd]. apply wp_bind. eapply checkType_at; [exact Hs|]. rewrite Ht, bool_decide_eq_true_2 by done.
    cbv beta iota. apply wp_bind. eapply wp_lift; [done|]. apply wp_ret. cbv beta iota.
    eapply setbit_body_at; [exact Hs|done|done|lia|by rewrite Ho|done].
  - subst b. apply wp_bind. eapply (store_at conf c d _ k _ None); [exact Hs|done|done|]. clear s Hs. intros s Hs. apply wp_ret. cbv beta iota.
    eapply setbit_body_at; [exact Hs|by apply write_key_lookup|done|lia|cbn; rewrite lookup_insert_eq; by eexists|].
    rewrite write_key_twice. exact HQ.
Qed.

Lemma getbitCommand_at a0 k x i o b db Q dbs reply n s :
  at_state conf c d [a0; k; x] dbs reply n s -> dbs !! d = Some db -> remains clock conf db k ->
  0 <= i < 2 ^ 32 -> decimal i x -> db_dict db !! k = Some o -> holds_bytes (Some o) b -> bytes_ok b ->
  (forall s', at_state conf c d [a0; k; x] dbs (reply ++ [ReplyInt (if bit_at (Z.to_nat i) b then 1 else 0)]) n s' -> Q tt s') ->
  wp (getbitCommand clock c) Q s.
Proof.
  intros Hs Hl He Hi Hx Ho [Ht Hd] Hb HQ. unfold getbitCommand, lookupKeyReadOrReply.
  do 2 (apply wp_bind; eapply argv_at; [exact Hs|done|]). apply wp_bind. eapply current_db_at; [exact Hs|].
  apply wp_bind. eapply bit_offset_at; [exact Hs|exact Hi|exact Hx|]. cbv beta iota. apply wp_bind, wp_bind.
  eapply lookupKeyRead_at; [exact Hs|done|done|]. clear s Hs. intros s Hs. rewrite Ho. apply wp_ret, wp_bind.
  eapply checkType_at; [exact Hs|]. rewrite Ht, bool_decide_eq_true_2 by done. cbv beta iota.
  apply wp_bind. eapply wp_lift; [done|]. destruct (bit_split i ltac:(lia)) as [Hq Hr].
  pose proof (Nat.mod_upper_bound (Z.to_nat i) 8 ltac:(lia)).
  rewrite Hq, Hr. replace (bool_decide _) with (bit_at (Z.to_nat i) b).
  - by eapply addReply_at.
  - rewrite bit_at_byte, nth_lookup. destruct (b !! (Z.to_nat i / 8)%nat) as [v|] eqn:Hv; cbn [from_option]; unfold id.
    + rewrite bit_masked by (exact (Forall_lookup_1 _ _ _ _ Hb Hv) || lia). done.
    + rewrite Z.testbit_0_l. done.
Qed.

End OneBit.

(** C30: SETBIT then GETBIT, on any key that holds a string or is missing and
    for every offset below 2^32.  SETBIT replies the old bit, and stores the
    string grown with zeros to the byte of the offset, in which that bit alone
    has changed; so GETBIT of any offset replies the bit written when it is that
    offset, and the bit of the old string otherwise. *)
Theorem setbit_getbit clock c a0 b0 k x i y on x' j d db b s :
  runs clock c [a0; k; x; y] d db k s -> holds_bytes (db_dict db !! k) b -> bytes_ok b ->
  0 <= i < 2 ^ 32 -> decimal i x -> 0 <= j < 2 ^ 32 -> decimal j x' -> on = 0 \/ on = 1 -> decimal on y ->
  exists s' new, (setbitCommand clock c;; on_client c (set_c_argv [b0; k; x']);; getbitCommand clock c) s = Some (tt, s') /\
    outcome c [ReplyInt (if bit_at (Z.to_nat i) b then 1 else 0);
               ReplyInt (if bool_decide (j = i) then on else if bit_at (Z.to_nat j) b then 1 else 0)]
      (write_key d k (Raw new) (s_db s)) 1 s s' /\
    zlen new = Z.max (zlen b) (i / 8 + 1) /\
    forall l, bit_at l new = if decide (l = Z.to_nat i) then bool_decide (on = 1) else bit_at l b.
Proof.
  intros Hruns Hold Hb Hi Hx Hj Hx' Hon Hy. destruct (runs_at _ _ _ _ _ _ _ Hruns) as (reply & Hs & _).
  destruct Hruns as [(cl & Hc & Hd & Hav) Hdb Hlive]. set (new := set_bit i on b).
  assert (forall l, bit_at l new = if decide (l = Z.to_nat i) then bool_decide (on = 1) else bit_at l b) as Hbits.
  { intros l. apply bit_at_set; [done|lia|done]. }
  edestruct (wp_exists (setbitCommand clock c;; on_client c (set_c_argv [b0; k; x']);; getbitCommand clock c)
    (outcome c [ReplyInt (if bit_at (Z.to_nat i) b then 1 else 0);
                ReplyInt (if bool_decide (j = i) then on else if bit_at (Z.to_nat j) b then 1 else 0)]
      (write_key d k (Raw new) (s_db s)) 1 s) s) as ([] & s' & Hrun & Hout).
  2: { exists s', new. split_and!; [done|done| |done]. unfold new, set_bit. rewrite length_alter.
       destruct (length_grown i b ltac:(lia)) as [_ ->]. rewrite Z.shiftr_div_pow2 by lia. done. }
  pose proof (at_client _ _ _ _ _ _ _ _ Hs) as (cl0 & Hc0 & _ & _ & Hreply). simplify_eq.
  apply wp_bind. eapply setbitCommand_at; [exact Hs|exact Hdb|done|exact Hi|exact Hx|exact Hon|exact Hy|exact Hold|exact Hb|].
  fold new. intros s1 [Hdb1 (cl1 & Hc1 & Hd1 & _ & Hr1) Hn1 Hcf1]. apply wp_bind.
  assert (bytes_ok new) as Hnew.
  { unfold new, set_bit. apply Forall_alter; [apply Forall_app; split; [done|by apply Forall_replicate]|].
    intros x0 _ _. apply uwrap_range. lia. }
  set (old := if bit_at (Z.to_nat i) b then 1 else 0) in *.
  assert (at_state (s_conf s) c (c_db cl) [b0; k; x'] (write_key (c_db cl) k (Raw new) (s_db s)) (c_reply cl ++ [ReplyInt old])
            (s_dirty s + 1) (set_clients (alter (set_c_argv [b0; k; x']) c (s_clients s1)) s1)) as Hs2.
  { constructor; [done| |done|done]. exists (set_c_argv [b0; k; x'] cl1). simpl. by rewrite lookup_alter_eq, Hc1. }
  eapply (getbitCommand_at clock (s_conf s) c (c_db cl)); [exact Hs2|by apply write_key_lookup|by apply remains_written|exact Hj|exact Hx'| | |exact Hnew|].
  - simpl. apply lookup_insert_eq.
  - done.
  - intros s3 [Hdb3 (cl3 & Hc3 & _ & _ & Hr3) Hn3 _]. split_and!; [done|done|]. exists cl, cl3. split_and!; [done|done|].
    rewrite Hr3, <- app_assoc. cbn [app]. rewrite Hbits. do 4 f_equal. destruct (bool_decide_reflect (j = i)) as [Hij|Hij].
    + subst j. rewrite decide_True by done. by destruct Hon as [->| ->].
    + rewrite decide_False; [done|lia].
Qed.

(** A concrete decimal notation, from its digits. *)
Ltac by_digits l := exists l; split_and!; [split; [apply (bool_decide_unpack _); vm_compute; exact I|
  right; eexists _, _; split; [reflexivity|discriminate]]|reflexivity|reflexivity].

Lemma setbit_getbit_witness :
  let s := after_requests sample_clock [(0%nat, Some CmdSet, [str "set"; str "k"; str "5"]);
                                        (0%nat, None, [str "setbit"; str "k"; str "6"; str "1"])] sample in
  exists s' new, (setbitCommand sample_clock 0;; on_client 0 (set_c_argv [str "getbit"; str "k"; str "7"]);;
                  getbitCommand sample_clock 0) s = Some (tt, s') /\
    outcome 0 [ReplyInt 0; ReplyInt 1] (write_key 0 (str "k") (Raw new) (s_db s)) 1 s s' /\
    zlen new = 1 /\ forall l, bit_at l new = if decide (l = 6%nat) then true else bit_at l (str "5").
Proof.
  apply (setbit_getbit sample_clock 0 (str "setbit") (str "getbit") (str "k") (str "6") 6 (str "1") 1 (str "7") 7 0
    (RedisDb {[str "k" := IntObj 5]} ∅ ∅) (str "5"));
    try (apply (bool_decide_unpack _); vm_compute; exact I); try reflexivity; try (by right).
  - split; [eexists; split; [vm_compute; reflexivity|done]|reflexivity|by apply remains_none].
  - by_digits (str "6").
  - by_digits (str "7").
  - by_digits (str "1").
Defined.
