(* ===== verification/Ziplist.v ===== *)
(** * Compact lists ([ziplist.c])

    A ziplist is one block of memory: the total size, the offset of the last
    entry and the number of entries, the entries, and a byte 255.  An entry is
    the length of the previous one (one byte, or 254 and four bytes), its
    encoding and length, and its content.  The blocks are lists of bytes,
    pointers are offsets from their start, and the functions are [None] when the
    code would leave the block or fail an assertion.  The machine is
    little-endian, so [intrev32ifbe] and [memrev32ifbe] do nothing. *)
From S2P Require Import Prelude Memory Util.

Definition ZIP_END : Z := 255.
Definition ZIP_BIGLEN : Z := 254.

Definition ZIP_STR_MASK : Z := 0xc0.
Definition ZIP_STR_06B : Z := 0.
Definition ZIP_STR_14B : Z := 64.
Definition ZIP_STR_32B : Z := 128.
Definition ZIP_INT_16B : Z := 0xc0.
Definition ZIP_INT_32B : Z := 0xd0.
Definition ZIP_INT_64B : Z := 0xe0.
Definition ZIP_INT_24B : Z := 0xf0.
Definition ZIP_INT_8B : Z := 0xfe.
Definition ZIP_INT_IMM_MASK : Z := 0x0f.
Definition ZIP_INT_IMM_MIN : Z := 0xf1.
Definition ZIP_INT_IMM_MAX : Z := 0xfd.
Definition UINT16_MAX : Z := 65535.

Definition ZIP_IS_STR (enc : Z) : bool := bool_decide (Z.land enc ZIP_STR_MASK < ZIP_STR_MASK).

(** ** The header *)

Definition ZIPLIST_HEADER_SIZE : Z := 10.
Definition ZIPLIST_BYTES (zl : list Z) : option Z := zload 0 4 zl.
Definition ZIPLIST_TAIL_OFFSET (zl : list Z) : option Z := zload 4 4 zl.
Definition ZIPLIST_LENGTH (zl : list Z) : option Z := zload 8 2 zl.
Definition ZIPLIST_ENTRY_END (zl : list Z) : option Z := n ← ZIPLIST_BYTES zl; Some (n - 1).

(** [ZIPLIST_TAIL_OFFSET(zl) += d] *)
Definition add_tail_offset (d : Z) (zl : list Z) : option (list Z) :=
  t ← ZIPLIST_TAIL_OFFSET zl; zstore 4 4 (t + d) zl.

Definition ZIPLIST_INCR_LENGTH (zl : list Z) (incr : Z) : option (list Z) :=
  n ← ZIPLIST_LENGTH zl;
  if bool_decide (n < UINT16_MAX) then zstore 8 2 (n + incr) zl else Some zl.

(** ** Entries *)

Record zlentry := ZlEntry {
  prevrawlensize : Z; prevrawlen : Z;
  lensize : Z; len : Z;
  headersize : Z;
  encoding : Z;
  e_p : Z;
}.

Definition zipIntSize (encoding : Z) : Z :=
  if bool_decide (encoding = ZIP_INT_8B) then 1
  else if bool_decide (encoding = ZIP_INT_16B) then 2
  else if bool_decide (encoding = ZIP_INT_24B) then 3
  else if bool_decide (encoding = ZIP_INT_32B) then 4
  else if bool_decide (encoding = ZIP_INT_64B) then 8
  else 0.

(** The bytes [zipEncodeLength] writes; without a destination it returns their
    number. *)
Definition zipEncodeLength (encoding rawlen : Z) : list Z :=
  if ZIP_IS_STR encoding then
    if bool_decide (rawlen <= 0x3f) then [Z.lor ZIP_STR_06B rawlen]
    else if bool_decide (rawlen <= 0x3fff) then
      [Z.lor ZIP_STR_14B (Z.land (Z.shiftr rawlen 8) 0x3f); Z.land rawlen 0xff]
    else
      [ZIP_STR_32B; Z.land (Z.shiftr rawlen 24) 0xff; Z.land (Z.shiftr rawlen 16) 0xff;
       Z.land (Z.shiftr rawlen 8) 0xff; Z.land rawlen 0xff]
  else [encoding].

(** The encoding, [lensize] and [len] at [ptr]. *)
Definition ZIP_DECODE_LENGTH (ptr : Z) (zl : list Z) : option (Z * Z * Z) :=
  b ← zget ptr zl;
  let encoding := if bool_decide (b < ZIP_STR_MASK) then Z.land b ZIP_STR_MASK else b in
  if bool_decide (encoding < ZIP_STR_MASK) then
    if bool_decide (encoding = ZIP_STR_06B) then Some (encoding, 1, Z.land b 0x3f)
    else if bool_decide (encoding = ZIP_STR_14B) then
      b1 ← zget (ptr + 1) zl;
      Some (encoding, 2, Z.lor (Z.shiftl (Z.land b 0x3f) 8) b1)
    else if bool_decide (encoding = ZIP_STR_32B) then
      b1 ← zget (ptr + 1) zl; b2 ← zget (ptr + 2) zl; b3 ← zget (ptr + 3) zl; b4 ← zget (ptr + 4) zl;
      Some (encoding, 5, uwrap 32 (Z.lor (Z.lor (Z.lor (Z.shiftl b1 24) (Z.shiftl b2 16)) (Z.shiftl b3 8)) b4))
    else None
  else Some (encoding, 1, zipIntSize encoding).

(** The bytes [zipPrevEncodeLength] writes; without a destination it returns
    their number. *)
Definition zipPrevEncodeLength (len : Z) : list Z :=
  if bool_decide (len < ZIP_BIGLEN) then [len] else ZIP_BIGLEN :: le_encode 4 len.

Definition zipPrevEncodeLengthForceLarge (len : Z) : list Z := ZIP_BIGLEN :: le_encode 4 len.

Definition ZIP_DECODE_PREVLENSIZE (ptr : Z) (zl : list Z) : option Z :=
  b ← zget ptr zl; Some (if bool_decide (b < ZIP_BIGLEN) then 1 else 5).

(** [prevlensize] and [prevlen]. *)
Definition ZIP_DECODE_PREVLEN (ptr : Z) (zl : list Z) : option (Z * Z) :=
  prevlensize ← ZIP_DECODE_PREVLENSIZE ptr zl;
  prevlen ← (if bool_decide (prevlensize = 1) then zget ptr zl else zload (ptr + 1) 4 zl);
  Some (prevlensize, prevlen).

Definition zipPrevLenByteDiff (p : Z) (zl : list Z) (len : Z) : option Z :=
  prevlensize ← ZIP_DECODE_PREVLENSIZE p zl;
  Some (zlen (zipPrevEncodeLength len) - prevlensize).

Definition zipRawEntryLength (p : Z) (zl : list Z) : option Z :=
  prevlensize ← ZIP_DECODE_PREVLENSIZE p zl;
  '(_, lensize, len) ← ZIP_DECODE_LENGTH (p + prevlensize) zl;
  Some (uwrap 32 (prevlensize + lensize + len)).

Definition zipEntry (p : Z) (zl : list Z) : option zlentry :=
  '(prevlensize, prevlen) ← ZIP_DECODE_PREVLEN p zl;
  '(encoding, lensize, len) ← ZIP_DECODE_LENGTH (p + prevlensize) zl;
  Some (ZlEntry prevlensize prevlen lensize len (prevlensize + lensize) encoding p).

(** ** Contents *)

(** The integer [entry] denotes and its smallest encoding; [None] where the
    code returns 0. *)
Definition zipTryEncoding (entry : list Z) : option (Z * Z) :=
  if bool_decide (zlen entry >= 32) || bool_decide (zlen entry = 0) then None
  else
    value ← string2ll entry;
    let encoding :=
      if bool_decide (value >= 0 /\ value <= 12) then ZIP_INT_IMM_MIN + value
      else if bool_decide (value >= - 2 ^ 7 /\ value <= 2 ^ 7 - 1) then ZIP_INT_8B
      else if bool_decide (value >= - 2 ^ 15 /\ value <= 2 ^ 15 - 1) then ZIP_INT_16B
      else if bool_decide (value >= - 0x7fffff - 1 /\ value <= 0x7fffff) then ZIP_INT_24B
      else if bool_decide (value >= - 2 ^ 31 /\ value <= 2 ^ 31 - 1) then ZIP_INT_32B
      else ZIP_INT_64B in
    Some (value, encoding).

(** The bytes [zipSaveInteger] writes. *)
Definition zipSaveInteger (value encoding : Z) : option (list Z) :=
  if bool_decide (encoding = ZIP_INT_8B) then Some [uwrap 8 value]
  else if bool_decide (encoding = ZIP_INT_16B) then Some (le_encode 2 value)
  else if bool_decide (encoding = ZIP_INT_24B) then Some (drop 1 (le_encode 4 (swrap 32 (Z.shiftl value 8))))
  else if bool_decide (encoding = ZIP_INT_32B) then Some (le_encode 4 value)
  else if bool_decide (encoding = ZIP_INT_64B) then Some (le_encode 8 value)
  else if bool_decide (encoding >= ZIP_INT_IMM_MIN /\ encoding <= ZIP_INT_IMM_MAX) then Some []
  else None.

Definition zipLoadInteger (p encoding : Z) (zl : list Z) : option Z :=
  if bool_decide (encoding = ZIP_INT_8B) then swrap 8 <$> zget p zl
  else if bool_decide (encoding = ZIP_INT_16B) then swrap 16 <$> zload p 2 zl
  else if bool_decide (encoding = ZIP_INT_32B) then swrap 32 <$> zload p 4 zl
  else if bool_decide (encoding = ZIP_INT_24B) then
    bs ← zread p 3 zl; Some (Z.shiftr (swrap 32 (le_decode (0 :: bs))) 8)
  else if bool_decide (encoding = ZIP_INT_64B) then swrap 64 <$> zload p 8 zl
  else if bool_decide (encoding >= ZIP_INT_IMM_MIN /\ encoding <= ZIP_INT_IMM_MAX) then
    Some (Z.land encoding ZIP_INT_IMM_MASK - 1)
  else None.

(** ** Building and resizing *)

Definition ziplistNew : list Z :=
  le_encode 4 (ZIPLIST_HEADER_SIZE + 1) ++ le_encode 4 ZIPLIST_HEADER_SIZE ++ le_encode 2 0 ++ [ZIP_END].

Section Resizing.
Context (junk : nat -> Z).

Definition ziplistResize (zl : list Z) (len : Z) : option (list Z) :=
  let len := uwrap 32 len in
  let zl := realloc junk (Z.to_nat len) zl in
  zl ← zstore 0 4 len zl;
  zwrite (len - 1) [ZIP_END] zl.

(** One iteration of the loop of [__ziplistCascadeUpdate] on the ziplist, [p]
    and [curlen]. *)
Definition cascade_step (st : list Z * Z * Z) : ctl (list Z * Z * Z) (option (list Z)) :=
  let '(zl, p, curlen) := st in
  as_step (
    b ← zget p zl;
    if bool_decide (b = ZIP_END) then Some (inr zl)
    else
      cur ← zipEntry p zl;
      let rawlen := uwrap 32 (headersize cur + len cur) in
      let rawlensize := zlen (zipPrevEncodeLength rawlen) in
      b ← zget (p + rawlen) zl;
      if bool_decide (b = ZIP_END) then Some (inr zl)
      else
        next ← zipEntry (p + rawlen) zl;
        if bool_decide (prevrawlen next = rawlen) then Some (inr zl)
        else if bool_decide (prevrawlensize next < rawlensize) then
          let extra := rawlensize - prevrawlensize next in
          zl ← ziplistResize zl (curlen + extra);
          let np := p + rawlen in
          tail ← ZIPLIST_TAIL_OFFSET zl;
          zl ← (if bool_decide (tail <> np) then add_tail_offset extra zl else Some zl);
          zl ← zmove (np + rawlensize) (np + prevrawlensize next) (curlen - np - prevrawlensize next - 1) zl;
          zl ← zwrite np (zipPrevEncodeLength rawlen) zl;
          Some (inl (zl, p + rawlen, curlen + extra))
        else
          zl ← (if bool_decide (prevrawlensize next > rawlensize)
                then zwrite (p + rawlen) (zipPrevEncodeLengthForceLarge rawlen) zl
                else zwrite (p + rawlen) (zipPrevEncodeLength rawlen) zl);
          Some (inr zl)).

Definition __ziplistCascadeUpdate (zl : list Z) (p : Z) : option (list Z) :=
  curlen ← ZIPLIST_BYTES zl;
  mjoin (loop (S (length zl)) cascade_step (zl, p, curlen)).

(** The loop of [__ziplistDelete] over the entries deleted, on [p] and [deleted]. *)
Definition delete_step (zl : list Z) (num : Z) (st : Z * Z) : ctl (Z * Z) (option (Z * Z)) :=
  let '(p, deleted) := st in
  as_step (b ← zget p zl;
         if bool_decide (b <> ZIP_END) && bool_decide (deleted < num) then
           n ← zipRawEntryLength p zl; Some (inl (p + n, deleted + 1))
         else Some (inr (p, deleted))).

Definition __ziplistDelete (zl : list Z) (p num : Z) : option (list Z) :=
  first ← zipEntry p zl;
  let first_p := p in
  '(p, deleted) ← mjoin (loop (S (length zl)) (delete_step zl num) (p, 0));
  let totlen := uwrap 32 (p - first_p) in
  if bool_decide (totlen > 0) then
    b ← zget p zl;
    '(zl, nextdiff) ←
      (if bool_decide (b <> ZIP_END) then
         nextdiff ← zipPrevLenByteDiff p zl (prevrawlen first);
         let p := p - nextdiff in
         zl ← zwrite p (zipPrevEncodeLength (prevrawlen first)) zl;
         zl ← add_tail_offset (- totlen) zl;
         tail ← zipEntry p zl;
         b ← zget (p + headersize tail + len tail) zl;
         zl ← (if bool_decide (b <> ZIP_END) then add_tail_offset nextdiff zl else Some zl);
         bytes ← ZIPLIST_BYTES zl;
         zl ← zmove first_p p (bytes - p - 1) zl;
         Some (zl, nextdiff)
       else
         zl ← zstore 4 4 (first_p - prevrawlen first) zl;
         Some (zl, 0));
    bytes ← ZIPLIST_BYTES zl;
    zl ← ziplistResize zl (bytes - totlen + nextdiff);
    zl ← ZIPLIST_INCR_LENGTH zl (- deleted);
    if bool_decide (nextdiff <> 0) then __ziplistCascadeUpdate zl first_p else Some zl
  else Some zl.

Definition __ziplistInsert (zl : list Z) (p : Z) (s : list Z) : option (list Z) :=
  curlen ← ZIPLIST_BYTES zl;
  b ← zget p zl;
  prevlen ←
    (if bool_decide (b <> ZIP_END) then entry ← zipEntry p zl; Some (prevrawlen entry)
     else
       ptail ← ZIPLIST_TAIL_OFFSET zl;
       b ← zget ptail zl;
       if bool_decide (b <> ZIP_END) then zipRawEntryLength ptail zl else Some 0);
  let '(value, encoding, reqlen) :=
    match zipTryEncoding s with
    | Some (value, encoding) => (value, encoding, zipIntSize encoding)
    | None => (123456789, 0, zlen s)
    end in
  let reqlen := reqlen + zlen (zipPrevEncodeLength prevlen) in
  let reqlen := reqlen + zlen (zipEncodeLength encoding (zlen s)) in
  nextdiff ← (if bool_decide (b <> ZIP_END) then zipPrevLenByteDiff p zl reqlen else Some 0);
  zl ← ziplistResize zl (curlen + reqlen + nextdiff);
  b ← zget p zl;
  zl ←
    (if bool_decide (b <> ZIP_END) then
       zl ← zmove (p + reqlen) (p - nextdiff) (curlen - p - 1 + nextdiff) zl;
       zl ← zwrite (p + reqlen) (zipPrevEncodeLength reqlen) zl;
       zl ← add_tail_offset reqlen zl;
       tail ← zipEntry (p + reqlen) zl;
       b ← zget (p + reqlen + headersize tail + len tail) zl;
       if bool_decide (b <> ZIP_END) then add_tail_offset nextdiff zl else Some zl
     else zstore 4 4 p zl);
  zl ← (if bool_decide (nextdiff <> 0) then __ziplistCascadeUpdate zl (p + reqlen) else Some zl);
  zl ← zwrite p (zipPrevEncodeLength prevlen) zl;
  let p := p + zlen (zipPrevEncodeLength prevlen) in
  zl ← zwrite p (zipEncodeLength encoding (zlen s)) zl;
  let p := p + zlen (zipEncodeLength encoding (zlen s)) in
  zl ← (if ZIP_IS_STR encoding then zwrite p s zl
        else bs ← zipSaveInteger value encoding; zwrite p bs zl);
  ZIPLIST_INCR_LENGTH zl 1.

(** [where] is true for the head. *)
Definition ziplistPush (zl s : list Z) (head : bool) : option (list Z) :=
  p ← (if head then Some ZIPLIST_HEADER_SIZE else ZIPLIST_ENTRY_END zl);
  __ziplistInsert zl p s.

Definition ziplistInsert (zl : list Z) (p : Z) (s : list Z) : option (list Z) := __ziplistInsert zl p s.

(** The pointer of the caller stays at the same offset. *)
Definition ziplistDelete (zl : list Z) (p : Z) : option (list Z * Z) :=
  let offset := p in
  zl ← __ziplistDelete zl p 1; Some (zl, offset).

End Resizing.

(** ** Walking *)

(** The loops of [ziplistIndex], on [p] and [index]. *)
Definition index_back (zl : list Z) (st : Z * Z) : ctl (Z * Z) (option (Z * Z)) :=
  let '(p, index) := st in
  as_step (entry ← zipEntry p zl;
         if bool_decide (prevrawlen entry > 0) then
           if bool_decide (index <> 0) then Some (inl (p - prevrawlen entry, index - 1))
           else Some (inr (p, index - 1))
         else Some (inr (p, index))).

Definition index_forth (zl : list Z) (st : Z * Z) : ctl (Z * Z) (option (Z * Z)) :=
  let '(p, index) := st in
  as_step (b ← zget p zl;
         if bool_decide (b <> ZIP_END) then
           if bool_decide (index <> 0) then n ← zipRawEntryLength p zl; Some (inl (p + n, index - 1))
           else Some (inr (p, index - 1))
         else Some (inr (p, index))).

(** [Some None] is NULL. *)
Definition ziplistIndex (zl : list Z) (index : Z) : option (option Z) :=
  let fuel := S (length zl) in
  '(p, index) ←
    (if bool_decide (index < 0) then
       let index := swrap 32 (- index) - 1 in
       p ← ZIPLIST_TAIL_OFFSET zl;
       b ← zget p zl;
       if bool_decide (b <> ZIP_END) then mjoin (loop fuel (index_back zl) (p, index)) else Some (p, index)
     else mjoin (loop fuel (index_forth zl) (ZIPLIST_HEADER_SIZE, index)));
  b ← zget p zl;
  Some (if bool_decide (b = ZIP_END) || bool_decide (index > 0) then None else Some p).

Definition ziplistNext (zl : list Z) (p : Z) : option (option Z) :=
  b ← zget p zl;
  if bool_decide (b = ZIP_END) then Some None
  else
    n ← zipRawEntryLength p zl;
    let p := p + n in
    b ← zget p zl;
    Some (if bool_decide (b = ZIP_END) then None else Some p).

Definition ziplistPrev (zl : list Z) (p : Z) : option (option Z) :=
  b ← zget p zl;
  if bool_decide (b = ZIP_END) then
    p ← ZIPLIST_TAIL_OFFSET zl;
    b ← zget p zl;
    Some (if bool_decide (b = ZIP_END) then None else Some p)
  else if bool_decide (p = ZIPLIST_HEADER_SIZE) then Some None
  else
    entry ← zipEntry p zl;
    if bool_decide (prevrawlen entry > 0) then Some (Some (p - prevrawlen entry)) else None.

(** A string or an integer. *)
Definition ziplistGet (p : option Z) (zl : list Z) : option (option (list Z + Z)) :=
  match p with
  | None => Some None
  | Some p =>
      b ← zget p zl;
      if bool_decide (b = ZIP_END) then Some None
      else
        entry ← zipEntry p zl;
        if ZIP_IS_STR (encoding entry) then
          s ← zread (p + headersize entry) (len entry) zl; Some (Some (inl s))
        else
          v ← zipLoadInteger (p + headersize entry) (encoding entry) zl; Some (Some (inr v))
  end.

Definition ziplistDeleteRange (junk : nat -> Z) (zl : list Z) (index num : Z) : option (list Z) :=
  p ← ziplistIndex zl (swrap 32 index);
  match p with
  | None => Some zl
  | Some p => __ziplistDelete junk zl p num
  end.

Definition ziplistCompare (p : Z) (sstr zl : list Z) : option bool :=
  b ← zget p zl;
  if bool_decide (b = ZIP_END) then Some false
  else
    entry ← zipEntry p zl;
    if ZIP_IS_STR (encoding entry) then
      if bool_decide (len entry = zlen sstr) then
        s ← zread (p + headersize entry) (zlen sstr) zl; Some (bool_decide (s = sstr))
      else Some false
    else
      match zipTryEncoding sstr with
      | Some (sval, _) =>
          zval ← zipLoadInteger (p + headersize entry) (encoding entry) zl; Some (bool_decide (zval = sval))
      | None => Some false
      end.

(** One iteration of [ziplistFind] on [p], [skipcnt], [vencoding] and [vll]. *)
Definition find_step (vstr zl : list Z) (skip : Z) (st : Z * Z * Z * Z) : ctl (Z * Z * Z * Z) (option (option Z)) :=
  let '(p, skipcnt, vencoding, vll) := st in
  as_step (
    b ← zget p zl;
    if bool_decide (b = ZIP_END) then Some (inr None)
    else
      prevlensize ← ZIP_DECODE_PREVLENSIZE p zl;
      '(encoding, lensize, len) ← ZIP_DECODE_LENGTH (p + prevlensize) zl;
      let q := p + prevlensize + lensize in
      if bool_decide (skipcnt = 0) then
        '(found, vencoding, vll) ←
          (if ZIP_IS_STR encoding then
             if bool_decide (len = zlen vstr) then
               s ← zread q (zlen vstr) zl; Some (bool_decide (s = vstr), vencoding, vll)
             else Some (false, vencoding, vll)
           else
             let '(vencoding, vll) :=
               if bool_decide (vencoding = 0) then
                 match zipTryEncoding vstr with
                 | Some (vll, vencoding) => (vencoding, vll)
                 | None => (255, vll)
                 end
               else (vencoding, vll) in
             if bool_decide (vencoding <> 255) then
               ll ← zipLoadInteger q encoding zl; Some (bool_decide (ll = vll), vencoding, vll)
             else Some (false, vencoding, vll));
        if (found : bool) then Some (inr (Some p)) else Some (inl (q + len, skip, vencoding, vll))
      else Some (inl (q + len, skipcnt - 1, vencoding, vll))).

Definition ziplistFind (p : Z) (vstr zl : list Z) (skip : Z) : option (option Z) :=
  mjoin (loop (S (length zl)) (find_step vstr zl skip) (p, 0, 0, 0)).

(** The loop of [ziplistLen] on [p] and [len]. *)
Definition len_step (zl : list Z) (st : Z * Z) : ctl (Z * Z) (option Z) :=
  let '(p, len) := st in
  as_step (b ← zget p zl;
         if bool_decide (b <> ZIP_END) then n ← zipRawEntryLength p zl; Some (inl (p + n, len + 1))
         else Some (inr len)).

Definition ziplistLen (zl : list Z) : option (Z * list Z) :=
  n ← ZIPLIST_LENGTH zl;
  if bool_decide (n < UINT16_MAX) then Some (n, zl)
  else
    len ← mjoin (loop (S (length zl)) (len_step zl) (ZIPLIST_HEADER_SIZE, 0));
    zl ← (if bool_decide (len < UINT16_MAX) then zstore 8 2 len zl else Some zl);
    Some (len, zl).

Definition ziplistBlobLen (zl : list Z) : option Z := ZIPLIST_BYTES zl.
