(* ===== verification/ZiplistLogic.v ===== *)
(** * What a ziplist holds

    The image of a list of entries in memory, and what the functions of
    [ziplist.c] do to it: decoding, resizing, moving, the cascade of updates. *)
From S2P Require Import Prelude Memory Util Ziplist.

(** ** Bit operations of the encodings *)

Lemma str06_bits x : 0 <= x <= 63 -> Z.lor 0 x = x /\ Z.land x 0xc0 = 0 /\ Z.land x 0x3f = x.
Proof.
  intros Hx. pose proof (below_by_eval (fun x => bool_decide (Z.land x 0xc0 = 0 /\ Z.land x 0x3f = x)) 64) as H.
  specialize (H ltac:(vm_compute; reflexivity) x ltac:(lia)). apply bool_decide_eq_true in H as [? ?]. done.
Qed.

Lemma str14_bits x : 0 <= x <= 63 ->
  Z.lor 64 x = 64 + x /\ Z.land (64 + x) 0xc0 = 64 /\ Z.land (64 + x) 0x3f = x.
Proof.
  intros Hx. pose proof (below_by_eval (fun x => bool_decide (Z.lor 64 x = 64 + x /\ Z.land (64 + x) 0xc0 = 64 /\ Z.land (64 + x) 0x3f = x)) 64) as H.
  specialize (H ltac:(vm_compute; reflexivity) x ltac:(lia)). by apply bool_decide_eq_true in H.
Qed.

Lemma not_str x : 0xc0 <= x <= 255 -> ZIP_IS_STR x = false.
Proof.
  intros Hx. pose proof (below_by_eval (fun x => bool_decide (x < 0xc0) || negb (ZIP_IS_STR x)) 256) as H.
  specialize (H ltac:(vm_compute; reflexivity) x ltac:(lia)). cbv beta in H. rewrite bool_decide_eq_false_2 in H by lia.
  by destruct (ZIP_IS_STR x).
Qed.

(** ** Integers *)

(** The encodings and the integers they are chosen for. *)
Definition int_class (v enc : Z) : Prop :=
  0 <= v <= 12 /\ enc = ZIP_INT_IMM_MIN + v \/ srange 8 v /\ enc = ZIP_INT_8B \/
  srange 16 v /\ enc = ZIP_INT_16B \/ srange 24 v /\ enc = ZIP_INT_24B \/
  srange 32 v /\ enc = ZIP_INT_32B \/ srange 64 v /\ enc = ZIP_INT_64B.

Lemma try_encoding_class s v enc : zipTryEncoding s = Some (v, enc) ->
  string2ll s = Some v /\ int_class v enc.
Proof.
  unfold zipTryEncoding. destruct (_ || _); [done|]. destruct (string2ll s) as [w|] eqn:Hs; [|done]. bind_simpl.
  intros [= -> <-]. split; [done|]. pose proof (string2ll_range _ _ Hs) as Hr. unfold int_class, srange in *.
  change (8 - 1) with 7. change (16 - 1) with 15. change (24 - 1) with 23. change (32 - 1) with 31. change (64 - 1) with 63 in *.
  repeat (case_bool_decide; [lia|]). lia.
Qed.

Lemma class_encoding v enc : int_class v enc -> 0xc0 <= enc < 255 /\ ZIP_IS_STR enc = false.
Proof.
  intros H. assert (0xc0 <= enc < 255) as Hr.
  { unfold int_class, ZIP_INT_IMM_MIN, ZIP_INT_8B, ZIP_INT_16B, ZIP_INT_24B, ZIP_INT_32B, ZIP_INT_64B in H. lia. }
  split; [done|apply not_str; lia].
Qed.

(** [zipLoadInteger] reads what [zipSaveInteger] writes. *)
Lemma save_load_int v enc : int_class v enc ->
  exists bs, zipSaveInteger v enc = Some bs /\ zlen bs = zipIntSize enc /\ bytes_ok bs /\
    forall A C p, p = zlen A -> zipLoadInteger p enc (A ++ bs ++ C) = Some v.
Proof.
  assert (forall (n : nat) w A C p, p = zlen A -> zload p (Z.of_nat n) (A ++ le_encode n w ++ C) = Some (uwrap (8 * Z.of_nat n) w)) as Hload.
  { intros n w A C p Hp. rewrite <- le_encode_wrap. apply zload_app; [done|done|]. apply uwrap_range. lia. }
  intros [[Hv ->]|[[Hv ->]|[[Hv ->]|[[Hv ->]|[[Hv ->]|[Hv ->]]]]]].
  - exists []. unfold zipSaveInteger, zipLoadInteger, zipIntSize, ZIP_INT_IMM_MIN, ZIP_INT_IMM_MAX, ZIP_INT_IMM_MASK,
      ZIP_INT_8B, ZIP_INT_16B, ZIP_INT_24B, ZIP_INT_32B, ZIP_INT_64B.
    rewrite !bool_decide_false by lia. rewrite bool_decide_true by lia. split_and!; [done|done|constructor|].
    intros. f_equal. pose proof (below_by_eval (fun v => bool_decide (Z.land (241 + v) 15 - 1 = v)) 13) as Hi.
    specialize (Hi ltac:(vm_compute; reflexivity) v ltac:(lia)). by apply bool_decide_eq_true in Hi.
  - exists [uwrap 8 v]. split_and!; [done|done|repeat constructor; by apply uwrap_range|]. intros A C p Hp.
    unfold zipLoadInteger. cbn [app]. rewrite bool_decide_true, (zget_app A) by done. cbn. by rewrite swrap_uwrap, swrap_small.
  - exists (le_encode 2 v). split_and!; [done|done|apply le_encode_ok|]. intros A C p Hp.
    unfold zipLoadInteger. rewrite bool_decide_false, bool_decide_true by done.
    rewrite (Hload 2%nat) by done. cbn. by rewrite swrap_uwrap, swrap_small.
  - assert (swrap 32 (Z.shiftl v 8) = v * 256) as Hs.
    { rewrite Z.shiftl_mul_pow2 by done. apply swrap_small; [done|]. unfold srange in *. cbn in *. lia. }
    exists (le_encode 3 v). unfold zipSaveInteger.
    rewrite bool_decide_false, bool_decide_false, bool_decide_true, Hs by done. split_and!; [|done|apply le_encode_ok|].
    { change (le_encode 4 (v * 256)) with ((v * 256) mod 256 :: le_encode 3 (v * 256 / 256)). by rewrite Z.div_mul. }
    intros A C p Hp. unfold zipLoadInteger. rewrite !bool_decide_false by done. rewrite bool_decide_true by done.
    rewrite (zread_app A (le_encode 3 v) C) by done. bind_simpl. f_equal. cbn [le_decode].
    rewrite le_decode_encode. unfold swrap, uwrap, srange in *. cbn in Hv |- *. rewrite Z.shiftr_div_pow2 by done.
    change (2 ^ 8) with 256. Z.div_mod_to_equations. lia.
  - exists (le_encode 4 v). split_and!; [done|done|apply le_encode_ok|]. intros A C p Hp.
    unfold zipLoadInteger. rewrite bool_decide_false, bool_decide_false, bool_decide_true by done.
    rewrite (Hload 4%nat) by done. cbn. by rewrite swrap_uwrap, swrap_small.
  - exists (le_encode 8 v). split_and!; [done|done|apply le_encode_ok|]. intros A C p Hp.
    unfold zipLoadInteger. do 4 rewrite bool_decide_false by done. rewrite bool_decide_true by done.
    rewrite (Hload 8%nat) by done. cbn. by rewrite swrap_uwrap, swrap_small.
Qed.

(** ** Entries *)

(** The encoding chosen for a string, 0 when it is stored as it is; the bytes
    of the length and the content. *)
Definition enc_of (s : list Z) : Z := match zipTryEncoding s with Some (_, enc) => enc | None => 0 end.
Definition length_field (s : list Z) : list Z := zipEncodeLength (enc_of s) (zlen s).
Definition payload (s : list Z) : list Z :=
  match zipTryEncoding s with Some (v, enc) => default [] (zipSaveInteger v enc) | None => s end.
Definition body (s : list Z) : list Z := length_field s ++ payload s.

(** What [ziplistGet] returns. *)
Definition zvalue (s : list Z) : list Z + Z := match zipTryEncoding s with Some (v, _) => inr v | None => inl s end.

(** The length of the previous entry, in five bytes when [wide]. *)
Definition prev_field (wide : bool) (prev : Z) : list Z := if wide then 254 :: le_encode 4 prev else [prev].
Definition field_size (wide : bool) : Z := if wide then 5 else 1.

Record ent := Ent { ent_prev : Z; ent_wide : bool; ent_str : list Z }.
Definition ent_bytes (e : ent) : list Z := prev_field (ent_wide e) (ent_prev e) ++ body (ent_str e).
Abbreviation ent_len e := (zlen (ent_bytes e)).

Definition str_ok (s : list Z) : Prop := bytes_ok s /\ zlen s < 2 ^ 32.
Record ent_ok (e : ent) : Prop := {
  ok_prev : 0 <= ent_prev e < (if ent_wide e then 2 ^ 32 else 254);
  ok_str : str_ok (ent_str e);
  ok_len : ent_len e < 2 ^ 32;
}.

Lemma length_prev_field w prev : zlen (prev_field w prev) = field_size w.
Proof. destruct w; [|done]. cbn. lia. Qed.

Lemma ent_len_eq e : ent_len e = field_size (ent_wide e) + zlen (body (ent_str e)).
Proof. unfold ent_bytes. rewrite length_app, Nat2Z.inj_add, length_prev_field. done. Qed.

Lemma prev_encode len : zipPrevEncodeLength len = prev_field (bool_decide (len >= 254)) len.
Proof. unfold zipPrevEncodeLength, ZIP_BIGLEN, prev_field. repeat case_bool_decide; done || lia. Qed.

Lemma encode_length_size enc n : 1 <= zlen (zipEncodeLength enc n) <= 5.
Proof. unfold zipEncodeLength. destruct (ZIP_IS_STR enc); repeat case_bool_decide; cbn; lia. Qed.

Lemma body_size s : 1 <= zlen (body s) <= zlen s + 13.
Proof.
  unfold body. rewrite length_app. pose proof (encode_length_size (enc_of s) (zlen s)) as Hl. fold (length_field s) in Hl.
  unfold payload. destruct (zipTryEncoding s) as [[v enc]|] eqn:E; [|lia].
  apply try_encoding_class in E as [_ E]. destruct (save_load_int v enc E) as (bs & -> & Hb & _). cbn.
  assert (zlen bs <= 8) by (rewrite Hb; unfold zipIntSize; repeat case_bool_decide; lia). lia.
Qed.

Lemma field_size_bound w : 1 <= field_size w <= 5.
Proof. by destruct w. Qed.

(** *** Decoding *)

Lemma decode_length_str (A s C : list Z) ptr : ptr = zlen A -> zlen s < 2 ^ 32 ->
  exists enc, ZIP_DECODE_LENGTH ptr (A ++ zipEncodeLength 0 (zlen s) ++ C) = Some (enc, zlen (zipEncodeLength 0 (zlen s)), zlen s) /\
    ZIP_IS_STR enc = true.
Proof.
  intros Hp Hs. set (n := zlen s) in *. assert (0 <= n) as Hn by lia. clearbody n. clear s.
  assert (forall b l, ptr = zlen A -> zget ptr (A ++ (b :: l) ++ C) = Some b) as Hget by (intros; by apply zget_app).
  assert (forall L i b, 0 <= i -> L !! Z.to_nat i = Some b -> zget (ptr + i) (A ++ L ++ C) = Some b) as Hgeti.
  { intros L i b Hi HL. unfold zget. rewrite bool_decide_true, lookup_app_r by lia.
    replace (Z.to_nat (ptr + i) - length A)%nat with (Z.to_nat i) by lia. by apply lookup_app_l_Some. }
  unfold zipEncodeLength. change (ZIP_IS_STR 0) with true. cbv iota. unfold ZIP_DECODE_LENGTH, ZIP_STR_06B, ZIP_STR_14B, ZIP_STR_32B, ZIP_STR_MASK.
  case_bool_decide as H6; [|case_bool_decide as H14].
  - destruct (str06_bits n ltac:(lia)) as (-> & E1 & E2). rewrite Hget by done. bind_simpl.
    rewrite (bool_decide_true (n < 192)), E1, E2 by lia. exists 0. done.
  - assert (Z.shiftr n 8 = n / 256) as Hq by (by rewrite Z.shiftr_div_pow2).
    assert (Z.land (Z.shiftr n 8) 0x3f = n / 256) as -> by (rewrite land_0x3f, Hq; apply Z.mod_small; Z.div_mod_to_equations; lia).
    destruct (str14_bits (n / 256)) as (-> & E1 & E2); [Z.div_mod_to_equations; lia|].
    rewrite Hget by done. bind_simpl. rewrite (bool_decide_true (64 + n / 256 < 192)), E1, E2 by (Z.div_mod_to_equations; lia).
    rewrite (bool_decide_false (64 = 0)) by done. rewrite !bool_decide_true by done.
    rewrite (Hgeti _ 1 (Z.land n 255)) by done. bind_simpl. exists 64. split; [|done]. do 2 f_equal.
    rewrite land_0xff, lor_shiftl_add by (lia || apply Z.mod_pos_bound; lia). change (2 ^ 8) with 256. Z.div_mod_to_equations. lia.
  - rewrite !land_0xff, !Z.shiftr_div_pow2 by lia.
    set (b1 := (n / 2 ^ 24) mod 256). set (b2 := (n / 2 ^ 16) mod 256). set (b3 := (n / 2 ^ 8) mod 256). set (b4 := n mod 256).
    assert (0 <= b1 < 256) by (apply Z.mod_pos_bound; lia). assert (0 <= b2 < 256) by (apply Z.mod_pos_bound; lia).
    assert (0 <= b3 < 256) by (apply Z.mod_pos_bound; lia). assert (0 <= b4 < 256) by (apply Z.mod_pos_bound; lia).
    rewrite Hget by done. bind_simpl. rewrite (bool_decide_true (128 < 192)) by done. change (Z.land 128 192) with 128.
    rewrite (bool_decide_true (128 < 192)), !(bool_decide_false (128 = _)), (bool_decide_true (128 = 128)) by done.
    rewrite (Hgeti _ 1 b1), (Hgeti _ 2 b2), (Hgeti _ 3 b3), (Hgeti _ 4 b4) by done.
    bind_simpl. exists 128. split; [|done]. do 2 f_equal.
    assert (Z.lor (Z.lor (Z.lor (Z.shiftl b1 24) (Z.shiftl b2 16)) (Z.shiftl b3 8)) b4 = n) as ->.
    { rewrite (lor_shiftl_add b1 _ 24) by (rewrite ?Z.shiftl_mul_pow2; lia).
      replace (b1 * 2 ^ 24 + Z.shiftl b2 16) with (Z.shiftl (b1 * 256 + b2) 16) by (rewrite !Z.shiftl_mul_pow2; lia).
      rewrite (lor_shiftl_add _ _ 16) by (rewrite ?Z.shiftl_mul_pow2; lia).
      replace ((b1 * 256 + b2) * 2 ^ 16 + Z.shiftl b3 8) with (Z.shiftl ((b1 * 256 + b2) * 256 + b3) 8) by (rewrite !Z.shiftl_mul_pow2; lia).
      rewrite lor_shiftl_add by lia. unfold b1, b2, b3, b4. change (2 ^ 24) with 16777216. change (2 ^ 16) with 65536. change (2 ^ 8) with 256.
      Z.div_mod_to_equations. lia. }
    apply uwrap_small. done.
Qed.

(** What the decoded encoding says of the content. *)
Definition enc_matches (s : list Z) (enc : Z) : Prop :=
  match zipTryEncoding s with Some (_, e) => enc = e | None => ZIP_IS_STR enc = true end.

Lemma decode_body (A C : list Z) s ptr : ptr = zlen A -> str_ok s ->
  exists enc, ZIP_DECODE_LENGTH ptr (A ++ body s ++ C) = Some (enc, zlen (length_field s), zlen (payload s)) /\ enc_matches s enc.
Proof.
  intros Hp [Hs Hn]. unfold enc_matches, body, payload, length_field, enc_of. destruct (zipTryEncoding s) as [[v enc]|] eqn:E.
  - apply try_encoding_class in E as [_ Hc]. destruct (class_encoding _ _ Hc) as [Henc Hns].
    destruct (save_load_int _ _ Hc) as (bs & -> & Hlen & _). unfold zipEncodeLength. rewrite Hns. cbn [app default from_option length].
    unfold id. exists enc. split; [|done]. unfold ZIP_DECODE_LENGTH. cbn [app]. rewrite (zget_app A _ _ ptr) by done. bind_simpl.
    unfold ZIP_STR_MASK. rewrite (bool_decide_false (enc < 192)), bool_decide_false, Hlen by lia. done.
  - rewrite <- app_assoc. by apply decode_length_str.
Qed.

Lemma decode_prev (A C : list Z) (w : bool) prev ptr : ptr = zlen A -> 0 <= prev < (if w then 2 ^ 32 else 254) ->
  ZIP_DECODE_PREVLENSIZE ptr (A ++ prev_field w prev ++ C) = Some (field_size w) /\
  ZIP_DECODE_PREVLEN ptr (A ++ prev_field w prev ++ C) = Some (field_size w, prev).
Proof.
  intros Hp Hr. assert (ZIP_DECODE_PREVLENSIZE ptr (A ++ prev_field w prev ++ C) = Some (field_size w)) as Hsize.
  { unfold ZIP_DECODE_PREVLENSIZE, prev_field, ZIP_BIGLEN. destruct w; cbn [app]; rewrite (zget_app A) by done; bind_simpl;
      [by rewrite bool_decide_false|by rewrite bool_decide_true by lia]. }
  split; [done|]. unfold ZIP_DECODE_PREVLEN. rewrite Hsize. bind_simpl. destruct w; cbn [field_size].
  - rewrite bool_decide_false by done. unfold prev_field. cbn [app].
    change (A ++ 254 :: le_encode 4 prev ++ C) with (A ++ [254] ++ le_encode 4 prev ++ C). rewrite app_assoc.
    rewrite (zload_app (A ++ [254]) 4 prev C) by (done || (rewrite length_app; cbn; lia)). done.
  - rewrite bool_decide_true by done. unfold prev_field. cbn [app]. by rewrite (zget_app A) by done.
Qed.

(** [entry] is what [zipEntry] returns for [e]. *)
Record decodes (e : ent) (entry : zlentry) : Prop := {
  dec_size : prevrawlensize entry = field_size (ent_wide e);
  dec_prev : prevrawlen entry = ent_prev e;
  dec_header : headersize entry = field_size (ent_wide e) + zlen (length_field (ent_str e));
  dec_len : len entry = zlen (payload (ent_str e));
  dec_total : headersize entry + len entry = ent_len e;
  dec_enc : enc_matches (ent_str e) (encoding entry);
}.

Section Entry.
Context (A C : list Z) (e : ent) (ptr : Z) (Hptr : ptr = zlen A) (He : ent_ok e).

Lemma zipEntry_ent : exists entry, zipEntry ptr (A ++ ent_bytes e ++ C) = Some entry /\ decodes e entry.
Proof using All.
  destruct He as [Hp Hs Hl]. unfold zipEntry, ent_bytes. rewrite <- app_assoc.
  destruct (decode_prev A (body (ent_str e) ++ C) _ _ ptr Hptr Hp) as [_ ->]. bind_simpl. rewrite app_assoc.
  destruct (decode_body (A ++ prev_field (ent_wide e) (ent_prev e)) C (ent_str e) (ptr + field_size (ent_wide e))) as (enc & -> & Henc);
    [rewrite length_app, Nat2Z.inj_add, length_prev_field; lia|done|].
  bind_simpl. eexists. split; [done|]. rewrite ent_len_eq in Hl. unfold body in Hl. rewrite length_app in Hl.
  constructor; try done; cbn. rewrite ent_len_eq. unfold body. rewrite length_app. lia.
Qed.

Lemma raw_length_ent : zipRawEntryLength ptr (A ++ ent_bytes e ++ C) = Some (ent_len e).
Proof using All.
  pose proof He as [Hp Hs Hl]. unfold zipRawEntryLength. rewrite ent_len_eq in *. unfold ent_bytes. rewrite <- app_assoc.
  destruct (decode_prev A (body (ent_str e) ++ C) _ _ ptr Hptr Hp) as [-> _]. bind_simpl. rewrite app_assoc.
  destruct (decode_body (A ++ prev_field (ent_wide e) (ent_prev e)) C (ent_str e) (ptr + field_size (ent_wide e))) as (enc & -> & Henc);
    [rewrite length_app, Nat2Z.inj_add, length_prev_field; lia|done|].
  bind_simpl. unfold body in *. rewrite length_app in *. rewrite uwrap_small by (unfold urange; pose proof (field_size_bound (ent_wide e)); lia).
  f_equal. lia.
Qed.

Lemma prevlensize_ent : ZIP_DECODE_PREVLENSIZE ptr (A ++ ent_bytes e ++ C) = Some (field_size (ent_wide e)).
Proof using All. destruct He as [Hp _ _]. unfold ent_bytes. rewrite <- app_assoc. by apply decode_prev. Qed.

Lemma head_ent : exists b, zget ptr (A ++ ent_bytes e ++ C) = Some b /\ b <> ZIP_END.
Proof using All.
  destruct He as [Hp _ _]. unfold ent_bytes. rewrite <- app_assoc. unfold prev_field. destruct (ent_wide e); cbn [app];
    rewrite (zget_app A) by done; eexists; (split; [done|]); unfold ZIP_END; lia.
Qed.

(** The content. *)
Lemma get_payload : match zipTryEncoding (ent_str e) with
  | None => zread (ptr + field_size (ent_wide e) + zlen (length_field (ent_str e))) (zlen (ent_str e)) (A ++ ent_bytes e ++ C) = Some (ent_str e)
  | Some (v, enc) => zipLoadInteger (ptr + field_size (ent_wide e) + zlen (length_field (ent_str e))) enc (A ++ ent_bytes e ++ C) = Some v
  end.
Proof using Hptr.
  assert (A ++ ent_bytes e ++ C = (A ++ prev_field (ent_wide e) (ent_prev e) ++ length_field (ent_str e)) ++ payload (ent_str e) ++ C) as ->.
  { unfold ent_bytes, body. by rewrite <- !app_assoc. }
  assert (ptr + field_size (ent_wide e) + zlen (length_field (ent_str e)) =
    zlen (A ++ prev_field (ent_wide e) (ent_prev e) ++ length_field (ent_str e))) as ->.
  { rewrite !length_app, !Nat2Z.inj_add, length_prev_field. lia. }
  unfold payload. destruct (zipTryEncoding (ent_str e)) as [[v enc]|] eqn:E.
  - apply try_encoding_class in E as [_ Hc]. destruct (save_load_int _ _ Hc) as (bs & -> & _ & _ & Hload). by apply Hload.
  - by apply zread_app.
Qed.

End Entry.

(** ** The image of a list *)

Definition ents (es : list ent) : list Z := es ≫= ent_bytes.

Definition hdr (total tail cnt : Z) : list Z := le_encode 4 total ++ le_encode 4 tail ++ le_encode 2 cnt.

(** [pre] stands before the entries [es], in place of the entries that come
    first: the offset of the last entry counts it. *)
Definition total_of (pre : list Z) (es : list ent) : Z := 11 + zlen pre + zlen (ents es).
Definition tail_of (pre : list Z) (es : list ent) : Z := 10 + zlen pre + zlen (ents (removelast es)).
Definition image (pre : list Z) (cnt : Z) (es : list ent) : list Z :=
  hdr (total_of pre es) (tail_of pre es) cnt ++ pre ++ ents es ++ [ZIP_END].

Lemma ents_cons e es : ents (e :: es) = ent_bytes e ++ ents es.
Proof. done. Qed.
Lemma ents_app es1 es2 : ents (es1 ++ es2) = ents es1 ++ ents es2.
Proof. apply bind_app. Qed.
Lemma length_hdr a b c : length (hdr a b c) = 10%nat.
Proof. done. Qed.

(** The first entries can be counted in [pre]. *)
Lemma image_shift pre cnt es1 es2 : es2 <> [] -> image pre cnt (es1 ++ es2) = image (pre ++ ents es1) cnt es2.
Proof.
  intros Hne. unfold image, total_of, tail_of. rewrite removelast_app by done. rewrite !ents_app, !length_app, <- !app_assoc.
  f_equal. f_equal; lia.
Qed.

Section Header.
Context (n t c : Z) (X : list Z) (Hn : urange 32 n) (Ht : urange 32 t) (Hc : urange 16 c).
Abbreviation zl := (hdr n t c ++ X).

Lemma hdr_bytes : ZIPLIST_BYTES zl = Some n.
Proof using Hn. unfold hdr. rewrite <- !app_assoc. by apply (zload_app []). Qed.

Lemma hdr_tail : ZIPLIST_TAIL_OFFSET zl = Some t.
Proof using Ht. unfold hdr. rewrite <- !app_assoc. by apply (zload_app (le_encode 4 n)). Qed.

Lemma hdr_length : ZIPLIST_LENGTH zl = Some c.
Proof using Hc. unfold hdr. rewrite <- app_assoc, <- app_assoc, app_assoc. by apply (zload_app (le_encode 4 n ++ le_encode 4 t)). Qed.

Lemma hdr_set_tail v : zstore 4 4 v zl = Some (hdr n v c ++ X).
Proof. unfold hdr. rewrite <- !app_assoc. by apply (zstore_app (le_encode 4 n)). Qed.

Lemma hdr_add_tail d : add_tail_offset d zl = Some (hdr n (t + d) c ++ X).
Proof using Ht. unfold add_tail_offset. rewrite hdr_tail. bind_simpl. apply hdr_set_tail. Qed.

Lemma hdr_set_bytes v : zstore 0 4 v zl = Some (hdr v t c ++ X).
Proof. unfold hdr. rewrite <- !app_assoc. by apply (zstore_app []). Qed.

Lemma hdr_set_length v : zstore 8 2 v zl = Some (hdr n t v ++ X).
Proof.
  unfold hdr. rewrite <- !app_assoc. rewrite app_assoc. rewrite (zstore_app (le_encode 4 n ++ le_encode 4 t)) by done.
  by rewrite <- app_assoc.
Qed.

End Header.

(** ** Resizing and moving *)

Lemma zl_resize_grow junk n k t c X : n = 11 + zlen X -> 0 <= k -> n + k < 2 ^ 32 ->
  exists G, ziplistResize junk (hdr n t c ++ X ++ [ZIP_END]) (n + k) = Some (hdr (n + k) t c ++ X ++ G ++ [ZIP_END]) /\
    zlen G = k /\ (k = 0 \/ exists G', G = ZIP_END :: G').
Proof.
  intros Hn Hk Hlt. unfold ziplistResize. rewrite uwrap_small by (unfold urange; lia). cbv zeta.
  assert (length (hdr n t c ++ X ++ [ZIP_END]) = Z.to_nat n) as Hlen by (rewrite !length_app, length_hdr; cbn; lia).
  rewrite realloc_grow by lia. set (J := _ <$> _). assert (zlen J = k) as HJ.
  { unfold J. rewrite length_fmap, length_seq. lia. }
  clearbody J. rewrite <- !app_assoc, hdr_set_bytes. bind_simpl.
  destruct (decide (k = 0)) as [->|Hne].
  - destruct J; [|cbn in HJ; lia]. exists []. split; [|by split; [|left]]. rewrite app_nil_r.
    rewrite (app_assoc _ X). rewrite (zwrite_app (hdr (n + 0) t c ++ X) [ZIP_END] [ZIP_END] []); [by rewrite <- app_assoc| |done].
    rewrite length_app, length_hdr. lia.
  - destruct (exists_last (l := J)) as (J' & x & ->); [by intros ->|]. rewrite length_app in HJ. cbn in HJ.
    exists (ZIP_END :: J'). split; [|split; [cbn; lia|right; by eexists]].
    assert (hdr (n + k) t c ++ X ++ [ZIP_END] ++ J' ++ [x] = (hdr (n + k) t c ++ X ++ ZIP_END :: J') ++ [x] ++ []) as ->
      by (cbn; by rewrite <- !app_assoc).
    rewrite (zwrite_app _ [x] [ZIP_END] []); [cbn; by rewrite <- !app_assoc| |done].
    rewrite !length_app, length_hdr. cbn. lia.
Qed.

Lemma zl_resize_shrink junk n m t c X Y : n = 11 + zlen X -> n < 2 ^ 32 -> Y <> [] ->
  ziplistResize junk (hdr m t c ++ X ++ Y) n = Some (hdr n t c ++ X ++ [ZIP_END]).
Proof.
  intros Hn Hlt HY. unfold ziplistResize. rewrite uwrap_small by (unfold urange; lia). cbv zeta.
  destruct Y as [|y Y]; [done|]. rewrite realloc_shrink by (rewrite !length_app, length_hdr; cbn; lia).
  assert (take (Z.to_nat n) (hdr m t c ++ X ++ y :: Y) = hdr m t c ++ X ++ [y]) as ->.
  { change (y :: Y) with ([y] ++ Y). rewrite (app_assoc X), (app_assoc (hdr _ _ _)). apply take_app_length'.
    rewrite !length_app, length_hdr. cbn. lia. }
  rewrite hdr_set_bytes. bind_simpl. rewrite app_assoc.
  rewrite (zwrite_app (hdr n t c ++ X) [y] [ZIP_END] []); [by rewrite <- app_assoc| |done].
  rewrite length_app, length_hdr. lia.
Qed.

(** [R] and the [y] bytes before it move up over the room [G]. *)
Lemma move_up (A F R G T : list Z) y : 0 <= y <= zlen A + zlen F -> y <= zlen F + zlen G ->
  exists W, zmove (zlen A + zlen F + zlen G - y) (zlen A + zlen F - y) (zlen R + y) (A ++ F ++ R ++ G ++ T) = Some (A ++ W ++ R ++ T) /\
    zlen W = zlen F + zlen G /\ take (length F + length G - Z.to_nat y) W = take (length F + length G - Z.to_nat y) (F ++ R ++ G ++ T).
Proof.
  intros Hy1 Hy2. set (M := A ++ F ++ R ++ G ++ T).
  set (d := (length F + length G - Z.to_nat y)%nat).
  set (Y := take (Z.to_nat y) (drop (length A + length F - Z.to_nat y) M)).
  exists (take d (F ++ R ++ G ++ T) ++ Y).
  assert (length M = length A + length F + length R + length G + length T)%nat as HM by (unfold M; rewrite !length_app; lia).
  assert (length Y = Z.to_nat y) as HY by (unfold Y; rewrite length_take, length_drop; lia).
  assert (length (take d (F ++ R ++ G ++ T)) = d) as Hd by (rewrite length_take, !length_app; lia).
  rewrite zmove_spec by lia. split.
  - f_equal.
    assert (take (Z.to_nat (zlen A + zlen F + zlen G - y)) M = A ++ take d (F ++ R ++ G ++ T)) as ->.
    { unfold M. rewrite take_app_ge by lia. f_equal. f_equal. lia. }
    assert (take (Z.to_nat (zlen R + y)) (drop (Z.to_nat (zlen A + zlen F - y)) M) = Y ++ R) as ->.
    { replace (Z.to_nat (zlen R + y)) with (Z.to_nat y + length R)%nat by lia.
      replace (Z.to_nat (zlen A + zlen F - y)) with (length A + length F - Z.to_nat y)%nat by lia.
      rewrite <- take_take_drop. fold Y. f_equal. rewrite drop_drop.
      replace (length A + length F - Z.to_nat y + Z.to_nat y)%nat with (length (A ++ F)) by (rewrite length_app; lia).
      unfold M. rewrite (app_assoc A), drop_app_length. by rewrite take_app_length. }
    assert (drop (Z.to_nat (zlen A + zlen F + zlen G - y + (zlen R + y))) M = T) as ->.
    { replace (Z.to_nat _) with (length (A ++ F ++ R ++ G)) by (rewrite !length_app; lia).
      replace M with ((A ++ F ++ R ++ G) ++ T) by (unfold M; by rewrite <- !app_assoc). apply drop_app_length. }
    by rewrite <- !app_assoc.
  - split; [rewrite length_app; lia|]. rewrite take_app_le by lia. by rewrite take_take, Nat.min_id.
Qed.

(** [B] moves down over [D]. *)
Lemma move_down (A D B T : list Z) : exists Y,
  zmove (zlen A) (zlen A + zlen D) (zlen B) (A ++ D ++ B ++ T) = Some (A ++ B ++ Y ++ T) /\ length Y = length D.
Proof.
  exists (drop (length B) (D ++ B)). rewrite zmove_spec by (rewrite ?length_app; lia).
  split; [|rewrite length_drop, length_app; lia]. f_equal. rewrite Nat2Z.id, take_app_length. f_equal.
  replace (Z.to_nat (zlen A + zlen D)) with (length (A ++ D)) by (rewrite length_app; lia).
  rewrite (app_assoc A), drop_app_length. rewrite Nat2Z.id, take_app_length. f_equal. rewrite <- app_assoc.
  replace (Z.to_nat (zlen A + zlen B)) with (length A + length B)%nat by lia. rewrite <- drop_drop, drop_app_length.
  rewrite (app_assoc D). rewrite drop_app_le by (rewrite length_app; lia). done.
Qed.

(** ** Chains of entries *)

(** Each entry knows the length of the one before it. *)
Fixpoint chain (prev : Z) (es : list ent) : Prop :=
  match es with
  | [] => True
  | e :: es => ent_prev e = prev /\ ent_ok e /\ chain (ent_len e) es
  end.

(** The length of the last entry. *)
Definition last_len (prev : Z) (es : list ent) : Z := match last es with Some e => ent_len e | None => prev end.

Lemma last_len_cons prev e es : last_len prev (e :: es) = last_len (ent_len e) es.
Proof. unfold last_len. rewrite last_cons. by destruct (last es). Qed.

Lemma chain_app prev es1 es2 : chain prev (es1 ++ es2) <-> chain prev es1 /\ chain (last_len prev es1) es2.
Proof.
  revert prev. induction es1 as [|e es1 IH]; intros prev; [cbn; tauto|]. rewrite last_len_cons. cbn [app chain]. rewrite IH. tauto.
Qed.

Lemma chain_ok prev es : chain prev es -> Forall ent_ok es.
Proof. revert prev. induction es as [|e es IH]; intros prev; [done|]. intros (_ & He & H). constructor; eauto. Qed.

(** The room strings take at most. *)
Definition room (strs : list (list Z)) : Z := foldr (fun s r => zlen s + 24 + r) 0 strs.

Lemma room_cons s strs : room (s :: strs) = zlen s + 24 + room strs.
Proof. done. Qed.
Lemma room_app l1 l2 : room (l1 ++ l2) = room l1 + room l2.
Proof. unfold room. induction l1 as [|s l1 IH]; [done|]. cbn [app foldr]. lia. Qed.
Lemma room_nonneg l : 0 <= room l.
Proof. induction l as [|s l IH]; [done|]. rewrite room_cons. lia. Qed.

Lemma ent_len_bound e : 2 <= ent_len e <= zlen (ent_str e) + 18.
Proof. rewrite ent_len_eq. pose proof (body_size (ent_str e)). pose proof (field_size_bound (ent_wide e)). lia. Qed.

Lemma ents_bound es : 0 <= zlen (ents es) /\ zlen (ents es) + 4 * zlen es <= room (ent_str <$> es).
Proof.
  induction es as [|e es IH]; [done|]. rewrite fmap_cons, room_cons, ents_cons, length_app. cbn [length]. pose proof (ent_len_bound e). lia.
Qed.

(** An entry seen from a block of memory. *)
Lemma entry_at M (A C : list Z) e ptr : M = A ++ ent_bytes e ++ C -> ptr = zlen A -> ent_ok e ->
  (exists b, zget ptr M = Some b /\ b <> ZIP_END) /\
  (exists entry, zipEntry ptr M = Some entry /\ decodes e entry) /\
  zipRawEntryLength ptr M = Some (ent_len e) /\ ZIP_DECODE_PREVLENSIZE ptr M = Some (field_size (ent_wide e)).
Proof.
  intros -> Hp He. split_and!; [by apply head_ent|by apply zipEntry_ent|by apply raw_length_ent|by apply prevlensize_ent].
Qed.

(** ** The cascade *)

(** What becomes of the entries after one of length [prev]: the length is
    stored, in the field as it is when it fits; a field that grows changes the
    length of its entry, and the update goes on. *)
Definition grows (prev : Z) (e : ent) : bool := negb (ent_wide e) && bool_decide (prev >= 254).
Definition updated (prev : Z) (e : ent) : ent := Ent prev (ent_wide e || grows prev e) (ent_str e).
Fixpoint cascaded (prev : Z) (es : list ent) : list ent :=
  match es with
  | [] => []
  | e :: es =>
      if decide (ent_prev e = prev) then e :: es
      else if grows prev e then updated prev e :: cascaded (ent_len (updated prev e)) es
      else updated prev e :: es
  end.

Lemma updated_len prev e : ent_len (updated prev e) = ent_len e + (if grows prev e then 4 else 0).
Proof. rewrite !ent_len_eq. unfold updated, grows. cbn. destruct (ent_wide e), (bool_decide _); cbn; lia. Qed.

Lemma updated_ok prev e : ent_ok e -> 0 <= prev < 2 ^ 32 -> ent_len e + 4 < 2 ^ 32 -> ent_ok (updated prev e).
Proof.
  intros [H1 H2 H3] Hp Hl. constructor; [|done|rewrite updated_len; destruct (grows prev e); lia].
  unfold updated, grows. cbn. destruct (ent_wide e); cbn; [lia|]. case_bool_decide; cbn; lia.
Qed.

(** The entries are chained among themselves. *)
Definition linked (es : list ent) : Prop := match es with [] => True | e :: es => ent_ok e /\ chain (ent_len e) es end.

Lemma chain_linked prev es : chain prev es -> linked es.
Proof. destruct es; [done|]. by intros (_ & ? & ?). Qed.

Lemma cascaded_str prev es : ent_str <$> cascaded prev es = ent_str <$> es.
Proof.
  revert prev. induction es as [|e es IH]; intros prev; [done|]. cbn [cascaded]. case_decide; [done|].
  destruct (grows prev e); [|done]. by rewrite !fmap_cons, IH.
Qed.

Lemma cascaded_chain es : forall prev, linked es -> 0 <= prev < 2 ^ 32 -> room (ent_str <$> es) < 2 ^ 32 - 4 ->
  chain prev (cascaded prev es).
Proof.
  induction es as [|e es IH]; intros prev Hl Hp Hroom; [done|]. rewrite fmap_cons, room_cons in Hroom.
  destruct Hl as [He Hl]. pose proof (room_nonneg (ent_str <$> es)). pose proof (ent_len_bound e). cbn [cascaded].
  case_decide as Heq; [done|]. pose proof (updated_len prev e) as Hul. pose proof (updated_ok prev e He Hp ltac:(lia)) as Hok.
  destruct (grows prev e).
  - split_and!; [done|done|]. apply IH; [by apply chain_linked in Hl|lia|lia].
  - split_and!; [done|done|]. by rewrite Hul, Z.add_0_r.
Qed.

(** The first entry is never widened. *)
Section Cascade.
Context (junk : nat -> Z) (c : Z).
Abbreviation step := (cascade_step junk).

Lemma image_cons pre e es : es <> [] -> image pre c (e :: es) = image (pre ++ ent_bytes e) c es.
Proof. intros Hne. change (e :: es) with ([e] ++ es). rewrite image_shift by done. cbn. by rewrite app_nil_r. Qed.

Lemma total_cons pre e es : total_of pre (e :: es) = total_of (pre ++ ent_bytes e) es.
Proof. unfold total_of. rewrite ents_cons, !length_app. lia. Qed.

Section Step.
Context (pre : list Z) (cur : ent) (Hcur : ent_ok cur).
Abbreviation p := (10 + zlen pre).

Lemma cascade_last : total_of pre [cur] < 2 ^ 32 ->
  step (image pre c [cur], p, total_of pre [cur]) = Break (Some (image pre c [cur])).
Proof using Hcur.
  intros Ht. set (M := image pre c [cur]). unfold cascade_step.
  assert (M = (hdr (total_of pre [cur]) (tail_of pre [cur]) c ++ pre) ++ ent_bytes cur ++ [ZIP_END]) as EM.
  { unfold M, image. rewrite ents_cons. change (ents []) with (@nil Z). by rewrite app_nil_r, <- app_assoc. }
  destruct (entry_at M _ _ cur p EM) as ((b & Hb & Hne) & (ce & Hce & [_ _ _ _ Htot _]) & _); [rewrite length_app, length_hdr; lia|done|].
  rewrite Hb. bind_simpl. rewrite bool_decide_false, Hce by done. bind_simpl. rewrite Htot.
  rewrite uwrap_small by (unfold urange; destruct Hcur; lia).
  assert (zget (p + ent_len cur) M = Some ZIP_END) as ->.
  { rewrite EM, app_assoc. apply zget_app. rewrite !length_app, length_hdr. lia. }
  bind_simpl. by rewrite bool_decide_true.
Qed.

Context (nxt : ent) (es : list ent) (Hnxt : ent_ok nxt).
Abbreviation n := (total_of pre (cur :: nxt :: es)).
Abbreviation M := (image pre c (cur :: nxt :: es)).
Context (Hsize : n + 4 < 2 ^ 32).

Lemma image_seams : M = (hdr n (tail_of pre (cur :: nxt :: es)) c ++ pre) ++ ent_bytes cur ++ ent_bytes nxt ++ ents es ++ [ZIP_END].
Proof using Type. unfold image. by rewrite !ents_cons, <- !app_assoc. Qed.

Lemma cascade_enter : exists entry, decodes nxt entry /\
  step (M, p, n) = as_step (
    if bool_decide (prevrawlen entry = ent_len cur) then Some (inr M)
    else if bool_decide (prevrawlensize entry < zlen (zipPrevEncodeLength (ent_len cur))) then
      let extra := zlen (zipPrevEncodeLength (ent_len cur)) - prevrawlensize entry in
      zl ← ziplistResize junk M (n + extra);
      let np := p + ent_len cur in
      tail ← ZIPLIST_TAIL_OFFSET zl;
      zl ← (if bool_decide (tail <> np) then add_tail_offset extra zl else Some zl);
      zl ← zmove (np + zlen (zipPrevEncodeLength (ent_len cur))) (np + prevrawlensize entry) (n - np - prevrawlensize entry - 1) zl;
      zl ← zwrite np (zipPrevEncodeLength (ent_len cur)) zl;
      Some (inl (zl, p + ent_len cur, n + extra))
    else
      zl ← (if bool_decide (prevrawlensize entry > zlen (zipPrevEncodeLength (ent_len cur)))
            then zwrite (p + ent_len cur) (zipPrevEncodeLengthForceLarge (ent_len cur)) M
            else zwrite (p + ent_len cur) (zipPrevEncodeLength (ent_len cur)) M);
      Some (inr zl)).
Proof using Hcur Hnxt.
  pose proof image_seams as EM. set (m := M) in *.
  destruct (entry_at m _ _ cur p EM) as ((b & Hb & Hne) & (ce & Hce & [_ _ _ _ Htot _]) & _); [rewrite length_app, length_hdr; lia|done|].
  rewrite app_assoc in EM.
  destruct (entry_at m _ _ nxt (p + ent_len cur) EM) as ((b' & Hb' & Hne') & (ne & Hnee & Hdec) & _);
    [rewrite !length_app, length_hdr; lia|done|].
  exists ne. split; [done|]. unfold cascade_step. rewrite Hb. bind_simpl. rewrite bool_decide_false, Hce by done. bind_simpl.
  rewrite Htot. rewrite uwrap_small by (unfold urange; destruct Hcur; lia). rewrite Hb'. bind_simpl.
  rewrite bool_decide_false, Hnee by done. done.
Qed.

Lemma cascade_same : ent_prev nxt = ent_len cur -> step (M, p, n) = Break (Some M).
Proof using Hcur Hnxt.
  intros Heq. destruct cascade_enter as (entry & [_ Hp _ _ _ _] & ->). by rewrite bool_decide_true by congruence.
Qed.

Lemma length_prev_encode len : zlen (zipPrevEncodeLength len) = field_size (bool_decide (len >= 254)).
Proof using Type. by rewrite prev_encode, length_prev_field. Qed.

Lemma tail_of_cons2 q e1 e2 l : tail_of q (e1 :: e2 :: l) =
  10 + zlen q + ent_len e1 + (if decide (l = []) then 0 else ent_len e2 + zlen (ents (removelast l))).
Proof using Type.
  unfold tail_of. change (removelast (e1 :: e2 :: l)) with (e1 :: removelast (e2 :: l)). rewrite ents_cons, length_app.
  case_decide as Hl.
  - subst l. cbn [removelast]. change (ents []) with (@nil Z). cbn [length]. lia.
  - destruct l as [|e3 l]; [done|]. change (removelast (e2 :: e3 :: l)) with (e2 :: removelast (e3 :: l)).
    rewrite ents_cons, length_app. lia.
Qed.

Lemma tail_total q l : l <> [] -> 10 + zlen q <= tail_of q l < total_of q l.
Proof using Type.
  intros Hl. unfold tail_of, total_of. destruct (exists_last Hl) as (l' & e & ->). rewrite removelast_last, ents_app, length_app. lia.
Qed.

Lemma cascade_rewrite : ent_prev nxt <> ent_len cur -> grows (ent_len cur) nxt = false ->
  step (M, p, n) = Break (Some (image pre c (cur :: updated (ent_len cur) nxt :: es))).
Proof using Hcur Hnxt.
  intros Hne Hg. destruct cascade_enter as (entry & [Hs Hp _ _ _ _] & ->). rewrite bool_decide_false by congruence.
  set (L := ent_len cur) in *. rewrite length_prev_encode, Hs. unfold grows in Hg.
  rewrite bool_decide_false by (destruct (ent_wide nxt), (bool_decide (L >= 254)); cbn in *; done || lia).
  assert (updated L nxt = Ent L (ent_wide nxt) (ent_str nxt)) as Hu.
  { unfold updated, grows. rewrite Hg. by rewrite orb_false_r. }
  set (w := ent_wide nxt) in *.
  assert (zwrite (p + L) (prev_field w L) M = Some (image pre c (cur :: updated L nxt :: es))) as Hw.
  { rewrite image_seams. rewrite Hu. unfold ent_bytes at 2. rewrite <- (app_assoc (prev_field _ _)).
    rewrite (app_assoc _ (ent_bytes cur)). fold w.
    rewrite (zwrite_app _ (prev_field w (ent_prev nxt)) (prev_field w L)).
    - f_equal. assert (ent_len (Ent L w (ent_str nxt)) = ent_len nxt) as HL by (by rewrite !ent_len_eq).
      unfold image, total_of. rewrite !tail_of_cons2, !ents_cons, !length_app, !Nat2Z.inj_add, HL.
      change (ent_bytes (Ent L w (ent_str nxt))) with (prev_field w L ++ body (ent_str nxt)). by rewrite <- !app_assoc.
    - unfold L. rewrite !length_app, length_hdr. lia.
    - apply Nat2Z.inj. by rewrite !length_prev_field. }
  rewrite prev_encode. change (zipPrevEncodeLengthForceLarge L) with (prev_field true L).
  destruct w, (bool_decide (L >= 254)); try discriminate Hg; cbn [field_size].
  - rewrite bool_decide_false, Hw by done. done.
  - rewrite bool_decide_true, Hw by done. done.
  - rewrite bool_decide_false, Hw by done. done.
Qed.

Lemma cascade_widen : ent_prev nxt <> ent_len cur -> grows (ent_len cur) nxt = true ->
  step (M, p, n) = Continue (image (pre ++ ent_bytes cur) c (updated (ent_len cur) nxt :: es), p + ent_len cur, n + 4).
Proof using All.
  intros Hne Hg. destruct cascade_enter as (entry & [Hs Hp _ _ _ _] & ->). rewrite bool_decide_false by congruence.
  set (L := ent_len cur) in *. rewrite length_prev_encode, Hs, prev_encode.
  assert (updated L nxt = Ent L true (ent_str nxt)) as Hu by (unfold updated; rewrite Hg; by rewrite orb_true_r).
  unfold grows in Hg. apply andb_prop in Hg as [Hw%negb_true_iff HL]. rewrite Hw, HL. cbn [field_size].
  rewrite bool_decide_true by done. cbv zeta. change (5 - 1) with 4.
  rewrite <- image_cons by done.
  (* the block grows *)
  set (t := tail_of pre (cur :: nxt :: es)). set (R := body (ent_str nxt) ++ ents es).
  assert (M = hdr n t c ++ (pre ++ ent_bytes cur ++ prev_field false (ent_prev nxt) ++ R) ++ [ZIP_END]) as ->.
  { unfold image. fold t. rewrite !ents_cons. unfold R. unfold ent_bytes at 2. rewrite Hw. by rewrite <- !app_assoc. }
  destruct (zl_resize_grow junk n 4 t c (pre ++ ent_bytes cur ++ prev_field false (ent_prev nxt) ++ R)) as (G & -> & HG & _); [|lia|done|].
  { unfold total_of, R. rewrite !ents_cons, !length_app. unfold ent_bytes at 2. rewrite Hw, length_app. lia. }
  bind_simpl.
  assert (urange 32 t) as Ht by (unfold urange, t; pose proof (tail_total pre (cur :: nxt :: es) ltac:(done)); lia).
  rewrite hdr_tail by done. bind_simpl.
  (* the tail offset follows *)
  set (t' := tail_of pre (cur :: updated L nxt :: es)).
  assert ((if bool_decide (t <> p + L) then add_tail_offset 4 (hdr (n + 4) t c ++ (pre ++ ent_bytes cur ++ prev_field false (ent_prev nxt) ++ R) ++ G ++ [ZIP_END])
     else Some (hdr (n + 4) t c ++ (pre ++ ent_bytes cur ++ prev_field false (ent_prev nxt) ++ R) ++ G ++ [ZIP_END])) =
     Some (hdr (n + 4) t' c ++ (pre ++ ent_bytes cur ++ prev_field false (ent_prev nxt) ++ R) ++ G ++ [ZIP_END])) as ->.
  { rewrite hdr_add_tail by done. unfold t, t'. rewrite !tail_of_cons2. fold L. pose proof (ent_len_bound nxt).
    assert (ent_len (updated L nxt) = ent_len nxt + 4) as -> by (rewrite updated_len; unfold grows; by rewrite Hw, HL).
    destruct (decide (es = [])) as [Hes|Hes]; [rewrite bool_decide_false by lia; by rewrite !Z.add_0_r|].
    rewrite bool_decide_true by lia. f_equal. f_equal. f_equal. lia. }
  bind_simpl.
  (* the entries move *)
  assert (hdr (n + 4) t' c ++ (pre ++ ent_bytes cur ++ prev_field false (ent_prev nxt) ++ R) ++ G ++ [ZIP_END] =
    (hdr (n + 4) t' c ++ pre ++ ent_bytes cur) ++ prev_field false (ent_prev nxt) ++ R ++ G ++ [ZIP_END]) as -> by (by rewrite <- !app_assoc).
  assert (zlen (hdr (n + 4) t' c ++ pre ++ ent_bytes cur) = p + L) as HA by (unfold L; rewrite !length_app, length_hdr; lia).
  assert (n = 11 + zlen pre + L + 1 + zlen R) as En.
  { unfold total_of, R. rewrite !ents_cons, !length_app. unfold ent_bytes at 2. rewrite Hw, length_app. cbn [prev_field length]. unfold L. lia. }
  destruct (move_up (hdr (n + 4) t' c ++ pre ++ ent_bytes cur) (prev_field false (ent_prev nxt)) R G [ZIP_END] 0) as (W & Hmove & HW & _); [lia|lia|].
  rewrite HA, HG in Hmove. cbn [prev_field length] in Hmove, HW. rewrite HG in HW.
  change (Z.of_nat 1) with 1 in Hmove. rewrite !Z.sub_0_r, Z.add_0_r in Hmove.
  replace (p + L + 5) with (p + L + 1 + 4) by lia. replace (n - (p + L) - 1 - 1) with (zlen R) by lia.
  cbn [prev_field]. rewrite Hmove. bind_simpl.
  (* the length is written *)
  rewrite (zwrite_app _ W (prev_field true L)) by (done || (cbn; lia)). cbn [as_step]. f_equal. f_equal. f_equal.
  unfold image. fold t'. rewrite !ents_cons, Hu. unfold R, ent_bytes at 3. cbn [ent_wide ent_prev ent_str].
  assert (total_of pre (cur :: Ent L true (ent_str nxt) :: es) = n + 4) as ->.
  { unfold total_of. rewrite !ents_cons, !length_app. unfold ent_bytes at 2 4. rewrite Hw, !length_app. cbn. lia. }
  by rewrite <- !app_assoc.
Qed.

End Step.

Lemma linked_Forall es : linked es -> Forall ent_ok es.
Proof using Type. destruct es as [|e es]; [done|]. intros [He H]. constructor; [done|]. by eapply chain_ok. Qed.

Lemma cascade_loop es : forall pre cur fuel, ent_ok cur -> linked es ->
  total_of pre (cur :: es) + 4 * zlen es < 2 ^ 32 -> (length es < fuel)%nat ->
  mjoin (loop fuel step (image pre c (cur :: es), 10 + zlen pre, total_of pre (cur :: es))) =
    Some (image pre c (cur :: cascaded (ent_len cur) es)).
Proof using Type.
  induction es as [|nxt es IH]; intros pre cur [|fuel] Hcur Hl Hsize Hfuel; try (cbn in Hfuel; lia); rewrite loop_S.
  - rewrite cascade_last by (done || cbn in Hsize |- *; lia). done.
  - destruct Hl as [Hnxt Hl]. cbn [length] in Hsize, Hfuel. cbn [cascaded].
    destruct (decide (ent_prev nxt = ent_len cur)) as [Heq|Hne]; [by rewrite cascade_same by (done || lia)|].
    destruct (grows (ent_len cur) nxt) eqn:Hg; [|by rewrite cascade_rewrite by (done || lia)].
    rewrite cascade_widen by (done || lia). set (nxt' := updated (ent_len cur) nxt).
    assert (ent_len nxt' = ent_len nxt + 4) as Hlen by (unfold nxt'; rewrite updated_len; by rewrite Hg).
    pose proof (ent_len_bound nxt). assert (ent_len cur + ent_len nxt < 2 ^ 32 - 4) as Hlt.
    { unfold total_of in Hsize. rewrite !ents_cons, !length_app in Hsize. lia. }
    assert (total_of pre (cur :: nxt :: es) + 4 = total_of (pre ++ ent_bytes cur) (nxt' :: es)) as Ht.
    { rewrite total_cons. unfold total_of. rewrite !ents_cons, (length_app (ent_bytes nxt)), (length_app (ent_bytes nxt')). lia. }
    replace (10 + zlen pre + ent_len cur) with (10 + zlen (pre ++ ent_bytes cur)) by (rewrite length_app; lia).
    rewrite Ht. rewrite IH.
    + symmetry. by rewrite image_cons.
    + apply updated_ok; [done|pose proof (ent_len_bound cur); lia|lia].
    + by apply chain_linked in Hl.
    + rewrite <- Ht. lia.
    + lia.
Qed.

Lemma length_image pre es : zlen (image pre c es) = total_of pre es.
Proof using Type. unfold image, total_of. rewrite !length_app, length_hdr. cbn [length]. lia. Qed.

Lemma ents_length es : zlen es <= zlen (ents es).
Proof using Type.
  induction es as [|e es IH]; [done|]. rewrite ents_cons, length_app. pose proof (ent_len_bound e). cbn [length]. lia.
Qed.

Lemma cascade_update pre cur es : ent_ok cur -> linked es -> total_of pre (cur :: es) + 4 * zlen es < 2 ^ 32 ->
  __ziplistCascadeUpdate junk (image pre c (cur :: es)) (10 + zlen pre) = Some (image pre c (cur :: cascaded (ent_len cur) es)).
Proof using Type.
  intros Hcur Hl Hsize. unfold __ziplistCascadeUpdate.
  assert (ZIPLIST_BYTES (image pre c (cur :: es)) = Some (total_of pre (cur :: es))) as ->.
  { apply hdr_bytes. unfold urange. unfold total_of in *. lia. }
  bind_simpl. apply cascade_loop; [done|done|done|].
  pose proof (length_image pre (cur :: es)) as Hlen. pose proof (ents_length es). unfold total_of in Hlen.
  rewrite ents_cons, length_app in Hlen. lia.
Qed.

End Cascade.
