(* ===== verification/ZiplistOps.v ===== *)
(** * Inserting into and deleting from a ziplist

    The blocks that the functions of [ziplist.c] produce are the images of
    chained entries. *)
From S2P Require Import Prelude Memory Util Ziplist ZiplistLogic.

(** ** The parts of an insertion *)

(** The entry made for [s] after an entry of length [prev]. *)
Definition new_ent (prev : Z) (s : list Z) : ent := Ent prev (bool_decide (prev >= 254)) s.

Lemma new_ent_bytes prev s : ent_bytes (new_ent prev s) = zipPrevEncodeLength prev ++ length_field s ++ payload s.
Proof. rewrite prev_encode. done. Qed.

(** The encoding and the length computed by [__ziplistInsert]. *)
Lemma encoded_length s :
  match zipTryEncoding s with
  | Some (value, encoding) => (value, encoding, zipIntSize encoding)
  | None => (123456789, 0, zlen s)
  end = (match zipTryEncoding s with Some (v, _) => v | None => 123456789 end, enc_of s, zlen (payload s)).
Proof.
  unfold enc_of, payload. destruct (zipTryEncoding s) as [[v enc]|] eqn:E; [|done].
  apply try_encoding_class in E as [_ E]. destruct (save_load_int _ _ E) as (bs & -> & Hl & _). cbn [default from_option]. unfold id. by rewrite Hl.
Qed.

Lemma save_payload s p zl :
  (if ZIP_IS_STR (enc_of s) then zwrite p s zl
   else bs ← zipSaveInteger (match zipTryEncoding s with Some (v, _) => v | None => 123456789 end) (enc_of s); zwrite p bs zl)
  = zwrite p (payload s) zl.
Proof.
  unfold enc_of, payload. destruct (zipTryEncoding s) as [[v enc]|] eqn:E; [|done].
  apply try_encoding_class in E as [_ E]. destruct (class_encoding _ _ E) as [_ ->].
  by destruct (save_load_int _ _ E) as (bs & -> & _).
Qed.

Lemma split_len {A} (l : list A) n : 0 <= n <= zlen l -> exists l1 l2, l = l1 ++ l2 /\ zlen l1 = n.
Proof. intros Hn. exists (take (Z.to_nat n) l), (drop (Z.to_nat n) l). rewrite take_drop, length_take. split; [done|lia]. Qed.

(** Writing the entry over a block of its length. *)
Lemma write_entry (A W C : list Z) prev s p : p = zlen A -> zlen W = ent_len (new_ent prev s) ->
  (zl ← zwrite p (zipPrevEncodeLength prev) (A ++ W ++ C);
   let p := p + zlen (zipPrevEncodeLength prev) in
   zl ← zwrite p (zipEncodeLength (enc_of s) (zlen s)) zl;
   let p := p + zlen (zipEncodeLength (enc_of s) (zlen s)) in
   zwrite p (payload s) zl) = Some (A ++ ent_bytes (new_ent prev s) ++ C).
Proof.
  intros -> HW. rewrite new_ent_bytes in *. rewrite !length_app in HW. fold (length_field s).
  destruct (split_len W (zlen (zipPrevEncodeLength prev))) as (W1 & W' & -> & H1); [lia|]. rewrite length_app in HW.
  destruct (split_len W' (zlen (length_field s))) as (W2 & W3 & -> & H2); [lia|]. rewrite length_app in HW.
  rewrite <- !app_assoc, (zwrite_app A W1) by (done || lia). bind_simpl. rewrite app_assoc.
  rewrite (zwrite_app _ W2 (length_field s)) by (rewrite ?length_app; lia). bind_simpl. rewrite app_assoc.
  rewrite (zwrite_app _ W3 (payload s)) by (rewrite ?length_app; lia). by rewrite <- !app_assoc.
Qed.

(** The number of entries in the header. *)
Definition counted_entries (c d : Z) : Z := if bool_decide (c < UINT16_MAX) then c + d else c.

Lemma incr_length_hdr n t c X d : urange 16 c ->
  ZIPLIST_INCR_LENGTH (hdr n t c ++ X) d = Some (hdr n t (counted_entries c d) ++ X).
Proof.
  intros Hc. unfold ZIPLIST_INCR_LENGTH, counted_entries. rewrite hdr_length by done. bind_simpl.
  case_bool_decide; [|done]. by rewrite hdr_set_length.
Qed.

Lemma tail_of_cons q e l : tail_of q (e :: l) = 10 + zlen q + (if decide (l = []) then 0 else ent_len e + zlen (ents (removelast l))).
Proof.
  unfold tail_of. destruct (decide (l = [])) as [->|Hl]; [cbn; lia|].
  destruct l as [|e' l]; [done|]. change (removelast (e :: e' :: l)) with (e :: removelast (e' :: l)). rewrite ents_cons, length_app. lia.
Qed.

(** The byte after an entry tells whether it is the last one. *)
Lemma byte_after (A : list Z) es p : p = zlen A -> Forall ent_ok es ->
  exists b, zget p (A ++ ents es ++ [ZIP_END]) = Some b /\ bool_decide (b <> ZIP_END) = negb (bool_decide (es = [])).
Proof.
  intros Hp Hok. destruct es as [|e es].
  - exists ZIP_END. split; [by apply (zget_app A)|done].
  - apply Forall_cons in Hok as [He _]. rewrite ents_cons, <- app_assoc.
    destruct (entry_at _ A (ents es ++ [ZIP_END]) e p eq_refl Hp He) as ((b & -> & Hb) & _). exists b. split; [done|].
    by rewrite !bool_decide_decide, decide_True, decide_False.
Qed.

(** Replacing the entries of [pre] by others of the same length. *)
Lemma image_same_length pre pre' c es : length pre = length pre' ->
  image pre c es = hdr (total_of pre' es) (tail_of pre' es) c ++ pre ++ ents es ++ [ZIP_END].
Proof. intros H. unfold image, total_of, tail_of. by rewrite H. Qed.

(** ** Insertion *)

Section Insert.
Context (junk : nat -> Z) (c : Z) (Hc : urange 16 c).

(** The entry after the inserted one, of length [L]. *)
Definition resized (L : Z) (nxt : ent) : ent := Ent L (bool_decide (L >= 254)) (ent_str nxt).
Definition next_diff (L : Z) (nxt : ent) : Z := field_size (bool_decide (L >= 254)) - field_size (ent_wide nxt).

(** What becomes of the entries [nxt :: r] after an entry of length [L]. *)
Definition follow (L : Z) (nxt : ent) (r : list ent) : list ent :=
  resized L nxt :: (if bool_decide (next_diff L nxt <> 0) then cascaded (ent_len (resized L nxt)) r else r).

Lemma follow_str L nxt r : ent_str <$> follow L nxt r = ent_str nxt :: (ent_str <$> r).
Proof using Type. unfold follow. rewrite fmap_cons. f_equal. case_bool_decide; [apply cascaded_str|done]. Qed.

Lemma resized_len L nxt : ent_len (resized L nxt) = ent_len nxt + next_diff L nxt.
Proof using Type. rewrite !ent_len_eq. unfold resized, next_diff. cbn [ent_wide ent_str]. lia. Qed.

Lemma resized_ok L nxt : ent_ok nxt -> 0 <= L < 2 ^ 32 -> ent_len nxt + 4 < 2 ^ 32 -> ent_ok (resized L nxt).
Proof using Type.
  intros [H1 H2 H3] HL Hl. constructor; [|done|].
  - unfold resized. cbn. case_bool_decide; lia.
  - rewrite resized_len. unfold next_diff. pose proof (field_size_bound (ent_wide nxt)). case_bool_decide; cbn; lia.
Qed.

Lemma follow_chain L nxt r : ent_ok nxt -> chain (ent_len nxt) r -> 0 <= L < 2 ^ 32 ->
  room (ent_str nxt :: (ent_str <$> r)) < 2 ^ 32 -> chain L (follow L nxt r).
Proof using Type.
  intros Hn Hr HL Hroom. rewrite room_cons in Hroom. pose proof (ent_len_bound nxt). pose proof (room_nonneg (ent_str <$> r)).
  assert (next_diff L nxt <= 4) as Hnd by (unfold next_diff; destruct (ent_wide nxt), (bool_decide _); cbn; lia).
  pose proof (resized_len L nxt) as Hrl. unfold follow. split_and!; [done|apply resized_ok; [done|lia|lia]|].
  case_bool_decide.
  - apply cascaded_chain; [by apply chain_linked in Hr|pose proof (ent_len_bound (resized L nxt)); cbn in *; lia|lia].
  - by replace (ent_len (resized L nxt)) with (ent_len nxt) by lia.
Qed.

Lemma prev_len_diff M (A C : list Z) nxt p L : M = A ++ ent_bytes nxt ++ C -> p = zlen A -> ent_ok nxt ->
  zipPrevLenByteDiff p M L = Some (next_diff L nxt).
Proof using Type.
  intros HM Hp Hn. destruct (entry_at M A C nxt p HM Hp Hn) as (_ & _ & _ & Hs). unfold zipPrevLenByteDiff. rewrite Hs.
  bind_simpl. by rewrite length_prev_encode.
Qed.

(** The entries after the insertion point move up and the first of them gets
    the length [L] of the new one. *)
Lemma open_gap P nxt r G L t :
  let nd := next_diff L nxt in
  let p := 10 + zlen P in
  let n := total_of P (nxt :: r) in
  ent_ok nxt -> linked r -> 0 <= L -> 0 <= L + nd -> zlen G = L + nd -> n + L + 4 < 2 ^ 32 -> t = tail_of P (nxt :: r) ->
  exists X, zlen X = L /\
    (zl ← zmove (p + L) (p - nd) (n - p - 1 + nd) (hdr (n + L + nd) t c ++ P ++ ents (nxt :: r) ++ G ++ [ZIP_END]);
     zl ← zwrite (p + L) (zipPrevEncodeLength L) zl;
     zl ← add_tail_offset L zl;
     tail ← zipEntry (p + L) zl;
     b ← zget (p + L + headersize tail + len tail) zl;
     if bool_decide (b <> ZIP_END) then add_tail_offset nd zl else Some zl) = Some (image (P ++ X) c (resized L nxt :: r)).
Proof using Type.
  intros nd p n Hn Hr HL HLnd HG Hsize ->. set (t := tail_of P (nxt :: r)).
  set (f := field_size (bool_decide (L >= 254))). set (F := prev_field (ent_wide nxt) (ent_prev nxt)).
  set (R := body (ent_str nxt) ++ ents r). set (A := hdr (n + L + nd) t c ++ P).
  assert (zlen F = field_size (ent_wide nxt)) as HF by apply length_prev_field.
  assert (nd = f - zlen F) as Hnd by (rewrite HF; done).
  pose proof (field_size_bound (bool_decide (L >= 254))) as Hf. fold f in Hf.
  assert (zlen A = p) as HA by (unfold A, p; rewrite length_app, length_hdr; lia).
  assert (n = 11 + zlen P + zlen F + zlen R) as En.
  { unfold n, total_of, R, F. rewrite ents_cons. unfold ent_bytes. rewrite !length_app. lia. }
  assert (urange 32 t) as Ht by (unfold urange, t; pose proof (tail_total P (nxt :: r) ltac:(done)); fold n in H; lia).
  assert (hdr (n + L + nd) t c ++ P ++ ents (nxt :: r) ++ G ++ [ZIP_END] = A ++ F ++ R ++ G ++ [ZIP_END]) as ->.
  { unfold A, R, F. rewrite ents_cons. unfold ent_bytes. by rewrite <- !app_assoc. }
  destruct (move_up A F R G [ZIP_END] f) as (W & Hmove & HW & _); [lia|lia|].
  replace (zlen A + zlen F + zlen G - f) with (p + L) in Hmove by lia.
  replace (zlen A + zlen F - f) with (p - nd) in Hmove by lia.
  replace (zlen R + f) with (n - p - 1 + nd) in Hmove by (unfold p; lia).
  rewrite Hmove. bind_simpl. destruct (split_len W L) as (X & Y & -> & HX); [lia|]. rewrite length_app in HW.
  exists X. split; [done|]. rewrite <- (app_assoc X), app_assoc.
  rewrite prev_encode. rewrite (zwrite_app (A ++ X) Y);
    [|rewrite length_app; lia|apply Nat2Z.inj; rewrite length_prev_field; fold f; lia].
  bind_simpl. set (nxt' := resized L nxt).
  assert ((A ++ X) ++ prev_field (bool_decide (L >= 254)) L ++ R ++ [ZIP_END] = (A ++ X) ++ ent_bytes nxt' ++ ents r ++ [ZIP_END]) as ->.
  { unfold R, nxt', resized. unfold ent_bytes. by rewrite <- !app_assoc. }
  unfold A. rewrite <- !app_assoc, hdr_add_tail by done. bind_simpl.
  assert (ent_ok nxt') as Hok.
  { apply resized_ok; [done|lia|]. unfold n, total_of in Hsize. rewrite ents_cons, length_app in Hsize. lia. }
  set (A' := hdr (n + L + nd) (t + L) c ++ P ++ X).
  assert (hdr (n + L + nd) (t + L) c ++ P ++ X ++ ent_bytes nxt' ++ ents r ++ [ZIP_END] = A' ++ ent_bytes nxt' ++ ents r ++ [ZIP_END]) as ->
    by (unfold A'; by rewrite <- !app_assoc).
  assert (zlen A' = p + L) as HA' by (unfold A', p; rewrite !length_app, length_hdr; lia).
  destruct (entry_at _ A' (ents r ++ [ZIP_END]) nxt' (p + L) eq_refl ltac:(done) Hok) as (_ & (te & -> & [_ _ _ _ Hdec _]) & _).
  bind_simpl. rewrite <- Z.add_assoc, Hdec. rewrite app_assoc.
  destruct (byte_after (A' ++ ent_bytes nxt') r (p + L + ent_len nxt')) as (b & Hb & Hbe); [rewrite length_app; lia|by apply linked_Forall|].
  rewrite Hb. bind_simpl. rewrite Hbe, <- app_assoc. unfold A'. rewrite <- !app_assoc.
  assert (total_of (P ++ X) (nxt' :: r) = n + L + nd) as Htot.
  { unfold n, total_of. rewrite !ents_cons, !length_app. unfold nxt'. pose proof (resized_len L nxt) as Hrl. fold nd in Hrl. lia. }
  assert (tail_of (P ++ X) (nxt' :: r) = t + L + (if bool_decide (r = []) then 0 else nd)) as Htail.
  { unfold t. rewrite !tail_of_cons, length_app. unfold nxt'. pose proof (resized_len L nxt) as Hrl. fold nd in Hrl.
    destruct (decide (r = [])); [rewrite bool_decide_true by done|rewrite bool_decide_false by done]; lia. }
  unfold image. rewrite Htot, Htail, ents_cons. rewrite <- !app_assoc.
  destruct (bool_decide_reflect (r = [])) as [->|Hne]; cbn [negb].
  - by rewrite Z.add_0_r.
  - rewrite hdr_add_tail; [done|]. unfold urange. pose proof (tail_total P (nxt :: r) ltac:(done)) as Htt. fold t n in Htt. lia.
Qed.

(** The last lines of the function. *)
Lemma finish_insert n t pre X rest prev s : length X = length (ent_bytes (new_ent prev s)) ->
  (zl ← zwrite (10 + zlen pre) (zipPrevEncodeLength prev) (hdr n t c ++ pre ++ X ++ rest);
   let p := 10 + zlen pre + zlen (zipPrevEncodeLength prev) in
   zl ← zwrite p (zipEncodeLength (enc_of s) (zlen s)) zl;
   let p := p + zlen (zipEncodeLength (enc_of s) (zlen s)) in
   zl ← (if ZIP_IS_STR (enc_of s) then zwrite p s zl
         else bs ← zipSaveInteger (match zipTryEncoding s with Some (v, _) => v | None => 123456789 end) (enc_of s); zwrite p bs zl);
   ZIPLIST_INCR_LENGTH zl 1) = Some (hdr n t (counted_entries c 1) ++ pre ++ ent_bytes (new_ent prev s) ++ rest).
Proof using Hc.
  intros HX. rewrite app_assoc. set (h := hdr n t c ++ pre).
  pose proof (write_entry h X rest prev s (10 + zlen pre)) as Hw.
  assert (10 + zlen pre = zlen h) as Hh by (unfold h; rewrite length_app, length_hdr; lia).
  specialize (Hw Hh ltac:(lia)). cbv zeta in *.
  destruct (zwrite (10 + zlen pre) _ _) as [z1|]; [|done]. cbn [mbind option_bind] in *.
  destruct (zwrite _ (zipEncodeLength (enc_of s) (zlen s)) z1) as [z2|]; [|done]. cbn [mbind option_bind] in *.
  rewrite save_payload, Hw. bind_simpl. unfold h. rewrite <- app_assoc. by apply incr_length_hdr.
Qed.

Section Position.
Context (es1 : list ent) (s : list Z) (Hs : str_ok s).
Abbreviation P := (ents es1).
Abbreviation prev := (last_len 0 es1).
Abbreviation e := (new_ent prev s).
Abbreviation L := (ent_len e).

Lemma new_ent_ok : 0 <= prev < 2 ^ 32 -> L < 2 ^ 32 -> ent_ok e.
Proof using Hs. intros Hp HL. constructor; [|done|done]. unfold new_ent. cbn. case_bool_decide; lia. Qed.

Lemma required_length : zlen (payload s) + zlen (zipPrevEncodeLength prev) + zlen (zipEncodeLength (enc_of s) (zlen s)) = L.
Proof using Type. rewrite new_ent_bytes, !length_app. unfold length_field. lia. Qed.

Lemma last_len_bound es prev0 : 0 <= prev0 -> 0 <= last_len prev0 es <= prev0 + zlen (ents es).
Proof using Type.
  revert prev0. induction es as [|x es IH]; intros q Hq; [cbn; lia|]. rewrite last_len_cons, ents_cons, length_app.
  pose proof (IH (ent_len x) ltac:(lia)). lia.
Qed.

(** At the end: the length of the last entry is found from the tail offset. *)
Lemma insert_at_end : chain 0 es1 -> 11 + room (ent_str <$> es1) + room [s] < 2 ^ 32 ->
  __ziplistInsert junk (image [] c es1) (10 + zlen P) s = Some (image [] (counted_entries c 1) (es1 ++ [e])).
Proof using All.
  intros Hch Hroom. pose proof (ents_bound es1) as [HP0 HP]. pose proof (ent_len_bound e) as HL. cbn [room foldr] in Hroom. cbn [new_ent ent_str] in HL.
  unfold __ziplistInsert. set (n := total_of [] es1). set (t := tail_of [] es1).
  assert (image [] c es1 = hdr n t c ++ P ++ [ZIP_END]) as -> by done.
  assert (n = 11 + zlen P) as En by (unfold n, total_of; cbn [length]; lia).
  assert (10 <= t <= 10 + zlen P) as Ht.
  { unfold t. destruct es1 as [|x es]; [unfold tail_of; cbn; lia|]. pose proof (tail_total [] (x :: es) ltac:(done)) as Ht. fold n in Ht. cbn [length] in Ht. lia. }
  rewrite hdr_bytes by (unfold urange; lia). bind_simpl.
  assert (zget (10 + zlen P) (hdr n t c ++ P ++ [ZIP_END]) = Some ZIP_END) as ->.
  { rewrite app_assoc. apply zget_app. rewrite length_app, length_hdr. lia. }
  bind_simpl. rewrite (bool_decide_false (ZIP_END <> ZIP_END)) by (intros H; by apply H).
  rewrite hdr_tail by (unfold urange; lia). bind_simpl.
  assert ((b ← zget t (hdr n t c ++ P ++ [ZIP_END]);
    if bool_decide (b <> ZIP_END) then zipRawEntryLength t (hdr n t c ++ P ++ [ZIP_END]) else Some 0) = Some prev) as ->.
  { destruct (decide (es1 = [])) as [Hnil|Hne].
    - unfold t. rewrite Hnil. change (tail_of [] []) with 10. change (ents []) with (@nil Z). cbn [app].
      rewrite (zget_app (hdr n 10 c)) by done. bind_simpl. rewrite (bool_decide_false (ZIP_END <> ZIP_END)) by (intros H; by apply H). done.
    - destruct (exists_last Hne) as (es' & x & Heq).
      assert (t = zlen (hdr n t c ++ ents es')) as Et.
      { rewrite length_app, length_hdr. unfold t at 1, tail_of. rewrite Heq, removelast_last. cbn [length]. lia. }
      assert (hdr n t c ++ P ++ [ZIP_END] = (hdr n t c ++ ents es') ++ ent_bytes x ++ [ZIP_END]) as EM.
      { rewrite Heq, ents_app, ents_cons. change (ents []) with (@nil Z). rewrite app_nil_r, <- !app_assoc. done. }
      assert (ent_ok x) as Hx.
      { apply chain_ok in Hch. rewrite Heq in Hch. apply Forall_app in Hch as [_ Hch]. by inversion Hch. }
      destruct (entry_at _ _ _ x t EM Et Hx) as ((b & -> & Hb) & _ & Hraw & _). bind_simpl. rewrite bool_decide_true, Hraw by done.
      unfold last_len. rewrite Heq, last_snoc. done. }
  bind_simpl. rewrite encoded_length. cbv iota zeta. rewrite required_length. bind_simpl.
  replace (n + L + 0) with (n + L) by lia.
  destruct (zl_resize_grow junk n L t c P) as (G & -> & HG & HG'); [lia|lia|lia|]. bind_simpl.
  destruct HG' as [|(G' & ->)]; [lia|].
  assert (zget (10 + zlen P) (hdr (n + L) t c ++ P ++ (ZIP_END :: G') ++ [ZIP_END]) = Some ZIP_END) as ->.
  { rewrite app_assoc. cbn [app]. apply zget_app. rewrite length_app, length_hdr. lia. }
  bind_simpl. rewrite (bool_decide_false (ZIP_END <> ZIP_END)) by (intros H; by apply H). rewrite hdr_set_tail. bind_simpl.
  rewrite (bool_decide_false (0 <> 0)) by (intros H; by apply H).
  set (G := ZIP_END :: G') in *.
  refine (eq_trans (finish_insert (n + L) (10 + zlen P) P G [ZIP_END] prev s _) _); [lia|]. f_equal.
  unfold image, total_of, tail_of. rewrite removelast_last, ents_app, ents_cons. change (ents []) with (@nil Z).
  cbn [app length]. rewrite app_nil_r, length_app, <- !app_assoc. f_equal. f_equal; lia.
Qed.

(** Before an entry: the entries move up, the new length is stored in the next
    one, and the change of its length goes on through the list. *)
Context (nxt : ent) (r : list ent).
Abbreviation followers := (follow L nxt r).

Lemma insert_before : chain 0 (es1 ++ nxt :: r) -> 11 + room (ent_str <$> es1) + room (s :: ent_str nxt :: (ent_str <$> r)) < 2 ^ 32 ->
  0 <= L + next_diff L nxt ->
  __ziplistInsert junk (image [] c (es1 ++ nxt :: r)) (10 + zlen P) s =
    Some (image [] (counted_entries c 1) (es1 ++ e :: followers)).
Proof using All.
  intros Hch Hroom HLnd. apply chain_app in Hch as [Hch1 (Hprev & Hn & Hr)]. rewrite !room_cons in Hroom.
  pose proof (ents_bound es1) as [HP0 HP]. pose proof (ents_bound r) as [Hr0 Hrb].
  pose proof (ent_len_bound e) as HL. cbn [new_ent ent_str] in HL. pose proof (ent_len_bound nxt) as Hlen.
  assert (next_diff L nxt <= 4) as Hnd4 by (unfold next_diff; destruct (ent_wide nxt), (bool_decide _); cbn; lia).
  rewrite (image_shift [] c es1 (nxt :: r)) by done. cbn [app].
  unfold __ziplistInsert, image. set (n := total_of P (nxt :: r)). set (t := tail_of P (nxt :: r)).
  assert (n = 11 + zlen P + ent_len nxt + zlen (ents r)) as En by (unfold n, total_of; rewrite ents_cons, length_app; lia).
  pose proof (tail_total P (nxt :: r) ltac:(done)) as Ht. fold n t in Ht.
  rewrite hdr_bytes by (unfold urange; lia). bind_simpl.
  assert (hdr n t c ++ P ++ ents (nxt :: r) ++ [ZIP_END] = (hdr n t c ++ P) ++ ent_bytes nxt ++ ents r ++ [ZIP_END]) as EM
    by (rewrite ents_cons, <- !app_assoc; done).
  assert (10 + zlen P = zlen (hdr n t c ++ P)) as Ep by (rewrite length_app, length_hdr; lia).
  destruct (entry_at _ _ _ nxt (10 + zlen P) EM Ep Hn) as ((b & Hb & Hbe) & (en & Hen & [_ Hep _ _ _ _]) & _).
  rewrite Hb. bind_simpl. rewrite (bool_decide_true (b <> ZIP_END)) by done. rewrite Hen. bind_simpl. rewrite Hep, Hprev.
  rewrite encoded_length. cbv iota zeta. rewrite required_length.
  rewrite (prev_len_diff _ _ _ nxt (10 + zlen P) L EM Ep Hn). bind_simpl. set (nd := next_diff L nxt) in *.
  destruct (zl_resize_grow junk n (L + nd) t c (P ++ ents (nxt :: r))) as (G & HG1 & HG & _);
    [rewrite length_app, ents_cons, length_app; lia|lia|lia|].
  rewrite Z.add_assoc, <- !(app_assoc P) in HG1. rewrite HG1. bind_simpl.
  (* the next entry is where it was *)
  assert (hdr (n + L + nd) t c ++ P ++ ents (nxt :: r) ++ G ++ [ZIP_END] =
    (hdr (n + L + nd) t c ++ P) ++ ent_bytes nxt ++ ents r ++ G ++ [ZIP_END]) as EM' by (rewrite ents_cons, <- !app_assoc; done).
  destruct (entry_at _ _ _ nxt (10 + zlen P) EM' ltac:(rewrite length_app, length_hdr; lia) Hn) as ((b' & Hb' & Hbe') & _).
  rewrite Hb'. bind_simpl. rewrite (bool_decide_true (b' <> ZIP_END)) by done.
  destruct (open_gap P nxt r G L t) as (X & HX & Hgap); [done|by apply chain_linked in Hr|lia|done|done|fold n; lia|done|].
  fold n nd in Hgap. rewrite Hgap. bind_simpl.
  assert ((if bool_decide (nd <> 0) then __ziplistCascadeUpdate junk (image (P ++ X) c (resized L nxt :: r)) (10 + zlen P + L)
     else Some (image (P ++ X) c (resized L nxt :: r))) = Some (image (P ++ X) c followers)) as ->.
  { unfold follow. fold nd. case_bool_decide; [|done].
    replace (10 + zlen P + L) with (10 + zlen (P ++ X)) by (rewrite length_app; lia).
    apply cascade_update; [apply resized_ok; [done|lia|lia]|by apply chain_linked in Hr|].
    unfold total_of. rewrite ents_cons, !length_app. pose proof (resized_len L nxt) as Hrl. fold nd in Hrl. lia. }
  bind_simpl. unfold image. rewrite <- (app_assoc P).
  refine (eq_trans (finish_insert _ _ P X _ prev s _) _); [lia|]. f_equal.
  assert (followers <> []) as Hf by done.
  assert (total_of [] (es1 ++ e :: followers) = total_of (P ++ X) followers) as ->.
  { unfold total_of. rewrite ents_app, ents_cons, !length_app. cbn [length]. lia. }
  assert (tail_of [] (es1 ++ e :: followers) = tail_of (P ++ X) followers) as ->.
  { unfold tail_of. rewrite removelast_app by done. change (removelast (e :: followers)) with (e :: removelast followers).
    rewrite ents_app, ents_cons, !length_app. cbn [length]. lia. }
  cbn [app]. rewrite ents_app, ents_cons, <- !app_assoc. done.
Qed.


Lemma insert_before_chain : chain 0 (es1 ++ nxt :: r) ->
  11 + room (ent_str <$> es1) + room (s :: ent_str nxt :: (ent_str <$> r)) < 2 ^ 32 -> chain 0 (es1 ++ e :: followers).
Proof using Hs.
  intros Hch Hroom. apply chain_app in Hch as [Hch1 (Hprev & Hn & Hr)]. rewrite !room_cons in Hroom.
  pose proof (ents_bound es1) as [HP0 HP]. pose proof (last_len_bound es1 0 ltac:(lia)) as Hp.
  pose proof (room_nonneg (ent_str <$> r)). pose proof (ent_len_bound e) as HL. cbn [new_ent ent_str] in HL.
  apply chain_app. split; [done|]. split_and!; [done|apply new_ent_ok; lia|].
  apply follow_chain; [done|done|lia|rewrite room_cons; lia].
Qed.

End Position.

Lemma insert_at_end_chain es1 s : str_ok s -> chain 0 es1 -> 11 + room (ent_str <$> es1) + room [s] < 2 ^ 32 ->
  chain 0 (es1 ++ [new_ent (last_len 0 es1) s]).
Proof using Type.
  intros Hs Hch Hroom. cbn [room foldr] in Hroom. pose proof (ents_bound es1) as [HP0 HP].
  pose proof (last_len_bound es1 0 ltac:(lia)) as Hp. pose proof (ent_len_bound (new_ent (last_len 0 es1) s)) as HL.
  cbn [new_ent ent_str] in HL. apply chain_app. split; [done|]. split_and!; [done|apply new_ent_ok; [done|lia|lia]|done].
Qed.

End Insert.

(** ** Deletion *)

Section Delete.
Context (junk : nat -> Z) (c : Z) (Hc : urange 16 c).

(** The loop over the entries [del]. *)
Lemma delete_loop del : forall (A : list Z) rest num deleted fuel,
  Forall ent_ok (del ++ rest) -> (length del < fuel)%nat -> deleted + zlen del <= num -> rest = [] \/ deleted + zlen del = num ->
  mjoin (loop fuel (delete_step (A ++ ents (del ++ rest) ++ [ZIP_END]) num) (zlen A, deleted)) =
    Some (zlen A + zlen (ents del), deleted + zlen del).
Proof using Type.
  induction del as [|x del IH]; intros A rest num deleted [|fuel] Hok Hf Hnum Hrest; try (cbn in Hf; lia); rewrite loop_S; cbn [app] in *.
  - assert (delete_step (A ++ ents rest ++ [ZIP_END]) num (zlen A, deleted) = Break (Some (zlen A, deleted))) as ->.
    { unfold delete_step. destruct (byte_after A rest (zlen A) eq_refl Hok) as (b & -> & Hb). bind_simpl. rewrite Hb.
      destruct Hrest as [->|Hd]; [done|]. cbn [length] in Hd. rewrite (bool_decide_false (deleted < num)) by lia. by rewrite andb_false_r. }
    change (ents []) with (@nil Z). cbn [length mjoin option_join]. by rewrite !Z.add_0_r.
  - apply Forall_cons in Hok as [Hx Hok]. cbn [length] in Hnum, Hf, Hrest.
    assert (delete_step (A ++ ents (x :: del ++ rest) ++ [ZIP_END]) num (zlen A, deleted) = Continue (zlen (A ++ ent_bytes x), deleted + 1)) as ->.
    { unfold delete_step.
      destruct (entry_at (A ++ ents (x :: del ++ rest) ++ [ZIP_END]) A (ents (del ++ rest) ++ [ZIP_END]) x (zlen A)) as ((b & -> & Hb) & _ & Hraw & _);
        [by rewrite ents_cons, <- app_assoc|done|done|].
      bind_simpl. rewrite (bool_decide_true (b <> ZIP_END)), (bool_decide_true (deleted < num)) by (done || lia). cbn [andb].
      rewrite Hraw. cbn [as_step mbind option_bind]. rewrite length_app. do 2 f_equal. lia. }
    rewrite ents_cons. replace (A ++ (ent_bytes x ++ ents (del ++ rest)) ++ [ZIP_END]) with ((A ++ ent_bytes x) ++ ents (del ++ rest) ++ [ZIP_END])
      by (by rewrite <- !app_assoc).
    rewrite IH by (done || lia || (destruct Hrest; [by left|right; lia])). rewrite ents_cons, !length_app. cbn [length]. f_equal. f_equal; lia.
Qed.

Section Position.
Context (es1 del : list ent).
Abbreviation P := (ents es1).
Abbreviation D := (ents del).
Abbreviation prev := (last_len 0 es1).

Lemma first_deleted n t rest : del <> [] -> chain 0 (es1 ++ del ++ rest) ->
  exists first, zipEntry (10 + zlen P) (hdr n t c ++ P ++ D ++ ents rest ++ [ZIP_END]) = Some first /\ prevrawlen first = prev.
Proof using Type.
  intros Hne Hch. destruct del as [|x del']; [done|]. apply chain_app in Hch as [_ Hch]. cbn [app] in Hch. destruct Hch as (Hp & Hx & _).
  destruct (entry_at (hdr n t c ++ P ++ ents (x :: del') ++ ents rest ++ [ZIP_END]) (hdr n t c ++ P) (ents del' ++ ents rest ++ [ZIP_END])
    x (10 + zlen P)) as (_ & (entry & He & [_ Hpe _ _ _ _]) & _);
    [by rewrite ents_cons, <- !app_assoc|rewrite length_app, length_hdr; lia|done|].
  exists entry. split; [done|congruence].
Qed.

(** Everything to the end. *)
Lemma delete_to_end num : del <> [] -> chain 0 (es1 ++ del) -> zlen del <= num -> 11 + room (ent_str <$> es1) + room (ent_str <$> del) < 2 ^ 32 ->
  __ziplistDelete junk (image [] c (es1 ++ del)) (10 + zlen P) num = Some (image [] (counted_entries c (- zlen del)) es1).
Proof using Hc.
  intros Hne Hch Hnum Hroom. pose proof (ents_bound es1) as [HP0 HP]. pose proof (ents_bound del) as [HD0 HD].
  assert (0 < zlen D) as HDpos by (pose proof (ents_length del); destruct del; [done|cbn [length] in *; lia]).
  pose proof (chain_ok _ _ Hch) as Hok. apply Forall_app in Hok as [_ Hok].
  rewrite image_shift by done. cbn [app]. unfold __ziplistDelete, image. set (n := total_of P del). set (t := tail_of P del).
  pose proof (tail_total P del Hne) as Ht. fold n t in Ht.
  assert (n = 11 + zlen P + zlen D) as En by done.
  destruct (first_deleted n t [] Hne) as (first & Hfirst & Hprev); [by rewrite app_nil_r|]. change (ents []) with (@nil Z) in Hfirst. cbn [app] in Hfirst.
  rewrite Hfirst. bind_simpl. rewrite (app_assoc (hdr n t c)).
  pose proof (delete_loop del (hdr n t c ++ P) [] num 0 (S (length ((hdr n t c ++ P) ++ D ++ [ZIP_END])))) as Hloop.
  rewrite app_nil_r in Hloop. assert (zlen (hdr n t c ++ P) = 10 + zlen P) as Eh by (rewrite length_app, length_hdr; lia).
  rewrite Eh in Hloop. rewrite Hloop; [|done| |lia|by left].
  2: { pose proof (ents_length del). rewrite !length_app. lia. }
  bind_simpl. replace (10 + zlen P + zlen D - (10 + zlen P)) with (zlen D) by lia. rewrite uwrap_small by (unfold urange; lia).
  cbv zeta. rewrite bool_decide_true by lia.
  assert (zget (10 + zlen P + zlen D) ((hdr n t c ++ P) ++ D ++ [ZIP_END]) = Some ZIP_END) as ->.
  { rewrite app_assoc. apply zget_app. rewrite length_app, Nat2Z.inj_add, Eh. lia. }
  bind_simpl. rewrite (bool_decide_false (ZIP_END <> ZIP_END)) by (intros H; by apply H). rewrite <- app_assoc, hdr_set_tail. bind_simpl.
  rewrite hdr_bytes by (unfold urange; lia). bind_simpl.
  replace (n - zlen D + 0) with (11 + zlen P) by lia. rewrite zl_resize_shrink; [|done|lia|by intros [_ ?]%app_eq_nil]. bind_simpl.
  rewrite incr_length_hdr by done. bind_simpl. rewrite (bool_decide_false (0 <> 0)) by (intros H; by apply H).
  assert (10 + zlen P - prevrawlen first = tail_of [] es1) as ->; [|done]. rewrite Hprev. unfold tail_of. cbn [length].
  destruct (decide (es1 = [])) as [->|Hne1]; [done|]. destruct (exists_last Hne1) as (es' & x & ->).
  rewrite removelast_last, ents_app, ents_cons. change (ents []) with (@nil Z). rewrite app_nil_r, length_app. unfold last_len. rewrite last_snoc. lia.
Qed.

(** The entry after the deleted ones gets the length before them; the entries
    move down. *)
Lemma close_gap nxt r t : ent_ok nxt -> linked r -> 0 <= prev < 2 ^ 32 -> next_diff prev nxt <= zlen D ->
  t = tail_of (P ++ D) (nxt :: r) -> total_of (P ++ D) (nxt :: r) < 2 ^ 32 -> ent_len nxt + 4 < 2 ^ 32 ->
  let n := total_of (P ++ D) (nxt :: r) in
  let p := 10 + zlen P + zlen D in
  let nd := next_diff prev nxt in
  (zl ← zwrite (p - nd) (zipPrevEncodeLength prev) (hdr n t c ++ P ++ D ++ ents (nxt :: r) ++ [ZIP_END]);
   zl ← add_tail_offset (- zlen D) zl;
   tail ← zipEntry (p - nd) zl;
   b ← zget (p - nd + headersize tail + len tail) zl;
   zl ← (if bool_decide (b <> ZIP_END) then add_tail_offset nd zl else Some zl);
   bytes ← ZIPLIST_BYTES zl;
   zl ← zmove (10 + zlen P) (p - nd) (bytes - (p - nd) - 1) zl;
   bytes ← ZIPLIST_BYTES zl;
   ziplistResize junk zl (bytes - zlen D + nd)) = Some (image P c (resized prev nxt :: r)).
Proof using Type.
  intros Hn Hr Hprev HndD -> Hsize Hlen n p nd. set (t := tail_of (P ++ D) (nxt :: r)).
  set (f := field_size (bool_decide (prev >= 254))). set (F := prev_field (ent_wide nxt) (ent_prev nxt)).
  set (R := body (ent_str nxt) ++ ents r). set (nxt' := resized prev nxt).
  assert (zlen F = field_size (ent_wide nxt)) as HF by apply length_prev_field.
  assert (nd = f - zlen F) as Hnd by (rewrite HF; done). fold nd in HndD.
  pose proof (field_size_bound (bool_decide (prev >= 254))) as Hf. fold f in Hf.
  pose proof (field_size_bound (ent_wide nxt)) as HfF. rewrite <- HF in HfF.
  pose proof (tail_total (P ++ D) (nxt :: r) ltac:(done)) as Ht. fold n t in Ht.
  assert (ent_ok nxt') as Hok by (apply resized_ok; [done|lia|lia]).
  assert (ent_bytes nxt' ++ ents r = prev_field (bool_decide (prev >= 254)) prev ++ R) as EB
    by (unfold nxt', resized, R, ent_bytes; by rewrite <- !app_assoc).
  assert (zlen (ent_bytes nxt' ++ ents r) = f + zlen R) as LB by (rewrite EB, length_app, Nat2Z.inj_add, length_prev_field; done).
  assert (n = 11 + zlen P + zlen D + zlen F + zlen R) as En.
  { unfold n, total_of, R, F. rewrite ents_cons. unfold ent_bytes. rewrite !length_app. lia. }
  destruct (split_len (D ++ F) (zlen D - nd)) as (D' & W & EW & HD'); [rewrite length_app; lia|].
  assert (zlen W = f) as HW by (apply (f_equal length) in EW; rewrite !length_app in EW; lia).
  assert (forall t', hdr n t' c ++ P ++ D ++ ents (nxt :: r) ++ [ZIP_END] = (hdr n t' c ++ P ++ D') ++ W ++ R ++ [ZIP_END]) as ->.
  { intros t'. rewrite <- !app_assoc. do 2 f_equal. rewrite (app_assoc D'), <- EW. unfold R, F. rewrite ents_cons. unfold ent_bytes.
    by rewrite <- !app_assoc. }
  assert (forall t', zlen (hdr n t' c ++ P ++ D') = p - nd) as HA by (intros; rewrite !length_app, length_hdr; unfold p; lia).
  rewrite prev_encode, (zwrite_app _ W); [|by rewrite HA|apply Nat2Z.inj; rewrite length_prev_field; fold f; lia].
  bind_simpl. rewrite (app_assoc (prev_field _ _)), <- EB, <- !app_assoc, hdr_add_tail by (unfold urange; lia). bind_simpl.
  rewrite (app_assoc (hdr n _ c)), (app_assoc (hdr n _ c ++ P)), <- (app_assoc (hdr n _ c) P D').
  destruct (entry_at _ _ (ents r ++ [ZIP_END]) nxt' (p - nd) eq_refl (eq_sym (HA (t + - zlen D))) Hok) as (_ & (te & -> & [_ _ _ _ Hdec _]) & _).
  bind_simpl. rewrite <- Z.add_assoc, Hdec, app_assoc.
  destruct (byte_after ((hdr n (t + - zlen D) c ++ P ++ D') ++ ent_bytes nxt') r (p - nd + ent_len nxt')) as (b & -> & Hb);
    [rewrite length_app, Nat2Z.inj_add, HA; done|by apply linked_Forall|].
  bind_simpl. rewrite Hb, <- !app_assoc. set (X := P ++ D' ++ ent_bytes nxt' ++ ents r ++ [ZIP_END]).
  assert (tail_of P (nxt' :: r) = t - zlen D + (if bool_decide (r = []) then 0 else nd)) as Htail.
  { unfold t. rewrite !tail_of_cons, length_app. unfold nxt'. pose proof (resized_len prev nxt) as Hrl. fold nd in Hrl.
    destruct (decide (r = [])); [rewrite bool_decide_true by done|rewrite bool_decide_false by done]; lia. }
  assert (total_of P (nxt' :: r) = n - zlen D + nd) as Htot by (unfold total_of; rewrite ents_cons, LB; lia).
  assert ((if negb (bool_decide (r = [])) then add_tail_offset nd (hdr n (t + - zlen D) c ++ X) else Some (hdr n (t + - zlen D) c ++ X))
    = Some (hdr n (tail_of P (nxt' :: r)) c ++ X)) as ->.
  { rewrite Htail. destruct (bool_decide (r = [])); cbn [negb]; [by rewrite Z.add_0_r|]. rewrite hdr_add_tail; [done|].
    unfold urange. unfold t in *. rewrite tail_of_cons in *. rewrite length_app in *. destruct (decide (r = [])); lia. }
  bind_simpl. set (t'' := tail_of P (nxt' :: r)). rewrite hdr_bytes by (unfold urange; lia). bind_simpl.
  unfold X. rewrite (app_assoc (hdr n t'' c)), (app_assoc (ent_bytes nxt')).
  destruct (move_down (hdr n t'' c ++ P) D' (ent_bytes nxt' ++ ents r) [ZIP_END]) as (Y & Hmove & HY).
  rewrite HD', LB, length_app, length_hdr in Hmove.
  replace (Z.of_nat (10 + length P)) with (10 + zlen P) in Hmove by lia.
  replace (10 + zlen P + (zlen D - nd)) with (p - nd) in Hmove by (unfold p; lia).
  replace (f + zlen R) with (n - (p - nd) - 1) in Hmove by (unfold p; lia).
  rewrite Hmove. bind_simpl. rewrite <- app_assoc, hdr_bytes by (unfold urange; lia). bind_simpl.
  replace (n - zlen D + nd) with (11 + zlen (P ++ ent_bytes nxt' ++ ents r)) by (rewrite length_app, Nat2Z.inj_add, LB; lia).
  rewrite (app_assoc P), zl_resize_shrink; [|done|rewrite length_app, Nat2Z.inj_add, LB; lia|by intros [_ ?]%app_eq_nil].
  unfold image. fold t''. rewrite Htot. rewrite length_app, Nat2Z.inj_add, LB, ents_cons, <- !app_assoc. do 2 f_equal. f_equal. lia.
Qed.


(** A field of one byte becomes five bytes only in the room of an entry whose
    own field had five bytes. *)
Lemma room_for_field nxt r : del <> [] -> chain 0 (es1 ++ del ++ nxt :: r) -> next_diff prev nxt <= zlen D.
Proof using Type.
  intros Hne Hch. destruct del as [|x del']; [done|]. apply chain_app in Hch as [_ Hch]. cbn [app] in Hch. destruct Hch as (Hp & [Hr _ _] & _).
  rewrite ents_cons, length_app. pose proof (ent_len_eq x) as Hx. pose proof (body_size (ent_str x)).
  unfold next_diff. rewrite <- Hp in *. pose proof (field_size_bound (ent_wide nxt)).
  destruct (ent_wide x); cbn [field_size] in Hx; [case_bool_decide; cbn [field_size]; lia|].
  rewrite bool_decide_false by lia. cbn [field_size]. lia.
Qed.

Lemma delete_before nxt r num : del <> [] -> chain 0 (es1 ++ del ++ nxt :: r) -> zlen del = num ->
  11 + room (ent_str <$> es1) + room (ent_str <$> del) + room (ent_str nxt :: (ent_str <$> r)) < 2 ^ 32 ->
  __ziplistDelete junk (image [] c (es1 ++ del ++ nxt :: r)) (10 + zlen P) num =
    Some (image [] (counted_entries c (- zlen del)) (es1 ++ follow prev nxt r)).
Proof using Hc.
  intros Hne Hch Hnum Hroom. pose proof (room_for_field nxt r Hne Hch) as HndD. pose proof (chain_ok _ _ Hch) as Hok.
  pose proof Hch as Hch'. apply chain_app in Hch' as [Hch1 Hch2]. apply chain_app in Hch2 as [_ (_ & Hn & Hr)].
  apply Forall_app in Hok as [_ Hok]. rewrite room_cons in Hroom.
  pose proof (ents_bound es1) as [HP0 HP]. pose proof (ents_bound del) as [HD0 HD]. pose proof (ents_bound r) as [Hr0 Hrb].
  pose proof (ent_len_bound nxt) as Hlen. pose proof (last_len_bound es1 0 ltac:(lia)) as Hprev.
  assert (0 < zlen D) as HDpos by (pose proof (ents_length del); destruct del; [done|cbn [length] in *; lia]).
  rewrite app_assoc, image_shift by done. cbn [app]. rewrite ents_app. unfold __ziplistDelete, image.
  set (n := total_of (P ++ D) (nxt :: r)). set (t := tail_of (P ++ D) (nxt :: r)).
  assert (n = 11 + zlen P + zlen D + ent_len nxt + zlen (ents r)) as En
    by (unfold n, total_of; rewrite ents_cons, !length_app; lia).
  rewrite <- (app_assoc P). destruct (first_deleted n t (nxt :: r) Hne Hch) as (first & -> & Hfirst). bind_simpl. rewrite Hfirst.
  assert (zlen (hdr n t c ++ P) = 10 + zlen P) as Eh by (rewrite length_app, length_hdr; lia).
  assert (hdr n t c ++ P ++ D ++ ents (nxt :: r) ++ [ZIP_END] = (hdr n t c ++ P) ++ ents (del ++ nxt :: r) ++ [ZIP_END]) as EM
    by (rewrite ents_app, <- !app_assoc; done).
  assert (mjoin (loop (S (length (hdr n t c ++ P ++ D ++ ents (nxt :: r) ++ [ZIP_END])))
    (delete_step (hdr n t c ++ P ++ D ++ ents (nxt :: r) ++ [ZIP_END]) num) (10 + zlen P, 0)) = Some (10 + zlen P + zlen D, zlen del)) as ->.
  { rewrite EM, <- Eh. rewrite delete_loop; [done|done| |lia|right; lia].
    rewrite ents_app, !length_app. pose proof (ents_length del). lia. }
  bind_simpl. replace (10 + zlen P + zlen D - (10 + zlen P)) with (zlen D) by lia. rewrite uwrap_small by (unfold urange; lia).
  cbv zeta. rewrite (bool_decide_true (zlen D > 0)) by lia.
  assert (hdr n t c ++ P ++ D ++ ents (nxt :: r) ++ [ZIP_END] = (hdr n t c ++ P ++ D) ++ ent_bytes nxt ++ ents r ++ [ZIP_END]) as EM'
    by (rewrite ents_cons, <- !app_assoc; done).
  assert (10 + zlen P + zlen D = zlen (hdr n t c ++ P ++ D)) as Ep by (rewrite !length_app, length_hdr; lia).
  destruct (entry_at _ _ _ nxt _ EM' Ep Hn) as ((b & -> & Hb) & _). bind_simpl. rewrite (bool_decide_true (b <> ZIP_END)) by done.
  rewrite (prev_len_diff _ _ _ nxt _ prev EM' Ep Hn). bind_simpl. set (nd := next_diff prev nxt) in *.
  pose proof (close_gap nxt r t Hn (chain_linked _ _ Hr) ltac:(lia) HndD eq_refl ltac:(fold n; lia) ltac:(lia)) as Hgap.
  cbv zeta in Hgap. fold n nd in Hgap. clear EM EM' Ep.
  repeat match type of Hgap with
  | mbind _ ?x = _ => destruct x; [cbn [mbind option_bind] in Hgap |- *|discriminate Hgap]
  end.
  rewrite Hgap. bind_simpl. unfold image at 1. rewrite incr_length_hdr by done. bind_simpl.
  fold (image P (counted_entries c (- zlen del)) (resized prev nxt :: r)).
  fold (image [] (counted_entries c (- zlen del)) (es1 ++ follow prev nxt r)).
  rewrite image_shift by done. cbn [app]. unfold follow. fold nd. case_bool_decide; [|done].
  apply cascade_update; [apply resized_ok; [done|lia|lia]|by apply chain_linked in Hr|].
  unfold total_of. rewrite ents_cons, !length_app. pose proof (resized_len prev nxt) as Hrl. fold nd in Hrl.
  unfold nd, next_diff in *. pose proof (field_size_bound (ent_wide nxt)). case_bool_decide; cbn [field_size] in *; lia.
Qed.

End Position.
End Delete.
