(* ===== verification/ZiplistSpecs.v ===== *)
(** * Ziplists as lists of strings

    [zl_repr] relates a block to the strings it holds.  Sequences of operations
    refine the operations on lists; the functions that read agree with the
    list. *)
From S2P Require Import Prelude Memory Util Ziplist ZiplistLogic ZiplistOps.

(** ** Representation *)

Record repr (zl : list Z) (cnt : Z) (es : list ent) : Prop := {
  repr_image : zl = image [] cnt es;
  repr_chain : chain 0 es;
  repr_first : forall e, head es = Some e -> ent_wide e = false;
  repr_count : cnt = zlen es /\ zlen es < UINT16_MAX \/ cnt = UINT16_MAX;
}.

Definition zl_repr (zl : list Z) (strs : list (list Z)) : Prop := exists cnt es, repr zl cnt es /\ strs = ent_str <$> es.

(** A block fits its 32-bit size. *)
Definition fits (strs : list (list Z)) : Prop := 11 + room strs < 2 ^ 32.

Lemma repr_cnt zl cnt es : repr zl cnt es -> urange 16 cnt.
Proof. intros [_ _ _ [[-> ?]| ->]]; unfold urange, UINT16_MAX in *; change (2 ^ 16) with 65536; lia. Qed.

(** Where the entry [k] starts. *)
Definition offset (es : list ent) (k : nat) : Z := 10 + zlen (ents (take k es)).

Lemma offset_S es k e : es !! k = Some e -> offset es (S k) = offset es k + ent_len e.
Proof.
  intros Hk. unfold offset. rewrite (take_S_r _ _ _ Hk), ents_app, ents_cons. change (ents []) with (@nil Z).
  rewrite app_nil_r, length_app. lia.
Qed.

Lemma offset_end es k : (length es <= k)%nat -> offset es k = 10 + zlen (ents es).
Proof. intros Hk. unfold offset. by rewrite take_ge. Qed.

Lemma tail_offset es : tail_of [] es = offset es (length es - 1).
Proof.
  unfold tail_of, offset. cbn [length]. destruct (decide (es = [])) as [->|Hne]; [done|].
  destruct (exists_last Hne) as (l & e & ->). rewrite removelast_last, length_app. cbn [length].
  rewrite Nat.add_sub, take_app_length. lia.
Qed.

Lemma chain_lookup es k e : chain 0 es -> es !! k = Some e -> ent_ok e /\ ent_prev e = last_len 0 (take k es).
Proof.
  intros Hch Hk. rewrite <- (take_drop_middle _ _ _ Hk) in Hch. apply chain_app in Hch as [_ (Hp & He & _)]. done.
Qed.

Lemma last_len_take es k e : es !! k = Some e -> last_len 0 (take (S k) es) = ent_len e.
Proof. intros Hk. rewrite (take_S_r _ _ _ Hk). unfold last_len. by rewrite last_snoc. Qed.

(** ** Seeing the entries in the block *)

Section Reading.
Context (zl : list Z) (cnt : Z) (es : list ent) (Hrepr : repr zl cnt es) (Hfits : fits (ent_str <$> es)).

Lemma repr_seam k e : es !! k = Some e -> exists A C, zl = A ++ ent_bytes e ++ C /\ offset es k = zlen A /\
  C = ents (drop (S k) es) ++ [ZIP_END].
Proof using Hrepr.
  intros Hk. destruct Hrepr as [-> _ _ _]. unfold image. set (h := hdr _ _ cnt).
  exists (h ++ ents (take k es)), (ents (drop (S k) es) ++ [ZIP_END]). split_and!; [|unfold offset, h; rewrite length_app, length_hdr; lia|done].
  rewrite <- (take_drop_middle _ _ _ Hk) at 1. rewrite ents_app, ents_cons. cbn [app]. by rewrite <- !app_assoc.
Qed.

Lemma entry_lookup k e : es !! k = Some e ->
  (exists b, zget (offset es k) zl = Some b /\ b <> ZIP_END) /\
  (exists entry, zipEntry (offset es k) zl = Some entry /\ decodes e entry) /\
  zipRawEntryLength (offset es k) zl = Some (ent_len e).
Proof using Hrepr.
  intros Hk. destruct (repr_seam k e Hk) as (A & C & HM & Ho & _). destruct (chain_lookup es k e (repr_chain _ _ _ Hrepr) Hk) as [He _].
  destruct (entry_at zl A C e (offset es k) HM Ho He) as (H1 & H2 & H3 & _). done.
Qed.

Lemma end_byte k : (length es <= k)%nat -> zget (offset es k) zl = Some ZIP_END.
Proof using Hrepr.
  intros Hk. rewrite offset_end by done. destruct Hrepr as [-> _ _ _]. unfold image. cbn [app]. rewrite app_assoc. apply zget_app.
  rewrite length_app, length_hdr. lia.
Qed.

(** The byte at the offset [k]: an entry or the end. *)
Lemma byte_lookup k : (k <= length es)%nat -> exists b, zget (offset es k) zl = Some b /\
  bool_decide (b = ZIP_END) = bool_decide (k = length es) /\ bool_decide (b <> ZIP_END) = bool_decide (k < length es)%nat.
Proof using Hrepr.
  intros Hk. destruct (decide (k = length es)) as [->|Hne].
  - exists ZIP_END. rewrite end_byte by done. rewrite !(bool_decide_true (_ = _)) by done. rewrite !bool_decide_false; [done|lia|by intros H; apply H].
  - destruct (lookup_lt_is_Some_2 es k) as [e He]; [lia|]. destruct (entry_lookup k e He) as ((b & Hb & Hbe) & _). exists b.
    rewrite (bool_decide_false (b = _)), (bool_decide_true (b <> _)), (bool_decide_false (k = _)), bool_decide_true by (done || lia). done.
Qed.

Lemma header_values : ZIPLIST_BYTES zl = Some (total_of [] es) /\ ZIPLIST_TAIL_OFFSET zl = Some (tail_of [] es) /\ ZIPLIST_LENGTH zl = Some cnt.
Proof using All.
  pose proof (repr_cnt _ _ _ Hrepr) as Hc. destruct Hrepr as [-> _ _ _]. unfold fits in Hfits. pose proof (ents_bound es) as [H0 H1].
  assert (urange 32 (total_of [] es)) as Ht by (unfold urange, total_of; cbn [length]; lia).
  assert (urange 32 (tail_of [] es)) as Htl.
  { unfold urange in *. destruct es as [|e l]; [done|]. pose proof (tail_total [] (e :: l) ltac:(done)). cbn [length] in *. lia. }
  unfold image. split_and!; [by apply hdr_bytes|by apply hdr_tail|by apply hdr_length].
Qed.

Lemma block_length : zlen zl = total_of [] es.
Proof using Hrepr. destruct Hrepr as [-> _ _ _]. apply length_image. Qed.

Lemma enough_fuel : (length es < S (length zl))%nat.
Proof using Hrepr. pose proof block_length as Hl. unfold total_of in Hl. pose proof (ents_length es). cbn [length] in *. lia. Qed.

(** *** [ziplistIndex] *)

Definition position (n i : Z) : option nat :=
  let k := if bool_decide (i < 0) then n + i else i in
  if bool_decide (0 <= k < n) then Some (Z.to_nat k) else None.

Lemma index_forth_spec : forall fuel k index, (k <= length es)%nat -> 0 <= index -> (length es - k < fuel)%nat ->
  exists index', mjoin (loop fuel (index_forth zl) (offset es k, index)) = Some (offset es (Nat.min (length es) (k + Z.to_nat index)), index') /\
    (Z.of_nat k + index < zlen es -> index' <= 0).
Proof using Hrepr.
  induction fuel as [|fuel IH]; intros k index Hk Hi Hf; [lia|]. rewrite loop_S. unfold index_forth at 1.
  destruct (byte_lookup k Hk) as (b & -> & _ & Hb). bind_simpl. rewrite Hb.
  destruct (bool_decide_reflect (k < length es)%nat) as [Hlt|Hge].
  - destruct (bool_decide_reflect (index <> 0)) as [Hne|Heq].
    + destruct (lookup_lt_is_Some_2 es k Hlt) as [e He]. destruct (entry_lookup k e He) as (_ & _ & ->). cbn [as_step mbind option_bind].
      rewrite <- (offset_S es k e He). destruct (IH (S k) (index - 1)) as (i' & -> & Hi'); [lia|lia|lia|]. exists i'.
      split; [do 3 f_equal; lia|]. intros. apply Hi'. lia.
    + exists (index - 1). assert (index = 0) as -> by lia. cbn [as_step mjoin option_join]. split; [do 3 f_equal; lia|lia].
  - exists index. cbn [as_step mjoin option_join]. split; [do 3 f_equal; lia|lia].
Qed.

Lemma index_back_spec : forall k fuel index, (k < length es)%nat -> 0 <= index -> (k < fuel)%nat ->
  exists index', mjoin (loop fuel (index_back zl) (offset es k, index)) = Some (offset es (k - Z.to_nat index), index') /\
    (index' <= 0 <-> index <= Z.of_nat k).
Proof using Hrepr.
  induction k as [|k IH]; intros [|fuel] index Hk Hi Hf; try lia; rewrite loop_S; unfold index_back at 1;
    destruct (lookup_lt_is_Some_2 es _ Hk) as [e He]; destruct (entry_lookup _ e He) as (_ & (entry & -> & [_ Hp _ _ _ _]) & _);
    bind_simpl; rewrite Hp; destruct (chain_lookup _ _ _ (repr_chain _ _ _ Hrepr) He) as [_ ->].
  - change (last_len 0 (take 0 es)) with 0. rewrite bool_decide_false by lia. exists index. cbn [as_step mjoin option_join Nat.sub]. split; [done|lia].
  - destruct (lookup_lt_is_Some_2 es k) as [e' He']; [lia|]. rewrite (last_len_take _ _ _ He').
    pose proof (ent_len_bound e'). rewrite bool_decide_true by lia.
    destruct (bool_decide_reflect (index <> 0)) as [Hne|Heq]; cbn [as_step].
    + rewrite (offset_S es k e' He'). replace (offset es k + ent_len e' - ent_len e') with (offset es k) by lia.
      destruct (IH fuel (index - 1)) as (i' & -> & Hi'); [lia..|]. exists i'. split; [do 3 f_equal; lia|lia].
    + assert (index = 0) as -> by lia. exists (-1). split; [done|lia].
Qed.

Lemma index_spec i : - 2 ^ 31 < i < 2 ^ 31 -> ziplistIndex zl i = Some (offset es <$> position (zlen es) i).
Proof using All.
  intros Hi. pose proof enough_fuel as Hfuel. unfold ziplistIndex, position. case_bool_decide as Hneg.
  - rewrite swrap_small by (done || (unfold srange; change (32 - 1) with 31; lia)). destruct header_values as (_ & -> & _). bind_simpl.
    rewrite tail_offset. destruct (byte_lookup (length es - 1)) as (b & -> & Hb & Hb'); [lia|]. bind_simpl. rewrite Hb'.
    destruct (bool_decide_reflect (length es - 1 < length es)%nat) as [Hlt|Hge].
    + destruct (index_back_spec (length es - 1) (S (length zl)) (- i - 1)) as (i' & -> & Hi'); [lia..|]. bind_simpl.
      destruct (byte_lookup (length es - 1 - Z.to_nat (- i - 1))) as (b' & -> & Hb'' & _); [lia|]. bind_simpl. rewrite Hb''.
      rewrite (bool_decide_false (_ = length es)) by lia. cbn [orb].
      destruct (bool_decide_reflect (i' > 0)); [rewrite bool_decide_false by lia; done|rewrite bool_decide_true by lia].
      cbn. do 2 f_equal. f_equal. lia.
    + bind_simpl. rewrite end_byte by lia. bind_simpl. rewrite (bool_decide_true (ZIP_END = ZIP_END)) by done. cbn [orb].
      rewrite (bool_decide_false (0 <= _ < _)) by lia. done.
  - change ZIPLIST_HEADER_SIZE with (offset es 0).
    destruct (index_forth_spec (S (length zl)) 0 i) as (i' & -> & Hi'); [lia..|]. bind_simpl. cbn [Nat.add].
    destruct (byte_lookup (Nat.min (length es) (Z.to_nat i))) as (b & -> & Hb & _); [lia|]. bind_simpl. rewrite Hb.
    destruct (decide (i < zlen es)) as [Hlt|Hge].
    + rewrite bool_decide_false by lia. rewrite bool_decide_false by (specialize (Hi' ltac:(lia)); lia). rewrite bool_decide_true by lia.
      cbn. do 2 f_equal. f_equal. lia.
    + rewrite bool_decide_true by lia. rewrite (bool_decide_false (0 <= _ < _)) by lia. done.
Qed.

(** *** Moving and reading *)

Lemma next_spec k : (k <= length es)%nat ->
  ziplistNext zl (offset es k) = Some (if bool_decide (S k < length es)%nat then Some (offset es (S k)) else None).
Proof using Hrepr.
  intros Hk. unfold ziplistNext. destruct (byte_lookup k Hk) as (b & -> & Hb & _). bind_simpl. rewrite Hb.
  destruct (bool_decide_reflect (k = length es)) as [->|Hne]; [rewrite bool_decide_false by lia; done|].
  destruct (lookup_lt_is_Some_2 es k) as [e He]; [lia|]. destruct (entry_lookup k e He) as (_ & _ & ->). bind_simpl.
  rewrite <- (offset_S es k e He). destruct (byte_lookup (S k)) as (b' & -> & Hb' & _); [lia|]. bind_simpl. rewrite Hb'.
  destruct (decide (S k = length es)); [rewrite bool_decide_true, bool_decide_false by lia|rewrite bool_decide_false, bool_decide_true by lia]; done.
Qed.

Lemma offset_inj_0 k : (0 < k <= length es)%nat -> offset es k <> ZIPLIST_HEADER_SIZE.
Proof using Type.
  clear Hrepr Hfits. intros Hk. unfold offset, ZIPLIST_HEADER_SIZE. destruct es as [|e l]; [cbn in Hk; lia|]. destruct k as [|k]; [lia|].
  cbn [take]. rewrite ents_cons, length_app. pose proof (ent_len_bound e). lia.
Qed.

Lemma prev_spec k : (k <= length es)%nat ->
  ziplistPrev zl (offset es k) = Some (if bool_decide (0 < k)%nat then Some (offset es (k - 1)) else None).
Proof using All.
  intros Hk. unfold ziplistPrev. destruct (byte_lookup k Hk) as (b & -> & Hb & _). bind_simpl. rewrite Hb.
  destruct (bool_decide_reflect (k = length es)) as [->|Hne].
  - destruct header_values as (_ & -> & _). bind_simpl. rewrite tail_offset.
    destruct (byte_lookup (length es - 1)) as (b' & -> & Hb' & _); [lia|]. bind_simpl. rewrite Hb'.
    destruct (decide (0 < length es)%nat); [rewrite bool_decide_false, bool_decide_true by lia|rewrite bool_decide_true, bool_decide_false by lia]; done.
  - destruct k as [|k]; [done|]. rewrite bool_decide_false by (apply offset_inj_0; lia). rewrite (bool_decide_true (0 < S k)%nat) by lia.
    destruct (lookup_lt_is_Some_2 es (S k)) as [e He]; [lia|]. destruct (lookup_lt_is_Some_2 es k) as [e' He']; [lia|].
    destruct (entry_lookup _ e He) as (_ & (entry & -> & [_ Hp _ _ _ _]) & _). bind_simpl. rewrite Hp.
    destruct (chain_lookup _ _ _ (repr_chain _ _ _ Hrepr) He) as [_ ->]. rewrite (last_len_take _ _ _ He'). pose proof (ent_len_bound e').
    rewrite bool_decide_true by lia. rewrite (offset_S es k e' He'). do 2 f_equal. replace (S k - 1)%nat with k by lia. lia.
Qed.

Lemma get_entry k e entry : es !! k = Some e -> zipEntry (offset es k) zl = Some entry -> decodes e entry ->
  match zipTryEncoding (ent_str e) with
  | None => ZIP_IS_STR (encoding entry) = true /\ zread (offset es k + headersize entry) (zlen (ent_str e)) zl = Some (ent_str e) /\
            len entry = zlen (ent_str e)
  | Some (v, enc) => encoding entry = enc /\ ZIP_IS_STR enc = false /\ zipLoadInteger (offset es k + headersize entry) enc zl = Some v
  end.
Proof using Hrepr.
  intros He Hentry [_ _ Hh Hl _ Henc]. destruct (repr_seam k e He) as (A & C & HM & Ho & _).
  pose proof (get_payload A C e (offset es k) Ho) as Hget. rewrite <- HM, <- Z.add_assoc, <- Hh in Hget.
  unfold enc_matches in Henc. unfold payload in Hl. destruct (zipTryEncoding (ent_str e)) as [[v enc]|] eqn:E; [|done].
  apply try_encoding_class in E as [_ E]. destruct (class_encoding _ _ E) as [_ Hns]. done.
Qed.

Lemma get_spec k : (k <= length es)%nat ->
  ziplistGet (Some (offset es k)) zl = Some (zvalue <$> (ent_str <$> es) !! k).
Proof using Hrepr.
  intros Hk. unfold ziplistGet. destruct (byte_lookup k Hk) as (b & -> & Hb & _). bind_simpl. rewrite Hb, list_lookup_fmap.
  destruct (bool_decide_reflect (k = length es)) as [->|Hne]; [by rewrite lookup_ge_None_2|].
  destruct (lookup_lt_is_Some_2 es k) as [e He]; [lia|]. rewrite He. destruct (entry_lookup k e He) as (_ & (entry & Hentry & Hdec) & _).
  rewrite Hentry. bind_simpl. pose proof (get_entry k e entry He Hentry Hdec) as Hg. cbn [fmap option_fmap option_map]. unfold zvalue.
  destruct (zipTryEncoding (ent_str e)) as [[v enc]|].
  - destruct Hg as (-> & -> & ->). done.
  - destruct Hg as (-> & Hr & ->). rewrite Hr. done.
Qed.

End Reading.

(** The integer of a string determines it. *)
Lemma try_encoding_inj s s' v enc enc' : zipTryEncoding s = Some (v, enc) -> zipTryEncoding s' = Some (v, enc') -> s = s'.
Proof.
  intros [H _]%try_encoding_class [H' _]%try_encoding_class. apply string2ll_decimal in H as [Hr H], H' as [_ H'].
  apply (ll2string_decimal 32) in H, H'; try done. congruence.
Qed.

(** The text a caller makes of a value. *)
Definition value_text (v : list Z + Z) : option (list Z) := match v with inl s => Some s | inr n => ll2string 32 n end.

Lemma zvalue_text s : value_text (zvalue s) = Some s.
Proof.
  unfold value_text, zvalue. destruct (zipTryEncoding s) as [[v enc]|] eqn:E; [|done].
  apply try_encoding_class in E as [H _]. apply string2ll_decimal in H as [Hr H]. by apply ll2string_decimal.
Qed.

Section Comparing.
Context (zl : list Z) (cnt : Z) (es : list ent) (Hrepr : repr zl cnt es).

Lemma compare_spec k s : (k <= length es)%nat ->
  ziplistCompare (offset es k) s zl = Some (bool_decide ((ent_str <$> es) !! k = Some s)).
Proof using Hrepr.
  intros Hk. unfold ziplistCompare. destruct (byte_lookup _ _ _ Hrepr k Hk) as (b & -> & Hb & _). bind_simpl. rewrite Hb, list_lookup_fmap.
  destruct (bool_decide_reflect (k = length es)) as [->|Hne]; [by rewrite lookup_ge_None_2|].
  destruct (lookup_lt_is_Some_2 es k) as [e He]; [lia|]. rewrite He. destruct (entry_lookup _ _ _ Hrepr k e He) as (_ & (entry & Hentry & Hdec) & _).
  rewrite Hentry. bind_simpl. pose proof (get_entry _ _ _ Hrepr k e entry He Hentry Hdec) as Hg. cbn [fmap option_fmap option_map].
  destruct (zipTryEncoding (ent_str e)) as [[v enc]|] eqn:E.
  - destruct Hg as (-> & -> & Hload). destruct (zipTryEncoding s) as [[v' enc']|] eqn:E'.
    + rewrite Hload. bind_simpl. f_equal. apply bool_decide_ext. split.
      * intros <-. f_equal. by apply (try_encoding_inj _ _ v enc enc').
      * intros Heq. congruence.
    + rewrite bool_decide_false; [done|]. intros Heq. congruence.
  - destruct Hg as (-> & Hr & ->). destruct (bool_decide_reflect (zlen (ent_str e) = zlen s)) as [Hl|Hl].
    + rewrite <- Hl, Hr. bind_simpl. f_equal. apply bool_decide_ext. split; [by intros ->|intros Heq; congruence].
    + rewrite bool_decide_false; [done|]. intros Heq. congruence.
Qed.

(** *** [ziplistLen] *)

Lemma len_loop : forall fuel k n, (k <= length es)%nat -> n = Z.of_nat k -> (length es - k < fuel)%nat ->
  mjoin (loop fuel (len_step zl) (offset es k, n)) = Some (zlen es).
Proof using Hrepr.
  induction fuel as [|fuel IH]; intros k n Hk -> Hf; [lia|]. rewrite loop_S. unfold len_step at 1.
  destruct (byte_lookup _ _ _ Hrepr k Hk) as (b & -> & _ & Hb). bind_simpl. rewrite Hb. clear Hb. case_bool_decide as Hlt.
  - destruct (lookup_lt_is_Some_2 es k Hlt) as [e He]. destruct (entry_lookup _ _ _ Hrepr k e He) as (_ & _ & ->). cbn [as_step mbind option_bind].
    rewrite <- (offset_S es k e He). apply IH; lia.
  - cbn. f_equal. lia.
Qed.

Lemma len_spec : fits (ent_str <$> es) -> exists zl' cnt', ziplistLen zl = Some (zlen es, zl') /\ repr zl' cnt' es.
Proof using Hrepr.
  intros Hfits. unfold ziplistLen. destruct (header_values _ _ _ Hrepr Hfits) as (_ & _ & ->). bind_simpl.
  destruct (repr_count _ _ _ Hrepr) as [[Hcnt Hlt]|Hcnt].
  - rewrite bool_decide_true, Hcnt by lia. eauto.
  - rewrite bool_decide_false by lia. change ZIPLIST_HEADER_SIZE with (offset es 0).
    rewrite len_loop by (try done; try lia; pose proof (enough_fuel _ _ _ Hrepr); lia). bind_simpl.
    case_bool_decide as Hlt; [|by eauto]. destruct Hrepr as [-> Hch Hf _]. unfold image. rewrite hdr_set_length.
    exists (image [] (zlen es) es), (zlen es). split; [done|]. constructor; [done|done|done|by left].
Qed.

End Comparing.

(** *** [ziplistFind] *)

(** The first of the strings equal to [vstr], looked at after [skipcnt] and
    then every [skip] others. *)
Fixpoint find_from (vstr : list Z) (skip skipcnt : nat) (strs : list (list Z)) : option nat :=
  match strs with
  | [] => None
  | s :: strs =>
      match skipcnt with
      | O => if decide (s = vstr) then Some O else S <$> find_from vstr skip skip strs
      | S n => S <$> find_from vstr skip n strs
      end
  end.

(** The encoding of the string looked for, computed at most once. *)
Definition vencoded (vstr : list Z) (venc vll : Z) : Prop :=
  venc = 0 \/ match zipTryEncoding vstr with Some (v, enc) => venc = enc /\ vll = v | None => venc = 255 end.

Section Find.
Context (zl : list Z) (cnt : Z) (es : list ent) (Hrepr : repr zl cnt es) (vstr : list Z) (skip : nat).

Lemma decode_lookup k e : es !! k = Some e -> exists enc,
  ZIP_DECODE_PREVLENSIZE (offset es k) zl = Some (field_size (ent_wide e)) /\
  ZIP_DECODE_LENGTH (offset es k + field_size (ent_wide e)) zl = Some (enc, zlen (length_field (ent_str e)), zlen (payload (ent_str e))) /\
  enc_matches (ent_str e) enc.
Proof using Hrepr.
  intros Hk. destruct (repr_seam _ _ _ Hrepr k e Hk) as (A & C & HM & Ho & _).
  destruct (chain_lookup es k e (repr_chain _ _ _ Hrepr) Hk) as [[Hp Hs _] _]. rewrite HM. unfold ent_bytes. rewrite <- app_assoc.
  destruct (decode_prev A (body (ent_str e) ++ C) (ent_wide e) (ent_prev e) (offset es k) Ho Hp) as [-> _].
  rewrite app_assoc. destruct (decode_body (A ++ prev_field (ent_wide e) (ent_prev e)) C (ent_str e) (offset es k + field_size (ent_wide e)))
    as (enc & -> & Henc); [rewrite length_app, Nat2Z.inj_add, length_prev_field; lia|done|by exists enc].
Qed.

Lemma payload_lookup k e : es !! k = Some e -> 
  let q := offset es k + field_size (ent_wide e) + zlen (length_field (ent_str e)) in
  q + zlen (payload (ent_str e)) = offset es (S k) /\
  match zipTryEncoding (ent_str e) with
  | None => zread q (zlen (ent_str e)) zl = Some (ent_str e)
  | Some (v, enc) => zipLoadInteger q enc zl = Some v
  end.
Proof using Hrepr.
  intros Hk q. destruct (repr_seam _ _ _ Hrepr k e Hk) as (A & C & HM & Ho & _). split.
  - rewrite (offset_S es k e Hk), ent_len_eq. unfold q, body. rewrite length_app. lia.
  - rewrite HM. by apply get_payload.
Qed.

(** One comparison: the verdict is equality, and the encoding stays right. *)
Lemma find_compare k e enc venc vll : es !! k = Some e -> enc_matches (ent_str e) enc -> vencoded vstr venc vll ->
  let q := offset es k + field_size (ent_wide e) + zlen (length_field (ent_str e)) in
  exists venc' vll', vencoded vstr venc' vll' /\
    (if ZIP_IS_STR enc then
       if bool_decide (zlen (payload (ent_str e)) = zlen vstr) then
         s ← zread q (zlen vstr) zl; Some (bool_decide (s = vstr), venc, vll)
       else Some (false, venc, vll)
     else
       let '(venc, vll) :=
         if bool_decide (venc = 0) then
           match zipTryEncoding vstr with
           | Some (vll, venc) => (venc, vll)
           | None => (255, vll)
           end
         else (venc, vll) in
       if bool_decide (venc <> 255) then
         ll ← zipLoadInteger q enc zl; Some (bool_decide (ll = vll), venc, vll)
       else Some (false, venc, vll)) = Some (bool_decide (ent_str e = vstr), venc', vll').
Proof using Hrepr.
  intros He Henc Hv q. destruct (payload_lookup k e He) as [_ Hpay]. fold q in Hpay. unfold enc_matches in Henc. unfold payload.
  destruct (zipTryEncoding (ent_str e)) as [[v enc']|] eqn:E.
  - subst enc'. pose proof E as E'. apply try_encoding_class in E' as [_ E']. destruct (class_encoding _ _ E') as [_ ->].
    set (pr := if bool_decide (venc = 0) then _ else _).
    assert (pr = match zipTryEncoding vstr with Some (vl, ve) => (ve, vl) | None => (255, pr.2) end) as ->.
    { unfold pr. destruct (bool_decide_reflect (venc = 0)) as [->|Hne]; [by destruct (zipTryEncoding vstr) as [[? ?]|]|].
      destruct Hv as [|Hv]; [done|]. destruct (zipTryEncoding vstr) as [[? ?]|]; [by destruct Hv as [-> ->]|by rewrite Hv]. }
    destruct (zipTryEncoding vstr) as [[vl ve]|] eqn:Ev.
    + pose proof Ev as Ev'. apply try_encoding_class in Ev' as [_ Ev']. destruct (class_encoding _ _ Ev') as [Hve _].
      rewrite bool_decide_true, Hpay by lia. exists ve, vl. split; [right; by rewrite Ev|]. bind_simpl. do 3 f_equal.
      apply bool_decide_ext. split.
      * intros <-. by apply (try_encoding_inj _ _ v enc ve).
      * intros Heq. congruence.
    + rewrite bool_decide_false by (intros H; by apply H). exists 255, pr.2. split; [right; by rewrite Ev|]. rewrite bool_decide_false; [done|].
      intros Heq. congruence.
  - rewrite Henc. exists venc, vll. split; [done|]. destruct (bool_decide_reflect (zlen (ent_str e) = zlen vstr)) as [Hl|Hl].
    + rewrite <- Hl, Hpay. done.
    + rewrite bool_decide_false; [done|]. intros Heq. by rewrite Heq in Hl.
Qed.

Lemma find_loop : forall fuel k skipcnt venc vll, (k <= length es)%nat -> vencoded vstr venc vll -> (length es - k < fuel)%nat ->
  mjoin (loop fuel (find_step vstr zl (Z.of_nat skip)) (offset es k, Z.of_nat skipcnt, venc, vll)) =
    Some ((fun j => offset es (k + j)) <$> find_from vstr skip skipcnt (drop k (ent_str <$> es))).
Proof using Hrepr.
  induction fuel as [|fuel IH]; intros k skipcnt venc vll Hk Hv Hf; [lia|]. rewrite loop_S. unfold find_step at 1.
  destruct (byte_lookup _ _ _ Hrepr k Hk) as (b & -> & Hb & _). bind_simpl. rewrite Hb. clear Hb.
  destruct (bool_decide_reflect (k = length es)) as [->|Hne].
  { rewrite drop_ge by (rewrite length_fmap; lia). done. }
  destruct (lookup_lt_is_Some_2 es k) as [e He]; [lia|]. destruct (decode_lookup k e He) as (enc & -> & Hdl & Henc). bind_simpl.
  rewrite Hdl. bind_simpl. destruct (payload_lookup k e He) as [Hq _].
  rewrite (drop_S (ent_str <$> es) (ent_str e) k) by (by rewrite list_lookup_fmap, He). cbn [find_from].
  assert (forall o : option nat, (fun j => offset es (k + j)) <$> (S <$> o) = (fun j => offset es (S k + j)) <$> o) as Hshift.
  { intros [j|]; [|done]. cbn. do 2 f_equal. lia. }
  destruct skipcnt as [|skipcnt].
  - rewrite bool_decide_true by done. destruct (find_compare k e enc venc vll He Henc Hv) as (venc' & vll' & Hv' & Hc). rewrite Hc. clear Hc. bind_simpl.
    case_bool_decide as Heq.
    + rewrite decide_True by done. cbn. do 2 f_equal. f_equal. lia.
    + rewrite decide_False by done. cbn [as_step]. rewrite Hq, IH by (done || lia). by rewrite Hshift.
  - rewrite bool_decide_false by lia. cbn [as_step]. rewrite Hq. replace (Z.of_nat (S skipcnt) - 1) with (Z.of_nat skipcnt) by lia.
    rewrite IH by (done || lia). by rewrite Hshift.
Qed.

Lemma find_spec k : (k <= length es)%nat ->
  ziplistFind (offset es k) vstr zl (Z.of_nat skip) =
    Some ((fun j => offset es (k + j)) <$> find_from vstr skip 0 (drop k (ent_str <$> es))).
Proof using Hrepr.
  intros Hk. unfold ziplistFind. change 0 with (Z.of_nat 0) at 1. apply find_loop; [done|by left|]. pose proof (enough_fuel _ _ _ Hrepr). lia.
Qed.

End Find.

(** ** The operations *)

Lemma fits_parts (es1 es2 : list ent) : fits (ent_str <$> es1 ++ es2) ->
  11 + room (ent_str <$> es1) + room (ent_str <$> es2) < 2 ^ 32.
Proof. unfold fits. rewrite fmap_app, room_app. lia. Qed.

Lemma count_entries_ok cnt n d : cnt = n /\ n < UINT16_MAX \/ cnt = UINT16_MAX -> d <= 1 ->
  counted_entries cnt d = n + d /\ n + d < UINT16_MAX \/ counted_entries cnt d = UINT16_MAX.
Proof.
  intros H Hd. unfold counted_entries. case_bool_decide; [|destruct H as [[-> ?]| ->]; [lia|by right]].
  destruct H as [[-> ?]| ->]; [|lia]. destruct (decide (n + d < UINT16_MAX)); [by left|right; lia].
Qed.

(** The new entry is not shorter than what the next one gives up. *)
Definition insertion_safe (es1 es2 : list ent) (s : list Z) : Prop :=
  match es2 with
  | [] => True
  | nxt :: _ => let e := new_ent (last_len 0 es1) s in 0 <= ent_len e + next_diff (ent_len e) nxt
  end.

Lemma new_ent_length prev s : ent_len (new_ent prev s) = field_size (bool_decide (prev >= 254)) + zlen (length_field s) + zlen (payload s).
Proof. rewrite ent_len_eq. unfold body. rewrite length_app. cbn [new_ent ent_str ent_wide]. lia. Qed.

Lemma insertion_safe_long zl cnt es1 es2 s : repr zl cnt (es1 ++ es2) -> es1 = [] \/ es2 = [] \/ 2 <= zlen (payload s) -> insertion_safe es1 es2 s.
Proof.
  intros [_ _ Hfirst _] Hsafe. destruct es2 as [|nxt r]; [done|]. cbn [insertion_safe]. set (e := new_ent (last_len 0 es1) s).
  pose proof (new_ent_length (last_len 0 es1) s) as Hlen. fold e in Hlen.
  unfold next_diff. pose proof (field_size_bound (ent_wide e)). pose proof (field_size_bound (bool_decide (ent_len e >= 254))).
  pose proof (field_size_bound (bool_decide (last_len 0 es1 >= 254))).
  pose proof (encode_length_size (enc_of s) (zlen s)) as Hls. fold (length_field s) in Hls.
  pose proof (field_size_bound (ent_wide nxt)). destruct Hsafe as [->|[?|?]]; [|done|lia].
  cbn [app] in Hfirst. rewrite (Hfirst nxt eq_refl). cbn [field_size]. lia.
Qed.

(** After a deletion the next entry is as wide as its previous length needs. *)
Definition exact_head (es1 es2 : list ent) : Prop := forall nxt, head es2 = Some nxt -> ent_wide nxt = bool_decide (last_len 0 es1 >= 254).

Lemma insertion_safe_exact es1 es2 s : exact_head es1 es2 -> insertion_safe es1 es2 s.
Proof.
  intros Hex. destruct es2 as [|nxt r]; [done|]. cbn [insertion_safe]. unfold next_diff. rewrite (Hex nxt eq_refl), new_ent_length.
  match goal with |- 0 <= ?a + _ + _ + (field_size ?b - _) => pose proof (field_size_bound b) end. lia.
Qed.

Lemma insert_repr junk zl cnt es1 es2 s : repr zl cnt (es1 ++ es2) -> str_ok s ->
  fits ((ent_str <$> es1) ++ s :: (ent_str <$> es2)) -> insertion_safe es1 es2 s ->
  exists zl', __ziplistInsert junk zl (10 + zlen (ents es1)) s = Some zl' /\ zl_repr zl' ((ent_str <$> es1) ++ s :: (ent_str <$> es2)).
Proof.
  intros Hrepr Hs Hfits Hsafe. pose proof (repr_cnt _ _ _ Hrepr) as Hc. destruct Hrepr as [-> Hch Hfirst Hcount].
  unfold fits in Hfits. rewrite room_app in Hfits. set (e := new_ent (last_len 0 es1) s).
  pose proof (count_entries_ok _ _ 1 Hcount ltac:(lia)) as Hcount'. rewrite length_app in Hcount'.
  destruct es2 as [|nxt r].
  - rewrite app_nil_r in *. rewrite insert_at_end by (done || (cbn [fmap list_fmap] in Hfits; lia)). eexists. split; [done|].
    exists (counted_entries cnt 1), (es1 ++ [e]). split; [|by rewrite fmap_app]. constructor; [done| | |].
    + apply insert_at_end_chain; [done|done|cbn [fmap list_fmap] in Hfits; lia].
    + intros x Hx. destruct es1; [by injection Hx as <-|]. by apply Hfirst.
    + rewrite length_app. cbn [length] in *. destruct Hcount'; [left|right]; lia.
  - rewrite fmap_cons in Hfits. rewrite insert_before.
    + eexists. split; [done|]. exists (counted_entries cnt 1), (es1 ++ e :: follow (ent_len e) nxt r).
      split; [|rewrite fmap_app, !fmap_cons, follow_str; done]. constructor; [done| | |].
      * apply insert_before_chain; [done|done|lia].
      * intros x Hx. destruct es1; [by injection Hx as <-|]. by apply Hfirst.
      * assert (length (follow (ent_len e) nxt r) = S (length r)) as Hl.
        { pose proof (f_equal length (follow_str (ent_len e) nxt r)) as Hl.
          by rewrite length_fmap in Hl; cbn [length] in Hl; rewrite length_fmap in Hl. }
        rewrite length_app. cbn [length] in *. rewrite Hl. destruct Hcount'; [left|right]; lia.
    + done.
    + done.
    + done.
    + lia.
    + exact Hsafe.
Qed.

Lemma delete_repr junk zl cnt es1 del es2 num : repr zl cnt (es1 ++ del ++ es2) -> del <> [] ->
  zlen del <= num -> es2 = [] \/ zlen del = num -> fits (ent_str <$> es1 ++ del ++ es2) ->
  exists zl' cnt' es', __ziplistDelete junk zl (10 + zlen (ents es1)) num = Some zl' /\ repr zl' cnt' (es1 ++ es') /\
    ent_str <$> es' = ent_str <$> es2 /\ exact_head es1 es'.
Proof.
  intros Hrepr Hne Hnum Hend Hfits. pose proof (repr_cnt _ _ _ Hrepr) as Hc. destruct Hrepr as [-> Hch Hfirst Hcount].
  apply fits_parts in Hfits. rewrite fmap_app, room_app in Hfits.
  pose proof (count_entries_ok _ _ (- zlen del) Hcount ltac:(lia)) as Hcount'. rewrite !length_app in Hcount'.
  destruct es2 as [|nxt r].
  - rewrite !app_nil_r in *. rewrite delete_to_end by (done || (cbn [fmap list_fmap room foldr] in Hfits; lia)).
    eexists _, (counted_entries cnt (- zlen del)), []. split; [done|]. rewrite app_nil_r. split; [|done].
    constructor; [done|by apply chain_app in Hch as [? _]| |].
    + intros x Hx. apply Hfirst. destruct es1; [done|done].
    + cbn [length] in *. destruct Hcount'; [left|right]; lia.
  - destruct Hend as [?|Hend]; [done|]. rewrite fmap_cons in Hfits. rewrite delete_before by (done || lia).
    eexists _, (counted_entries cnt (- zlen del)), (follow (last_len 0 es1) nxt r). split; [done|].
    split; [|split; [by rewrite follow_str|by intros nxt' [= <-]]]. pose proof Hch as Hch'. apply chain_app in Hch' as [Hch1 Hch2].
    apply chain_app in Hch2 as [_ (_ & Hn & Hr)]. pose proof (ents_bound es1) as [HP0 HP].
    pose proof (last_len_bound es1 0 ltac:(lia)) as Hl. pose proof (room_nonneg (ent_str <$> del)).
    pose proof (room_nonneg (ent_str <$> es1)). pose proof (room_nonneg (ent_str nxt :: (ent_str <$> r))).
    constructor; [done| | |].
    + apply chain_app. split; [done|]. apply follow_chain; [done|done|lia|lia].
    + intros x Hx. destruct es1; [by injection Hx as <-|]. by apply Hfirst.
    + assert (length (follow (last_len 0 es1) nxt r) = S (length r)) as Hl'.
      { pose proof (f_equal length (follow_str (last_len 0 es1) nxt r)) as Hl'.
        by rewrite length_fmap in Hl'; cbn [length] in Hl'; rewrite length_fmap in Hl'. }
      rewrite length_app. cbn [length] in *. rewrite Hl'. destruct Hcount'; [left|right]; lia.
Qed.

(** *** Sequences of operations *)

Inductive zl_op :=
| ZlPush (head : bool) (s : list Z)
| ZlInsert (i : Z) (s : list Z)
| ZlDelete (i : Z)
| ZlDeleteRange (i num : Z).

(** An operation at an index finds its place with [ziplistIndex], as the
    callers do; [junk] is what [zrealloc] leaves in new memory. *)
Definition run_op (zl : list Z) (op : (nat -> Z) * zl_op) : option (list Z) :=
  let junk := op.1 in
  match op.2 with
  | ZlPush head s => ziplistPush junk zl s head
  | ZlInsert i s =>
      p ← ziplistIndex zl i;
      match p with Some p => ziplistInsert junk zl p s | None => Some zl end
  | ZlDelete i =>
      p ← ziplistIndex zl i;
      match p with Some p => fst <$> ziplistDelete junk zl p | None => Some zl end
  | ZlDeleteRange i num => ziplistDeleteRange junk zl i num
  end.

Definition run_ops (zl : list Z) (ops : list ((nat -> Z) * zl_op)) : option (list Z) :=
  foldl (fun zl op => zl ← zl; run_op zl op) (Some zl) ops.

(** The same on lists of strings. *)
Definition spec_op (l : list (list Z)) (op : zl_op) : list (list Z) :=
  match op with
  | ZlPush true s => s :: l
  | ZlPush false s => l ++ [s]
  | ZlInsert i s => match position (zlen l) i with Some k => take k l ++ s :: drop k l | None => l end
  | ZlDelete i => match position (zlen l) i with Some k => take k l ++ drop (S k) l | None => l end
  | ZlDeleteRange i num => match position (zlen l) i with Some k => take k l ++ drop (k + Z.to_nat num) l | None => l end
  end.

(** Indices are of type [int]; a string inserted before another one has a
    content of at least two bytes. *)
Definition op_ok (op : zl_op) : Prop :=
  match op with
  | ZlPush _ s => str_ok s
  | ZlInsert i s => - 2 ^ 31 < i < 2 ^ 31 /\ str_ok s /\ 2 <= zlen (payload s)
  | ZlDelete i => - 2 ^ 31 < i < 2 ^ 31
  | ZlDeleteRange i num => - 2 ^ 31 < i < 2 ^ 31 /\ 0 <= num < 2 ^ 32
  end.

Definition op_strings (op : zl_op) : list (list Z) :=
  match op with ZlPush _ s | ZlInsert _ s => [s] | _ => [] end.

Lemma position_bound n i k : position n i = Some k -> Z.of_nat k < n.
Proof. unfold position. case_bool_decide; case_bool_decide; intros H'; simplify_eq; lia. Qed.

Lemma room_spec_op l op : room (spec_op l op) <= room l + room (op_strings op).
Proof.
  assert (forall k j, (k <= j)%nat -> room (take k l) + room (drop j l) <= room l) as Hcut.
  { intros k j Hkj. rewrite <- (take_drop k l) at 3. rewrite room_app.
    replace j with (k + (j - k))%nat by lia. rewrite <- drop_drop. rewrite <- (take_drop (j - k) (drop k l)) at 2. rewrite room_app.
    pose proof (room_nonneg (take (j - k) (drop k l))). lia. }
  assert (forall s, room [s] = zlen s + 24) as Hone by (intros s; rewrite room_cons; change (room []) with 0; lia).
  pose proof (room_nonneg l). destruct op as [[] s|i s|i|i num]; cbn [spec_op op_strings]; rewrite ?room_app, ?Hone, ?room_cons; [lia|lia|..];
    change (room []) with 0; (destruct (position (zlen l) i) as [k|]; [rewrite room_app, ?room_cons|lia]).
  - pose proof (Hcut k k). lia.
  - pose proof (Hcut k (S k)). lia.
  - pose proof (Hcut k (k + Z.to_nat num)%nat). lia.
Qed.


Lemma insert_at junk zl cnt es k s : repr zl cnt es -> (k <= length es)%nat -> str_ok s -> fits (s :: (ent_str <$> es)) ->
  k = O \/ k = length es \/ 2 <= zlen (payload s) ->
  exists zl', __ziplistInsert junk zl (offset es k) s = Some zl' /\
    zl_repr zl' (take k (ent_str <$> es) ++ s :: drop k (ent_str <$> es)).
Proof.
  intros Hrepr Hk Hs Hfits Hsafe. rewrite <- fmap_take, <- fmap_drop. rewrite <- (take_drop k es) in Hrepr. unfold offset.
  apply (insert_repr _ _ cnt); [done|done| |].
  - unfold fits in *. rewrite <- (take_drop k es) in Hfits. rewrite room_cons, fmap_app, room_app in Hfits. rewrite room_app, room_cons. lia.
  - eapply insertion_safe_long; [exact Hrepr|]. destruct Hsafe as [->|[->|?]]; [by left|right; left; by rewrite drop_ge|by right; right].
Qed.

Lemma delete_at junk zl cnt es k num : repr zl cnt es -> (k < length es)%nat -> 0 <= num -> fits (ent_str <$> es) ->
  exists zl', __ziplistDelete junk zl (offset es k) num = Some zl' /\
    zl_repr zl' (take k (ent_str <$> es) ++ drop (k + Z.to_nat num) (ent_str <$> es)).
Proof.
  intros Hrepr Hk Hnum Hfits. destruct (decide (num = 0)) as [->|Hne].
  - (* nothing to delete *)
    exists zl. change (Z.to_nat 0) with O. rewrite Nat.add_0_r, take_drop. split; [|by exists cnt, es]. unfold __ziplistDelete.
    destruct (lookup_lt_is_Some_2 es k Hk) as [e He]. destruct (entry_lookup _ _ _ Hrepr k e He) as ((b & Hb & _) & (entry & -> & _) & _).
    bind_simpl. rewrite loop_S. unfold delete_step. rewrite Hb. bind_simpl. rewrite (bool_decide_false (0 < 0)), andb_false_r by lia.
    cbn [as_step mjoin option_join mbind option_bind]. by rewrite Z.sub_diag.
  - rewrite <- fmap_take, <- fmap_drop. unfold offset. rewrite <- (take_drop k es) in Hrepr, Hfits.
    rewrite <- (take_drop (Z.to_nat num) (drop k es)) in Hrepr, Hfits. rewrite <- drop_drop.
    destruct (delete_repr junk zl cnt (take k es) (take (Z.to_nat num) (drop k es)) (drop (Z.to_nat num) (drop k es)) num)
      as (zl' & cnt' & es' & Hd & Hr & Hes & _); [done| | | |done|
      exists zl'; split; [exact Hd|]; exists cnt', (take k es ++ es'); split; [done|]; by rewrite fmap_app, Hes].
    + intros Hnil. apply (f_equal length) in Hnil. rewrite length_take, length_drop in Hnil. cbn in Hnil. lia.
    + rewrite length_take, length_drop. lia.
    + rewrite length_take, length_drop. destruct (decide (length es - k <= Z.to_nat num)%nat); [left|right; lia].
      apply drop_ge. rewrite length_drop. lia.
Qed.

(** An entry replaced by a deletion and an insertion at its place. *)
Lemma replace_repr junk zl cnt es1 x es2 s : repr zl cnt (es1 ++ x :: es2) -> str_ok s -> fits (s :: (ent_str <$> es1 ++ x :: es2)) ->
  exists zl1 zl2, __ziplistDelete junk zl (10 + zlen (ents es1)) 1 = Some zl1 /\
    __ziplistInsert junk zl1 (10 + zlen (ents es1)) s = Some zl2 /\ zl_repr zl2 ((ent_str <$> es1) ++ s :: (ent_str <$> es2)).
Proof.
  intros Hrepr Hs Hfits. unfold fits in Hfits. rewrite room_cons, fmap_app, room_app, fmap_cons, room_cons in Hfits.
  destruct (delete_repr junk zl cnt es1 [x] es2 1) as (zl1 & cnt1 & es' & Hd & Hr & Hes & Hex); [done|done|done|by right|
    unfold fits; rewrite fmap_app, room_app; cbn [app]; rewrite fmap_cons, room_cons; lia|].
  destruct (insert_repr junk zl1 cnt1 es1 es' s Hr Hs) as (zl2 & Hi & Hr2); [|by apply insertion_safe_exact|].
  - unfold fits. rewrite Hes, room_app, room_cons. lia.
  - exists zl1, zl2. rewrite Hes in Hr2. done.
Qed.

Lemma run_op_refines zl l junk op : zl_repr zl l -> op_ok op -> 11 + room l + room (op_strings op) < 2 ^ 32 ->
  exists zl', run_op zl (junk, op) = Some zl' /\ zl_repr zl' (spec_op l op).
Proof.
  intros (cnt & es & Hrepr & ->) Hok Hroom. pose proof (room_nonneg (op_strings op)).
  assert (fits (ent_str <$> es)) as Hfits by (unfold fits; lia).
  assert (forall s, op_strings op = [s] -> fits (s :: (ent_str <$> es))) as Hfits'.
  { intros s Heq. unfold fits. rewrite Heq, room_cons in Hroom. rewrite room_cons. change (room []) with 0 in Hroom. lia. }
  assert (forall i, - 2 ^ 31 < i < 2 ^ 31 -> ziplistIndex zl i = Some (offset es <$> position (zlen (ent_str <$> es)) i)) as Hindex.
  { intros i Hi. rewrite length_fmap. by eapply index_spec. }
  assert (forall i k, position (zlen (ent_str <$> es)) i = Some k -> (k < length es)%nat) as Hpos.
  { intros i k Hp. apply position_bound in Hp. rewrite length_fmap in Hp. lia. }
  unfold run_op. cbn [fst snd]. destruct op as [[] s|i s|i|i num]; cbn [spec_op op_ok op_strings] in *.
  - unfold ziplistPush. bind_simpl. change ZIPLIST_HEADER_SIZE with (offset es 0).
    apply (insert_at junk zl cnt es 0 s); [done|lia|done|by apply Hfits'|by left].
  - unfold ziplistPush, ZIPLIST_ENTRY_END. destruct (header_values _ _ _ Hrepr Hfits) as (-> & _ & _). bind_simpl.
    destruct (insert_at junk zl cnt es (length es) s) as (zl' & Hi & Hr); [done|done|done|by apply Hfits'|by right; left|].
    rewrite offset_end in Hi by done. exists zl'. split.
    + rewrite <- Hi. f_equal. unfold total_of. cbn [length]. lia.
    + by rewrite take_ge, drop_ge in Hr by (by rewrite length_fmap).
  - destruct Hok as (Hi & Hs & Hlong). rewrite Hindex by done. bind_simpl.
    destruct (position (zlen (ent_str <$> es)) i) as [k|] eqn:Hp; cbn [fmap option_fmap option_map]; [|exists zl; split; [done|by exists cnt, es]].
    apply (insert_at junk zl cnt es k s); [done|apply Hpos in Hp; lia|done|by apply Hfits'|by right; right].
  - rewrite Hindex by done. bind_simpl.
    destruct (position (zlen (ent_str <$> es)) i) as [k|] eqn:Hp; cbn [fmap option_fmap option_map]; [|exists zl; split; [done|by exists cnt, es]].
    unfold ziplistDelete. destruct (delete_at junk zl cnt es k 1) as (zl' & -> & Hr); [done|by eapply Hpos|done|done|].
    exists zl'. split; [done|]. by replace (S k) with (k + Z.to_nat 1)%nat by lia.
  - destruct Hok as [Hi Hnum]. unfold ziplistDeleteRange. rewrite swrap_small by (done || (unfold srange; change (32 - 1) with 31; lia)).
    rewrite Hindex by done. bind_simpl.
    destruct (position (zlen (ent_str <$> es)) i) as [k|] eqn:Hp; cbn [fmap option_fmap option_map]; [|exists zl; split; [done|by exists cnt, es]].
    apply (delete_at junk zl cnt es k num); [done|by eapply Hpos|lia|done].
Qed.

Lemma new_repr : zl_repr ziplistNew [].
Proof. exists 0, []. split; [|done]. constructor; [done|done|done|by left]. Qed.

(** ** The claims *)

(** C31: starting from an empty ziplist, every sequence of pushes at either
    end, insertions and deletions at any index (from the head or, negative,
    from the tail) and deletions of ranges runs without leaving its block,
    and leaves the image of the same operations on a list of strings: sizes,
    offsets, the number of entries (while it is below 65535), encodings and the
    chain of previous lengths are right, through every cascade of updates.
    The strings must fit the 32-bit size of the block, and what is inserted
    before another entry must have a content of two bytes (see
    [insert_reads_outside]). *)
Theorem zl_run_refines ops :
  Forall (fun op => op_ok op.2) ops -> 11 + room (ops ≫= (fun op => op_strings op.2)) < 2 ^ 32 ->
  exists zl, run_ops ziplistNew ops = Some zl /\ zl_repr zl (foldl spec_op [] (ops.*2)).
Proof.
  intros Hok Hroom. assert (exists zl, foldl (fun zl op => zl ← zl; run_op zl op) (Some ziplistNew) ops = Some zl /\
    zl_repr zl (foldl spec_op [] (ops.*2)) /\ room (foldl spec_op [] (ops.*2)) <= room (ops ≫= (fun op => op_strings op.2)))
    as (zl & H1 & H2 & _); [|by exists zl].
  induction ops as [|[junk op] ops IH] using rev_ind; [exists ziplistNew; split_and!; [done|apply new_repr|done]|].
  apply Forall_app in Hok as [Hok [Hop _]%Forall_cons]. rewrite bind_app, room_app in Hroom. cbn [mbind list_bind] in Hroom.
  rewrite app_nil_r in Hroom. cbn [snd] in Hroom, Hop. pose proof (room_nonneg (op_strings op)).
  destruct IH as (zl & Hrun & Hrepr & Hr); [done|lia|]. rewrite foldl_app, Hrun, fmap_app, foldl_app. cbn [foldl fmap list_fmap snd]. bind_simpl.
  destruct (run_op_refines zl _ junk op Hrepr Hop) as (zl' & Hzl' & Hrepr'); [lia|]. exists zl'. split_and!; [done|done|].
  rewrite bind_app, room_app. cbn [mbind list_bind snd]. rewrite app_nil_r.
  pose proof (room_spec_op (foldl spec_op [] ops.*2) op). lia.
Qed.

Definition sample_ops (junk : nat -> Z) : list ((nat -> Z) * zl_op) :=
  [(junk, ZlPush false (replicate 300 65)); (junk, ZlPush false (replicate 248 66)); (junk, ZlPush true [49; 50; 51]);
   (junk, ZlInsert (-1) [45; 49; 50; 48; 48]); (junk, ZlDelete 1); (junk, ZlDeleteRange 0 1)].

Lemma zl_run_refines_witness :
  exists zl, run_ops ziplistNew (sample_ops Z.of_nat) = Some zl /\ zl_repr zl [[45; 49; 50; 48; 48]; replicate 248 66].
Proof.
  apply (zl_run_refines (sample_ops Z.of_nat)).
  - repeat constructor; cbn [snd]; try (apply (bool_decide_unpack _); vm_compute; exact I); done.
  - vm_compute. reflexivity.
Defined.

(** What the functions that read say of the strings [l], whose entries start
    at the offsets [off]. *)
Record reads_as (zl : list Z) (l : list (list Z)) (off : nat -> Z) : Prop := {
  reads_index i : - 2 ^ 31 < i < 2 ^ 31 -> ziplistIndex zl i = Some (off <$> position (zlen l) i);
  reads_next k : (k <= length l)%nat ->
    ziplistNext zl (off k) = Some (if bool_decide (S k < length l)%nat then Some (off (S k)) else None);
  reads_prev k : (k <= length l)%nat ->
    ziplistPrev zl (off k) = Some (if bool_decide (0 < k)%nat then Some (off (k - 1)%nat) else None);
  reads_get k : (k <= length l)%nat -> exists v, ziplistGet (Some (off k)) zl = Some v /\
    (v ≫= value_text) = l !! k;
  reads_compare k s : (k <= length l)%nat -> ziplistCompare (off k) s zl = Some (bool_decide (l !! k = Some s));
  reads_find k s skip : (k <= length l)%nat ->
    ziplistFind (off k) s zl (Z.of_nat skip) = Some ((fun j => off (k + j)%nat) <$> find_from s skip 0 (drop k l));
  reads_len : exists zl', ziplistLen zl = Some (zlen l, zl') /\ zl_repr zl' l;
  reads_bloblen : ziplistBlobLen zl = Some (zlen zl);
}.

(** C32: reading a ziplist gives the strings it holds: [ziplistIndex] finds
    the entry of an index counted from either end or NULL, [ziplistNext] and
    [ziplistPrev] walk the entries in order and in reverse order, [ziplistGet]
    returns the string or the integer it denotes, [ziplistCompare] is equality
    of strings whatever the encodings, [ziplistFind] returns the first match
    among the entries it looks at, and [ziplistLen] counts the entries even
    when the header cannot. *)
Theorem zl_reads_agree zl l : zl_repr zl l -> fits l -> exists off, off O = ZIPLIST_HEADER_SIZE /\ reads_as zl l off.
Proof.
  intros (cnt & es & Hrepr & ->) Hfits. exists (offset es). split; [done|]. constructor.
  - intros i Hi. rewrite length_fmap. by eapply index_spec.
  - intros k Hk. rewrite length_fmap in *. by eapply next_spec.
  - intros k Hk. rewrite length_fmap in *. by eapply prev_spec.
  - intros k Hk. rewrite length_fmap in Hk. rewrite (get_spec _ _ _ Hrepr) by done. eexists. split; [done|].
    destruct ((ent_str <$> es) !! k) as [s|]; [apply zvalue_text|done].
  - intros k s Hk. rewrite length_fmap in Hk. by eapply compare_spec.
  - intros k s skip Hk. rewrite length_fmap in Hk. by eapply find_spec.
  - destruct (len_spec _ _ _ Hrepr Hfits) as (zl' & cnt' & Hl & Hrepr'). exists zl'. rewrite length_fmap. split; [done|]. by exists cnt', es.
  - unfold ziplistBlobLen. destruct (header_values _ _ _ Hrepr Hfits) as (-> & _ & _). by rewrite (block_length _ _ _ Hrepr).
Qed.

Lemma zl_reads_agree_witness :
  let zl := default [] (run_ops ziplistNew (sample_ops Z.of_nat)) in
  exists off, off O = ZIPLIST_HEADER_SIZE /\ reads_as zl [[45; 49; 50; 48; 48]; replicate 248 66] off.
Proof.
  apply zl_reads_agree; [|vm_compute; reflexivity].
  exists 2, [Ent 0 false [45; 49; 50; 48; 48]; Ent 4 false (replicate 248 66)]. split; [|reflexivity].
  constructor; [vm_compute; reflexivity| |by intros e [= <-]|left; split; reflexivity].
  repeat split; try (apply (bool_decide_unpack _); vm_compute; exact I); vm_compute; done.
Defined.

(** A deletion leaves the previous length of the next entry in five bytes. *)
Definition shrinking_ops (junk : nat -> Z) : list ((nat -> Z) * zl_op) :=
  [(junk, ZlPush false (replicate 300 65)); (junk, ZlPush false (replicate 248 66)); (junk, ZlPush false [67; 68]); (junk, ZlDelete 0)].

(** The block they leave, and what inserting "A" makes of it. *)
Definition shrinking_zl : list Z := Eval vm_compute in default [] (run_ops ziplistNew (shrinking_ops Z.of_nat)).
Definition corrupted_zl : list Z := Eval vm_compute in default [] (ziplistInsert Z.of_nat shrinking_zl 261 [65]).

(** Inserting a content shorter than two bytes
    before an entry whose previous length is stored in five bytes although one
    is enough, as the update after a deletion leaves it (ziplist.c:620).  That
    entry shrinks by four bytes and the new one takes fewer, so [ziplistResize]
    makes the block smaller, and writes its end, before the entries are moved.
    With these strings, inserting "5" reads the block after its end; inserting
    "A" gives a block in which the last string has changed. *)
Theorem insert_reads_outside junk :
  run_ops ziplistNew (shrinking_ops junk) = Some shrinking_zl /\
  foldl spec_op [] (shrinking_ops junk).*2 = [replicate 248 66; [67; 68]] /\
  ziplistIndex shrinking_zl 1 = Some (Some 261) /\
  ziplistInsert junk shrinking_zl 261 [53] = None /\
  ziplistInsert junk shrinking_zl 261 [65] = Some corrupted_zl /\
  exists q, ziplistIndex corrupted_zl (-1) = Some (Some q) /\ ziplistGet (Some q) corrupted_zl = Some (Some (inl [67; 255])).
Proof.
  split; [vm_compute; reflexivity|]. split; [reflexivity|]. split; [vm_compute; reflexivity|].
  split; [vm_compute; reflexivity|]. split; [vm_compute; reflexivity|]. exists 264. split; vm_compute; reflexivity.
Qed.
