(* ===== verification/Lzf.v ===== *)
(** * The LZF compressor: [lzf_c.c], [lzf_d.c]

    The input and the output are blocks of memory; pointers into them are
    offsets from their start.  The macros are those of the build: [HLOG] 16,
    [VERY_FAST], [CHECK_INPUT], no [STRICT_ALIGN], no [INIT_HTAB].  The hash
    table of [lzf_compress] is an array on the stack that nothing initialises:
    what a slot holds before it is written is [junk], an address like any
    other, and [base] is the address of the input, against which the code
    compares it. *)
From S2P Require Import Prelude Memory.

Definition HLOG := 16.
Definition MAX_LIT := 32.
Definition MAX_OFF := 8192.
Definition MAX_REF := 264.

(** ** Compression *)

(** [ip] and [op] as offsets, the length of the current literal run, the
    rolling hash, the slots written so far, the output block. *)
Record lzf := mk_lzf { c_ip : Z; c_op : Z; c_lit : Z; c_hval : Z; c_htab : gmap Z Z; c_out : list Z }.

Definition lzf_FRST (p : Z) (m : list Z) : option Z :=
  a ← zget p m; b ← zget (p + 1) m; Some (Z.lor (Z.shiftl a 8) b).

Definition lzf_NEXT (v p : Z) (m : list Z) : option Z :=
  c ← zget (p + 2) m; Some (Z.lor (uwrap 32 (Z.shiftl v 8)) c).

Definition lzf_IDX (h : Z) : Z := Z.land (uwrap 32 (Z.shiftr h (3 * 8 - HLOG) - h * 5)) (2 ^ HLOG - 1).

(** [*p = b], for a byte *)
Definition zput (p b : Z) (m : list Z) : option (list Z) := zwrite p [uwrap 8 b] m.

(** The unrolled comparisons: [len++; if (ref[len] != ip[len]) break;], [n]
    times.  The flag tells that one of them has left the loop. *)
Fixpoint scan_eq (n : nat) (ref ip len : Z) (m : list Z) : option (Z * bool) :=
  match n with
  | O => Some (len, false)
  | S n => let len := len + 1 in
      a ← zget (ref + len) m; b ← zget (ip + len) m;
      if bool_decide (a <> b) then Some (len, true) else scan_eq n ref ip len m
  end.

(** The [for (;;)] around the comparisons: the length of the match. *)
Definition match_length (ref ip maxlen : Z) (m : list Z) : option Z :=
  '(len, broke) ← (if bool_decide (maxlen > 16) then scan_eq 16 ref ip 2 m else Some (2, false));
  if (broke : bool) then Some len
  else mjoin (loop (S (length m)) (fun len =>
    let len := len + 1 in
    as_step (if bool_decide (len < maxlen)
             then a ← zget (ref + len) m; b ← zget (ip + len) m;
                  Some (if bool_decide (a = b) then inl len else inr len)
             else Some (inr len))) len).

(** [op [- lit - 1] = lit - 1; op -= !lit;] *)
Definition stop_run (op lit : Z) (out : list Z) : option (Z * list Z) :=
  out ← zput (op - lit - 1) (lit - 1) out; Some (if bool_decide (lit = 0) then op - 1 else op, out).

(** One literal byte: [lit++; *op++ = *ip++;] and the end of a full run. *)
Definition copy_literal (m : list Z) (s : lzf) : option lzf :=
  let '(mk_lzf ip op lit hval htab out) := s in
  b ← zget ip m; out ← zput op b out;
  let lit := lit + 1 in let op := op + 1 in
  if bool_decide (lit = MAX_LIT)
  then out ← zput (op - lit - 1) (lit - 1) out; Some (mk_lzf (ip + 1) (op + 1) 0 hval htab out)
  else Some (mk_lzf (ip + 1) op lit hval htab out).

(** The bytes of a back reference of [len + 2] bytes at distance [off + 1]. *)
Definition put_ref (op off len : Z) (out : list Z) : option (Z * list Z) :=
  '(op, out) ← (if bool_decide (len < 7)
    then out ← zput op (Z.shiftr off 8 + Z.shiftl len 5) out; Some (op + 1, out)
    else out ← zput op (Z.shiftr off 8 + Z.shiftl 7 5) out;
         out ← zput (op + 1) (len - 7) out; Some (op + 2, out));
  out ← zput op off out; Some (op + 1, out).

Section Compress.
Context (base : Z) (junk : Z -> Z) (m : list Z) (out_len : Z).

Definition in_end : Z := zlen m.

Definition htab_get (htab : gmap Z Z) (i : Z) : Z := default (uwrap 64 (junk i) - base) (htab !! i).

(** The condition of a match, its conjuncts in order. *)
Definition found_match (ip ref : Z) : option bool :=
  if bool_decide (uwrap 64 (ip - ref - 1) < MAX_OFF /\ ip + 4 < in_end /\ ref > 0)
  then r ← zread ref 2 m; i ← zread ip 2 m;
       if bool_decide (r = i) then a ← zget (ref + 2) m; b ← zget (ip + 2) m; Some (bool_decide (a = b))
       else Some false
  else Some false.

(** After a match, the positions at its end are entered in the table. *)
Definition rehash_end (ip : Z) (htab : gmap Z Z) : option (Z * Z * gmap Z Z) :=
  let ip := ip - 1 - 1 in
  hval ← lzf_FRST ip m;
  hval ← lzf_NEXT hval ip m;
  let htab := <[lzf_IDX hval := ip]> htab in
  let ip := ip + 1 in
  hval ← lzf_NEXT hval ip m;
  let htab := <[lzf_IDX hval := ip]> htab in
  Some (ip + 1, hval, htab).

(** What the main loop does with a match at [ref]: [inr None] for
    [return 0], [inr (Some s)] to leave the loop in state [s]. *)
Definition emit_match (ref : Z) (s : lzf) : option (lzf + option lzf) :=
  let '(mk_lzf ip op lit hval htab out) := s in
  let off := uwrap 64 (ip - ref - 1) in
  let maxlen := uwrap 32 (in_end - ip - 2) in
  let maxlen := if bool_decide (maxlen > MAX_REF) then MAX_REF else maxlen in
  '(op, out) ← stop_run op lit out;
  if bool_decide (op + 3 + 1 >= out_len) then Some (inr None) else
  len ← match_length ref ip maxlen m;
  let len := len - 2 in
  let ip := ip + 1 in
  '(op, out) ← put_ref op off len out;
  let op := op + 1 in
  let ip := ip + len + 1 in
  if bool_decide (ip >= in_end - 2) then Some (inr (Some (mk_lzf ip op 0 hval htab out)))
  else '(ip, hval, htab) ← rehash_end ip htab; Some (inl (mk_lzf ip op 0 hval htab out)).

(** One iteration of the main loop. *)
Definition compress_body (s : lzf) : option (lzf + option lzf) :=
  let '(mk_lzf ip op lit hval htab out) := s in
  if bool_decide (ip < in_end - 2) then
    hval ← lzf_NEXT hval ip m;
    let ref := htab_get htab (lzf_IDX hval) in
    let s := mk_lzf ip op lit hval (<[lzf_IDX hval := ip]> htab) out in
    b ← found_match ip ref;
    if (b : bool) then emit_match ref s
    else if bool_decide (op >= out_len) then Some (inr None)
    else s ← copy_literal m s; Some (inl s)
  else Some (inr (Some s)).

(** The tail: the last bytes as literals. *)
Definition tail_body (s : lzf) : option (lzf + lzf) :=
  if bool_decide (c_ip s < in_end) then s ← copy_literal m s; Some (inl s) else Some (inr s).

Definition lzf_tail (s : lzf) : option (Z * list Z) :=
  if bool_decide (c_op s + 3 > out_len) then Some (0, c_out s)
  else
    s ← mjoin (loop (S (length m)) (fun s => as_step (tail_body s)) s);
    stop_run (c_op s) (c_lit s) (c_out s).

(** The number of bytes written, 0 when they do not fit; the output block. *)
Definition lzf_compress (out : list Z) : option (Z * list Z) :=
  if bool_decide (in_end = 0 \/ out_len = 0) then Some (0, out) else
  hval ← lzf_FRST 0 m;
  r ← mjoin (loop (S (length m)) (fun s => as_step (compress_body s)) (mk_lzf 0 1 0 hval ∅ out));
  match r with None => Some (0, out) | Some s => lzf_tail s end.
End Compress.

(** ** Decompression *)

Inductive lzf_error := E2BIG | EINVAL.

Record unlzf := mk_unlzf { d_ip : Z; d_op : Z; d_out : list Z }.

(** [do *op++ = *ref++; while (--n)] inside the output, [n] at least 1. *)
Fixpoint copy_up (n : nat) (op ref : Z) (out : list Z) : option (list Z) :=
  match n with
  | O => Some out
  | S n => b ← zget ref out; out ← zput op b out; copy_up n (op + 1) (ref + 1) out
  end.

(** The literal run copied byte by byte from the input. *)
Fixpoint copy_in (n : nat) (ip op : Z) (m out : list Z) : option (list Z) :=
  match n with
  | O => Some out
  | S n => b ← zget ip m; out ← zput op b out; copy_in n (ip + 1) (op + 1) m out
  end.

Section Decompress.
Context (m : list Z) (out_len : Z).

Definition literal_run (ip op ctrl : Z) (out : list Z) : option (unlzf + lzf_error) :=
  let ctrl := ctrl + 1 in
  if bool_decide (op + ctrl > out_len) then Some (inr E2BIG)
  else if bool_decide (ip + ctrl > zlen m) then Some (inr EINVAL)
  else out ← copy_in (Z.to_nat ctrl) ip op m out; Some (inl (mk_unlzf (ip + ctrl) (op + ctrl) out)).

Definition copy_ref (ip op len ref : Z) (out : list Z) : option (unlzf + lzf_error) :=
  b ← zget ip m;
  let ref := ref - b in
  let ip := ip + 1 in
  if bool_decide (op + len + 2 > out_len) then Some (inr E2BIG)
  else if bool_decide (ref < 0) then Some (inr EINVAL)
  else out ← copy_up 2 op ref out; out ← copy_up (Z.to_nat len) (op + 2) (ref + 2) out;
       Some (inl (mk_unlzf ip (op + 2 + len) out)).

Definition back_ref (ip op ctrl : Z) (out : list Z) : option (unlzf + lzf_error) :=
  let len := Z.shiftr ctrl 5 in
  let ref := op - Z.shiftl (Z.land ctrl 31) 8 - 1 in
  if bool_decide (ip >= zlen m) then Some (inr EINVAL)
  else if bool_decide (len = 7) then
    b ← zget ip m;
    if bool_decide (ip + 1 >= zlen m) then Some (inr EINVAL) else copy_ref (ip + 1) op (len + b) ref out
  else copy_ref ip op len ref out.

(** One iteration of the [do ... while (ip < in_end)]. *)
Definition decompress_body (s : unlzf) : option (unlzf + (unlzf + lzf_error)) :=
  let '(mk_unlzf ip op out) := s in
  ctrl ← zget ip m;
  r ← (if bool_decide (ctrl < Z.shiftl 1 5) then literal_run (ip + 1) op ctrl out else back_ref (ip + 1) op ctrl out);
  Some (match r with
        | inr e => inr (inr e)
        | inl s => if bool_decide (d_ip s < zlen m) then inl s else inr (inl s)
        end).

(** The final state, or the value of [errno] when the function returns 0. *)
Definition lzf_decompress (out : list Z) : option (unlzf + lzf_error) :=
  mjoin (loop (S (length m)) (fun s => as_step (decompress_body s)) (mk_unlzf 0 0 out)).
End Decompress.

Module LzfExamples.
Definition text : list Z := concat (repeat [97; 98; 99; 97; 98; 100] 12) ++ [1; 2; 3].
Definition run (inp : list Z) (n : Z) : option (Z * list Z) :=
  lzf_compress 4096 (fun i => i * 77777 + 4200) inp n (repeat 0 (Z.to_nat n + 1)).
End LzfExamples.
