(* ===== verification/LzfSpecs.v ===== *)
(** * The compressor is inverted by the decompressor

    The code of a text is a sequence of literal runs and back references;
    [codes e l] says that the bytes [e] are such a code of [l].
    [lzf_compress] writes a code of its input, whatever its hash table held,
    and [lzf_decompress] turns a code into the text; on bytes that are no code
    it stays inside its two blocks. *)
From S2P Require Import Prelude Memory Lzf.

(** ** Codes *)

(** The text extended by [n] bytes, each a copy of the one [off + 1] before. *)
Fixpoint expand (n : nat) (off : Z) (l : list Z) : list Z :=
  match n with
  | O => l
  | S n => expand n off (l ++ [nth (Z.to_nat (zlen l - 1 - off)) l 0])
  end.

(** A back reference of [n] bytes at distance [off + 1]. *)
Definition ref_code (off n : Z) : list Z :=
  if bool_decide (n - 2 < 7) then [off / 256 + (n - 2) * 32; off mod 256]
  else [off / 256 + 224; n - 9; off mod 256].

Inductive lzf_token : list Z -> list Z -> list Z -> Prop :=
| step_literal bs l : bytes_ok bs -> 1 <= zlen bs <= MAX_LIT -> lzf_token (zlen bs - 1 :: bs) l (l ++ bs)
| step_ref off n l : 0 <= off < MAX_OFF -> off < zlen l -> 3 <= n <= MAX_REF ->
    lzf_token (ref_code off n) l (expand (Z.to_nat n) off l).

Inductive codes : list Z -> list Z -> Prop :=
| codes_nil : codes [] []
| codes_snoc e l t l' : codes e l -> lzf_token t l l' -> codes (e ++ t) l'.

Lemma length_expand n off l : length (expand n off l) = (length l + n)%nat.
Proof. revert l. induction n as [|n IH]; intros l; simpl; [lia|]. rewrite IH, length_app. simpl. lia. Qed.

Lemma expand_plus a b off l : expand (a + b) off l = expand b off (expand a off l).
Proof. revert l. induction a as [|a IH]; intros l; [done|]. apply IH. Qed.

Lemma token_step_grows t l l' : lzf_token t l l' -> zlen l < zlen l' /\ 0 < zlen t.
Proof.
  destruct 1 as [bs l|off n l]; [rewrite length_app; simpl; lia|].
  rewrite length_expand. unfold ref_code. case_bool_decide; simpl; lia.
Qed.

Lemma codes_nonempty e l : codes e l -> l <> [] -> e <> [].
Proof.
  destruct 1 as [|e l t l' _ Ht]; [done|]. intros _ Hn. apply token_step_grows in Ht as [_ Ht].
  apply (f_equal length) in Hn. rewrite length_app in Hn. simpl in Hn. lia.
Qed.

(** Extending a prefix of a text along a match gives a longer prefix. *)
Lemma expand_match (m : list Z) (n : nat) (ip off : Z) : 0 <= off < ip -> ip + Z.of_nat n <= zlen m ->
  (forall i, 0 <= i < Z.of_nat n -> m !! Z.to_nat (ip - 1 - off + i) = m !! Z.to_nat (ip + i)) ->
  expand n off (take (Z.to_nat ip) m) = take (Z.to_nat (ip + Z.of_nat n)) m.
Proof.
  revert ip. induction n as [|n IH]; intros ip Hoff Hn Hm; [by rewrite Z.add_0_r|]. simpl.
  destruct (lookup_lt_is_Some_2 m (Z.to_nat ip)) as [x Hx]; [lia|].
  assert (nth (Z.to_nat (zlen (take (Z.to_nat ip) m) - 1 - off)) (take (Z.to_nat ip) m) 0 = x) as ->.
  { rewrite length_take, Nat.min_l by lia. rewrite nth_lookup, lookup_take_lt by lia.
    specialize (Hm 0 ltac:(lia)). rewrite !Z.add_0_r, Hx in Hm.
    replace (Z.to_nat (Z.of_nat (Z.to_nat ip) - 1 - off)) with (Z.to_nat (ip - 1 - off)) by lia. by rewrite Hm. }
  rewrite <- take_S_r by done. replace (S (Z.to_nat ip)) with (Z.to_nat (ip + 1)) by lia.
  rewrite IH; [f_equal; lia|lia|lia|]. intros i Hi. specialize (Hm (i + 1) ltac:(lia)).
  by replace (ip + 1 - 1 - off + i) with (ip - 1 - off + (i + 1)) by lia;
    replace (ip + 1 + i) with (ip + (i + 1)) by lia.
Qed.

(** ** Writing one byte *)

Lemma zput_app A b0 b C p : p = zlen A -> is_byte b -> zput p b (A ++ b0 :: C) = Some (A ++ b :: C).
Proof.
  intros Hp Hb. unfold zput. rewrite uwrap_small by done. apply (zwrite_app A [b0] [b] C); done.
Qed.

Lemma zput_any A b0 b C p : p = zlen A -> zput p b (A ++ b0 :: C) = Some (A ++ uwrap 8 b :: C).
Proof. intros Hp. unfold zput. by apply (zwrite_app A [b0] [uwrap 8 b] C). Qed.

Lemma zget_lookup p (m : list Z) x : 0 <= p -> m !! Z.to_nat p = Some x -> zget p m = Some x.
Proof. intros. unfold zget. by rewrite bool_decide_true. Qed.

Lemma zget_inside p (m : list Z) : 0 <= p < zlen m -> exists x, m !! Z.to_nat p = Some x /\ zget p m = Some x.
Proof.
  intros. destruct (lookup_lt_is_Some_2 m (Z.to_nat p)) as [x Hx]; [lia|]. exists x. split; [done|].
  apply zget_lookup; [lia|done].
Qed.

Lemma zlen_cons_inv (C : list Z) : 0 < zlen C -> exists b C', C = b :: C'.
Proof. destruct C as [|b C]; simpl; [lia|eauto]. Qed.

(** ** Decompression *)

Lemma copy_up_spec (n : nat) op ref off (l C : list Z) : bytes_ok l -> op = zlen l -> ref = op - 1 - off ->
  0 <= off < zlen l -> (n <= length C)%nat ->
  copy_up n op ref (l ++ C) = Some (expand n off l ++ drop n C) /\ bytes_ok (expand n off l).
Proof.
  revert op ref l C. induction n as [|n IH]; intros op ref l C Hl -> -> Hoff Hn; [done|].
  destruct C as [|c C]; simpl in Hn; [lia|]. simpl.
  destruct (zget_inside (zlen l - 1 - off) l ltac:(lia)) as (x & Hx & _).
  rewrite (zget_lookup _ _ x); [|lia|rewrite lookup_app_l; [done|apply lookup_lt_is_Some; eauto]]. simpl.
  assert (is_byte x) as Hbx by (rewrite Forall_lookup in Hl; eauto).
  rewrite (zput_app l c x C) by done. bind_simpl.
  rewrite nth_lookup, Hx. simpl. replace (l ++ x :: C) with ((l ++ [x]) ++ C) by (by rewrite <- app_assoc).
  apply IH; rewrite ?length_app; simpl; try lia. apply Forall_app. split; [done|by constructor].
Qed.

Lemma copy_in_spec (n : nat) ip op (A bs B l C : list Z) : bytes_ok bs -> n = length bs -> ip = zlen A -> op = zlen l ->
  (n <= length C)%nat -> copy_in n ip op (A ++ bs ++ B) (l ++ C) = Some (l ++ bs ++ drop n C).
Proof.
  revert n ip op A l C. induction bs as [|b bs IH]; intros n ip op A l C Hbs -> -> -> Hn; [done|].
  destruct C as [|c C]; simpl in Hn; [lia|]. apply Forall_cons in Hbs as [Hb Hbs]. simpl.
  rewrite (zget_app A b) by done. simpl. rewrite (zput_app l c b C) by done. bind_simpl.
  replace (A ++ b :: bs ++ B) with ((A ++ [b]) ++ bs ++ B) by (by rewrite <- app_assoc).
  replace (l ++ b :: C) with ((l ++ [b]) ++ C) by (by rewrite <- app_assoc).
  rewrite IH; [by rewrite <- !app_assoc|done|done|rewrite length_app; simpl; lia..|lia].
Qed.

Lemma expand_ok n off l : bytes_ok l -> 0 <= off < zlen l -> bytes_ok (expand n off l).
Proof. intros. by apply (copy_up_spec n (zlen l) (zlen l - 1 - off) off l (repeat 0 n)); rewrite ?repeat_length. Qed.

Lemma token_step_ok t l l' : lzf_token t l l' -> bytes_ok l -> bytes_ok l'.
Proof.
  destruct 1; intros; [by apply Forall_app|]. apply expand_ok; [done|lia].
Qed.

Lemma codes_ok e l : codes e l -> bytes_ok l.
Proof. induction 1; [done|]. by eapply token_step_ok. Qed.

Lemma ref_code_ok off n : 0 <= off < MAX_OFF -> 3 <= n <= MAX_REF -> bytes_ok (ref_code off n).
Proof.
  unfold MAX_OFF, MAX_REF, ref_code. intros Hoff Hn. assert (0 <= off / 256 < 32) by (Z.div_mod_to_equations; lia).
  pose proof (Z.mod_pos_bound off 256 ltac:(lia)).
  case_bool_decide; repeat (apply Forall_cons_2; [unfold urange; lia|]); done.
Qed.

Lemma codes_bytes e l : codes e l -> bytes_ok e.
Proof.
  induction 1 as [|e l t l' _ IH Ht]; [done|]. apply Forall_app. split; [done|]. destruct Ht; [|by apply ref_code_ok].
  apply Forall_cons_2; [|done]. unfold MAX_LIT, urange in *. lia.
Qed.

Lemma copy_up_plus a b op ref out :
  copy_up (a + b) op ref out = copy_up a op ref out ≫= copy_up b (op + Z.of_nat a) (ref + Z.of_nat a).
Proof.
  revert op ref out. induction a as [|a IH]; intros op ref out.
  { cbn. by rewrite !Z.add_0_r. }
  cbn [copy_up Nat.add]. destruct (zget ref out) as [x|]; [|done]. cbn. destruct (zput op x out) as [o|]; [|done].
  cbn. rewrite IH. by do 2 f_equal; lia.
Qed.

(** A back reference read at its last byte. *)
Lemma copy_ref_spec A b B out_len ip op len ref off (l C : list Z) : bytes_ok l -> ip = zlen A -> op = zlen l -> 0 <= len ->
  ref - b = op - 1 - off -> 0 <= off < zlen l -> zlen (l ++ C) = out_len -> zlen l + len + 2 <= out_len ->
  copy_ref (A ++ b :: B) out_len ip op len ref (l ++ C) =
    Some (inl (mk_unlzf (ip + 1) (op + 2 + len) (expand (Z.to_nat (len + 2)) off l ++ drop (Z.to_nat (len + 2)) C))).
Proof.
  intros Hl -> -> Hlen Href Hoff HC Hfit. rewrite length_app in HC. unfold copy_ref.
  rewrite (zget_app A b B) by done. bind_simpl. rewrite Href.
  rewrite bool_decide_false by lia. rewrite bool_decide_false by lia.
  destruct (copy_up_spec (2 + Z.to_nat len) (zlen l) (zlen l - 1 - off) off l C) as [H _]; [done|done|done|done|lia|].
  rewrite copy_up_plus in H. change (Z.of_nat 2) with 2 in H. destruct (copy_up 2 _ _ _) as [out|]; [|done]. simpl in H. bind_simpl. rewrite H.
  bind_simpl. replace (Z.to_nat (len + 2)) with (2 + Z.to_nat len)%nat by lia. done.
Qed.

Definition after_token (A t B l' C : list Z) (l : list Z) : unlzf :=
  mk_unlzf (zlen A + zlen t) (zlen l') (l' ++ drop (length l' - length l) C).

(** One iteration of [lzf_decompress] reads one token. *)
Lemma literal_spec A bs B out_len (l C : list Z) : bytes_ok bs -> 1 <= zlen bs ->
  zlen (l ++ C) = out_len -> zlen (l ++ bs) <= out_len ->
  literal_run (A ++ (zlen bs - 1 :: bs) ++ B) out_len (zlen A + 1) (zlen l) (zlen bs - 1) (l ++ C) =
    Some (inl (after_token A (zlen bs - 1 :: bs) B (l ++ bs) C l)).
Proof.
  intros Hbs Hn HC Hfit. rewrite !length_app in *. unfold literal_run, after_token. simpl length.
  rewrite bool_decide_false by lia. rewrite length_app. simpl. rewrite length_app, bool_decide_false by lia.
  replace (A ++ zlen bs - 1 :: bs ++ B) with ((A ++ [zlen bs - 1]) ++ bs ++ B) by (by rewrite <- app_assoc).
  rewrite copy_in_spec; [|done|lia|rewrite length_app; simpl; lia|done|lia]. bind_simpl.
  rewrite <- app_assoc. do 3 f_equal; rewrite ?length_app; try lia. do 2 f_equal. f_equal. lia.
Qed.

Lemma ref_spec A off n B out_len (l C : list Z) : bytes_ok l -> 0 <= off < MAX_OFF -> off < zlen l -> 3 <= n <= MAX_REF ->
  zlen (l ++ C) = out_len -> zlen l + n <= out_len ->
  exists c t, ref_code off n = c :: t /\ 32 <= c /\
  back_ref (A ++ (c :: t) ++ B) out_len (zlen A + 1) (zlen l) c (l ++ C) =
    Some (inl (after_token A (c :: t) B (expand (Z.to_nat n) off l) C l)).
Proof.
  unfold MAX_OFF, MAX_REF. intros Hl Hoff Hol Hn HC Hfit.
  pose proof (Z.div_mod off 256 ltac:(lia)). pose proof (Z.mod_pos_bound off 256 ltac:(lia)).
  assert (0 <= off / 256 < 32) by (split; [apply Z.div_pos; lia|apply Z.div_lt_upper_bound; lia]).
  unfold ref_code. case_bool_decide as Hs; do 2 eexists; (split; [done|]); (split; [lia|]);
    unfold back_ref, after_token; rewrite shiftr5, land31, shiftl8, length_app, length_expand; simpl length.
  - replace ((off / 256 + (n - 2) * 32) / 32) with (n - 2) by (Z.div_mod_to_equations; lia).
    replace ((off / 256 + (n - 2) * 32) mod 32) with (off / 256) by (Z.div_mod_to_equations; lia).
    rewrite bool_decide_false by lia. rewrite bool_decide_false by lia. simpl app.
    rewrite (cons_middle _ A), app_assoc.
    rewrite (copy_ref_spec _ _ _ _ _ _ _ _ off); [|done|rewrite length_app; simpl; lia|done|lia..].
    do 3 f_equal; [lia..|]. f_equal; f_equal; lia.
  - replace ((off / 256 + 224) / 32) with 7 by (Z.div_mod_to_equations; lia).
    replace ((off / 256 + 224) mod 32) with (off / 256) by (Z.div_mod_to_equations; lia).
    rewrite bool_decide_false by lia. rewrite bool_decide_true by done. simpl app.
    rewrite (cons_middle _ A), app_assoc.
    rewrite (zget_app (A ++ [_]) (n - 9)) by (rewrite length_app; simpl; lia). bind_simpl.
    rewrite bool_decide_false by lia.
    rewrite (cons_middle (n - 9)), app_assoc.
    rewrite (copy_ref_spec _ _ _ _ _ _ _ _ off); [|done|rewrite !length_app; simpl; lia|done|lia..].
    do 3 f_equal; [lia..|]. f_equal; f_equal; lia.
Qed.

Lemma decompress_token A t B out_len (l l' C : list Z) : lzf_token t l l' -> bytes_ok l ->
  zlen (l ++ C) = out_len -> zlen l' <= out_len ->
  decompress_body (A ++ t ++ B) out_len (mk_unlzf (zlen A) (zlen l) (l ++ C)) =
    Some (if bool_decide (B = []) then inr (inl (after_token A t B l' C l)) else inl (after_token A t B l' C l)).
Proof.
  intros Ht Hl HC Hfit. unfold decompress_body.
  assert (forall (b c : unlzf + (unlzf + lzf_error)), (if bool_decide (d_ip (after_token A t B l' C l) < zlen (A ++ t ++ B)) then b else c)
    = if bool_decide (B = []) then c else b) as Hend.
  { intros b c. unfold after_token. cbn [d_ip]. rewrite !length_app. destruct B as [|x B].
    - rewrite bool_decide_false by (simpl; lia). by rewrite bool_decide_true.
    - rewrite bool_decide_true by (simpl; lia). by rewrite bool_decide_false. }
  revert Hend. destruct Ht as [bs l Hbs Hn|off n l Hoff Hol Hn]; intros Hend; unfold MAX_LIT in *; change (Z.shiftl 1 5) with 32.
  - rewrite (zget_app A (zlen bs - 1) (bs ++ B)) by done. bind_simpl.
    rewrite bool_decide_true by lia. rewrite literal_spec; try done; [|lia]. bind_simpl. by rewrite Hend.
  - destruct (ref_spec A off n B out_len l C) as (c & t & E & Hc & Hrun); try done; [rewrite length_expand in Hfit; lia|].
    rewrite E in Hend |- *. rewrite (zget_app A c (t ++ B)) by done. bind_simpl. rewrite bool_decide_false by lia.
    rewrite Hrun. bind_simpl. by rewrite Hend.
Qed.

(** ** Any input *)

Lemma byte_ref_code c off n : is_byte c -> is_byte off -> 32 <= c -> c / 32 <> 7 -> n = c / 32 + 2 ->
  ref_code (c mod 32 * 256 + off) n = [c; off].
Proof.
  unfold urange. intros Hc Ho H1 H2 ->. unfold ref_code.
  rewrite bool_decide_true by (Z.div_mod_to_equations; lia). f_equal; [|f_equal]; Z.div_mod_to_equations; lia.
Qed.

Lemma byte_ref_code_long c b off n : is_byte c -> is_byte b -> is_byte off -> c / 32 = 7 -> n = b + 9 ->
  ref_code (c mod 32 * 256 + off) n = [c; b; off].
Proof.
  unfold urange. intros Hc Hb Ho H1 ->. unfold ref_code. rewrite bool_decide_false by lia.
  f_equal; [|f_equal; [|f_equal]]; Z.div_mod_to_equations; lia.
Qed.

(** What the bytes at the current position are: a token that fits, or an error. *)
Lemma literal_or_error A c R out_len (l out : list Z) : bytes_ok (c :: R) -> c < 32 ->
  (exists t l' B, c :: R = t ++ B /\ lzf_token t l l' /\ zlen l' <= out_len) \/
  exists e, literal_run (A ++ c :: R) out_len (zlen A + 1) (zlen l) c out = Some (inr e).
Proof.
  intros Hb Hc. apply Forall_cons in Hb as [Hc0 HR]. unfold urange in Hc0. unfold literal_run.
  case_bool_decide; [by right; eexists|]. rewrite length_app. simpl. case_bool_decide; [by right; eexists|]. left.
  exists (c :: take (Z.to_nat (c + 1)) R), (l ++ take (Z.to_nat (c + 1)) R), (drop (Z.to_nat (c + 1)) R).
  split; [by rewrite <- app_comm_cons, take_drop|].
  assert (zlen (take (Z.to_nat (c + 1)) R) = c + 1) as E by (rewrite length_take; lia).
  split; [|rewrite length_app; lia]. replace c with (zlen (take (Z.to_nat (c + 1)) R) - 1) at 1 by lia.
  apply step_literal; [by apply Forall_take|]. unfold MAX_LIT. lia.
Qed.

Lemma ref_or_error A c off t R out_len op len ref (l out : list Z) n :
  is_byte c -> is_byte off -> ref = zlen l - c mod 32 * 256 - 1 -> op = zlen l -> n = len + 2 -> 3 <= n <= MAX_REF ->
  ref_code (c mod 32 * 256 + off) n = t ->
  (exists l' B, t ++ R = t ++ B /\ lzf_token t l l' /\ zlen l' <= out_len) \/
  exists e, copy_ref (A ++ off :: R) out_len (zlen A) op len ref out = Some (inr e).
Proof.
  unfold urange. intros Hc Ho -> -> -> Hn <-. unfold copy_ref. rewrite (zget_app A off R) by done. bind_simpl.
  case_bool_decide; [by right; eexists|]. case_bool_decide; [by right; eexists|]. left.
  exists (expand (Z.to_nat (len + 2)) (c mod 32 * 256 + off) l), R. split; [done|]. unfold MAX_REF in Hn.
  pose proof (Z.mod_pos_bound c 32 ltac:(lia)).
  split; [|rewrite length_expand; lia]. apply step_ref; unfold MAX_OFF, MAX_REF; lia.
Qed.

Lemma back_or_error A c R out_len (l out : list Z) : bytes_ok (c :: R) -> 32 <= c ->
  (exists t l' B, c :: R = t ++ B /\ lzf_token t l l' /\ zlen l' <= out_len) \/
  exists e, back_ref (A ++ c :: R) out_len (zlen A + 1) (zlen l) c out = Some (inr e).
Proof.
  intros Hb Hc. apply Forall_cons in Hb as [Hc0 HR]. unfold urange in Hc0. unfold back_ref.
  rewrite shiftr5, land31, shiftl8, length_app. simpl.
  destruct R as [|b R]; [right; rewrite bool_decide_true by (simpl; lia); by eexists|].
  rewrite bool_decide_false by (simpl; lia). apply Forall_cons in HR as [Hb HR]. case_bool_decide as H7.
  - rewrite (cons_middle c), app_assoc, (zget_app (A ++ [c]) b) by (rewrite length_app; simpl; lia). bind_simpl.
    destruct R as [|o R]; [right; rewrite bool_decide_true by (simpl; lia); by eexists|].
    rewrite bool_decide_false by (simpl; lia). apply Forall_cons in HR as [Ho HR].
    destruct (ref_or_error ((A ++ [c]) ++ [b]) c o [c; b; o] R out_len (zlen l) (c / 32 + b)
      (zlen l - c mod 32 * 256 - 1) l out (b + 9)) as [(l' & B & E & ?)|[e He]];
      try done; [lia|unfold MAX_REF, urange in *; lia|by apply byte_ref_code_long| |].
    + left. exists [c; b; o], l', B. by split.
    + right. exists e. rewrite <- He. rewrite <- !app_assoc. f_equal. rewrite !length_app. simpl. lia.
  - assert (1 <= c / 32 < 7) by (Z.div_mod_to_equations; lia).
    destruct (ref_or_error (A ++ [c]) c b [c; b] R out_len (zlen l) (c / 32)
      (zlen l - c mod 32 * 256 - 1) l out (c / 32 + 2)) as [(l' & B & E & ?)|[e He]];
      try done; [unfold MAX_REF; lia|by apply byte_ref_code| |].
    + left. exists [c; b], l', B. by split.
    + right. exists e. rewrite <- He. rewrite <- !app_assoc. f_equal. rewrite !length_app. simpl. lia.
Qed.

Lemma token_or_error A R out_len (l out : list Z) : bytes_ok R -> R <> [] ->
  (exists t l' B, R = t ++ B /\ lzf_token t l l' /\ zlen l' <= out_len) \/
  exists e, decompress_body (A ++ R) out_len (mk_unlzf (zlen A) (zlen l) out) = Some (inr (inr e)).
Proof.
  destruct R as [|c R]; [done|]. intros HR _. unfold decompress_body. rewrite (zget_app A c R) by done. bind_simpl.
  change (Z.shiftl 1 5) with 32. case_bool_decide as Hc.
  - destruct (literal_or_error A c R out_len l out HR Hc) as [|[e ->]]; [by left|right; by exists e].
  - destruct (back_or_error A c R out_len l out HR ltac:(lia)) as [|[e ->]]; [by left|right; by exists e].
Qed.

(** The state of the loop: what is read is a code of what is written. *)
Definition decoding (m out : list Z) (s : unlzf) : Prop :=
  exists A R l, m = A ++ R /\ R <> [] /\ codes A l /\ zlen l <= zlen out /\
    s = mk_unlzf (zlen A) (zlen l) (l ++ drop (length l) out).

Definition decoded (m out : list Z) (r : unlzf + lzf_error) : Prop :=
  match r with
  | inl s => exists l, codes m l /\ zlen l <= zlen out /\ s = mk_unlzf (zlen m) (zlen l) (l ++ drop (length l) out)
  | inr e => True
  end.

Lemma after_token_state A t B (l l' out : list Z) : lzf_token t l l' ->
  after_token A t B l' (drop (length l) out) l = mk_unlzf (zlen (A ++ t)) (zlen l') (l' ++ drop (length l') out).
Proof.
  intros [H _]%token_step_grows. unfold after_token. rewrite length_app, drop_drop. f_equal; [lia|].
  do 2 f_equal. lia.
Qed.

Lemma decoding_step A t B (l l' out : list Z) : codes A l -> lzf_token t l l' -> zlen l' <= zlen out ->
  decompress_body (A ++ t ++ B) (zlen out) (mk_unlzf (zlen A) (zlen l) (l ++ drop (length l) out)) =
    let s := mk_unlzf (zlen (A ++ t)) (zlen l') (l' ++ drop (length l') out) in
    Some (if bool_decide (B = []) then inr (inl s) else inl s).
Proof.
  intros HA Ht Hfit. pose proof (token_step_grows _ _ _ Ht) as [Hg _].
  rewrite (decompress_token A t B (zlen out) l l'); [|done|by eapply codes_ok|rewrite length_app, length_drop; lia|done].
  by rewrite after_token_state.
Qed.

(** Memory safety and correctness on any bytes: the blocks are not left, and
    what is accepted is a code. *)
Lemma lzf_decompress_any (m out : list Z) : bytes_ok m -> m <> [] ->
  exists r, lzf_decompress m (zlen out) out = Some r /\ decoded m out r.
Proof.
  intros Hm Hne. unfold lzf_decompress.
  apply (loop_some (decoding m out) (fun s => Z.to_nat (zlen m - d_ip s))).
  - intros s (A & R & l & -> & HR & HA & Hl & ->). apply Forall_app in Hm as [_ HRb].
    destruct (token_or_error A R (zlen out) l (l ++ drop (length l) out) HRb HR) as [(t & l' & B & -> & Ht & Hfit)|[e ->]];
      [|by exists (inr e)].
    rewrite (decoding_step A t B l l') by done. pose proof (codes_snoc _ _ _ _ HA Ht) as Hc.
    pose proof (token_step_grows _ _ _ Ht) as [_ Ht0]. simpl. case_bool_decide as HB; simpl.
    + eexists; split; [done|]. rewrite HB, app_nil_r. by exists l'.
    + split.
      * exists (A ++ t), B, l'. split_and!; try done. by rewrite app_assoc.
      * rewrite !length_app. assert (length B <> O) by by destruct B. lia.
  - exists [], m, []. split_and!; [done|done|constructor|simpl; lia|done].
  - simpl. lia.
Qed.

(** ** Codes *)

Lemma decompress_prefix e l : codes e l -> forall B out, B <> [] -> zlen l <= zlen out ->
  exists k, (k <= length e)%nat /\ forall fuel,
    loop (k + fuel) (fun s => as_step (decompress_body (e ++ B) (zlen out) s)) (mk_unlzf 0 0 out) =
    loop fuel (fun s => as_step (decompress_body (e ++ B) (zlen out) s))
      (mk_unlzf (zlen e) (zlen l) (l ++ drop (length l) out)).
Proof.
  induction 1 as [|e l t l' He IH Ht]; intros B out HB Hl; [by exists O|].
  pose proof (token_step_grows _ _ _ Ht) as [Hg Ht0].
  destruct (IH (t ++ B) out) as (k & Hk & Hrun); [by destruct t|lia|].
  exists (S k). rewrite length_app. split; [lia|]. intros fuel. rewrite <- app_assoc.
  replace (S k + fuel)%nat with (k + S fuel)%nat by lia. rewrite Hrun, loop_S.
  rewrite (decoding_step e t B l l') by done. simpl. by rewrite bool_decide_false, length_app.
Qed.

(** A code is turned into its text. *)
Lemma lzf_decompress_codes e l out : codes e l -> l <> [] -> zlen l <= zlen out ->
  lzf_decompress e (zlen out) out = Some (inl (mk_unlzf (zlen e) (zlen l) (l ++ drop (length l) out))).
Proof.
  intros He Hl Hfit. destruct He as [|e l t l' He Ht]; [done|].
  pose proof (token_step_grows _ _ _ Ht) as [Hg Ht0].
  destruct (decompress_prefix e l He t out) as (k & Hk & Hrun); [intros ->; simpl in Ht0; lia|lia|].
  unfold lzf_decompress. rewrite length_app. replace (S (length e + length t)) with (k + S (length e - k + length t))%nat by lia.
  rewrite Hrun, loop_S. pose proof (decoding_step e t [] l l' out He Ht Hfit) as Hs. rewrite app_nil_r in Hs. rewrite Hs. simpl.
  by rewrite length_app.
Qed.

(** ** Matches *)

Definition matches (m : list Z) (ref ip n : Z) : Prop :=
  forall i, 0 <= i < n -> m !! Z.to_nat (ref + i) = m !! Z.to_nat (ip + i).

Lemma matches_extend m ref ip n x : 0 <= n -> matches m ref ip n -> m !! Z.to_nat (ref + n) = Some x ->
  m !! Z.to_nat (ip + n) = Some x -> matches m ref ip (n + 1).
Proof. intros Hn H H1 H2 i Hi. destruct (decide (i = n)) as [->|]; [congruence|apply H; lia]. Qed.

Lemma matches_le m ref ip n n' : n' <= n -> matches m ref ip n -> matches m ref ip n'.
Proof. intros ? H i ?. apply H. lia. Qed.

Lemma scan_eq_spec (k : nat) m ref ip len : 0 <= ref < ip -> 0 <= len -> matches m ref ip (len + 1) ->
  ip + len + Z.of_nat k < zlen m ->
  exists len' broke, scan_eq k ref ip len m = Some (len', broke) /\
    if (broke : bool) then len < len' <= len + Z.of_nat k /\ matches m ref ip len'
    else len' = len + Z.of_nat k /\ matches m ref ip (len' + 1).
Proof.
  intros Href. revert len. induction k as [|k IH]; intros len Hlen Hm Hk; cbn [scan_eq].
  { exists len, false. split_and!; [done|lia|done]. }
  destruct (zget_inside (ref + (len + 1)) m ltac:(lia)) as (a & Ha & ->).
  destruct (zget_inside (ip + (len + 1)) m ltac:(lia)) as (b & Hb & ->). bind_simpl. case_bool_decide as Hab.
  - exists (len + 1), true. split_and!; [done|lia..|done].
  - subst b. destruct (IH (len + 1)) as (len' & broke & -> & H); [lia|by eapply matches_extend; eauto; lia|lia|].
    exists len', broke. split; [done|]. destruct broke; (split; [lia|]); apply H.
Qed.

Lemma match_loop_spec m ref ip maxlen len : 0 <= ref < ip -> 2 <= len -> matches m ref ip (len + 1) ->
  len + 1 <= MAX_REF -> ip + len + 1 <= zlen m -> maxlen <= MAX_REF -> ip + maxlen <= zlen m ->
  exists n, mjoin (loop (S (length m)) (fun len =>
    let len := len + 1 in
    as_step (if bool_decide (len < maxlen)
             then a ← zget (ref + len) m; b ← zget (ip + len) m;
                  Some (if bool_decide (a = b) then inl len else inr len)
             else Some (inr len))) len) = Some n /\
    (3 <= n <= MAX_REF /\ ip + n <= zlen m /\ matches m ref ip n).
Proof.
  intros Href H2 Hm H1 Hl Hmax Hip.
  apply (loop_some (fun len => 2 <= len /\ matches m ref ip (len + 1) /\ len + 1 <= MAX_REF /\ ip + len + 1 <= zlen m)
    (fun len => Z.to_nat (zlen m - len))).
  - clear H2 Hm H1 Hl len. intros len (H2 & Hm & H1 & Hl). cbv zeta. case_bool_decide as Hc; simpl; [|eexists; split; [done|]; split_and!; try done; lia].
    destruct (zget_inside (ref + (len + 1)) m ltac:(lia)) as (a & Ha & ->).
    destruct (zget_inside (ip + (len + 1)) m ltac:(lia)) as (b & Hb & ->). simpl. case_bool_decide as Hab; simpl.
    + subst b. split_and!; try lia. eapply matches_extend; eauto; lia.
    + eexists; split; [done|]. split_and!; try done; lia.
  - done.
  - lia.
Qed.

Lemma match_length_spec m ref ip maxlen : 0 <= ref < ip -> matches m ref ip 3 -> 3 <= maxlen <= MAX_REF ->
  ip + 2 + maxlen <= zlen m ->
  exists n, match_length ref ip maxlen m = Some n /\ 3 <= n <= MAX_REF /\ ip + n <= zlen m /\ matches m ref ip n.
Proof.
  unfold match_length. intros Href Hm Hmax Hip. case_bool_decide as H16.
  - destruct (scan_eq_spec 16 m ref ip 2) as (len & broke & -> & H); try done; try lia. bind_simpl. destruct broke.
    + exists len. unfold MAX_REF. destruct H as [? H]. split_and!; try done; lia.
    + destruct H as [-> H]. apply match_loop_spec; try done; unfold MAX_REF in *; lia.
  - bind_simpl. apply match_loop_spec; try done; unfold MAX_REF in *; lia.
Qed.

(** What the condition of a match tells, whatever the slot held. *)
Lemma found_match_spec m ip ref base : MAX_OFF <= base -> base + zlen m < 2 ^ 64 -> 0 <= ref + base < 2 ^ 64 ->
  0 <= ip -> ip + 2 < zlen m ->
  exists b, found_match m ip ref = Some b /\
    (b = true -> 0 < ref < ip /\ ip - ref - 1 < MAX_OFF /\ uwrap 64 (ip - ref - 1) = ip - ref - 1 /\
      ip + 4 < zlen m /\ matches m ref ip 3).
Proof.
  intros Hbase Hend Href Hip Hip2. unfold found_match, in_end. case_bool_decide as Hc; [|by exists false].
  destruct Hc as (Hoff & Hip4 & Hpos).
  assert (uwrap 64 (ip - ref - 1) = ip - ref - 1 /\ ref < ip) as [Hw Hlt].
  { unfold uwrap, MAX_OFF in *. destruct (decide (ref < ip)); [split; [apply Z.mod_small; lia|done]|].
    rewrite <- (Z.mod_unique_pos (ip - ref - 1) (2 ^ 64) (-1) (ip - ref - 1 + 2 ^ 64)) in Hoff; lia. }
  rewrite Hw in *. unfold zread. rewrite !bool_decide_true by lia. bind_simpl.
  destruct (zget_inside (ref + 2) m ltac:(lia)) as (a & Ha & Ha').
  destruct (zget_inside (ip + 2) m ltac:(lia)) as (b & Hb & Hb').
  case_bool_decide as Hr; [|by exists false]. rewrite Ha', Hb'. bind_simpl. eexists. split; [done|].
  intros ->%bool_decide_eq_true. split_and!; try done; try lia. intros i Hi. unfold mem_read in Hr.
  destruct (decide (i = 2)) as [->|]; [congruence|].
  apply (f_equal (.!! Z.to_nat i)) in Hr. rewrite !lookup_take_lt, !lookup_drop in Hr by lia.
  replace (Z.to_nat (ref + i)) with (Z.to_nat ref + Z.to_nat i)%nat by lia. rewrite Hr. f_equal. lia.
Qed.

(** ** Compression *)

(** The output so far: the code [e] of a prefix of the input, a byte kept for
    the header of the current run, the run. *)
Definition compressing (m : list Z) (out_len : Z) (s : lzf) : Prop :=
  0 <= c_ip s <= zlen m /\ c_lit s < MAX_LIT /\ zlen (c_out s) = out_len + 1 /\
  exists e l lits h C, codes e l /\ l ++ lits = take (Z.to_nat (c_ip s)) m /\ c_lit s = zlen lits /\
    c_op s = zlen e + zlen lits + 1 /\ c_out s = e ++ h :: lits ++ C.

(** The hash table holds addresses. *)
Definition slots_ok (base : Z) (htab : gmap Z Z) : Prop := map_Forall (fun _ p => 0 <= p + base < 2 ^ 64) htab.

Lemma slots_insert base htab i p : slots_ok base htab -> 0 <= p + base < 2 ^ 64 -> slots_ok base (<[i := p]> htab).
Proof. intros. by apply map_Forall_insert_2. Qed.

Lemma htab_get_ok base junk htab i : slots_ok base htab -> 0 <= htab_get base junk htab i + base < 2 ^ 64.
Proof.
  intros H. unfold htab_get. destruct (htab !! i) as [p|] eqn:E; simpl; [by eapply H|].
  pose proof (uwrap_range 64 (junk i) ltac:(lia)) as Hr. unfold urange in Hr. lia.
Qed.

Lemma take_next (m : list Z) ip b : 0 <= ip -> m !! Z.to_nat ip = Some b ->
  take (Z.to_nat (ip + 1)) m = take (Z.to_nat ip) m ++ [b].
Proof. intros. replace (Z.to_nat (ip + 1)) with (S (Z.to_nat ip)) by lia. by apply take_S_r. Qed.

(** One literal: the state is kept, [op] advances by one, or by two when the
    run is full. *)
Lemma copy_literal_spec m out_len s : bytes_ok m -> compressing m out_len s -> c_ip s < zlen m ->
  c_op s + (if bool_decide (c_lit s = 31) then 1 else 0) <= out_len ->
  exists s', copy_literal m s = Some s' /\ compressing m out_len s' /\ c_ip s' = c_ip s + 1 /\ c_htab s' = c_htab s /\
    (if bool_decide (c_lit s = 31) then c_op s' = c_op s + 2 /\ c_lit s' = 0
     else c_op s' = c_op s + 1 /\ c_lit s' = c_lit s + 1).
Proof.
  intros Hm (Hip & Hlit & Hlen & e & l & lits & h & C & He & Hl & Hn & Hop & Hout) Hlt Hfit.
  destruct s as [ip op lit hval htab out]. unfold MAX_LIT in *. cbn in *. subst op lit out. unfold MAX_LIT.
  destruct (zget_inside ip m ltac:(lia)) as (b & Hb & ->). bind_simpl.
  assert (is_byte b) as Hbb by (rewrite Forall_lookup in Hm; eauto).
  assert (bytes_ok (lits ++ [b])) as Hlb.
  { apply Forall_app. split; [|by constructor]. apply (Forall_take _ (Z.to_nat ip)) in Hm. rewrite <- Hl in Hm.
    by apply Forall_app in Hm as [_ ?]. }
  rewrite length_app in Hlen. simpl in Hlen. rewrite length_app in Hlen.
  destruct (zlen_cons_inv C) as (c & C' & ->); [case_bool_decide; lia|]. simpl in Hlen.
  replace (e ++ h :: lits ++ c :: C') with ((e ++ h :: lits) ++ c :: C') by (by rewrite <- app_assoc).
  rewrite (zput_app _ c b C') by (try done; rewrite length_app; simpl; lia). bind_simpl.
  pose proof (take_next m ip b ltac:(lia) Hb) as Ht. rewrite <- Hl in Ht.
  case_bool_decide as Hfull; [rewrite bool_decide_true in * by lia|rewrite bool_decide_false in * by lia].
  - destruct (zlen_cons_inv C') as (h' & C & ->); [lia|].
    replace ((e ++ h :: lits) ++ b :: h' :: C) with (e ++ h :: (lits ++ [b]) ++ h' :: C) by (by rewrite <- !app_assoc).
    replace (zlen lits + 1 - 1) with (zlen lits) by lia.
    rewrite (zput_app e h (zlen lits)); [|lia|unfold urange; lia].
    bind_simpl. eexists. split; [done|]. cbn. split_and!; try done; try lia. unfold compressing. cbn.
    split_and!; try done; try lia; [simpl in Hlen; rewrite !length_app; simpl; rewrite !length_app; simpl; lia|].
    exists (e ++ zlen lits :: lits ++ [b]), (l ++ lits ++ [b]), [], h', C. split_and!.
    + eapply codes_snoc; [done|]. replace (zlen lits) with (zlen (lits ++ [b]) - 1) by (rewrite length_app; simpl; lia).
      apply step_literal; [done|]. rewrite length_app. unfold MAX_LIT. simpl. lia.
    + by rewrite app_nil_r, Ht, app_assoc.
    + done.
    + rewrite !length_app. simpl. rewrite length_app. simpl. lia.
    + rewrite <- !app_assoc. simpl. by rewrite <- !app_assoc.
  - eexists. split; [done|]. cbn. split_and!; try done; try lia. unfold compressing, MAX_LIT. cbn.
    split_and!; try done; try lia; [rewrite !length_app; simpl; lia|].
    exists e, l, (lits ++ [b]), h, C'. split_and!; try done.
    + by rewrite Ht, app_assoc.
    + rewrite length_app. simpl. lia.
    + rewrite length_app. simpl. lia.
    + by rewrite <- !app_assoc.
Qed.

(** The end of a run: what is written is a code of the input read. *)
Lemma stop_run_spec m out_len s : bytes_ok m -> compressing m out_len s ->
  exists e C, stop_run (c_op s) (c_lit s) (c_out s) = Some (zlen e, e ++ C) /\ codes e (take (Z.to_nat (c_ip s)) m) /\
    zlen e = (if bool_decide (c_lit s = 0) then c_op s - 1 else c_op s) /\ zlen (e ++ C) = out_len + 1.
Proof.
  intros Hm (Hip & Hlit & Hlen & e & l & lits & h & C & He & Hl & Hn & Hop & Hout).
  unfold stop_run. rewrite Hn, Hop, Hout in *. unfold MAX_LIT in Hlit.
  rewrite (zput_any e h (zlen lits - 1)) by lia. bind_simpl. case_bool_decide as H0.
  - destruct lits; [|simpl in H0; lia]. exists e, (uwrap 8 (-1) :: C). rewrite app_nil_r in Hl. rewrite <- Hl. simpl in *.
    split_and!; [by do 3 f_equal; lia|done|lia|]. rewrite length_app in *. simpl in *. lia.
  - exists (e ++ (zlen lits - 1) :: lits), C. rewrite <- Hl. rewrite length_app in Hlen. simpl in Hlen. rewrite length_app in Hlen.
    split_and!.
    + rewrite uwrap_small by (unfold urange; lia). rewrite <- app_assoc. rewrite length_app. simpl. do 2 f_equal. lia.
    + eapply codes_snoc; [done|]. apply step_literal; [|unfold MAX_LIT; lia].
      apply (Forall_take _ (Z.to_nat (c_ip s))) in Hm. rewrite <- Hl in Hm. by apply Forall_app in Hm as [_ ?].
    + rewrite length_app. simpl. lia.
    + rewrite !length_app. simpl. rewrite ?length_app. lia.
Qed.

Lemma put_ref_spec e C off n : 0 <= off < MAX_OFF -> 3 <= n <= MAX_REF -> 3 <= zlen C ->
  put_ref (zlen e) off (n - 2) (e ++ C) =
    Some (zlen (e ++ ref_code off n), (e ++ ref_code off n) ++ drop (length (ref_code off n)) C).
Proof.
  unfold MAX_OFF, MAX_REF. intros Hoff Hn HC.
  destruct (zlen_cons_inv C) as (c1 & C1 & ->); [lia|]. destruct (zlen_cons_inv C1) as (c2 & C2 & ->); [simpl in HC; lia|].
  destruct (zlen_cons_inv C2) as (c3 & C3 & ->); [simpl in HC; lia|].
  assert (0 <= off / 256 < 32) by (split; [apply Z.div_pos; lia|apply Z.div_lt_upper_bound; lia]).
  unfold put_ref, ref_code. rewrite shiftr8, Z.shiftl_mul_pow2 by done. change (2 ^ 5) with 32. change (Z.shiftl 7 5) with 224.
  case_bool_decide as Hs.
  - rewrite (zput_app e c1) by (unfold urange; lia). bind_simpl. rewrite (cons_middle _ e), app_assoc.
    rewrite (zput_any (e ++ [_]) c2) by (rewrite length_app; simpl; lia). bind_simpl.
    rewrite length_app. simpl. rewrite <- !app_assoc. do 2 f_equal. lia.
  - rewrite (zput_app e c1) by (unfold urange; lia). bind_simpl. rewrite (cons_middle _ e), app_assoc.
    rewrite (zput_app (e ++ [_]) c2) by (rewrite ?length_app; unfold urange; simpl; lia). bind_simpl.
    rewrite (cons_middle _ (e ++ _)), app_assoc.
    rewrite (zput_any ((e ++ [_]) ++ [_]) c3) by (rewrite !length_app; simpl; lia). bind_simpl.
    rewrite length_app. simpl. rewrite <- !app_assoc. do 2 f_equal; [lia|]. simpl. by replace (n - 2 - 7) with (n - 9) by lia.
Qed.

(** The code is never much longer than the input: a full run costs one byte
    for 32, a back reference pays for its run. *)
Definition tight (s : lzf) : Prop := 32 * (c_op s - c_lit s - 1) <= 33 * (c_ip s - c_lit s).

(** The size below which the input may not fit. *)
Definition too_small (m : list Z) (out_len : Z) : Prop := 32 * out_len <= 33 * zlen m + 160.

Lemma ref_code_size off n : 3 <= n -> 2 <= zlen (ref_code off n) <= 3 /\ zlen (ref_code off n) + 1 <= n.
Proof. intros. unfold ref_code. case_bool_decide; simpl; lia. Qed.

Lemma rehash_end_spec base m ip htab : slots_ok base htab -> 0 <= base -> base + zlen m < 2 ^ 64 -> 2 <= ip -> ip + 2 < zlen m ->
  exists hval htab', rehash_end m ip htab = Some (ip, hval, htab') /\ slots_ok base htab'.
Proof.
  intros Hs Hb Hend Hip Hip2. unfold rehash_end, lzf_FRST, lzf_NEXT.
  destruct (zget_inside (ip - 1 - 1) m ltac:(lia)) as (x0 & _ & ->).
  destruct (zget_inside (ip - 1 - 1 + 1) m ltac:(lia)) as (x1 & _ & ->).
  destruct (zget_inside (ip - 1 - 1 + 2) m ltac:(lia)) as (x2 & _ & ->). bind_simpl.
  destruct (zget_inside (ip - 1 - 1 + 1 + 2) m ltac:(lia)) as (x3 & _ & ->). bind_simpl.
  do 2 eexists. split; [do 3 f_equal; lia|]. apply slots_insert; [apply slots_insert; [done|lia]|lia].
Qed.

Section Compression.
Context (base : Z) (junk : Z -> Z) (m : list Z) (out_len : Z).
Hypothesis Hm : bytes_ok m.
Hypothesis Hbase : MAX_OFF <= base.
Hypothesis Hend : base + zlen m < 2 ^ 64.
Hypothesis Hlen : zlen m < 2 ^ 32.

Definition main_inv (s : lzf) : Prop := compressing m out_len s /\ slots_ok base (c_htab s) /\ tight s.

Definition main_post (s : lzf) (r : lzf + option lzf) : Prop :=
  match r with
  | inl s' => main_inv s' /\ c_ip s < c_ip s'
  | inr None => too_small m out_len
  | inr (Some s') => main_inv s' /\ zlen m - 2 <= c_ip s'
  end.

Lemma emit_match_spec ref s : main_inv s -> c_ip s + 4 < zlen m -> 0 < ref < c_ip s ->
  c_ip s - ref - 1 < MAX_OFF -> uwrap 64 (c_ip s - ref - 1) = c_ip s - ref - 1 -> matches m ref (c_ip s) 3 ->
  exists r, emit_match m out_len ref s = Some r /\ main_post s r.
Proof using Hm Hbase Hend Hlen.
  intros (Hc & Hs & Ht) Hip4 Href Hoff Hw Hmat. pose proof Hc as ((Hip & _) & _).
  assert (0 <= c_lit s) as Hlit0 by (destruct Hc as (_ & _ & _ & e & l & lits & h & C & _ & _ & -> & _); lia).
  destruct (stop_run_spec m out_len s Hm Hc) as (e & C & Hstop & He & Hn & HC).
  destruct s as [ip op lit hval htab out]. cbn in *. unfold in_end. rewrite Hw, Hstop. bind_simpl. unfold tight in Ht. cbn in Ht.
  assert (zlen e <= op /\ zlen e <= op - lit - 1 + (if bool_decide (lit = 0) then 0 else lit + 1)) as [Hop Hop'] by (case_bool_decide; lia).
  clear Hn. assert (32 * zlen e <= 33 * (ip - lit) + 32 * (lit + 1)) as Hen by (case_bool_decide; lia). clear Hop'.
  case_bool_decide as Hroom; [eexists; split; [done|]; unfold main_post, too_small; lia|].
  rewrite (uwrap_small 32) by (unfold urange; lia).
  destruct (match_length_spec m ref ip (if bool_decide (zlen m - ip - 2 > MAX_REF) then MAX_REF else zlen m - ip - 2))
    as (n & -> & Hn3 & Hnip & Hmn); [lia|done|case_bool_decide; unfold MAX_REF in *; lia..|]. bind_simpl.
  rewrite length_app in HC. rewrite put_ref_spec by lia. bind_simpl. replace (ip + 1 + (n - 2) + 1) with (ip + n) by lia.
  pose proof (ref_code_size (ip - ref - 1) n ltac:(lia)) as [Hrc Hrc1].
  set (rc := ref_code (ip - ref - 1) n) in *.
  assert (codes (e ++ rc) (take (Z.to_nat (ip + n)) m)) as Hcodes.
  { eapply codes_snoc; [done|]. replace n with (Z.of_nat (Z.to_nat n)) at 1 by lia.
    rewrite <- (expand_match m (Z.to_nat n) ip (ip - ref - 1)); [|lia..|].
    - apply step_ref; [lia|rewrite length_take; lia|lia].
    - intros i Hi. replace (ip - 1 - (ip - ref - 1) + i) with (ref + i) by lia. apply Hmn. lia. }
  destruct (zlen_cons_inv (drop (length rc) C)) as (h & C' & Hdrop); [rewrite length_drop; lia|].
  assert (forall hval' htab', compressing m out_len (mk_lzf (ip + n) (zlen (e ++ rc) + 1) 0 hval' htab' ((e ++ rc) ++ drop (length rc) C))) as Hcomp.
  { intros. unfold compressing, MAX_LIT. cbn. split_and!; [lia..|rewrite !length_app, length_drop; lia|].
    exists (e ++ rc), (take (Z.to_nat (ip + n)) m), [], h, C'. rewrite app_nil_r. split_and!; try done; [simpl; lia|].
    by rewrite Hdrop. }
  assert (forall hval' htab', tight (mk_lzf (ip + n) (zlen (e ++ rc) + 1) 0 hval' htab' ((e ++ rc) ++ drop (length rc) C))) as Htight.
  { intros. unfold tight. cbn. rewrite length_app. lia. }
  case_bool_decide as Hstop2.
  - eexists. split; [done|]. cbn. split; [done|]. cbn. lia.
  - destruct (rehash_end_spec base m (ip + n) htab) as (hval' & htab' & -> & Hs'); try done; unfold MAX_OFF in *; try lia.
    bind_simpl. eexists. split; [done|]. cbn. split; [done|]. lia.
Qed.

Lemma compress_body_spec s : main_inv s -> exists r, compress_body base junk m out_len s = Some r /\ main_post s r.
Proof using Hm Hbase Hend Hlen.
  intros Hinv. pose proof Hinv as (Hc & Hs & Ht). pose proof Hc as ((Hip0 & Hip) & Hlit & _).
  assert (0 <= c_lit s) as Hlit0 by (destruct Hc as (_ & _ & _ & e & l & lits & h & C & _ & _ & -> & _); lia).
  destruct s as [ip op lit hval htab out]. cbn [c_ip c_op c_lit c_hval c_htab c_out] in *. unfold compress_body, in_end.
  case_bool_decide as Hgo; [|eexists; split; [done|]; cbn; split; [done|lia]].
  unfold lzf_NEXT. destruct (zget_inside (ip + 2) m ltac:(lia)) as (x & _ & ->). bind_rw. bind_rw.
  set (h' := Z.lor (uwrap 32 (hval ≪ 8)) x).
  assert (slots_ok base (<[lzf_IDX h' := ip]> htab)) as Hs' by (apply slots_insert; [done|unfold MAX_OFF in *; lia]).
  destruct (found_match_spec m ip (htab_get base junk htab (lzf_IDX h')) base) as (b & -> & Hb); try done; try lia;
    [by apply htab_get_ok|]. bind_rw. destruct b.
  - destruct (Hb eq_refl) as (Href & Hoff & Hw & Hip4 & Hmat).
    apply (emit_match_spec _ (mk_lzf ip op lit h' (<[lzf_IDX h':=ip]> htab) out)); done.
  - unfold tight in Ht. cbn in Ht. case_bool_decide as Hroom; [eexists; split; [done|]; unfold main_post, too_small; lia|].
    destruct (copy_literal_spec m out_len (mk_lzf ip op lit h' (<[lzf_IDX h':=ip]> htab) out)) as (s' & -> & Hc' & Hip' & Hh & Hs2);
      [done|done|cbn; lia|cbn; case_bool_decide; lia|]. bind_rw. eexists. split; [done|]. cbn in *.
    split; [|lia]. split; [done|]. rewrite Hh. split; [done|]. unfold tight.
    revert Hs2. case_bool_decide; intros [-> ->]; lia.
Qed.

(** The tail needs three bytes of room: two literals and the header of a run. *)
Lemma lzf_tail_spec s : main_inv s -> zlen m - 2 <= c_ip s ->
  exists n out, lzf_tail m out_len s = Some (n, out) /\ zlen out = out_len + 1 /\ 0 <= n <= out_len /\
    ((n = 0 /\ too_small m out_len) \/ codes (take (Z.to_nat n) out) m).
Proof using Hm.
  intros (Hc & _ & Ht) Hip. unfold lzf_tail.
  assert (zlen (c_out s) = out_len + 1) as Hlo by apply Hc.
  assert (0 <= c_lit s) as Hlit0 by (destruct Hc as (_ & _ & _ & e & l & lits & h & C & _ & _ & -> & _); lia).
  assert (0 < c_op s <= out_len + 1) as Hop.
  { destruct Hc as (_ & _ & Hl & e & l & lits & h & C & _ & _ & _ & -> & Ho). rewrite Ho, !length_app in Hl. simpl in Hl.
    rewrite length_app in Hl. lia. }
  case_bool_decide as Hroom.
  { exists 0, (c_out s). split_and!; try done; try lia. left. split; [done|]. unfold too_small, tight in *. destruct Hc as ((?&?)&_). lia. }
  destruct (loop_some (fun s => compressing m out_len s /\ zlen m - 2 <= c_ip s /\ 0 <= c_lit s /\
      c_op s + (zlen m - c_ip s) + (if bool_decide (32 - c_lit s <= zlen m - c_ip s) then 1 else 0) <= out_len)
    (fun s => Z.to_nat (zlen m - c_ip s)) (fun s => compressing m out_len s /\ c_ip s = zlen m /\ c_op s <= out_len)
    (fun s => as_step (tail_body m s)) (S (length m)) s) as (s' & -> & Hc' & Hip' & Hop').
  - clear -Hm. intros s (Hc & Hip & Hl0 & Hfit). pose proof Hc as ((Hi0 & Hi) & Hlit & _). unfold MAX_LIT in Hlit.
    unfold tail_body, in_end.
    destruct (decide (c_ip s < zlen m)) as [Hgo|Hgo].
    + rewrite (bool_decide_true (c_ip s < zlen m)) by done.
      destruct (copy_literal_spec m out_len s) as (s' & -> & Hc' & Hip' & _ & Hs); try done;
        [revert Hfit; repeat case_bool_decide; lia|].
      simpl. rewrite Hip'. destruct (bool_decide_reflect (c_lit s = 31)); destruct Hs as [-> ->];
        revert Hfit; repeat case_bool_decide; intros; (split; [split_and!; try done; lia|lia]).
    + rewrite (bool_decide_false (c_ip s < zlen m)) by done. simpl. eexists. split; [done|].
      revert Hfit. case_bool_decide; intros; split_and!; try done; lia.
  - revert Hroom. case_bool_decide; intros; split_and!; try done; lia.
  - destruct Hc as ((? & ?) & _). lia.
  - destruct (stop_run_spec m out_len s' Hm Hc') as (e & C & Hstop & He & Hn & HC). bind_rw. rewrite Hstop.
    exists (zlen e), (e ++ C). split_and!; [done|done|lia|case_bool_decide; lia|]. right.
    rewrite Nat2Z.id, take_app_length. by rewrite Hip', Nat2Z.id, firstn_all in He.
Qed.

(** [lzf_compress] stays inside the input and the [out_len + 1] bytes of the
    output, and ends with a code of the input, or with 0 when the output is
    too small. *)
Lemma lzf_compress_spec out : 2 <= zlen m -> 0 < out_len -> zlen out = out_len + 1 ->
  exists n out', lzf_compress base junk m out_len out = Some (n, out') /\ zlen out' = out_len + 1 /\ 0 <= n <= out_len /\
    ((n = 0 /\ too_small m out_len) \/ codes (take (Z.to_nat n) out') m).
Proof using Hm Hbase Hend Hlen.
  intros H2 Hout Hol. unfold lzf_compress, in_end. rewrite bool_decide_false by lia. unfold lzf_FRST.
  destruct (zget_inside 0 m ltac:(lia)) as (x & _ & ->). destruct (zget_inside (0 + 1) m ltac:(lia)) as (y & _ & ->). bind_rw. bind_rw. bind_rw.
  destruct (zlen_cons_inv out) as (h & C & ->); [lia|].
  destruct (loop_some main_inv (fun s => Z.to_nat (zlen m - c_ip s))
    (fun r => match r with None => too_small m out_len | Some s => main_inv s /\ zlen m - 2 <= c_ip s end)
    (fun s => as_step (compress_body base junk m out_len s)) (S (length m))
    (mk_lzf 0 1 0 (Z.lor (x ≪ 8) y) ∅ (h :: C))) as (r & -> & Hr).
  - intros s Hs. destruct (compress_body_spec s Hs) as (r & -> & Hr). destruct r as [s'|[s'|]]; simpl in *.
    + destruct Hr as [Hr ?]. split; [done|]. destruct Hr as (((?&?)&_)&_). lia.
    + by eexists.
    + by eexists.
  - split_and!; [|by intros ??|unfold tight; simpl; lia]. unfold compressing, MAX_LIT. cbn [c_ip c_op c_lit c_out].
    split_and!; try done; [lia|]. exists [], [], [], h, C. split_and!; try done. constructor.
  - simpl. lia.
  - bind_rw. destruct r as [s|].
    + destruct Hr. by apply lzf_tail_spec.
    + exists 0, (h :: C). split_and!; try done; [lia|]. by left.
Qed.
End Compression.

(** ** Properties *)

(** C33: Whatever the hash table of [lzf_compress] contains when the function
    starts, it stays inside the input and the [out_len + 1] bytes that its
    callers allocate and ends; when it returns a length, the decompressor gives
    the input back from that many bytes, and it returns one whenever the output
    is larger than the input by a 32nd and five bytes. *)
Theorem lzf_roundtrip (base : Z) (junk : Z -> Z) (m out dst : list Z) (out_len : Z) :
  bytes_ok m -> 2 <= zlen m < 2 ^ 32 -> MAX_OFF <= base -> base + zlen m < 2 ^ 64 ->
  0 < out_len -> zlen out = out_len + 1 -> zlen dst = zlen m ->
  exists n out', lzf_compress base junk m out_len out = Some (n, out') /\ 0 <= n <= out_len /\
    (32 * out_len > 33 * zlen m + 160 -> 0 < n) /\
    (0 < n -> lzf_decompress (take (Z.to_nat n) out') (zlen m) dst = Some (inl (mk_unlzf n (zlen m) m))).
Proof.
  intros Hm Hlen Hbase Hend Hout Hol Hdst.
  destruct (lzf_compress_spec base junk m out_len Hm Hbase Hend ltac:(lia) out ltac:(lia) Hout Hol) as (n & out' & Hrun & Hol' & Hn & Hres).
  exists n, out'. split_and!; try done; [lia|lia| |].
  - unfold too_small in Hres. intros Hroom. destruct Hres as [[_ ?]|Hc]; [lia|].
    apply codes_nonempty in Hc; [|intros ->; simpl in Hlen; lia]. assert (n <> 0); [|lia]. by intros ->.
  - intros Hpos. destruct Hres as [[-> _]|Hc]; [lia|].
    rewrite <- Hdst. rewrite (lzf_decompress_codes _ m); [|done|intros ->; simpl in Hlen; lia|lia].
    rewrite length_take, Hdst, drop_ge, app_nil_r by lia. do 3 f_equal. lia.
Qed.

Lemma lzf_roundtrip_witness : exists n out',
  lzf_compress 8192 (fun i => i * 77777 + 4200) LzfExamples.text 71 (repeat 0 72) = Some (n, out') /\ n = 15 /\
  lzf_decompress (take (Z.to_nat n) out') 75 (repeat 0 75) = Some (inl (mk_unlzf n 75 LzfExamples.text)).
Proof.
  destruct (lzf_roundtrip 8192 (fun i => i * 77777 + 4200) LzfExamples.text (repeat 0 72) (repeat 0 75) 71)
    as (n & out' & H & Hn & _ & Hd);
    [by apply (bool_decide_unpack _); vm_compute|by vm_compute; split|by vm_compute..|].
  assert (fst <$> Some (n, out') = Some 15) as E by (rewrite <- H; vm_compute; reflexivity). injection E as ->.
  exists 15, out'. split; [exact H|]. split; [done|]. apply Hd. done.
Defined.

(** C34: On any bytes, even corrupted ones, [lzf_decompress] ends without
    leaving its two blocks, and it decides exactly whether the bytes are the
    code of a text that fits: then the text is at the start of the output and
    the rest of the output is untouched; otherwise it reports an error. *)
Theorem lzf_decompress_exact (m dst : list Z) : bytes_ok m -> m <> [] ->
  exists r, lzf_decompress m (zlen dst) dst = Some r /\
    match r with
    | inl s => exists l, codes m l /\ zlen l <= zlen dst /\ s = mk_unlzf (zlen m) (zlen l) (l ++ drop (length l) dst)
    | inr _ => forall l, codes m l -> zlen dst < zlen l
    end.
Proof.
  intros Hm Hne. destruct (lzf_decompress_any m dst Hm Hne) as (r & Hrun & Hr). exists r. split; [done|].
  destruct r as [s|e]; [done|]. intros l Hc. destruct (decide (zlen dst < zlen l)); [done|].
  rewrite (lzf_decompress_codes m l) in Hrun; [done|done| |lia].
  intros ->. apply Hne. inversion Hc as [|e0 l0 t l' _ Ht]; [done|]. apply token_step_grows in Ht as [? _]. simpl in *. lia.
Qed.

Lemma lzf_decompress_exact_witness : exists r, lzf_decompress [1; 65; 66; 32; 200] 8 (repeat 0 8) = Some (inr r).
Proof.
  destruct (lzf_decompress_exact [1; 65; 66; 32; 200] (repeat 0 8)) as (r & Hrun & Hr);
    [by apply (bool_decide_unpack _); vm_compute|done|].
  change (zlen (repeat 0 8)) with 8 in Hrun. rewrite Hrun. destruct r as [s|e]; [|by exists e].
  exfalso. revert Hrun. vm_compute. discriminate.
Defined.
