(* ===== verification/Crc64.v ===== *)
(** * The CRC64 checksum: [crc64.c]

    The table-driven function of the code, and the definition of the checksum
    it implements: the remainder, bit by bit, for the reflected polynomial that
    the comment of the file names. *)
From S2P Require Import Prelude.

(** ** The code *)

Definition crc64_tab : list Z :=
  [0x0000000000000000; 0x7ad870c830358979; 0xf5b0e190606b12f2;
   0x8f689158505e9b8b; 0xc038e5739841b68f; 0xbae095bba8743ff6;
   0x358804e3f82aa47d; 0x4f50742bc81f2d04; 0xab28ecb46814fe75;
   0xd1f09c7c5821770c; 0x5e980d24087fec87; 0x24407dec384a65fe;
   0x6b1009c7f05548fa; 0x11c8790fc060c183; 0x9ea0e857903e5a08;
   0xe478989fa00bd371; 0x7d08ff3b88be6f81; 0x07d08ff3b88be6f8;
   0x88b81eabe8d57d73; 0xf2606e63d8e0f40a; 0xbd301a4810ffd90e;
   0xc7e86a8020ca5077; 0x4880fbd87094cbfc; 0x32588b1040a14285;
   0xd620138fe0aa91f4; 0xacf86347d09f188d; 0x2390f21f80c18306;
   0x594882d7b0f40a7f; 0x1618f6fc78eb277b; 0x6cc0863448deae02;
   0xe3a8176c18803589; 0x997067a428b5bcf0; 0xfa11fe77117cdf02;
   0x80c98ebf2149567b; 0x0fa11fe77117cdf0; 0x75796f2f41224489;
   0x3a291b04893d698d; 0x40f16bccb908e0f4; 0xcf99fa94e9567b7f;
   0xb5418a5cd963f206; 0x513912c379682177; 0x2be1620b495da80e;
   0xa489f35319033385; 0xde51839b2936bafc; 0x9101f7b0e12997f8;
   0xebd98778d11c1e81; 0x64b116208142850a; 0x1e6966e8b1770c73;
   0x8719014c99c2b083; 0xfdc17184a9f739fa; 0x72a9e0dcf9a9a271;
   0x08719014c99c2b08; 0x4721e43f0183060c; 0x3df994f731b68f75;
   0xb29105af61e814fe; 0xc849756751dd9d87; 0x2c31edf8f1d64ef6;
   0x56e99d30c1e3c78f; 0xd9810c6891bd5c04; 0xa3597ca0a188d57d;
   0xec09088b6997f879; 0x96d1784359a27100; 0x19b9e91b09fcea8b;
   0x636199d339c963f2; 0xdf7adabd7a6e2d6f; 0xa5a2aa754a5ba416;
   0x2aca3b2d1a053f9d; 0x50124be52a30b6e4; 0x1f423fcee22f9be0;
   0x659a4f06d21a1299; 0xeaf2de5e82448912; 0x902aae96b271006b;
   0x74523609127ad31a; 0x0e8a46c1224f5a63; 0x81e2d7997211c1e8;
   0xfb3aa75142244891; 0xb46ad37a8a3b6595; 0xceb2a3b2ba0eecec;
   0x41da32eaea507767; 0x3b024222da65fe1e; 0xa2722586f2d042ee;
   0xd8aa554ec2e5cb97; 0x57c2c41692bb501c; 0x2d1ab4dea28ed965;
   0x624ac0f56a91f461; 0x1892b03d5aa47d18; 0x97fa21650afae693;
   0xed2251ad3acf6fea; 0x095ac9329ac4bc9b; 0x7382b9faaaf135e2;
   0xfcea28a2faafae69; 0x8632586aca9a2710; 0xc9622c4102850a14;
   0xb3ba5c8932b0836d; 0x3cd2cdd162ee18e6; 0x460abd1952db919f;
   0x256b24ca6b12f26d; 0x5fb354025b277b14; 0xd0dbc55a0b79e09f;
   0xaa03b5923b4c69e6; 0xe553c1b9f35344e2; 0x9f8bb171c366cd9b;
   0x10e3202993385610; 0x6a3b50e1a30ddf69; 0x8e43c87e03060c18;
   0xf49bb8b633338561; 0x7bf329ee636d1eea; 0x012b592653589793;
   0x4e7b2d0d9b47ba97; 0x34a35dc5ab7233ee; 0xbbcbcc9dfb2ca865;
   0xc113bc55cb19211c; 0x5863dbf1e3ac9dec; 0x22bbab39d3991495;
   0xadd33a6183c78f1e; 0xd70b4aa9b3f20667; 0x985b3e827bed2b63;
   0xe2834e4a4bd8a21a; 0x6debdf121b863991; 0x1733afda2bb3b0e8;
   0xf34b37458bb86399; 0x8993478dbb8deae0; 0x06fbd6d5ebd3716b;
   0x7c23a61ddbe6f812; 0x3373d23613f9d516; 0x49aba2fe23cc5c6f;
   0xc6c333a67392c7e4; 0xbc1b436e43a74e9d; 0x95ac9329ac4bc9b5;
   0xef74e3e19c7e40cc; 0x601c72b9cc20db47; 0x1ac40271fc15523e;
   0x5594765a340a7f3a; 0x2f4c0692043ff643; 0xa02497ca54616dc8;
   0xdafce7026454e4b1; 0x3e847f9dc45f37c0; 0x445c0f55f46abeb9;
   0xcb349e0da4342532; 0xb1eceec59401ac4b; 0xfebc9aee5c1e814f;
   0x8464ea266c2b0836; 0x0b0c7b7e3c7593bd; 0x71d40bb60c401ac4;
   0xe8a46c1224f5a634; 0x927c1cda14c02f4d; 0x1d148d82449eb4c6;
   0x67ccfd4a74ab3dbf; 0x289c8961bcb410bb; 0x5244f9a98c8199c2;
   0xdd2c68f1dcdf0249; 0xa7f41839ecea8b30; 0x438c80a64ce15841;
   0x3954f06e7cd4d138; 0xb63c61362c8a4ab3; 0xcce411fe1cbfc3ca;
   0x83b465d5d4a0eece; 0xf96c151de49567b7; 0x76048445b4cbfc3c;
   0x0cdcf48d84fe7545; 0x6fbd6d5ebd3716b7; 0x15651d968d029fce;
   0x9a0d8ccedd5c0445; 0xe0d5fc06ed698d3c; 0xaf85882d2576a038;
   0xd55df8e515432941; 0x5a3569bd451db2ca; 0x20ed197575283bb3;
   0xc49581ead523e8c2; 0xbe4df122e51661bb; 0x3125607ab548fa30;
   0x4bfd10b2857d7349; 0x04ad64994d625e4d; 0x7e7514517d57d734;
   0xf11d85092d094cbf; 0x8bc5f5c11d3cc5c6; 0x12b5926535897936;
   0x686de2ad05bcf04f; 0xe70573f555e26bc4; 0x9ddd033d65d7e2bd;
   0xd28d7716adc8cfb9; 0xa85507de9dfd46c0; 0x273d9686cda3dd4b;
   0x5de5e64efd965432; 0xb99d7ed15d9d8743; 0xc3450e196da80e3a;
   0x4c2d9f413df695b1; 0x36f5ef890dc31cc8; 0x79a59ba2c5dc31cc;
   0x037deb6af5e9b8b5; 0x8c157a32a5b7233e; 0xf6cd0afa9582aa47;
   0x4ad64994d625e4da; 0x300e395ce6106da3; 0xbf66a804b64ef628;
   0xc5bed8cc867b7f51; 0x8aeeace74e645255; 0xf036dc2f7e51db2c;
   0x7f5e4d772e0f40a7; 0x05863dbf1e3ac9de; 0xe1fea520be311aaf;
   0x9b26d5e88e0493d6; 0x144e44b0de5a085d; 0x6e963478ee6f8124;
   0x21c640532670ac20; 0x5b1e309b16452559; 0xd476a1c3461bbed2;
   0xaeaed10b762e37ab; 0x37deb6af5e9b8b5b; 0x4d06c6676eae0222;
   0xc26e573f3ef099a9; 0xb8b627f70ec510d0; 0xf7e653dcc6da3dd4;
   0x8d3e2314f6efb4ad; 0x0256b24ca6b12f26; 0x788ec2849684a65f;
   0x9cf65a1b368f752e; 0xe62e2ad306bafc57; 0x6946bb8b56e467dc;
   0x139ecb4366d1eea5; 0x5ccebf68aecec3a1; 0x2616cfa09efb4ad8;
   0xa97e5ef8cea5d153; 0xd3a62e30fe90582a; 0xb0c7b7e3c7593bd8;
   0xca1fc72bf76cb2a1; 0x45775673a732292a; 0x3faf26bb9707a053;
   0x70ff52905f188d57; 0x0a2722586f2d042e; 0x854fb3003f739fa5;
   0xff97c3c80f4616dc; 0x1bef5b57af4dc5ad; 0x61372b9f9f784cd4;
   0xee5fbac7cf26d75f; 0x9487ca0fff135e26; 0xdbd7be24370c7322;
   0xa10fceec0739fa5b; 0x2e675fb4576761d0; 0x54bf2f7c6752e8a9;
   0xcdcf48d84fe75459; 0xb71738107fd2dd20; 0x387fa9482f8c46ab;
   0x42a7d9801fb9cfd2; 0x0df7adabd7a6e2d6; 0x772fdd63e7936baf;
   0xf8474c3bb7cdf024; 0x829f3cf387f8795d; 0x66e7a46c27f3aa2c;
   0x1c3fd4a417c62355; 0x935745fc4798b8de; 0xe98f353477ad31a7;
   0xa6df411fbfb21ca3; 0xdc0731d78f8795da; 0x536fa08fdfd90e51;
   0x29b7d047efec8728].

(** One iteration of the loop; the index is a byte. *)
Definition crc64_byte (crc byte : Z) : option Z :=
  t ← crc64_tab !! Z.to_nat (Z.lxor (uwrap 8 crc) byte); Some (Z.lxor t (Z.shiftr crc 8)).

Fixpoint crc64 (crc : Z) (s : list Z) : option Z :=
  match s with
  | [] => Some crc
  | byte :: s => crc ← crc64_byte crc byte; crc64 crc s
  end.

(** ** The definition of the checksum *)

(** The polynomial 0xad93d23594c935a9, its bits in reverse order. *)
Definition poly : Z :=
  foldr (fun i acc => 2 * acc + Z.b2z (Z.testbit 0xad93d23594c935a9 (63 - Z.of_nat i))) 0 (seq 0 64).

(** One bit of the division, the low bit first. *)
Definition crc_bit (x : Z) : Z := Z.lxor (Z.shiftr x 1) (if Z.odd x then poly else 0).

Fixpoint crc_bits (n : nat) (x : Z) : Z :=
  match n with O => x | S n => crc_bit (crc_bits n x) end.

(** The remainder of a message: each byte is added to the register, whose bits
    are then divided out. *)
Definition crc_spec (crc : Z) (s : list Z) : Z := foldl (fun c b => crc_bits 8 (Z.lxor c b)) crc s.

(** ** The division is linear and loses nothing *)

Lemma crc_bit_lxor a b : crc_bit (Z.lxor a b) = Z.lxor (crc_bit a) (crc_bit b).
Proof.
  unfold crc_bit. rewrite Z.shiftr_lxor, <- !Z.bit0_odd, Z.lxor_spec.
  generalize (a ≫ 1), (b ≫ 1), poly. intros x y p.
  apply Z.bits_inj. intros n. destruct (Z.testbit a 0), (Z.testbit b 0); simpl; rewrite ?Z.lxor_spec, ?Z.bits_0;
    destruct (Z.testbit x n), (Z.testbit y n), (Z.testbit p n); done.
Qed.

Lemma crc_bits_lxor n a b : crc_bits n (Z.lxor a b) = Z.lxor (crc_bits n a) (crc_bits n b).
Proof. induction n as [|n IH]; [done|]. cbn [crc_bits]. by rewrite IH, crc_bit_lxor. Qed.

Lemma crc_bits_plus a b x : crc_bits (a + b) x = crc_bits a (crc_bits b x).
Proof. induction a as [|a IH]; [done|]. cbn [crc_bits Nat.add]. by rewrite IH. Qed.

Lemma crc_bit_double x : crc_bit (2 * x) = x.
Proof.
  unfold crc_bit. rewrite Z.odd_mul, Z.lxor_0_r, Z.shiftr_div_pow2 by done. change (2 ^ 1) with 2.
  rewrite Z.mul_comm. by apply Z.div_mul.
Qed.

Lemma crc_bits_shift n x : crc_bits n (x * 2 ^ Z.of_nat n) = x.
Proof.
  revert x. induction n as [|n IH]; intros x; [apply Z.mul_1_r|]. cbn [crc_bits].
  rewrite Nat2Z.inj_succ, Z.pow_succ_r by lia. replace (x * (2 * 2 ^ Z.of_nat n)) with (2 * x * 2 ^ Z.of_nat n) by lia.
  by rewrite IH, crc_bit_double.
Qed.

(** The inverse of a division step: the high bit tells whether the polynomial
    was added. *)
Definition crc_unbit (y : Z) : Z :=
  if Z.testbit y 63 then 2 * Z.lxor y poly + 1 else 2 * y.

Lemma half_bit63 x : urange 64 x -> Z.testbit (Z.shiftr x 1) 63 = false.
Proof.
  unfold urange. intros Hx. rewrite Z.shiftr_spec by lia. change (63 + 1) with 64.
  destruct (decide (x = 0)) as [->|]; [done|]. apply Z.bits_above_log2; [lia|]. apply Z.log2_lt_pow2; lia.
Qed.

Lemma crc_unbit_bit x : urange 64 x -> crc_unbit (crc_bit x) = x.
Proof.
  intros Hx. unfold crc_unbit, crc_bit. rewrite Z.lxor_spec, half_bit63 by done.
  pose proof (Z.div2_odd x) as E. rewrite Z.div2_spec in E. destruct (Z.odd x); simpl in E.
  - change (Z.testbit poly 63) with true. cbn [xorb]. rewrite Z.lxor_assoc, Z.lxor_nilpotent, Z.lxor_0_r. lia.
  - rewrite Z.bits_0, Z.lxor_0_r. cbn [xorb]. lia.
Qed.

Lemma crc_bit_range x : urange 64 x -> urange 64 (crc_bit x).
Proof.
  unfold urange, crc_bit. intros Hx.
  assert (0 <= Z.shiftr x 1 < 2 ^ 64) as H1.
  { rewrite Z.shiftr_div_pow2 by done. split; [apply Z.div_pos; lia|]. apply Z.div_lt_upper_bound; lia. }
  assert (0 <= (if Z.odd x then poly else 0) < 2 ^ 64) as H2.
  { destruct (Z.odd x); [|lia]. by apply (bool_decide_unpack _); vm_compute. }
  split; [apply Z.lxor_nonneg; lia|].
  assert (Z.lxor (x ≫ 1) (if Z.odd x then poly else 0) < 2 ^ 64 \/ Z.lxor (x ≫ 1) (if Z.odd x then poly else 0) = 0) as [|]; [|done|lia].
  destruct (decide (Z.lxor (x ≫ 1) (if Z.odd x then poly else 0) = 0)); [by right|left].
  assert (0 <= Z.lxor (x ≫ 1) (if Z.odd x then poly else 0)) by (apply Z.lxor_nonneg; lia).
  apply Z.log2_lt_pow2; [lia|]. eapply Z.le_lt_trans; [apply Z.log2_lxor; lia|].
  assert (forall y, 0 <= y < 2 ^ 64 -> Z.log2 y < 64) as Hl.
  { intros y Hy. destruct (decide (y = 0)) as [->|]; [simpl; lia|]. apply Z.log2_lt_pow2; lia. }
  apply Z.max_lub_lt; by apply Hl.
Qed.

Lemma crc_bits_range n x : urange 64 x -> urange 64 (crc_bits n x).
Proof. intros. induction n; [done|]. cbn [crc_bits]. by apply crc_bit_range. Qed.

Lemma crc_bits_inj n x y : urange 64 x -> urange 64 y -> crc_bits n x = crc_bits n y -> x = y.
Proof.
  intros Hx Hy. induction n as [|n IH]; [done|]. cbn [crc_bits]. intros E. apply IH.
  rewrite <- (crc_unbit_bit (crc_bits n x)), <- (crc_unbit_bit (crc_bits n y)) by (by apply crc_bits_range).
  by rewrite E.
Qed.

(** ** The table *)

Lemma crc64_tab_entries : Forall (fun i => crc64_tab !! i = Some (crc_bits 8 (Z.of_nat i))) (seq 0 256).
Proof. apply (bool_decide_unpack _). vm_compute. done. Qed.

Lemma crc64_tab_spec x : 0 <= x < 256 -> crc64_tab !! Z.to_nat x = Some (crc_bits 8 x).
Proof.
  intros Hx. pose proof crc64_tab_entries as H. rewrite Forall_forall in H.
  rewrite (H (Z.to_nat x)) by (apply elem_of_seq; lia). by rewrite Z2Nat.id by lia.
Qed.

Lemma byte_lxor a b : is_byte a -> is_byte b -> is_byte (Z.lxor a b).
Proof.
  unfold urange. intros Ha Hb. split; [apply Z.lxor_nonneg; lia|].
  destruct (decide (Z.lxor a b = 0)) as [->|]; [lia|].
  assert (0 <= Z.lxor a b) by (apply Z.lxor_nonneg; lia).
  apply Z.log2_lt_pow2; [lia|]. eapply Z.le_lt_trans; [apply Z.log2_lxor; lia|].
  assert (forall y, 0 <= y < 2 ^ 8 -> Z.log2 y < 8) as Hl.
  { intros y Hy. destruct (decide (y = 0)) as [->|]; [simpl; lia|]. apply Z.log2_lt_pow2; lia. }
  apply Z.max_lub_lt; by apply Hl.
Qed.

Lemma mod_lxor k a b : 0 <= k -> Z.lxor a b mod 2 ^ k = Z.lxor (a mod 2 ^ k) (b mod 2 ^ k).
Proof.
  intros Hk. apply Z.bits_inj_iff'. intros n Hn. rewrite Z.lxor_spec. destruct (decide (n < k)).
  - rewrite !Z.mod_pow2_bits_low by lia. apply Z.lxor_spec.
  - by rewrite !Z.mod_pow2_bits_high by lia.
Qed.

(** The high part of the register only moves down. *)
Lemma crc_bits_split x : 0 <= x -> crc_bits 8 x = Z.lxor (crc_bits 8 (x mod 256)) (x / 256).
Proof.
  intros Hx. assert (x = Z.lxor (x mod 256) (x / 256 * 2 ^ Z.of_nat 8)) as E.
  { change 256 with (2 ^ 8). change (Z.of_nat 8) with 8. apply Z.bits_inj_iff'. intros n Hn.
    rewrite Z.lxor_spec, Z.mul_pow2_bits by lia. destruct (decide (n < 8)).
    - rewrite Z.mod_pow2_bits_low, (Z.testbit_neg_r _ (n - 8)) by lia. by rewrite xorb_false_r.
    - rewrite Z.mod_pow2_bits_high, Z.div_pow2_bits by lia. simpl. f_equal. lia. }
  rewrite E at 1. by rewrite crc_bits_lxor, crc_bits_shift.
Qed.

Lemma crc64_byte_spec crc byte : urange 64 crc -> is_byte byte ->
  crc64_byte crc byte = Some (crc_bits 8 (Z.lxor crc byte)).
Proof.
  intros Hc Hb. unfold crc64_byte. assert (is_byte (uwrap 8 crc)) as Hw by (apply uwrap_range; lia).
  pose proof (byte_lxor _ _ Hw Hb) as Hx. rewrite crc64_tab_spec by done. bind_simpl. f_equal.
  unfold urange in *. rewrite (crc_bits_split (Z.lxor crc byte)) by (apply Z.lxor_nonneg; lia).
  change 256 with (2 ^ 8). rewrite mod_lxor, (Z.mod_small byte) by lia. f_equal.
  rewrite <- !Z.shiftr_div_pow2, Z.shiftr_lxor by lia.
  by rewrite (Z.shiftr_div_pow2 byte), (Z.div_small byte), Z.lxor_0_r by lia.
Qed.

Lemma lxor_range w a b : 0 <= w -> urange w a -> urange w b -> urange w (Z.lxor a b).
Proof.
  intros Hw Ha Hb. rewrite <- (uwrap_small w a), <- (uwrap_small w b) by done. unfold uwrap.
  rewrite <- mod_lxor by done. apply (uwrap_range w (Z.lxor a b)). done.
Qed.

Lemma byte_range64 b : is_byte b -> urange 64 b.
Proof. unfold urange. lia. Qed.

Lemma crc_spec_range crc s : urange 64 crc -> bytes_ok s -> urange 64 (crc_spec crc s).
Proof.
  intros Hc Hs. revert crc Hc. induction Hs as [|b s Hb Hs IH]; intros crc Hc; [done|]. apply IH.
  apply crc_bits_range, lxor_range; [lia|done|by apply byte_range64].
Qed.

Lemma crc64_run crc s : urange 64 crc -> bytes_ok s -> crc64 crc s = Some (crc_spec crc s).
Proof.
  intros Hc Hs. revert crc Hc. induction Hs as [|b s Hb Hs IH]; intros crc Hc; [done|].
  cbn [crc64]. rewrite crc64_byte_spec by done. bind_simpl. apply IH.
  apply crc_bits_range, lxor_range; [lia|done|by apply byte_range64].
Qed.

(** ** What changes the checksum *)

(** Up to the width of the register, the bytes of a message act like the bits
    of a number. *)
Lemma crc_spec_number crc s : bytes_ok s -> crc_spec crc s = crc_bits (8 * length s) (Z.lxor crc (le_decode s)).
Proof.
  intros Hs. revert crc. induction Hs as [|b s Hb Hs IH]; intros crc; [by rewrite Z.lxor_0_r|].
  change (le_decode (b :: s)) with (b + 256 * le_decode s). cbn [length].
  change (crc_spec crc (b :: s)) with (crc_spec (crc_bits 8 (Z.lxor crc b)) s). rewrite IH.
  replace (8 * S (length s))%nat with (8 * length s + 8)%nat by lia. rewrite crc_bits_plus. f_equal.
  assert (Z.lxor b (le_decode s * 256) = b + 256 * le_decode s) as <-.
  { rewrite Z.mul_comm. change 256 with (2 ^ 8) at 1 2. unfold urange in Hb. rewrite Z.add_nocarry_lxor; [done|].
    apply Z.bits_inj_iff'. intros n Hn. rewrite Z.land_spec, Z.bits_0, (Z.mul_comm (2 ^ 8)), Z.mul_pow2_bits by lia.
    destruct (decide (n < 8)); [by rewrite (Z.testbit_neg_r _ (n - 8)), andb_false_r by lia|].
    destruct (decide (b = 0)) as [->|]; [by rewrite Z.bits_0|].
    rewrite (Z.bits_above_log2 b); [done|lia|]. assert (Z.log2 b < 8) by (apply Z.log2_lt_pow2; lia). lia. }
  change 256 with (2 ^ Z.of_nat 8). by rewrite <- Z.lxor_assoc, (crc_bits_lxor 8 (Z.lxor crc b)), crc_bits_shift.
Qed.

Lemma crc_spec_app crc a b : crc_spec crc (a ++ b) = crc_spec (crc_spec crc a) b.
Proof. apply foldl_app. Qed.

(** The register before the end of a message can be recovered from the one after. *)
Lemma crc_spec_inj x y s : urange 64 x -> urange 64 y -> bytes_ok s -> crc_spec x s = crc_spec y s -> x = y.
Proof.
  intros Hx Hy Hs. revert x y Hx Hy. induction Hs as [|b s Hb Hs IH]; intros x y Hx Hy; [done|]. intros E.
  assert (urange 64 b) by by apply byte_range64.
  apply IH in E; [|apply crc_bits_range, lxor_range; (done || lia)..].
  apply crc_bits_inj in E; [|apply lxor_range; (done || lia)..].
  apply (f_equal (fun z => Z.lxor z b)) in E. by rewrite !Z.lxor_assoc, Z.lxor_nilpotent, !Z.lxor_0_r in E.
Qed.

Lemma le_decode_range64 s : bytes_ok s -> (length s <= 8)%nat -> urange 64 (le_decode s).
Proof.
  intros Hs Hl. pose proof (le_decode_range s Hs) as H. unfold urange in *. destruct H as [H1 H2]. split; [done|].
  eapply Z.lt_le_trans; [done|]. apply Z.pow_le_mono_r; lia.
Qed.

Lemma crc_burst crc s t : urange 64 crc -> bytes_ok s -> bytes_ok t -> length s = length t -> (length s <= 8)%nat ->
  crc_spec crc s = crc_spec crc t -> s = t.
Proof.
  intros Hc Hs Ht Hl H8. rewrite !crc_spec_number by done. rewrite <- Hl. intros E.
  apply crc_bits_inj in E; [|apply lxor_range; try done; try lia; apply le_decode_range64; (done || lia)..].
  apply (f_equal (Z.lxor crc)) in E. rewrite <- !Z.lxor_assoc, Z.lxor_nilpotent, !Z.lxor_0_l in E.
  rewrite <- (le_encode_decode s), <- (le_encode_decode t) by done. by rewrite E, Hl.
Qed.

(** ** Properties *)

(** C35: The function driven by the table computes the remainder of the division by
    the polynomial bit by bit, for any message and any register; and two
    messages that differ only inside a window of eight bytes have different
    checksums. *)
Theorem crc64_detects (crc : Z) (a s t b : list Z) :
  urange 64 crc -> bytes_ok (a ++ s ++ b) -> bytes_ok t -> length s = length t -> (length s <= 8)%nat ->
  crc64 crc (a ++ s ++ b) = Some (crc_spec crc (a ++ s ++ b)) /\
  (crc64 crc (a ++ s ++ b) = crc64 crc (a ++ t ++ b) -> s = t).
Proof.
  intros Hc Hm Ht Hl H8. pose proof Hm as [Ha [Hs Hb]%Forall_app]%Forall_app.
  rewrite !crc64_run by (repeat (apply Forall_app; split); done). split; [done|]. intros [= E].
  rewrite !crc_spec_app in E. apply crc_spec_inj in E; [|by repeat apply crc_spec_range..|done].
  apply crc_burst in E; try done. by apply crc_spec_range.
Qed.

Lemma crc64_detects_witness :
  crc64 0 ([] ++ [49; 50; 51; 52; 53; 54; 55; 56] ++ [57]) = Some 0xe9c6d914c4b8d9ca /\
  crc64 0 ([] ++ [49; 50; 51; 52; 53; 54; 55; 56] ++ [57]) <> crc64 0 ([] ++ [49; 50; 51; 52; 53; 54; 57; 56] ++ [57]).
Proof.
  split; [by vm_compute|]. intros E.
  apply (crc64_detects 0 [] [49; 50; 51; 52; 53; 54; 55; 56] [49; 50; 51; 52; 53; 54; 57; 56] [57]) in E;
    [done|by vm_compute|by apply (bool_decide_unpack _); vm_compute|by apply (bool_decide_unpack _); vm_compute|done|simpl; lia].
Defined.
