(* ===== verification/Rdb.v ===== *)
(** * Persistence: [rio.c], the strings and the file of [rdb.c], DUMP of [migrate.c]

    A [rio] is a stream with a position and, when asked, a running checksum;
    the buffer of [rioBufferIO] and the file of [rioFileIO] are a list of bytes
    here.  Code that works on a stream is a function of it in a monad whose
    results keep the error values of C apart from the death of the process. *)
From Stdlib Require Import String.
From S2P Require Import Prelude Memory Util Sds Lzf Crc64 Server.

Definition REDIS_RDB_VERSION := 6.
Definition REDIS_RDB_6BITLEN := 0.
Definition REDIS_RDB_14BITLEN := 1.
Definition REDIS_RDB_32BITLEN := 2.
Definition REDIS_RDB_ENCVAL := 3.
Definition REDIS_RDB_LENERR := 2 ^ 32 - 1.
Definition REDIS_RDB_ENC_INT8 := 0.
Definition REDIS_RDB_ENC_INT16 := 1.
Definition REDIS_RDB_ENC_INT32 := 2.
Definition REDIS_RDB_ENC_LZF := 3.
Definition REDIS_RDB_TYPE_STRING := 0.
Definition REDIS_RDB_OPCODE_EXPIRETIME_MS := 252.
Definition REDIS_RDB_OPCODE_EXPIRETIME := 253.
Definition REDIS_RDB_OPCODE_SELECTDB := 254.
Definition REDIS_RDB_OPCODE_EOF := 255.
Definition rdbIsObjectType (t : Z) : bool := bool_decide ((t >= 0 /\ t <= 4) \/ (t >= 9 /\ t <= 13)).

(** ** Streams *)

Record rio := Rio {
  io_buf : list Z; io_pos : Z;
  update_cksum : bool; cksum : Z;
  processed_bytes : Z; max_processing_chunk : Z }.

(** [Err] is the error value of the C function: 0, -1, [NULL].  [Crash] is a
    panic, or an access outside an object. *)
Inductive res (A : Type) := Ok (a : A) (r : rio) | Err (r : rio) | Crash.
Arguments Ok {A} a r.
Arguments Err {A} r.
Arguments Crash {A}.

Definition IO (A : Type) : Type := rio -> res A.
#[export] Instance IO_ret : MRet IO := fun A a r => Ok a r.
#[export] Instance IO_bind : MBind IO := fun A B f m r =>
  match m r with Ok a r => f a r | Err r => Err r | Crash => Crash end.

Definition io_fail {A} : IO A := fun r => Err r.
Definition io_lift {A} (o : option A) : IO A := fun r => match o with Some a => Ok a r | None => Crash end.
(** The value that stands for an error, for callers that compare with it. *)
Definition io_or {A} (m : IO A) (a : A) : IO A := fun r => match m r with Err r => Ok a r | x => x end.

Definition chunk_size (r : rio) (len : Z) : Z :=
  if bool_decide (max_processing_chunk r <> 0 /\ max_processing_chunk r < len) then max_processing_chunk r else len.

Definition rioGenericUpdateChecksum (buf : list Z) (r : rio) : option rio :=
  c ← crc64 (cksum r) buf;
  Some (Rio (io_buf r) (io_pos r) (update_cksum r) c (processed_bytes r) (max_processing_chunk r)).

Definition update_with (buf : list Z) (r : rio) : option rio :=
  if update_cksum r then rioGenericUpdateChecksum buf r else Some r.

Definition add_processed (n : Z) (r : rio) : rio :=
  Rio (io_buf r) (io_pos r) (update_cksum r) (cksum r) (processed_bytes r + n) (max_processing_chunk r).

Section Io.
(** Whether the backend takes these bytes at this point: a buffer always does,
    a file may not. *)
Context (accepts : list Z -> list Z -> bool).

Definition backend_write (buf : list Z) (r : rio) : res unit :=
  if accepts (io_buf r) buf
  then Ok tt (Rio (io_buf r ++ buf) (io_pos r + zlen buf) (update_cksum r) (cksum r) (processed_bytes r) (max_processing_chunk r))
  else Err r.

Definition backend_read (len : Z) (r : rio) : res (list Z) :=
  if bool_decide (zlen (io_buf r) - io_pos r < len) then Err r
  else match zread (io_pos r) len (io_buf r) with
       | Some bs => Ok bs (Rio (io_buf r) (io_pos r + len) (update_cksum r) (cksum r) (processed_bytes r) (max_processing_chunk r))
       | None => Crash
       end.

Definition rioWrite (buf : list Z) : IO unit := fun r =>
  default Crash (loop (S (length buf)) (fun '(r, buf) =>
    if bool_decide (buf = []) then Break (Ok tt r)
    else
      let n := Z.to_nat (chunk_size r (zlen buf)) in
      match update_with (take n buf) r with
      | None => Break Crash
      | Some r => match backend_write (take n buf) r with
                  | Ok _ r => Continue (add_processed (Z.of_nat n) r, drop n buf)
                  | Err r => Break (Err r)
                  | Crash => Break Crash
                  end
      end) (r, buf)).

(** [len] bytes, in chunks. *)
Definition rioRead (len : Z) : IO (list Z) := fun r =>
  default Crash (loop (S (Z.to_nat len)) (fun '(r, len, acc) =>
    if bool_decide (len = 0) then Break (Ok acc r)
    else
      let n := chunk_size r len in
      match backend_read n r with
      | Ok bs r => match update_with bs r with
                   | None => Break Crash
                   | Some r => Continue (add_processed n r, len - n, acc ++ bs)
                   end
      | Err r => Break (Err r)
      | Crash => Break Crash
      end) (r, len, [])).

(** ** Lengths and types *)

Definition rdbWriteRaw (p : list Z) : IO Z := rioWrite p;; mret (zlen p).

Definition rdbSaveType (type : Z) : IO Z := rdbWriteRaw [uwrap 8 type].

Definition rdbLoadType : IO Z := bs ← rioRead 1; mret (le_decode bs).

Definition rdbLoadTime : IO Z := bs ← rioRead 4; mret (swrap 32 (le_decode bs)).

Definition rdbSaveMillisecondTime (t : Z) : IO Z := rdbWriteRaw (le_encode 8 (uwrap 64 t)).

Definition rdbLoadMillisecondTime : IO Z := bs ← rioRead 8; mret (swrap 64 (le_decode bs)).

(** [htonl] as the four bytes in memory. *)
Definition be_encode32 (len : Z) : list Z := rev (le_encode 4 len).

Definition rdbSaveLen (len : Z) : IO Z :=
  let len := uwrap 32 len in
  if bool_decide (len < 2 ^ 6) then
    rdbWriteRaw [uwrap 8 (Z.lor (Z.land len 255) (Z.shiftl REDIS_RDB_6BITLEN 6))];; mret 1
  else if bool_decide (len < 2 ^ 14) then
    rdbWriteRaw [uwrap 8 (Z.lor (Z.land (Z.shiftr len 8) 255) (Z.shiftl REDIS_RDB_14BITLEN 6)); Z.land len 255];; mret 2
  else
    rdbWriteRaw [uwrap 8 (Z.shiftl REDIS_RDB_32BITLEN 6)];;
    rdbWriteRaw (be_encode32 len);; mret 5.

(** The length, and whether it is the number of an encoding. *)
Definition rdbLoadLen : IO (Z * bool) :=
  io_or (
    bs ← rioRead 1;
    let b0 := le_decode bs in
    let type := Z.shiftr (Z.land b0 192) 6 in
    if bool_decide (type = REDIS_RDB_ENCVAL) then mret (Z.land b0 63, true)
    else if bool_decide (type = REDIS_RDB_6BITLEN) then mret (Z.land b0 63, false)
    else if bool_decide (type = REDIS_RDB_14BITLEN) then
      bs ← rioRead 1; mret (Z.lor (Z.shiftl (Z.land b0 63) 8) (le_decode bs), false)
    else bs ← rioRead 4; mret (le_decode (rev bs), false)) (REDIS_RDB_LENERR, false).

(** ** Integers *)

Definition enc_header (enc : Z) : Z := Z.lor (Z.shiftl REDIS_RDB_ENCVAL 6) enc.

(** The bytes written in [enc]; none for the result 0. *)
Definition rdbEncodeInteger (value : Z) : list Z :=
  if bool_decide (value >= - 2 ^ 7 /\ value <= 2 ^ 7 - 1) then [enc_header REDIS_RDB_ENC_INT8; Z.land value 255]
  else if bool_decide (value >= - 2 ^ 15 /\ value <= 2 ^ 15 - 1) then
    [enc_header REDIS_RDB_ENC_INT16; Z.land value 255; Z.land (Z.shiftr value 8) 255]
  else if bool_decide (value >= - 2 ^ 31 /\ value <= 2 ^ 31 - 1) then
    [enc_header REDIS_RDB_ENC_INT32; Z.land value 255; Z.land (Z.shiftr value 8) 255;
     Z.land (Z.shiftr value 16) 255; Z.land (Z.shiftr value 24) 255]
  else [].

Definition integer_object (encode : bool) (val : Z) : IO robj :=
  if encode then mret (createStringObjectFromLongLong val) else s ← io_lift (ll2string 32 val); mret (Raw s).

Definition rdbLoadIntegerObject (enctype : Z) (encode : bool) : IO robj :=
  if bool_decide (enctype = REDIS_RDB_ENC_INT8) then
    bs ← rioRead 1; integer_object encode (swrap 8 (le_decode bs))
  else if bool_decide (enctype = REDIS_RDB_ENC_INT16) then
    bs ← rioRead 2; integer_object encode (swrap 16 (le_decode bs))
  else if bool_decide (enctype = REDIS_RDB_ENC_INT32) then
    bs ← rioRead 4; integer_object encode (swrap 32 (le_decode bs))
  else fun _ => Crash.

Definition rdbTryIntegerEncoding (s : list Z) : option (list Z) :=
  let '(value, rest, _) := strtoll s in
  if bool_decide (rest <> []) then Some []
  else
    buf ← ll2string 32 value;
    if bool_decide (buf <> s) then Some [] else Some (rdbEncodeInteger value).

(** ** Strings *)

(** Where the input of the compressor is in memory, and what its table and the
    output block hold beforehand. *)
Context (base : Z) (junk : Z -> Z) (fill : nat -> Z).

Definition zmalloc (n : Z) : list Z := realloc fill (Z.to_nat n) [].

(** 0 when the string is not compressed. *)
Definition rdbSaveLzfStringObject (s : list Z) : IO Z :=
  let len := zlen s in
  if bool_decide (len <= 4) then mret 0
  else
    let outlen := len - 4 in
    '(comprlen, out) ← io_lift (lzf_compress base junk s outlen (zmalloc (outlen + 1)));
    if bool_decide (comprlen = 0) then mret 0
    else
      n ← rdbWriteRaw [enc_header REDIS_RDB_ENC_LZF];
      n1 ← rdbSaveLen comprlen;
      n2 ← rdbSaveLen len;
      n3 ← rdbWriteRaw (take (Z.to_nat comprlen) out);
      mret (n + n1 + n2 + n3).

Definition rdbLoadLzfStringObject : IO robj :=
  '(clen, _) ← rdbLoadLen;
  if bool_decide (clen = REDIS_RDB_LENERR) then io_fail
  else
    '(len, _) ← rdbLoadLen;
    if bool_decide (len = REDIS_RDB_LENERR) then io_fail
    else
      c ← rioRead clen;
      r ← io_lift (lzf_decompress c len (repeat 0 (Z.to_nat len)));
      match r with
      | inl s => if bool_decide (d_op s = 0) then io_fail else mret (Raw (d_out s))
      | inr _ => io_fail
      end.

Section Strings.
(** [server.rdb_compression] *)
Context (rdb_compression : bool).

Definition rdbSaveVerbatim (s : list Z) : IO Z :=
  n ← rdbSaveLen (zlen s);
  if bool_decide (zlen s > 0) then rdbWriteRaw s;; mret (n + zlen s) else mret n.

Definition rdbSaveRawString (s : list Z) : IO Z :=
  let len := zlen s in
  enc ← (if bool_decide (len <= 11) then io_lift (rdbTryIntegerEncoding s) else mret []);
  if bool_decide (enc <> []) then rdbWriteRaw enc;; mret (zlen enc)
  else
    n ← (if bool_decide (rdb_compression = true /\ len > 20) then rdbSaveLzfStringObject s else mret 0);
    if bool_decide (n > 0) then mret n else rdbSaveVerbatim s.

Definition rdbSaveLongLongAsStringObject (value : Z) : IO Z :=
  let enc := rdbEncodeInteger value in
  if bool_decide (enc <> []) then rdbWriteRaw enc
  else
    buf ← io_lift (ll2string 32 value);
    if bool_decide (zlen buf < 32) then n ← rdbSaveLen (zlen buf); n1 ← rdbWriteRaw buf; mret (n + n1)
    else fun _ => Crash.

(** [None] for an object that is not a string. *)
Definition rdbSaveStringObject (obj : robj) : IO Z :=
  match obj with
  | IntObj v => rdbSaveLongLongAsStringObject v
  | Raw s => rdbSaveRawString s
  | Other _ _ => fun _ => Crash
  end.

Definition rdbGenericLoadStringObject (encode : bool) : IO robj :=
  '(len, isencoded) ← rdbLoadLen;
  if (isencoded : bool) then
    if bool_decide (len = REDIS_RDB_ENC_INT8 \/ len = REDIS_RDB_ENC_INT16 \/ len = REDIS_RDB_ENC_INT32)
    then rdbLoadIntegerObject len encode
    else if bool_decide (len = REDIS_RDB_ENC_LZF) then rdbLoadLzfStringObject
    else fun _ => Crash
  else if bool_decide (len = REDIS_RDB_LENERR) then io_fail
  else
    val ← (if bool_decide (len <> 0) then rioRead len else mret []);
    mret (Raw val).

Definition rdbLoadStringObject : IO robj := rdbGenericLoadStringObject false.
Definition rdbLoadEncodedStringObject : IO robj := rdbGenericLoadStringObject true.

(** ** Objects

    Only strings: for an object of another type these functions write the
    contents, which the key space of [Server] does not hold, and they are
    left out ([Crash]). *)

Definition rdbSaveObjectType (o : robj) : IO Z :=
  match type_of o with REDIS_STRING => rdbSaveType REDIS_RDB_TYPE_STRING | _ => fun _ => Crash end.

Definition rdbSaveObject (o : robj) : IO Z :=
  match type_of o with REDIS_STRING => rdbSaveStringObject o | _ => fun _ => Crash end.

(** -1 is the error. *)
Definition rdbLoadObjectType : IO Z :=
  type ← rdbLoadType; if rdbIsObjectType type then mret type else io_fail.

Definition try_encoding (o : robj) : robj :=
  match o with Raw s => tryObjectEncoding s | o => o end.

Definition rdbLoadObject (rdbtype : Z) : IO robj :=
  if bool_decide (rdbtype = REDIS_RDB_TYPE_STRING)
  then o ← rdbLoadEncodedStringObject; mret (try_encoding o)
  else fun _ => Crash.

(** ** The file *)

(** 1 when the key is saved, 0 when it has expired. *)
Definition rdbSaveKeyValuePair (key : list Z) (val : robj) (expiretime now : Z) : IO Z :=
  if bool_decide (expiretime <> -1 /\ expiretime < now) then mret 0
  else
    (if bool_decide (expiretime <> -1)
     then rdbSaveType REDIS_RDB_OPCODE_EXPIRETIME_MS;; rdbSaveMillisecondTime expiretime;; mret tt
     else mret tt);;
    rdbSaveObjectType val;;
    rdbSaveStringObject (Raw key);;
    rdbSaveObject val;;
    mret 1.

Section Files.
(** [server.rdb_checksum], [server.loading_process_events_interval_bytes],
    the clock, and the order in which the iterator of the dictionary of each
    database yields its entries. *)
Context (rdb_checksum : bool) (events_interval : Z) (clock : nat -> Z).
Context (iter : nat -> list (list Z * robj)).

(** "REDIS0006" *)
Definition rdb_magic : list Z := [82; 69; 68; 73; 83; 48; 48; 48; 54].

(** The entries of the database [j]. *)
Fixpoint save_entries (s : server) (now : Z) (j : nat) (entries : list (list Z * robj)) : IO unit :=
  match entries with
  | [] => mret tt
  | (key, o) :: entries =>
      '(expire, _) ← io_lift (getExpire j key s);
      rdbSaveKeyValuePair key o expire now;;
      save_entries s now j entries
  end.

Definition save_db (s : server) (now : Z) (j : nat) (db : redisDb) : IO unit :=
  if bool_decide (base.size (db_dict db) = O) then mret tt
  else
    rdbSaveType REDIS_RDB_OPCODE_SELECTDB;;
    rdbSaveLen (Z.of_nat j);;
    save_entries s now j (iter j).

Fixpoint save_dbs (s : server) (now : Z) (j : nat) (dbs : list redisDb) : IO unit :=
  match dbs with
  | [] => mret tt
  | db :: dbs => save_db s now j db;; save_dbs s now (S j) dbs
  end.

(** The last write: its result is not looked at. *)
Definition write_checksum : IO unit := fun r =>
  match rioWrite (le_encode 8 (cksum r)) r with Err r => Ok tt r | x => x end.

Definition rdb_body (s : server) (now : Z) : IO unit :=
  rdbWriteRaw rdb_magic;;
  save_dbs s now O (s_db s);;
  rdbSaveType REDIS_RDB_OPCODE_EOF;;
  write_checksum.

(** The new contents of the file, or [None] for [REDIS_ERR]. *)
Definition rdbSave : M (option (list Z)) :=
  now ← mstime clock;
  s ← gets id;
  match rdb_body s now (Rio [] 0 rdb_checksum 0 0 0) with
  | Ok _ r => modify (set_dirty 0);; mret (Some (io_buf r))
  | Err _ => mret None
  | Crash => fun _ => None
  end.

(** What one iteration of the loop of [rdbLoad] reads. *)
Inductive rdb_item := ItemEof | ItemSelect (dbid : Z) | ItemKey (key val : robj) (expiretime : Z).

Definition load_type_expire : IO (Z * Z) :=
  type ← rdbLoadType;
  if bool_decide (type = REDIS_RDB_OPCODE_EXPIRETIME) then
    expiretime ← rdbLoadTime;
    if bool_decide (expiretime = -1) then io_fail
    else type ← rdbLoadType; mret (type, expiretime * 1000)
  else if bool_decide (type = REDIS_RDB_OPCODE_EXPIRETIME_MS) then
    expiretime ← rdbLoadMillisecondTime;
    if bool_decide (expiretime = -1) then io_fail
    else type ← rdbLoadType; mret (type, expiretime)
  else mret (type, -1).

Definition load_item : IO rdb_item :=
  '(type, expiretime) ← load_type_expire;
  if bool_decide (type = REDIS_RDB_OPCODE_EOF) then mret ItemEof
  else if bool_decide (type = REDIS_RDB_OPCODE_SELECTDB) then
    '(dbid, _) ← rdbLoadLen;
    if bool_decide (dbid = REDIS_RDB_LENERR) then io_fail else mret (ItemSelect dbid)
  else
    key ← rdbLoadStringObject;
    val ← rdbLoadObject type;
    mret (ItemKey key val expiretime).

(** [RdbExit] is [exit(1)]. *)
Inductive rdb_result := RdbOk | RdbErr | RdbExit.

(** One key: dropped when it has expired, unless the server is a slave. *)
Definition load_key (now : Z) (db : nat) (key val : robj) (expiretime : Z) : M unit :=
  conf ← gets s_conf;
  if bool_decide (masterhost conf = false /\ expiretime <> -1 /\ expiretime < now) then mret tt
  else
    k ← lift (match key with Raw k => Some k | _ => None end);
    dbAdd db k val;;
    if bool_decide (expiretime <> -1) then setExpire db k expiretime else mret tt.

Definition load_step (now : Z) (st : nat * rio * server) : option ((nat * rio * server) + (rdb_result * rio * server)) :=
  let '(db, r, s) := st in
  match load_item r with
  | Crash => None
  | Err r => Some (inr (RdbExit, r, s))
  | Ok ItemEof r => Some (inr (RdbOk, r, s))
  | Ok (ItemSelect dbid) r =>
      if bool_decide (dbid >= zlen (s_db s)) then Some (inr (RdbExit, r, s))
      else Some (inl (Z.to_nat dbid, r, s))
  | Ok (ItemKey key val expiretime) r =>
      '(_, s) ← load_key now db key val expiretime s;
      Some (inl (db, r, s))
  end.

Definition verify_checksum (rdbver : Z) : IO rdb_result :=
  if bool_decide (rdbver >= 5 /\ rdb_checksum = true) then
    expected ← (fun r => Ok (cksum r) r);
    bs ← rioRead 8;
    let sum := le_decode bs in
    if bool_decide (sum = 0) then mret RdbOk
    else if bool_decide (sum <> expected) then mret RdbExit else mret RdbOk
  else mret RdbOk.

Definition load_end (rdbver : Z) (x : rdb_result * rio * server) : option (rdb_result * server) :=
  match x with
  | (RdbOk, r, s) => match verify_checksum rdbver r with
                     | Ok res _ => Some (res, s)
                     | Err _ => Some (RdbExit, s)
                     | Crash => None
                     end
  | (res, _, s) => Some (res, s)
  end.

(** [None] is the death of the process other than by [exit]. *)
Definition rdbLoad (file : list Z) : M rdb_result := fun s =>
  '(now, s) ← mstime clock s;
  match rioRead 9 (Rio file 0 rdb_checksum 0 0 events_interval) with
  | Crash => None
  | Err _ => Some (RdbExit, s)
  | Ok buf r =>
      if bool_decide (take 5 buf <> [82; 69; 68; 73; 83]) then Some (RdbErr, s)
      else
        let rdbver := swrap 32 (fst (fst (strtoll (drop 5 buf)))) in
        if bool_decide (rdbver < 1 \/ rdbver > REDIS_RDB_VERSION) then Some (RdbErr, s)
        else x ← mjoin (loop (S (length file)) (fun st => as_step (load_step now st)) (O, r, s)); load_end rdbver x
  end.
End Files.

(** ** DUMP and RESTORE *)

Definition io_buffer (s : list Z) : rio := Rio s 0 false 0 0 0.

Definition createDumpPayload (o : robj) : option (list Z) :=
  match (rdbSaveObjectType o;; rdbSaveObject o) (io_buffer []) with
  | Ok _ r =>
      let p := io_buf r ++ [Z.land REDIS_RDB_VERSION 255; Z.land (Z.shiftr REDIS_RDB_VERSION 8) 255] in
      crc ← crc64 0 p; Some (p ++ le_encode 8 crc)
  | _ => None
  end.

Definition verifyDumpPayload (p : list Z) : option bool :=
  let len := zlen p in
  if bool_decide (len < 10) then Some false
  else
    b0 ← zget (len - 10) p; b1 ← zget (len - 9) p;
    if bool_decide (Z.lor (Z.shiftl b1 8) b0 <> REDIS_RDB_VERSION) then Some false
    else
      bs ← zread 0 (len - 8) p; crc ← crc64 0 bs; f ← zread (len - 8) 8 p;
      Some (bool_decide (le_encode 8 crc = f)).

Definition dumpCommand (clock : nat -> Z) (c : client_id) : M unit :=
  d ← current_db c; key ← argv c 1;
  o ← lookupKeyRead clock d key;
  match o with
  | None => addReply c ReplyNullBulk
  | Some o => p ← lift (createDumpPayload o); addReply c (ReplyBulk p)
  end.

Definition load_payload (p : list Z) : IO robj := type ← rdbLoadObjectType; rdbLoadObject type.

Definition restoreCommand (clock : nat -> Z) (c : client_id) : M unit :=
  d ← current_db c; key ← argv c 1;
  o ← lookupKeyWrite clock d key;
  match o with
  | Some _ => addReplyError c "Target key name is busy."
  | None =>
      a2 ← argv c 2;
      ttl ← getLongLongFromObjectOrReply c (Some (Raw a2));
      match ttl with
      | None => mret tt
      | Some ttl =>
          if bool_decide (ttl < 0) then addReplyError c "Invalid TTL value, must be >= 0"
          else
            p ← argv c 3;
            ok ← lift (verifyDumpPayload p);
            if negb ok then addReplyError c "DUMP payload version or checksum are wrong"
            else
              match load_payload p (io_buffer p) with
              | Crash => lift None
              | Err _ => addReplyError c "Bad data format"
              | Ok obj _ =>
                  dbAdd d key obj;;
                  (if bool_decide (ttl <> 0) then now ← mstime clock; setExpire d key (swrap 64 (now + ttl)) else mret tt);;
                  signalModifiedKey d key;;
                  addReply c ReplyOk;;
                  add_dirty 1
              end
      end
  end.
End Strings.
End Io.
