(* ===== verification/RdbLogic.v ===== *)
(** * Streams, lengths and strings of the RDB format

    Each saving function appends the bytes of a code to the stream, and the
    matching loading function reads exactly these bytes: [writes] and [reads]
    compose along the monad, from the lengths to a key with its value. *)
From Stdlib Require Import String.
From S2P Require Import Prelude Memory Util Sds Lzf LzfSpecs Crc64 Server StringCommands Transactions ServerLogic StringEffects.
From S2P Require Import ServerProperties StringSpecs Rdb.

(** ** Streams *)

Definition sum_with (bs : list Z) (r : rio) : Z := if update_cksum r then crc_spec (cksum r) bs else cksum r.

Definition wrote (bs : list Z) (r : rio) : rio :=
  Rio (io_buf r ++ bs) (io_pos r + zlen bs) (update_cksum r) (sum_with bs r) (processed_bytes r + zlen bs) (max_processing_chunk r).

Definition skipped (bs : list Z) (r : rio) : rio :=
  Rio (io_buf r) (io_pos r + zlen bs) (update_cksum r) (sum_with bs r) (processed_bytes r + zlen bs) (max_processing_chunk r).

Record rio_ok (r : rio) : Prop := {
  ok_sum : urange 64 (cksum r);
  ok_chunk : 0 <= max_processing_chunk r }.

(** What is left to read. *)
Definition ahead (r : rio) (l : list Z) : Prop := exists pre, io_buf r = pre ++ l /\ io_pos r = zlen pre.

Lemma sum_with_app bs cs r : sum_with (bs ++ cs) r = (if update_cksum r then crc_spec (sum_with bs r) cs else sum_with bs r).
Proof. unfold sum_with. destruct (update_cksum r); [apply crc_spec_app|done]. Qed.

Lemma wrote_app bs cs r : wrote cs (wrote bs r) = wrote (bs ++ cs) r.
Proof.
  unfold wrote. rewrite sum_with_app, length_app. unfold sum_with. simpl. rewrite <- app_assoc.
  destruct (update_cksum r); f_equal; lia.
Qed.

Lemma skipped_app bs cs r : skipped cs (skipped bs r) = skipped (bs ++ cs) r.
Proof.
  unfold skipped. rewrite sum_with_app, length_app. unfold sum_with. simpl.
  destruct (update_cksum r); f_equal; lia.
Qed.

Lemma wrote_nil r : wrote [] r = r.
Proof. destruct r as [b p u c n m]. unfold wrote, sum_with. simpl. rewrite app_nil_r, !Z.add_0_r. by destruct u. Qed.

Lemma skipped_nil r : skipped [] r = r.
Proof. destruct r as [b p u c n m]. unfold skipped, sum_with. simpl. rewrite !Z.add_0_r. by destruct u. Qed.

Lemma sum_with_range bs r : rio_ok r -> bytes_ok bs -> urange 64 (sum_with bs r).
Proof. intros [Hs _] Hb. unfold sum_with. destruct (update_cksum r); [by apply crc_spec_range|done]. Qed.

Lemma wrote_ok bs r : rio_ok r -> bytes_ok bs -> rio_ok (wrote bs r).
Proof. intros Hr Hb. constructor; [by apply sum_with_range|by apply Hr]. Qed.

Lemma skipped_ok bs r : rio_ok r -> bytes_ok bs -> rio_ok (skipped bs r).
Proof. intros Hr Hb. constructor; [by apply sum_with_range|by apply Hr]. Qed.

Lemma skipped_ahead bs l r : ahead r (bs ++ l) -> ahead (skipped bs r) l.
Proof.
  intros (pre & Hb & Hp). exists (pre ++ bs). simpl. rewrite Hb, Hp, app_assoc, length_app. split; [done|lia].
Qed.

(** [m] appends [bs] and returns [a]; [m] reads [bs] and returns [a]. *)
Definition writes {A} (m : IO A) (a : A) (bs : list Z) : Prop :=
  bytes_ok bs /\ forall r, rio_ok r -> m r = Ok a (wrote bs r).
Definition reads {A} (m : IO A) (a : A) (bs : list Z) : Prop :=
  bytes_ok bs /\ forall r l, rio_ok r -> ahead r (bs ++ l) -> m r = Ok a (skipped bs r).

Lemma writes_ret {A} (a : A) : writes (mret a) a [].
Proof. split; [done|]. intros r _. by rewrite wrote_nil. Qed.

Lemma reads_ret {A} (a : A) : reads (mret a) a [].
Proof. split; [done|]. intros r l _ _. by rewrite skipped_nil. Qed.

Lemma writes_bind {A B} (m : IO A) (f : A -> IO B) a b bs cs :
  writes m a bs -> writes (f a) b cs -> writes (m ≫= f) b (bs ++ cs).
Proof.
  intros [Hb Hm] [Hc Hf]. split; [by apply Forall_app|]. intros r Hr. unfold mbind, IO_bind. rewrite Hm by done.
  rewrite Hf by by apply wrote_ok. by rewrite wrote_app.
Qed.

Lemma reads_bind {A B} (m : IO A) (f : A -> IO B) a b bs cs :
  reads m a bs -> reads (f a) b cs -> reads (m ≫= f) b (bs ++ cs).
Proof.
  intros [Hb Hm] [Hc Hf]. split; [by apply Forall_app|]. intros r l Hr Hl. rewrite <- app_assoc in Hl.
  unfold mbind, IO_bind. rewrite (Hm r (cs ++ l)) by done.
  rewrite (Hf _ l) by (try apply skipped_ok; try apply skipped_ahead; done). by rewrite skipped_app.
Qed.

(** The same when the first part produces nothing, or the second. *)
Lemma writes_bind_nil {A B} (m : IO A) (f : A -> IO B) a b cs :
  writes m a [] -> writes (f a) b cs -> writes (m ≫= f) b cs.
Proof. intros Hm Hf. exact (writes_bind m f a b [] cs Hm Hf). Qed.

Lemma writes_end {A B} (m : IO A) (f : A -> IO B) a b bs :
  writes m a bs -> writes (f a) b [] -> writes (m ≫= f) b bs.
Proof. intros Hm Hf. rewrite <- (app_nil_r bs). by eapply writes_bind. Qed.

Lemma reads_bind_nil {A B} (m : IO A) (f : A -> IO B) a b cs :
  reads m a [] -> reads (f a) b cs -> reads (m ≫= f) b cs.
Proof. intros Hm Hf. exact (reads_bind m f a b [] cs Hm Hf). Qed.

Lemma reads_end {A B} (m : IO A) (f : A -> IO B) a b bs :
  reads m a bs -> reads (f a) b [] -> reads (m ≫= f) b bs.
Proof. intros Hm Hf. rewrite <- (app_nil_r bs). by eapply reads_bind. Qed.

Lemma writes_lift {A} (o : option A) a : o = Some a -> writes (io_lift o) a [].
Proof. intros ->. apply writes_ret. Qed.

Lemma reads_lift {A} (o : option A) a : o = Some a -> reads (io_lift o) a [].
Proof. intros ->. apply reads_ret. Qed.

Lemma reads_or {A} (m : IO A) a b bs : reads m a bs -> reads (io_or m b) a bs.
Proof. intros [Hb Hm]. split; [done|]. intros r l Hr Hl. unfold io_or. by rewrite (Hm r l). Qed.

Lemma chunk_size_range r len : 0 <= max_processing_chunk r -> 0 < len -> 1 <= chunk_size r len <= len.
Proof. intros Hm Hlen. unfold chunk_size. case_bool_decide; lia. Qed.

Lemma update_with_run bs r : rio_ok r -> bytes_ok bs ->
  update_with bs r = Some (Rio (io_buf r) (io_pos r) (update_cksum r) (sum_with bs r) (processed_bytes r) (max_processing_chunk r)).
Proof.
  intros [Hs _] Hb. unfold update_with, rioGenericUpdateChecksum, sum_with. destruct r as [b p [] c n m]; [|done].
  simpl in *. by rewrite crc64_run.
Qed.

Section Streams.
Context (accepts : list Z -> list Z -> bool).
Hypothesis Haccepts : forall a b, accepts a b = true.

(** The loops of [rioWrite] and [rioRead], whatever the size of the chunks. *)
Lemma rioWrite_writes bs : bytes_ok bs -> writes (rioWrite accepts bs) tt bs.
Proof using Haccepts.
  intros Hb. split; [done|]. intros r Hr. unfold rioWrite.
  assert (exists fuel, fuel = S (length bs) /\ (length bs < fuel)%nat) as (fuel & <- & Hf) by (eexists; split; [done|lia]).
  revert bs r Hb Hr Hf. induction fuel as [|fuel IH]; intros bs r Hb Hr Hf; [lia|]. rewrite loop_S.
  case_bool_decide as Hn; [subst bs; simpl; by rewrite wrote_nil|].
  assert (0 < zlen bs) by (destruct bs; [done|simpl; lia]).
  pose proof (chunk_size_range r (zlen bs) ltac:(apply Hr) ltac:(lia)) as Hc. set (n := Z.to_nat (chunk_size r (zlen bs))).
  pose proof (take_drop n bs) as E. rewrite <- E in Hb. apply Forall_app in Hb as [Hb1 Hb2].
  rewrite update_with_run by done. unfold backend_write. rewrite Haccepts.
  assert (add_processed (Z.of_nat n) (Rio (io_buf r ++ take n bs) (io_pos r + zlen (take n bs)) (update_cksum r)
    (sum_with (take n bs) r) (processed_bytes r) (max_processing_chunk r)) = wrote (take n bs) r) as Hw.
  { unfold add_processed, wrote. simpl. rewrite length_take. f_equal. lia. }
  simpl. rewrite Hw, IH; [|done|by apply wrote_ok|rewrite length_drop; lia]. by rewrite wrote_app, E.
Qed.

Lemma rdbWriteRaw_writes bs : bytes_ok bs -> writes (rdbWriteRaw accepts bs) (zlen bs) bs.
Proof using Haccepts. intros. eapply writes_end; [by apply rioWrite_writes|apply writes_ret]. Qed.

Lemma rdbSaveType_writes t : is_byte t -> writes (rdbSaveType accepts t) 1 [t].
Proof using Haccepts.
  intros. unfold rdbSaveType. rewrite uwrap_small by done. apply (rdbWriteRaw_writes [t]). by constructor.
Qed.
End Streams.

Lemma rioRead_reads bs len : bytes_ok bs -> len = zlen bs -> reads (rioRead len) bs bs.
Proof.
  intros Hb ->. split; [done|]. intros r l Hr Hl. unfold rioRead.
  assert (exists fuel, fuel = S (Z.to_nat (zlen bs)) /\ (length bs < fuel)%nat) as (fuel & <- & Hf) by (eexists; split; [done|lia]).
  assert (forall acc, default Crash (loop fuel (fun '(r, len, acc) =>
    if bool_decide (len = 0) then Break (Ok acc r)
    else
      let n := chunk_size r len in
      match backend_read n r with
      | Ok bs r => match update_with bs r with
                   | None => Break Crash
                   | Some r => Continue (add_processed n r, len - n, acc ++ bs)
                   end
      | Err r => Break (Err r)
      | Crash => Break Crash
      end) (r, zlen bs, acc)) = Ok (acc ++ bs) (skipped bs r)) as Hgen; [|exact (Hgen [])].
  revert bs r Hb Hr Hl Hf. induction fuel as [|fuel IH]; intros bs r Hb Hr Hl Hf acc; [lia|]. rewrite loop_S.
  case_bool_decide as Hn; [destruct bs; [|simpl in Hn; lia]; simpl; by rewrite skipped_nil, app_nil_r|].
  pose proof (chunk_size_range r (zlen bs) ltac:(apply Hr) ltac:(lia)) as Hc. cbv zeta. set (n := chunk_size r (zlen bs)) in *.
  pose proof (take_drop (Z.to_nat n) bs) as E. rewrite <- E in Hb. apply Forall_app in Hb as [Hb1 Hb2].
  destruct Hl as (pre & Hbuf & Hpos). unfold backend_read. rewrite bool_decide_false by (rewrite Hbuf, Hpos, !length_app; lia).
  assert (zread (io_pos r) n (io_buf r) = Some (take (Z.to_nat n) bs)) as ->.
  { rewrite Hbuf. replace (pre ++ bs ++ l) with (pre ++ take (Z.to_nat n) bs ++ (drop (Z.to_nat n) bs ++ l))
      by (by rewrite (app_assoc (take _ _)), E). apply zread_app; [done|]. rewrite length_take. lia. }
  rewrite update_with_run by (done || by destruct Hr). cbn [update_cksum cksum io_buf io_pos processed_bytes max_processing_chunk].
  assert (Rio (io_buf r) (io_pos r + n) (update_cksum r) (sum_with (take (Z.to_nat n) bs)
     (Rio (io_buf r) (io_pos r + n) (update_cksum r) (cksum r) (processed_bytes r) (max_processing_chunk r)))
     (processed_bytes r + n) (max_processing_chunk r) = skipped (take (Z.to_nat n) bs) r) as Hw.
  { unfold skipped, sum_with. simpl. rewrite length_take. f_equal; lia. }
  unfold add_processed. cbn [update_cksum cksum io_buf io_pos processed_bytes max_processing_chunk]. rewrite Hw.
  replace (zlen bs - n) with (zlen (drop (Z.to_nat n) bs)) by (rewrite length_drop; lia).
  rewrite IH; [|done|by apply skipped_ok| |rewrite length_drop; lia].
  - by rewrite <- app_assoc, skipped_app, E.
  - apply skipped_ahead. exists pre. split; [|done]. by rewrite (app_assoc (take _ _)), E.
Qed.

Lemma rdbLoadType_reads t : is_byte t -> reads rdbLoadType t [t].
Proof.
  intros Ht. eapply reads_end; [by apply (rioRead_reads [t]); [constructor|]|].
  replace t with (le_decode [t]) at 2 by (unfold urange in Ht; cbn; lia). apply reads_ret.
Qed.

(** ** Lengths *)

Lemma type_bits b : is_byte b -> Z.shiftr (Z.land b 192) 6 = b / 64.
Proof.
  unfold urange. intros Hb.
  pose proof (below_by_eval (fun b => bool_decide (Z.shiftr (Z.land b 192) 6 = b / 64)) 256) as H.
  specialize (H ltac:(vm_compute; reflexivity) b ltac:(lia)). by apply bool_decide_eq_true in H.
Qed.

Lemma land_63 x : Z.land x 63 = x mod 64.
Proof. apply land_0x3f. Qed.

Lemma byte_list1 a : is_byte a -> bytes_ok [a].
Proof. by constructor. Qed.

Lemma rev_le_decode (len : Z) : urange 32 len -> le_decode (rev (be_encode32 len)) = len.
Proof. intros. unfold be_encode32. rewrite rev_involutive, le_decode_encode. by apply uwrap_small. Qed.

Lemma be_encode32_ok len : bytes_ok (be_encode32 len) /\ length (be_encode32 len) = 4%nat.
Proof.
  unfold be_encode32. rewrite length_rev, length_le_encode. split; [|done]. apply Forall_rev, le_encode_ok.
Qed.

Section Codec.
Context (accepts : list Z -> list Z -> bool).
Hypothesis Haccepts : forall a b, accepts a b = true.

(** One write of a list, the way the steps below use it. *)
Lemma write_then {B} (f : Z -> IO B) b bs cs : bytes_ok bs -> writes (f (zlen bs)) b cs ->
  writes (rdbWriteRaw accepts bs ≫= f) b (bs ++ cs).
Proof using Haccepts. intros Hb Hf. eapply writes_bind; [by apply rdbWriteRaw_writes|done]. Qed.

Lemma read_then {B} (f : list Z -> IO B) b bs cs len : bytes_ok bs -> len = zlen bs -> reads (f bs) b cs ->
  reads (rioRead len ≫= f) b (bs ++ cs).
Proof. intros Hb Hl Hf. eapply reads_bind; [by apply rioRead_reads|done]. Qed.

Lemma write_last {B} (f : Z -> IO B) b bs : bytes_ok bs -> writes (f (zlen bs)) b [] ->
  writes (rdbWriteRaw accepts bs ≫= f) b bs.
Proof using Haccepts. intros Hb Hf. eapply writes_end; [by apply rdbWriteRaw_writes|done]. Qed.

Lemma read_last {B} (f : list Z -> IO B) b bs len : bytes_ok bs -> len = zlen bs -> reads (f bs) b [] ->
  reads (rioRead len ≫= f) b bs.
Proof. intros Hb Hl Hf. eapply reads_end; [by apply rioRead_reads|done]. Qed.

Lemma rdbLen_codec len : urange 32 len -> exists bs, 1 <= zlen bs /\
  writes (rdbSaveLen accepts len) (zlen bs) bs /\ reads rdbLoadLen (len, false) bs.
Proof using Haccepts.
  unfold urange. intros Hlen. unfold rdbSaveLen, rdbLoadLen. rewrite uwrap_small by done.
  unfold REDIS_RDB_6BITLEN, REDIS_RDB_14BITLEN, REDIS_RDB_32BITLEN, REDIS_RDB_ENCVAL.
  rewrite !land_0xff, shiftr8. destruct (decide (len < 2 ^ 6)) as [H6|H6].
  - rewrite bool_decide_true by done. exists [len]. split; [simpl; lia|]. change (0 ≪ 6) with 0. rewrite Z.lor_0_r.
    rewrite (Z.mod_small len 256) by lia. rewrite uwrap_small by (unfold urange; lia). assert (is_byte len) by (unfold urange; lia). split.
    + apply (write_then _ _ [len] []); [by apply byte_list1|apply writes_ret].
    + apply reads_or, (read_then _ _ [len] []); [by apply byte_list1|done|]. cbn [le_decode]. rewrite Z.mul_0_r, Z.add_0_r.
      rewrite type_bits, land_63 by done. rewrite (Z.div_small len 64), (Z.mod_small len 64) by lia. apply reads_ret.
  - rewrite bool_decide_false by done. destruct (decide (len < 2 ^ 14)) as [H14|H14].
    + rewrite bool_decide_true by done. assert (0 <= len / 256 < 64) by (Z.div_mod_to_equations; lia).
      rewrite (Z.mod_small (len / 256)) by lia. rewrite Z.lor_comm, (lor_shiftl_add 1 (len / 256) 6) by lia.
      change (1 * 2 ^ 6) with 64. rewrite uwrap_small by (unfold urange; lia).
      assert (is_byte (64 + len / 256)) as Hb0 by (unfold urange; lia).
      assert (is_byte (len mod 256)) as Hb1 by (unfold urange; apply Z.mod_pos_bound; lia).
      exists [64 + len / 256; len mod 256]. split; [simpl; lia|]. split.
      * apply (write_then _ _ [64 + len / 256; len mod 256] []); [by apply Forall_cons_2; [|apply byte_list1]|apply writes_ret].
      * apply reads_or, (read_then _ _ [64 + len / 256] [len mod 256]); [by apply byte_list1|done|].
        cbn [le_decode]. rewrite Z.mul_0_r, Z.add_0_r, type_bits, land_63 by done.
        replace ((64 + len / 256) / 64) with 1 by (Z.div_mod_to_equations; lia).
        replace ((64 + len / 256) mod 64) with (len / 256) by (Z.div_mod_to_equations; lia). cbn.
        apply (read_then _ _ [len mod 256] []); [by apply byte_list1|done|]. cbn [le_decode].
        rewrite Z.mul_0_r, Z.add_0_r, lor_shiftl_add by (unfold urange in Hb1; lia).
        replace (len / 256 * 2 ^ 8 + len mod 256) with len by (Z.div_mod_to_equations; lia). apply reads_ret.
    + rewrite bool_decide_false by done. destruct (be_encode32_ok len) as [Hok Hl4].
      exists ([128] ++ be_encode32 len). rewrite length_app, Hl4. split; [simpl; lia|]. split.
      * apply (write_then _ _ [128] (be_encode32 len)); [by apply byte_list1; unfold urange; lia|].
        apply write_last; [done|]. apply writes_ret.
      * apply reads_or, (read_then _ _ [128]); [by apply byte_list1; unfold urange; lia|done|]. cbn -[be_encode32].
        apply read_last; [done|by rewrite Hl4|]. rewrite rev_le_decode by done. apply reads_ret.
Qed.
End Codec.

(** ** Strings *)

(** The bytes of a string object; two objects are the same value when these are. *)
Definition same_value (o o' : robj) : Prop :=
  type_of o' = REDIS_STRING /\ exists s, getDecodedObject o = Some s /\ getDecodedObject o' = Some s.

Lemma integer_code v : rdbEncodeInteger v = [] \/
  exists t k w, rdbEncodeInteger v = (192 + t) :: le_encode k v /\ swrap w (le_decode (le_encode k v)) = v /\
    (t = 0 /\ k = 1%nat /\ w = 8 \/ t = 1 /\ k = 2%nat /\ w = 16 \/ t = 2 /\ k = 4%nat /\ w = 32).
Proof.
  unfold rdbEncodeInteger, enc_header, REDIS_RDB_ENCVAL, REDIS_RDB_ENC_INT8, REDIS_RDB_ENC_INT16, REDIS_RDB_ENC_INT32.
  rewrite !land_0xff, shiftr8, !(Z.shiftr_div_pow2 v) by done.
  repeat (case_bool_decide; [|]); try (by left); right.
  - exists 0, 1%nat, 8. split_and!; [done| |by left]. rewrite le_decode_encode. change (8 * Z.of_nat 1) with 8. rewrite swrap_uwrap by lia.
    apply swrap_small; [lia|unfold srange; lia].
  - exists 1, 2%nat, 16. split_and!; [done| |by right; left]. rewrite le_decode_encode. change (8 * Z.of_nat 2) with 16. rewrite swrap_uwrap by lia.
    apply swrap_small; [lia|unfold srange; lia].
  - exists 2, 4%nat, 32. split_and!; [|rewrite le_decode_encode; change (8 * Z.of_nat 4) with 32; rewrite swrap_uwrap by lia; apply swrap_small; [lia|unfold srange; lia]|by right; right].
    cbn [le_encode]. change (2 ^ 16) with (256 * 256). change (2 ^ 24) with (256 * 256 * 256).
    by rewrite <- !Z.div_div by lia.
Qed.

Lemma rdbLoadLen_encoded t : 0 <= t < 64 -> reads rdbLoadLen (t, true) [192 + t].
Proof.
  intros Ht. assert (is_byte (192 + t)) as Hb by (unfold urange; lia).
  apply reads_or, read_last; [by apply byte_list1|done|]. cbn [le_decode]. rewrite Z.mul_0_r, Z.add_0_r, type_bits, land_63 by done.
  replace ((192 + t) / 64) with 3 by (Z.div_mod_to_equations; lia).
  replace ((192 + t) mod 64) with t by (Z.div_mod_to_equations; lia). apply reads_ret.
Qed.

(** An object of the value [s] that the loading function returns, raw unless
    it may be encoded. *)
Definition loads_value (s bs : list Z) : Prop :=
  1 <= zlen bs /\ reads rdbLoadStringObject (Raw s) bs /\
  exists o, reads rdbLoadEncodedStringObject o bs /\ type_of o = REDIS_STRING /\ getDecodedObject o = Some s.

Lemma integer_object_reads encode v s : ll2string 32 v = Some s ->
  reads (integer_object encode v) (if encode then IntObj v else Raw s) [].
Proof.
  intros Hv. destruct encode; [apply reads_ret|]. eapply reads_bind_nil; [by apply reads_lift|apply reads_ret].
Qed.

Lemma integer_loads v s : rdbEncodeInteger v <> [] -> ll2string 32 v = Some s -> loads_value s (rdbEncodeInteger v).
Proof.
  intros Hne Hv. destruct (integer_code v) as [|(t & k & w & E & Hs & Htk)]; [done|]. rewrite E. split; [simpl; lia|].
  assert (forall encode, reads (rdbGenericLoadStringObject encode) (if encode then IntObj v else Raw s) ((192 + t) :: le_encode k v)) as H.
  { intros encode. change ((192 + t) :: le_encode k v) with ([192 + t] ++ le_encode k v).
    eapply reads_bind; [apply rdbLoadLen_encoded; lia|]. cbv beta iota.
    unfold REDIS_RDB_ENC_INT8, REDIS_RDB_ENC_INT16, REDIS_RDB_ENC_INT32. rewrite bool_decide_true by lia.
    unfold rdbLoadIntegerObject, REDIS_RDB_ENC_INT8, REDIS_RDB_ENC_INT16, REDIS_RDB_ENC_INT32.
    destruct Htk as [(-> & -> & ->)|[(-> & -> & ->)|(-> & -> & ->)]]; simpl bool_decide; cbv iota;
      (apply read_last; [apply le_encode_ok|by rewrite length_le_encode|]); rewrite Hs;
      by apply integer_object_reads. }
  split; [exact (H false)|]. exists (IntObj v). split; [exact (H true)|done].
Qed.

Lemma raw_loads s bs : 1 <= zlen bs -> (forall encode, reads (rdbGenericLoadStringObject encode) (Raw s) bs) -> loads_value s bs.
Proof. intros Hb H. split; [done|]. split; [exact (H false)|]. exists (Raw s). split; [exact (H true)|done]. Qed.

Lemma verbatim_loads s ls : zlen s < 2 ^ 32 - 1 -> bytes_ok s -> 1 <= zlen ls -> reads rdbLoadLen (zlen s, false) ls -> loads_value s (ls ++ s).
Proof.
  intros Hlen Hb Hls Hr. apply raw_loads; [rewrite length_app; lia|]. intros encode. eapply reads_bind; [exact Hr|]. cbv beta iota.
  unfold REDIS_RDB_LENERR. rewrite bool_decide_false by lia. case_bool_decide as H0.
  - eapply reads_end; [by apply rioRead_reads|apply reads_ret].
  - destruct s; [|simpl in H0; lia]. eapply reads_bind_nil; apply reads_ret.
Qed.

Section Strings.
Context (accepts : list Z -> list Z -> bool) (base : Z) (junk : Z -> Z) (fill : nat -> Z) (compression : bool).
Hypothesis Haccepts : forall a b, accepts a b = true.
Hypothesis Hbase : MAX_OFF <= base.

(** A string that fits in memory after [base], and whose length is not the
    one reserved for errors. *)
Definition storable (s : list Z) : Prop := bytes_ok s /\ zlen s < 2 ^ 32 - 1 /\ base + zlen s < 2 ^ 64.

Definition saves_value (m : IO Z) (s : list Z) : Prop :=
  exists n bs, 0 < n /\ writes m n bs /\ loads_value s bs.

Lemma verbatim_saves s : storable s -> saves_value (rdbSaveVerbatim accepts s) s.
Proof using Haccepts.
  intros (Hb & Hlen & _). destruct (rdbLen_codec accepts Haccepts (zlen s)) as (ls & Hls & Hw & Hr); [unfold urange; lia|].
  exists (zlen ls + zlen s), (ls ++ s). split; [lia|]. split.
  - eapply writes_bind; [exact Hw|]. cbv beta. case_bool_decide as H0.
    + apply write_last; [done|done|]. apply writes_ret.
    + destruct s; [|simpl in H0; lia]. simpl. rewrite Z.add_0_r. apply writes_ret.
  - by apply verbatim_loads.
Qed.

Lemma lzf_loads s e cl sl : storable s -> s <> [] -> codes e s -> zlen e < 2 ^ 32 - 1 ->
  reads rdbLoadLen (zlen e, false) cl -> reads rdbLoadLen (zlen s, false) sl ->
  forall encode, reads (rdbGenericLoadStringObject encode) (Raw s) ([192 + REDIS_RDB_ENC_LZF] ++ cl ++ sl ++ e).
Proof.
  intros (Hb & Hlen & _) Hne He Hle Hc Hs encode. assert (0 < zlen s) by (destruct s; [done|simpl; lia]).
  eapply reads_bind; [apply rdbLoadLen_encoded; by unfold REDIS_RDB_ENC_LZF|]. cbv beta iota. rewrite bool_decide_false by
    (unfold REDIS_RDB_ENC_LZF, REDIS_RDB_ENC_INT8, REDIS_RDB_ENC_INT16, REDIS_RDB_ENC_INT32; lia).
  rewrite bool_decide_true by done. unfold rdbLoadLzfStringObject, REDIS_RDB_LENERR.
  eapply reads_bind; [exact Hc|]. cbv beta iota. rewrite bool_decide_false by lia.
  eapply reads_bind; [exact Hs|]. cbv beta iota. rewrite bool_decide_false by lia.
  apply read_last; [by eapply codes_bytes|done|]. eapply reads_bind_nil.
  - apply reads_lift. pose proof (lzf_decompress_codes e s (repeat 0 (Z.to_nat (zlen s))) He Hne ltac:(rewrite repeat_length; lia)) as Hd.
    replace (zlen (repeat 0 (Z.to_nat (zlen s)))) with (zlen s) in Hd by (rewrite repeat_length; lia). exact Hd.
  - cbv beta iota. cbn [d_op d_out]. rewrite bool_decide_false by lia.
    rewrite drop_ge, app_nil_r by (rewrite repeat_length; lia). apply reads_ret.
Qed.

(** Either nothing is written and the result is 0, or the string is saved. *)
Lemma lzf_saves s : storable s -> 20 < zlen s ->
  writes (rdbSaveLzfStringObject accepts base junk fill s) 0 [] \/
  saves_value (rdbSaveLzfStringObject accepts base junk fill s) s.
Proof using Haccepts Hbase.
  intros Hst H20. pose proof Hst as (Hb & Hlen & Hend). unfold rdbSaveLzfStringObject. rewrite bool_decide_false by lia.
  destruct (lzf_compress_spec base junk s (zlen s - 4) Hb Hbase Hend ltac:(lia) (zmalloc fill (zlen s - 4 + 1)))
    as (n & out & Hrun & Hol & Hn & Hres); [lia|lia|unfold zmalloc; rewrite length_realloc; lia|].
  destruct (decide (n = 0)) as [->|Hn0].
  { left. eapply writes_bind_nil; [by apply writes_lift|]. cbv beta iota. rewrite bool_decide_true by done. apply writes_ret. }
  right. destruct Hres as [[? _]|Hc]; [done|]. set (e := take (Z.to_nat n) out) in *.
  assert (zlen e = n) as Hle by (unfold e; rewrite length_take; lia).
  destruct (rdbLen_codec accepts Haccepts (zlen e)) as (cl & Hcl & Hcw & Hcr); [unfold urange; lia|].
  destruct (rdbLen_codec accepts Haccepts (zlen s)) as (sl & Hsl & Hsw & Hsr); [unfold urange; lia|].
  exists (1 + zlen cl + zlen sl + zlen e), ([192 + REDIS_RDB_ENC_LZF] ++ cl ++ sl ++ e). split; [lia|]. split.
  - eapply writes_bind_nil; [by apply writes_lift|]. cbv beta iota. rewrite bool_decide_false by done.
    apply (write_then _ Haccepts _ _ [192 + REDIS_RDB_ENC_LZF]); [by apply byte_list1|]. rewrite Hle in Hcw.
    eapply writes_bind; [exact Hcw|]. eapply writes_bind; [exact Hsw|]. fold e.
    apply write_last; [done|by eapply codes_bytes|]. apply writes_ret.
  - apply raw_loads; [rewrite !length_app; simpl; lia|].
    apply lzf_loads; try done; [by intros ->|lia].
Qed.
End Strings.

(** ** Objects and keys *)

Lemma ll2string_short v s : ll2string 32 v = Some s -> zlen s < 32.
Proof.
  unfold ll2string. rewrite bool_decide_false by done. destruct (loop _ _ _) as [p|]; [|done]. bind_simpl.
  intros [= <-]. rewrite length_take. case_bool_decide; lia.
Qed.

Lemma try_integer s : exists enc, rdbTryIntegerEncoding s = Some enc /\
  (enc <> [] -> exists v, enc = rdbEncodeInteger v /\ ll2string 32 v = Some s).
Proof.
  unfold rdbTryIntegerEncoding. destruct (strtoll s) as [[v rest] e] eqn:Hs. case_bool_decide; [by exists []|].
  apply strtoll_range in Hs as Hv. destruct (string2ll_print 32 v ltac:(lia) Hv) as (buf & Hbuf & _). rewrite Hbuf.
  bind_simpl. case_bool_decide as Hne; [by exists []|]. exists (rdbEncodeInteger v). split; [done|]. intros _. exists v.
  by subst buf.
Qed.

Lemma encode_integer_ok v : bytes_ok (rdbEncodeInteger v).
Proof.
  destruct (integer_code v) as [->|(t & k & w & -> & _ & Htk)]; [done|]. apply Forall_cons_2; [unfold urange; lia|apply le_encode_ok].
Qed.

Section Objects.
Context (accepts : list Z -> list Z -> bool) (base : Z) (junk : Z -> Z) (fill : nat -> Z) (compression : bool).
Hypothesis Haccepts : forall a b, accepts a b = true.
Hypothesis Hbase : MAX_OFF <= base.

Definition storable_object (o : robj) : Prop :=
  type_of o = REDIS_STRING /\ exists s, getDecodedObject o = Some s /\ storable base s.

Lemma rdbSaveRawString_saves s : storable base s ->
  saves_value (rdbSaveRawString accepts base junk fill compression s) s.
Proof using Haccepts Hbase.
  intros Hst. unfold rdbSaveRawString.
  assert (exists enc, writes (if bool_decide (zlen s <= 11) then io_lift (rdbTryIntegerEncoding s) else mret []) enc [] /\
    (enc <> [] -> exists v, enc = rdbEncodeInteger v /\ ll2string 32 v = Some s)) as (enc & Hw & Henc).
  { case_bool_decide; [|exists []; split; [apply writes_ret|done]]. destruct (try_integer s) as (enc & H1 & H2).
    exists enc. split; [by apply writes_lift|done]. }
  destruct (decide (enc = [])) as [->|Hne].
  - assert (exists n, writes (if bool_decide (compression = true /\ zlen s > 20)
      then rdbSaveLzfStringObject accepts base junk fill s else mret 0) n [] /\ n = 0 \/
      saves_value (if bool_decide (compression = true /\ zlen s > 20)
      then rdbSaveLzfStringObject accepts base junk fill s else mret 0) s) as (n & [[Hn ->]|(n' & bs & Hn' & Hnw & Hl)]).
    { exists 0. destruct (bool_decide_reflect (compression = true /\ zlen s > 20)) as [Hc|Hc]; [|left; split; [apply writes_ret|done]].
      destruct (lzf_saves accepts base junk fill Haccepts Hbase s Hst) as [|]; [lia|by left|by right]. }
    + destruct (verbatim_saves accepts base Haccepts s Hst) as (n & bs & Hn' & Hnw & Hl). exists n, bs. split; [done|]. split; [|done].
      eapply writes_bind_nil; [exact Hw|]. rewrite bool_decide_false by (by intros []). eapply writes_bind_nil; [exact Hn|].
      by rewrite bool_decide_false.
    + exists n', bs. split; [done|]. split; [|done]. eapply writes_bind_nil; [exact Hw|]. rewrite bool_decide_false by (by intros []).
      eapply writes_end; [exact Hnw|]. rewrite bool_decide_true by lia. apply writes_ret.
  - destruct (Henc Hne) as (v & -> & Hv). destruct (integer_loads v s Hne Hv) as (H1 & Hl).
    exists (zlen (rdbEncodeInteger v)), (rdbEncodeInteger v). split; [lia|]. split; [|by split].
    eapply writes_bind_nil; [exact Hw|]. rewrite bool_decide_true by done.
    apply write_last; [done|apply encode_integer_ok|apply writes_ret].
Qed.

Lemma rdbSaveStringObject_saves o s : getDecodedObject o = Some s -> storable base s ->
  saves_value (rdbSaveStringObject accepts base junk fill compression o) s.
Proof using Haccepts Hbase.
  destruct o as [r|v|]; [intros [= ->]; apply rdbSaveRawString_saves| |done]. simpl. intros Hv Hst. pose proof Hst as (Hb & Hlen & _).
  unfold rdbSaveLongLongAsStringObject. case_bool_decide as Hne.
  - destruct (integer_loads v s Hne Hv) as (H1 & Hl). exists (zlen (rdbEncodeInteger v)), (rdbEncodeInteger v).
    split; [lia|]. split; [|by split]. apply rdbWriteRaw_writes; [done|apply encode_integer_ok].
  - destruct (rdbLen_codec accepts Haccepts (zlen s)) as (ls & Hls & Hw & Hr); [unfold urange; lia|].
    exists (zlen ls + zlen s), (ls ++ s). split; [lia|]. split; [|by apply verbatim_loads].
    eapply writes_bind_nil; [by apply writes_lift|]. cbv beta. rewrite bool_decide_true by by eapply ll2string_short.
    eapply writes_bind; [exact Hw|]. apply write_last; [done|done|]. apply writes_ret.
Qed.

(** A type byte and a value, as in DUMP and in the file. *)
Lemma rdbLoadObject_reads s bs : loads_value s bs ->
  exists o', reads (rdbLoadObject REDIS_RDB_TYPE_STRING) o' bs /\ type_of o' = REDIS_STRING /\ getDecodedObject o' = Some s.
Proof.
  intros (_ & _ & o & Hr & Ht & Ho). exists (try_encoding o). split.
  - unfold rdbLoadObject. rewrite bool_decide_true by done. eapply reads_end; [exact Hr|apply reads_ret].
  - destruct o as [r|v|]; simpl in *; [|done|done]. simplify_eq. destruct (tryObjectEncoding_bytes s). done.
Qed.

Lemma rdbSaveObject_saves o s : type_of o = REDIS_STRING -> getDecodedObject o = Some s -> storable base s ->
  saves_value (rdbSaveObject accepts base junk fill compression o) s.
Proof using Haccepts Hbase. intros Ht Ho Hs. unfold rdbSaveObject. rewrite Ht. by apply rdbSaveStringObject_saves. Qed.

Lemma rdbSaveObjectType_writes o : type_of o = REDIS_STRING -> writes (rdbSaveObjectType accepts o) 1 [REDIS_RDB_TYPE_STRING].
Proof using Haccepts.
  intros Ht. unfold rdbSaveObjectType. rewrite Ht. apply rdbSaveType_writes; [done|]. unfold urange, REDIS_RDB_TYPE_STRING. lia.
Qed.

Lemma ms_time_reads t : srange 64 t -> reads rdbLoadMillisecondTime t (le_encode 8 (uwrap 64 t)).
Proof.
  intros Ht. apply read_last; [apply le_encode_ok|by rewrite length_le_encode|].
  rewrite le_decode_encode. change (8 * Z.of_nat 8) with 64. rewrite (uwrap_small 64 (uwrap 64 t)) by (apply uwrap_range; lia).
  rewrite swrap_uwrap, swrap_small by (done || lia). apply reads_ret.
Qed.

(** A key that has not expired is an item of the file. *)
Lemma key_codec key o e now : storable base key -> storable_object o -> srange 64 e -> (e = -1 \/ now <= e) ->
  exists bs o', 1 <= zlen bs /\ writes (rdbSaveKeyValuePair accepts base junk fill compression key o e now) 1 bs /\
    reads load_item (ItemKey (Raw key) o' e) bs /\ same_value o o'.
Proof using Haccepts Hbase.
  intros Hkey (Ht & s & Ho & Hs) He Hlive.
  destruct (rdbSaveRawString_saves key Hkey) as (nk & kb & _ & Hkw & (_ & Hkr & _)).
  destruct (rdbSaveObject_saves o s Ht Ho Hs) as (nv & vb & _ & Hvw & Hvl).
  destruct (rdbLoadObject_reads s vb Hvl) as (o' & Hvr & Ht' & Ho').
  set (tb := if bool_decide (e = -1) then [] else REDIS_RDB_OPCODE_EXPIRETIME_MS :: le_encode 8 (uwrap 64 e)).
  exists (tb ++ [REDIS_RDB_TYPE_STRING] ++ kb ++ vb), o'. split; [rewrite !length_app; simpl; lia|]. split_and!.
  - unfold rdbSaveKeyValuePair. rewrite bool_decide_false by lia. unfold tb.
    eapply writes_bind.
    { destruct (decide (e = -1)) as [->|Hne]; [apply writes_ret|]. rewrite bool_decide_true, bool_decide_false by done.
      eapply (writes_bind _ _ _ _ [REDIS_RDB_OPCODE_EXPIRETIME_MS]);
        [apply rdbSaveType_writes; [done|by apply (bool_decide_unpack _); vm_compute]|].
      apply write_last; [done|apply le_encode_ok|apply writes_ret]. }
    eapply (writes_bind _ _ _ _ [REDIS_RDB_TYPE_STRING]); [by apply rdbSaveObjectType_writes|].
    eapply writes_bind; [exact Hkw|]. eapply writes_end; [exact Hvw|apply writes_ret].
  - unfold load_item. rewrite app_assoc. eapply (reads_bind _ _ (REDIS_RDB_TYPE_STRING, e)).
    { unfold load_type_expire, tb. destruct (decide (e = -1)) as [->|Hne].
      - eapply (reads_end _ _ REDIS_RDB_TYPE_STRING); [apply rdbLoadType_reads; by apply (bool_decide_unpack _); vm_compute|apply reads_ret].
      - rewrite (bool_decide_false (e = -1)) by done.
        change ((REDIS_RDB_OPCODE_EXPIRETIME_MS :: le_encode 8 (uwrap 64 e)) ++ [REDIS_RDB_TYPE_STRING])
          with ([REDIS_RDB_OPCODE_EXPIRETIME_MS] ++ le_encode 8 (uwrap 64 e) ++ [REDIS_RDB_TYPE_STRING]).
        eapply reads_bind; [apply rdbLoadType_reads; by apply (bool_decide_unpack _); vm_compute|].
        rewrite bool_decide_false, bool_decide_true by done. eapply reads_bind; [by apply ms_time_reads|].
        rewrite (bool_decide_false (e = -1)) by done.
        eapply (reads_end _ _ REDIS_RDB_TYPE_STRING); [apply rdbLoadType_reads; by apply (bool_decide_unpack _); vm_compute|apply reads_ret]. }
    cbv beta iota. rewrite !bool_decide_false by done. eapply reads_bind; [exact Hkr|].
    eapply reads_end; [exact Hvr|apply reads_ret].
  - split; [done|]. by exists s.
Qed.

Lemma select_codec j : 0 <= j < 2 ^ 32 - 1 -> exists bs, 1 <= zlen bs /\
  writes (rdbSaveType accepts REDIS_RDB_OPCODE_SELECTDB;; rdbSaveLen accepts j) (zlen bs - 1) bs /\
  reads load_item (ItemSelect j) bs.
Proof using Haccepts.
  intros Hj. destruct (rdbLen_codec accepts Haccepts j) as (lb & Hl & Hw & Hr); [unfold urange; lia|].
  exists ([REDIS_RDB_OPCODE_SELECTDB] ++ lb). rewrite length_app. split; [simpl; lia|]. split.
  - eapply (writes_bind _ _ 1); [apply rdbSaveType_writes; [done|by apply (bool_decide_unpack _); vm_compute]|].
    simpl length. replace (Z.of_nat (1 + length lb) - 1) with (zlen lb) by lia. exact Hw.
  - unfold load_item. eapply (reads_bind _ _ (REDIS_RDB_OPCODE_SELECTDB, -1) _ [REDIS_RDB_OPCODE_SELECTDB]).
    + eapply (reads_end _ _ REDIS_RDB_OPCODE_SELECTDB); [apply rdbLoadType_reads; by apply (bool_decide_unpack _); vm_compute|apply reads_ret].
    + cbv beta iota. rewrite bool_decide_false, bool_decide_true by done. eapply reads_end; [exact Hr|].
      cbv beta iota. unfold REDIS_RDB_LENERR. rewrite bool_decide_false by lia. apply reads_ret.
Qed.

Lemma eof_reads : reads load_item ItemEof [REDIS_RDB_OPCODE_EOF].
Proof.
  eapply (reads_end _ _ (REDIS_RDB_OPCODE_EOF, -1)); [|apply reads_ret].
  eapply (reads_end _ _ REDIS_RDB_OPCODE_EOF); [apply rdbLoadType_reads; by apply (bool_decide_unpack _); vm_compute|apply reads_ret].
Qed.
End Objects.
