(* ===== verification/RdbSpecs.v ===== *)
(** * What is saved is loaded

    The file as a sequence of items, what loading them does to the databases,
    the payloads of DUMP, and the theorems. *)
From Stdlib Require Import String.
From S2P Require Import Prelude Memory Util Sds Lzf LzfSpecs Crc64 Server StringCommands Transactions ServerLogic StringEffects.
From S2P Require Import ServerProperties StringSpecs Rdb RdbLogic.

(** ** The file *)

(** What the file says of a database: keys, values, expire times. *)
Definition entry : Type := list Z * robj * Z.
Definition item_of (x : entry) : rdb_item := let '(k, v, e) := x in ItemKey (Raw k) v e.

Definition expire_of (db : redisDb) (key : list Z) : Z := default (-1) (db_expires db !! key).
Definition live (now e : Z) : Prop := e = -1 \/ now <= e.
#[export] Instance live_dec now e : Decision (live now e).
Proof. unfold live. apply _. Defined.

(** The entries [L] of the file for the entries of a database that are alive. *)
Definition saved_entry (db : redisDb) (ko : list Z * robj) (x : entry) : Prop :=
  let '(k, v, e) := x in k = ko.1 /\ e = expire_of db k /\ same_value ko.2 v.
Definition saved_entries (db : redisDb) (now : Z) (entries : list (list Z * robj)) (L : list entry) : Prop :=
  Forall2 (saved_entry db) (filter (fun ko => live now (expire_of db ko.1)) entries) L.

(** A sequence of items, each read with at least one byte. *)
Inductive items_code : list rdb_item -> list Z -> Prop :=
| items_nil : items_code [] []
| items_cons it b its bs : reads load_item it b -> 1 <= zlen b -> items_code its bs -> items_code (it :: its) (b ++ bs).

Lemma items_app its1 bs1 its2 bs2 : items_code its1 bs1 -> items_code its2 bs2 -> items_code (its1 ++ its2) (bs1 ++ bs2).
Proof. induction 1; intros; [done|]. simpl. rewrite <- app_assoc. constructor; eauto. Qed.

Lemma items_length its bs : items_code its bs -> (length its <= length bs)%nat.
Proof. induction 1; simpl; [lia|]. rewrite length_app. lia. Qed.

(** The items of the databases from [j] on. *)
Fixpoint file_items (j : nat) (Ls : list (option (list entry))) : list rdb_item :=
  match Ls with
  | [] => []
  | None :: Ls => file_items (S j) Ls
  | Some L :: Ls => ItemSelect (Z.of_nat j) :: (item_of <$> L) ++ file_items (S j) Ls
  end.

(** The databases that are saved, with their entries: the others are empty. *)
Definition saved_db (now : Z) (db : redisDb) (L : option (list entry)) : Prop :=
  match L with
  | None => db_dict db = ∅
  | Some L => exists entries, entries ≡ₚ map_to_list (db_dict db) /\ saved_entries db now entries L
  end.

Section Save.
Context (accepts : list Z -> list Z -> bool) (base : Z) (junk : Z -> Z) (fill : nat -> Z) (compression : bool).
Context (iter : nat -> list (list Z * robj)).
Hypothesis Haccepts : forall a b, accepts a b = true.
Hypothesis Hbase : MAX_OFF <= base.

(** Strings that can be saved, expire times of 64 bits, and an iteration that
    yields every entry once. *)
Record db_ok (db : redisDb) : Prop := {
  dbok_values : map_Forall (fun k o => storable base k /\ storable_object base o) (db_dict db);
  dbok_expires : map_Forall (fun k e => srange 64 e /\ is_Some (db_dict db !! k)) (db_expires db) }.

Lemma getExpire_run s j db key : s_db s !! j = Some db -> is_Some (db_dict db !! key) ->
  getExpire j key s = Some (expire_of db key, s).
Proof.
  intros Hj Hk. unfold getExpire, database, lift, mbind, M_bind, expire_of. rewrite Hj.
  destruct (db_expires db !! key); [|done]. unfold redisAssert. by rewrite bool_decide_true.
Qed.

Lemma save_entries_writes s now j db entries : s_db s !! j = Some db -> db_ok db ->
  Forall (fun ko => db_dict db !! ko.1 = Some ko.2) entries ->
  exists bs L, writes (save_entries accepts base junk fill compression s now j entries) tt bs /\
    items_code (item_of <$> L) bs /\ saved_entries db now entries L.
Proof using Haccepts Hbase.
  intros Hj [Hv He] Hin. induction Hin as [|[k o] entries Hk _ (bs & L & Hw & Hi & HL)].
  { exists [], []. split_and!; [apply writes_ret|constructor|constructor]. }
  simpl in Hk. destruct (Hv k o Hk) as [Hsk Hso]. unfold saved_entries. rewrite filter_cons. simpl.
  assert (srange 64 (expire_of db k)) as Her.
  { unfold expire_of. destruct (db_expires db !! k) as [e|] eqn:E; [by destruct (He k e E)|by vm_compute]. }
  assert (writes (io_lift (getExpire j k s)) (expire_of db k, s) []) as Hg by (by apply writes_lift, getExpire_run).
  destruct (decide (live now (expire_of db k))) as [Hl|Hl].
  - destruct (key_codec accepts base junk fill compression Haccepts Hbase k o (expire_of db k) now Hsk Hso Her Hl)
      as (kb & o' & Hkb & Hkw & Hkr & Hsame).
    exists (kb ++ bs), ((k, o', expire_of db k) :: L). split_and!.
    + simpl. eapply writes_bind_nil; [exact Hg|]. cbv beta iota. eapply writes_bind; [exact Hkw|exact Hw].
    + simpl. by constructor.
    + by constructor.
  - exists bs, L. split_and!; [|done|done]. simpl. eapply writes_bind_nil; [exact Hg|]. cbv beta iota.
    eapply (writes_bind_nil _ _ 0); [|exact Hw]. unfold rdbSaveKeyValuePair. rewrite bool_decide_true; [apply writes_ret|].
    unfold live in Hl. lia.
Qed.

Lemma save_dbs_writes s now j dbs : drop j (s_db s) = dbs -> (forall i db, s_db s !! i = Some db -> db_ok db) ->
  (forall i db, s_db s !! i = Some db -> iter i ≡ₚ map_to_list (db_dict db)) -> zlen (s_db s) < 2 ^ 32 - 1 ->
  exists bs Ls, writes (save_dbs accepts base junk fill compression iter s now j dbs) tt bs /\
    items_code (file_items j Ls) bs /\ Forall2 (saved_db now) dbs Ls.
Proof using Haccepts Hbase.
  intros Hdrop Hok Hiter Hn. revert j Hdrop. induction dbs as [|db dbs IH]; intros j Hdrop.
  { exists [], []. split_and!; [apply writes_ret|constructor|constructor]. }
  assert (s_db s !! j = Some db) as Hj by (rewrite <- (Nat.add_0_r j), <- lookup_drop, Hdrop; done).
  apply lookup_lt_Some in Hj as Hlt.
  destruct (IH (S j)) as (bs & Ls & Hw & Hi & HL); [by rewrite <- Nat.add_1_r, <- drop_drop, Hdrop|].
  cbn [save_dbs]. unfold save_db. destruct (decide (base.size (db_dict db) = O)) as [H0|H0].
  - exists bs, (None :: Ls). split_and!; [|done|constructor; [|done]].
    + rewrite bool_decide_true by done. eapply writes_bind_nil; [apply writes_ret|exact Hw].
    + by apply map_size_empty_iff.
  - rewrite bool_decide_false by done.
    destruct (save_entries_writes s now j db (iter j) Hj (Hok _ _ Hj)) as (eb & L & Hew & Hei & HeL).
    { rewrite (Hiter j db Hj). apply Forall_forall. intros [k o] Hin. by apply elem_of_map_to_list in Hin. }
    destruct (select_codec accepts Haccepts (Z.of_nat j)) as (sb & Hsb & Hsw & Hsr); [lia|].
    exists (sb ++ eb ++ bs), (Some L :: Ls). split_and!.
    + rewrite app_assoc. eapply writes_bind; [|exact Hw].
      destruct Hsw as [Hb Hsw]. split; [by apply Forall_app; split; [done|apply Hew]|]. intros r Hr.
      specialize (Hsw r Hr). unfold mbind, IO_bind in *. destruct (rdbSaveType _ _ r) as [a r'|r'|]; [|done..].
      rewrite Hsw. destruct Hew as [_ Hew]. rewrite Hew by by apply wrote_ok. by rewrite wrote_app.
    + simpl. constructor; [done|lia|]. by apply items_app.
    + constructor; [|done]. exists (iter j). split; [by apply Hiter|done].
Qed.

Lemma rdb_magic_ok : bytes_ok rdb_magic.
Proof. by apply (bool_decide_unpack _); vm_compute. Qed.

(** The file: the signature, the items, the end, the checksum of all that. *)
Lemma rdb_body_file checksum s now : (forall i db, s_db s !! i = Some db -> db_ok db) ->
  (forall i db, s_db s !! i = Some db -> iter i ≡ₚ map_to_list (db_dict db)) -> zlen (s_db s) < 2 ^ 32 - 1 ->
  exists bs Ls r, rdb_body accepts base junk fill compression iter s now (Rio [] 0 checksum 0 0 0) = Ok tt r /\
    io_buf r = rdb_magic ++ bs ++ [REDIS_RDB_OPCODE_EOF] ++
      le_encode 8 (if checksum then crc_spec 0 (rdb_magic ++ bs ++ [REDIS_RDB_OPCODE_EOF]) else 0) /\
    bytes_ok bs /\ items_code (file_items 0 Ls) bs /\ Forall2 (saved_db now) (s_db s) Ls.
Proof using Haccepts Hbase.
  intros Hok Hiter Hn. destruct (save_dbs_writes s now 0 (s_db s) eq_refl Hok Hiter Hn) as (bs & Ls & Hw & Hi & HL).
  assert (writes (rdbWriteRaw accepts rdb_magic;; save_dbs accepts base junk fill compression iter s now 0 (s_db s);;
      rdbSaveType accepts REDIS_RDB_OPCODE_EOF) 1 (rdb_magic ++ bs ++ [REDIS_RDB_OPCODE_EOF])) as [Hb Hall].
  { eapply writes_bind; [apply rdbWriteRaw_writes; [done|apply rdb_magic_ok]|]. eapply writes_bind; [exact Hw|].
    apply rdbSaveType_writes; [done|]. by apply (bool_decide_unpack _); vm_compute. }
  set (r0 := Rio [] 0 checksum 0 0 0) in *. assert (rio_ok r0) as Hr0 by (by constructor).
  specialize (Hall r0 Hr0). set (all := rdb_magic ++ bs ++ [REDIS_RDB_OPCODE_EOF]) in *.
  assert (rio_ok (wrote all r0)) as Hr1 by by apply wrote_ok.
  destruct (rioWrite_writes accepts Haccepts (le_encode 8 (cksum (wrote all r0))) (le_encode_ok _ _)) as [_ Hsum].
  specialize (Hsum (wrote all r0) Hr1).
  eexists bs, Ls, _. split; [|split; [|split_and!; [apply Hw|exact Hi|exact HL]]].
  - unfold rdb_body. unfold mbind, IO_bind in *. destruct (rdbWriteRaw accepts rdb_magic r0) as [a r|r|]; [|done..].
    destruct (save_dbs _ _ _ _ _ _ _ _ _ _ r) as [a' r'|r'|]; [|done..].
    destruct (rdbSaveType accepts REDIS_RDB_OPCODE_EOF r') as [a'' r''|r''|]; [|done..]. injection Hall as -> ->.
    unfold write_checksum. by rewrite Hsum.
  - simpl. unfold all. rewrite <- !app_assoc. done.
Qed.
End Save.

(** ** Loading *)

(** What loading an entry does to a database: an expired key is dropped by a
    master, kept by a slave. *)
Definition kept (slave : bool) (now e : Z) : Prop := slave = true \/ live now e.
#[export] Instance kept_dec slave now e : Decision (kept slave now e).
Proof. unfold kept. apply _. Defined.

Definition load_entry (slave : bool) (now : Z) (db : redisDb) (x : entry) : redisDb :=
  let '(k, v, e) := x in
  if decide (kept slave now e)
  then RedisDb (<[k := v]> (db_dict db)) (if decide (e = -1) then db_expires db else <[k := e]> (db_expires db)) (db_watched db)
  else db.

Definition load_all (slave : bool) (now : Z) : redisDb -> list entry -> redisDb := foldl (load_entry slave now).

Abbreviation key_of x := (x.1.1 : list Z).

Lemma load_all_lookup slave now db L k : NoDup ((fun x : entry => key_of x) <$> L) ->
  (forall v e, (k, v, e) ∈ L -> kept slave now e ->
    db_dict (load_all slave now db L) !! k = Some v /\
    db_expires (load_all slave now db L) !! k = if decide (e = -1) then db_expires db !! k else Some e) /\
  ((forall v e, (k, v, e) ∈ L -> ~ kept slave now e) ->
    db_dict (load_all slave now db L) !! k = db_dict db !! k /\
    db_expires (load_all slave now db L) !! k = db_expires db !! k).
Proof.
  revert db. induction L as [|[[k' v'] e'] L IH]; intros db Hnd; [by split; [intros ?? ?%elem_of_nil|]|].
  apply NoDup_cons in Hnd as [Hni Hnd]. simpl in Hni. change (load_all slave now db ((k', v', e') :: L))
    with (load_all slave now (load_entry slave now db (k', v', e')) L).
  destruct (IH (load_entry slave now db (k', v', e')) Hnd) as [Hkept Hother]. clear IH. split.
  - intros v e [Heq|Hin]%elem_of_cons Hk.
    + simplify_eq. destruct Hother as [-> ->].
      { intros v e Hin _. apply Hni. apply list_elem_of_fmap. by exists (k', v, e). }
      unfold load_entry. rewrite decide_True by done. simpl. rewrite lookup_insert_eq. split; [done|].
      case_decide; [done|]. by rewrite lookup_insert_eq.
    + pose proof (Hkept v e Hin Hk) as [E1 E2]. rewrite E1, E2. split; [done|]. case_decide; [|done].
      unfold load_entry. case_decide; [|done]. simpl. case_decide; [done|]. rewrite lookup_insert_ne; [done|].
      intros ->. apply Hni. apply list_elem_of_fmap. by exists (k, v, e).
  - intros Hno. destruct Hother as [-> ->]; [intros v e Hin; by apply (Hno v e), elem_of_cons; right|].
    unfold load_entry. case_decide as Hk; [|done]. assert (k <> k') by (intros ->; apply (Hno v' e'); [by apply elem_of_cons; left|done]).
    simpl. rewrite lookup_insert_ne by done. split; [done|]. case_decide; [done|]. by rewrite lookup_insert_ne.
Qed.

Definition apply_item (now : Z) (st : nat * server) (it : rdb_item) : option (nat * server) :=
  let '(db, s) := st in
  match it with
  | ItemEof => None
  | ItemSelect dbid => if bool_decide (dbid >= zlen (s_db s)) then None else Some (Z.to_nat dbid, s)
  | ItemKey key val e => '(_, s) ← load_key now db key val e s; Some (db, s)
  end.

Fixpoint apply_items (now : Z) (st : nat * server) (its : list rdb_item) : option (nat * server) :=
  match its with
  | [] => Some st
  | it :: its => st ← apply_item now st it; apply_items now st its
  end.

Lemma apply_items_app now st its1 its2 : apply_items now st (its1 ++ its2) = apply_items now st its1 ≫= fun st => apply_items now st its2.
Proof. revert st. induction its1 as [|it its1 IH]; intros st; [done|]. simpl. destruct (apply_item now st it); simpl; auto. Qed.

Lemma eof_ok : bytes_ok [REDIS_RDB_OPCODE_EOF].
Proof. by apply (bool_decide_unpack _); vm_compute. Qed.

(** The loop of [rdbLoad] applies the items up to the end marker. *)
Lemma load_loop now its bs : items_code its bs -> forall r rest st st' fuel, rio_ok r ->
  ahead r (bs ++ [REDIS_RDB_OPCODE_EOF] ++ rest) -> apply_items now st its = Some st' -> (length its < fuel)%nat ->
  loop fuel (fun x => as_step (load_step now x)) (st.1, r, st.2) =
    Some (Some (RdbOk, skipped (bs ++ [REDIS_RDB_OPCODE_EOF]) r, st'.2)).
Proof.
  induction 1 as [|it b its bs Hit Hb Hits IH]; intros r rest [db s] st' fuel Hr Ha Hap Hf;
    (destruct fuel as [|fuel]; [simpl in Hf; lia|]); rewrite loop_S; unfold load_step; cbn [fst snd].
  - destruct eof_reads as [_ He]. rewrite (He r rest) by done. simpl in Hap. by simplify_eq/=.
  - destruct Hit as [Hbok Hit]. rewrite <- app_assoc in Ha. rewrite (Hit r (bs ++ [REDIS_RDB_OPCODE_EOF] ++ rest)) by done.
    cbn [apply_items] in Hap. destruct (apply_item now (db, s) it) as [[db1 s1]|] eqn:Hap1; [|done].
    assert (loop fuel (fun x => as_step (load_step now x)) (db1, skipped b r, s1) =
      Some (Some (RdbOk, skipped (bs ++ [REDIS_RDB_OPCODE_EOF]) (skipped b r), st'.2))) as Hgo.
    { apply (IH _ rest (db1, s1)); [by apply skipped_ok|by apply skipped_ahead|done|simpl in Hf; lia]. }
    rewrite skipped_app, app_assoc in Hgo. destruct it as [|dbid|key val e]; simpl in Hap1; [done| |].
    + case_bool_decide; [done|]. simplify_eq. simpl. exact Hgo.
    + destruct (load_key now db key val e s) as [[[] s2]|]; [|done]. simpl in Hap1. simplify_eq. simpl. exact Hgo.
Qed.

Lemma set_dbs_same s : set_dbs (s_db s) s = s.
Proof. by destruct s. Qed.

Lemma alter_at {A} (f : A -> A) (i : nat) (l : list A) x y : l !! i = Some x -> f x = y -> alter f i l = <[i := y]> l.
Proof. intros Hl Hf. rewrite list_insert_alter. apply list_alter_ext; [|done]. intros z Hz. by simplify_eq. Qed.

Lemma load_key_run now j k v e s db : s_db s !! j = Some db -> db_dict db !! k = None ->
  load_key now j (Raw k) v e s =
    Some (tt, set_dbs (<[j := load_entry (masterhost (s_conf s)) now db (k, v, e)]> (s_db s)) s).
Proof.
  intros Hj Hk. unfold load_key, load_entry, mbind, M_bind, gets. case_bool_decide as Hc.
  - rewrite decide_False by (unfold kept, live; destruct Hc as (-> & ? & ?); intros [|]; [done|lia]).
    rewrite list_insert_id by done. by rewrite set_dbs_same.
  - assert (kept (masterhost (s_conf s)) now e) as Hkept.
    { unfold kept, live. destruct (masterhost (s_conf s)); [by left|]. right. lia. }
    rewrite decide_True by done. unfold lift, dbAdd, database, mbind, M_bind, redisAssert, on_db, modify, lift.
    rewrite Hj. rewrite bool_decide_true by done. case_bool_decide as He.
    + rewrite decide_False by done. unfold setExpire, database, mbind, M_bind, redisAssert, on_db, modify, lift. simpl.
      rewrite list_lookup_alter_eq, Hj. simpl. rewrite bool_decide_true by (rewrite lookup_insert_eq; done).
      unfold set_dbs. simpl. rewrite list_alter_alter_eq. do 3 f_equal. by eapply alter_at.
    + rewrite decide_True by lia. simpl. unfold mret, M_ret, set_dbs. simpl. do 3 f_equal. by eapply alter_at.
Qed.

(** All the entries of one database. *)
Lemma apply_entries now j L s db : s_db s !! j = Some db -> NoDup ((fun x : entry => key_of x) <$> L) ->
  (forall x, x ∈ L -> db_dict db !! key_of x = None) ->
  apply_items now (j, s) (item_of <$> L) =
    Some (j, set_dbs (<[j := load_all (masterhost (s_conf s)) now db L]> (s_db s)) s).
Proof.
  revert s db. induction L as [|[[k v] e] L IH]; intros s db Hj Hnd Hfresh.
  { simpl. rewrite list_insert_id by done. by rewrite set_dbs_same. }
  apply NoDup_cons in Hnd as [Hni Hnd]. cbn [apply_items fmap list_fmap item_of apply_item].
  rewrite (load_key_run now j k v e s db) by (try done; apply (Hfresh (k, v, e)); set_solver). bind_simpl.
  apply lookup_lt_Some in Hj as Hlt. rewrite (IH _ (load_entry (masterhost (s_conf s)) now db (k, v, e))); [|by simpl; apply list_lookup_insert_eq|done|].
  - simpl. unfold set_dbs. simpl. by rewrite list_insert_insert_eq.
  - intros x Hx. unfold load_entry. case_decide; [|apply Hfresh; set_solver]. simpl.
    rewrite lookup_insert_ne; [apply Hfresh; set_solver|]. intros ->. apply Hni. apply list_elem_of_fmap. by exists x.
Qed.

Definition load_opt (slave : bool) (now : Z) (db : redisDb) (L : option (list entry)) : redisDb :=
  match L with None => db | Some L => load_all slave now db L end.

Definition fresh_db (db : redisDb) : Prop := db_dict db = ∅ /\ db_expires db = ∅.

(** The whole file, database by database. *)
Lemma apply_file now Ls j pre dbs s cur : s_db s = pre ++ dbs -> length pre = j -> length Ls = length dbs ->
  Forall fresh_db dbs -> Forall (fun L => match L with None => True | Some L => NoDup ((fun x : entry => key_of x) <$> L) end) Ls ->
  exists cur', apply_items now (cur, s) (file_items j Ls) =
    Some (cur', set_dbs (pre ++ zip_with (load_opt (masterhost (s_conf s)) now) dbs Ls) s).
Proof.
  revert j pre dbs s cur. induction Ls as [|L Ls IH]; intros j pre [|db dbs] s cur Hs Hj Hl Hf Hnd; try done.
  { exists cur. rewrite zip_with_nil_r, <- Hs. simpl. by rewrite set_dbs_same. }
  apply Forall_cons in Hf as [[Hd He] Hf], Hnd as [HL Hnd].
  assert (forall x, pre ++ x :: dbs = (pre ++ [x]) ++ dbs) as Hsnoc by (intros; by rewrite <- app_assoc).
  destruct L as [L|]; cbn [file_items].
  - cbn [apply_items apply_item]. rewrite bool_decide_false by (rewrite Hs, length_app; simpl; lia). bind_simpl.
    rewrite Nat2Z.id, apply_items_app.
    rewrite (apply_entries now j L s db); [|rewrite Hs; by apply list_lookup_middle|done|by intros; rewrite Hd].
    bind_simpl. assert (<[j:=load_all (masterhost (s_conf s)) now db L]> (s_db s) = (pre ++ [load_all (masterhost (s_conf s)) now db L]) ++ dbs) as Hins.
    { rewrite Hs, <- Hj, <- Hsnoc. by rewrite insert_app_r_alt, Nat.sub_diag by lia. }
    destruct (IH (S j) (pre ++ [load_all (masterhost (s_conf s)) now db L]) dbs
      (set_dbs (<[j:=load_all (masterhost (s_conf s)) now db L]> (s_db s)) s) j) as [cur' Hrun];
      [done|rewrite length_app; simpl; lia|simpl in Hl; lia|done|done|]. rewrite Hrun. exists cur'. simpl.
    by rewrite <- app_assoc.
  - destruct (IH (S j) (pre ++ [db]) dbs s cur) as [cur' Hrun];
      [by rewrite Hs, Hsnoc|rewrite length_app; simpl; lia|simpl in Hl; lia|done|done|]. rewrite Hrun. exists cur'.
    simpl. by rewrite <- app_assoc.
Qed.

(** The database [db'] holds what was alive in [db] when it was saved, at
    [now], and still was when it was loaded, at [now'], unless by a slave. *)
Definition loaded (slave : bool) (now now' : Z) (db db' : redisDb) : Prop :=
  forall k, let e := expire_of db k in
  match db_dict db !! k with
  | Some o =>
      if decide (live now e /\ kept slave now' e)
      then (exists o', db_dict db' !! k = Some o' /\ same_value o o') /\
           db_expires db' !! k = (if decide (e = -1) then None else Some e)
      else db_dict db' !! k = None /\ db_expires db' !! k = None
  | None => db_dict db' !! k = None /\ db_expires db' !! k = None
  end.

Lemma saved_keys db now entries L : saved_entries db now entries L ->
  ((fun x : entry => key_of x) <$> L) = (filter (fun ko => live now (expire_of db ko.1)) entries).*1.
Proof.
  unfold saved_entries. induction 1 as [|ko [[k v] e] l L (-> & _ & _) _ IH]; [done|].
  by apply (f_equal2 cons).
Qed.

Lemma saved_nodup db now entries L : entries ≡ₚ map_to_list (db_dict db) -> saved_entries db now entries L ->
  NoDup ((fun x : entry => key_of x) <$> L).
Proof.
  intros Hp HL. rewrite (saved_keys _ _ _ _ HL). assert (NoDup entries.*1) as Hnd by (rewrite Hp; apply NoDup_fst_map_to_list).
  clear -Hnd. induction entries as [|ko entries IH]; [done|]. apply NoDup_cons in Hnd as [Hni Hnd]. rewrite filter_cons.
  case_decide; [|by apply IH]. simpl. apply NoDup_cons. split; [|by apply IH].
  intros (x & Hx & Hin)%list_elem_of_fmap. apply list_elem_of_filter in Hin as [_ Hin]. apply Hni, list_elem_of_fmap. by exists x.
Qed.

Lemma load_saved slave now now' db db0 L : fresh_db db0 -> saved_db now db L ->
  loaded slave now now' db (load_opt slave now' db0 L).
Proof.
  intros [Hd He] HL k. cbv zeta. destruct L as [L|]; simpl in *; [|by rewrite HL, lookup_empty, Hd, He].
  destruct HL as (entries & Hp & HL). pose proof (saved_nodup _ _ _ _ Hp HL) as Hnd.
  destruct (load_all_lookup slave now' db0 L k Hnd) as [Hin Hout]. rewrite Hd, He, !lookup_empty in *.
  assert (forall v e, (k, v, e) ∈ L -> e = expire_of db k /\ live now e /\ exists o, db_dict db !! k = Some o /\ same_value o v) as Hfrom.
  { intros v e [i Hi]%list_elem_of_lookup. destruct (Forall2_lookup_r _ _ _ _ _ HL Hi) as (ko & Hko & -> & -> & Hsame).
    apply list_elem_of_lookup_2, list_elem_of_filter in Hko as [Hlive Hko]. split; [done|]. split; [done|].
    exists ko.2. split; [|done]. rewrite Hp in Hko. destruct ko as [k o]. by apply elem_of_map_to_list in Hko. }
  destruct (db_dict db !! k) as [o|] eqn:Hk.
  - case_decide as Hc.
    + destruct Hc as [Hlive Hkept].
      assert ((k, o) ∈ filter (fun ko => live now (expire_of db ko.1)) entries) as Hko.
      { apply list_elem_of_filter. split; [done|]. rewrite Hp. by apply elem_of_map_to_list. }
      apply list_elem_of_lookup in Hko as [i Hi]. destruct (Forall2_lookup_l _ _ _ _ _ HL Hi) as ([[k' v] e] & Hx & -> & -> & Hsame).
      apply list_elem_of_lookup_2 in Hx. simpl in *. destruct (Hin v (expire_of db k) Hx Hkept) as [E1 E2]. rewrite E1, E2.
      split; [by exists v|done].
    + destruct Hout as [-> ->]; [|done]. intros v e Hx Hkept. destruct (Hfrom v e Hx) as (-> & Hlive & _). by apply Hc.
  - destruct Hout as [-> ->]; [|done]. intros v e Hx _. destruct (Hfrom v e Hx) as (_ & _ & o & ? & _). done.
Qed.

Lemma verify_run (c1 c2 : bool) body r : rio_ok r -> update_cksum r = c2 -> cksum r = (if c2 then crc_spec 0 body else 0) ->
  bytes_ok body -> ahead r (le_encode 8 (if c1 then crc_spec 0 body else 0)) ->
  exists r', verify_checksum c2 6 r = Ok RdbOk r'.
Proof.
  intros Hr Hu Hs Hb Ha. unfold verify_checksum. case_bool_decide as Hc; [|by eexists].
  destruct Hc as [_ ->]. unfold mbind, IO_bind.
  destruct (rioRead_reads (le_encode 8 (if c1 then crc_spec 0 body else 0)) 8 (le_encode_ok _ _)) as [_ Hrd]; [by rewrite length_le_encode|].
  rewrite (Hrd r []) by (done || by rewrite app_nil_r).
  assert (urange 64 (crc_spec 0 body)) as Hcr by (apply crc_spec_range; [by vm_compute|done]).
  rewrite le_decode_encode. change (8 * Z.of_nat 8) with 64. rewrite uwrap_small by (destruct c1; [done|by vm_compute]).
  case_bool_decide as H0; [by eexists|]. rewrite Hs. destruct c1; [|done]. rewrite bool_decide_false by tauto. by eexists.
Qed.

(** C36: Saving then loading: whatever the order in which the dictionaries are
    iterated, the compression, the checksums, the size of the chunks and the
    contents of uninitialised memory, [rdbSave] writes a file from which
    [rdbLoad] restores, in an empty server, every key that had not expired with
    the same bytes and the same expire time, in the same database, and nothing
    else; a master drops what expired in between, a slave keeps it. *)
Theorem rdb_save_load accepts base junk fill compression (c1 c2 : bool) interval clock clock' iter s s0 :
  (forall a b, accepts a b = true) -> MAX_OFF <= base -> 0 <= interval ->
  (forall j db, s_db s !! j = Some db -> db_ok base db /\ iter j ≡ₚ map_to_list (db_dict db)) ->
  zlen (s_db s) < 2 ^ 32 - 1 -> Forall fresh_db (s_db s0) -> length (s_db s0) = length (s_db s) ->
  exists file s1 s2,
    rdbSave accepts base junk fill compression c1 clock iter s = Some (Some file, s1) /\
    rdbLoad c2 interval clock' file s0 = Some (RdbOk, s2) /\
    s_dirty s1 = 0 /\ s_db s1 = s_db s /\
    Forall2 (loaded (masterhost (s_conf s0)) (clock (s_ticks s)) (clock' (s_ticks s0))) (s_db s) (s_db s2).
Proof.
  intros Hacc Hbase Hint Hdbs Hn Hfresh Hlen. set (now := clock (s_ticks s)). set (now' := clock' (s_ticks s0)).
  destruct (rdb_body_file accepts base junk fill compression iter Hacc Hbase c1 (set_ticks (S (s_ticks s)) s) now)
    as (bs & Ls & r & Hbody & Hbuf & Hbs & Hitems & HLs); [intros j db Hj; by apply (Hdbs j)..|done|].
  set (body := rdb_magic ++ bs ++ [REDIS_RDB_OPCODE_EOF]) in *.
  set (tail := le_encode 8 (if c1 then crc_spec 0 body else 0)) in *.
  exists (io_buf r). do 2 eexists. split.
  { unfold rdbSave, mbind, M_bind, mstime, gets, id. fold now.
    change (rdb_body _ _ _ _ _ _ _ _ _) with
      (rdb_body accepts base junk fill compression iter (set_ticks (S (s_ticks s)) s) now (Rio [] 0 c1 0 0 0)).
    rewrite Hbody. done. }
  assert (bytes_ok body) as Hbody_ok.
  { apply Forall_app. split; [apply rdb_magic_ok|]. apply Forall_app. split; [done|apply eof_ok]. }
  set (r0 := Rio (io_buf r) 0 c2 0 0 interval). assert (rio_ok r0) as Hr0 by (by constructor).
  assert (ahead r0 (rdb_magic ++ bs ++ [REDIS_RDB_OPCODE_EOF] ++ tail)) as Ha0 by (exists []; split; [exact Hbuf|done]).
  destruct (rioRead_reads rdb_magic 9 rdb_magic_ok eq_refl) as [_ Hmagic]. specialize (Hmagic r0 _ Hr0 Ha0).
  assert (rio_ok (skipped rdb_magic r0)) as Hr1 by (apply skipped_ok; [done|apply rdb_magic_ok]).
  destruct (apply_file now' Ls 0 [] (s_db s0) (set_ticks (S (s_ticks s0)) s0) O) as [cur Hrun];
    [done|done|by rewrite Hlen, <- (Forall2_length _ _ _ HLs)|done| |].
  { apply Forall_forall. intros [L|] HL; [|done]. apply list_elem_of_lookup in HL as [i Hi].
    destruct (Forall2_lookup_r _ _ _ _ _ HLs Hi) as (db & _ & entries & Hp & HL). by eapply saved_nodup. }
  assert (length (file_items 0 Ls) < S (length (io_buf r)))%nat as Hfuel.
  { apply items_length in Hitems. rewrite Hbuf, !length_app. lia. }
  pose proof (load_loop now' _ _ Hitems (skipped rdb_magic r0) tail _ _ _ Hr1 (skipped_ahead _ _ _ Ha0) Hrun Hfuel) as Hloop.
  rewrite skipped_app in Hloop. fold body in Hloop. cbn [fst snd] in Hloop.
  destruct (verify_run c1 c2 body (skipped body r0)) as [r' Hver];
    [by apply skipped_ok|done|done|done|apply skipped_ahead; unfold body; rewrite <- !app_assoc; exact Ha0|].
  split.
  { unfold rdbLoad, mstime. bind_simpl. fold now'. fold r0. rewrite Hmagic. rewrite bool_decide_false by (by intros []).
    change (swrap 32 (strtoll (drop 5 rdb_magic)).1.1) with 6. rewrite bool_decide_false by (unfold REDIS_RDB_VERSION; lia).
    rewrite Hloop. cbn [mjoin option_join mbind option_bind load_end]. rewrite Hver. done. }
  split; [done|]. split; [done|]. simpl. apply Forall2_lookup. intros i.
  rewrite lookup_zip_with. destruct (s_db s !! i) as [db|] eqn:Hi.
  - destruct (Forall2_lookup_l _ _ _ _ _ HLs Hi) as (L & -> & HL).
    destruct (lookup_lt_is_Some_2 (s_db s0) i) as [db0 Hi0]; [rewrite Hlen; by eapply lookup_lt_Some|].
    rewrite Hi0. simpl. constructor. apply load_saved; [|done]. rewrite Forall_lookup in Hfresh. by eapply Hfresh.
  - apply lookup_ge_None in Hi. rewrite (proj2 (lookup_ge_None (s_db s0) i)) by lia. simpl. constructor.
Qed.

Module RdbExamples.
Definition all_accepted (_ _ : list Z) : bool := true.
Definition text : robj := Raw (concat (repeat [97; 98; 99] 10)).
Definition empty_db : redisDb := RedisDb ∅ ∅ ∅.
Definition sample_db : redisDb := RedisDb {[ [1] := text; [2] := IntObj 77; [3] := Raw [50; 48] ]} {[ [2] := 5000; [3] := 10 ]} ∅.
Definition server_of (dbs : list redisDb) : server := Server dbs ∅ 3 0 (0, 0, 0) [] [] (Config false false None 0).
Definition clock (n : nat) : Z := 100 + Z.of_nat n.
Definition order (j : nat) : list (list Z * robj) :=
  match j with 1%nat => map_to_list (db_dict sample_db) | _ => [] end.
End RdbExamples.

Lemma storable_bool base s : bool_decide (bytes_ok s /\ zlen s < 2 ^ 32 - 1 /\ base + zlen s < 2 ^ 64) = true -> storable base s.
Proof. apply bool_decide_eq_true_1. Qed.

Lemma rdb_save_load_witness :
  let s := RdbExamples.server_of [RdbExamples.empty_db; RdbExamples.sample_db] in
  exists file s1 s2,
    rdbSave RdbExamples.all_accepted 8192 (fun _ => 0) (fun _ => 0) true true RdbExamples.clock RdbExamples.order s = Some (Some file, s1) /\
    rdbLoad true 7 RdbExamples.clock file (RdbExamples.server_of [RdbExamples.empty_db; RdbExamples.empty_db]) = Some (RdbOk, s2) /\
    s_dirty s1 = 0 /\ s_db s1 = s_db s /\
    Forall2 (loaded false 100 100) (s_db s) (s_db s2).
Proof.
  apply (rdb_save_load RdbExamples.all_accepted 8192 (fun _ => 0) (fun _ => 0) true true true 7 RdbExamples.clock RdbExamples.clock
    RdbExamples.order (RdbExamples.server_of [RdbExamples.empty_db; RdbExamples.sample_db])
    (RdbExamples.server_of [RdbExamples.empty_db; RdbExamples.empty_db])).
  - done.
  - done.
  - done.
  - intros [|[|j]] db Hdb; simplify_eq/=; [split; [split; apply map_Forall_empty|done]| ]. split; [|done]. split.
    + intros k o Hk. unfold RdbExamples.sample_db in Hk. cbn [db_dict] in Hk. rewrite !lookup_insert_Some, lookup_singleton_Some in Hk.
      destruct Hk as [[<- <-]|[_ [[<- <-]|[_ [<- <-]]]]]; (split; [by apply storable_bool|]); (split; [done|]);
        eexists; (split; [by vm_compute|]); by apply storable_bool.
    + intros k e He. unfold RdbExamples.sample_db in He. cbn [db_expires] in He. rewrite lookup_insert_Some, lookup_singleton_Some in He.
      destruct He as [[<- <-]|[_ [<- <-]]]; (split; [by vm_compute|by eexists]).
  - done.
  - repeat constructor.
  - done.
Defined.

(** ** Payloads *)

Lemma crc_zero_iff c f : urange 64 c -> bytes_ok f -> length f = 8%nat -> crc_spec c f = 0 <-> f = le_encode 8 c.
Proof.
  intros Hc Hf Hl. rewrite crc_spec_number, Hl by done. change (8 * 8)%nat with 64%nat.
  assert (urange 64 (le_decode f)) as Hd by (apply le_decode_range64; [done|lia]). split.
  - intros E. assert (Z.lxor c (le_decode f) = 0) as E0.
    { apply (crc_bits_inj 64); [apply lxor_range; (done || lia)|by vm_compute|]. rewrite E. by vm_compute. }
    apply Z.lxor_eq in E0. rewrite E0, <- Hl. by rewrite le_encode_decode.
  - intros ->. rewrite le_decode_encode. change (8 * Z.of_nat 8) with 64. rewrite uwrap_small, Z.lxor_nilpotent by done. by vm_compute.
Qed.

(** A payload is accepted when its version is right and the division of all
    of it, footer included, leaves nothing. *)
Lemma verify_spec x v0 v1 f : bytes_ok (x ++ v0 :: v1 :: f) -> length f = 8%nat ->
  verifyDumpPayload (x ++ v0 :: v1 :: f) =
    Some (bool_decide (Z.lor (Z.shiftl v1 8) v0 = REDIS_RDB_VERSION /\ crc_spec 0 (x ++ v0 :: v1 :: f) = 0)).
Proof.
  intros Hok Hf. assert (x ++ v0 :: v1 :: f = (x ++ [v0; v1]) ++ f) as E by (by rewrite <- app_assoc).
  pose proof Hok as Hok'. rewrite E in Hok'. apply Forall_app in Hok' as [Hbody Hfok].
  unfold verifyDumpPayload. assert (zlen (x ++ v0 :: v1 :: f) = zlen x + 10) as -> by (rewrite !length_app; simpl; lia).
  rewrite bool_decide_false by lia. rewrite (zget_app x v0 (v1 :: f) (zlen x + 10 - 10)) by lia. bind_simpl.
  assert (zget (zlen x + 10 - 9) (x ++ v0 :: v1 :: f) = Some v1) as ->.
  { rewrite (cons_middle v0 x), app_assoc. apply zget_app. rewrite length_app. simpl. lia. }
  bind_simpl. destruct (decide (Z.lor (Z.shiftl v1 8) v0 = REDIS_RDB_VERSION)) as [Hv|Hv].
  2: { rewrite bool_decide_true by done. by rewrite bool_decide_false by tauto. }
  rewrite bool_decide_false by tauto.
  assert (zread 0 (zlen x + 10 - 8) (x ++ v0 :: v1 :: f) = Some (x ++ [v0; v1])) as ->.
  { rewrite E. apply (zread_app [] (x ++ [v0; v1]) f); [done|]. rewrite length_app. simpl. lia. }
  bind_simpl. rewrite crc64_run by (done || by vm_compute). bind_simpl.
  assert (zread (zlen x + 10 - 8) 8 (x ++ v0 :: v1 :: f) = Some f) as ->.
  { rewrite E, <- (app_nil_r f) at 1. apply zread_app; [rewrite length_app; simpl; lia|by rewrite Hf]. }
  bind_simpl. rewrite E, (crc_spec_app 0 (x ++ [v0; v1]) f).
  assert (urange 64 (crc_spec 0 (x ++ [v0; v1]))) as Hc by (apply crc_spec_range; [by vm_compute|done]).
  f_equal. apply bool_decide_ext. rewrite crc_zero_iff by done. split; [by intros <-|by intros [_ ->]].
Qed.

Lemma split_payload (p : list Z) : 10 <= zlen p -> exists x v0 v1 f, p = x ++ v0 :: v1 :: f /\ length f = 8%nat.
Proof.
  intros Hl. set (n := (length p - 10)%nat). pose proof (take_drop n p) as E.
  assert (length (drop n p) = 10%nat) as Hd by (rewrite length_drop; lia).
  destruct (drop n p) as [|v0 [|v1 f]]; try done. exists (take n p), v0, v1, f. split; [done|]. simpl in Hd. lia.
Qed.

(** Up to eight consecutive bytes changed in a valid payload, its footer
    included, and it is refused. *)
Lemma verify_corrupted a t u b : bytes_ok (a ++ t ++ b) -> bytes_ok u -> length t = length u -> (length t <= 8)%nat -> t <> u ->
  verifyDumpPayload (a ++ t ++ b) = Some true -> verifyDumpPayload (a ++ u ++ b) = Some false.
Proof.
  intros Hok Hu Hl H8 Hne Hv. assert (10 <= zlen (a ++ t ++ b)) as Hlen.
  { unfold verifyDumpPayload in Hv. case_bool_decide; [done|lia]. }
  assert (10 <= zlen (a ++ u ++ b)) as Hlen' by (rewrite !length_app in *; lia).
  pose proof Hok as [Ha [Ht Hb]%Forall_app]%Forall_app.
  assert (bytes_ok (a ++ u ++ b)) as Hok' by (by repeat (apply Forall_app; split)).
  destruct (split_payload _ Hlen) as (x & v0 & v1 & f & E & Hf). destruct (split_payload _ Hlen') as (x' & v0' & v1' & f' & E' & Hf').
  rewrite E in Hv, Hok. rewrite verify_spec in Hv by done. injection Hv as Hv. apply bool_decide_eq_true in Hv as [_ Hv].
  rewrite <- E in Hv. rewrite E' in Hok'. rewrite E', verify_spec by done. f_equal. apply bool_decide_eq_false. intros [_ Hz].
  rewrite <- E' in Hz. assert (crc_spec 0 (a ++ t ++ b) = crc_spec 0 (a ++ u ++ b)) as Heq by congruence.
  rewrite !crc_spec_app in Heq.
  assert (urange 64 (crc_spec 0 a)) as Hca by (by apply crc_spec_range; [by vm_compute|]).
  apply crc_spec_inj in Heq; [|by apply crc_spec_range..|done]. by apply crc_burst in Heq.
Qed.

Section Payload.
Context (accepts : list Z -> list Z -> bool) (base : Z) (junk : Z -> Z) (fill : nat -> Z) (compression : bool).
Hypothesis Haccepts : forall a b, accepts a b = true.
Hypothesis Hbase : MAX_OFF <= base.

(** DUMP of a string gives a valid payload, which RESTORE loads. *)
Lemma payload_codec o : storable_object base o ->
  exists p o' r, createDumpPayload accepts base junk fill compression o = Some p /\ bytes_ok p /\
    verifyDumpPayload p = Some true /\ load_payload p (io_buffer p) = Ok o' r /\ same_value o o'.
Proof using Haccepts Hbase.
  intros (Ht & s & Ho & Hs).
  destruct (rdbSaveObject_saves accepts base junk fill compression Haccepts Hbase o s Ht Ho Hs) as (n & bs & _ & Hw & Hl).
  destruct (rdbLoadObject_reads s bs Hl) as (o' & Hr & Ht' & Ho').
  assert (writes (rdbSaveObjectType accepts o;; rdbSaveObject accepts base junk fill compression o) n ([REDIS_RDB_TYPE_STRING] ++ bs)) as [Hb Hall].
  { eapply writes_bind; [by apply rdbSaveObjectType_writes|exact Hw]. }
  assert (forall l, rio_ok (io_buffer l)) as Hio by (by constructor). unfold createDumpPayload. rewrite Hall by done. simpl io_buf.
  set (x := [REDIS_RDB_TYPE_STRING] ++ bs) in *. change ([] ++ x) with x.
  assert (bytes_ok (x ++ [6; 0])) as Hx by (apply Forall_app; split; [done|by apply (bool_decide_unpack _); vm_compute]).
  change (Z.land REDIS_RDB_VERSION 255) with 6. change (Z.land (REDIS_RDB_VERSION ≫ 8) 255) with 0.
  rewrite crc64_run by (done || by vm_compute). bind_simpl. set (f := le_encode 8 (crc_spec 0 (x ++ [6; 0]))).
  assert (bytes_ok ((x ++ [6; 0]) ++ f)) as Hp by (apply Forall_app; split; [done|apply le_encode_ok]).
  assert (reads (load_payload ((x ++ [6; 0]) ++ f)) o' x) as [_ Hload].
  { eapply (reads_bind _ _ REDIS_RDB_TYPE_STRING); [|exact Hr].
    eapply (reads_end _ _ REDIS_RDB_TYPE_STRING); [apply rdbLoadType_reads; by apply (bool_decide_unpack _); vm_compute|apply reads_ret]. }
  exists ((x ++ [6; 0]) ++ f), o'. eexists. split; [done|]. split; [done|]. split; [|split; [apply (Hload _ ([6; 0] ++ f)); [done|]|]].
  - rewrite <- app_assoc in *. cbn [app] in *. rewrite verify_spec by (done || by unfold f; rewrite length_le_encode).
    f_equal. apply bool_decide_eq_true. split; [done|].
    change (x ++ 6 :: 0 :: f) with (x ++ [6; 0] ++ f). rewrite app_assoc, crc_spec_app. apply crc_zero_iff; [|apply le_encode_ok|done|done].
    apply crc_spec_range; [by vm_compute|done].
  - exists []. split; [by rewrite <- app_assoc|done].
  - split; [done|]. by exists s.
Qed.
End Payload.

Section Restore.
Context (clock : nat -> Z) (conf : config) (c : client_id) (d : nat).
Context (accepts : list Z -> list Z -> bool) (base : Z) (junk : Z -> Z) (fill : nat -> Z) (compression : bool).

Lemma dumpCommand_at a0 k o p db Q dbs reply n s :
  at_state conf c d [a0; k] dbs reply n s -> dbs !! d = Some db -> remains clock conf db k -> db_dict db !! k = Some o ->
  createDumpPayload accepts base junk fill compression o = Some p ->
  (forall s', at_state conf c d [a0; k] dbs (reply ++ [ReplyBulk p]) n s' -> Q tt s') ->
  wp (dumpCommand accepts base junk fill compression clock c) Q s.
Proof.
  intros Hs Hl He Ho Hp HQ. unfold dumpCommand. apply wp_bind. eapply current_db_at; [exact Hs|].
  apply wp_bind. eapply argv_at; [exact Hs|done|]. apply wp_bind. eapply lookupKeyRead_at; [exact Hs|done|done|].
  clear s Hs. intros s Hs. rewrite Ho. apply wp_bind. eapply wp_lift; [done|]. by eapply addReply_at.
Qed.

(** RESTORE on a missing key, up to the verification of the payload. *)
Lemma restore_checks a0 k z p v valid db Q dbs reply n s :
  at_state conf c d [a0; k; z; p] dbs reply n s -> dbs !! d = Some db -> remains clock conf db k -> db_dict db !! k = None ->
  srange 64 v -> decimal v z -> 0 <= v -> verifyDumpPayload p = Some valid ->
  (if (valid : bool) then forall s', at_state conf c d [a0; k; z; p] dbs reply n s' -> wp (match load_payload p (io_buffer p) with
       | Crash => lift None
       | Err _ => addReplyError c "Bad data format"
       | Ok obj _ =>
           dbAdd d k obj;;
           (if bool_decide (v <> 0) then now ← mstime clock; setExpire d k (swrap 64 (now + v)) else mret tt);;
           signalModifiedKey d k;;
           addReply c ReplyOk;;
           add_dirty 1
       end) Q s'
   else forall s', at_state conf c d [a0; k; z; p] dbs (reply ++ [ReplyError "DUMP payload version or checksum are wrong"]) n s' -> Q tt s') ->
  wp (restoreCommand clock c) Q s.
Proof.
  intros Hs Hl He Ho Hv Hz H0 Hp HQ. unfold restoreCommand. apply wp_bind. eapply current_db_at; [exact Hs|].
  apply wp_bind. eapply argv_at; [exact Hs|done|]. apply wp_bind. eapply lookupKeyWrite_at; [exact Hs|done|done|]. clear Hs. intros s1 Hs.
  rewrite Ho. apply wp_bind. eapply argv_at; [exact Hs|done|]. apply wp_bind.
  eapply (number_at _ _ _ _ _ (Some v)); [exact Hs|by apply number_decimal|]. cbv beta iota.
  rewrite bool_decide_eq_false_2 by lia. apply wp_bind. eapply argv_at; [exact Hs|done|]. apply wp_bind.
  eapply wp_lift; [done|]. destruct valid; cbn [negb]; [by apply HQ|]. by eapply addReply_at.
Qed.

Lemma restore_stores a0 k p o r db Q dbs reply n s :
  at_state conf c d [a0; k; [48]; p] dbs reply n s -> dbs !! d = Some db -> remains clock conf db k -> db_dict db !! k = None ->
  verifyDumpPayload p = Some true -> load_payload p (io_buffer p) = Ok o r ->
  (forall s', at_state conf c d [a0; k; [48]; p] (write_key d k o dbs) (reply ++ [ReplyOk]) (n + 1) s' -> Q tt s') ->
  wp (restoreCommand clock c) Q s.
Proof.
  intros Hs Hl He Ho Hp Hload HQ. eapply (restore_checks _ _ _ _ 0); [exact Hs|done|done|done|by vm_compute| |done|exact Hp|].
  { exists [48]. split_and!; [split; [by apply (bool_decide_unpack _); vm_compute|by left]|done|done]. }
  cbv iota. clear s Hs. intros s Hs. rewrite Hload. apply wp_bind.
  eapply (store_at conf c d _ k o None); [exact Hs|done|by rewrite Ho|]. clear s Hs. intros s Hs. apply wp_bind. rewrite bool_decide_eq_false_2 by auto.
  apply wp_ret, wp_bind. eapply signal_at; [|exact Hs|].
  { unfold write_key. rewrite length_alter. by eapply lookup_lt_Some. }
  clear s Hs. intros s Hs. apply wp_bind. eapply addReply_at; [exact Hs|]. clear s Hs. intros s Hs. by eapply add_dirty_at.
Qed.
End Restore.

(** C37: DUMP of a key that holds a string, then RESTORE of what it replied
    under a key that does not exist: both succeed, and the new key holds the
    same bytes, whichever way the string was written (as an integer, compressed
    or verbatim). *)
Theorem dump_restore accepts base junk fill compression clock c a0 b0 k k' d db o s :
  (forall a b, accepts a b = true) -> MAX_OFF <= base ->
  runs clock c [a0; k] d db k s -> db_dict db !! k = Some o -> storable_object base o ->
  db_dict db !! k' = None -> remains clock (s_conf s) db k' ->
  exists p o' s', (dumpCommand accepts base junk fill compression clock c;; on_client c (set_c_argv [b0; k'; [48]; p]);;
                   restoreCommand clock c) s = Some (tt, s') /\
    outcome c [ReplyBulk p; ReplyOk] (write_key d k' o' (s_db s)) 1 s s' /\ same_value o o'.
Proof.
  intros Hacc Hbase Hruns Ho Hst Hk' He'.
  destruct (payload_codec accepts base junk fill compression Hacc Hbase o Hst) as (p & o' & r & Hp & _ & Hv & Hload & Hsame).
  exists p, o'. destruct (runs_at _ _ _ _ _ _ _ Hruns) as (reply & Hs & _). destruct Hruns as [(cl & Hc & Hd & Hav) Hdb Hlive].
  edestruct (wp_exists (dumpCommand accepts base junk fill compression clock c;; on_client c (set_c_argv [b0; k'; [48]; p]);; restoreCommand clock c)
    (outcome c [ReplyBulk p; ReplyOk] (write_key d k' o' (s_db s)) 1 s) s) as ([] & s' & Hrun & Hout); [|by exists s'].
  pose proof (at_client _ _ _ _ _ _ _ _ Hs) as (cl0 & Hc0 & _ & _ & Hreply). simplify_eq.
  apply wp_bind. eapply dumpCommand_at; [exact Hs|exact Hdb|done|exact Ho|exact Hp|].
  intros s1 [Hdb1 (cl1 & Hc1 & Hd1 & _ & Hr1) Hn1 Hcf1]. apply wp_bind.
  assert (at_state (s_conf s) c (c_db cl) [b0; k'; [48]; p] (s_db s) (c_reply cl ++ [ReplyBulk p]) (s_dirty s)
            (set_clients (alter (set_c_argv [b0; k'; [48]; p]) c (s_clients s1)) s1)) as Hs2.
  { constructor; [done| |done|done]. exists (set_c_argv [b0; k'; [48]; p] cl1). simpl. by rewrite lookup_alter_eq, Hc1. }
  eapply restore_stores; [exact Hs2|exact Hdb|done|done|exact Hv|exact Hload|].
  intros s3 [Hdb3 (cl3 & Hc3 & _ & _ & Hr3) Hn3 _]. split_and!; [done|done|]. exists cl, cl3. split_and!; [done|done|].
  by rewrite Hr3, <- app_assoc.
Qed.

Lemma dump_restore_witness :
  let s := after_requests sample_clock [(0%nat, Some CmdSet, [str "set"; str "k"; str "-12"]);
                                        (0%nat, None, [str "dump"; str "k"])] sample in
  exists p o' s', (dumpCommand RdbExamples.all_accepted 8192 (fun _ => 0) (fun _ => 0) true sample_clock 0;;
      on_client 0 (set_c_argv [str "restore"; str "l"; [48]; p]);; restoreCommand sample_clock 0) s = Some (tt, s') /\
    outcome 0 [ReplyBulk p; ReplyOk] (write_key 0 (str "l") o' (s_db s)) 1 s s' /\ same_value (IntObj (-12)) o'.
Proof.
  apply (dump_restore RdbExamples.all_accepted 8192 (fun _ => 0) (fun _ => 0) true sample_clock 0 (str "dump") (str "restore")
    (str "k") (str "l") 0 (RedisDb {[str "k" := IntObj (-12)]} ∅ ∅) (IntObj (-12))); try done.
  - split; [eexists; split; [vm_compute; reflexivity|done]|reflexivity|by apply remains_none].
  - split; [done|]. eexists. split; [by vm_compute|]. by apply storable_bool.
Defined.

(** C38: A payload in which up to eight consecutive bytes were changed, in its
    contents, its version or its checksum, is refused by RESTORE, and nothing
    else changes. *)
Theorem restore_refuses_corruption clock c a0 k z v (a t u b : list Z) d db s :
  verifyDumpPayload (a ++ t ++ b) = Some true -> bytes_ok (a ++ t ++ b) -> bytes_ok u ->
  length t = length u -> (length t <= 8)%nat -> t <> u ->
  runs clock c [a0; k; z; a ++ u ++ b] d db k s -> db_dict db !! k = None -> srange 64 v -> decimal v z -> 0 <= v ->
  exists s', restoreCommand clock c s = Some (tt, s') /\
    outcome c [ReplyError "DUMP payload version or checksum are wrong"] (s_db s) 0 s s'.
Proof.
  intros Hp Hok Hu Hl H8 Hne Hruns Ho Hv Hz H0. pose proof (verify_corrupted a t u b Hok Hu Hl H8 Hne Hp) as Hbad.
  destruct (runs_at _ _ _ _ _ _ _ Hruns) as (reply & Hs & Hfin). destruct Hruns as [(cl & Hc & Hd & Hav) Hdb Hlive].
  edestruct (wp_exists (restoreCommand clock c)
    (outcome c [ReplyError "DUMP payload version or checksum are wrong"] (s_db s) 0 s) s) as ([] & s' & Hrun & Hout); [|by exists s'].
  eapply (restore_checks clock (s_conf s) c d); [exact Hs|exact Hdb|done|done|exact Hv|exact Hz|done|exact Hbad|].
  cbv iota. intros s' Hs'. apply (Hfin [_] (s_db s) 0). by rewrite Z.add_0_r.
Qed.

Lemma restore_refuses_corruption_witness :
  let p := [0; 192] ++ [243] ++ [6; 0; 210; 153; 166; 87; 175; 242; 211; 17] in
  let s := after_requests sample_clock [(0%nat, None, [str "restore"; str "k"; [48]; p])] sample in
  exists s', restoreCommand sample_clock 0 s = Some (tt, s') /\
    outcome 0 [ReplyError "DUMP payload version or checksum are wrong"] (s_db s) 0 s s'.
Proof.
  apply (restore_refuses_corruption sample_clock 0 (str "restore") (str "k") [48] 0 [0; 192] [244] [243]
    [6; 0; 210; 153; 166; 87; 175; 242; 211; 17] 0 (RedisDb ∅ ∅ ∅)); try done;
    try (apply (bool_decide_unpack _); vm_compute; exact I); try (vm_compute; reflexivity).
  - split; [eexists; split; [vm_compute; reflexivity|done]|reflexivity|by apply remains_none].
  - exists [48]. split_and!; [split; [by apply (bool_decide_unpack _); vm_compute|by left]|done|done].
Defined.

(** The result of the last write of [rdbSave] is not looked at: a file without
    its checksum is reported as saved, and the server that loads it exits. *)
Lemma save_reports_short_file :
  let accepts := fun file bs => bool_decide (zlen file + zlen bs <= 10) in
  let s := RdbExamples.server_of [] in
  exists file s' s'', rdbSave accepts 8192 (fun _ => 0) (fun _ => 0) true true RdbExamples.clock RdbExamples.order s = Some (Some file, s') /\
    zlen file = 10 /\ rdbLoad true 0 RdbExamples.clock file s = Some (RdbExit, s'').
Proof. do 3 eexists. split_and!; [vm_compute; reflexivity|vm_compute; reflexivity|vm_compute; reflexivity]. Qed.

(** A payload whose checksum is right can kill the server: with a compressed
    string of length 0 the decompressor reads outside its input, and an unknown
    encoding is a panic. *)
Lemma valid_payload_kills :
  verifyDumpPayload [0; 195; 0; 5; 6; 0; 229; 94; 78; 251; 29; 6; 199; 191] = Some true /\
  load_payload [0; 195; 0; 5; 6; 0; 229; 94; 78; 251; 29; 6; 199; 191]
    (io_buffer [0; 195; 0; 5; 6; 0; 229; 94; 78; 251; 29; 6; 199; 191]) = Crash /\
  verifyDumpPayload [0; 196; 6; 0; 58; 93; 152; 35; 61; 229; 100; 200] = Some true /\
  load_payload [0; 196; 6; 0; 58; 93; 152; 35; 61; 229; 100; 200] (io_buffer [0; 196; 6; 0; 58; 93; 152; 35; 61; 229; 100; 200]) = Crash.
Proof. by vm_compute. Qed.
