(* ===== verification/Replication.v ===== *)
(** * Replication, the master's side: [replication.c]

    The backlog, a circular buffer of what was sent to the slaves, the
    transmission of commands, and the answers to SYNC and PSYNC.  Output that
    is appended to the buffer of a slave is a list of bytes; the child process
    that saves the data for new slaves is a flag.  [None] is a failed
    assertion.  Offsets are counted without the wrap-around of 64 bits. *)
From S2P Require Import Prelude Memory Util Sds Protocol Server.

Definition REDIS_LONGSTR_SIZE := 21.
Definition REDIS_REPL_BACKLOG_MIN_SIZE := 1024 * 16.
Definition REDIS_SHARED_SELECT_CMDS := 10.

Inductive replstate := WAIT_BGSAVE_START | WAIT_BGSAVE_END | SEND_BULK | ONLINE.
#[export] Instance replstate_dec : EqDecision replstate.
Proof. solve_decision. Defined.

(** A slave: what was appended to its output buffer, and the offset it was
    told, from which it counts the bytes it receives; none for SYNC. *)
Record slave := Slave { sl_id : nat; sl_state : replstate; sl_out : list Z; sl_told : option Z }.

Record master := Master {
  repl_backlog : option (list Z);
  repl_backlog_size : Z; repl_backlog_histlen : Z; repl_backlog_idx : Z; repl_backlog_off : Z;
  master_repl_offset : Z;
  slaveseldb : Z;
  m_slaves : list slave;
  rdb_child : bool }.

Definition set_slaves (l : list slave) (m : master) : master :=
  Master (repl_backlog m) (repl_backlog_size m) (repl_backlog_histlen m) (repl_backlog_idx m) (repl_backlog_off m)
    (master_repl_offset m) (slaveseldb m) l (rdb_child m).
Definition set_seldb (d : Z) (m : master) : master :=
  Master (repl_backlog m) (repl_backlog_size m) (repl_backlog_histlen m) (repl_backlog_idx m) (repl_backlog_off m)
    (master_repl_offset m) d (m_slaves m) (rdb_child m).
Definition set_child (b : bool) (m : master) : master :=
  Master (repl_backlog m) (repl_backlog_size m) (repl_backlog_histlen m) (repl_backlog_idx m) (repl_backlog_off m)
    (master_repl_offset m) (slaveseldb m) (m_slaves m) b.

Definition slave_append (bs : list Z) (s : slave) : slave := Slave (sl_id s) (sl_state s) (sl_out s ++ bs) (sl_told s).
Definition slave_state (st : replstate) (s : slave) : slave := Slave (sl_id s) st (sl_out s) (sl_told s).

(** What [zmalloc] returns is not initialised. *)
Definition new_block (junk : nat -> Z) (n : Z) : list Z := realloc junk (Z.to_nat n) [].

Section Backlog.
Context (junk : nat -> Z).

Definition createReplicationBacklog (m : master) : option master :=
  match repl_backlog m with
  | Some _ => None
  | None =>
      let offset := master_repl_offset m + 1 in
      Some (Master (Some (new_block junk (repl_backlog_size m))) (repl_backlog_size m) 0 0 (offset + 1) offset
              (slaveseldb m) (m_slaves m) (rdb_child m))
  end.

Definition resizeReplicationBacklog (newsize : Z) (m : master) : master :=
  let newsize := if bool_decide (newsize < REDIS_REPL_BACKLOG_MIN_SIZE) then REDIS_REPL_BACKLOG_MIN_SIZE else newsize in
  if bool_decide (repl_backlog_size m = newsize) then m
  else match repl_backlog m with
       | Some _ => Master (Some (new_block junk newsize)) newsize 0 0 (master_repl_offset m + 1) (master_repl_offset m)
                     (slaveseldb m) (m_slaves m) (rdb_child m)
       | None => Master None newsize (repl_backlog_histlen m) (repl_backlog_idx m) (repl_backlog_off m) (master_repl_offset m)
                   (slaveseldb m) (m_slaves m) (rdb_child m)
       end.

Definition freeReplicationBacklog (m : master) : option master :=
  if bool_decide (m_slaves m = []) then
    Some (Master None (repl_backlog_size m) (repl_backlog_histlen m) (repl_backlog_idx m) (repl_backlog_off m) (master_repl_offset m)
            (slaveseldb m) (m_slaves m) (rdb_child m))
  else None.

(** One iteration of the copy: the buffer, the index, the length so far and
    the bytes left. *)
Definition feed_step (size : Z) (st : list Z * Z * Z * list Z) : option ((list Z * Z * Z * list Z) + (list Z * Z * Z)) :=
  let '(buf, idx, histlen, p) := st in
  if bool_decide (p = []) then Some (inr (buf, idx, histlen))
  else
    let thislen := size - idx in
    let thislen := if bool_decide (thislen > zlen p) then zlen p else thislen in
    buf ← zwrite idx (take (Z.to_nat thislen) p) buf;
    let idx := idx + thislen in
    let idx := if bool_decide (idx = size) then 0 else idx in
    Some (inl (buf, idx, histlen + thislen, drop (Z.to_nat thislen) p)).

Definition feedReplicationBacklog (p : list Z) (m : master) : option master :=
  buf ← repl_backlog m;
  let offset := master_repl_offset m + zlen p in
  let size := repl_backlog_size m in
  '(buf, idx, histlen) ← mjoin (loop (S (length p)) (fun st => as_step (feed_step size st))
                                  (buf, repl_backlog_idx m, repl_backlog_histlen m, p));
  let histlen := if bool_decide (histlen > size) then size else histlen in
  Some (Master (Some buf) size histlen idx (offset - histlen + 1) offset (slaveseldb m) (m_slaves m) (rdb_child m)).

(** The bytes of a string object. *)
Definition object_bytes (o : robj) : option (list Z) :=
  match o with IntObj v => ll2string REDIS_LONGSTR_SIZE v | Raw s => Some s | Other _ _ => None end.

Definition feedReplicationBacklogWithObject (o : robj) (m : master) : option master :=
  p ← object_bytes o; feedReplicationBacklog p m.

(** ** Transmission of commands *)

Definition crlf : list Z := [13; 10].

(** The SELECT command, shared or made for a large database number. *)
Definition select_command (dictid : Z) : option (list Z) :=
  s ← ll2string REDIS_LONGSTR_SIZE dictid; n ← ll2string REDIS_LONGSTR_SIZE (zlen s);
  Some ([42; 50] ++ crlf ++ [36; 54] ++ crlf ++ [83; 69; 76; 69; 67; 84] ++ crlf ++ [36] ++ n ++ crlf ++ s ++ crlf).

Definition send_all (bs : list Z) (m : master) : master := set_slaves (slave_append bs <$> m_slaves m) m.

Definition feed_select (dictid : Z) (m : master) : option master :=
  if bool_decide (slaveseldb m = dictid) then Some m
  else
    cmd ← select_command dictid;
    m ← match repl_backlog m with Some _ => feedReplicationBacklogWithObject (Raw cmd) m | None => Some m end;
    Some (set_seldb dictid (send_all cmd m)).

(** [aux]: the prefix, a length, CRLF. *)
Definition aux_header (prefix len : Z) : option (list Z) :=
  s ← ll2string (REDIS_LONGSTR_SIZE + 3 - 1) len; Some (prefix :: s ++ crlf).

Definition feed_argument (m : option master) (o : robj) : option master :=
  m ← m;
  objlen ← stringObjectLen o;
  aux ← aux_header 36 objlen;
  m ← feedReplicationBacklog aux m;
  m ← feedReplicationBacklogWithObject o m;
  feedReplicationBacklog crlf m.

Definition feed_command (argv : list robj) (m : master) : option master :=
  match repl_backlog m with
  | None => Some m
  | Some _ => aux ← aux_header 42 (zlen argv); m ← feedReplicationBacklog aux m; foldl feed_argument (Some m) argv
  end.

(** The length that [addReplyBulkLen] announces for an integer. *)
Definition int_digits (n : Z) : option Z :=
  loop 32 (fun '(n, len) => let n := Z.quot n 10 in if bool_decide (n = 0) then Break len else Continue (n, len + 1))
    (if bool_decide (n < 0) then swrap 64 (- n) else n, if bool_decide (n < 0) then 2 else 1).

(** Shared or printed for the occasion, a length is written the same way. *)
Definition reply_length (prefix len : Z) : option (list Z) :=
  s ← ll2string (128 - 1) len; Some (prefix :: s ++ crlf).

Definition bulk_reply (o : robj) : option (list Z) :=
  len ← match o with Raw s => Some (zlen s) | IntObj v => int_digits v | Other _ _ => None end;
  h ← reply_length 36 len; p ← object_bytes o; Some (h ++ p ++ crlf).

Definition command_reply (argv : list robj) : option (list Z) :=
  h ← reply_length 42 (zlen argv); bs ← mapM bulk_reply argv; Some (h ++ concat bs).

Definition feed_slave (bs : list Z) (s : slave) : slave :=
  if decide (sl_state s = WAIT_BGSAVE_START) then s else slave_append bs s.

Definition replicationFeedSlaves (dictid : Z) (argv : list robj) (m : master) : option master :=
  if bool_decide (repl_backlog m = None /\ m_slaves m = []) then Some m
  else if bool_decide (m_slaves m <> [] /\ repl_backlog m = None) then None
  else
    m ← feed_select dictid m;
    m ← feed_command argv m;
    bs ← command_reply argv;
    Some (set_slaves (feed_slave bs <$> m_slaves m) m).

(** ** PSYNC *)

(** The chunks sent from the index [j]. *)
Definition reply_step (buf : list Z) (size : Z) (st : Z * Z * list Z) : option ((Z * Z * list Z) + list Z) :=
  let '(j, len, out) := st in
  if bool_decide (len = 0) then Some (inr out)
  else
    let thislen := if bool_decide (size - j < len) then size - j else len in
    bs ← zread j thislen buf;
    Some (inl (0, len - thislen, out ++ bs)).

(** What is appended to the output of the slave. *)
Definition addReplyReplicationBacklog (offset : Z) (m : master) : option (list Z) :=
  if bool_decide (repl_backlog_histlen m = 0) then Some []
  else
    buf ← repl_backlog m;
    let size := repl_backlog_size m in
    let skip := offset - repl_backlog_off m in
    let j := Z.rem (repl_backlog_idx m + (size - repl_backlog_histlen m)) size in
    let j := Z.rem (j + skip) size in
    mjoin (loop (S (S (length buf))) (fun st => as_step (reply_step buf size st)) (j, repl_backlog_histlen m - skip, [])).

(** [strcasecmp(a, b) == 0] *)
Definition same_nocase (a b : list Z) : bool := bool_decide (map tolower (c_str a) = map tolower (c_str b)).

Inductive psync_reply := Continue_ | FullResync (offset : Z).

Definition fullresync_offset (m : master) : Z :=
  match repl_backlog m with None => master_repl_offset m + 1 | Some _ => master_repl_offset m end.

(** The reply "-ERR value is not an integer or out of range". *)
Definition not_a_number : list Z :=
  [45; 69; 82; 82; 32; 118; 97; 108; 117; 101; 32; 105; 115; 32; 110; 111; 116; 32; 97; 110; 32; 105; 110; 116; 101; 103; 101; 114;
   32; 111; 114; 32; 111; 117; 116; 32; 111; 102; 32; 114; 97; 110; 103; 101; 13; 10].

(** [server.runid], of which a slave must give the value. *)
Context (runid : list Z).

(** With the output of the client, which holds an error when its argument is
    not a number. *)
Definition masterTryPartialResynchronization (id : nat) (master_runid arg : list Z) (m : master)
    : option (psync_reply * list Z * master) :=
  let need_full_resync out := Some (FullResync (fullresync_offset m), out, m) in
  if negb (same_nocase master_runid runid) then need_full_resync []
  else
    n ← getLongLongFromObject (Some (Raw arg));
    match n with
    | None => need_full_resync not_a_number
    | Some psync_offset =>
        if bool_decide (repl_backlog m = None \/ psync_offset < repl_backlog_off m \/
                        psync_offset > repl_backlog_off m + repl_backlog_histlen m) then need_full_resync []
        else
          out ← addReplyReplicationBacklog psync_offset m;
          Some (Continue_, out, set_slaves (m_slaves m ++ [Slave id ONLINE out (Some (psync_offset - 1))]) m)
    end.

(** The rest of [syncCommand], for a client that was told the offset [told]:
    it waits for the data with what a slave already registers, for the next
    child, or for the one that starts; [fork_ok] tells whether it does. *)
Definition full_resync (id : nat) (told : option Z) (out : list Z) (fork_ok : bool) (m : master) : option master :=
  sm ← (if rdb_child m then
          match list_find (fun s => sl_state s = WAIT_BGSAVE_END) (m_slaves m) with
          | Some (_, s) => Some (Some (Slave id WAIT_BGSAVE_END (sl_out s) told, m))
          | None => Some (Some (Slave id WAIT_BGSAVE_START out told, m))
          end
        else if fork_ok then Some (Some (Slave id WAIT_BGSAVE_END out told, set_child true m)) else Some None);
  match sm with
  | None => Some m
  | Some (s, m) =>
      let m := set_slaves (m_slaves m ++ [s]) (set_seldb (-1) m) in
      if bool_decide (length (m_slaves m) = 1%nat /\ repl_backlog m = None) then createReplicationBacklog m else Some m
  end.

(** [PSYNC master_runid arg] from a client that is not a slave. *)
Definition psyncCommand (id : nat) (master_runid arg : list Z) (fork_ok : bool) (m : master) : option master :=
  if bool_decide (id ∈ sl_id <$> m_slaves m) then Some m
  else
    '(r, out, m) ← masterTryPartialResynchronization id master_runid arg m;
    match r with
    | Continue_ => Some m
    | FullResync offset => full_resync id (Some offset) out fork_ok m
    end.

(** [SYNC] *)
Definition syncCommand (id : nat) (fork_ok : bool) (m : master) : option master :=
  if bool_decide (id ∈ sl_id <$> m_slaves m) then Some m else full_resync id None [] fork_ok m.

(** ** The end of a child, of a transfer, of a connection *)

Definition remove_slave (id : nat) (m : master) : master := set_slaves (filter (fun s => sl_id s <> id) (m_slaves m)) m.

(** [ok]: the child has succeeded and its file can be read; [fork_ok]: the next
    one, if a slave waits for it, starts. *)
Definition updateSlavesWaitingBgsave (ok fork_ok : bool) (m : master) : master :=
  let startbgsave := bool_decide (Exists (fun s => sl_state s = WAIT_BGSAVE_START) (m_slaves m)) in
  let step s := match sl_state s with
                | WAIT_BGSAVE_START => Some (slave_state WAIT_BGSAVE_END s)
                | WAIT_BGSAVE_END => if ok then Some (slave_state SEND_BULK s) else None
                | _ => Some s
                end in
  set_child (startbgsave && fork_ok) (set_slaves (omap step (m_slaves m)) m).

Definition bulk_sent (id : nat) (m : master) : master :=
  set_slaves ((fun s => if decide (sl_id s = id /\ sl_state s = SEND_BULK) then slave_state ONLINE s else s) <$> m_slaves m) m.

(** [replicationCron], once the time has passed. *)
Definition cron_backlog (m : master) : option master :=
  if bool_decide (m_slaves m = [] /\ repl_backlog m <> None) then freeReplicationBacklog m else Some m.

(** ** Sequences of events *)

Inductive repl_event :=
| EvFeed (dictid : Z) (argv : list robj)
| EvPsync (id : nat) (master_runid arg : list Z) (fork_ok : bool)
| EvSync (id : nat) (fork_ok : bool)
| EvResize (newsize : Z)
| EvBgsave
| EvBgsaveDone (ok fork_ok : bool)
| EvBulkSent (id : nat)
| EvDisconnect (id : nat)
| EvCron.

Definition repl_step (m : master) (e : repl_event) : option master :=
  match e with
  | EvFeed dictid argv => replicationFeedSlaves dictid argv m
  | EvPsync id r arg fork_ok => psyncCommand id r arg fork_ok m
  | EvSync id fork_ok => syncCommand id fork_ok m
  | EvResize n => Some (resizeReplicationBacklog n m)
  | EvBgsave => Some (set_child true m)
  | EvBgsaveDone ok fork_ok => Some (if rdb_child m then updateSlavesWaitingBgsave ok fork_ok m else m)
  | EvBulkSent id => Some (bulk_sent id m)
  | EvDisconnect id => Some (remove_slave id m)
  | EvCron => cron_backlog m
  end.

Definition repl_run (m : master) (es : list repl_event) : option master := foldl (fun m e => m ← m; repl_step m e) (Some m) es.
End Backlog.
