(* ===== verification/ReplicationSpecs.v ===== *)
(** * Replication: what the slaves receive

    The state of the master refines a log, the sequence of the bytes that were
    sent since the server started; a place of the log that no slave can have
    received, where a backlog was created, holds [None].  The backlog holds the
    end of the log, and the output of a slave that has synchronised is the log
    from the offset it was told. *)
From S2P Require Import Prelude Memory Util Sds Protocol Server Replication.

(** ** The circular buffer *)

(** The bytes of the buffer, the oldest first. *)
Definition rotation (buf : list Z) (idx : Z) : list Z := drop (Z.to_nat idx) buf ++ take (Z.to_nat idx) buf.

(** The buffer holds the end of [t], after bytes that do not count. *)
Record ring (size : Z) (buf : list Z) (idx : Z) (t : list Z) : Prop := {
  ring_len : zlen buf = size;
  ring_idx : 0 <= idx < size;
  ring_end : exists pre, zlen pre = size /\ rotation buf idx = drop (length t) (pre ++ t) }.

Lemma ring_new size buf idx : 0 < size -> zlen buf = size -> idx = 0 -> ring size buf idx [].
Proof.
  intros Hs Hb ->. split; [done|lia|]. exists buf. split; [done|].
  unfold rotation. by rewrite take_0, !drop_0.
Qed.

(** A chunk that fits before the end of the buffer. *)
Lemma ring_write size buf idx t c :
  ring size buf idx t -> idx + zlen c <= size ->
  exists buf', zwrite idx c buf = Some buf' /\
    ring size buf' (if bool_decide (idx + zlen c = size) then 0 else idx + zlen c) (t ++ c).
Proof.
  intros [Hl Hi (pre & Hp & Hr)] Hc. unfold zwrite. rewrite bool_decide_true by lia.
  eexists. split; [done|]. split.
  - rewrite length_mem_write by lia. done.
  - case_bool_decide; lia.
  - exists pre. split; [done|].
    transitivity (drop (length c) (rotation buf idx) ++ c).
    + unfold rotation, mem_write. rewrite (drop_app_le (drop _ buf)) by (rewrite length_drop; lia). rewrite drop_drop.
      set (i := Z.to_nat idx). assert (length (take i buf ++ c) = (i + length c)%nat) as Hpre
        by (rewrite length_app, length_take; unfold i; lia).
      rewrite (app_assoc (take i buf) c). case_bool_decide.
      * rewrite drop_0, take_0, app_nil_r. rewrite (drop_ge buf) by (unfold i; lia). by rewrite app_nil_r.
      * replace (Z.to_nat (idx + zlen c)) with (i + length c)%nat by (unfold i; lia).
        rewrite drop_app_length' by done. rewrite take_app_length' by done. by rewrite <- app_assoc.
    + rewrite Hr, drop_drop, length_app, (app_assoc pre t c).
      rewrite (drop_app_le (pre ++ t)) by (rewrite length_app; lia). done.
Qed.

Lemma feed_loop size fuel buf idx t h p :
  ring size buf idx t -> (length p < fuel)%nat ->
  exists buf' idx', mjoin (loop fuel (fun st => as_step (feed_step size st)) (buf, idx, h, p)) = Some (buf', idx', h + zlen p) /\
    ring size buf' idx' (t ++ p).
Proof.
  revert buf idx t h p. induction fuel as [|fuel IH]; intros buf idx t h p Hr Hf; [lia|]. rewrite loop_S. unfold feed_step at 1.
  destruct (decide (p = [])) as [->|Hne].
  { rewrite bool_decide_true by done. exists buf, idx. cbn. rewrite Z.add_0_r, app_nil_r. done. }
  rewrite bool_decide_false by done. cbv zeta.
  pose proof (ring_idx _ _ _ _ Hr).
  assert (0 < zlen p) by (destruct p; [done|cbn; lia]).
  set (n := if bool_decide (size - idx > zlen p) then zlen p else size - idx).
  assert (0 < n <= zlen p /\ n <= size - idx) as Hn by (unfold n; case_bool_decide; lia).
  assert (zlen (take (Z.to_nat n) p) = n) as Hc by (rewrite length_take; lia).
  destruct (ring_write size buf idx t (take (Z.to_nat n) p) Hr ltac:(lia)) as (buf1 & -> & Hr1). rewrite Hc in Hr1.
  bind_rw. cbn [as_step].
  destruct (IH _ _ _ (h + n) (drop (Z.to_nat n) p) Hr1) as (buf' & idx' & -> & Hr'); [rewrite length_drop; lia|].
  exists buf', idx'. rewrite <- app_assoc, take_drop in Hr'. split; [|done].
  by replace (h + n + zlen (drop (Z.to_nat n) p)) with (h + zlen p) by (rewrite length_drop; lia).
Qed.

(** The chunks of a reply of [len] bytes are the last [len] bytes. *)
Lemma reply_loop size buf idx t len j :
  ring size buf idx t -> 0 <= len <= size -> len <= zlen t -> j = (idx + size - len) mod size ->
  mjoin (loop (S (S (length buf))) (fun st => as_step (reply_step buf size st)) (j, len, [])) = Some (drop (length t - Z.to_nat len) t).
Proof.
  intros [Hl Hi (pre & Hp & Hr)] Hlen Ht ->.
  assert (drop (length t - Z.to_nat len) t = drop (Z.to_nat (size - len)) (rotation buf idx)) as ->.
  { rewrite Hr, drop_drop, drop_app, (drop_ge pre) by lia. simpl. f_equal. lia. }
  clear Hr Ht. rewrite loop_S. unfold reply_step at 1. cbv beta iota.
  destruct (decide (len = 0)) as [->|Hnz].
  { rewrite bool_decide_true by done. cbn. rewrite drop_ge; [done|].
    unfold rotation. rewrite length_app, length_drop, length_take. lia. }
  rewrite bool_decide_false by done. cbv zeta.
  assert ((idx + size - len) mod size = if bool_decide (len <= idx) then idx - len else idx + size - len) as ->.
  { case_bool_decide; [|by apply Z.mod_small; lia]. symmetry. apply (Z.mod_unique _ _ 1); lia. }
  unfold rotation. destruct (bool_decide_reflect (len <= idx)) as [Hle|Hgt].
  - rewrite bool_decide_false by lia. unfold zread at 1. rewrite bool_decide_true by lia. bind_rw. cbn [as_step].
    rewrite loop_S. unfold reply_step at 1. rewrite bool_decide_true by lia. cbn [as_step mjoin option_join app].
    f_equal. unfold mem_read. rewrite drop_app, (drop_ge (drop _ _)) by (rewrite length_drop; lia). cbn [app].
    rewrite length_drop.
    replace (Z.to_nat (size - len) - (length buf - Z.to_nat idx))%nat with (Z.to_nat (idx - len)) by lia.
    rewrite skipn_firstn_comm. f_equal. lia.
  - set (k := if bool_decide (size - (idx + size - len) < len) then size - (idx + size - len) else len).
    assert (k = len - idx) as -> by (unfold k; case_bool_decide; lia).
    unfold zread at 1. rewrite bool_decide_true by lia. bind_rw. cbn [as_step].
    rewrite drop_app_le by (rewrite length_drop; lia). rewrite drop_drop.
    assert (mem_read (Z.to_nat (idx + size - len)) (Z.to_nat (len - idx)) buf = drop (Z.to_nat idx + Z.to_nat (size - len)) buf) as ->.
    { unfold mem_read. rewrite take_ge by (rewrite length_drop; lia). f_equal. lia. }
    rewrite loop_S. unfold reply_step at 1. replace (len - (len - idx)) with idx by lia.
    destruct (decide (idx = 0)) as [->|Hi0].
    { rewrite bool_decide_true by done. by rewrite take_0, app_nil_r. }
    rewrite bool_decide_false by done. cbv zeta. rewrite (bool_decide_false (size - 0 < idx)) by lia.
    unfold zread. rewrite bool_decide_true by lia. bind_rw. cbn [as_step].
    destruct (length buf) as [|n] eqn:Hbuf; [lia|]. rewrite loop_S. unfold reply_step. rewrite bool_decide_true by lia.
    cbn [as_step mjoin option_join app]. unfold mem_read. by rewrite drop_0.
Qed.

(** ** Printing *)

Definition object_ok (o : robj) : Prop :=
  match o with IntObj v => srange 64 v | Raw s => zlen s < 2 ^ 63 | Other _ _ => False end.
#[export] Instance object_ok_dec o : Decision (object_ok o).
Proof. destruct o; apply _. Defined.

(** The bytes an object stands for. *)
Definition object_string (o : robj) : list Z :=
  match o with IntObj v => print_length v | Raw s => s | Other _ _ => [] end.

Lemma ll2string_print k v : 21 <= k -> srange 64 v -> ll2string k v = Some (print_length v).
Proof.
  intros Hk Hv. destruct (decimal_exists v) as [s Hs]. unfold print_length.
  by rewrite !(ll2string_decimal _ v s) by done.
Qed.

Lemma zlen_srange {A} (l : list A) : zlen l < 2 ^ 63 -> srange 64 (zlen l).
Proof. unfold srange. simpl. lia. Qed.

Lemma object_bytes_ok o : object_ok o -> object_bytes o = Some (object_string o).
Proof. destruct o; simpl; [done| |done]. intros. by apply ll2string_print. Qed.

Lemma print_length_decimal v : srange 64 v -> decimal v (print_length v).
Proof.
  intros Hv. destruct (decimal_exists v) as [s Hs]. unfold print_length. by rewrite (ll2string_decimal 31 v s).
Qed.

(** The count of digits by divisions is the length of the notation. *)
Lemma digits_loop l k fuel : canonical l -> (length l <= fuel)%nat ->
  loop fuel (fun '(n, len) => let n := Z.quot n 10 in if bool_decide (n = 0) then Break len else Continue (n, len + 1))
    (digits_value l, k) = Some (k + zlen l - 1).
Proof.
  revert k fuel. induction l as [|d l IH] using rev_ind; intros k fuel Hl Hf.
  { destruct Hl as [_ [|(?&?&?&?)]]; done. }
  rewrite length_app in Hf. simpl in Hf. destruct fuel as [|fuel]; [lia|]. rewrite loop_S. cbv beta iota zeta.
  pose proof Hl as [Hok _]. apply Forall_app in Hok as [Hok Hd]. apply Forall_cons in Hd as [Hd _].
  pose proof (digits_value_nonneg l Hok).
  assert (Z.quot (digits_value (l ++ [d])) 10 = digits_value l) as ->.
  { rewrite digits_value_snoc, Z.quot_div_nonneg by lia. rewrite Z.div_add_l, Z.div_small by lia. lia. }
  rewrite length_app. destruct (decide (l = [])) as [->|Hne].
  - rewrite bool_decide_true by done. simpl. f_equal. lia.
  - destruct (canonical_snoc_inv l d Hl Hne) as (Hcan & Hpos & _).
    rewrite bool_decide_false by lia. rewrite IH by (done || lia). f_equal. simpl. lia.
Qed.

Lemma int_digits_length v : srange 64 v -> int_digits v = Some (zlen (print_length v)).
Proof.
  intros Hv. destruct (decide (v = - 2 ^ 63)) as [->|Hne]; [by vm_compute|].
  destruct (print_length_decimal v Hv) as (l & Hl & Hlv & ->).
  unfold srange in Hv. change (64 - 1) with 63 in Hv. unfold int_digits.
  pose proof (canonical_length_below 19 l ltac:(lia) Hl ltac:(rewrite Hlv; simpl; lia)).
  case_bool_decide.
  - rewrite swrap_small by (unfold srange; simpl; lia). replace (- v) with (digits_value l) by lia.
    rewrite digits_loop by (done || lia). f_equal. simpl length. lia.
  - replace v with (digits_value l) by lia. rewrite digits_loop by (done || lia). f_equal. lia.
Qed.

(** The replies written for a command are its multi-bulk form. *)
Lemma reply_length_ok c n : srange 64 n -> reply_length c n = Some (c :: print_length n ++ crlf).
Proof. intros Hn. unfold reply_length. by rewrite ll2string_print. Qed.

Lemma aux_header_ok c n : srange 64 n -> aux_header c n = Some (c :: print_length n ++ crlf).
Proof. intros Hn. unfold aux_header. by rewrite ll2string_print. Qed.

Lemma print_length_size v : srange 64 v -> zlen (print_length v) <= 20.
Proof.
  intros Hv. destruct (print_length_decimal v Hv) as (l & Hl & Hlv & ->). unfold srange in Hv. simpl in Hv.
  pose proof (canonical_length_below 19 l ltac:(lia) Hl ltac:(rewrite Hlv; simpl; lia)). case_bool_decide; simpl length; lia.
Qed.

Lemma object_string_size o : object_ok o -> zlen (object_string o) < 2 ^ 63.
Proof. destruct o; simpl; [lia| |done]. intros Hv. pose proof (print_length_size _ Hv). lia. Qed.

Lemma stringObjectLen_ok o : object_ok o -> stringObjectLen o = Some (zlen (object_string o)).
Proof. destruct o; simpl; [done| |done]. intros Hv. unfold stringObjectLen. simpl. by rewrite ll2string_print. Qed.

Lemma bulk_reply_ok o : object_ok o -> bulk_reply o = Some (cat_bulk (object_string o)).
Proof.
  intros Ho. unfold bulk_reply.
  assert (match o with Raw s => Some (zlen s) | IntObj v => int_digits v | Other _ _ => None end = Some (zlen (object_string o))) as ->.
  { destruct o; simpl in *; [done|by apply int_digits_length|done]. }
  bind_rw. rewrite reply_length_ok by (by apply zlen_srange, object_string_size). bind_rw.
  rewrite object_bytes_ok by done. bind_rw. unfold cat_bulk, crlf. simpl. by rewrite <- app_assoc.
Qed.

Definition command_ok (dictid : Z) (argv : list robj) : Prop :=
  srange 32 dictid /\ zlen argv < 2 ^ 31 /\ Forall object_ok argv.
#[export] Instance command_ok_dec d av : Decision (command_ok d av).
Proof. unfold command_ok. apply _. Defined.

Lemma command_reply_ok argv : zlen argv < 2 ^ 31 -> Forall object_ok argv ->
  command_reply argv = Some (multibulk (object_string <$> argv)).
Proof.
  intros Hl Ha. unfold command_reply. rewrite reply_length_ok by (apply zlen_srange; lia). bind_rw.
  assert (mapM bulk_reply argv = Some (cat_bulk <$> (object_string <$> argv))) as ->.
  { clear Hl. induction Ha as [|o argv Ho _ IH]; [done|]. simpl. by rewrite bulk_reply_ok, IH. }
  bind_rw. unfold multibulk, bulks. rewrite length_fmap, flat_map_concat_map. simpl. by rewrite <- app_assoc.
Qed.

(** The command that selects a database. *)
Definition select_bytes (d : Z) : list Z := multibulk [[83; 69; 76; 69; 67; 84]; print_length d].

Lemma select_command_ok d : srange 32 d -> select_command d = Some (select_bytes d).
Proof.
  intros Hd. assert (srange 64 d) as Hd' by (unfold srange in *; simpl in *; lia).
  unfold select_command. rewrite ll2string_print by done. bind_rw.
  rewrite ll2string_print by (done || apply zlen_srange; pose proof (print_length_size d Hd'); lia).
  bind_rw. unfold select_bytes, multibulk, bulks. cbn [flat_map length app]. unfold cat_bulk.
  change (print_length (Z.of_nat 2)) with [50]. change (print_length (zlen [83; 69; 76; 69; 67; 84])) with [54].
  unfold crlf. cbn [app]. by rewrite app_nil_r.
Qed.

(** ** The state and the log *)

Record at_log (m : master) (log : list (option Z)) : Prop := {
  al_size : 0 < repl_backlog_size m;
  al_offset : master_repl_offset m = zlen log;
  al_backlog : forall buf, repl_backlog m = Some buf -> exists log0 t,
    log = log0 ++ (Some <$> t) /\ ring (repl_backlog_size m) buf (repl_backlog_idx m) t /\
    repl_backlog_histlen m = Z.min (zlen t) (repl_backlog_size m) /\
    repl_backlog_off m = master_repl_offset m - repl_backlog_histlen m + 1;
  al_slaves : m_slaves m <> [] -> repl_backlog m <> None }.

(** What feeding the backlog leaves alone. *)
Record same_but_backlog (m m' : master) : Prop := {
  sb_slaves : m_slaves m' = m_slaves m;
  sb_seldb : slaveseldb m' = slaveseldb m;
  sb_child : rdb_child m' = rdb_child m;
  sb_backlog : repl_backlog m' = None <-> repl_backlog m = None }.

#[export] Instance same_preorder : PreOrder same_but_backlog.
Proof. split; [by split|]. intros m1 m2 m3 [] []. split; try congruence. tauto. Qed.

(** [f] sends [p] to the backlog. *)
Definition feeds (f : master -> option master) (p : list Z) : Prop :=
  forall m log, at_log m log -> repl_backlog m <> None ->
    exists m', f m = Some m' /\ at_log m' (log ++ (Some <$> p)) /\ same_but_backlog m m'.

Lemma feedReplicationBacklog_feeds p : feeds (feedReplicationBacklog p) p.
Proof.
  intros m log [Hs Ho Hb Hsl] Hne. unfold feedReplicationBacklog.
  destruct (repl_backlog m) as [buf|] eqn:Hbuf; [|done]. bind_rw.
  destruct (Hb buf eq_refl) as (log0 & t & -> & Hr & Hh & _).
  destruct (feed_loop _ (S (length p)) _ _ _ (repl_backlog_histlen m) p Hr ltac:(lia)) as (buf' & idx' & -> & Hr').
  bind_rw. eexists. split; [done|]. split.
  - split; cbn; [done| | |done].
    + rewrite length_app, length_fmap. lia.
    + intros ? [= <-]. exists log0, (t ++ p). split_and!; [by rewrite fmap_app, app_assoc|done| |done].
      rewrite Hh, length_app. case_bool_decide; lia.
  - split; cbn; try done. by rewrite Hbuf.
Qed.

Lemma feeds_bind f g p q : feeds f p -> feeds g q -> feeds (fun m => m ← f m; g m) (p ++ q).
Proof.
  intros Hf Hg m log Hm Hb. destruct (Hf m log Hm Hb) as (m1 & -> & Hm1 & Hs1). bind_rw.
  destruct (Hg m1 _ Hm1 ltac:(by rewrite (sb_backlog _ _ Hs1))) as (m2 & -> & Hm2 & Hs2).
  exists m2. rewrite fmap_app, app_assoc. split_and!; [done..|by transitivity m1].
Qed.

Lemma feeds_nil : feeds Some [].
Proof. intros m log Hm Hb. exists m. rewrite app_nil_r. done. Qed.

Lemma feedObject_feeds o : object_ok o -> feeds (feedReplicationBacklogWithObject o) (object_string o).
Proof.
  intros Ho m log Hm Hb. unfold feedReplicationBacklogWithObject. rewrite object_bytes_ok by done. bind_rw.
  by apply feedReplicationBacklog_feeds.
Qed.

Lemma feed_argument_feeds o : object_ok o -> feeds (fun m => feed_argument (Some m) o) (cat_bulk (object_string o)).
Proof.
  intros Ho m log Hm Hb. unfold feed_argument. bind_rw. rewrite stringObjectLen_ok by done. bind_rw.
  rewrite aux_header_ok by (by apply zlen_srange, object_string_size). bind_rw.
  replace (cat_bulk (object_string o))
    with ((36 :: print_length (zlen (object_string o)) ++ crlf) ++ object_string o ++ crlf)
    by (unfold cat_bulk; simpl; by rewrite <- app_assoc).
  refine (feeds_bind _ _ _ _ _ (feeds_bind _ _ _ _ _ _) m log Hm Hb); auto using feedReplicationBacklog_feeds, feedObject_feeds.
Qed.

Lemma feed_arguments_feeds argv : Forall object_ok argv ->
  feeds (fun m => foldl feed_argument (Some m) argv) (bulks (object_string <$> argv)).
Proof.
  induction 1 as [|o argv Ho _ IH]; [apply feeds_nil|]. intros m log Hm Hb.
  destruct (feeds_bind _ _ _ _ (feed_argument_feeds o Ho) IH m log Hm Hb) as (m' & Hf & ? & ?). exists m'. split; [|done].
  rewrite <- Hf. cbn [foldl]. destruct (feed_argument_feeds o Ho m log Hm Hb) as (m1 & -> & _). done.
Qed.

Lemma feed_command_feeds argv : zlen argv < 2 ^ 31 -> Forall object_ok argv ->
  feeds (feed_command argv) (multibulk (object_string <$> argv)).
Proof.
  intros Hl Ha m log Hm Hb. unfold feed_command. destruct (repl_backlog m) eqn:Hbuf; [|done].
  rewrite aux_header_ok by (apply zlen_srange; lia). bind_rw.
  replace (multibulk (object_string <$> argv))
    with ((42 :: print_length (zlen argv) ++ crlf) ++ bulks (object_string <$> argv))
    by (unfold multibulk; rewrite length_fmap; simpl; by rewrite <- app_assoc).
  apply (feeds_bind _ _ _ _ (feedReplicationBacklog_feeds _) (feed_arguments_feeds argv Ha)); congruence.
Qed.

Lemma at_log_slaves l m log : at_log m log -> (l <> [] -> repl_backlog m <> None) -> at_log (set_slaves l m) log.
Proof. intros [] ?. by split. Qed.
Lemma at_log_seldb d m log : at_log m log -> at_log (set_seldb d m) log.
Proof. intros []. by split. Qed.
Lemma at_log_child b m log : at_log m log -> at_log (set_child b m) log.
Proof. intros []. by split. Qed.
#[local] Hint Resolve at_log_slaves at_log_seldb at_log_child : core.

(** The bytes sent for a command, first to every slave, then to those that do
    not wait for a child to start. *)
Definition selection (m : master) (d : Z) : list Z := if decide (slaveseldb m = d) then [] else select_bytes d.

Lemma slave_append_nil s : slave_append [] s = s.
Proof. destruct s. unfold slave_append. by rewrite app_nil_r. Qed.

Lemma fmap_not_nil {A B} (f : A -> B) l : f <$> l <> [] -> l <> [].
Proof. by destruct l. Qed.
#[local] Hint Resolve fmap_not_nil : core.

Lemma feed_select_ok d m log : at_log m log -> repl_backlog m <> None -> srange 32 d ->
  exists m', feed_select d m = Some m' /\ at_log m' (log ++ (Some <$> selection m d)) /\ repl_backlog m' <> None /\
    m_slaves m' = slave_append (selection m d) <$> m_slaves m /\ rdb_child m' = rdb_child m.
Proof.
  intros Hm Hb Hd. unfold feed_select, selection. case_decide as Hsel.
  - rewrite bool_decide_true by done. exists m. rewrite app_nil_r. split_and!; [done..| |done].
    rewrite <- (list_fmap_id (m_slaves m)) at 1. apply list_fmap_ext. intros. by rewrite slave_append_nil.
  - rewrite bool_decide_false, select_command_ok by done. bind_rw.
    destruct (feedReplicationBacklog_feeds (select_bytes d) m log Hm Hb) as (m1 & Hf & Hm1 & [Hsl Hsd Hc Hbl]).
    destruct (repl_backlog m) as [buf|] eqn:Hbuf; [|done].
    unfold feedReplicationBacklogWithObject, object_bytes. bind_rw. rewrite Hf. bind_rw.
    assert (repl_backlog m1 <> None) as Hb1 by (intros ?; by apply Hbl in H).
    eexists. split; [done|]. cbn. split_and!; [|done|by rewrite Hsl|done]. apply at_log_seldb, at_log_slaves; [done|auto].
Qed.

Definition command_bytes (argv : list robj) : list Z := multibulk (object_string <$> argv).

Lemma replicationFeedSlaves_ok d argv m log : at_log m log -> repl_backlog m <> None -> command_ok d argv ->
  exists m', replicationFeedSlaves d argv m = Some m' /\
    at_log m' (log ++ (Some <$> selection m d ++ command_bytes argv)) /\ repl_backlog m' <> None /\
    m_slaves m' = (fun s => feed_slave (command_bytes argv) (slave_append (selection m d) s)) <$> m_slaves m /\
    rdb_child m' = rdb_child m.
Proof.
  intros Hm Hb (Hd & Hl & Ha). unfold replicationFeedSlaves.
  rewrite bool_decide_false by (by intros [? _]). rewrite bool_decide_false by (by intros [_ ?]).
  destruct (feed_select_ok d m log Hm Hb Hd) as (m1 & -> & Hm1 & Hb1 & Hs1 & Hc1). bind_rw.
  destruct (feed_command_feeds argv Hl Ha m1 _ Hm1 Hb1) as (m2 & -> & Hm2 & [Hs2 _ Hc2 Hb2]). bind_rw.
  rewrite command_reply_ok by done. bind_rw. eexists. split; [done|]. cbn.
  assert (repl_backlog m2 <> None) by (intros ?; by apply Hb1, Hb2).
  split_and!; [|done| |congruence].
  - rewrite fmap_app, app_assoc. apply at_log_slaves; [done|auto].
  - rewrite Hs2, Hs1, <- list_fmap_compose. done.
Qed.

(** ** Partial resynchronisation *)

Lemma addReply_ok m log o : at_log m log -> repl_backlog m <> None ->
  repl_backlog_off m <= o <= repl_backlog_off m + repl_backlog_histlen m ->
  exists out, addReplyReplicationBacklog o m = Some out /\
    0 <= o - 1 <= zlen log /\ Some <$> out = drop (Z.to_nat (o - 1)) log.
Proof.
  intros [Hs Ho Hbl _] Hb Hr. unfold addReplyReplicationBacklog.
  destruct (repl_backlog m) as [buf|] eqn:Hbuf; [|done].
  destruct (Hbl buf eq_refl) as (log0 & t & -> & Hring & Hh & Hoff). case_bool_decide as Hh0.
  { exists []. split; [done|]. rewrite length_app, length_fmap in *. split; [lia|].
    rewrite drop_ge; [done|]. rewrite length_app, length_fmap. lia. }
  bind_rw. cbv zeta.
  rewrite length_app, length_fmap in *. pose proof (ring_idx _ _ _ _ Hring).
  rewrite !Z.rem_mod_nonneg by (rewrite ?Z.rem_mod_nonneg by lia; try apply Z.add_nonneg_nonneg; try apply Z.mod_pos_bound; lia).
  rewrite Zplus_mod_idemp_l. set (len := repl_backlog_histlen m - (o - repl_backlog_off m)).
  rewrite (reply_loop _ buf (repl_backlog_idx m) t len) by (done || unfold len; lia || f_equal; unfold len; lia).
  eexists. split; [done|]. split; [lia|].
  rewrite drop_app, (drop_ge log0) by lia. simpl. rewrite fmap_drop. f_equal. unfold len. lia.
Qed.

(** What an event sends: a command the bytes of its selection and of its
    arguments, if there is a backlog; the creation of a backlog skips a place. *)
Definition sent (m : master) (e : repl_event) : list (option Z) :=
  match e, repl_backlog m with
  | EvFeed d argv, Some _ => Some <$> selection m d ++ command_bytes argv
  | _, _ => []
  end.
Definition gap (m m' : master) : list (option Z) :=
  if bool_decide (repl_backlog m = None /\ repl_backlog m' <> None) then [None] else [].

Lemma gap_none m m' : (repl_backlog m = None -> repl_backlog m' = None) -> gap m m' = [].
Proof. intros H. unfold gap. rewrite bool_decide_false; [done|tauto]. Qed.
Lemma gap_slaves m m' log : at_log m log -> m_slaves m <> [] -> gap m m' = [].
Proof. intros Hm Hs. apply gap_none. intros Hb. by apply (al_slaves m log Hm) in Hs. Qed.

Definition event_ok (e : repl_event) : Prop :=
  match e with
  | EvFeed d argv => command_ok d argv
  | EvPsync _ _ arg _ => is_Some (mjoin (getLongLongFromObject (Some (Raw arg))))
  | _ => True
  end.
#[export] Instance event_ok_dec e : Decision (event_ok e).
Proof. destruct e; apply _. Defined.

Section Stream.
Context (junk : nat -> Z) (runid : list Z).

Lemma new_block_length n : 0 <= n -> zlen (new_block junk n) = n.
Proof using Type. intros. unfold new_block. rewrite length_realloc. lia. Qed.

Lemma createReplicationBacklog_ok m log : at_log m log -> repl_backlog m = None ->
  exists m', createReplicationBacklog junk m = Some m' /\ at_log m' (log ++ [None]) /\ repl_backlog m' <> None /\
    m_slaves m' = m_slaves m /\ rdb_child m' = rdb_child m.
Proof using Type.
  intros [Hs Ho _ _] Hb. unfold createReplicationBacklog. rewrite Hb. eexists. split; [done|]. split_and!; try done.
  split; cbn; try done; [rewrite length_app; simpl; lia|].
  intros ? [= <-]. exists (log ++ [None]), []. rewrite app_nil_r. split_and!; try done; [|simpl; lia|simpl; lia].
  apply ring_new; [done| |done]. apply new_block_length. lia.
Qed.

Lemma resize_ok n m log : at_log m log -> at_log (resizeReplicationBacklog junk n m) log.
Proof using Type.
  intros Hm. pose proof Hm as [Hs Ho Hb Hsl]. unfold resizeReplicationBacklog.
  set (n' := if bool_decide (n < REDIS_REPL_BACKLOG_MIN_SIZE) then REDIS_REPL_BACKLOG_MIN_SIZE else n).
  assert (0 < n') as Hn by (unfold n', REDIS_REPL_BACKLOG_MIN_SIZE; case_bool_decide; lia).
  case_bool_decide; [done|]. destruct (repl_backlog m) eqn:Hbuf; split; cbn; try done.
  intros ? [= <-]. exists log, []. rewrite app_nil_r. split_and!; try done; [|simpl; lia|simpl; lia].
  apply ring_new; [done| |done]. apply new_block_length. lia.
Qed.

(** A full resynchronisation registers the client, or nothing when the child
    does not start. *)
Lemma full_resync_ok id told out fork m log : at_log m log ->
  exists m', full_resync junk id told out fork m = Some m' /\ at_log m' (log ++ gap m m') /\
    (m' = m /\ fork = false \/
     exists s, m_slaves m' = m_slaves m ++ [s] /\ rdb_child m' = true /\ sl_id s = id /\ sl_told s = told /\ repl_backlog m' <> None /\
       (rdb_child m = false -> sl_out s = out /\ sl_state s = WAIT_BGSAVE_END)).
Proof using Type.
  intros Hm. unfold full_resync.
  set (sm := if rdb_child m then _ else _).
  assert (sm = Some None /\ fork = false \/ exists s, sm = Some (Some (s, set_child true m)) /\ sl_id s = id /\ sl_told s = told /\
    (rdb_child m = false -> sl_out s = out /\ sl_state s = WAIT_BGSAVE_END)) as Hsm.
  { unfold sm. destruct (rdb_child m) eqn:Hc.
    - right. destruct (list_find _ _) as [[? s]|]; eexists; (split; [destruct m; cbn in *; by subst|done]).
    - destruct fork; [right; by eexists|by left]. }
  destruct Hsm as [[-> Hfork]|(s & -> & Hid & Htold & Hout)]; bind_rw.
  { exists m. rewrite gap_none, app_nil_r by done. auto. }
  set (m1 := set_slaves (m_slaves (set_child true m) ++ [s]) (set_seldb (-1) (set_child true m))).
  destruct (repl_backlog m) as [buf|] eqn:Hbuf.
  - rewrite bool_decide_false by (intros [_ ?]; cbn in *; congruence). exists m1.
    rewrite gap_none, app_nil_r by congruence. split_and!; [done| |].
    + unfold m1. apply at_log_slaves; [auto|]. cbn. congruence.
    + right. exists s. split_and!; try done. cbn. congruence.
  - assert (m_slaves m = []) as Hsl by (destruct (m_slaves m) eqn:Hs; [done|]; exfalso; apply (al_slaves m log Hm); congruence).
    rewrite bool_decide_true by (unfold m1; cbn; by rewrite Hsl).
    assert (at_log (set_slaves [] m1) log) as Hm1 by (change (at_log (set_slaves [] (set_seldb (-1) (set_child true m))) log); auto).
    destruct (createReplicationBacklog_ok (set_slaves [] m1) log Hm1 Hbuf) as (m2 & Hc & Hm2 & Hb2 & _ & _).
    unfold createReplicationBacklog in *. cbn in *. rewrite Hbuf in *. eexists. split; [done|]. injection Hc as <-.
    unfold gap. rewrite bool_decide_true by done. split.
    + destruct Hm2 as [? ? ? _]. split; cbn in *; done.
    + right. exists s. split_and!; done.
Qed.

(** The slaves after an event other than a command: those before, in another
    state, or one that has just come. *)
Definition slaves_from (id : option nat) (m m' : master) : Prop :=
  forall s', s' ∈ m_slaves m' ->
    (exists s, s ∈ m_slaves m /\ sl_id s' = sl_id s /\ sl_out s' = sl_out s /\ sl_told s' = sl_told s /\
       (sl_state s <> WAIT_BGSAVE_START -> sl_state s' <> WAIT_BGSAVE_START)) \/ id = Some (sl_id s').

Lemma slaves_kept id m m' : (forall s, s ∈ m_slaves m' -> s ∈ m_slaves m) -> slaves_from id m m'.
Proof using Type. intros H s Hs. left. exists s. split_and!; auto. Qed.

Definition event_client (e : repl_event) : option nat :=
  match e with EvPsync id _ _ _ | EvSync id _ => Some id | _ => None end.

Abbreviation step := (repl_step junk runid).

Lemma full_resync_step id told out fork m log : at_log m log ->
  exists m', full_resync junk id told out fork m = Some m' /\ at_log m' (log ++ gap m m') /\ slaves_from (Some id) m m'.
Proof using Type.
  intros Hm. destruct (full_resync_ok id told out fork m log Hm) as (m' & -> & Hm' & Hsl). exists m'. split_and!; [done..|].
  destruct Hsl as [[-> _]|(s & Hsl & _ & <- & _)].
  - by apply slaves_kept.
  - intros s' Hs'. rewrite Hsl in Hs'. apply elem_of_app in Hs' as [Hs'| ->%list_elem_of_singleton]; [|by right].
    left. exists s'. split_and!; auto.
Qed.

(** What PSYNC does: the client continues, or everything starts again. *)
Lemma psync_cases id r arg fork m log : at_log m log -> event_ok (EvPsync id r arg fork) -> (id ∉ sl_id <$> m_slaves m) ->
  (exists o out, (psyncCommand junk runid id r arg fork m : option master) =
      Some (set_slaves (m_slaves m ++ [Slave id ONLINE out (Some o)]) m) /\
    repl_backlog m <> None /\ 0 <= o <= zlen log /\ Some <$> out = drop (Z.to_nat o) log) \/
  (psyncCommand junk runid id r arg fork m = full_resync junk id (Some (fullresync_offset m)) [] fork m /\
    (forall out m', masterTryPartialResynchronization runid id r arg m <> Some (Continue_, out, m'))).
Proof using Type.
  intros Hm [n Hn] Hid.
  assert (getLongLongFromObject (Some (Raw arg)) = Some (Some n)) as Hnum
    by (destruct (getLongLongFromObject (Some (Raw arg))) as [[|]|]; [by injection Hn as ->|done..]). clear Hn.
  unfold psyncCommand. rewrite bool_decide_false by done.
  unfold masterTryPartialResynchronization. destruct (negb _); [by right|]. rewrite Hnum. bind_rw.
  case_bool_decide as Hr; [by right|]. left.
  assert (repl_backlog m <> None /\ repl_backlog_off m <= n <= repl_backlog_off m + repl_backlog_histlen m) as [Hb Hrange]
    by (split; [tauto|lia]).
  destruct (addReply_ok m log n Hm Hb Hrange) as (out & -> & Hout). bind_rw. exists (n - 1), out. done.
Qed.

Lemma repl_step_ok e m log : at_log m log -> event_ok e ->
  exists m', step m e = Some m' /\ at_log m' (log ++ gap m m' ++ sent m e) /\
    (slaves_from (event_client e) m m' /\ sent m e = [] \/
     exists d argv, e = EvFeed d argv /\ repl_backlog m <> None /\
    m_slaves m' = (fun s => feed_slave (command_bytes argv) (slave_append (selection m d) s)) <$> m_slaves m).
Proof using Type.
  intros Hm He.
  assert (forall m', at_log m' log -> (forall s, s ∈ m_slaves m' -> s ∈ m_slaves m) ->
    (repl_backlog m = None -> repl_backlog m' = None) -> sent m e = [] ->
    exists m'', Some m' = Some m'' /\ at_log m'' (log ++ gap m m'' ++ sent m e) /\ (slaves_from (event_client e) m m'' /\ sent m e = [] \/
     exists d argv, e = EvFeed d argv /\ repl_backlog m <> None /\
       m_slaves m'' = (fun s => feed_slave (command_bytes argv) (slave_append (selection m d) s)) <$> m_slaves m)) as Hkeep.
  { intros m' Hm' Hsl Hb Hs. exists m'. rewrite gap_none, Hs, app_nil_r by done. split_and!; auto using slaves_kept. }
  destruct e as [d argv|id r arg fork|id fork|n| |ok fork|id|id|]; simpl repl_step.
  - destruct (repl_backlog m) eqn:Hb.
    + destruct (replicationFeedSlaves_ok d argv m log Hm ltac:(congruence) He) as (m' & -> & Hm' & Hb' & Hsl & _).
      exists m'. rewrite gap_none by congruence. simpl sent. rewrite Hb. split_and!; [done..|]. right. by exists d, argv.
    + assert (m_slaves m = []) as Hsl by (destruct (m_slaves m) eqn:Hs; [done|]; exfalso; apply (al_slaves m log Hm); congruence).
      unfold replicationFeedSlaves. rewrite bool_decide_true by done. apply Hkeep; [done..|]. simpl. by rewrite Hb.
  - destruct (decide (id ∈ sl_id <$> m_slaves m)) as [Hid|Hid].
    { unfold psyncCommand. rewrite bool_decide_true by done. by apply Hkeep. }
    destruct (psync_cases id r arg fork m log Hm He Hid) as [(o & out & -> & Hb & _)|[-> _]].
    + eexists. split; [done|]. rewrite gap_none by done. cbn [sent app]. rewrite app_nil_r. split; [auto|]. left. split; [|done]. intros s Hs. cbn in Hs.
      apply elem_of_app in Hs as [Hs| ->%list_elem_of_singleton]; [left; exists s; split_and!; auto|by right].
    + destruct (full_resync_step id (Some (fullresync_offset m)) [] fork m log Hm) as (m' & ? & ? & ?).
      exists m'. cbn [sent]. rewrite app_nil_r. auto.
  - unfold syncCommand. case_bool_decide as Hid; [by apply Hkeep|].
    destruct (full_resync_step id None [] fork m log Hm) as (m' & ? & ? & ?).
    exists m'. cbn [sent]. rewrite app_nil_r. auto.
  - apply Hkeep; [by apply resize_ok| | |done]; unfold resizeReplicationBacklog; case_bool_decide; try done;
      destruct (repl_backlog m); cbn; done.
  - apply Hkeep; [auto|done..].
  - destruct (rdb_child m); [|by apply Hkeep]. eexists. split; [done|]. rewrite gap_none by done. cbn [sent app]. rewrite app_nil_r.
    unfold updateSlavesWaitingBgsave. split.
    + apply at_log_child, at_log_slaves; [done|]. intros Ho Hb. destruct (m_slaves m) eqn:Hs; [done|].
      apply (al_slaves m log Hm); congruence.
    + left. split; [|done]. intros s' (s & Hs & Hin)%list_elem_of_omap. left. exists s. split; [done|].
      destruct (sl_state s) eqn:Hst, ok; simplify_eq/=; rewrite ?Hst; split_and!; done.
  - eexists. split; [done|]. rewrite gap_none by done. cbn [sent app]. rewrite app_nil_r. split; [apply at_log_slaves; [done|]|].
    + intros Ho. apply (al_slaves m log Hm). eauto.
    + left. split; [|done]. intros s' (s & -> & Hs)%list_elem_of_fmap. left. exists s. split; [done|]. case_decide; cbn; done.
  - apply Hkeep; try done; unfold remove_slave.
    + apply at_log_slaves; [done|]. intros Ho. apply (al_slaves m log Hm). by intros Hs; rewrite Hs in Ho.
    + cbn. intros s Hs. by apply list_elem_of_filter in Hs as [_ Hs].
  - unfold cron_backlog. case_bool_decide as Hc; [|by apply Hkeep]. unfold freeReplicationBacklog.
    rewrite bool_decide_true by tauto. apply Hkeep; try done. destruct Hm. split; cbn; try done. intros Hsl. by destruct Hc.
Qed.

(** The log of a sequence of events. *)
Fixpoint stream (m : master) (es : list repl_event) : list (option Z) :=
  match es with
  | [] => []
  | e :: es => match step m e with Some m' => gap m m' ++ sent m e ++ stream m' es | None => [] end
  end.

Abbreviation run := (repl_run junk runid).

Lemma run_none es : foldl (fun m e => m ← m; step m e) None es = None.
Proof using Type. by induction es. Qed.

Lemma run_cons m e es : run m (e :: es) = (m' ← step m e; run m' es).
Proof using Type. unfold repl_run. simpl. destruct (step m e); simpl; [done|apply run_none]. Qed.

Lemma run_app m es1 es2 : run m (es1 ++ es2) = (m' ← run m es1; run m' es2).
Proof using Type. unfold repl_run. rewrite foldl_app. destruct (foldl _ _ es1); simpl; [done|apply run_none]. Qed.

Lemma stream_cons m e es m' : step m e = Some m' -> stream m (e :: es) = (gap m m' ++ sent m e) ++ stream m' es.
Proof using Type. intros Hs. simpl. by rewrite Hs, <- app_assoc. Qed.

Lemma stream_app m es1 es2 m1 : run m es1 = Some m1 -> stream m (es1 ++ es2) = stream m es1 ++ stream m1 es2.
Proof using Type.
  revert m. induction es1 as [|e es1 IH]; intros m; [by intros [= ->]|].
  rewrite run_cons. simpl. destruct (step m e) as [m'|]; [|done]. bind_rw. intros Hr. rewrite (IH m' Hr). by rewrite <- !app_assoc.
Qed.

Lemma repl_run_ok es m log : at_log m log -> Forall event_ok es ->
  exists m', run m es = Some m' /\ at_log m' (log ++ stream m es).
Proof using Type.
  intros Hm He. revert m log Hm. induction He as [|e es He _ IH]; intros m log Hm.
  { exists m. simpl. by rewrite app_nil_r. }
  destruct (repl_step_ok e m log Hm He) as (m1 & Hs & Hm1 & _). rewrite run_cons. simpl. rewrite Hs. bind_rw.
  destruct (IH m1 _ Hm1) as (m' & -> & Hm'). exists m'. split; [done|].
  rewrite <- !app_assoc in Hm'. done.
Qed.

(** The output of the slave is the log from the offset it was told. *)
Definition faithful (s : slave) (log : list (option Z)) : Prop :=
  exists o, sl_told s = Some o /\ 0 <= o <= zlen log /\ Some <$> sl_out s = drop (Z.to_nat o) log.

Definition follows (id : nat) (m : master) (log : list (option Z)) : Prop :=
  forall s, s ∈ m_slaves m -> sl_id s = id -> sl_state s <> WAIT_BGSAVE_START /\ faithful s log.

Definition not_from (id : nat) (e : repl_event) : Prop := event_client e <> Some id.
#[export] Instance not_from_dec id e : Decision (not_from id e).
Proof using Type. unfold not_from. apply _. Defined.

Lemma follows_step id e m m' log : at_log m log -> event_ok e -> not_from id e -> step m e = Some m' ->
  follows id m log -> follows id m' (log ++ gap m m' ++ sent m e).
Proof using Type.
  intros Hm He Hnot Hstep Hf. destruct (repl_step_ok e m log Hm He) as (m1 & Hs & Hm1 & Hsl). rewrite Hs in Hstep. simplify_eq.
  intros s' Hs' Hid. destruct Hsl as [[Hsl Hse]|(d & argv & -> & Hb & Hsl)].
  - destruct (Hsl s' Hs') as [(s & Hin & Hi & Ho & Ht & Hst)|He']; [|by rewrite Hid in He'].
    destruct (Hf s Hin ltac:(congruence)) as (Hns & o & Hto & Hr & Hout). split; [auto|]. exists o.
    rewrite (gap_slaves m m' log Hm) by (by intros Hnil; rewrite Hnil in Hin; apply not_elem_of_nil in Hin).
    rewrite Hse, app_nil_r. split_and!; [congruence|lia..|congruence].
  - rewrite Hsl in Hs'. apply list_elem_of_fmap in Hs' as (s & -> & Hin).
    assert (sl_id s = id) as Hids by (rewrite <- Hid; unfold feed_slave; by case_decide).
    destruct (Hf s Hin Hids) as (Hns & o & Hto & Hr & Hout).
    unfold feed_slave. rewrite decide_False by done. split; [done|]. exists o.
    assert (m_slaves m <> []) as Hne by (intros Hnil; by rewrite Hnil in Hin; apply not_elem_of_nil in Hin).
    rewrite (gap_slaves m m' log Hm Hne). cbn [app sl_told sl_out slave_append]. split_and!; [done|lia|rewrite length_app; lia|].
    simpl sent. destruct (repl_backlog m); [|done]. rewrite drop_app_le by lia. by rewrite <- Hout, <- app_assoc, <- !fmap_app.
Qed.

Lemma follows_run id es m m' log : at_log m log -> Forall event_ok es -> Forall (not_from id) es -> run m es = Some m' ->
  follows id m log -> follows id m' (log ++ stream m es).
Proof using Type.
  intros Hm He Hn. revert m log Hm Hn. induction He as [|e es He _ IH]; intros m log Hm Hn.
  { intros [= ->] Hf. simpl. by rewrite app_nil_r. }
  apply Forall_cons in Hn as [Hn Hns]. destruct (repl_step_ok e m log Hm He) as (m1 & Hs & Hm1 & _).
  rewrite run_cons. simpl. rewrite Hs. bind_rw. intros Hr Hf. rewrite (app_assoc (gap m m1)), (app_assoc log).
  apply (IH m1); [done..|]. by apply follows_step.
Qed.

(** The request is accepted: the client continues. *)
Definition accepted (m : master) (id : nat) (r arg : list Z) : Prop :=
  exists out m', masterTryPartialResynchronization runid id r arg m = Some (Continue_, out, m').

Lemma follows_join id r arg fork m m' log : at_log m log -> event_ok (EvPsync id r arg fork) -> id ∉ (sl_id <$> m_slaves m) ->
  rdb_child m = false \/ accepted m id r arg -> step m (EvPsync id r arg fork) = Some m' ->
  follows id m' (log ++ gap m m').
Proof using Type.
  intros Hm He Hid Hc. simpl.
  assert (forall s, s ∈ m_slaves m -> sl_id s <> id) as Hnew by (intros s Hs <-; apply Hid, list_elem_of_fmap; eauto).
  destruct (psync_cases id r arg fork m log Hm He Hid) as [(o & out & -> & Hb & Hout)|[-> Hno]].
  - intros [= <-]. rewrite gap_none, app_nil_r by done. intros s Hs Hids. cbn in Hs.
    apply elem_of_app in Hs as [Hs| ->%list_elem_of_singleton]; [by apply Hnew in Hs|]. split; [done|]. by exists o.
  - destruct Hc as [Hc|(out & m2 & Hacc)]; [|by apply Hno in Hacc].
    destruct (full_resync_ok id (Some (fullresync_offset m)) [] fork m log Hm) as (m2 & -> & Hm2 & Hsl). intros [= <-] s Hs Hids.
    destruct Hsl as [[-> _]|(s0 & Hsl & _ & Hs0 & Htold & Hb & Hout)]; [by apply Hnew in Hs|]. rewrite Hsl in Hs.
    apply elem_of_app in Hs as [Hs| ->%list_elem_of_singleton]; [by apply Hnew in Hs|].
    destruct (Hout Hc) as [Ho Hst]. rewrite Hst. split; [done|]. exists (fullresync_offset m). split; [done|]. rewrite Ho.
    pose proof (al_offset m log Hm). unfold fullresync_offset, gap. destruct (repl_backlog m).
    + rewrite bool_decide_false, app_nil_r by (by intros [? _]). split; [lia|]. by rewrite drop_ge by lia.
    + rewrite bool_decide_true, length_app by done. split; [simpl; lia|]. rewrite drop_ge; [done|]. rewrite length_app. simpl. lia.
Qed.

(** ** Progress of the slaves that wait *)

Definition waiting (s : slave) : Prop := sl_state s = WAIT_BGSAVE_START \/ sl_state s = WAIT_BGSAVE_END.
Definition child_runs (m : master) : Prop := forall s, s ∈ m_slaves m -> waiting s -> rdb_child m = true.

Definition fork_succeeds (e : repl_event) : Prop :=
  match e with EvPsync _ _ _ f | EvSync _ f | EvBgsaveDone _ f => f = true | _ => True end.

Lemma child_runs_step e m m' log : at_log m log -> event_ok e -> fork_succeeds e -> step m e = Some m' ->
  child_runs m -> child_runs m'.
Proof using Type.
  intros Hm He Hfork Hstep Hc.
  assert (forall told id fork out, fork = true -> full_resync junk id told out fork m = Some m' -> child_runs m') as Hfull.
  { intros told id fork out -> Hf. destruct (full_resync_ok id told out true m log Hm) as (m2 & Hf' & _ & Hsl).
    rewrite Hf in Hf'. simplify_eq. destruct Hsl as [[_ ?]|(s & _ & Hch & _)]; [done|]. intros ? ? _. done. }
  destruct e as [d argv|id r arg fork|id fork|n| |ok fork|id|id|]; simpl in Hstep, Hfork.
  - destruct (repl_backlog m) eqn:Hb.
    + destruct (replicationFeedSlaves_ok d argv m log Hm ltac:(congruence) He) as (m1 & Hf & _ & _ & Hsl & Hch).
      rewrite Hf in Hstep. simplify_eq. intros s Hs. rewrite Hsl in Hs. apply list_elem_of_fmap in Hs as (s0 & -> & Hs).
      rewrite Hch. intros Hw. apply (Hc s0 Hs). unfold feed_slave, waiting in *. by case_decide.
    + unfold replicationFeedSlaves in Hstep. rewrite bool_decide_true in Hstep by
        (destruct (m_slaves m) eqn:Hs; [done|]; exfalso; apply (al_slaves m log Hm); congruence). by simplify_eq.
  - destruct (decide (id ∈ sl_id <$> m_slaves m)) as [Hid|Hid].
    { unfold psyncCommand in Hstep. rewrite bool_decide_true in Hstep by done. by simplify_eq. }
    destruct (psync_cases id r arg fork m log Hm He Hid) as [(o & out & Hp & _)|[Hp _]]; rewrite Hp in Hstep; [|by eapply Hfull].
    simplify_eq. intros s Hs Hw. cbn in *. apply elem_of_app in Hs as [Hs| ->%list_elem_of_singleton]; [by eapply Hc|].
    by destruct Hw.
  - unfold syncCommand in Hstep. case_bool_decide; [by simplify_eq|]. by eapply Hfull.
  - simplify_eq. unfold resizeReplicationBacklog. case_bool_decide; [done|]. by destruct (repl_backlog m).
  - simplify_eq. by intros s _ _.
  - destruct (rdb_child m); [|by simplify_eq]. simplify_eq. unfold updateSlavesWaitingBgsave. rewrite andb_true_r.
    intros s' Hs' Hw. cbn in *. apply list_elem_of_omap in Hs' as (s & Hs & Hin). apply bool_decide_true, Exists_exists.
    exists s. split; [done|]. destruct (sl_state s) eqn:Hst, ok; simplify_eq/=; try done; destruct Hw; simpl in *; congruence.
  - simplify_eq. intros s' Hs' Hw. cbn in *. apply list_elem_of_fmap in Hs' as (s & -> & Hs). apply (Hc s Hs).
    unfold waiting in *. by case_decide; [destruct Hw|].
  - simplify_eq. intros s Hs Hw. cbn in *. apply list_elem_of_filter in Hs as [_ Hs]. by eapply Hc.
  - unfold cron_backlog, freeReplicationBacklog in Hstep. repeat case_bool_decide; simplify_eq; try done; intros s Hs Hw; by apply (Hc s).
Qed.

Lemma child_runs_run es m m' log : at_log m log -> Forall event_ok es -> Forall fork_succeeds es -> run m es = Some m' ->
  child_runs m -> child_runs m'.
Proof using Type.
  intros Hm He Hf. revert m log Hm Hf. induction He as [|e es He _ IH]; intros m log Hm Hf; [by intros [= ->]|].
  apply Forall_cons in Hf as [Hf Hfs]. destruct (repl_step_ok e m log Hm He) as (m1 & Hs & Hm1 & _).
  rewrite run_cons, Hs. bind_rw. intros Hr Hc. apply (IH m1 _ Hm1); [done..|]. by apply (child_runs_step e m m1 log).
Qed.

(** One end of a child brings a slave that waits for one to the transfer, two
    a slave that waits for the next. *)
Lemma bgsave_advances m s : s ∈ m_slaves m -> rdb_child m = true -> exists m',
  step m (EvBgsaveDone true true) = Some m' /\
  match sl_state s with
  | WAIT_BGSAVE_START => slave_state WAIT_BGSAVE_END s ∈ m_slaves m' /\ rdb_child m' = true
  | WAIT_BGSAVE_END => slave_state SEND_BULK s ∈ m_slaves m'
  | _ => s ∈ m_slaves m'
  end.
Proof using Type.
  intros Hs Hc. simpl. rewrite Hc. eexists. split; [done|]. unfold updateSlavesWaitingBgsave. cbn.
  destruct (sl_state s) eqn:Hst; [split|..];
    try (apply list_elem_of_omap; exists s; rewrite Hst; done).
  rewrite andb_true_r. apply bool_decide_true, Exists_exists. by exists s.
Qed.

Lemma bulk_ends m s : s ∈ m_slaves m -> sl_state s = SEND_BULK -> exists m',
  step m (EvBulkSent (sl_id s)) = Some m' /\ slave_state ONLINE s ∈ m_slaves m'.
Proof using Type.
  intros Hs Hst. eexists. split; [done|]. cbn. apply list_elem_of_fmap. exists s. by rewrite decide_True.
Qed.
End Stream.

(** The server at its start. *)
Definition fresh_master (size : Z) : master := Master None size 0 0 0 0 (-1) [] false.

Lemma fresh_at_log size : 0 < size -> at_log (fresh_master size) [].
Proof. by split. Qed.

(** C39: after any sequence of events, a slave that asks for the stream, and
    that continues or finds no child at work, has been sent exactly the log
    from the offset it was told, whatever happens until it leaves; the buffer
    is circular, of any size, and no assertion fails.  What the slave had
    before, and what it is sent, make the whole stream. *)
Theorem psync_follows_stream junk runid size es1 id r arg fork es2 m1 :
  0 < size -> Forall event_ok (es1 ++ EvPsync id r arg fork :: es2) -> Forall (not_from id) es2 ->
  repl_run junk runid (fresh_master size) es1 = Some m1 ->
  id ∉ (sl_id <$> m_slaves m1) -> rdb_child m1 = false \/ accepted runid m1 id r arg ->
  exists m2, repl_run junk runid (fresh_master size) (es1 ++ EvPsync id r arg fork :: es2) = Some m2 /\
    let log := stream junk runid (fresh_master size) (es1 ++ EvPsync id r arg fork :: es2) in
    master_repl_offset m2 = zlen log /\
    forall s, s ∈ m_slaves m2 -> sl_id s = id ->
      exists o, sl_told s = Some o /\ 0 <= o <= zlen log /\ Some <$> sl_out s = drop (Z.to_nat o) log.
Proof.
  intros Hsize He Hnot Hr1 Hid Hc. apply Forall_app in He as [He1 He2]. apply Forall_cons in He2 as [He He2].
  destruct (repl_run_ok junk runid es1 _ [] (fresh_at_log size Hsize) He1) as (m1' & Hr & Hm1). rewrite Hr1 in Hr. simplify_eq.
  set (e := EvPsync id r arg fork) in *. destruct (repl_step_ok junk runid e m1' _ Hm1 He) as (m & Hs & Hm & _).
  destruct (repl_run_ok junk runid es2 m _ Hm He2) as (m2 & Hr2 & Hm2).
  exists m2. rewrite run_app, Hr1. bind_rw. rewrite run_cons, Hs. bind_rw. split; [done|].
  rewrite (stream_app junk runid _ es1 _ m1'), (stream_cons junk runid _ _ _ m), app_assoc by done.
  split; [apply (al_offset _ _ Hm2)|].
  intros s Hin Hids. apply (follows_run junk runid id es2 m m2 _ Hm He2 Hnot Hr2); [|done..].
  cbn [sent e app]. rewrite app_nil_r. by eapply follows_join.
Qed.

(** C40: as long as no child fails to start, a slave that waits has a child at
    work, and the ends of at most two children and of its transfer make it
    online, with nothing of its output lost. *)
Theorem waiting_slave_completes junk runid size es m s :
  0 < size -> Forall event_ok es -> Forall fork_succeeds es ->
  repl_run junk runid (fresh_master size) es = Some m -> s ∈ m_slaves m -> waiting s ->
  rdb_child m = true /\ exists es' m', (length es' <= 3)%nat /\
    Forall (fun e => e = EvBgsaveDone true true \/ e = EvBulkSent (sl_id s)) es' /\
    repl_run junk runid m es' = Some m' /\ slave_state ONLINE s ∈ m_slaves m'.
Proof.
  intros Hsize He Hf Hr Hs Hw.
  assert (rdb_child m = true) as Hc.
  { apply (child_runs_run junk runid es _ m [] (fresh_at_log size Hsize) He Hf Hr) with s; [|done..].
    intros s' Hs'. by apply not_elem_of_nil in Hs'. }
  assert (forall m s, s ∈ m_slaves m -> rdb_child m = true -> sl_state s = WAIT_BGSAVE_END -> exists m',
    repl_run junk runid m [EvBgsaveDone true true; EvBulkSent (sl_id s)] = Some m' /\ slave_state ONLINE s ∈ m_slaves m') as Hend.
  { clear. intros m s Hs Hc Hst. destruct (bgsave_advances junk runid m s Hs Hc) as (m1 & Hd & Hs1). rewrite Hst in Hs1.
    destruct (bulk_ends junk runid m1 _ Hs1 eq_refl) as (m2 & Hb & Hs2). exists m2. split; [|done].
    rewrite run_cons, Hd. bind_rw. rewrite run_cons.
    change (sl_id s) with (sl_id (slave_state SEND_BULK s)). by rewrite Hb. }
  split; [done|]. destruct Hw as [Hst|Hst].
  - destruct (bgsave_advances junk runid m s Hs Hc) as (m1 & Hd & Hs1). rewrite Hst in Hs1. destruct Hs1 as [Hs1 Hc1].
    destruct (Hend m1 _ Hs1 Hc1 eq_refl) as (m2 & Hr2 & Hs2). eexists (_ :: _), m2. split_and!; [|..|done]; [| |rewrite run_cons, Hd; exact Hr2].
    + done.
    + rewrite !Forall_cons. auto.
  - destruct (Hend m s Hs Hc Hst) as (m2 & Hr2 & Hs2). eexists _, m2. split_and!; [|..|done]; [| |exact Hr2].
    + simpl. lia.
    + rewrite !Forall_cons. auto.
Qed.

(** A server whose backlog has 40 bytes; a slave synchronises, another one
    asks for the end of the stream while the first is sent its file. *)
Definition no_junk (_ : nat) : Z := 0.
Definition ping : repl_event := EvFeed 0 [Raw [80; 73; 78; 71]].
Definition before_psync : list repl_event := [EvSync 1 true; ping; ping; EvBgsaveDone true true; EvFeed 3 [Raw [88]; IntObj (-5)]].
Definition after_psync : list repl_event := [ping; EvBulkSent 1; EvSync 3 true; EvDisconnect 1; EvResize 20000; ping].

Lemma psync_follows_stream_witness : exists m1,
  repl_run no_junk [97] (fresh_master 40) before_psync = Some m1 /\ exists m2,
  repl_run no_junk [97] (fresh_master 40) (before_psync ++ EvPsync 2 [65] [57; 48] true :: after_psync) = Some m2 /\
    let log := stream no_junk [97] (fresh_master 40) (before_psync ++ EvPsync 2 [65] [57; 48] true :: after_psync) in
    master_repl_offset m2 = zlen log /\
    forall s, s ∈ m_slaves m2 -> sl_id s = 2%nat ->
      exists o, sl_told s = Some o /\ 0 <= o <= zlen log /\ Some <$> sl_out s = drop (Z.to_nat o) log.
Proof.
  eexists. split; [vm_compute; reflexivity|]. eapply (psync_follows_stream no_junk [97] 40 before_psync 2 [65] [57; 48] true after_psync).
  - done.
  - apply (bool_decide_unpack _). vm_compute. exact I.
  - apply (bool_decide_unpack _). vm_compute. exact I.
  - vm_compute. reflexivity.
  - apply (bool_decide_unpack _). vm_compute. exact I.
  - right. eexists _, _. vm_compute. reflexivity.
Defined.

Lemma waiting_slave_completes_witness : exists m,
  repl_run no_junk [97] (fresh_master 40) [EvBgsave; EvSync 1 true; ping] = Some m /\
  exists s, s ∈ m_slaves m /\ rdb_child m = true /\ exists es' m', (length es' <= 3)%nat /\
    Forall (fun e => e = EvBgsaveDone true true \/ e = EvBulkSent (sl_id s)) es' /\
    repl_run no_junk [97] m es' = Some m' /\ slave_state ONLINE s ∈ m_slaves m'.
Proof.
  eexists. split; [vm_compute; reflexivity|]. eexists. split; [apply list_elem_of_here|].
  eapply (waiting_slave_completes no_junk [97] 40 [EvBgsave; EvSync 1 true; ping]).
  - done.
  - apply (bool_decide_unpack _). vm_compute. exact I.
  - repeat constructor.
  - vm_compute. reflexivity.
  - apply list_elem_of_here.
  - by left.
Defined.

(** ** Where a slave does not get what it was told *)

(** While a child is at work, a slave is told the present offset, but is sent
    the changes since the child has started: it will believe that it is
    further in the stream than it is. *)
Lemma fullresync_offset_early : exists m s o,
  repl_run no_junk [97] (fresh_master 40) [EvSync 1 true; ping; EvPsync 2 [63] [45; 49] true] = Some m /\
  s ∈ m_slaves m /\ sl_id s = 2%nat /\ sl_told s = Some o /\ o = master_repl_offset m /\ zlen (sl_out s) = 37.
Proof.
  eexists _, _, _. split; [vm_compute; reflexivity|]. split; [apply list_elem_of_further, list_elem_of_here|]. done.
Qed.

(** When the child for the slaves that wait cannot be started, they are kept,
    in the state of those that a child serves; none does. *)
Lemma failed_fork_strands_slave : exists m s,
  repl_run no_junk [97] (fresh_master 40) [EvBgsave; EvSync 1 true; EvBgsaveDone true false] = Some m /\
  s ∈ m_slaves m /\ waiting s /\ rdb_child m = false.
Proof.
  eexists _, _. split; [vm_compute; reflexivity|]. split; [apply list_elem_of_here|]. split; [by right|done].
Qed.
