(* ===== verification/SetType.v ===== *)
(** * Sets ([t_set.c], the type)

    A set of strings is an intset as long as its members are decimal notations
    of integers and few enough, and a hash table otherwise.  The keys of this
    hash table are string objects, hashed and compared by the bytes they stand
    for whatever their encoding: an entry of the model has these bytes as its
    key, and the object as its value. *)
From S2P Require Import Prelude Util Intset Dict DictIter Sds Server.

Inductive setobj := IntsetSet (s : intset) | HtSet (d : dict (list Z) robj).

(** What [setTypeNext] returns. *)
Inductive set_element := EleInt (v : Z) | EleObj (o : robj).

Definition REDIS_HT_MINFILL := 10.

Definition isObjectRepresentableAsLongLong (o : robj) : option (option Z) :=
  match o with IntObj v => Some (Some v) | Raw s => Some (string2ll s) | Other _ _ => None end.

Definition htNeedsResize {K V} (d : dict K V) : bool :=
  let size := dictSlots d in
  let used := dictSize d in
  bool_decide (size <> 0 /\ used <> 0 /\ size > DICT_HT_INITIAL_SIZE /\ used * 100 `quot` size < REDIS_HT_MINFILL).

(** [setTypeNextObject], on what [setTypeNext] has returned. *)
Definition element_object (e : set_element) : robj :=
  match e with EleInt v => createStringObjectFromLongLong v | EleObj o => o end.

Section SetType.
(** The seed of the hash function, [dict_can_resize], uninitialised memory,
    [server.set_max_intset_entries]. *)
Context (seed : Z) (can_resize : bool) (junk : nat -> Z) (junk_obj : robj) (max_intset_entries : Z).

#[local] Instance setDictType : DictType (list Z) := sds_dictType seed.

Definition set_dictAdd (d : dict (list Z) robj) (o : robj) : option (dict (list Z) robj * bool) :=
  k ← getDecodedObject o; dictAdd can_resize junk_obj d k o.

Definition setTypeCreate (value : robj) : option setobj :=
  r ← isObjectRepresentableAsLongLong value;
  Some (match r with Some _ => IntsetSet intsetNew | None => HtSet dictCreate end).

(** The elements, in the order of an iteration. *)
Definition set_iterate (so : setobj) : option (list set_element) :=
  match so with
  | IntsetSet s =>
      loop (S (Z.to_nat (intsetLen s)))
        (fun '(ii, acc) => match intsetGet s ii with Some v => Continue (ii + 1, acc ++ [EleInt v]) | None => Break acc end) (0, [])
  | HtSet d => es ← dict_iterate d; Some (map (fun e => EleObj (val e)) es)
  end.

Fixpoint convert_loop (es : list set_element) (d : dict (list Z) robj) : option (dict (list Z) robj) :=
  match es with
  | [] => Some d
  | e :: es => '(d, ok) ← set_dictAdd d (element_object e); if (ok : bool) then convert_loop es d else None
  end.

(** The only conversion: to a hash table. *)
Definition setTypeConvert (so : setobj) : option setobj :=
  match so with
  | IntsetSet s =>
      '(d, _) ← dictExpand dictCreate (intsetLen s);
      es ← set_iterate so;
      d ← convert_loop es d; Some (HtSet d)
  | HtSet _ => None
  end.

Definition setTypeAdd (subject : setobj) (value : robj) : option (setobj * bool) :=
  match subject with
  | HtSet d => '(d, ok) ← set_dictAdd d value; Some (HtSet d, ok)
  | IntsetSet s =>
      r ← isObjectRepresentableAsLongLong value;
      match r with
      | Some llval =>
          '(s, success) ← intsetAdd junk s llval;
          if (success : bool) then
            if bool_decide (intsetLen s > max_intset_entries)
            then so ← setTypeConvert (IntsetSet s); Some (so, true)
            else Some (IntsetSet s, true)
          else Some (IntsetSet s, false)
      | None =>
          so ← setTypeConvert subject;
          match so with
          | HtSet d => '(d, ok) ← set_dictAdd d value; if (ok : bool) then Some (HtSet d, true) else None
          | IntsetSet _ => None
          end
      end
  end.

Definition setTypeRemove (so : setobj) (value : robj) : option (setobj * bool) :=
  match so with
  | HtSet d =>
      k ← getDecodedObject value;
      '(d, ok) ← dictGenericDelete d k;
      if (ok : bool) then
        d ← (if htNeedsResize d then '(d, _) ← dictResize can_resize d; Some d else Some d);
        Some (HtSet d, true)
      else Some (HtSet d, false)
  | IntsetSet s =>
      r ← isObjectRepresentableAsLongLong value;
      match r with
      | Some llval => '(s, success) ← intsetRemove junk s llval; Some (IntsetSet s, success)
      | None => Some (so, false)
      end
  end.

(** A search in a hash table may rehash it. *)
Definition setTypeIsMember (so : setobj) (value : robj) : option (setobj * bool) :=
  match so with
  | HtSet d =>
      k ← getDecodedObject value;
      '(d, r) ← dictFind d k; Some (HtSet d, bool_decide (is_Some r))
  | IntsetSet s =>
      r ← isObjectRepresentableAsLongLong value;
      match r with
      | Some llval => b ← intsetFind s llval; Some (so, b)
      | None => Some (so, false)
      end
  end.

Definition setTypeSize (so : setobj) : Z :=
  match so with HtSet d => dictSize d | IntsetSet s => intsetLen s end.
End SetType.
