(* ===== verification/SetSpecs.v ===== *)
(** * Sets refine sets of strings

    [set_repr] relates a set object, in either encoding, to a finite set of
    strings.  The invariant says which sets may be intsets: decimal notations,
    at most [set_max_intset_entries] of them. *)
#[local] Set Warnings "-clear-no-such-hyp".
From S2P Require Import Prelude Util Intset Dict DictIter Sds Server SetType.

(** ** Objects and the strings they stand for *)

Definition stands_for (o : robj) (k : list Z) : Prop :=
  match o with Raw s => k = s | IntObj v => srange 64 v /\ decimal v k | Other _ _ => False end.

Lemma decimal_inj v w s : srange 64 v -> srange 64 w -> decimal v s -> decimal w s -> v = w.
Proof.
  intros Hv Hw Dv Dw. assert (string2ll s = Some v) as E by by apply string2ll_decimal.
  assert (string2ll s = Some w) as E' by by apply string2ll_decimal. congruence.
Qed.

Lemma stands_decoded o k : stands_for o k -> getDecodedObject o = Some k.
Proof. destruct o as [s|v|]; simpl; [by intros ->| |done]. intros [? ?]. by apply ll2string_decimal. Qed.

Lemma stands_unique o k k' : stands_for o k -> stands_for o k' -> k = k'.
Proof. intros H%stands_decoded H'%stands_decoded. congruence. Qed.

Lemma stands_representable o k : stands_for o k -> isObjectRepresentableAsLongLong o = Some (string2ll k).
Proof.
  destruct o as [s|v|]; simpl; [by intros ->| |done]. intros [Hv Hd]. f_equal. symmetry. by apply string2ll_decimal.
Qed.

(** The notation of an integer. *)
Definition notation (v : Z) : list Z := default [] (ll2string 32 v).

Lemma notation_decimal v : srange 64 v -> decimal v (notation v).
Proof. intros Hv. unfold notation. destruct (decimal_exists v) as [s Hs]. by rewrite (ll2string_decimal 32 v s). Qed.

Lemma notation_stands v : srange 64 v -> stands_for (IntObj v) (notation v).
Proof. intros Hv. split; [done|]. by apply notation_decimal. Qed.

Lemma notation_inj v w : srange 64 v -> srange 64 w -> notation v = notation w -> v = w.
Proof.
  intros Hv Hw E. apply (decimal_inj v w (notation v)); [done..|by apply notation_decimal|]. rewrite E. by apply notation_decimal.
Qed.

Lemma notation_string2ll k v : string2ll k = Some v <-> srange 64 v /\ k = notation v.
Proof.
  rewrite string2ll_decimal. split; intros [Hv Hd]; (split; [done|]).
  - unfold notation. by rewrite (ll2string_decimal 32 v k).
  - subst. by apply notation_decimal.
Qed.

Lemma encoded_stands x : stands_for (tryObjectEncoding x) x.
Proof.
  unfold tryObjectEncoding. case_bool_decide; [done|]. destruct (string2l x) as [m|] eqn:Hn; [|done].
  unfold string2l in Hn. destruct (string2ll x) as [m'|] eqn:Hm; simpl in Hn; [|done].
  case_bool_decide; simplify_eq. by apply string2ll_decimal in Hm.
Qed.

(** The strings of the elements that an iteration yields. *)
Definition element_stands (e : set_element) (k : list Z) : Prop := stands_for (element_object e) k.

Section Spec.
Context (seed : Z) (can_resize : bool) (junk : nat -> Z) (junk_obj : robj) (max_intset_entries : Z).
Context (Hmax : 0 <= max_intset_entries < max_elements).
#[local] Existing Instance setDictType.
Abbreviation sdict := (dict (list Z) robj).

Abbreviation set_dictAdd := (set_dictAdd seed can_resize junk_obj).
Abbreviation set_iterate := set_iterate.
Abbreviation setTypeConvert := (setTypeConvert seed can_resize junk_obj).
Abbreviation setTypeAdd := (setTypeAdd seed can_resize junk junk_obj max_intset_entries).
Abbreviation setTypeRemove := (setTypeRemove seed can_resize junk).
Abbreviation setTypeIsMember := (setTypeIsMember seed).

(** ** Hash tables *)

Record ht_map (d : sdict) (m : gmap (list Z) robj) : Prop := {
  hm_repr : @dict_repr _ _ _ (setDictType seed) _ d m;
  hm_small : small_tables d;
  hm_objects : forall k o, m !! k = Some o -> stands_for o k }.

Definition ht_repr (d : sdict) (X : gset (list Z)) : Prop := exists m, ht_map d m /\ dom m = X.

Lemma set_dictAdd_spec d X o k : ht_repr d X -> stands_for o k -> Z.of_nat (base.size X) <= max_elements ->
  exists d', set_dictAdd d o = Some (d', bool_decide (k ∉ X)) /\ ht_repr d' ({[k]} ∪ X).
Proof.
  intros (m & [Hr Hs Ho] & <-) Hk Hm. rewrite size_dom in Hm. unfold SetType.set_dictAdd. rewrite (stands_decoded o k Hk). bind_simpl.
  destruct (dictAdd_spec can_resize junk_obj d m k o Hr) as (d' & Ha & Hr'); [unfold max_elements, max_used in *; lia|].
  rewrite Ha. assert (absent m k = bool_decide (k ∉ dom m)) as Habs.
  { unfold absent. apply bool_decide_ext. by rewrite not_elem_of_dom. }
  rewrite <- Habs. exists d'. split; [done|].
  exists (if absent m k then <[k := o]> m else m). split.
  - split; [done|eapply dictAdd_small; [exact Hr|exact Hm|exact Ha|exact Hs]|]. intros k' o'. destruct (absent m k); [|apply Ho].
    destruct (decide (k = k')) as [<-|]; [by rewrite lookup_insert_eq; intros [= <-]|]. rewrite lookup_insert_ne by done. apply Ho.
  - rewrite Habs. case_bool_decide as Hin; [by rewrite dom_insert_L|].
    apply set_eq. intros x. rewrite elem_of_union, elem_of_singleton. split; [auto|]. by intros [->|].
Qed.

Lemma ht_find_spec d X k : ht_repr d X -> exists d' r,
  dictFind (H := setDictType seed) d k = Some (d', r) /\ bool_decide (is_Some r) = bool_decide (k ∈ X) /\ ht_repr d' X.
Proof.
  intros (m & [Hr Hs Ho] & <-). destruct (dictFind_spec d m k Hr) as (d' & r & Hf & Hr' & _ & Hres). exists d', r.
  split; [done|]. split.
  - destruct r as [[p e]|].
    + destruct Hres as (_ & Hl & _). rewrite !bool_decide_true; [done| |by eexists]. by eapply elem_of_dom_2.
    + rewrite !bool_decide_false; [done| |by intros [? ?]]. by apply not_elem_of_dom.
  - exists m. split; [|done]. split; [done|eapply dictFind_small; [exact Hf|exact Hs]|done].
Qed.

Lemma ht_delete_spec d X k : ht_repr d X -> exists d',
  dictGenericDelete (H := setDictType seed) d k = Some (d', bool_decide (k ∈ X)) /\ ht_repr d' (X ∖ {[k]}).
Proof.
  intros (m & [Hr Hs Ho] & <-). destruct (dictDelete_spec d m k Hr) as (d' & Hd & Hr').
  assert (negb (absent m k) = bool_decide (k ∈ dom m)) as Habs.
  { unfold absent. rewrite <- bool_decide_not. apply bool_decide_ext. rewrite elem_of_dom. destruct (m !! k); split; [by eexists|done..|by intros [? ?]]. }
  rewrite Habs in Hd. exists d'. split; [done|]. exists (delete k m). split; [|by rewrite dom_delete_L].
  split; [done|eapply dictDelete_small; [exact Hd|exact Hs]|]. intros k' o' [_ Hl]%lookup_delete_Some. by apply Ho.
Qed.

Lemma ht_resize_spec d X : ht_repr d X -> Z.of_nat (base.size X) <= max_elements -> exists d' ok,
  dictResize can_resize d = Some (d', ok) /\ ht_repr d' X.
Proof.
  intros (m & [Hr Hs Ho] & <-) Hm. rewrite size_dom in Hm.
  destruct (dictResize_keeps can_resize d m Hr) as (d' & ok & Hd & Hr'); [unfold max_elements, max_used in *; lia|].
  exists d', ok. split; [done|]. exists m. split; [|done]. split; [done| |done].
  eapply dictResize_small; [exact Hr|exact Hm|exact Hd|exact Hs].
Qed.

Lemma ht_size d X : ht_repr d X -> dictSize d = Z.of_nat (base.size X).
Proof. intros (m & [Hr _ _] & <-). rewrite size_dom. by apply (dictSize_map (H := setDictType seed)). Qed.

Lemma ht_create : ht_repr dictCreate ∅.
Proof. exists ∅. split; [|by rewrite dom_empty_L]. split; [apply (dictCreate_repr (H := setDictType seed))|apply dictCreate_small|done]. Qed.

(** ** Intsets *)

Definition notations (xs : list Z) : gset (list Z) := list_to_set (notation <$> xs).

Record is_map (s : intset) (xs : list Z) : Prop := {
  im_repr : intset_repr s xs;
  im_range : Forall (srange 64) xs }.

Lemma elem_notations xs k : Forall (srange 64) xs ->
  k ∈ notations xs <-> match string2ll k with Some v => v ∈ xs | None => False end.
Proof.
  intros Hx. unfold notations. rewrite elem_of_list_to_set, list_elem_of_fmap. rewrite Forall_forall in Hx. split.
  - intros (v & -> & Hv). assert (string2ll (notation v) = Some v) as -> by (apply notation_string2ll; auto). done.
  - destruct (string2ll k) as [v|] eqn:Hk; [|done]. intros Hv. apply notation_string2ll in Hk as [_ ->]. eauto.
Qed.

Lemma increasing_nodup xs : increasing xs -> NoDup xs.
Proof.
  induction 1 as [|x xs Hs IH Hx]; constructor; [|done]. intros Hin. rewrite Forall_forall in Hx. specialize (Hx x Hin). lia.
Qed.

Lemma notations_nodup xs : NoDup xs -> Forall (srange 64) xs -> NoDup (notation <$> xs).
Proof.
  intros Hn Hx. apply NoDup_fmap_2_strong; [|done]. rewrite Forall_forall in Hx. intros v w Hv Hw. apply notation_inj; auto.
Qed.

Lemma notations_size s xs : is_map s xs -> base.size (notations xs) = length xs.
Proof.
  intros [Hr Hx]. unfold notations. rewrite size_list_to_set, length_fmap; [done|].
  apply notations_nodup; [|done]. apply increasing_nodup, Hr.
Qed.

Lemma is_map_len s xs : is_map s xs -> intsetLen s = zlen xs.
Proof. intros [Hr _]. apply Hr. Qed.

Lemma max_elements_length n : n <= max_elements -> n <= max_length.
Proof. unfold max_elements, max_length. lia. Qed.

Lemma is_add_spec s xs v : is_map s xs -> zlen xs <= max_elements -> srange 64 v -> exists s' xs',
  intsetAdd junk s v = Some (s', bool_decide (notation v ∉ notations xs)) /\ is_map s' xs' /\
  notations xs' = {[notation v]} ∪ notations xs /\
  zlen xs' = zlen xs + (if bool_decide (notation v ∉ notations xs) then 1 else 0).
Proof.
  intros Hm Hl Hv. pose proof Hm as [Hr Hx].
  destruct (intsetAdd_spec junk s xs v Hr (max_elements_length _ Hl) Hv) as (s' & xs' & ok & Ha & Hr' & Hmem & Hok & Hlen & _).
  assert (Forall (srange 64) xs') as Hx'.
  { apply Forall_forall. rewrite Forall_forall in Hx. intros x Hin. rewrite <- elem_members, Hmem, elem_of_union in Hin.
    destruct Hin as [->%elem_of_singleton|Hin%elem_members]; auto. }
  assert (is_map s' xs') as Hm' by done.
  assert (string2ll (notation v) = Some v) as Hsv by by apply notation_string2ll.
  assert (ok = bool_decide (notation v ∉ notations xs)) as ->.
  { rewrite Hok. apply bool_decide_ext. by rewrite elem_notations, Hsv, elem_members by done. }
  exists s', xs'. split_and!; [done|done| |].
  - apply set_eq. intros k. rewrite elem_of_union, elem_of_singleton, !elem_notations by done.
    destruct (string2ll k) as [w|] eqn:Hw.
    + rewrite <- !elem_members, Hmem, elem_of_union, elem_of_singleton. apply notation_string2ll in Hw as [Hwr ->].
      split; intros [E|?]; auto; left; [by subst|by apply notation_inj].
    + split; [done|]. intros [->|[]]. congruence.
  - by rewrite !(is_map_len _ _ Hm), (is_map_len _ _ Hm') in Hlen.
Qed.

Lemma is_remove_spec s xs v : is_map s xs -> zlen xs <= max_elements -> srange 64 v -> exists s' xs',
  intsetRemove junk s v = Some (s', bool_decide (notation v ∈ notations xs)) /\ is_map s' xs' /\
  notations xs' = notations xs ∖ {[notation v]} /\ zlen xs' <= zlen xs.
Proof.
  intros Hm Hl Hv. pose proof Hm as [Hr Hx].
  destruct (intsetRemove_spec junk s xs v Hr (max_elements_length _ Hl) Hv) as (s' & xs' & ok & Ha & Hr' & Hmem & Hok & Hlen & _).
  assert (Forall (srange 64) xs') as Hx'.
  { apply Forall_forall. rewrite Forall_forall in Hx. intros x Hin. rewrite <- elem_members, Hmem, elem_of_difference in Hin.
    destruct Hin as [Hin%elem_members _]; auto. }
  assert (is_map s' xs') as Hm' by done.
  assert (string2ll (notation v) = Some v) as Hsv by by apply notation_string2ll.
  assert (ok = bool_decide (notation v ∈ notations xs)) as ->.
  { rewrite Hok. apply bool_decide_ext. by rewrite elem_notations, Hsv, elem_members by done. }
  exists s', xs'. split_and!; [done|done| |].
  - apply set_eq. intros k. rewrite elem_of_difference, elem_of_singleton, !elem_notations by done.
    destruct (string2ll k) as [w|] eqn:Hw.
    + rewrite <- !elem_members, Hmem, elem_of_difference, elem_of_singleton. apply notation_string2ll in Hw as [Hwr ->].
      split; intros [? Hne]; (split; [done|]); intros E; apply Hne; [by apply notation_inj|by subst].
    + split; [done|]. by intros [[] _].
  - rewrite !(is_map_len _ _ Hm), (is_map_len _ _ Hm') in Hlen. case_bool_decide; lia.
Qed.

Lemma is_find_spec s xs v : is_map s xs -> srange 64 v -> intsetFind s v = Some (bool_decide (notation v ∈ notations xs)).
Proof.
  intros Hm Hv. pose proof Hm as [Hr Hx]. rewrite (proj1 (intsetFind_Get s xs v 0 Hr Hv ltac:(lia))). f_equal.
  assert (string2ll (notation v) = Some v) as Hsv by by apply notation_string2ll.
  apply bool_decide_ext. by rewrite elem_notations, Hsv, elem_members by done.
Qed.

(** ** Iteration *)

(** The elements of an iteration stand for the members of the set, each once. *)
Definition yields (es : list set_element) (X : gset (list Z)) : Prop :=
  exists ks, Forall2 element_stands es ks /\ NoDup ks /\ list_to_set ks = X.

Lemma is_iterate_loop s xs n fuel : is_map s xs -> (n <= length xs)%nat -> (length xs < fuel + n)%nat ->
  loop fuel (fun '(ii, acc) => match intsetGet s ii with Some v => Continue (ii + 1, acc ++ [EleInt v]) | None => Break acc end)
    (Z.of_nat n, EleInt <$> take n xs) = Some (EleInt <$> xs).
Proof.
  intros Hm. pose proof Hm as [Hr _]. revert n. induction fuel as [|fuel IH]; intros n Hn Hf; [lia|]. rewrite loop_S.
  rewrite (proj2 (intsetFind_Get s xs 0 (Z.of_nat n) Hr ltac:(unfold srange; simpl; lia) ltac:(lia))), Nat2Z.id.
  destruct (xs !! n) as [v|] eqn:Hv.
  - replace (Z.of_nat n + 1) with (Z.of_nat (S n)) by lia.
    replace ((EleInt <$> take n xs) ++ [EleInt v]) with (EleInt <$> take (S n) xs)
      by (rewrite (take_S_r _ _ _ Hv), fmap_app; done).
    apply lookup_lt_Some in Hv. apply IH; lia.
  - apply lookup_ge_None in Hv. by rewrite take_ge.
Qed.

Lemma is_iterate s xs : is_map s xs -> set_iterate (IntsetSet s) = Some (EleInt <$> xs).
Proof.
  intros Hm. simpl. rewrite (is_map_len _ _ Hm), Nat2Z.id.
  apply (is_iterate_loop s xs 0 (S (length xs)) Hm); lia.
Qed.

Lemma is_yields s xs : is_map s xs -> yields (EleInt <$> xs) (notations xs).
Proof.
  intros [Hr Hx]. exists (notation <$> xs). split_and!; [| |done].
  - clear Hr. induction Hx as [|v xs Hv _ IH]; simpl; constructor; [by apply notation_stands|done].
  - apply notations_nodup; [|done]. apply increasing_nodup, Hr.
Qed.

Lemma ht_yields d X : ht_repr d X -> exists es, set_iterate (HtSet d) = Some es /\ yields es X.
Proof.
  intros (m & [Hr Hs Ho] & <-). simpl. rewrite (small_iterable (H := setDictType seed) d m Hr Hs). bind_simpl.
  eexists. split; [done|]. destruct Hr as [_ Hn Hm]. exists (key <$> entries d). split_and!; [|done|].
  - assert (forall e, e ∈ entries d -> stands_for (val e) (key e)) as Hall.
    { intros [k o] He. apply Ho. by apply Hm. }
    clear -Hall. induction (entries d) as [|e es IH]; simpl; constructor.
    + apply Hall, list_elem_of_here.
    + apply IH. intros. by apply Hall, list_elem_of_further.
  - apply set_eq. intros k. rewrite elem_of_list_to_set, list_elem_of_fmap, elem_of_dom. split.
    + intros ([k' o] & -> & He). exists o. by apply Hm.
    + intros [o Ho']. exists (DictEntry k o). split; [done|]. by apply Hm.
Qed.

(** ** The representation of a set *)

Inductive set_repr : setobj -> gset (list Z) -> Prop :=
| repr_intset s xs : is_map s xs -> zlen xs <= max_intset_entries -> set_repr (IntsetSet s) (notations xs)
| repr_ht d X : ht_repr d X -> set_repr (HtSet d) X.

Lemma set_yields so X : set_repr so X -> exists es, set_iterate so = Some es /\ yields es X.
Proof.
  intros [s xs Hm _|d Y Hd]; [|by apply ht_yields]. exists (EleInt <$> xs). split; [by apply is_iterate|by eapply is_yields].
Qed.

Lemma setTypeSize_spec so X : set_repr so X -> setTypeSize so = Z.of_nat (base.size X).
Proof.
  intros [s xs Hm _|d Y Hd]; simpl; [|by apply ht_size]. by rewrite (is_map_len _ _ Hm), (notations_size _ _ Hm).
Qed.

(** ** Conversion *)

Lemma convert_loop_spec es ks d X : Forall2 element_stands es ks -> NoDup ks -> (forall k, k ∈ ks -> k ∉ X) ->
  ht_repr d X -> Z.of_nat (base.size X) + zlen ks <= max_elements + 1 ->
  exists d', convert_loop seed can_resize junk_obj es d = Some d' /\ ht_repr d' (list_to_set ks ∪ X).
Proof.
  intros Hf. revert d X. induction Hf as [|e k es ks He _ IH]; intros d X Hn Hnew Hd Hb.
  { exists d. split; [done|]. by rewrite list_to_set_nil, union_empty_l_L. }
  apply NoDup_cons in Hn as [Hk Hn]. cbn [length] in Hb. cbn [convert_loop].
  destruct (set_dictAdd_spec d X (element_object e) k Hd He ltac:(lia)) as (d1 & -> & Hd1). bind_simpl.
  assert (k ∉ X) as HkX by apply Hnew, list_elem_of_here. rewrite bool_decide_true by done.
  destruct (IH d1 ({[k]} ∪ X)) as (d' & -> & Hd'); [done| |done| |].
  - intros k' Hk'. rewrite elem_of_union, elem_of_singleton. intros [->|Hx]; [done|].
    by apply (Hnew k'); [apply list_elem_of_further|].
  - rewrite size_union, size_singleton by (intros x ->%elem_of_singleton; done). lia.
  - exists d'. split; [done|]. replace (list_to_set (k :: ks) ∪ X) with (list_to_set ks ∪ ({[k]} ∪ X) : gset (list Z)); [done|].
    rewrite list_to_set_cons. apply set_eq. intros x. rewrite !elem_of_union. tauto.
Qed.

Lemma setTypeConvert_spec s xs : is_map s xs -> zlen xs <= max_elements ->
  exists d, setTypeConvert (IntsetSet s) = Some (HtSet d) /\ ht_repr d (notations xs).
Proof.
  intros Hm Hl. unfold SetType.setTypeConvert. rewrite (is_map_len _ _ Hm). unfold max_elements in *.
  destruct (dictExpand_spec (H := setDictType seed) (V := robj) dictCreate ∅ (zlen xs) (dictCreate_repr (H := setDictType seed)) ltac:(lia))
    as (d1 & ok & He & Hr & _). rewrite He. bind_simpl.
  rewrite (is_iterate s xs Hm). bind_simpl.
  assert (ht_repr d1 ∅) as Hd1.
  { exists ∅. split; [|by rewrite dom_empty_L]. split; [done| |done].
    eapply dictExpand_small; [|exact He|apply dictCreate_small]. lia. }
  destruct (is_yields s xs Hm) as (ks & Hf & Hn & Hset).
  assert (length ks = length xs) as Hlk by (apply Forall2_length in Hf; by rewrite length_fmap in Hf).
  destruct (convert_loop_spec _ ks d1 ∅ Hf Hn) as (d & -> & Hd); [by intros k _ ?%elem_of_empty|done| |].
  - rewrite size_empty. unfold max_elements. lia.
  - exists d. split; [done|]. by rewrite union_empty_r_L, Hset in Hd.
Qed.

(** ** The operations *)

Lemma setTypeCreate_spec o k : stands_for o k -> exists so, setTypeCreate o = Some so /\ set_repr so ∅.
Proof.
  intros Hk. unfold setTypeCreate. rewrite (stands_representable o k Hk). bind_simpl. eexists. split; [done|].
  destruct (string2ll k); [|by apply repr_ht, ht_create].
  apply (repr_intset intsetNew []); [|simpl; lia]. split; [|done]. split; [|done|constructor]. split; [by left|done|constructor].
Qed.

Lemma setTypeAdd_spec so X o k : set_repr so X -> stands_for o k -> Z.of_nat (base.size X) < max_elements ->
  exists so', setTypeAdd so o = Some (so', bool_decide (k ∉ X)) /\ set_repr so' ({[k]} ∪ X).
Proof.
  intros Hso Hk Hb. destruct Hso as [s xs Hm Hl|d Y Hd]; cbn [SetType.setTypeAdd].
  - rewrite (stands_representable o k Hk). bind_simpl. destruct (string2ll k) as [v|] eqn:Hv.
    + apply notation_string2ll in Hv as [Hv ->].
      destruct (is_add_spec s xs v Hm ltac:(lia) Hv) as (s' & xs' & -> & Hm' & Hset & Hl'). bind_simpl.
      case_bool_decide as Hin.
      * rewrite (is_map_len _ _ Hm'). case_bool_decide.
        -- destruct (setTypeConvert_spec s' xs' Hm' ltac:(lia)) as (d & -> & Hd). bind_simpl. eexists. split; [done|].
           rewrite <- Hset. by apply repr_ht.
        -- eexists. split; [done|]. rewrite <- Hset. apply repr_intset; [done|lia].
      * eexists. split; [done|]. rewrite <- Hset. apply repr_intset; [done|lia].
    + assert (k ∉ notations xs) as Hnew by (rewrite elem_notations, Hv by apply Hm; tauto).
      rewrite bool_decide_true by done. rewrite (notations_size _ _ Hm) in Hb.
      destruct (setTypeConvert_spec s xs Hm ltac:(lia)) as (d & -> & Hd). bind_simpl.
      destruct (set_dictAdd_spec d (notations xs) o k Hd Hk) as (d' & -> & Hd'); [rewrite (notations_size _ _ Hm); lia|]. bind_simpl.
      rewrite bool_decide_true by done. eexists. split; [done|]. by apply repr_ht.
  - destruct (set_dictAdd_spec d Y o k Hd Hk ltac:(lia)) as (d' & -> & Hd'). bind_simpl. eexists. split; [done|]. by apply repr_ht.
Qed.

Lemma setTypeRemove_spec so X o k : set_repr so X -> stands_for o k -> Z.of_nat (base.size X) <= max_elements ->
  exists so', setTypeRemove so o = Some (so', bool_decide (k ∈ X)) /\ set_repr so' (X ∖ {[k]}).
Proof.
  intros Hso Hk Hb. destruct Hso as [s xs Hm Hl|d Y Hd]; cbn [SetType.setTypeRemove].
  - rewrite (stands_representable o k Hk). bind_simpl. destruct (string2ll k) as [v|] eqn:Hv.
    + apply notation_string2ll in Hv as [Hv ->].
      destruct (is_remove_spec s xs v Hm ltac:(lia) Hv) as (s' & xs' & -> & Hm' & Hset & Hl'). bind_simpl.
      eexists. split; [done|]. rewrite <- Hset. apply repr_intset; [done|lia].
    + assert (k ∉ notations xs) as Hnew by (rewrite elem_notations, Hv by apply Hm; tauto).
      rewrite bool_decide_false by done. eexists. split; [done|].
      replace (notations xs ∖ {[k]}) with (notations xs); [by apply repr_intset|].
      apply set_eq. intros x. rewrite elem_of_difference, elem_of_singleton. split; [|tauto]. intros Hx. split; [done|by intros ->].
  - rewrite (stands_decoded o k Hk). bind_simpl. destruct (ht_delete_spec d Y k Hd) as (d' & -> & Hd'). bind_simpl.
    case_bool_decide as Hin; [|eexists; split; [done|by apply repr_ht]].
    destruct (htNeedsResize d'); [|bind_simpl; eexists; split; [done|by apply repr_ht]].
    destruct (ht_resize_spec d' (Y ∖ {[k]}) Hd') as (d2 & ok & -> & Hd2); [|bind_simpl; eexists; split; [done|by apply repr_ht]].
    pose proof (subseteq_size (Y ∖ {[k]}) Y ltac:(intros x [? _]%elem_of_difference; done)). lia.
Qed.

Lemma setTypeIsMember_spec so X o k : set_repr so X -> stands_for o k ->
  exists so', setTypeIsMember so o = Some (so', bool_decide (k ∈ X)) /\ set_repr so' X.
Proof.
  intros Hso Hk. destruct Hso as [s xs Hm Hl|d Y Hd]; cbn [SetType.setTypeIsMember].
  - rewrite (stands_representable o k Hk). bind_simpl. destruct (string2ll k) as [v|] eqn:Hv.
    + apply notation_string2ll in Hv as [Hv ->]. rewrite (is_find_spec s xs v Hm Hv). bind_simpl.
      eexists. split; [done|]. by apply repr_intset.
    + rewrite bool_decide_false by (rewrite elem_notations, Hv by apply Hm; tauto). eexists. split; [done|]. by apply repr_intset.
  - rewrite (stands_decoded o k Hk). bind_simpl. destruct (ht_find_spec d Y k Hd) as (d' & r & -> & Hr & Hd'). bind_simpl.
    rewrite Hr. eexists. split; [done|]. by apply repr_ht.
Qed.

(** ** Sequences of operations *)

Inductive set_call := CallAdd (o : robj) | CallRemove (o : robj) | CallIsMember (o : robj) | CallSize.

(** Flags are 0 and 1. *)
Definition flag_result (r : setobj * bool) : setobj * Z := (r.1, Z.b2z r.2).

Definition set_call_step (so : setobj) (op : set_call) : option (setobj * Z) :=
  match op with
  | CallAdd o => flag_result <$> setTypeAdd so o
  | CallRemove o => flag_result <$> setTypeRemove so o
  | CallIsMember o => flag_result <$> setTypeIsMember so o
  | CallSize => Some (so, setTypeSize so)
  end.

Fixpoint set_run (so : setobj) (ops : list set_call) : option (setobj * list Z) :=
  match ops with
  | [] => Some (so, [])
  | op :: ops => '(so, r) ← set_call_step so op; '(so, rs) ← set_run so ops; Some (so, r :: rs)
  end.

(** The same calls on a set of strings. *)
Definition string_of (o : robj) : list Z := default [] (getDecodedObject o).

Definition spec_call (X : gset (list Z)) (op : set_call) : gset (list Z) * Z :=
  match op with
  | CallAdd o => ({[string_of o]} ∪ X, Z.b2z (bool_decide (string_of o ∉ X)))
  | CallRemove o => (X ∖ {[string_of o]}, Z.b2z (bool_decide (string_of o ∈ X)))
  | CallIsMember o => (X, Z.b2z (bool_decide (string_of o ∈ X)))
  | CallSize => (X, Z.of_nat (base.size X))
  end.

Fixpoint spec_run (X : gset (list Z)) (ops : list set_call) : gset (list Z) * list Z :=
  match ops with
  | [] => (X, [])
  | op :: ops => let '(X, r) := spec_call X op in let '(X, rs) := spec_run X ops in (X, r :: rs)
  end.

(** String objects: bytes, or a 64-bit integer. *)
Definition string_object (o : robj) : Prop := match o with Raw _ => True | IntObj v => srange 64 v | Other _ _ => False end.
Definition call_ok (op : set_call) : Prop :=
  match op with CallAdd o | CallRemove o | CallIsMember o => string_object o | CallSize => True end.

(** An intset holds decimal notations of 64-bit integers, and few of them. *)
Definition encoding_ok (so : setobj) (X : gset (list Z)) : Prop :=
  match so with
  | IntsetSet _ => Z.of_nat (base.size X) <= max_intset_entries /\ set_Forall (fun k => is_Some (string2ll k)) X
  | HtSet _ => True
  end.

Lemma string_object_stands o : string_object o -> stands_for o (string_of o).
Proof.
  destruct o as [s|v|]; simpl; [done| |done]. intros Hv. split; [done|]. by apply notation_decimal.
Qed.

Lemma repr_encoding so X : set_repr so X -> encoding_ok so X.
Proof.
  intros [s xs Hm Hl|]; simpl; [|done]. split; [by rewrite (notations_size _ _ Hm)|].
  intros k Hk. rewrite elem_notations in Hk by apply Hm. by destruct (string2ll k).
Qed.

Lemma set_call_spec so X op : set_repr so X -> call_ok op -> Z.of_nat (base.size X) < max_elements ->
  exists so', set_call_step so op = Some (so', (spec_call X op).2) /\ set_repr so' (spec_call X op).1 /\
    Z.of_nat (base.size (spec_call X op).1) <= Z.of_nat (base.size X) + 1.
Proof.
  intros Hso Hop Hb. destruct op as [o|o|o|]; cbn [set_call_step spec_call fst snd]; [..|].
  - destruct (setTypeAdd_spec so X o _ Hso (string_object_stands o Hop) Hb) as (so' & -> & Hr). eexists. split; [done|].
    split; [done|]. pose proof (size_union_alt {[string_of o]} X). rewrite size_singleton in *.
    pose proof (subseteq_size (X ∖ {[string_of o]}) X ltac:(set_solver)). lia.
  - destruct (setTypeRemove_spec so X o _ Hso (string_object_stands o Hop) ltac:(lia)) as (so' & -> & Hr). eexists. split; [done|].
    split; [done|]. pose proof (subseteq_size (X ∖ {[string_of o]}) X ltac:(set_solver)). lia.
  - destruct (setTypeIsMember_spec so X o _ Hso (string_object_stands o Hop)) as (so' & -> & Hr). eexists. split; [done|].
    split; [done|]. lia.
  - exists so. rewrite (setTypeSize_spec so X Hso). split; [done|]. split; [done|lia].
Qed.

Lemma set_run_spec ops so X : set_repr so X -> Forall call_ok ops -> Z.of_nat (base.size X) + zlen ops <= max_elements ->
  exists so', set_run so ops = Some (so', (spec_run X ops).2) /\ set_repr so' (spec_run X ops).1.
Proof.
  intros Hso Hops. revert so X Hso. induction Hops as [|op ops Hop _ IH]; intros so X Hso Hb; cbn [set_run spec_run length] in *.
  { by exists so. }
  destruct (set_call_spec so X op Hso Hop ltac:(lia)) as (so1 & -> & Hr1 & Hs1). bind_simpl.
  destruct (spec_call X op) as [X1 r1]. cbn [fst snd] in *.
  destruct (IH so1 X1 Hr1 ltac:(lia)) as (so2 & -> & Hr2). bind_simpl. destruct (spec_run X1 ops) as [X2 rs]. by exists so2.
Qed.

(** C2: the two encodings of a set implement one type.  A set created for a
    first element, and any sequence of additions, removals, searches and
    counts, whatever conversions to a hash table, resizing and rehashing they
    cause, give the results of a set of strings in which an element is the
    bytes it stands for, not its encoding; the set is an intset only while its
    members are decimal notations and at most [set_max_intset_entries]. *)
Theorem set_run_refines first ops : string_object first -> Forall call_ok ops -> zlen ops <= max_elements ->
  exists so so', setTypeCreate first = Some so /\ set_run so ops = Some (so', (spec_run ∅ ops).2) /\
    set_repr so' (spec_run ∅ ops).1 /\ encoding_ok so' (spec_run ∅ ops).1.
Proof.
  intros Hf Hops Hl. destruct (setTypeCreate_spec first _ (string_object_stands _ Hf)) as (so & Hc & Hso).
  destruct (set_run_spec ops so ∅ Hso Hops) as (so' & Hrun & Hr); [rewrite size_empty; simpl; lia|].
  exists so, so'. split; [done|]. split; [done|]. split; [done|]. by apply repr_encoding.
Qed.
End Spec.

Definition sample_calls : list set_call :=
  [CallAdd (IntObj 5); CallAdd (Raw [55]); CallAdd (Raw [53]); CallSize; CallAdd (IntObj 9); CallSize; CallAdd (Raw [97]);
   CallIsMember (Raw [55]); CallRemove (IntObj 5); CallIsMember (IntObj 5); CallSize].

(** The third integer converts a set of at most two. *)
Lemma set_run_refines_witness : exists so so', setTypeCreate (IntObj 5) = Some so /\
  set_run 0 true (fun _ => 7) (IntObj 0) 2 so sample_calls = Some (so', [1; 1; 0; 2; 1; 3; 1; 1; 1; 0; 3]) /\
  set_repr 0 2 so' {[[55]; [57]; [97]]} /\ encoding_ok 2 so' {[[55]; [57]; [97]]}.
Proof.
  assert ((spec_run ∅ sample_calls) = ({[[55]; [57]; [97]]}, [1; 1; 0; 2; 1; 3; 1; 1; 1; 0; 3])) as E by (apply (bool_decide_unpack _); vm_compute; exact I).
  pose proof (set_run_refines 0 true (fun _ => 7) (IntObj 0) 2 ltac:(split; [lia|reflexivity]) (IntObj 5) sample_calls
    ltac:(split; reflexivity || discriminate) ltac:(apply Forall_forall; intros op Hop; 
      repeat (apply elem_of_cons in Hop as [->|Hop]; [simpl; unfold srange; simpl; lia || exact I|]); by apply elem_of_nil in Hop)
    ltac:(vm_compute; discriminate)) as H.
  rewrite E in H. exact H.
Defined.
