(* ===== verification/ObjectStore.v ===== *)
(** * Objects beside the key space

    The value of a key that does not hold a string is an address; a store of
    the objects by their addresses is threaded beside the state of the server,
    so that two keys given to a command may name the same object.  The monad,
    its weakest preconditions, and the relation of a store to the abstract
    values of its objects, for any type of object. *)
From S2P Require Import Prelude Server ServerLogic.

(** ** Code on the server and a store *)

Definition SM (H A : Type) : Type := server -> H -> option (A * server * H).

#[export] Instance SM_ret H : MRet (SM H) := fun A x s h => Some (x, s, h).
#[export] Instance SM_bind H : MBind (SM H) := fun A B f m s h =>
  match m s h with Some (x, s, h) => f x s h | None => None end.

Definition srv {H A} (m : M A) : SM H A := fun s h => match m s with Some (x, s) => Some (x, s, h) | None => None end.

(** Code that reads and changes only the store. *)
Definition on_store {H A} (f : H -> option (A * H)) : SM H A := fun s h =>
  match f h with Some (x, h) => Some (x, s, h) | None => None end.

Section Objects.
Context {O : Type}.
Abbreviation store := (gmap nat O).

Definition get_obj (p : nat) : SM store O := on_store (fun h => o ← h !! p; Some (o, h)).
Definition put_obj (p : nat) (o : O) : SM store unit := on_store (fun h => Some (tt, <[p := o]> h)).

(** The address of a new object. *)
Definition new_obj (o : O) : SM store nat := on_store (fun h => let p := fresh (dom h) in Some (p, <[p := o]> h)).

(** An operation on the object at an address. *)
Definition update_obj {B} (p : nat) (f : O -> option (O * B)) (h : store) : option (B * store) :=
  o ← h !! p; '(o, b) ← f o; Some (b, <[p := o]> h).
End Objects.

(** ** Weakest preconditions *)

Section Calculus.
Context {H : Type}.

Definition swp {A} (m : SM H A) (Q : A -> server -> H -> Prop) (s : server) (h : H) : Prop :=
  match m s h with Some (x, s, h) => Q x s h | None => False end.

Lemma swp_ret {A} (x : A) (Q : A -> server -> H -> Prop) s h : Q x s h -> swp (mret x) Q s h.
Proof. done. Qed.

Lemma swp_bind {A B} (m : SM H A) (f : A -> SM H B) Q s h : swp m (fun x => swp (f x) Q) s h -> swp (x ← m; f x) Q s h.
Proof. unfold swp, mbind, SM_bind. by destruct (m s h) as [[[x s'] h']|]. Qed.

Lemma swp_srv {A} (m : M A) (Q : A -> server -> H -> Prop) s h : wp m (fun x s => Q x s h) s -> swp (srv m) Q s h.
Proof. unfold swp, srv, wp. by destruct (m s) as [[x s']|]. Qed.

Lemma swp_on_store {A} (f : H -> option (A * H)) x h' (Q : A -> server -> H -> Prop) s h :
  f h = Some (x, h') -> Q x s h' -> swp (on_store f) Q s h.
Proof. unfold swp, on_store. by intros ->. Qed.

Lemma swp_run {A} (m : SM H A) Q s h : swp m Q s h -> exists x s' h', m s h = Some (x, s', h') /\ Q x s' h'.
Proof. unfold swp. destruct (m s h) as [[[x s'] h']|]; [|done]. eauto. Qed.

Lemma swp_lift {A} (o : option A) x (Q : A -> server -> H -> Prop) s h : o = Some x -> Q x s h -> swp (srv (lift o)) Q s h.
Proof. intros Ho HQ. apply swp_srv. by eapply wp_lift. Qed.
End Calculus.

(** ** What a store holds *)

Section Represents.
Context {O X : Type} (R : O -> X -> Prop).

Definition represents (h : gmap nat O) (a : gmap nat X) : Prop := forall p x, a !! p = Some x -> exists o, h !! p = Some o /\ R o x.

Lemma update_at {B} h a p x (f : O -> option (O * B)) b x' : represents h a -> a !! p = Some x ->
  (forall o, R o x -> exists o', f o = Some (o', b) /\ R o' x') ->
  exists h', update_obj p f h = Some (b, h') /\ represents h' (<[p := x']> a).
Proof.
  intros Hh Hp Hf. destruct (Hh p x Hp) as (o & Ho & Hr). destruct (Hf o Hr) as (o' & Hfo & Hr').
  exists (<[p := o']> h). unfold update_obj. rewrite Ho. bind_simpl. rewrite Hfo. split; [done|].
  intros p' y. destruct (decide (p = p')) as [<-|Hne].
  - rewrite !lookup_insert_eq. intros [= <-]. eauto.
  - rewrite !lookup_insert_ne by done. apply Hh.
Qed.

(** A read that may reorganise the object. *)
Lemma read_at {B} h a p x (f : O -> option (O * B)) b : represents h a -> a !! p = Some x ->
  (forall o, R o x -> exists o', f o = Some (o', b) /\ R o' x) ->
  exists h', update_obj p f h = Some (b, h') /\ represents h' a.
Proof.
  intros Hh Hp Hf. destruct (update_at h a p x f b x Hh Hp Hf) as (h' & Hu & Hr). exists h'. by rewrite insert_id in Hr.
Qed.

Lemma store_weaken h a q y : represents h (<[q := y]> a) -> a !! q = None -> represents h a.
Proof. intros Hh Hq p x Hp. apply Hh. rewrite lookup_insert_ne; [done|]. intros ->. congruence. Qed.

Lemma fresh_at h a o x : represents h a -> R o x ->
  exists q h', (let p := fresh (dom h) in Some (p, <[p := o]> h)) = Some (q, h') /\ a !! q = None /\ represents h' (<[q := x]> a).
Proof.
  intros Hh Ho. exists (fresh (dom h)), (<[fresh (dom h) := o]> h). split; [done|].
  pose proof (is_fresh (dom h)) as Hf. rewrite not_elem_of_dom in Hf.
  assert (a !! fresh (dom h) = None) as Ha.
  { destruct (a !! fresh (dom h)) as [y|] eqn:E; [|done]. destruct (Hh _ _ E) as (? & ? & _). congruence. }
  split; [done|]. intros p y. destruct (decide (p = fresh (dom h))) as [->|].
  - rewrite !lookup_insert_eq. intros [= <-]. eauto.
  - rewrite !lookup_insert_ne by done. apply Hh.
Qed.
End Represents.
