(* ===== verification/SetCommands.v ===== *)
(** * Set commands ([t_set.c])

    The value of a key that holds a set is an address; the store of the set
    objects by their addresses is threaded beside the state of the server, so
    that two arguments that name the same key name the same object. *)
From Stdlib Require Import String.
From S2P Require Import Prelude Util Intset Dict DictIter Sds Server StringCommands ObjectStore SetType.

Abbreviation sets := (gmap nat setobj).

Abbreviation SetM := (SM sets).

(** The object of a value that passed [checkType]. *)
Definition set_address (o : robj) : option nat := match o with Other REDIS_SET p => Some p | _ => None end.

Section Commands.
Context (clock : nat -> Z) (seed : Z) (can_resize : bool) (junk : nat -> Z) (junk_obj : robj) (max_intset_entries : Z).
(** [qsort] of the C library. *)
Context (qsort : forall A, (A -> A -> Z) -> list A -> list A).
Arguments qsort {A} _ _.

Abbreviation setTypeAdd := (setTypeAdd seed can_resize junk junk_obj max_intset_entries).
Abbreviation setTypeRemove := (setTypeRemove seed can_resize junk).
Abbreviation setTypeIsMember := (setTypeIsMember seed).

(** ** SADD, SREM, SMOVE, SISMEMBER, SCARD *)

Fixpoint sadd_loop (p : nat) (args : list bytes) (added : Z) : SetM Z :=
  match args with
  | [] => mret added
  | a :: args =>
      b ← on_store (update_obj p (fun so => setTypeAdd so (tryObjectEncoding a)));
      sadd_loop p args (if (b : bool) then added + 1 else added)
  end.

(** The set of [saddCommand]: the one of the key, or a new one; [None] after
    an error reply. *)
Definition sadd_set (c : client_id) (d : nat) (key first : bytes) : SetM (option nat) :=
  o ← srv (lookupKeyWrite clock d key);
  match o with
  | None =>
      so ← srv (lift (setTypeCreate (Raw first)));
      p ← new_obj so;
      srv (dbAdd d key (Other REDIS_SET p));;
      mret (Some p)
  | Some o =>
      wrong ← srv (checkType c o REDIS_SET);
      if (wrong : bool) then mret None else p ← srv (lift (set_address o)); mret (Some p)
  end.

Definition saddCommand (c : client_id) : SetM unit :=
  d ← srv (current_db c); key ← srv (argv c 1); first ← srv (argv c 2);
  cl ← srv (client c);
  p ← sadd_set c d key first;
  match p with
  | None => mret tt
  | Some p =>
      added ← sadd_loop p (drop 2 (c_argv cl)) 0;
      (if bool_decide (added <> 0)
       then srv (signalModifiedKey d key);; srv (notifyKeyspaceEvent NOTIFY_SET "sadd" key d) else mret tt);;
      srv (add_dirty added);;
      srv (addReply c (ReplyInt added))
  end.

(** The number of members removed, and whether the key was. *)
Fixpoint srem_loop (d : nat) (key : bytes) (p : nat) (args : list bytes) (deleted : Z) : SetM (Z * bool) :=
  match args with
  | [] => mret (deleted, false)
  | a :: args =>
      b ← on_store (update_obj p (fun so => setTypeRemove so (Raw a)));
      if (b : bool) then
        so ← get_obj p;
        if bool_decide (setTypeSize so = 0) then srv (dbDelete d key);; mret (deleted + 1, true)
        else srem_loop d key p args (deleted + 1)
      else srem_loop d key p args deleted
  end.

Definition sremCommand (c : client_id) : SetM unit :=
  d ← srv (current_db c); key ← srv (argv c 1); cl ← srv (client c);
  o ← srv (lookupKeyWriteOrReply clock c d key czero);
  match o with
  | None => mret tt
  | Some o =>
      wrong ← srv (checkType c o REDIS_SET);
      if (wrong : bool) then mret tt
      else
        p ← srv (lift (set_address o));
        '(deleted, keyremoved) ← srem_loop d key p (drop 2 (c_argv cl)) 0;
        (if bool_decide (deleted <> 0) then
           srv (signalModifiedKey d key);;
           srv (notifyKeyspaceEvent NOTIFY_SET "srem" key d);;
           (if (keyremoved : bool) then srv (notifyKeyspaceEvent NOTIFY_GENERIC "del" key d) else mret tt);;
           srv (add_dirty deleted)
         else mret tt);;
        srv (addReply c (ReplyInt deleted))
  end.

(** Once the member has left the source. *)
Definition smove_into (c : client_id) (d : nat) (src dst ele : bytes) (p : nat) (dstset : option robj) : SetM unit :=
  srv (notifyKeyspaceEvent NOTIFY_SET "srem" src d);;
  so ← get_obj p;
  (if bool_decide (setTypeSize so = 0)
   then srv (dbDelete d src);; srv (notifyKeyspaceEvent NOTIFY_GENERIC "del" src d) else mret tt);;
  srv (signalModifiedKey d src);;
  srv (signalModifiedKey d dst);;
  srv (add_dirty 1);;
  q ← match dstset with
      | Some o => srv (lift (set_address o))
      | None => so ← srv (lift (setTypeCreate (tryObjectEncoding ele))); q ← new_obj so;
                srv (dbAdd d dst (Other REDIS_SET q));; mret q
      end;
  b ← on_store (update_obj q (fun so => setTypeAdd so (tryObjectEncoding ele)));
  (if (b : bool) then srv (add_dirty 1);; srv (notifyKeyspaceEvent NOTIFY_SET "sadd" dst d) else mret tt);;
  srv (addReply c cone).

Definition smoveCommand (c : client_id) : SetM unit :=
  d ← srv (current_db c); src ← srv (argv c 1); dst ← srv (argv c 2);
  srcset ← srv (lookupKeyWrite clock d src);
  dstset ← srv (lookupKeyWrite clock d dst);
  ele ← srv (argv c 3);
  match srcset with
  | None => srv (addReply c czero)
  | Some o =>
      wrong ← srv (checkType c o REDIS_SET);
      wrong ← (if (wrong : bool) then mret true
               else match dstset with None => mret false | Some o => srv (checkType c o REDIS_SET) end);
      if (wrong : bool) then mret tt
      else
        p ← srv (lift (set_address o));
        if bool_decide (dstset = Some (Other REDIS_SET p)) then srv (addReply c cone)
        else
          b ← on_store (update_obj p (fun so => setTypeRemove so (tryObjectEncoding ele)));
          if (b : bool) then smove_into c d src dst ele p dstset else srv (addReply c czero)
  end.

Definition sismemberCommand (c : client_id) : SetM unit :=
  d ← srv (current_db c); key ← srv (argv c 1);
  o ← srv (lookupKeyReadOrReply clock c d key czero);
  match o with
  | None => mret tt
  | Some o =>
      wrong ← srv (checkType c o REDIS_SET);
      if (wrong : bool) then mret tt
      else
        p ← srv (lift (set_address o)); ele ← srv (argv c 2);
        b ← on_store (update_obj p (fun so => setTypeIsMember so (tryObjectEncoding ele)));
        srv (addReply c (if (b : bool) then cone else czero))
  end.

Definition scardCommand (c : client_id) : SetM unit :=
  d ← srv (current_db c); key ← srv (argv c 1);
  o ← srv (lookupKeyReadOrReply clock c d key czero);
  match o with
  | None => mret tt
  | Some o =>
      wrong ← srv (checkType c o REDIS_SET);
      if (wrong : bool) then mret tt
      else p ← srv (lift (set_address o)); so ← get_obj p; srv (addReply c (ReplyInt (setTypeSize so)))
  end.

(** ** Replies of an unknown length *)

(** [addDeferredMultiBulkLength]: the place of the length in the replies. *)
Definition addDeferredMultiBulkLength (c : client_id) : M nat :=
  cl ← client c; addReply c (ReplyMultiBulkLen 0);; mret (length (c_reply cl)).

Definition setDeferredMultiBulkLength (c : client_id) (node : nat) (n : Z) : M unit :=
  on_client c (fun cl => set_c_reply (<[node := ReplyMultiBulkLen n]> (c_reply cl)) cl).

Definition addReplyBulkLongLong (c : client_id) (ll : Z) : M unit :=
  s ← lift (ll2string 64 ll); addReply c (ReplyBulk s).

(** ** SINTER and SINTERSTORE *)

Definition set_size (h : sets) (p : nat) : Z := from_option setTypeSize 0 (h !! p).

Definition qsortCompareSetsByCardinality (h : sets) (s1 s2 : nat) : Z := swrap 32 (set_size h s1 - set_size h s2).

(** Lookups of the commands that store their result are writes. *)
Definition lookup_set (dstkey : option bytes) (d : nat) (key : bytes) : M (option robj) :=
  match dstkey with Some _ => lookupKeyWrite clock d key | None => lookupKeyRead clock d key end.

(** [sets]; [None] when the command is over. *)
Fixpoint inter_sets (c : client_id) (d : nat) (dstkey : option bytes) (setkeys : list bytes) (ps : list nat) : SetM (option (list nat)) :=
  match setkeys with
  | [] => mret (Some ps)
  | key :: setkeys =>
      o ← srv (lookup_set dstkey d key);
      match o with
      | None =>
          match dstkey with
          | Some dst =>
              deleted ← srv (dbDelete d dst);
              (if (deleted : bool) then srv (signalModifiedKey d dst);; srv (add_dirty 1) else mret tt);;
              srv (addReply c czero)
          | None => srv (addReply c emptymultibulk)
          end;; mret None
      | Some o =>
          wrong ← srv (checkType c o REDIS_SET);
          if (wrong : bool) then mret None
          else p ← srv (lift (set_address o)); inter_sets c d dstkey setkeys (ps ++ [p])
      end
  end.

(** One of the other sets has the element. *)
Definition inter_member (p : nat) (e : set_element) (h : sets) : option (bool * sets) :=
  so ← h !! p;
  match e, so with
  | EleInt intobj, IntsetSet s => b ← intsetFind s intobj; Some (b, h)
  | EleInt intobj, HtSet _ => update_obj p (fun so => setTypeIsMember so (createStringObjectFromLongLong intobj)) h
  | EleObj eleobj, _ =>
      found ← match eleobj, so with IntObj v, IntsetSet s => intsetFind s v | _, _ => Some true end;
      if (found : bool) then update_obj p (fun so => setTypeIsMember so eleobj) h else Some (false, h)
  end.

(** All of them have it: the loop has reached [setnum]. *)
Fixpoint inter_all (p0 : nat) (ps : list nat) (e : set_element) (h : sets) : option (bool * sets) :=
  match ps with
  | [] => Some (true, h)
  | p :: ps =>
      if bool_decide (p = p0) then inter_all p0 ps e h
      else '(b, h) ← inter_member p e h; if (b : bool) then inter_all p0 ps e h else Some (false, h)
  end.

Definition reply_element (c : client_id) (e : set_element) : M unit :=
  match e with EleObj o => addReplyBulk c o | EleInt v => addReplyBulkLongLong c v end.

(** Members go to the reply, and are counted, or into the destination. *)
Fixpoint inter_loop (c : client_id) (dstset : option nat) (p0 : nat) (ps : list nat) (es : list set_element) (cardinality : Z) : SetM Z :=
  match es with
  | [] => mret cardinality
  | e :: es =>
      b ← on_store (inter_all p0 ps e);
      if (b : bool) then
        match dstset with
        | None => srv (reply_element c e);; inter_loop c dstset p0 ps es (cardinality + 1)
        | Some q =>
            on_store (update_obj q (fun so => setTypeAdd so (element_object e)));;
            inter_loop c dstset p0 ps es cardinality
        end
      else inter_loop c dstset p0 ps es cardinality
  end.

(** The end of the commands that store a set. *)
Definition store_result (c : client_id) (d : nat) (dstkey : bytes) (dstset : nat) (event : string) : SetM unit :=
  deleted ← srv (dbDelete d dstkey);
  so ← get_obj dstset;
  (if bool_decide (setTypeSize so > 0) then
     srv (dbAdd d dstkey (Other REDIS_SET dstset));;
     srv (addReply c (ReplyInt (setTypeSize so)));;
     srv (notifyKeyspaceEvent NOTIFY_SET event dstkey d)
   else
     srv (addReply c czero);;
     if (deleted : bool) then srv (notifyKeyspaceEvent NOTIFY_GENERIC "del" dstkey d) else mret tt);;
  srv (signalModifiedKey d dstkey);;
  srv (add_dirty 1).

Definition sinterGenericCommand (c : client_id) (setkeys : list bytes) (dstkey : option bytes) : SetM unit :=
  d ← srv (current_db c);
  r ← inter_sets c d dstkey setkeys [];
  match r with
  | None => mret tt
  | Some ps =>
      ps ← on_store (fun h => Some (qsort (qsortCompareSetsByCardinality h) ps, h));
      match dstkey with
      | None =>
          replylen ← srv (addDeferredMultiBulkLength c);
          p0 ← srv (lift (ps !! O)); so ← get_obj p0; es ← srv (lift (set_iterate so));
          cardinality ← inter_loop c None p0 (tail ps) es 0;
          srv (setDeferredMultiBulkLength c replylen cardinality)
      | Some dst =>
          q ← new_obj (IntsetSet intsetNew);
          p0 ← srv (lift (ps !! O)); so ← get_obj p0; es ← srv (lift (set_iterate so));
          inter_loop c (Some q) p0 (tail ps) es 0;;
          store_result c d dst q "sinterstore"
      end
  end.

Definition sinterCommand (c : client_id) : SetM unit :=
  cl ← srv (client c); sinterGenericCommand c (drop 1 (c_argv cl)) None.

Definition sinterstoreCommand (c : client_id) : SetM unit :=
  cl ← srv (client c); dst ← srv (argv c 1); sinterGenericCommand c (drop 2 (c_argv cl)) (Some dst).

(** ** SUNION, SDIFF and their storing variants *)

Inductive set_op := REDIS_OP_UNION | REDIS_OP_DIFF.
#[local] Instance set_op_dec : EqDecision set_op.
Proof using Type. solve_decision. Defined.

(** A missing key is a null pointer. *)
Definition null_size (h : sets) (o : option nat) : Z := from_option (set_size h) 0 o.

Definition qsortCompareSetsByRevCardinality (h : sets) (o1 o2 : option nat) : Z := swrap 32 (null_size h o2 - null_size h o1).

Fixpoint union_sets (c : client_id) (d : nat) (dstkey : option bytes) (setkeys : list bytes) (ps : list (option nat)) :
    SetM (option (list (option nat))) :=
  match setkeys with
  | [] => mret (Some ps)
  | key :: setkeys =>
      o ← srv (lookup_set dstkey d key);
      match o with
      | None => union_sets c d dstkey setkeys (ps ++ [None])
      | Some o =>
          wrong ← srv (checkType c o REDIS_SET);
          if (wrong : bool) then mret None
          else p ← srv (lift (set_address o)); union_sets c d dstkey setkeys (ps ++ [Some p])
      end
  end.

(** The choice of the algorithm of SDIFF: [algo_one_work] and [algo_two_work]. *)
Definition diff_work (h : sets) (p0 : nat) (ps : list (option nat)) : Z * Z :=
  foldl (fun '(one, two) o => match o with None => (one, two) | Some p => (one + set_size h p0, two + set_size h p) end) (0, 0) ps.

Definition diff_algo_one (h : sets) (p0 : nat) (ps : list (option nat)) : bool :=
  let '(one, two) := diff_work h p0 ps in bool_decide (one `quot` 2 <= two).

Fixpoint add_elements (q : nat) (es : list set_element) (cardinality : Z) (h : sets) : option (Z * sets) :=
  match es with
  | [] => Some (cardinality, h)
  | e :: es =>
      '(b, h) ← update_obj q (fun so => setTypeAdd so (element_object e)) h;
      add_elements q es (if (b : bool) then cardinality + 1 else cardinality) h
  end.

Fixpoint remove_elements (q : nat) (es : list set_element) (cardinality : Z) (h : sets) : option (Z * sets) :=
  match es with
  | [] => Some (cardinality, h)
  | e :: es =>
      '(b, h) ← update_obj q (fun so => setTypeRemove so (element_object e)) h;
      remove_elements q es (if (b : bool) then cardinality - 1 else cardinality) h
  end.

Definition elements_of (p : nat) (h : sets) : option (list set_element) := so ← h !! p; set_iterate so.

Fixpoint union_loop (q : nat) (ps : list (option nat)) (cardinality : Z) (h : sets) : option (Z * sets) :=
  match ps with
  | [] => Some (cardinality, h)
  | None :: ps => union_loop q ps cardinality h
  | Some p :: ps =>
      es ← elements_of p h;
      '(cardinality, h) ← add_elements q es cardinality h; union_loop q ps cardinality h
  end.

(** No other set has the element. *)
Fixpoint diff_none (p0 : nat) (ps : list (option nat)) (e : set_element) (h : sets) : option (bool * sets) :=
  match ps with
  | [] => Some (true, h)
  | None :: ps => diff_none p0 ps e h
  | Some p :: ps =>
      if bool_decide (p = p0) then Some (false, h)
      else
        '(b, h) ← update_obj p (fun so => setTypeIsMember so (element_object e)) h;
        if (b : bool) then Some (false, h) else diff_none p0 ps e h
  end.

Fixpoint diff_one_loop (q p0 : nat) (ps : list (option nat)) (es : list set_element) (cardinality : Z) (h : sets) : option (Z * sets) :=
  match es with
  | [] => Some (cardinality, h)
  | e :: es =>
      '(b, h) ← diff_none p0 ps e h;
      if (b : bool) then
        '(_, h) ← update_obj q (fun so => setTypeAdd so (element_object e)) h;
        diff_one_loop q p0 ps es (cardinality + 1) h
      else diff_one_loop q p0 ps es cardinality h
  end.

(** [first] for [j == 0]. *)
Fixpoint diff_two_loop (q : nat) (first : bool) (ps : list (option nat)) (cardinality : Z) (h : sets) : option (Z * sets) :=
  match ps with
  | [] => Some (cardinality, h)
  | None :: ps => diff_two_loop q false ps cardinality h
  | Some p :: ps =>
      es ← elements_of p h;
      '(cardinality, h) ← (if first then add_elements q es cardinality h else remove_elements q es cardinality h);
      if bool_decide (cardinality = 0) then Some (cardinality, h) else diff_two_loop q false ps cardinality h
  end.

(** The three ways to fill the temporary set [q], and none when the first key
    of a difference is missing. *)
Definition fill_set (op : set_op) (one : bool) (q : nat) (ps : list (option nat)) (h : sets) : option (Z * sets) :=
  match op, ps with
  | REDIS_OP_UNION, _ => union_loop q ps 0 h
  | REDIS_OP_DIFF, Some p0 :: others =>
      if one then es ← elements_of p0 h; diff_one_loop q p0 others es 0 h
      else diff_two_loop q true ps 0 h
  | REDIS_OP_DIFF, _ => Some (0, h)
  end.

(** The choice of the algorithm, and the sets to subtract in decreasing size. *)
Definition choose_diff (op : set_op) (ps : list (option nat)) (h : sets) : bool * list (option nat) :=
  match op, ps with
  | REDIS_OP_DIFF, Some p0 :: others =>
      if diff_algo_one h p0 ps then (true, Some p0 :: (if bool_decide (zlen ps > 1) then qsort (qsortCompareSetsByRevCardinality h) others else others))
      else (false, ps)
  | _, _ => (true, ps)
  end.

Fixpoint reply_members (c : client_id) (es : list set_element) : M unit :=
  match es with [] => mret tt | e :: es => addReplyBulk c (element_object e);; reply_members c es end.

Definition sunionDiffGenericCommand (c : client_id) (setkeys : list bytes) (dstkey : option bytes) (op : set_op) : SetM unit :=
  d ← srv (current_db c);
  r ← union_sets c d dstkey setkeys [];
  match r with
  | None => mret tt
  | Some ps =>
      '(one, ps) ← on_store (fun h => Some (choose_diff op ps h, h));
      q ← new_obj (IntsetSet intsetNew);
      cardinality ← on_store (fill_set op one q ps);
      match dstkey with
      | None =>
          srv (addReply c (ReplyMultiBulkLen cardinality));;
          so ← get_obj q; es ← srv (lift (set_iterate so));
          srv (reply_members c es)
      | Some dst => store_result c d dst q (match op with REDIS_OP_UNION => "sunionstore" | REDIS_OP_DIFF => "sdiffstore" end)
      end
  end.

Definition sunionCommand (c : client_id) : SetM unit :=
  cl ← srv (client c); sunionDiffGenericCommand c (drop 1 (c_argv cl)) None REDIS_OP_UNION.

Definition sunionstoreCommand (c : client_id) : SetM unit :=
  cl ← srv (client c); dst ← srv (argv c 1); sunionDiffGenericCommand c (drop 2 (c_argv cl)) (Some dst) REDIS_OP_UNION.

Definition sdiffCommand (c : client_id) : SetM unit :=
  cl ← srv (client c); sunionDiffGenericCommand c (drop 1 (c_argv cl)) None REDIS_OP_DIFF.

Definition sdiffstoreCommand (c : client_id) : SetM unit :=
  cl ← srv (client c); dst ← srv (argv c 1); sunionDiffGenericCommand c (drop 2 (c_argv cl)) (Some dst) REDIS_OP_DIFF.
End Commands.
