(* ===== verification/SetCommandLogic.v ===== *)
(** * The store of set objects, and what the set commands do to it

    [store_repr] relates the store to a finite map from addresses to sets of
    strings.  Each loop of [t_set.c] has a lemma about the set it computes. *)
From Stdlib Require Import String.
#[local] Set Warnings "-clear-no-such-hyp".
From S2P Require Import Prelude Util Intset Dict DictIter Sds Server StringCommands SetType SetSpecs SetCommands ServerLogic StringSpecs ObjectStore.

(** ** Sizes *)

Lemma size_add (k : bytes) (Y : gset bytes) : Z.of_nat (base.size ({[k]} ∪ Y)) = Z.of_nat (base.size Y) + (if bool_decide (k ∉ Y) then 1 else 0).
Proof.
  case_bool_decide as Hk.
  - rewrite size_union, size_singleton by set_solver. lia.
  - replace ({[k]} ∪ Y) with Y by set_solver. lia.
Qed.

Lemma size_remove (k : bytes) (Y : gset bytes) : Z.of_nat (base.size (Y ∖ {[k]})) = Z.of_nat (base.size Y) - (if bool_decide (k ∈ Y) then 1 else 0).
Proof.
  case_bool_decide as Hk.
  - pose proof (size_difference Y {[k]} ltac:(set_solver)) as Hd. rewrite size_singleton in Hd.
    pose proof (subseteq_size {[k]} Y ltac:(set_solver)) as Hs. rewrite size_singleton in Hs. lia.
  - replace (Y ∖ {[k]}) with Y by set_solver. lia.
Qed.

Lemma yields_size es X : yields es X -> exists ks, Forall2 element_stands es ks /\ NoDup ks /\ list_to_set ks = X /\ zlen ks = Z.of_nat (base.size X).
Proof. intros (ks & Hf & Hn & <-). exists ks. by rewrite size_list_to_set. Qed.

(** ** The store *)

Abbreviation store_sets := (gmap nat (gset bytes)).

Definition store_repr (seed max_intset_entries : Z) : sets -> store_sets -> Prop := represents (set_repr seed max_intset_entries).

Section Store.
Context (seed : Z) (can_resize : bool) (junk : nat -> Z) (junk_obj : robj) (max_intset_entries : Z).
Context (Hmax : 0 <= max_intset_entries < max_elements).
Abbreviation set_repr := (set_repr seed max_intset_entries).
Abbreviation store_repr := (store_repr seed max_intset_entries).
Abbreviation setTypeAdd := (setTypeAdd seed can_resize junk junk_obj max_intset_entries).
Abbreviation setTypeRemove := (setTypeRemove seed can_resize junk).
Abbreviation setTypeIsMember := (setTypeIsMember seed).

Lemma add_at h a p X o k : store_repr h a -> a !! p = Some X -> stands_for o k -> Z.of_nat (base.size X) < max_elements ->
  exists h', update_obj p (fun so => setTypeAdd so o) h = Some (bool_decide (k ∉ X), h') /\ store_repr h' (<[p := {[k]} ∪ X]> a).
Proof using All. intros Hh Hp Hk Hb. apply (update_at set_repr h a p X); [done..|]. intros so Hso. by apply setTypeAdd_spec. Qed.

Lemma remove_at h a p X o k : store_repr h a -> a !! p = Some X -> stands_for o k -> Z.of_nat (base.size X) <= max_elements ->
  exists h', update_obj p (fun so => setTypeRemove so o) h = Some (bool_decide (k ∈ X), h') /\ store_repr h' (<[p := X ∖ {[k]}]> a).
Proof using All. intros Hh Hp Hk Hb. apply (update_at set_repr h a p X); [done..|]. intros so Hso. by apply setTypeRemove_spec. Qed.

Lemma member_at h a p X o k : store_repr h a -> a !! p = Some X -> stands_for o k ->
  exists h', update_obj p (fun so => setTypeIsMember so o) h = Some (bool_decide (k ∈ X), h') /\ store_repr h' a.
Proof using All.
  intros Hh Hp Hk. apply (read_at set_repr h a p X); [done..|]. intros so Hso. by eapply setTypeIsMember_spec.
Qed.

Lemma elements_at h a p X : store_repr h a -> a !! p = Some X -> exists es, elements_of p h = Some es /\ yields es X.
Proof using Type.
  intros Hh Hp. destruct (Hh p X Hp) as (so & Hso & Hr). destruct (set_yields seed max_intset_entries so X Hr) as (es & Hes & Hy).
  exists es. unfold elements_of. rewrite Hso. by bind_simpl.
Qed.

Lemma size_at h a p X : store_repr h a -> a !! p = Some X -> set_size h p = Z.of_nat (base.size X).
Proof using Type.
  intros Hh Hp. destruct (Hh p X Hp) as (so & Hso & Hr). unfold set_size. rewrite Hso. simpl. by eapply setTypeSize_spec.
Qed.

(** ** The loops

    [f] gives the set at each address involved. *)
Context (f : nat -> gset bytes).
Definition known (a : store_sets) (p : nat) : Prop := a !! p = Some (f p).

(** A missing key is an empty set. *)
Definition g (o : option nat) : gset bytes := from_option f ∅ o.
Definition known_key (a : store_sets) (o : option nat) : Prop := from_option (known a) True o.

Lemma known_insert a q Y p : a !! q = None -> known a p -> known (<[q := Y]> a) p.
Proof using Type. unfold known. intros Hq Hp. rewrite lookup_insert_ne; [done|]. intros ->. congruence. Qed.

Lemma known_key_insert a q Y os : a !! q = None -> Forall (known_key a) os -> Forall (known_key (<[q := Y]> a)) os.
Proof using Type. intros Hq Hos. eapply Forall_impl; [exact Hos|]. intros [p|]; [by apply known_insert|done]. Qed.

Lemma element_int v k : element_stands (EleInt v) k -> srange 64 v /\ k = notation v.
Proof using Type. intros [Hv Hd]. split; [done|]. unfold notation. by rewrite (ll2string_decimal 32 v k). Qed.

Lemma intset_find_at s X v : set_repr (IntsetSet s) X -> srange 64 v -> intsetFind s v = Some (bool_decide (notation v ∈ X)).
Proof using Type. intros Hr Hv. inversion Hr; subst. by apply is_find_spec. Qed.

Lemma inter_member_at h a p e k : store_repr h a -> known a p -> element_stands e k ->
  exists h', inter_member seed p e h = Some (bool_decide (k ∈ f p), h') /\ store_repr h' a.
Proof using All.
  intros Hh Hp He. destruct (Hh p _ Hp) as (so & Hso & Hr).
  destruct (member_at h a p _ (element_object e) k Hh Hp He) as (h' & Hu & Hh'). unfold inter_member. rewrite Hso. bind_simpl.
  destruct e as [v|o].
  - apply element_int in He as [Hv ->]. destruct so as [s|d]; [|by exists h'].
    rewrite (intset_find_at s _ v Hr Hv). bind_simpl. by exists h.
  - destruct o as [b|v|]; destruct so as [s|d]; bind_simpl; cbv beta iota; try (by exists h').
    pose proof He as He'. apply (element_int v) in He' as [Hv ->]. rewrite (intset_find_at s _ v Hr Hv). bind_simpl.
    case_bool_decide as Hin; [|by exists h]. exists h'. split; [|done]. cbn [element_object] in Hu. rewrite Hu. done.
Qed.

Definition in_all (ps : list nat) (k : bytes) : Prop := Forall (fun p => k ∈ f p) ps.
#[export] Instance in_all_dec ps k : Decision (in_all ps k).
Proof using Type. apply Forall_dec. intros p. apply _. Defined.

Lemma inter_all_at h a p0 ps e k : store_repr h a -> Forall (known a) ps -> element_stands e k -> k ∈ f p0 ->
  exists h', inter_all seed p0 ps e h = Some (bool_decide (in_all ps k), h') /\ store_repr h' a.
Proof using All.
  intros Hh Hps He Hk. revert h Hh. induction Hps as [|p ps Hp _ IH]; intros h Hh; cbn [inter_all]; [by exists h|].
  assert (in_all (p :: ps) k <-> k ∈ f p /\ in_all ps k) as Hc by (unfold in_all; by rewrite Forall_cons).
  destruct (bool_decide_reflect (p = p0)) as [->|Hne].
  - destruct (IH h Hh) as (h' & -> & Hh'). exists h'. split; [|done]. do 2 f_equal. apply bool_decide_ext. tauto.
  - destruct (inter_member_at h a p e k Hh Hp He) as (h1 & -> & Hh1). bind_simpl. destruct (bool_decide_reflect (k ∈ f p)) as [Hin|Hin].
    + destruct (IH h1 Hh1) as (h' & -> & Hh'). exists h'. split; [|done]. do 2 f_equal. apply bool_decide_ext. tauto.
    + exists h1. split; [|done]. rewrite bool_decide_false; [done|]. tauto.
Qed.

Lemma add_elements_at q es ks h a Y : store_repr h (<[q := Y]> a) -> Forall2 element_stands es ks ->
  Z.of_nat (base.size Y) + zlen ks <= max_elements ->
  exists h', add_elements seed can_resize junk junk_obj max_intset_entries q es (Z.of_nat (base.size Y)) h =
      Some (Z.of_nat (base.size (list_to_set ks ∪ Y)), h') /\ store_repr h' (<[q := list_to_set ks ∪ Y]> a).
Proof using All.
  intros Hh Hes. revert h Y Hh. induction Hes as [|e k es ks He _ IH]; intros h Y Hh Hb; cbn [add_elements list_to_set length] in *.
  { exists h. by rewrite union_empty_l_L. }
  destruct (add_at h _ q Y (element_object e) k Hh ltac:(apply lookup_insert_eq) He ltac:(lia)) as (h1 & -> & Hh1). bind_simpl.
  rewrite insert_insert_eq in Hh1. pose proof (size_add k Y) as Hs.
  destruct (IH h1 _ Hh1) as (h' & Ha & Hh'); [case_bool_decide; lia|].
  replace ({[k]} ∪ list_to_set ks ∪ Y) with (list_to_set ks ∪ ({[k]} ∪ Y)) by set_solver.
  exists h'. split; [|done]. rewrite <- Ha. f_equal. case_bool_decide; lia.
Qed.

Lemma remove_elements_at q es ks h a Y : store_repr h (<[q := Y]> a) -> Forall2 element_stands es ks ->
  Z.of_nat (base.size Y) <= max_elements ->
  exists h', remove_elements seed can_resize junk q es (Z.of_nat (base.size Y)) h =
      Some (Z.of_nat (base.size (Y ∖ list_to_set ks)), h') /\ store_repr h' (<[q := Y ∖ list_to_set ks]> a).
Proof using All.
  intros Hh Hes. revert h Y Hh. induction Hes as [|e k es ks He _ IH]; intros h Y Hh Hb; cbn [remove_elements list_to_set] in *.
  { exists h. by rewrite difference_empty_L. }
  destruct (remove_at h _ q Y (element_object e) k Hh ltac:(apply lookup_insert_eq) He Hb) as (h1 & -> & Hh1). bind_simpl.
  rewrite insert_insert_eq in Hh1. pose proof (size_remove k Y) as Hs.
  destruct (IH h1 _ Hh1) as (h' & Ha & Hh'); [case_bool_decide; lia|].
  replace (Y ∖ ({[k]} ∪ list_to_set ks)) with (Y ∖ {[k]} ∖ list_to_set ks) by set_solver.
  exists h'. split; [|done]. rewrite <- Ha. f_equal. case_bool_decide; lia.
Qed.

(** The union of the sets of some keys, and the sum of their sizes. *)
Definition union_of (os : list (option nat)) : gset bytes := ⋃ (g <$> os).
Definition total_size (os : list (option nat)) : Z := foldr (fun o n => Z.of_nat (base.size (g o)) + n) 0 os.

Lemma total_size_nonneg os : 0 <= total_size os.
Proof using Type. clear. induction os as [|o os IH]; simpl; lia. Qed.

Lemma total_size_cons o os : total_size (o :: os) = Z.of_nat (base.size (g o)) + total_size os.
Proof using Type. done. Qed.

Lemma union_of_cons o os : union_of (o :: os) = g o ∪ union_of os.
Proof using Type. done. Qed.

Lemma known_key_cons a p os : Forall (known_key a) (Some p :: os) -> known a p /\ Forall (known_key a) os.
Proof using Type. intros H%Forall_cons. exact H. Qed.

Lemma union_loop_at q os h a Y : a !! q = None -> store_repr h (<[q := Y]> a) -> Forall (known_key a) os ->
  Z.of_nat (base.size Y) + total_size os <= max_elements ->
  exists h', union_loop seed can_resize junk junk_obj max_intset_entries q os (Z.of_nat (base.size Y)) h =
      Some (Z.of_nat (base.size (union_of os ∪ Y)), h') /\ store_repr h' (<[q := union_of os ∪ Y]> a).
Proof using All.
  intros Hq. revert h Y. induction os as [|[p|] os IH]; intros h Y Hh Hos Hb; cbn [union_loop];
    rewrite ?total_size_cons in Hb; rewrite ?union_of_cons; cbn [g from_option] in *.
  - exists h. unfold union_of. simpl. by rewrite union_empty_l_L.
  - apply known_key_cons in Hos as [Hp Hos].
    destruct (elements_at h _ p _ Hh (known_insert a q Y p Hq Hp)) as (es & -> & Hy). bind_simpl.
    destruct (yields_size es _ Hy) as (ks & Hf & Hn & Hset & Hl). pose proof (total_size_nonneg os).
    destruct (add_elements_at q es ks h a Y Hh Hf ltac:(lia)) as (h1 & -> & Hh1). bind_simpl. rewrite Hset in *.
    pose proof (size_union_alt (f p) Y). pose proof (subseteq_size (Y ∖ f p) Y ltac:(set_solver)).
    destruct (IH h1 _ Hh1 Hos ltac:(lia)) as (h' & -> & Hh'). exists h'.
    by replace (f p ∪ union_of os ∪ Y) with (union_of os ∪ (f p ∪ Y)) by set_solver.
  - apply Forall_cons in Hos as [_ Hos]. rewrite size_empty in Hb.
    destruct (IH h Y Hh Hos ltac:(lia)) as (h' & -> & Hh'). exists h'.
    by rewrite union_empty_l_L.
Qed.

Definition in_none (os : list (option nat)) (k : bytes) : Prop := Forall (fun o => k ∉ g o) os.
#[export] Instance in_none_dec os k : Decision (in_none os k).
Proof using Type. apply Forall_dec. intros o. apply _. Defined.

Lemma in_none_union os k : in_none os k <-> k ∉ union_of os.
Proof using Type.
  clear. unfold in_none, union_of. rewrite elem_of_union_list, Forall_forall. split.
  - intros Hk (X & (o & -> & Ho)%list_elem_of_fmap & Hin). by apply (Hk o Ho).
  - intros Hk o Ho Hin. apply Hk. exists (g o). split; [|done]. apply list_elem_of_fmap. eauto.
Qed.

Lemma diff_none_at h a p0 os e k : store_repr h a -> Forall (known_key a) os -> element_stands e k -> k ∈ f p0 ->
  exists h', diff_none seed p0 os e h = Some (bool_decide (in_none os k), h') /\ store_repr h' a.
Proof using All.
  intros Hh Hos He Hk. revert h Hh. induction os as [|o os IH]; intros h Hh; [by exists h|].
  assert (in_none (o :: os) k <-> (k ∉ g o) /\ in_none os k) as Hc by (unfold in_none; by rewrite Forall_cons).
  apply Forall_cons in Hos as [Ho Hos]. destruct o as [p|]; cbn [diff_none].
  - cbn [g from_option] in Hc. destruct (bool_decide_reflect (p = p0)) as [->|Hne].
    { exists h. rewrite bool_decide_false by tauto. done. }
    destruct (member_at h a p _ (element_object e) k Hh Ho He) as (h1 & -> & Hh1). bind_simpl.
    destruct (bool_decide_reflect (k ∈ f p)) as [Hin|Hin].
    + exists h1. rewrite bool_decide_false by tauto. done.
    + destruct (IH Hos h1 Hh1) as (h' & -> & Hh'). exists h'. split; [|done]. do 2 f_equal. apply bool_decide_ext. tauto.
  - destruct (IH Hos h Hh) as (h' & -> & Hh'). exists h'. split; [|done]. do 2 f_equal. apply bool_decide_ext. rewrite Hc.
    split; [|tauto]. intros ?. split; [apply not_elem_of_empty|done].
Qed.

(** The loops that copy the members of the first set that pass a test. *)
Definition chosen (P : bytes -> Prop) `{!(forall k, Decision (P k))} (ks : list bytes) : gset bytes := list_to_set (filter P ks).

Lemma chosen_cons (P : bytes -> Prop) `{!(forall k, Decision (P k))} k ks :
  chosen P (k :: ks) = if bool_decide (P k) then {[k]} ∪ chosen P ks else chosen P ks.
Proof using Type. unfold chosen. rewrite filter_cons. case_bool_decide; case_decide; done. Qed.

Lemma add_chosen q h a Y e k : store_repr h (<[q := Y]> a) -> element_stands e k -> Z.of_nat (base.size Y) < max_elements ->
  exists h' b, update_obj q (fun so => setTypeAdd so (element_object e)) h = Some (b, h') /\ store_repr h' (<[q := {[k]} ∪ Y]> a).
Proof using All.
  intros Hh He Hb. destruct (add_at h _ q Y (element_object e) k Hh ltac:(apply lookup_insert_eq) He Hb) as (h1 & -> & Hh1).
  rewrite insert_insert_eq in Hh1. by exists h1, (bool_decide (k ∉ Y)).
Qed.

Lemma diff_one_loop_at q p0 os es ks h a Y : a !! q = None -> store_repr h (<[q := Y]> a) -> Forall (known_key a) os ->
  Forall2 element_stands es ks -> NoDup ks -> Forall (fun k => k ∈ f p0 /\ k ∉ Y) ks ->
  Z.of_nat (base.size Y) + zlen ks <= max_elements ->
  exists h', diff_one_loop seed can_resize junk junk_obj max_intset_entries q p0 os es (Z.of_nat (base.size Y)) h =
      Some (Z.of_nat (base.size (chosen (in_none os) ks ∪ Y)), h') /\ store_repr h' (<[q := chosen (in_none os) ks ∪ Y]> a).
Proof using All.
  intros Hq Hh Hos Hes. revert h Y Hh. induction Hes as [|e k es ks He _ IH]; intros h Y Hh Hn Hks Hb.
  { exists h. unfold chosen. simpl. by rewrite union_empty_l_L. }
  apply NoDup_cons in Hn as [Hk Hn]. apply Forall_cons in Hks as [[Hkf HkY] Hks]. cbn [length] in Hb. cbn [diff_one_loop].
  destruct (diff_none_at h (<[q := Y]> a) p0 os e k Hh (known_key_insert a q Y os Hq Hos) He Hkf) as (h1 & -> & Hh1). bind_simpl.
  rewrite chosen_cons. destruct (bool_decide_reflect (in_none os k)) as [Hin|Hin].
  - destruct (add_chosen q h1 a Y e k Hh1 He ltac:(lia)) as (h2 & b & -> & Hh2). bind_simpl.
    pose proof (size_add k Y) as Hs. rewrite bool_decide_true in Hs by done.
    destruct (IH h2 ({[k]} ∪ Y) Hh2 Hn) as (h' & Hl & Hh'); [|lia|].
    { rewrite Forall_forall in Hks |- *. intros k' Hk'. destruct (Hks k' Hk') as [? ?]. split; [done|].
      apply not_elem_of_union. split; [|done]. intros ->%elem_of_singleton. done. }
    rewrite Hs in Hl. rewrite Hl. exists h'.
    by replace ({[k]} ∪ chosen (in_none os) ks ∪ Y) with (chosen (in_none os) ks ∪ ({[k]} ∪ Y)) by set_solver.
  - apply IH; [done..|lia].
Qed.

Lemma diff_two_rest q os h a Y : a !! q = None -> store_repr h (<[q := Y]> a) -> Forall (known_key a) os ->
  Z.of_nat (base.size Y) <= max_elements ->
  exists h', diff_two_loop seed can_resize junk junk_obj max_intset_entries q false os (Z.of_nat (base.size Y)) h =
      Some (Z.of_nat (base.size (Y ∖ union_of os)), h') /\ store_repr h' (<[q := Y ∖ union_of os]> a).
Proof using All.
  intros Hq. revert h Y. induction os as [|[p|] os IH]; intros h Y Hh Hos Hb; cbn [diff_two_loop]; rewrite ?union_of_cons; cbn [g from_option].
  - exists h. unfold union_of. simpl. by rewrite difference_empty_L.
  - apply known_key_cons in Hos as [Hp Hos].
    destruct (elements_at h _ p _ Hh (known_insert a q Y p Hq Hp)) as (es & -> & Hy). bind_simpl.
    destruct (yields_size es _ Hy) as (ks & Hf & Hn & Hset & Hl).
    destruct (remove_elements_at q es ks h a Y Hh Hf Hb) as (h1 & -> & Hh1). bind_simpl. rewrite Hset in *.
    replace (Y ∖ (f p ∪ union_of os)) with (Y ∖ f p ∖ union_of os) by set_solver.
    destruct (bool_decide_reflect (Z.of_nat (base.size (Y ∖ f p)) = 0)) as [H0|H0].
    + assert (Y ∖ f p = ∅) as He by (apply leibniz_equiv, size_empty_iff; lia). rewrite He in *.
      replace (∅ ∖ union_of os) with (∅ : gset bytes) by set_solver. by exists h1.
    + apply IH; [done..|]. pose proof (subseteq_size (Y ∖ f p) Y ltac:(set_solver)). lia.
  - apply Forall_cons in Hos as [_ Hos]. destruct (IH h Y Hh Hos Hb) as (h' & -> & Hh'). exists h'.
    by rewrite union_empty_l_L.
Qed.

Lemma diff_two_loop_at q p0 os h a : a !! q = None -> store_repr h (<[q := ∅]> a) -> Forall (known_key a) (Some p0 :: os) ->
  Z.of_nat (base.size (f p0)) <= max_elements ->
  exists h', diff_two_loop seed can_resize junk junk_obj max_intset_entries q true (Some p0 :: os) 0 h =
      Some (Z.of_nat (base.size (f p0 ∖ union_of os)), h') /\ store_repr h' (<[q := f p0 ∖ union_of os]> a).
Proof using All.
  intros Hq Hh [Hp Hos]%known_key_cons Hb. cbn [diff_two_loop].
  destruct (elements_at h _ p0 _ Hh (known_insert a q ∅ p0 Hq Hp)) as (es & -> & Hy). bind_simpl.
  destruct (yields_size es _ Hy) as (ks & Hf & Hn & Hset & Hl).
  destruct (add_elements_at q es ks h a ∅ Hh Hf ltac:(rewrite size_empty; lia)) as (h1 & Ha & Hh1).
  rewrite size_empty in Ha. change (Z.of_nat 0) with 0 in Ha. rewrite Ha. bind_simpl. rewrite Hset, union_empty_r_L in *.
  destruct (bool_decide_reflect (Z.of_nat (base.size (f p0)) = 0)) as [H0|H0]; [|by apply diff_two_rest].
  assert (f p0 = ∅) as He by (apply leibniz_equiv, size_empty_iff; lia). rewrite He in *.
  replace (∅ ∖ union_of os) with (∅ : gset bytes) by set_solver. by exists h1.
Qed.

(** What the temporary set holds. *)
Definition op_meaning (op : set_op) (os : list (option nat)) : gset bytes :=
  match op, os with
  | REDIS_OP_UNION, _ => union_of os
  | REDIS_OP_DIFF, [] => ∅
  | REDIS_OP_DIFF, o :: os => g o ∖ union_of os
  end.

Lemma fill_set_at op one q os h a : a !! q = None -> store_repr h (<[q := ∅]> a) -> Forall (known_key a) os ->
  total_size os <= max_elements ->
  exists h', fill_set seed can_resize junk junk_obj max_intset_entries op one q os h =
      Some (Z.of_nat (base.size (op_meaning op os)), h') /\ store_repr h' (<[q := op_meaning op os]> a).
Proof using All.
  intros Hq Hh Hos Hb. destruct op; cbn [fill_set].
  - pose proof (union_loop_at q os h a ∅ Hq Hh Hos) as Hu. rewrite size_empty, union_empty_r_L in Hu. apply Hu. done.
  - destruct os as [|[p0|] os]; cbn [op_meaning g from_option].
    + exists h. by rewrite size_empty.
    + rewrite total_size_cons in Hb. cbn [g from_option] in Hb. pose proof (total_size_nonneg os). destruct one.
      * apply known_key_cons in Hos as [Hp Hos].
        destruct (elements_at h _ p0 _ Hh (known_insert a q ∅ p0 Hq Hp)) as (es & -> & Hy). bind_simpl.
        destruct (yields_size es _ Hy) as (ks & Hf & Hn & Hset & Hl).
        destruct (diff_one_loop_at q p0 os es ks h a ∅ Hq Hh Hos Hf Hn) as (h' & Hd & Hh').
        -- apply Forall_forall. intros k Hk. rewrite <- Hset. split; [by apply elem_of_list_to_set|apply not_elem_of_empty].
        -- rewrite size_empty. lia.
        -- rewrite size_empty, union_empty_r_L in Hd. rewrite union_empty_r_L in Hh'.
           assert (chosen (in_none os) ks = f p0 ∖ union_of os) as E; [|rewrite E in *; by exists h'].
           unfold chosen. apply set_eq. intros k. rewrite elem_of_list_to_set, list_elem_of_filter, in_none_union, elem_of_difference, <- Hset, elem_of_list_to_set. tauto.
      * apply diff_two_loop_at; [done..|lia].
    + replace (∅ ∖ union_of os) with (∅ : gset bytes) by set_solver. exists h. by rewrite size_empty.
Qed.

(** SINTERSTORE copies the members into the destination. *)
Lemma inter_loop_store c q p0 ps es ks s h a Y card (Q : Z -> server -> sets -> Prop) :
  a !! q = None -> store_repr h (<[q := Y]> a) -> Forall (known a) ps ->
  Forall2 element_stands es ks -> Forall (fun k => k ∈ f p0) ks -> Z.of_nat (base.size Y) + zlen ks <= max_elements ->
  (forall h', store_repr h' (<[q := chosen (in_all ps) ks ∪ Y]> a) -> Q card s h') ->
  swp (inter_loop seed can_resize junk junk_obj max_intset_entries c (Some q) p0 ps es card) Q s h.
Proof using All.
  intros Hq Hh Hps Hes. revert h Y Hh. induction Hes as [|e k es ks He _ IH]; intros h Y Hh Hks Hb HQ.
  { apply swp_ret, HQ. unfold chosen. simpl. by rewrite union_empty_l_L. }
  apply Forall_cons in Hks as [Hk Hks]. cbn [length] in Hb. cbn [inter_loop].
  destruct (inter_all_at h (<[q := Y]> a) p0 ps e k Hh) as (h1 & Hi & Hh1); [|done..|].
  { eapply Forall_impl; [exact Hps|]. intros p. by apply known_insert. }
  apply swp_bind. eapply swp_on_store; [exact Hi|]. rewrite chosen_cons in HQ.
  destruct (bool_decide_reflect (in_all ps k)) as [Hin|Hin].
  - destruct (add_chosen q h1 a Y e k Hh1 He ltac:(lia)) as (h2 & b & Hu & Hh2).
    apply swp_bind. eapply swp_on_store; [exact Hu|]. pose proof (size_add k Y).
    apply (IH h2 ({[k]} ∪ Y)); [done..|case_bool_decide; lia|].
    intros h' Hh'. apply HQ. by replace ({[k]} ∪ chosen (in_all ps) ks ∪ Y) with (chosen (in_all ps) ks ∪ ({[k]} ∪ Y)) by set_solver.
  - apply (IH h1 Y); [done..|lia|done].
Qed.

(** ** Replies *)

Section Replies.
Context (conf : config) (c : client_id) (d : nat) (av : list bytes).
Abbreviation at_state := (at_state conf c d av).

Lemma reply_object_at o k (Q : unit -> server -> Prop) dbs reply n s : stands_for o k -> at_state dbs reply n s ->
  (forall s', at_state dbs (reply ++ [ReplyBulk k]) n s' -> Q tt s') -> wp (addReplyBulk c o) Q s.
Proof using Type.
  clear. intros Ho Hs HQ. apply wp_bind. eapply wp_lift; [by apply stands_decoded|]. by eapply addReply_at.
Qed.

Lemma reply_element_at e k (Q : unit -> server -> Prop) dbs reply n s : element_stands e k -> at_state dbs reply n s ->
  (forall s', at_state dbs (reply ++ [ReplyBulk k]) n s' -> Q tt s') -> wp (reply_element c e) Q s.
Proof using Type.
  clear. destruct e as [v|o]; intros He Hs HQ; cbn [reply_element]; [|by eapply reply_object_at].
  apply wp_bind. destruct He as [Hv Hd]. eapply wp_lift; [by apply ll2string_decimal|]. by eapply addReply_at.
Qed.

Lemma reply_members_at es ks (Q : unit -> server -> Prop) dbs reply n s : Forall2 element_stands es ks -> at_state dbs reply n s ->
  (forall s', at_state dbs (reply ++ (ReplyBulk <$> ks)) n s' -> Q tt s') -> wp (reply_members c es) Q s.
Proof using Type.
  clear. intros Hes. revert reply s. induction Hes as [|e k es ks He _ IH]; intros reply s Hs HQ; cbn [reply_members fmap list_fmap] in *.
  { apply wp_ret, HQ. by rewrite app_nil_r. }
  apply wp_bind. eapply reply_object_at; [exact He|exact Hs|]. intros s1 Hs1. eapply IH; [exact Hs1|].
  intros s2 Hs2. apply HQ. by rewrite <- app_assoc in Hs2.
Qed.

Lemma inter_loop_reply p0 ps es ks s h a card dbs reply n (Q : Z -> server -> sets -> Prop) :
  store_repr h a -> at_state dbs reply n s -> Forall (known a) ps -> Forall2 element_stands es ks -> Forall (fun k => k ∈ f p0) ks ->
  (forall s' h', store_repr h' a -> at_state dbs (reply ++ (ReplyBulk <$> filter (in_all ps) ks)) n s' ->
    Q (card + zlen (filter (in_all ps) ks)) s' h') ->
  swp (inter_loop seed can_resize junk junk_obj max_intset_entries c None p0 ps es card) Q s h.
Proof using All.
  intros Hh Hs Hps Hes. revert s h card reply Hh Hs. induction Hes as [|e k es ks He _ IH]; intros s h card reply Hh Hs Hks HQ.
  { apply swp_ret. replace card with (card + zlen (filter (in_all ps) [])) by (simpl; lia). apply HQ; [done|]. simpl. by rewrite app_nil_r. }
  apply Forall_cons in Hks as [Hk Hks]. cbn [inter_loop].
  destruct (inter_all_at h a p0 ps e k Hh Hps He Hk) as (h1 & Hi & Hh1).
  apply swp_bind. eapply swp_on_store; [exact Hi|]. rewrite filter_cons in HQ.
  destruct (bool_decide_reflect (in_all ps k)) as [Hin|Hin].
  - rewrite decide_True in HQ by done. apply swp_bind, swp_srv. eapply reply_element_at; [exact He|exact Hs|].
    intros s1 Hs1. apply (IH s1 h1 _ _ Hh1 Hs1 Hks). intros s' h' Hh' Hs'.
    replace (card + 1 + zlen (filter (in_all ps) ks)) with (card + zlen (k :: filter (in_all ps) ks)) by (cbn [length]; lia).
    apply HQ; [done|]. by rewrite <- app_assoc in Hs'.
  - rewrite decide_False in HQ by done. by apply (IH s h1 _ _ Hh1 Hs Hks).
Qed.

Lemma deferred_at (Q : nat -> server -> Prop) dbs reply n s : at_state dbs reply n s ->
  (forall s', at_state dbs (reply ++ [ReplyMultiBulkLen 0]) n s' -> Q (length reply) s') -> wp (addDeferredMultiBulkLength c) Q s.
Proof using Type.
  clear. intros Hs HQ. apply wp_bind. pose proof Hs as [_ (cl & Hc & _ & _ & Hr) _ _]. eapply wp_client; [done|].
  apply wp_bind. eapply addReply_at; [exact Hs|]. intros s1 Hs1. apply wp_ret. rewrite Hr. by apply HQ.
Qed.

Lemma set_deferred_at m (Q : unit -> server -> Prop) dbs reply r0 rs n s : at_state dbs (reply ++ r0 :: rs) n s ->
  (forall s', at_state dbs (reply ++ ReplyMultiBulkLen m :: rs) n s' -> Q tt s') -> wp (setDeferredMultiBulkLength c (length reply) m) Q s.
Proof using Type.
  clear. intros [Hdb (cl & Hc & Hd & Hav & Hr) Hn Hcf] HQ. apply HQ. constructor; [done| |done|done].
  eexists. simpl. rewrite lookup_alter_eq, Hc. split; [done|]. simpl. rewrite Hr. split; [done|]. split; [done|].
  replace (length reply) with (length reply + 0)%nat by lia. by rewrite insert_app_r.
Qed.
End Replies.
End Store.
