(* ===== verification/SetProperties.v ===== *)
(** * What the set commands compute

    Results of whole commands, for any encodings of the sets involved and any
    order in which the C library sorts them. *)
From Stdlib Require Import String.
From stdpp Require Import sorting.
#[local] Set Warnings "-clear-no-such-hyp".
From S2P Require Import Prelude Util Intset Dict DictIter Sds Server StringCommands SetType SetSpecs SetCommands.
From S2P Require Import ServerLogic ServerProperties StringSpecs ObjectStore SetCommandLogic.

(** The set under a key: no set is an empty one. *)
Definition stored (a : store_sets) (db : redisDb) (k : bytes) (X : gset bytes) : Prop :=
  match db_dict db !! k with None => X = ∅ | Some o => exists p, o = Other REDIS_SET p /\ a !! p = Some X end.

(** Its address. *)
Definition address (a : store_sets) (db : redisDb) (k : bytes) (o : option nat) : Prop :=
  match db_dict db !! k with None => o = None | Some v => exists p, v = Other REDIS_SET p /\ o = Some p /\ is_Some (a !! p) end.

Definition contents (a : store_sets) (p : nat) : gset bytes := default ∅ (a !! p).

Lemma known_contents a p : is_Some (a !! p) -> known (contents a) a p.
Proof. intros [X Hp]. unfold known, contents. by rewrite Hp. Qed.

Lemma stored_addresses a db keys Xs : Forall2 (stored a db) keys Xs -> exists os, Forall2 (address a db) keys os /\
  Xs = g (contents a) <$> os /\ Forall (known_key (contents a) a) os.
Proof.
  induction 1 as [|k X keys Xs Hk _ (os & Hos & -> & Hkn)]; [by exists []|]. unfold stored in Hk.
  destruct (db_dict db !! k) as [o|] eqn:E.
  - destruct Hk as (p & -> & Hp). exists (Some p :: os). split_and!.
    + constructor; [|done]. unfold address. rewrite E. eauto.
    + rewrite fmap_cons. cbn [g from_option]. f_equal. unfold contents. by rewrite Hp.
    + constructor; [|done]. exact (known_contents a p (mk_is_Some _ _ Hp)).
  - subst. exists (None :: os). split_and!; [|done|by constructor]. constructor; [|done]. unfold address. by rewrite E.
Qed.

Section Lookups.
Context (clock : nat -> Z) (conf : config) (c : client_id) (d : nat) (av : list bytes).
Abbreviation at_state := (at_state conf c d av).

Lemma lookup_set_at dstkey k db Q dbs reply n s :
  at_state dbs reply n s -> dbs !! d = Some db -> remains clock conf db k ->
  (forall s', at_state dbs reply n s' -> Q (db_dict db !! k) s') -> wp (lookup_set clock dstkey d k) Q s.
Proof.
  intros Hs Hl He HQ. destruct dstkey; cbn [lookup_set]; [|by eapply lookupKeyRead_at]. by eapply lookupKeyWrite_at.
Qed.

Lemma set_type_at p (Q : bool -> server -> Prop) dbs reply n s : at_state dbs reply n s -> Q false s -> wp (checkType c (Other REDIS_SET p) REDIS_SET) Q s.
Proof. intros Hs HQ. eapply checkType_at; [exact Hs|]. by rewrite bool_decide_true. Qed.

(** What is done when a set of an intersection is missing. *)
Definition missing_dbs (dstkey : option bytes) (dbs : list redisDb) : list redisDb :=
  match dstkey with Some dst => alter (without dst) d dbs | None => dbs end.
Definition missing_reply (dstkey : option bytes) : redis_reply :=
  match dstkey with Some _ => ReplyInt 0 | None => ReplyMultiBulkLen 0 end.
Definition missing_dirty (dstkey : option bytes) (db : redisDb) : Z :=
  match dstkey with Some dst => Z.b2z (bool_decide (is_Some (db_dict db !! dst))) | None => 0 end.

Lemma missing_at dstkey db dbs reply n s h (Q : unit -> server -> sets -> Prop) :
  at_state dbs reply n s -> dbs !! d = Some db ->
  (forall s', at_state (missing_dbs dstkey dbs) (reply ++ [missing_reply dstkey]) (n + missing_dirty dstkey db) s' -> Q tt s' h) ->
  swp (match dstkey with
       | Some dst =>
           deleted ← srv (dbDelete d dst);
           (if (deleted : bool) then srv (signalModifiedKey d dst);; srv (add_dirty 1) else mret tt);;
           srv (addReply c czero)
       | None => srv (addReply c emptymultibulk)
       end) Q s h.
Proof.
  intros Hs Hl HQ. destruct dstkey as [dst|]; cbn [missing_dbs missing_reply missing_dirty] in HQ.
  - apply swp_bind, swp_srv. eapply dbDelete_at; [exact Hs|exact Hl|]. intros s1 Hs1. apply swp_bind.
    destruct (bool_decide_reflect (is_Some (db_dict db !! dst))); cbn [Z.b2z] in HQ.
    + apply swp_bind, swp_srv. eapply signal_at; [|exact Hs1|].
      { rewrite length_alter. by eapply lookup_lt_Some. }
      intros s2 Hs2. apply swp_srv. eapply add_dirty_at; [exact Hs2|]. intros s3 Hs3. apply swp_srv. by eapply addReply_at.
    + apply swp_ret, swp_srv. eapply addReply_at; [exact Hs1|]. intros s2 Hs2. apply HQ. by rewrite Z.add_0_r.
  - apply swp_srv. eapply addReply_at; [exact Hs|]. intros s2 Hs2. apply HQ. by rewrite Z.add_0_r.
Qed.

Lemma inter_sets_at a dstkey keys os ps db dbs reply n s h (Q : option (list nat) -> server -> sets -> Prop) :
  at_state dbs reply n s -> dbs !! d = Some db -> Forall (remains clock conf db) keys ->
  Forall2 (address a db) keys os ->
  (forall qs s', os = Some <$> qs -> at_state dbs reply n s' -> Q (Some (ps ++ qs)) s' h) ->
  (forall s', None ∈ os -> at_state (missing_dbs dstkey dbs) (reply ++ [missing_reply dstkey]) (n + missing_dirty dstkey db) s' -> Q None s' h) ->
  swp (inter_sets clock c d dstkey keys ps) Q s h.
Proof.
  intros Hs Hl He Hos. revert s ps Hs. induction Hos as [|k o keys os Hk _ IH]; intros s ps Hs Hall Hmiss; cbn [inter_sets].
  { apply swp_ret. rewrite <- (app_nil_r ps). by apply Hall. }
  apply Forall_cons in He as [Hek He]. apply swp_bind, swp_srv. eapply lookup_set_at; [exact Hs|exact Hl|exact Hek|]. clear s Hs. intros s Hs.
  unfold address in Hk. destruct (db_dict db !! k) as [v|] eqn:E.
  - destruct Hk as (p & -> & -> & _). apply swp_bind, swp_srv. eapply set_type_at; [exact Hs|]. apply swp_bind. eapply swp_lift; [done|].
    apply (IH He s (ps ++ [p]) Hs).
    + intros qs s' -> Hs'. rewrite <- app_assoc. by apply (Hall (p :: qs)).
    + intros s' Hin. apply Hmiss. by apply list_elem_of_further.
  - subst o. apply swp_bind. eapply missing_at; [exact Hs|exact Hl|]. intros s' Hs'. apply swp_ret, Hmiss; [apply list_elem_of_here|done].
Qed.

Lemma union_sets_at a dstkey keys os ps db dbs reply n s h (Q : option (list (option nat)) -> server -> sets -> Prop) :
  at_state dbs reply n s -> dbs !! d = Some db -> Forall (remains clock conf db) keys ->
  Forall2 (address a db) keys os ->
  (forall s', at_state dbs reply n s' -> Q (Some (ps ++ os)) s' h) ->
  swp (union_sets clock c d dstkey keys ps) Q s h.
Proof.
  intros Hs Hl He Hos. revert s ps Hs. induction Hos as [|k o keys os Hk _ IH]; intros s ps Hs HQ; cbn [union_sets].
  { apply swp_ret. rewrite app_nil_r in HQ. by apply HQ. }
  apply Forall_cons in He as [Hek He]. apply swp_bind, swp_srv. eapply lookup_set_at; [exact Hs|exact Hl|exact Hek|]. clear s Hs. intros s Hs.
  unfold address in Hk. destruct (db_dict db !! k) as [v|] eqn:E.
  - destruct Hk as (p & -> & -> & _). apply swp_bind, swp_srv. eapply set_type_at; [exact Hs|]. apply swp_bind. eapply swp_lift; [done|].
    apply (IH He s (ps ++ [Some p]) Hs). by rewrite <- app_assoc.
  - subst o. apply (IH He s (ps ++ [None]) Hs). by rewrite <- app_assoc.
Qed.
End Lookups.

(** ** The algebra of sets *)

Inductive set_command := SINTER | SUNION | SDIFF.

Definition meaning (cmd : set_command) (Xs : list (gset bytes)) : gset bytes :=
  match cmd, Xs with
  | SUNION, _ => ⋃ Xs
  | _, [] => ∅
  | SINTER, X :: Xs => foldr intersection X Xs
  | SDIFF, X :: Xs => X ∖ ⋃ Xs
  end.

Definition sizes (Xs : list (gset bytes)) : Z := foldr (fun X n => Z.of_nat (base.size X) + n) 0 Xs.

Lemma elem_of_foldr_inter (k : bytes) (X : gset bytes) Xs : k ∈ foldr intersection X Xs <-> Forall (fun Y => k ∈ Y) (X :: Xs).
Proof.
  induction Xs as [|Y Xs IH]; cbn [foldr].
  - rewrite Forall_cons. split; [by intros|tauto].
  - rewrite elem_of_intersection, IH, !Forall_cons. tauto.
Qed.

Lemma sizes_total f os : sizes (g f <$> os) = total_size f os.
Proof. unfold sizes, total_size. induction os as [|o os IH]; [done|]. cbn [fmap list_fmap foldr]. by rewrite <- IH. Qed.

(** The members of the first set that are in the others, whatever the order. *)
Lemma inter_chosen f p0 ps qs ks : qs ≡ₚ p0 :: ps -> list_to_set ks = f p0 ->
  chosen (in_all f ps) ks = meaning SINTER (f <$> qs).
Proof.
  intros Hp Hset. apply set_eq. intros k. unfold chosen. rewrite elem_of_list_to_set, list_elem_of_filter.
  assert (k ∈ ks <-> k ∈ f p0) as -> by by rewrite <- Hset, elem_of_list_to_set.
  assert (k ∈ meaning SINTER (f <$> qs) <-> in_all f qs k) as ->.
  { destruct qs as [|q qs]; [by apply Permutation_nil_cons in Hp|]. cbn [fmap list_fmap meaning].
    rewrite elem_of_foldr_inter, !Forall_cons, Forall_fmap. unfold in_all. rewrite Forall_cons. done. }
  unfold in_all. rewrite Hp, Forall_cons. tauto.
Qed.

Lemma inter_missing f os : None ∈ os -> meaning SINTER (g f <$> os) = ∅.
Proof.
  intros Hin. apply set_eq. intros k. split; [|by intros ?%elem_of_empty].
  destruct os as [|o os]; [by apply elem_of_nil in Hin|]. cbn [fmap list_fmap meaning]. rewrite elem_of_foldr_inter.
  change (g f o :: (g f <$> os)) with (g f <$> (o :: os)). rewrite Forall_fmap, Forall_forall. intros Hk. by apply (Hk None Hin).
Qed.

Lemma sizes_nonneg Xs : 0 <= sizes Xs.
Proof. induction Xs as [|X Xs IH]; simpl; lia. Qed.

Lemma sizes_elem X Xs : X ∈ Xs -> Z.of_nat (base.size X) <= sizes Xs.
Proof.
  unfold sizes. induction Xs as [|Y Xs IH]; [by intros ?%elem_of_nil|]. cbn [foldr]. pose proof (sizes_nonneg Xs) as Hs. unfold sizes in Hs.
  intros [->|Hin]%elem_of_cons; [lia|]. specialize (IH Hin). lia.
Qed.

Section Algebra.
Context (clock : nat -> Z) (seed : Z) (can_resize : bool) (junk : nat -> Z) (junk_obj : robj) (max_intset_entries : Z).
Context (Hmax : 0 <= max_intset_entries < max_elements).
Context (qsort : forall A, (A -> A -> Z) -> list A -> list A).
Context (qsort_permutes : forall A cmp (l : list A), qsort A cmp l ≡ₚ l).
Abbreviation store_repr := (store_repr seed max_intset_entries).
Abbreviation sinterGenericCommand := (sinterGenericCommand clock seed can_resize junk junk_obj max_intset_entries qsort).
Abbreviation sunionDiffGenericCommand := (sunionDiffGenericCommand clock seed can_resize junk junk_obj max_intset_entries qsort).

Definition run_set_command (cmd : set_command) (c : client_id) : SetM unit :=
  match cmd with
  | SINTER => sinterCommand clock seed can_resize junk junk_obj max_intset_entries qsort c
  | SUNION => sunionCommand clock seed can_resize junk junk_obj max_intset_entries qsort c
  | SDIFF => sdiffCommand clock seed can_resize junk junk_obj max_intset_entries qsort c
  end.

Definition run_store_command (cmd : set_command) (c : client_id) : SetM unit :=
  match cmd with
  | SINTER => sinterstoreCommand clock seed can_resize junk junk_obj max_intset_entries qsort c
  | SUNION => sunionstoreCommand clock seed can_resize junk junk_obj max_intset_entries qsort c
  | SDIFF => sdiffstoreCommand clock seed can_resize junk junk_obj max_intset_entries qsort c
  end.

Section Client.
Context (conf : config) (c : client_id) (d : nat) (av : list bytes) (a : store_sets) (db : redisDb) (dbs : list redisDb).
Context (Hdb : dbs !! d = Some db).
Abbreviation at_state := (at_state conf c d av).
Abbreviation f := (contents a).

Lemma intset_new_repr : set_repr seed max_intset_entries (IntsetSet intsetNew) ∅.
Proof using Hmax.
  apply (repr_intset seed max_intset_entries intsetNew []); [|simpl; lia]. split; [|done]. split; [|done|constructor].
  split; [by left|done|constructor].
Qed.

(** The members of the sets of [qs], found by the loop of SINTER. *)
Lemma sinter_reply_at keys os reply n s h (Q : unit -> server -> sets -> Prop) :
  store_repr h a -> at_state dbs reply n s -> Forall (remains clock conf db) keys ->
  Forall2 (address a db) keys os -> Forall (known_key f a) os -> keys <> [] ->
  (forall ms s' h', NoDup ms -> list_to_set ms = meaning SINTER (g f <$> os) -> store_repr h' a ->
    at_state dbs (reply ++ ReplyMultiBulkLen (zlen ms) :: (ReplyBulk <$> ms)) n s' -> Q tt s' h') ->
  swp (sinterGenericCommand c keys None) Q s h.
Proof using All.
  intros Hh Hs He Hos Hkn Hne HQ. apply swp_bind, swp_srv. eapply current_db_at; [exact Hs|]. apply swp_bind.
  eapply (inter_sets_at clock conf c d av a None keys os); [exact Hs|exact Hdb|exact He|exact Hos| |].
  2:{ intros s1 Hin Hs1. apply swp_ret. apply (HQ [] s1 h); [constructor| |done|].
      - symmetry. by apply inter_missing.
      - cbn [missing_dbs missing_reply missing_dirty] in Hs1. by rewrite Z.add_0_r in Hs1. }
  intros qs s1 -> Hs1. cbn [app]. clear s Hs. rewrite Forall_fmap in Hkn.
  apply swp_bind. eapply swp_on_store; [done|]. set (ps := qsort _ _ _).
  assert (ps ≡ₚ qs) as Hp by apply qsort_permutes. destruct ps as [|p0 ps]; [apply Permutation_nil in Hp; subst; by inversion Hos|].
  assert (Forall (known f a) (p0 :: ps)) as Hkps by (by rewrite Hp). apply Forall_cons in Hkps as [Hk0 Hkps].
  apply swp_bind, swp_srv. eapply deferred_at; [exact Hs1|]. intros s2 Hs2. apply swp_bind. eapply swp_lift; [done|].
  destruct (Hh p0 _ Hk0) as (so & Hso & Hr). destruct (set_yields seed max_intset_entries so _ Hr) as (es & Hes & Hy).
  apply swp_bind. eapply swp_on_store; [by rewrite Hso|]. apply swp_bind. eapply swp_lift; [exact Hes|].
  destruct Hy as (ks & Hf & Hn & Hset). apply swp_bind.
  eapply (inter_loop_reply seed can_resize junk junk_obj max_intset_entries Hmax f conf c d av p0 (tail (p0 :: ps)) es ks); [exact Hh|exact Hs2|done|done| |].
  { apply Forall_forall. intros k Hk. rewrite <- Hset. by apply elem_of_list_to_set. }
  intros s3 h3 Hh3 Hs3. apply swp_srv. rewrite <- app_assoc in Hs3. eapply set_deferred_at; [exact Hs3|]. intros s4 Hs4.
  rewrite Z.add_0_l in Hs4. eapply (HQ _ s4 h3); [by apply (NoDup_filter (in_all f ps))| |done|exact Hs4].
  etrans; [by apply (inter_chosen f p0 ps qs ks)|]. by rewrite <- list_fmap_compose.
Qed.

(** ** Storing the result *)

(** The key holds the set at [q], or nothing when it is empty, and does not
    expire. *)
Definition replaced (dst : bytes) (q : nat) (R : gset bytes) (db : redisDb) : redisDb :=
  if bool_decide (R = ∅) then without dst db else set_dict (<[dst := Other REDIS_SET q]>) (without dst db).

Definition store_dbs (dst : bytes) (q : nat) (R : gset bytes) : list redisDb := alter (replaced dst q R) d dbs.

Lemma alter_comp {A} (f1 f2 : A -> A) i (l : list A) : alter f1 i (alter f2 i l) = alter (fun x => f1 (f2 x)) i l.
Proof using Type. clear. revert i. induction l as [|x l IH]; intros [|i]; simpl; try done. f_equal. apply IH. Qed.

Lemma store_result_at dst q event R reply n s h (Q : unit -> server -> sets -> Prop) :
  store_repr h (<[q := R]> a) -> at_state dbs reply n s ->
  (forall s', at_state (store_dbs dst q R) (reply ++ [ReplyInt (Z.of_nat (base.size R))]) (n + 1) s' -> Q tt s' h) ->
  swp (store_result c d dst q event) Q s h.
Proof using Hdb.
  intros Hh Hs HQ. apply swp_bind, swp_srv. eapply dbDelete_at; [exact Hs|exact Hdb|]. intros s1 Hs1.
  destruct (Hh q R ltac:(apply lookup_insert_eq)) as (so & Hso & Hr).
  apply swp_bind. eapply swp_on_store; [by rewrite Hso|]. apply swp_bind.
  assert (forall dbs' s', length dbs' = length dbs -> dbs' = store_dbs dst q R ->
    at_state dbs' (reply ++ [ReplyInt (Z.of_nat (base.size R))]) n s' ->
    swp (srv (signalModifiedKey d dst);; srv (add_dirty 1)) Q s' h) as Hend.
  { intros dbs' s' Hlen -> Hs'. apply swp_bind, swp_srv. eapply signal_at; [|exact Hs'|].
    { rewrite Hlen. by eapply lookup_lt_Some. }
    intros s2 Hs2. apply swp_srv. eapply add_dirty_at; [exact Hs2|]. exact HQ. }
  rewrite (setTypeSize_spec _ _ _ _ Hr). unfold store_dbs, replaced in Hend.
  destruct (bool_decide_reflect (R = ∅)) as [->|Hne].
  - rewrite size_empty in *. rewrite bool_decide_false by (simpl; lia). apply swp_bind, swp_srv. eapply addReply_at; [exact Hs1|].
    intros s2 Hs2. destruct (bool_decide (is_Some _)).
    + apply swp_srv. eapply notify_at; [exact Hs2|]. intros s3 Hs3. eapply Hend; [|done|exact Hs3]. by rewrite length_alter.
    + apply swp_ret. eapply Hend; [|done|exact Hs2]. by rewrite length_alter.
  - assert (base.size R <> 0%nat) by (intros E; by apply Hne, leibniz_equiv, size_empty_iff).
    rewrite bool_decide_true by lia. apply swp_bind, swp_srv. eapply dbAdd_at; [exact Hs1| | |].
    { by rewrite list_lookup_alter_eq, Hdb. }
    { apply lookup_delete_eq. }
    intros s2 Hs2. apply swp_bind, swp_srv. eapply addReply_at; [exact Hs2|]. intros s3 Hs3. apply swp_srv. eapply notify_at; [exact Hs3|].
    intros s4 Hs4. eapply Hend; [| |exact Hs4]; unfold write_key; [by rewrite !length_alter|]. by rewrite alter_comp.
Qed.

Lemma new_set_at h s (Q : nat -> server -> sets -> Prop) : store_repr h a ->
  (forall q h', a !! q = None -> store_repr h' (<[q := ∅]> a) -> Q q s h') -> swp (new_obj (IntsetSet intsetNew)) Q s h.
Proof using Hmax.
  intros Hh HQ. destruct (fresh_at (set_repr seed max_intset_entries) h a _ _ Hh intset_new_repr) as (q & h' & Hn & Hq & Hh').
  eapply swp_on_store; [exact Hn|]. by apply HQ.
Qed.

Lemma sinter_store_at dst keys os reply n s h (Q : unit -> server -> sets -> Prop) :
  store_repr h a -> at_state dbs reply n s -> Forall (remains clock conf db) keys ->
  Forall2 (address a db) keys os -> Forall (known_key f a) os -> keys <> [] -> total_size f os <= max_elements ->
  let R := meaning SINTER (g f <$> os) in
  (forall q s' h', None ∉ os -> a !! q = None -> store_repr h' (<[q := R]> a) ->
    at_state (store_dbs dst q R) (reply ++ [ReplyInt (Z.of_nat (base.size R))]) (n + 1) s' -> Q tt s' h') ->
  (forall s', None ∈ os -> R = ∅ -> at_state (alter (without dst) d dbs) (reply ++ [ReplyInt 0]) (n + missing_dirty (Some dst) db) s' -> Q tt s' h) ->
  swp (sinterGenericCommand c keys (Some dst)) Q s h.
Proof using All.
  intros Hh Hs He Hos Hkn Hne Hb R HQ Hmiss. apply swp_bind, swp_srv. eapply current_db_at; [exact Hs|]. apply swp_bind.
  eapply (inter_sets_at clock conf c d av a (Some dst) keys os); [exact Hs|exact Hdb|exact He|exact Hos| |].
  2:{ intros s1 Hin Hs1. apply swp_ret, Hmiss; [done| |done]. by apply inter_missing. }
  intros qs s1 -> Hs1. cbn [app]. clear s Hs Hmiss. rewrite Forall_fmap in Hkn.
  apply swp_bind. eapply swp_on_store; [done|]. set (ps := qsort _ _ _).
  assert (ps ≡ₚ qs) as Hp by apply qsort_permutes. destruct ps as [|p0 ps]; [apply Permutation_nil in Hp; subst; by inversion Hos|].
  assert (Forall (known f a) (p0 :: ps)) as Hkps by (by rewrite Hp). apply Forall_cons in Hkps as [Hk0 Hkps].
  apply swp_bind, new_set_at; [exact Hh|]. intros q h1 Hq Hh1. apply swp_bind. eapply swp_lift; [done|].
  destruct (Hh1 p0 _ (known_insert f a q ∅ p0 Hq Hk0)) as (so & Hso & Hr).
  destruct (set_yields seed max_intset_entries so _ Hr) as (es & Hes & Hy).
  apply swp_bind. eapply swp_on_store; [by rewrite Hso|]. apply swp_bind. eapply swp_lift; [exact Hes|].
  destruct (yields_size _ _ Hy) as (ks & Hf & Hn & Hset & Hl). apply swp_bind.
  eapply (inter_loop_store seed can_resize junk junk_obj max_intset_entries Hmax f c q p0 (tail (p0 :: ps)) es ks); [exact Hq|exact Hh1|done|done| | |].
  { apply Forall_forall. intros k Hk. rewrite <- Hset. by apply elem_of_list_to_set. }
  { rewrite size_empty, Hl. rewrite <- sizes_total in Hb. pose proof (sizes_elem (f p0) (g f <$> (Some <$> qs))) as Hsz.
    assert (f p0 ∈ g f <$> (Some <$> qs)); [|specialize (Hsz ltac:(done)); lia].
    apply list_elem_of_fmap. exists (Some p0). split; [done|]. apply list_elem_of_fmap. exists p0. split; [done|]. rewrite <- Hp. apply list_elem_of_here. }
  intros h2 Hh2. replace (chosen (in_all f (tail (p0 :: ps))) ks ∪ ∅) with R in Hh2.
  { eapply store_result_at; [exact Hh2|exact Hs1|]. intros s3 Hs3. eapply HQ; [|done..].
    intros (p & [=] & _)%list_elem_of_fmap. }
  rewrite union_empty_r_L. subst R. symmetry. etrans; [by apply (inter_chosen f p0 ps qs ks)|]. by rewrite <- list_fmap_compose.
Qed.

(** ** Unions and differences *)

Lemma union_of_perm os os' : os ≡ₚ os' -> union_of f os = union_of f os'.
Proof using Type.
  clear. intros Hp. unfold union_of. apply set_eq. intros k. rewrite !elem_of_union_list. apply exist_proper. intros X.
  by rewrite Hp.
Qed.

Lemma choose_diff_spec op os h one os' : choose_diff qsort op os h = (one, os') ->
  op_meaning f op os' = op_meaning f op os /\ os' ≡ₚ os.
Proof using qsort_permutes.
  destruct op; cbn [choose_diff]; [by intros [= <- <-]|]. destruct os as [|[p0|] os]; [by intros [= <- <-]| |by intros [= <- <-]].
  destruct (diff_algo_one h p0 (Some p0 :: os)); [|by intros [= <- <-]]. intros [= <- <-].
  assert ((if bool_decide (zlen (Some p0 :: os) > 1) then qsort _ (qsortCompareSetsByRevCardinality h) os else os) ≡ₚ os) as Hp
    by (by case_bool_decide).
  split; [|by rewrite Hp]. cbn [op_meaning]. f_equal. by apply union_of_perm.
Qed.

Lemma total_size_perm os os' : os ≡ₚ os' -> total_size f os = total_size f os'.
Proof using Type. clear. induction 1; simpl; lia. Qed.

Definition command_of (op : set_op) : set_command := match op with REDIS_OP_UNION => SUNION | REDIS_OP_DIFF => SDIFF end.

Lemma op_meaning_command op os : op_meaning f op os = meaning (command_of op) (g f <$> os).
Proof using Type. clear. by destruct op, os. Qed.

Definition set_event (op : set_op) : string := match op with REDIS_OP_UNION => "sunionstore" | REDIS_OP_DIFF => "sdiffstore" end.

Lemma sunion_diff_at op dstkey keys os reply n s h (Q : unit -> server -> sets -> Prop) :
  store_repr h a -> at_state dbs reply n s -> Forall (remains clock conf db) keys ->
  Forall2 (address a db) keys os -> Forall (known_key f a) os -> total_size f os <= max_elements ->
  let R := meaning (command_of op) (g f <$> os) in
  (forall q s' h', a !! q = None -> store_repr h' (<[q := R]> a) ->
    match dstkey with
    | None => forall ms, NoDup ms -> list_to_set ms = R -> at_state dbs (reply ++ ReplyMultiBulkLen (zlen ms) :: (ReplyBulk <$> ms)) n s' -> Q tt s' h'
    | Some dst => at_state (store_dbs dst q R) (reply ++ [ReplyInt (Z.of_nat (base.size R))]) (n + 1) s' -> Q tt s' h'
    end) ->
  swp (sunionDiffGenericCommand c keys dstkey op) Q s h.
Proof using All.
  intros Hh Hs He Hos Hkn Hb R HQ. apply swp_bind, swp_srv. eapply current_db_at; [exact Hs|]. apply swp_bind.
  eapply (union_sets_at clock conf c d av a dstkey keys os); [exact Hs|exact Hdb|exact He|exact Hos|]. clear s Hs. intros s Hs. cbn [app].
  destruct (choose_diff qsort op os h) as [one os'] eqn:Hc. destruct (choose_diff_spec _ _ _ _ _ Hc) as [Hm Hp].
  apply swp_bind. eapply swp_on_store; [by rewrite Hc|]. apply swp_bind, new_set_at; [exact Hh|]. intros q h1 Hq Hh1.
  destruct (fill_set_at seed can_resize junk junk_obj max_intset_entries Hmax f op one q os' h1 a Hq Hh1) as (h2 & Hfill & Hh2).
  { by rewrite Hp. } { by rewrite (total_size_perm _ _ Hp). }
  rewrite Hm, op_meaning_command in Hfill, Hh2. fold R in Hfill, Hh2.
  apply swp_bind. eapply swp_on_store; [exact Hfill|]. destruct dstkey as [dst|].
  - eapply store_result_at; [exact Hh2|exact Hs|]. intros s1 Hs1. by apply (HQ q).
  - apply swp_bind, swp_srv. eapply addReply_at; [exact Hs|]. intros s1 Hs1.
    destruct (Hh2 q R ltac:(apply lookup_insert_eq)) as (so & Hso & Hr).
    destruct (set_yields seed max_intset_entries so _ Hr) as (es & Hes & Hy).
    apply swp_bind. eapply swp_on_store; [by rewrite Hso|]. apply swp_bind. eapply swp_lift; [exact Hes|].
    destruct (yields_size _ _ Hy) as (ks & Hf & Hn & Hset & Hl). apply swp_srv. eapply reply_members_at; [exact Hf|exact Hs1|].
    intros s2 Hs2. eapply (HQ q s2 h2 Hq Hh2 ks Hn Hset). by rewrite Hl, <- app_assoc in *.
Qed.
End Client.

(** The client runs a command that names [keys], each missing or a set that
    does not expire meanwhile. *)
Record names_sets (c : client_id) (av : list bytes) (d : nat) (a : store_sets) (keys : list bytes) (Xs : list (gset bytes))
    (db : redisDb) (s : server) (h : sets) : Prop := {
  ns_client : exists cl, s_clients s !! c = Some cl /\ c_db cl = d /\ c_argv cl = av;
  ns_db : s_db s !! d = Some db;
  ns_keys : Forall (remains clock (s_conf s) db) keys;
  ns_stored : Forall2 (stored a db) keys Xs;
  ns_some : keys <> [];
  ns_store : store_repr h a;
  ns_sizes : sizes Xs <= max_elements }.

Lemma names_at c av d a keys Xs db s h : names_sets c av d a keys Xs db s h -> exists reply os,
  at_state (s_conf s) c d av (s_db s) reply (s_dirty s) s /\
  (forall replies dbs n s', at_state (s_conf s) c d av dbs (reply ++ replies) (s_dirty s + n) s' -> outcome c replies dbs n s s') /\
  Forall2 (address a db) keys os /\ Xs = g (contents a) <$> os /\ Forall (known_key (contents a) a) os /\
  total_size (contents a) os <= max_elements.
Proof using Type.
  clear. intros [(cl & Hc & Hd & Hav) Hdb Hk Hst _ _ Hsz]. destruct (stored_addresses _ _ _ _ Hst) as (os & Hos & -> & Hkn).
  exists (c_reply cl), os. split; [by split; [|exists cl| |]|]. split; [|by rewrite <- sizes_total].
  intros replies dbs n s' [Hdbs (cl' & Hc' & _ & _ & Hr) Hn _]. split_and!; [done|done|]. by exists cl, cl'.
Qed.

(** C23: SINTER, SUNION and SDIFF compute the intersection, the union and the
    difference of the sets under their keys, a missing key being an empty set:
    the reply announces and lists every member once, whatever the encodings,
    the order in which the sets are sorted, the algorithm chosen for the
    difference, and keys given more than once; no set changes.  Every key is
    missing or holds a set, no key that is named is reached by its expire
    during the command ([sunion_uses_freed_set] shows what happens when one is),
    and the sizes of the sets add up to [max_elements] at most. *)
Theorem set_algebra cmd c d a0 keys a Xs db s h :
  names_sets c (a0 :: keys) d a keys Xs db s h ->
  exists ms s' h', run_set_command cmd c s h = Some (tt, s', h') /\
    NoDup ms /\ list_to_set ms = meaning cmd Xs /\
    outcome c (ReplyMultiBulkLen (zlen ms) :: (ReplyBulk <$> ms)) (s_db s) 0 s s' /\ store_repr h' a.
Proof using Hmax qsort_permutes.
  intros Hns. destruct (names_at _ _ _ _ _ _ _ _ _ Hns) as (reply & os & Hs & Hout & Hos & -> & Hkn & Hsz).
  destruct Hns as [_ Hdb He _ Hne Hh _].
  assert (swp (run_set_command cmd c) (fun _ s' h' => exists ms, NoDup ms /\ list_to_set ms = meaning cmd (g (contents a) <$> os) /\
    outcome c (ReplyMultiBulkLen (zlen ms) :: (ReplyBulk <$> ms)) (s_db s) 0 s s' /\ store_repr h' a) s h) as Hw;
    [|destruct (swp_run _ _ _ _ Hw) as ([] & s' & h' & Hrun & ms & Hms); by exists ms, s', h'].
  destruct cmd; (apply swp_bind, swp_srv; eapply client_at; [exact Hs|]; intros cl -> _; cbn [drop]).
  - eapply sinter_reply_at; [done..|]. intros ms s' h' Hn Hset Hh' Hs'. exists ms. split_and!; [done..| |done]. apply Hout. by rewrite Z.add_0_r.
  - eapply sunion_diff_at; [done..|]. intros q s' h' Hq Hh' ms Hn Hset Hs'. exists ms. split_and!; [done..| |by eapply store_weaken].
    apply Hout. by rewrite Z.add_0_r.
  - eapply sunion_diff_at; [done..|]. intros q s' h' Hq Hh' ms Hn Hset Hs'. exists ms. split_and!; [done..| |by eapply store_weaken].
    apply Hout. by rewrite Z.add_0_r.
Qed.

(** The commands that store count one change, except an intersection with a
    missing key when there was nothing to replace. *)
Definition missing_key (db : redisDb) (keys : list bytes) : bool := bool_decide (Exists (fun k => db_dict db !! k = None) keys).
Definition store_dirty (cmd : set_command) (db : redisDb) (dst : bytes) (keys : list bytes) : Z :=
  match cmd with
  | SINTER => if missing_key db keys then Z.b2z (bool_decide (is_Some (db_dict db !! dst))) else 1
  | _ => 1
  end.

Lemma missing_key_addresses a db keys os : Forall2 (address a db) keys os -> missing_key db keys = bool_decide (None ∈ os).
Proof using Type.
  clear. intros Hos. apply bool_decide_ext. induction Hos as [|k o keys os Hk _ IH].
  - rewrite Exists_nil, elem_of_nil. done.
  - rewrite Exists_cons, elem_of_cons, IH. unfold address in Hk. destruct (db_dict db !! k) as [v|].
    + destruct Hk as (p & _ & -> & _). split; (intros [E|?]; [done|by right]).
    + subst o. split; by left.
Qed.

(** C24: SINTERSTORE, SUNIONSTORE and SDIFFSTORE put the intersection, the union
    or the difference of the sets under their keys in the place of the
    destination, which may be one of the keys and lose any value, of any type,
    and any expire; an empty result leaves no key.  The reply is the number of
    members and the other sets stay as they are.  The source keys are as for
    C23: missing or sets, not reached by an expire during the command
    ([sunion_uses_freed_set] is a use of a freed set when one is), of at most
    [max_elements] members together. *)
Theorem set_store cmd c d a0 dst keys a Xs db s h :
  names_sets c (a0 :: dst :: keys) d a keys Xs db s h ->
  let R := meaning cmd Xs in
  exists q s' h', run_store_command cmd c s h = Some (tt, s', h') /\ a !! q = None /\
    outcome c [ReplyInt (Z.of_nat (base.size R))] (alter (replaced dst q R) d (s_db s)) (store_dirty cmd db dst keys) s s' /\
    store_repr h' a /\ (R <> ∅ -> store_repr h' (<[q := R]> a)).
Proof using Hmax qsort_permutes.
  intros Hns R. destruct (names_at _ _ _ _ _ _ _ _ _ Hns) as (reply & os & Hs & Hout & Hos & -> & Hkn & Hsz).
  destruct Hns as [_ Hdb He _ Hne Hh _].
  assert (swp (run_store_command cmd c) (fun _ s' h' => exists q, a !! q = None /\
    outcome c [ReplyInt (Z.of_nat (base.size R))] (alter (replaced dst q R) d (s_db s)) (store_dirty cmd db dst keys) s s' /\
    store_repr h' a /\ (R <> ∅ -> store_repr h' (<[q := R]> a))) s h) as Hw;
    [|destruct (swp_run _ _ _ _ Hw) as ([] & s' & h' & Hrun & q & Hq); by exists q, s', h'].
  destruct cmd; (apply swp_bind, swp_srv; eapply client_at; [exact Hs|]; intros cl -> _; cbn [drop];
    apply swp_bind, swp_srv; eapply argv_at; [exact Hs|done|]); cbn [store_dirty].
  - rewrite (missing_key_addresses _ _ _ _ Hos). eapply sinter_store_at; [done..| |].
    + intros q s' h' Hall Hq Hh' Hs'. exists q. rewrite bool_decide_false by done. split_and!; [done|by apply Hout|by eapply store_weaken|done].
    + intros s' Hin HR Hs'. exists (fresh (dom a)). rewrite bool_decide_true by done. split_and!; [|apply Hout|done|done].
      * apply not_elem_of_dom, is_fresh.
      * unfold R. rewrite HR, size_empty. unfold replaced. by rewrite bool_decide_true.
  - eapply sunion_diff_at; [done..|]. intros q s' h' Hq Hh' Hs'. exists q. split_and!; [done|by apply Hout|by eapply store_weaken|done].
  - eapply sunion_diff_at; [done..|]. intros q s' h' Hq Hh' Hs'. exists q. split_and!; [done|by apply Hout|by eapply store_weaken|done].
Qed.
End Algebra.

(** ** Members *)

Section Members.
Context (clock : nat -> Z) (seed : Z) (can_resize : bool) (junk : nat -> Z) (junk_obj : robj) (max_intset_entries : Z).
Context (Hmax : 0 <= max_intset_entries < max_elements).
Abbreviation store_repr := (store_repr seed max_intset_entries).
Abbreviation saddCommand := (saddCommand clock seed can_resize junk junk_obj max_intset_entries).
Abbreviation sismemberCommand := (sismemberCommand clock seed).

Lemma sadd_loop_at p args added s h a Y (Q : Z -> server -> sets -> Prop) :
  store_repr h (<[p := Y]> a) -> Z.of_nat (base.size Y) + zlen args <= max_elements ->
  (forall h', store_repr h' (<[p := list_to_set args ∪ Y]> a) ->
    Q (added + (Z.of_nat (base.size (list_to_set args ∪ Y)) - Z.of_nat (base.size Y))) s h') ->
  swp (sadd_loop seed can_resize junk junk_obj max_intset_entries p args added) Q s h.
Proof using Hmax.
  clear clock. revert h Y added. induction args as [|x args IH]; intros h Y added Hh Hb HQ; cbn [sadd_loop list_to_set length] in *.
  { apply swp_ret. rewrite union_empty_l_L in HQ. specialize (HQ h Hh). by rewrite Z.sub_diag, Z.add_0_r in HQ. }
  destruct (add_at seed can_resize junk junk_obj max_intset_entries Hmax h _ p Y (tryObjectEncoding x) x Hh
    ltac:(apply lookup_insert_eq) (encoded_stands x) ltac:(lia)) as (h1 & Hu & Hh1).
  rewrite insert_insert_eq in Hh1. apply swp_bind. eapply swp_on_store; [exact Hu|]. pose proof (size_add x Y) as Hs.
  apply (IH h1 ({[x]} ∪ Y)); [done|case_bool_decide; lia|]. intros h' Hh'.
  replace (list_to_set args ∪ ({[x]} ∪ Y)) with ({[x]} ∪ list_to_set args ∪ Y) in * by set_solver.
  replace ((if bool_decide (x ∉ Y) then added + 1 else added) + (Z.of_nat (base.size ({[x]} ∪ list_to_set args ∪ Y)) - Z.of_nat (base.size ({[x]} ∪ Y))))
    with (added + (Z.of_nat (base.size ({[x]} ∪ list_to_set args ∪ Y)) - Z.of_nat (base.size Y))); [by apply HQ|].
  rewrite Hs. case_bool_decide; lia.
Qed.

(** The databases once the key holds the set at [p]. *)
Definition with_set (d : nat) (key : bytes) (p : nat) (db : redisDb) (dbs : list redisDb) : list redisDb :=
  match db_dict db !! key with None => write_key d key (Other REDIS_SET p) dbs | Some _ => dbs end.

Section Client.
Context (conf : config) (c : client_id) (d : nat) (db : redisDb) (a : store_sets) (key : bytes) (X : gset bytes).
Context (Hkey : remains clock conf db key) (HX : stored a db key X).

Lemma sadd_set_at av first dbs reply n s h (Q : option nat -> server -> sets -> Prop) :
  store_repr h a -> at_state conf c d av dbs reply n s -> dbs !! d = Some db ->
  (forall p s' h', store_repr h' (<[p := X]> a) -> (is_Some (db_dict db !! key) -> a !! p = Some X) ->
    db_dict db !! key = None \/ db_dict db !! key = Some (Other REDIS_SET p) ->
    at_state conf c d av (with_set d key p db dbs) reply n s' -> Q (Some p) s' h') ->
  swp (sadd_set clock c d key first) Q s h.
Proof using Hmax Hkey HX.
  intros Hh Hs Hdb HQ. apply swp_bind, swp_srv. eapply lookupKeyWrite_at; [exact Hs|exact Hdb|exact Hkey|]. clear s Hs. intros s Hs.
  unfold with_set in HQ. unfold stored in HX. destruct (db_dict db !! key) as [o|] eqn:E.
  - destruct HX as (p & -> & Hp). apply swp_bind, swp_srv. eapply set_type_at; [exact Hs|]. apply swp_bind. eapply swp_lift; [done|].
    apply swp_ret. apply HQ; [by rewrite insert_id|done|by right|done].
  - subst X. destruct (setTypeCreate_spec seed max_intset_entries Hmax (Raw first) first eq_refl) as (so & Hc & Hso).
    apply swp_bind. eapply swp_lift; [exact Hc|]. destruct (fresh_at (set_repr seed max_intset_entries) h a so _ Hh Hso) as (p & h1 & Hn & Hp & Hh1).
    apply swp_bind. eapply swp_on_store; [exact Hn|]. apply swp_bind, swp_srv. eapply dbAdd_at; [exact Hs|exact Hdb|done|].
    intros s1 Hs1. apply swp_ret. apply HQ; [done|by intros [? ?]|by left|done].
Qed.

Lemma saddCommand_at a0 args dbs reply n s h (Q : unit -> server -> sets -> Prop) :
  store_repr h a -> at_state conf c d (a0 :: key :: args) dbs reply n s -> dbs !! d = Some db -> args <> [] ->
  Z.of_nat (base.size X) + zlen args <= max_elements ->
  let Y := list_to_set args ∪ X in let added := Z.of_nat (base.size Y) - Z.of_nat (base.size X) in
  (forall p s' h', store_repr h' (<[p := Y]> a) ->
    db_dict db !! key = None \/ db_dict db !! key = Some (Other REDIS_SET p) ->
    at_state conf c d (a0 :: key :: args) (with_set d key p db dbs) (reply ++ [ReplyInt added]) (n + added) s' -> Q tt s' h') ->
  swp (saddCommand c) Q s h.
Proof using Hmax Hkey HX.
  intros Hh Hs Hdb Hne Hb Y added HQ. apply swp_bind, swp_srv. eapply current_db_at; [exact Hs|].
  apply swp_bind, swp_srv. eapply argv_at; [exact Hs|done|]. destruct args as [|first args]; [done|].
  apply swp_bind, swp_srv. eapply argv_at; [exact Hs|done|]. apply swp_bind, swp_srv. eapply client_at; [exact Hs|]. intros cl Hav _.
  apply swp_bind. eapply sadd_set_at; [exact Hh|exact Hs|exact Hdb|]. clear s Hs h Hh. intros p s h Hh _ Hp Hs. rewrite Hav. cbn [drop].
  apply swp_bind. eapply (sadd_loop_at p _ 0 s h a X); [done|done|]. intros h1 Hh1. fold Y added. rewrite Z.add_0_l.
  assert (length (with_set d key p db dbs) = length dbs) as Hlen.
  { unfold with_set. destruct (db_dict db !! key); [done|]. apply length_alter. }
  assert (forall s', at_state conf c d (a0 :: key :: first :: args) (with_set d key p db dbs) reply n s' ->
    swp (srv (add_dirty added);; srv (addReply c (ReplyInt added))) Q s' h1) as Hend.
  { intros s' Hs'. apply swp_bind, swp_srv. eapply add_dirty_at; [exact Hs'|]. intros s1 Hs1. apply swp_srv. eapply addReply_at; [exact Hs1|].
    intros s2 Hs2. by eapply HQ. }
  apply swp_bind. destruct (bool_decide (added <> 0)); [|by apply swp_ret, Hend].
  apply swp_bind, swp_srv. eapply signal_at; [|exact Hs|].
  { rewrite Hlen. by eapply lookup_lt_Some. }
  intros s1 Hs1. apply swp_srv. eapply notify_at; [exact Hs1|]. exact Hend.
Qed.
End Client.

Lemma sismemberCommand_at conf c d b0 key x p a X db dbs reply n s h (Q : unit -> server -> sets -> Prop) :
  store_repr h a -> at_state conf c d [b0; key; x] dbs reply n s -> dbs !! d = Some db -> remains clock conf db key ->
  db_dict db !! key = Some (Other REDIS_SET p) -> a !! p = Some X ->
  (forall s' h', store_repr h' a ->
    at_state conf c d [b0; key; x] dbs (reply ++ [ReplyInt (Z.b2z (bool_decide (x ∈ X)))]) n s' -> Q tt s' h') ->
  swp (sismemberCommand c) Q s h.
Proof using All.
  intros Hh Hs Hdb Hkey Ho Hp HQ. apply swp_bind, swp_srv. eapply current_db_at; [exact Hs|].
  apply swp_bind, swp_srv. eapply argv_at; [exact Hs|done|]. apply swp_bind, swp_srv, wp_bind.
  eapply lookupKeyRead_at; [exact Hs|exact Hdb|exact Hkey|]. clear s Hs. intros s Hs. rewrite Ho. apply wp_ret.
  apply swp_bind, swp_srv. eapply set_type_at; [exact Hs|]. apply swp_bind. eapply swp_lift; [done|].
  apply swp_bind, swp_srv. eapply argv_at; [exact Hs|done|].
  destruct (member_at seed can_resize junk junk_obj max_intset_entries Hmax h a p X _ x Hh Hp (encoded_stands x)) as (h1 & Hu & Hh1).
  apply swp_bind. eapply swp_on_store; [exact Hu|]. apply swp_srv. eapply addReply_at; [exact Hs|]. intros s1 Hs1.
  apply HQ; [done|]. by destruct (bool_decide (x ∈ X)).
Qed.

(** SADD then SISMEMBER.  SADD replies how many of its arguments were not
    members, creates the set when the key is missing, and SISMEMBER then finds
    exactly the members of before and the arguments of SADD, compared as
    bytes, whatever the encodings of the set and of the arguments. *)
Theorem sadd_sismember c d a0 b0 key args x a X db s h :
  (exists cl, s_clients s !! c = Some cl /\ c_db cl = d /\ c_argv cl = a0 :: key :: args) ->
  s_db s !! d = Some db -> remains clock (s_conf s) db key -> stored a db key X -> store_repr h a ->
  args <> [] -> Z.of_nat (base.size X) + zlen args <= max_elements ->
  let Y := list_to_set args ∪ X in let added := Z.of_nat (base.size Y) - Z.of_nat (base.size X) in
  exists p s' h', (saddCommand c;; srv (on_client c (set_c_argv [b0; key; x]));; sismemberCommand c) s h = Some (tt, s', h') /\
    outcome c [ReplyInt added; ReplyInt (Z.b2z (bool_decide (x ∈ Y)))] (with_set d key p db (s_db s)) added s s' /\
    store_repr h' (<[p := Y]> a).
Proof using Hmax.
  intros (cl & Hc & Hd & Hav) Hdb Hkey HX Hh Hne Hb Y added.
  assert (at_state (s_conf s) c d (a0 :: key :: args) (s_db s) (c_reply cl) (s_dirty s) s) as Hs by (split; [done|by exists cl|done|done]).
  assert (swp (saddCommand c;; srv (on_client c (set_c_argv [b0; key; x]));; sismemberCommand c) (fun _ s' h' => exists p,
    outcome c [ReplyInt added; ReplyInt (Z.b2z (bool_decide (x ∈ Y)))] (with_set d key p db (s_db s)) added s s' /\
    store_repr h' (<[p := Y]> a)) s h) as Hw;
    [|destruct (swp_run _ _ _ _ Hw) as ([] & s' & h' & Hrun & p & Hp); by exists p, s', h'].
  apply swp_bind. eapply (saddCommand_at (s_conf s) c d db a key X Hkey HX); [exact Hh|exact Hs|exact Hdb|done|done|].
  intros p s1 h1 Hh1 Hp [Hdb1 (cl1 & Hc1 & Hd1 & _ & Hr1) Hn1 Hcf1]. apply swp_bind, swp_srv, wp_modify.
  assert (exists db1, with_set d key p db (s_db s) !! d = Some db1 /\ remains clock (s_conf s) db1 key /\
    db_dict db1 !! key = Some (Other REDIS_SET p)) as (db1 & Hdb2 & Hk2 & Ho2).
  { unfold with_set. destruct Hp as [->|E]; [|rewrite E; eauto]. unfold write_key. rewrite list_lookup_alter_eq, Hdb.
    eexists. split; [done|]. split; [by apply remains_written|]. apply lookup_insert_eq. }
  eapply (sismemberCommand_at (s_conf s) c d b0 key x p _ Y db1 (with_set d key p db (s_db s)) (c_reply cl ++ [ReplyInt added]) (s_dirty s + added));
    [exact Hh1| |exact Hdb2|exact Hk2|exact Ho2|apply lookup_insert_eq|].
  - constructor; [done| |done|done]. exists (set_c_argv [b0; key; x] cl1). simpl. rewrite lookup_alter_eq, Hc1. done.
  - intros s2 h2 Hh2 [Hdb3 (cl3 & Hc3 & _ & _ & Hr3) Hn3 _]. exists p. split; [|done]. split_and!; [done|done|].
    exists cl, cl3. split_and!; [done|done|]. by rewrite Hr3, <- app_assoc.
Qed.
End Members.

(** ** Instances *)

(** A sorting function for [qsort]. *)
Definition sort_with (A : Type) (cmp : A -> A -> Z) (l : list A) : list A := merge_sort (H := fun x y => decide (cmp x y <= 0)) (fun x y => cmp x y <= 0) l.

Lemma sort_with_permutes A cmp (l : list A) : sort_with A cmp l ≡ₚ l.
Proof. apply merge_sort_Permutation. Qed.

(** Sets built by the operations, intsets of at most two members. *)
Definition built_set (ops : list set_call) : setobj :=
  from_option fst (IntsetSet intsetNew) (set_run 0 true (fun _ => 7) (IntObj 0) 2 (IntsetSet intsetNew) ops).

Lemma built_set_repr ops : Forall call_ok ops -> zlen ops <= max_elements -> set_repr 0 2 (built_set ops) (spec_run ∅ ops).1.
Proof.
  intros Hops Hl. assert (0 <= 2 < max_elements) as Hm by (unfold max_elements; lia).
  destruct (set_run_spec 0 true (fun _ => 7) (IntObj 0) 2 Hm ops (IntsetSet intsetNew) ∅ (intset_new_repr 0 2 Hm) Hops) as (so & Hrun & Hr).
  { rewrite size_empty. simpl. lia. }
  unfold built_set. by rewrite Hrun.
Qed.

Definition sample_ops1 : list set_call := [CallAdd (IntObj 5); CallAdd (Raw [97]); CallAdd (Raw [55]); CallAdd (IntObj 12)].
Definition sample_ops2 : list set_call := [CallAdd (IntObj 12); CallAdd (IntObj 5)].
Definition sample_store : sets := {[1%nat := built_set sample_ops1; 2%nat := built_set sample_ops2]}.
Definition sample_sets : store_sets := {[1%nat := {[[53]; [97]; [55]; [49; 50]]}; 2%nat := {[[49; 50]; [53]]}]}.
Definition sample_db : redisDb :=
  RedisDb {[str "k" := Other REDIS_SET 1; str "l" := Other REDIS_SET 2; str "t" := Raw (str "v")]} {[str "k" := 5000; str "t" := 6000]} ∅.
Definition set_sample (av : list bytes) : server := set_clients {[0%nat := RClient 0 0 av [] [] []]} (set_dbs [sample_db] sample).

Lemma sample_store_repr : store_repr 0 2 sample_store sample_sets.
Proof.
  assert (Forall call_ok sample_ops1 /\ Forall call_ok sample_ops2) as [H1 H2].
  { split; repeat constructor; simpl; unfold srange; simpl; try lia; exact I. }
  pose proof (built_set_repr _ H1 ltac:(vm_compute; discriminate)) as R1. pose proof (built_set_repr _ H2 ltac:(vm_compute; discriminate)) as R2.
  replace (spec_run ∅ sample_ops1).1 with ({[[53]; [97]; [55]; [49; 50]]} : gset bytes) in R1 by (apply (bool_decide_unpack _); vm_compute; exact I).
  replace (spec_run ∅ sample_ops2).1 with ({[[49; 50]; [53]]} : gset bytes) in R2 by (apply (bool_decide_unpack _); vm_compute; exact I).
  intros p X. unfold sample_sets, sample_store. rewrite lookup_insert_Some, lookup_singleton_Some.
  intros [[<- <-]|[_ [<- <-]]]; eauto.
Qed.

Definition sample_members : list (gset bytes) := [{[[53]; [97]; [55]; [49; 50]]}; {[[49; 50]; [53]]}; ∅].

Lemma sample_remains : remains steady_clock (s_conf sample) sample_db (str "k").
Proof. intros t Ht. vm_compute in Ht. injection Ht as <-. split; [by eexists|]. do 3 right. intros i. unfold steady_clock. lia. Qed.

Lemma sample_names av : names_sets steady_clock 0 2 0 av 0 sample_sets [str "k"; str "l"; str "m"] sample_members sample_db (set_sample av) sample_store.
Proof.
  split; [by eexists|reflexivity| | |discriminate|apply sample_store_repr|vm_compute; discriminate].
  - constructor; [apply sample_remains|]. constructor; [by apply remains_none|]. constructor; [by apply remains_none|constructor].
  - constructor; [by exists 1%nat|]. constructor; [by exists 2%nat|]. by constructor.
Qed.

Lemma sample_max : 0 <= 2 < max_elements.
Proof. split; [lia|reflexivity]. Qed.

Lemma set_algebra_witness :
  let s := set_sample [str "sdiff"; str "k"; str "l"; str "m"] in
  exists ms s' h', run_set_command steady_clock 0 true (fun _ => 7) (IntObj 0) 2 sort_with SDIFF 0 s sample_store = Some (tt, s', h') /\
    NoDup ms /\ list_to_set ms = meaning SDIFF sample_members /\
    outcome 0 (ReplyMultiBulkLen (zlen ms) :: (ReplyBulk <$> ms)) [sample_db] 0 s s' /\ store_repr 0 2 h' sample_sets.
Proof.
  exact (set_algebra steady_clock 0 true (fun _ => 7) (IntObj 0) 2 sample_max sort_with sort_with_permutes
    SDIFF 0 0 _ _ _ _ _ _ _ (sample_names _)).
Defined.

(** The destination holds a string. *)
Lemma set_store_witness :
  let s := set_sample [str "sunionstore"; str "t"; str "k"; str "l"; str "m"] in
  let R := meaning SUNION sample_members in
  exists q s' h', run_store_command steady_clock 0 true (fun _ => 7) (IntObj 0) 2 sort_with SUNION 0 s sample_store = Some (tt, s', h') /\
    sample_sets !! q = None /\
    outcome 0 [ReplyInt (Z.of_nat (base.size R))] (alter (replaced (str "t") q R) 0%nat [sample_db]) 1 s s' /\
    store_repr 0 2 h' sample_sets /\ (R <> ∅ -> store_repr 0 2 h' (<[q := R]> sample_sets)).
Proof.
  exact (set_store steady_clock 0 true (fun _ => 7) (IntObj 0) 2 sample_max sort_with sort_with_permutes
    SUNION 0 0 _ (str "t") _ _ _ _ _ _ (sample_names _)).
Defined.

(** The second argument is a member already, in another encoding. *)
Lemma sadd_sismember_witness :
  let s := set_sample [str "sadd"; str "l"; str "b"; str "5"] in
  let X := {[[49; 50]; [53]]} in
  let Y := list_to_set [str "b"; str "5"] ∪ X in
  let added := Z.of_nat (base.size Y) - Z.of_nat (base.size X) in
  exists p s' h', (saddCommand steady_clock 0 true (fun _ => 7) (IntObj 0) 2 0;;
      srv (on_client 0 (set_c_argv [str "sismember"; str "l"; str "12"]));; sismemberCommand steady_clock 0 0) s sample_store = Some (tt, s', h') /\
    outcome 0 [ReplyInt added; ReplyInt (Z.b2z (bool_decide (str "12" ∈ Y)))] (with_set 0 (str "l") p sample_db [sample_db])
      added s s' /\
    store_repr 0 2 h' (<[p := Y]> sample_sets).
Proof.
  apply (sadd_sismember steady_clock 0 true (fun _ => 7) (IntObj 0) 2 sample_max 0 0 (str "sadd") (str "sismember") (str "l") [str "b"; str "5"]
    (str "12") sample_sets {[[49; 50]; [53]]} sample_db).
  - by eexists. - reflexivity. - by apply remains_none. - by exists 2%nat. - apply sample_store_repr. - discriminate. - vm_compute. discriminate.
Defined.

(** ** A set freed between two lookups

    Each lookup reads the clock.  When the same key is given twice and expires
    between its two lookups, the second deletes the set that the first has
    returned: SUNION goes on to iterate an object that no key refers to, which
    [dbDelete] has freed. *)
Definition expiring_sample : server :=
  set_clients {[0%nat := RClient 0 0 [str "sunion"; str "k"; str "k"] [] [] []]}
    (set_dbs [RedisDb {[str "k" := Other REDIS_SET 1]} {[str "k" := 1000]} ∅] sample).

Lemma sunion_uses_freed_set :
  match union_sets sample_clock 0 0 None [str "k"; str "k"] [] expiring_sample sample_store with
  | Some (Some ps, s', _) => ps = [Some 1%nat; None] /\ s_db s' = [RedisDb ∅ ∅ ∅]
  | _ => False
  end.
Proof. vm_compute. split; reflexivity. Qed.
