(* ===== verification/HashType.v ===== *)
(** * Hashes ([t_hash.c], the type)

    A hash is a ziplist of fields and values in turn as long as it is small,
    and a hash table otherwise.  The keys of this hash table are string
    objects, hashed and compared by the bytes they stand for whatever their
    encoding: an entry of the model has these bytes as its key. *)
From S2P Require Import Prelude Util Dict DictIter Sds Server Memory Ziplist SetType.

Inductive hashobj := ZlHash (zl : list Z) | HtHash (d : dict (list Z) robj).

Definition ZIPLIST_HEAD := 0.

(** The object of what [ziplistGet] returns. *)
Definition value_object (v : list Z + Z) : robj :=
  match v with inl s => Raw s | inr ll => createStringObjectFromLongLong ll end.

Definition encode_object (o : robj) : robj := match o with Raw s => tryObjectEncoding s | o => o end.

Definition createHashObject : hashobj := ZlHash ziplistNew.

(** [fptr] and [vptr] of [hashTypeSet] and the others: [Some None] when the
    field is not there. *)
Definition find_field (zl field : list Z) : option (option Z) :=
  fptr ← ziplistIndex zl ZIPLIST_HEAD;
  match fptr with None => Some None | Some fptr => ziplistFind fptr field zl 1 end.

Definition value_of_field (zl : list Z) (fptr : Z) : option Z := mjoin (ziplistNext zl fptr).

Section HashType.
(** The seed of the hash function, [dict_can_resize], uninitialised memory,
    [server.hash_max_ziplist_entries] and [server.hash_max_ziplist_value]. *)
Context (seed : Z) (can_resize : bool) (junk : nat -> Z) (junk_obj : robj) (max_entries max_value : Z).

#[local] Instance hashDictType : DictType (list Z) := sds_dictType seed.

Definition hashTypeGetFromZiplist (zl : list Z) (field : robj) : option (option (list Z + Z)) :=
  field ← getDecodedObject field;
  fptr ← find_field zl field;
  match fptr with
  | None => Some None
  | Some fptr => vptr ← value_of_field zl fptr; v ← ziplistGet (Some vptr) zl; v ← v; Some (Some v)
  end.

Definition hashTypeGetFromHashTable (d : dict (list Z) robj) (field : robj) : option (dict (list Z) robj * option robj) :=
  k ← getDecodedObject field;
  '(d, de) ← dictFind d k;
  Some (d, match de with Some (_, e) => Some (val e) | None => None end).

(** A search in a hash table may rehash it. *)
Definition hashTypeGetObject (o : hashobj) (field : robj) : option (hashobj * option robj) :=
  match o with
  | ZlHash zl => r ← hashTypeGetFromZiplist zl field; Some (o, fmap (M := option) value_object r)
  | HtHash d => '(d, r) ← hashTypeGetFromHashTable d field; Some (HtHash d, r)
  end.

Definition hashTypeExists (o : hashobj) (field : robj) : option (hashobj * bool) :=
  match o with
  | ZlHash zl => r ← hashTypeGetFromZiplist zl field; Some (o, bool_decide (is_Some r))
  | HtHash d => '(d, r) ← hashTypeGetFromHashTable d field; Some (HtHash d, bool_decide (is_Some r))
  end.

(** [ziplistLen] may store the number of entries it has counted. *)
Definition hashTypeLength (o : hashobj) : option (hashobj * Z) :=
  match o with
  | ZlHash zl => '(n, zl) ← ziplistLen zl; Some (ZlHash zl, n `quot` 2)
  | HtHash d => Some (o, dictSize d)
  end.

(** ** Iteration *)

(** [hashTypeNext] on a ziplist: the next field and its value, at the cursor
    [vptr] or at the start. *)
Definition hashTypeNext (zl : list Z) (vptr : option Z) : option (option (Z * Z)) :=
  fptr ← match vptr with None => ziplistIndex zl 0 | Some vptr => ziplistNext zl vptr end;
  match fptr with
  | None => Some None
  | Some fptr => vptr ← value_of_field zl fptr; Some (Some (fptr, vptr))
  end.

(** [hashTypeCurrentObject] on a ziplist. *)
Definition hashTypeCurrentFromZiplist (zl : list Z) (ptr : Z) : option robj :=
  v ← ziplistGet (Some ptr) zl; fmap (M := option) value_object v.

Fixpoint zl_iterate (fuel : nat) (zl : list Z) (vptr : option Z) : option (list (robj * robj)) :=
  match fuel with
  | O => None
  | S fuel =>
      r ← hashTypeNext zl vptr;
      match r with
      | None => Some []
      | Some (fptr, vptr) =>
          field ← hashTypeCurrentFromZiplist zl fptr;
          value ← hashTypeCurrentFromZiplist zl vptr;
          rest ← zl_iterate fuel zl (Some vptr);
          Some ((field, value) :: rest)
      end
  end.

(** The fields and values, in the order of an iteration. *)
Definition hash_iterate (o : hashobj) : option (list (robj * robj)) :=
  match o with
  | ZlHash zl => zl_iterate (S (length zl)) zl None
  | HtHash d => es ← dict_iterate d; Some (map (fun e => (Raw (key e), val e)) es)
  end.

(** ** Conversion *)

Fixpoint convert_entries (es : list (robj * robj)) (d : dict (list Z) robj) : option (dict (list Z) robj) :=
  match es with
  | [] => Some d
  | (field, value) :: es =>
      k ← getDecodedObject (encode_object field);
      '(d, ok) ← dictAdd can_resize junk_obj d k (encode_object value);
      if (ok : bool) then convert_entries es d else None
  end.

(** To a hash table; the other direction is not implemented by the code. *)
Definition hashTypeConvert (o : hashobj) : option hashobj :=
  match o with
  | ZlHash _ => es ← hash_iterate o; d ← convert_entries es dictCreate; Some (HtHash d)
  | HtHash _ => None
  end.

Fixpoint hashTypeTryConversion (o : hashobj) (args : list robj) : option hashobj :=
  match o with
  | HtHash _ => Some o
  | ZlHash _ =>
      match args with
      | [] => Some o
      | Raw s :: args => if bool_decide (zlen s > max_value) then hashTypeConvert o else hashTypeTryConversion o args
      | _ :: args => hashTypeTryConversion o args
      end
  end.

Definition hashTypeTryObjectEncoding (subject : hashobj) (o : robj) : robj :=
  match subject with HtHash _ => encode_object o | ZlHash _ => o end.

(** ** Updates *)

(** The ziplist after the pair is set, and whether the field was there. *)
Definition zl_set (zl field value : list Z) : option (list Z * bool) :=
  fptr ← find_field zl field;
  match fptr with
  | Some fptr =>
      vptr ← value_of_field zl fptr;
      '(zl, vptr) ← ziplistDelete junk zl vptr;
      zl ← ziplistInsert junk zl vptr value; Some (zl, true)
  | None =>
      zl ← ziplistPush junk zl field false;
      zl ← ziplistPush junk zl value false; Some (zl, false)
  end.

(** The flag is true on update. *)
Definition hashTypeSet (o : hashobj) (field value : robj) : option (hashobj * bool) :=
  match o with
  | ZlHash zl =>
      field ← getDecodedObject field; value ← getDecodedObject value;
      '(zl, update) ← zl_set zl field value;
      '(o, n) ← hashTypeLength (ZlHash zl);
      o ← (if bool_decide (n > max_entries) then hashTypeConvert o else Some o);
      Some (o, update)
  | HtHash d =>
      k ← getDecodedObject field;
      '(d, inserted) ← dictReplace can_resize junk_obj d k value;
      Some (HtHash d, negb inserted)
  end.

Definition hashTypeDelete (o : hashobj) (field : robj) : option (hashobj * bool) :=
  match o with
  | ZlHash zl =>
      field ← getDecodedObject field;
      fptr ← find_field zl field;
      match fptr with
      | None => Some (o, false)
      | Some fptr =>
          '(zl, fptr) ← ziplistDelete junk zl fptr;
          '(zl, _) ← ziplistDelete junk zl fptr;
          Some (ZlHash zl, true)
      end
  | HtHash d =>
      k ← getDecodedObject field;
      '(d, ok) ← dictGenericDelete d k;
      if (ok : bool) then
        d ← (if htNeedsResize d then '(d, _) ← dictResize can_resize d; Some d else Some d);
        Some (HtHash d, true)
      else Some (HtHash d, false)
  end.
(** The body of [hsetCommand] and of the loop of [hmsetCommand]. *)
Definition set_encoded (o : hashobj) (field value : list Z) : option (hashobj * bool) :=
  hashTypeSet o (hashTypeTryObjectEncoding o (Raw field)) (hashTypeTryObjectEncoding o (Raw value)).

Definition hset_object (o : hashobj) (field value : list Z) : option (hashobj * bool) :=
  o ← hashTypeTryConversion o [Raw field; Raw value];
  set_encoded o field value.

(** That of [hsetnxCommand]; the flag is true when the pair was set. *)
Definition hsetnx_object (o : hashobj) (field value : list Z) : option (hashobj * bool) :=
  o ← hashTypeTryConversion o [Raw field; Raw value];
  '(o, exists_) ← hashTypeExists o (Raw field);
  if (exists_ : bool) then Some (o, false) else '(o, _) ← set_encoded o field value; Some (o, true).
End HashType.
