(* ===== verification/HashSpecs.v ===== *)
(** * Hashes refine finite maps

    [hash_repr] relates a hash object, in either encoding, to a finite map
    from strings to strings. *)
#[local] Set Warnings "-clear-no-such-hyp".
From S2P Require Import Prelude Util Dict DictIter Sds Server Memory Ziplist ZiplistLogic ZiplistOps ZiplistSpecs SetType SetSpecs HashType.

(** ** Ziplists of pairs *)

Abbreviation pairs := (list (list Z * list Z)).

Definition flatten (l : pairs) : list (list Z) := l ≫= (fun x => [x.1; x.2]).

Lemma flatten_app l1 l2 : flatten (l1 ++ l2) = flatten l1 ++ flatten l2.
Proof. unfold flatten. by rewrite bind_app. Qed.

Lemma flatten_length l : length (flatten l) = (2 * length l)%nat.
Proof. induction l as [|x l IH]; [done|]. change (flatten (x :: l)) with (x.1 :: x.2 :: flatten l). cbn [length]. lia. Qed.

Lemma flatten_lookup l i : flatten l !! (2 * i)%nat = fst <$> l !! i /\ flatten l !! S (2 * i)%nat = snd <$> l !! i.
Proof.
  revert i. induction l as [|x l IH]; intros i; [done|]. change (flatten (x :: l)) with (x.1 :: x.2 :: flatten l).
  destruct i as [|i]; [done|]. replace (2 * S i)%nat with (S (S (2 * i))) by lia. apply IH.
Qed.

(** The position of a field. *)
Definition field_index (f : list Z) (l : pairs) : option nat := fst <$> list_find (fun x => x.1 = f) l.

Lemma find_pairs f l : find_from f 1 0 (flatten l) = (fun i => (2 * i)%nat) <$> field_index f l.
Proof.
  unfold field_index. induction l as [|[k v] l IH]; [done|]. change (flatten ((k, v) :: l)) with (k :: v :: flatten l). cbn [find_from list_find fst].
  destruct (decide (k = f)); [done|]. rewrite IH. destruct (list_find _ l) as [[i x]|]; [|done]. cbn. f_equal. lia.
Qed.

Lemma field_index_some f l i : field_index f l = Some i -> exists l1 v l2, l = l1 ++ (f, v) :: l2 /\ i = length l1.
Proof.
  unfold field_index. destruct (list_find (fun x => x.1 = f) l) as [[j [k v]]|] eqn:E; [|done]. intros [= <-].
  apply list_find_Some in E as (Hj & Hk & _). cbn in Hk. subst k. exists (take j l), v, (drop (S j) l).
  rewrite take_drop_middle by done. split; [done|]. apply lookup_lt_Some in Hj. rewrite length_take. lia.
Qed.

Lemma field_index_none f l : field_index f l = None <-> f ∉ l.*1.
Proof.
  unfold field_index. rewrite fmap_None, list_find_None, Forall_forall, list_elem_of_fmap. split.
  - intros Hn ([k v] & -> & Hin). by apply (Hn _ Hin).
  - intros Hn [k v] Hin Hk. apply Hn. cbn in Hk. subst k. by exists (f, v).
Qed.

Lemma field_index_lookup f l i v : NoDup l.*1 -> field_index f l = Some i -> l !! i = Some (f, v) -> (list_to_map l : gmap (list Z) (list Z)) !! f = Some v.
Proof. intros Hn _ Hi. apply elem_of_list_to_map; [done|]. by eapply list_elem_of_lookup_2. Qed.

Section Pairs.
Context (zl : list Z) (cnt : Z) (es : list ent) (l : pairs).
Context (Hrepr : repr zl cnt es) (Hl : ent_str <$> es = flatten l) (Hfits : fits (flatten l)).

Lemma pairs_length : length es = (2 * length l)%nat.
Proof using Hl. by rewrite <- (flatten_length l), <- Hl, length_fmap. Qed.

Lemma find_field_spec f : find_field zl f = Some ((fun i => offset es (2 * i)) <$> field_index f l).
Proof using All.
  unfold find_field, ZIPLIST_HEAD. rewrite (index_spec zl cnt es Hrepr) by (rewrite ?Hl; done || lia). bind_simpl.
  unfold position. rewrite (bool_decide_false (0 < 0)) by lia. pose proof pairs_length as Hlen. case_bool_decide as Hpos.
  - cbn [fmap option_fmap option_map]. change (Z.to_nat 0) with O. pose proof (find_spec zl cnt es Hrepr f 1 0 ltac:(lia)) as Hf. change (Z.of_nat 1) with 1 in Hf. rewrite Hf.
    rewrite drop_0, Hl, find_pairs. by destruct (field_index f l).
  - destruct l as [|x l']; [done|]. cbn [length] in *. lia.
Qed.

Lemma value_of_field_spec i : (i < length l)%nat -> value_of_field zl (offset es (2 * i)) = Some (offset es (S (2 * i))).
Proof using Hrepr Hl.
  intros Hi. pose proof pairs_length. unfold value_of_field. rewrite (next_spec zl cnt es Hrepr) by lia. by rewrite bool_decide_true by lia.
Qed.

Lemma get_value_spec i x : l !! i = Some x -> ziplistGet (Some (offset es (S (2 * i)))) zl = Some (Some (zvalue x.2)).
Proof using Hrepr Hl.
  intros Hi. pose proof pairs_length. apply lookup_lt_Some in Hi as Hlt. rewrite (get_spec zl cnt es Hrepr) by lia.
  by rewrite Hl, (proj2 (flatten_lookup l i)), Hi.
Qed.

Lemma get_field_spec i x : l !! i = Some x -> ziplistGet (Some (offset es (2 * i))) zl = Some (Some (zvalue x.1)).
Proof using Hrepr Hl.
  intros Hi. pose proof pairs_length. apply lookup_lt_Some in Hi as Hlt. rewrite (get_spec zl cnt es Hrepr) by lia.
  by rewrite Hl, (proj1 (flatten_lookup l i)), Hi.
Qed.

(** The index where the cursor is, and the pairs that are left. *)
Lemma zl_iterate_loop : forall fuel i, (i <= length l)%nat -> (length l - i < fuel)%nat ->
  zl_iterate fuel zl (match i with O => None | S j => Some (offset es (S (2 * j))) end) =
    Some ((fun x => (value_object (zvalue x.1), value_object (zvalue x.2))) <$> drop i l).
Proof using All.
  pose proof pairs_length as Hlen. induction fuel as [|fuel IH]; intros i Hi Hf; [lia|]. cbn [zl_iterate].
  assert (hashTypeNext zl (match i with O => None | S j => Some (offset es (S (2 * j))) end) =
    Some (if decide (i < length l)%nat then Some (offset es (2 * i), offset es (S (2 * i))) else None)) as ->.
  { unfold hashTypeNext. assert (match match i with O => None | S j => Some (offset es (S (2 * j))) end with
        None => ziplistIndex zl 0 | Some vptr => ziplistNext zl vptr end = Some (if decide (i < length l)%nat then Some (offset es (2 * i)) else None)) as ->.
    { destruct i as [|j].
      - rewrite (index_spec zl cnt es Hrepr) by (rewrite ?Hl; done || lia). unfold position. rewrite (bool_decide_false (0 < 0)) by lia.
        case_bool_decide; case_decide; try lia; done.
      - rewrite (next_spec zl cnt es Hrepr) by lia. replace (S (S (2 * j))) with (2 * S j)%nat by lia.
        case_bool_decide; case_decide; try lia; done. }
    bind_simpl. case_decide; [|done]. rewrite value_of_field_spec by done. done. }
  bind_simpl. case_decide as Hlt.
  - destruct (lookup_lt_is_Some_2 l i Hlt) as [x Hx]. unfold hashTypeCurrentFromZiplist at 1 2.
    rewrite (get_field_spec i x Hx), (get_value_spec i x Hx). bind_simpl. cbn [fmap option_fmap option_map mbind option_bind].
    pose proof (IH (S i) ltac:(lia) ltac:(lia)) as IH'. cbn iota in IH'. rewrite IH'. bind_simpl. by rewrite (drop_S l x i Hx).
  - by rewrite drop_ge by lia.
Qed.

Lemma zl_iterate_spec : hash_iterate (ZlHash zl) = Some ((fun x => (value_object (zvalue x.1), value_object (zvalue x.2))) <$> l).
Proof using All.
  unfold hash_iterate. rewrite (zl_iterate_loop (S (length zl)) 0); [done|lia|]. pose proof pairs_length.
  assert (fits (ent_str <$> es)) as Hf by by rewrite Hl. pose proof (enough_fuel zl cnt es Hrepr). lia.
Qed.
End Pairs.

(** ** Operations on the pairs *)

Definition set_pair (f v : list Z) (l : pairs) : pairs :=
  match field_index f l with Some i => take i l ++ (f, v) :: drop (S i) l | None => l ++ [(f, v)] end.

Definition del_pair (f : list Z) (l : pairs) : pairs :=
  match field_index f l with Some i => take i l ++ drop (S i) l | None => l end.

Definition pairs_map (l : pairs) : gmap (list Z) (list Z) := list_to_map l.

Lemma split_pairs l1 x l2 : take (length l1) (l1 ++ x :: l2 : pairs) = l1 /\ drop (S (length l1)) (l1 ++ x :: l2 : pairs) = l2.
Proof. split; [by apply take_app_length|]. replace (S (length l1)) with (length l1 + 1)%nat by lia. by rewrite drop_app_add. Qed.

Lemma get_pair f l : NoDup l.*1 -> pairs_map l !! f = (i ← field_index f l; snd <$> l !! i).
Proof.
  intros Hn. destruct (field_index f l) as [i|] eqn:Hi; cbn [mbind option_bind].
  - destruct (field_index_some f l i Hi) as (l1 & v & l2 & -> & ->). rewrite list_lookup_middle by done. cbn. apply elem_of_list_to_map; [done|].
    apply elem_of_app. right. apply list_elem_of_here.
  - apply not_elem_of_list_to_map. by apply field_index_none.
Qed.

Lemma middle_fmap {A B} (h : A -> B) l1 x l2 : h <$> l1 ++ x :: l2 ≡ₚ h x :: (h <$> l1 ++ l2).
Proof. rewrite !fmap_app, fmap_cons. by rewrite <- Permutation_middle. Qed.

Lemma pairs_map_middle l1 x l2 : NoDup (l1 ++ x :: l2).*1 ->
  pairs_map (l1 ++ x :: l2) = <[x.1 := x.2]> (pairs_map (l1 ++ l2)) /\ pairs_map (l1 ++ l2) !! x.1 = None /\ NoDup (l1 ++ l2).*1.
Proof.
  intros Hn. pose proof Hn as Hn'. rewrite middle_fmap in Hn'. apply NoDup_cons in Hn' as [Hx Hn']. unfold pairs_map. split; [|split; [|done]].
  - rewrite <- list_to_map_cons. rewrite <- surjective_pairing. apply list_to_map_proper; [done|]. by rewrite Permutation_middle.
  - by apply not_elem_of_list_to_map.
Qed.

Lemma set_pair_spec f v l : NoDup l.*1 ->
  NoDup (set_pair f v l).*1 /\ pairs_map (set_pair f v l) = <[f := v]> (pairs_map l) /\
  (set_pair f v l).*1 ≡ₚ (if bool_decide (is_Some (field_index f l)) then l.*1 else f :: l.*1).
Proof.
  intros Hn. unfold set_pair. destruct (field_index f l) as [i|] eqn:Hi.
  - destruct (field_index_some f l i Hi) as (l1 & v0 & l2 & -> & ->). destruct (split_pairs l1 (f, v0) l2) as [-> ->].
    assert (NoDup (l1 ++ (f, v) :: l2).*1) as Hn2 by (rewrite fmap_app, fmap_cons in *; done).
    destruct (pairs_map_middle l1 (f, v0) l2 Hn) as (-> & _ & _). destruct (pairs_map_middle l1 (f, v) l2 Hn2) as (-> & _ & _).
    cbn [fst snd]. rewrite insert_insert_eq. rewrite bool_decide_true by done. split; [done|]. split; [done|]. by rewrite !fmap_app, !fmap_cons.
  - apply field_index_none in Hi. rewrite bool_decide_false by by intros [? ?]. split.
    + rewrite fmap_app. cbn. apply NoDup_app. split; [done|]. split; [|apply NoDup_singleton]. by intros x Hx ->%list_elem_of_singleton.
    + split; [by apply list_to_map_snoc|]. rewrite fmap_app. cbn. by rewrite Permutation_app_comm.
Qed.

Lemma del_pair_spec f l : NoDup l.*1 -> NoDup (del_pair f l).*1 /\ pairs_map (del_pair f l) = delete f (pairs_map l) /\ (length (del_pair f l) <= length l)%nat.
Proof.
  intros Hn. unfold del_pair. destruct (field_index f l) as [i|] eqn:Hi.
  - destruct (field_index_some f l i Hi) as (l1 & v0 & l2 & -> & ->). destruct (split_pairs l1 (f, v0) l2) as [-> ->].
    destruct (pairs_map_middle l1 (f, v0) l2 Hn) as (-> & Hf & Hn2). cbn [fst snd] in *. rewrite delete_insert_eq, delete_id by done.
    split; [done|]. split; [done|]. rewrite !length_app. cbn. lia.
  - split; [done|]. split; [|done]. symmetry. apply delete_id, not_elem_of_list_to_map. by apply field_index_none.
Qed.

(** ** Operations on the ziplist *)

Lemma split_ents (es : list ent) A B : ent_str <$> es = A ++ B -> exists es1 es2, es = es1 ++ es2 /\ ent_str <$> es1 = A /\ ent_str <$> es2 = B.
Proof. intros H. apply fmap_app_inv in H as (es1 & es2 & -> & -> & ->). by exists es1, es2. Qed.

Lemma entries_of_pair (es : list ent) l1 f v l2 : ent_str <$> es = flatten (l1 ++ (f, v) :: l2) -> exists es1 ef ev es2,
  es = es1 ++ ef :: ev :: es2 /\ ent_str <$> es1 = flatten l1 /\ ent_str ef = f /\ ent_str ev = v /\ ent_str <$> es2 = flatten l2 /\
  length es1 = (2 * length l1)%nat.
Proof.
  rewrite flatten_app. intros (es1 & es' & -> & H1 & H')%split_ents. destruct es' as [|ef [|ev es2]]; try done.
  injection H' as Hf Hv H2. exists es1, ef, ev, es2. split_and!; [done..|]. by rewrite <- (flatten_length l1), <- H1, length_fmap.
Qed.

Lemma offset_middle (es1 es2 : list ent) k : length es1 = k -> offset (es1 ++ es2) k = 10 + zlen (ents es1).
Proof. intros <-. unfold offset. by rewrite take_app_length. Qed.

Lemma zl_set_spec junk zl l f v : zl_repr zl (flatten l) -> str_ok f -> str_ok v -> fits (f :: v :: flatten l) ->
  exists zl', zl_set junk zl f v = Some (zl', bool_decide (is_Some (field_index f l))) /\ zl_repr zl' (flatten (set_pair f v l)).
Proof.
  intros (cnt & es & Hrepr & Hl) Hf Hv Hfits. symmetry in Hl. pose proof (Hfits) as Hfits'. unfold fits in Hfits'. rewrite !room_cons in Hfits'.
  assert (fits (flatten l)) as Hfl by (unfold fits; lia). unfold zl_set, set_pair. rewrite (find_field_spec zl cnt es l Hrepr Hl Hfl f). bind_simpl.
  destruct (field_index f l) as [i|] eqn:Hi; cbn [fmap option_fmap option_map].
  - destruct (field_index_some f l i Hi) as (l1 & v0 & l2 & -> & ->).
    rewrite (value_of_field_spec zl cnt es _ Hrepr Hl) by (rewrite length_app; cbn [length]; lia). bind_simpl.
    destruct (entries_of_pair es l1 f v0 l2 Hl) as (es1 & ef & ev & es2 & -> & H1 & Hef & Hev & H2 & Hlen1).
    destruct (split_pairs l1 (f, v0) l2) as [-> ->]. unfold ziplistDelete, ziplistInsert.
    replace (es1 ++ ef :: ev :: es2) with ((es1 ++ [ef]) ++ ev :: es2) in * by (by rewrite <- app_assoc).
    rewrite (offset_middle (es1 ++ [ef])) by (rewrite length_app; cbn [length]; lia).
    destruct (replace_repr junk zl cnt (es1 ++ [ef]) ev es2 v Hrepr Hv) as (zl1 & zl2 & -> & Hins & Hr2).
    { rewrite Hl. unfold fits. rewrite room_cons. lia. }
    bind_simpl. rewrite Hins. bind_simpl. rewrite bool_decide_true by done. exists zl2. split; [done|].
    replace (flatten (l1 ++ (f, v) :: l2)) with ((ent_str <$> es1 ++ [ef]) ++ v :: (ent_str <$> es2)); [done|].
    rewrite fmap_app, H1, H2, flatten_app. cbn. by rewrite Hef, <- app_assoc.
  - rewrite bool_decide_false by by intros [? ?].
    assert (zl_repr zl (flatten l)) as Hz by (exists cnt, es; done).
    destruct (run_op_refines zl (flatten l) junk (ZlPush false f) Hz Hf) as (zl1 & Hp1 & Hr1); [cbn [op_strings]; rewrite room_cons; change (room []) with 0; lia|].
    cbn [run_op fst snd spec_op] in Hp1, Hr1. rewrite Hp1. bind_simpl.
    destruct (run_op_refines zl1 _ junk (ZlPush false v) Hr1 Hv) as (zl2 & Hp2 & Hr2);
      [rewrite room_app; cbn [op_strings]; rewrite !room_cons; change (room []) with 0; lia|].
    cbn [run_op fst snd spec_op] in Hp2, Hr2. rewrite Hp2. bind_simpl. exists zl2. split; [done|].
    rewrite flatten_app. by rewrite <- app_assoc in Hr2.
Qed.

Lemma zl_delete_spec junk zl l f i : zl_repr zl (flatten l) -> fits (flatten l) -> field_index f l = Some i ->
  exists p zl1 zl2, find_field zl f = Some (Some p) /\ ziplistDelete junk zl p = Some (zl1, p) /\ ziplistDelete junk zl1 p = Some (zl2, p) /\
    zl_repr zl2 (flatten (del_pair f l)).
Proof.
  intros (cnt & es & Hrepr & Hl) Hfl Hi. symmetry in Hl. rewrite (find_field_spec zl cnt es l Hrepr Hl Hfl f). unfold del_pair. rewrite Hi. cbn [fmap option_fmap option_map].
  destruct (field_index_some f l i Hi) as (l1 & v0 & l2 & -> & ->).
  destruct (entries_of_pair es l1 f v0 l2 Hl) as (es1 & ef & ev & es2 & -> & H1 & Hef & Hev & H2 & Hlen1).
  destruct (split_pairs l1 (f, v0) l2) as [-> ->]. rewrite (offset_middle es1) by done. unfold ziplistDelete.
  exists (10 + zlen (ents es1)). unfold fits in Hfl. rewrite flatten_app, room_app in Hfl. change (flatten ((f, v0) :: l2)) with (f :: v0 :: flatten l2) in Hfl. rewrite !room_cons in Hfl.
  destruct (delete_repr junk zl cnt es1 [ef] (ev :: es2) 1 Hrepr) as (zl1 & cnt1 & es' & Hd1 & Hr1 & Hes' & _); [done|done|by right| |].
  { unfold fits. rewrite fmap_app, room_app, H1. cbn [app]. rewrite !fmap_cons, !room_cons, Hef, Hev, H2. lia. }
  destruct es' as [|ev' es2']; [done|]. rewrite !fmap_cons in Hes'. apply (inj2 cons) in Hes' as [Hev' H2']. exists zl1.
  destruct (delete_repr junk zl1 cnt1 es1 [ev'] es2' 1 Hr1) as (zl2 & cnt2 & es3 & Hd & Hr2 & Hes3 & _); [done|done|by right| |].
  { unfold fits. rewrite fmap_app, room_app, H1. cbn [app]. rewrite !fmap_cons, !room_cons, Hev', H2', Hev, H2. lia. }
  exists zl2. rewrite Hd1. bind_simpl. rewrite Hd. split_and!; [done..|]. exists cnt2, (es1 ++ es3). split; [done|].
  by rewrite fmap_app, H1, Hes3, H2', H2, flatten_app.
Qed.

(** ** Objects *)

Lemma encode_stands o s : stands_for o s -> stands_for (encode_object o) s.
Proof. destruct o as [b|v|]; simpl; [|done..]. intros ->. apply encoded_stands. Qed.

Lemma value_stands s : stands_for (value_object (zvalue s)) s.
Proof.
  unfold zvalue. destruct (zipTryEncoding s) as [[v enc]|] eqn:E; [|done]. apply try_encoding_class in E as [H _].
  by apply string2ll_decimal in H.
Qed.

(** The objects of an iteration stand for pairs. *)
Definition pair_stands (e : robj * robj) (x : list Z * list Z) : Prop := stands_for e.1 x.1 /\ stands_for e.2 x.2.

Definition hash_yields (es : list (robj * robj)) (m : gmap (list Z) (list Z)) : Prop :=
  exists l, Forall2 pair_stands es l /\ NoDup l.*1 /\ pairs_map l = m.

Section Spec.
Context (seed : Z) (can_resize : bool) (junk : nat -> Z) (junk_obj : robj) (max_entries max_value : Z).

(** The longest string of a ziplist: printed integers have at most 20 bytes. *)
Definition max_string : Z := Z.max max_value 20.
Context (Hentries : 0 <= max_entries < max_elements) (Hroom : 11 + 2 * (max_entries + 1) * (max_string + 24) < 2 ^ 32).

#[local] Existing Instance hashDictType.
Abbreviation hdict := (dict (list Z) robj).
Abbreviation smap := (gmap (list Z) (list Z)).

(** ** Hash tables *)

Record hm_repr (d : hdict) (m : smap) (mo : gmap (list Z) robj) : Prop := {
  hr_repr : @dict_repr _ _ _ (hashDictType seed) _ d mo;
  hr_small : small_tables d;
  hr_stands : forall k, option_Forall2 stands_for (mo !! k) (m !! k) }.

Definition hm_map (d : hdict) (m : smap) : Prop := exists mo, hm_repr d m mo.

Lemma stands_dom (mo : gmap (list Z) robj) (m : smap) : (forall k, option_Forall2 stands_for (mo !! k) (m !! k)) -> dom mo = dom m.
Proof using Type.
  intros H. apply set_eq. intros k. rewrite !elem_of_dom. specialize (H k). destruct H; [|done]. split; by eexists.
Qed.

Lemma stands_size (mo : gmap (list Z) robj) (m : smap) : (forall k, option_Forall2 stands_for (mo !! k) (m !! k)) -> base.size mo = base.size m.
Proof using Type. intros H. by rewrite <- !size_dom, (stands_dom mo m H). Qed.

Lemma stands_absent (mo : gmap (list Z) robj) (m : smap) k : (forall k, option_Forall2 stands_for (mo !! k) (m !! k)) -> absent mo k = bool_decide (m !! k = None).
Proof using Type. intros H. unfold absent. specialize (H k). apply bool_decide_ext. destruct H; done. Qed.

Lemma stands_insert (mo : gmap (list Z) robj) (m : smap) k o v : (forall k, option_Forall2 stands_for (mo !! k) (m !! k)) -> stands_for o v ->
  forall k', option_Forall2 stands_for (<[k := o]> mo !! k') (<[k := v]> m !! k').
Proof using Type.
  intros H Hv k'. destruct (decide (k = k')) as [<-|]; [rewrite !lookup_insert_eq; by constructor|]. rewrite !lookup_insert_ne by done. apply H.
Qed.

Lemma hm_size d m : hm_map d m -> dictSize d = Z.of_nat (base.size m).
Proof using Type. intros (mo & [Hr _ Hs]). rewrite <- (stands_size mo m Hs). by apply (dictSize_map (H := hashDictType seed)). Qed.

Lemma hm_create : hm_map dictCreate ∅.
Proof using Type.
  exists ∅. split; [apply (dictCreate_repr (H := hashDictType seed))|apply dictCreate_small|]. intros k. rewrite !lookup_empty. constructor.
Qed.

Lemma hm_replace d m k o v : hm_map d m -> stands_for o v -> Z.of_nat (base.size m) <= max_elements ->
  exists d', dictReplace (H := hashDictType seed) can_resize junk_obj d k o = Some (d', bool_decide (m !! k = None)) /\ hm_map d' (<[k := v]> m).
Proof using Type.
  intros (mo & [Hr Hsm Hs]) Hv Hm. rewrite <- (stands_size mo m Hs) in Hm.
  destruct (dictReplace_spec can_resize junk_obj d mo k o Hr) as (d' & Ha & Hr'); [unfold max_elements, max_used in *; lia|].
  rewrite (stands_absent mo m k Hs) in Ha. exists d'. split; [done|]. exists (<[k := o]> mo). split; [done| |by apply stands_insert].
  eapply dictReplace_small; [exact Hr|exact Hm|exact Ha|done].
Qed.

Lemma hm_add d m k o v : hm_map d m -> stands_for o v -> m !! k = None -> Z.of_nat (base.size m) <= max_elements ->
  exists d', dictAdd (H := hashDictType seed) can_resize junk_obj d k o = Some (d', true) /\ hm_map d' (<[k := v]> m).
Proof using Type.
  intros (mo & [Hr Hsm Hs]) Hv Hk Hm. rewrite <- (stands_size mo m Hs) in Hm.
  destruct (dictAdd_spec can_resize junk_obj d mo k o Hr) as (d' & Ha & Hr'); [unfold max_elements, max_used in *; lia|].
  rewrite (stands_absent mo m k Hs), bool_decide_true in * by done. exists d'. split; [done|]. exists (<[k := o]> mo). split; [done| |by apply stands_insert].
  eapply dictAdd_small; [exact Hr|exact Hm|exact Ha|done].
Qed.

Lemma hm_find d m k : hm_map d m -> exists d' r, hashTypeGetFromHashTable seed d (Raw k) = Some (d', r) /\ option_Forall2 stands_for r (m !! k) /\ hm_map d' m.
Proof using Type.
  intros (mo & [Hr Hsm Hs]). destruct (dictFind_spec d mo k Hr) as (d' & r & Hf & Hr' & _ & Hres).
  exists d', (match r with Some (_, e) => Some (val e) | None => None end). unfold hashTypeGetFromHashTable. cbn [getDecodedObject]. bind_simpl. rewrite Hf. bind_simpl.
  split; [done|]. split.
  - specialize (Hs k). destruct r as [[p e]|]; [destruct Hres as (_ & Hl & _)|]; [by rewrite Hl in Hs|]. by rewrite Hres in Hs.
  - exists mo. split; [done| |done]. by eapply dictFind_small.
Qed.

Lemma hm_delete d m k : hm_map d m -> exists d',
  dictGenericDelete (H := hashDictType seed) d k = Some (d', bool_decide (is_Some (m !! k))) /\ hm_map d' (delete k m).
Proof using Type.
  intros (mo & [Hr Hsm Hs]). destruct (dictDelete_spec d mo k Hr) as (d' & Hd & Hr').
  rewrite (stands_absent mo m k Hs), <- bool_decide_not in Hd.
  rewrite (bool_decide_ext (m !! k <> None) (is_Some (m !! k))) in Hd by (by rewrite not_eq_None_Some).
  exists d'. split; [done|]. exists (delete k mo). split; [done|by eapply dictDelete_small|].
  intros k'. destruct (decide (k = k')) as [<-|]; [rewrite !lookup_delete_eq; constructor|]. rewrite !lookup_delete_ne by done. apply Hs.
Qed.

Lemma hm_resize d m : hm_map d m -> Z.of_nat (base.size m) <= max_elements -> exists d' ok, dictResize can_resize d = Some (d', ok) /\ hm_map d' m.
Proof using Type.
  intros (mo & [Hr Hsm Hs]) Hm. rewrite <- (stands_size mo m Hs) in Hm.
  destruct (dictResize_keeps can_resize d mo Hr) as (d' & ok & Hd & Hr'); [unfold max_elements, max_used in *; lia|].
  exists d', ok. split; [done|]. exists mo. split; [done| |done]. eapply dictResize_small; [exact Hr|exact Hm|exact Hd|done].
Qed.

Lemma hm_yields d m : hm_map d m -> exists es, hash_iterate (HtHash d) = Some es /\ hash_yields es m.
Proof using Type.
  intros (mo & [Hr Hsm Hs]). unfold hash_iterate. rewrite (small_iterable (H := hashDictType seed) d mo Hr Hsm). bind_simpl.
  eexists. split; [done|]. destruct Hr as [_ Hn Hm].
  exists ((fun e => (key e, default [] (m !! key e))) <$> entries d). split; [|split].
  - assert (forall e, e ∈ entries d -> stands_for (val e) (default [] (m !! key e))) as Hall.
    { intros [k o] He. apply Hm in He. cbn. specialize (Hs k). rewrite He in Hs. by inversion Hs. }
    clear -Hall. induction (entries d) as [|e es IH]; simpl; constructor.
    + split; [done|]. apply Hall, list_elem_of_here.
    + apply IH. intros. by apply Hall, list_elem_of_further.
  - by rewrite <- list_fmap_compose.
  - apply map_eq. intros k. apply option_eq. intros v. unfold pairs_map. rewrite <- elem_of_list_to_map by by rewrite <- list_fmap_compose.
    rewrite list_elem_of_fmap. specialize (Hs k). split.
    + intros ([k' o] & [= -> ->] & He%Hm). cbn in *. rewrite He in Hs. by inversion Hs.
    + intros Hv. rewrite Hv in Hs. inversion Hs as [o ? Ho|]; subst. exists (DictEntry k o). cbn. rewrite Hv. split; [done|]. by apply Hm.
Qed.

(** ** The representation of a hash *)

Definition small_string (s : list Z) : Prop := bytes_ok s /\ zlen s <= max_string.
Definition small_pair (x : list Z * list Z) : Prop := small_string x.1 /\ small_string x.2.

Inductive hash_repr : hashobj -> smap -> Prop :=
| repr_zl zl l : zl_repr zl (flatten l) -> NoDup l.*1 -> Forall small_pair l -> zlen l <= max_entries -> hash_repr (ZlHash zl) (pairs_map l)
| repr_table d m : hm_map d m -> hash_repr (HtHash d) m.

Lemma room_pairs l : Forall small_pair l -> room (flatten l) <= 2 * zlen l * (max_string + 24).
Proof using Type.
  induction 1 as [|x l [[_ H1] [_ H2]] _ IH]; [done|]. change (flatten (x :: l)) with (x.1 :: x.2 :: flatten l). rewrite !room_cons. cbn [length].
  unfold max_string in *. nia.
Qed.

Lemma pairs_fit l : Forall small_pair l -> zlen l <= max_entries + 1 -> fits (flatten l).
Proof using All. intros Hl Hlen. pose proof (room_pairs l Hl). unfold fits, max_string in *. nia. Qed.

Lemma small_str_ok s : small_string s -> str_ok s.
Proof using All. intros [Hb Hs]. split; [done|]. unfold max_string in *. nia. Qed.

Lemma pairs_map_size l : NoDup l.*1 -> Z.of_nat (base.size (pairs_map l)) = zlen l.
Proof using Type. clear. intros Hn. unfold pairs_map. rewrite <- size_dom, dom_list_to_map_L, size_list_to_set by done. by rewrite length_fmap. Qed.

Lemma zl_yields zl l : zl_repr zl (flatten l) -> NoDup l.*1 -> fits (flatten l) -> exists es, hash_iterate (ZlHash zl) = Some es /\ hash_yields es (pairs_map l).
Proof using Type.
  intros (cnt & es & Hrepr & Hl) Hn Hf. symmetry in Hl. rewrite (zl_iterate_spec zl cnt es l Hrepr Hl Hf). eexists. split; [done|].
  exists l. split; [|done]. clear. induction l as [|x l IH]; simpl; constructor; [|done]. split; apply value_stands.
Qed.

Lemma hash_yields_spec o m : hash_repr o m -> exists es, hash_iterate o = Some es /\ hash_yields es m.
Proof using All.
  intros [zl l Hz Hn Hs Hlen|d m' Hd]; [|by apply hm_yields]. apply zl_yields; [done..|]. apply pairs_fit; [done|lia].
Qed.

(** ** The operations *)

Abbreviation hashTypeGetObject := (hashTypeGetObject seed).
Abbreviation hashTypeExists := (hashTypeExists seed).
Abbreviation hashTypeConvert := (hashTypeConvert seed can_resize junk_obj).
Abbreviation hashTypeTryConversion := (hashTypeTryConversion seed can_resize junk_obj max_value).
Abbreviation hashTypeSet := (hashTypeSet seed can_resize junk junk_obj max_entries).
Abbreviation hashTypeDelete := (hashTypeDelete seed can_resize junk).

Lemma zl_get zl l o f : zl_repr zl (flatten l) -> NoDup l.*1 -> fits (flatten l) -> stands_for o f ->
  hashTypeGetFromZiplist zl o = Some (zvalue <$> pairs_map l !! f).
Proof using Type.
  intros (cnt & es & Hrepr & Hl) Hn Hf Ho. symmetry in Hl. unfold hashTypeGetFromZiplist. rewrite (stands_decoded o f Ho). bind_simpl.
  rewrite (find_field_spec zl cnt es l Hrepr Hl Hf f), (get_pair f l Hn). bind_simpl. destruct (field_index f l) as [i|] eqn:Hi; [|done].
  cbn [fmap option_fmap option_map mbind option_bind]. destruct (field_index_some f l i Hi) as (l1 & v & l2 & El & Ei).
  assert (l !! i = Some (f, v)) as Hli by (by rewrite El, Ei, list_lookup_middle).
  rewrite (value_of_field_spec zl cnt es l Hrepr Hl) by (by eapply lookup_lt_Some). bind_simpl.
  rewrite (get_value_spec zl cnt es l Hrepr Hl i _ Hli), Hli. done.
Qed.

Lemma ht_get d m o f : hm_map d m -> stands_for o f -> exists d' r, hashTypeGetFromHashTable seed d o = Some (d', r) /\ option_Forall2 stands_for r (m !! f) /\ hm_map d' m.
Proof using Type.
  intros Hd Ho. destruct (hm_find d m f Hd) as (d' & r & Hf & Hr). exists d', r. split; [|done]. rewrite <- Hf.
  unfold hashTypeGetFromHashTable. by rewrite (stands_decoded o f Ho).
Qed.

Lemma hashTypeGetObject_spec ho m o f : hash_repr ho m -> stands_for o f ->
  exists ho' r, hashTypeGetObject ho o = Some (ho', r) /\ option_Forall2 stands_for r (m !! f) /\ hash_repr ho' m.
Proof using All.
  intros Hh Ho. pose proof Hh as Hh'. destruct Hh as [zl l Hz Hn Hs Hlen|d m Hd]; cbn [HashType.hashTypeGetObject].
  - rewrite (zl_get zl l o f) by (done || apply pairs_fit; done || lia). bind_simpl. eexists _, _. split; [done|]. split; [|done].
    destruct (pairs_map l !! f) as [v|]; constructor. apply value_stands.
  - destruct (ht_get d m o f Hd Ho) as (d' & r & -> & Hr & Hd'). bind_simpl. eexists _, _. split; [done|]. split; [done|]. by constructor.
Qed.

Lemma hashTypeExists_spec ho m o f : hash_repr ho m -> stands_for o f ->
  exists ho', hashTypeExists ho o = Some (ho', bool_decide (is_Some (m !! f))) /\ hash_repr ho' m.
Proof using All.
  intros Hh Ho. pose proof Hh as Hh'. destruct Hh as [zl l Hz Hn Hs Hlen|d m Hd]; cbn [HashType.hashTypeExists].
  - rewrite (zl_get zl l o f) by (done || apply pairs_fit; done || lia). bind_simpl. eexists. split; [|done]. do 2 f_equal.
    apply bool_decide_ext. apply fmap_is_Some.
  - destruct (ht_get d m o f Hd Ho) as (d' & r & -> & Hr & Hd'). bind_simpl. exists (HtHash d'). split; [|by constructor]. do 2 f_equal.
    apply bool_decide_ext. destruct Hr; [split; by eexists|done].
Qed.

Lemma zl_length zl l : zl_repr zl (flatten l) -> fits (flatten l) ->
  exists zl', hashTypeLength (ZlHash zl) = Some (ZlHash zl', zlen l) /\ zl_repr zl' (flatten l).
Proof using Type.
  intros (cnt & es & Hrepr & Hl) Hf. pose proof (pairs_length es l (eq_sym Hl)) as Hlen. cbn [hashTypeLength].
  destruct (len_spec zl cnt es Hrepr) as (zl' & cnt' & -> & Hr'); [by rewrite <- Hl|]. bind_simpl.
  exists zl'. split; [|by exists cnt', es]. rewrite Hlen. do 2 f_equal. rewrite Nat2Z.inj_mul. change (Z.of_nat 2) with 2.
  rewrite Z.mul_comm. by apply Z.quot_mul.
Qed.

Lemma hashTypeLength_spec ho m : hash_repr ho m -> exists ho', hashTypeLength ho = Some (ho', Z.of_nat (base.size m)) /\ hash_repr ho' m.
Proof using All.
  intros [zl l Hz Hn Hs Hlen|d m' Hd].
  - destruct (zl_length zl l Hz) as (zl' & -> & Hz'); [apply pairs_fit; [done|lia]|]. rewrite (pairs_map_size l Hn). eexists. split; [done|]. by constructor.
  - cbn [hashTypeLength]. rewrite (hm_size d m' Hd). eexists. split; [done|]. by constructor.
Qed.

Lemma convert_entries_spec es l d m : Forall2 pair_stands es l -> NoDup l.*1 -> (forall k, k ∈ l.*1 -> m !! k = None) -> hm_map d m ->
  Z.of_nat (base.size m) + zlen l <= max_elements + 1 ->
  exists d', convert_entries seed can_resize junk_obj es d = Some d' /\ hm_map d' (pairs_map l ∪ m).
Proof using Type.
  intros Hf. revert d m. induction Hf as [|[eo ev] [k v] es l [Hk Hv] _ IH]; intros d m Hn Hnew Hd Hb.
  { exists d. split; [done|]. unfold pairs_map. cbn. by rewrite map_empty_union. }
  rewrite fmap_cons in Hn, Hnew. cbn [fst snd] in *. apply NoDup_cons in Hn as [Hkl Hn]. cbn [length] in Hb. cbn [convert_entries].
  rewrite (stands_decoded _ k (encode_stands _ _ Hk)). bind_simpl. assert (m !! k = None) as Hkm by apply Hnew, list_elem_of_here.
  destruct (hm_add d m k (encode_object ev) v Hd (encode_stands _ _ Hv) Hkm ltac:(lia)) as (d1 & -> & Hd1). bind_simpl.
  destruct (IH d1 (<[k := v]> m) Hn) as (d' & -> & Hd'); [|done| |].
  - intros k' Hk'. rewrite lookup_insert_ne by (by intros ->). by apply Hnew, list_elem_of_further.
  - rewrite map_size_insert_None by done. lia.
  - exists d'. split; [done|]. unfold pairs_map in *. rewrite list_to_map_cons, <- insert_union_l.
    rewrite <- insert_union_r in Hd' by (by apply not_elem_of_list_to_map). done.
Qed.

Lemma zl_convert zl l : zl_repr zl (flatten l) -> NoDup l.*1 -> fits (flatten l) -> zlen l <= max_elements ->
  exists d, hashTypeConvert (ZlHash zl) = Some (HtHash d) /\ hm_map d (pairs_map l).
Proof using Type.
  intros Hz Hn Hf Hlen. destruct (zl_yields zl l Hz Hn Hf) as (es & Hes & l' & Hy & Hn' & Hm). unfold HashType.hashTypeConvert. rewrite Hes. bind_simpl.
  assert (zlen l' = zlen l) as Hll by (by rewrite <- (pairs_map_size l' Hn'), Hm, pairs_map_size).
  destruct (convert_entries_spec es l' dictCreate ∅ Hy Hn') as (d & -> & Hd); [done|apply hm_create|rewrite map_size_empty; lia|].
  bind_simpl. exists d. split; [done|]. by rewrite map_union_empty, Hm in Hd.
Qed.

(** Strings longer than the limit are not in a ziplist. *)
Definition argument_fits (ho : hashobj) (s : list Z) : Prop := match ho with ZlHash _ => zlen s <= max_value | HtHash _ => True end.

Lemma hashTypeTryConversion_spec args ho m : hash_repr ho m ->
  exists ho', hashTypeTryConversion ho (Raw <$> args) = Some ho' /\ hash_repr ho' m /\ Forall (argument_fits ho') args.
Proof using All.
  intros Hh. pose proof Hh as Hh'. destruct Hh as [zl l Hz Hn Hs Hlen|d m Hd].
  - induction args as [|s args IH]; [by exists (ZlHash zl)|]. rewrite fmap_cons. cbn [HashType.hashTypeTryConversion]. case_bool_decide as Hlong.
    + destruct (zl_convert zl l Hz Hn) as (d & Hc & Hd); [apply pairs_fit; [done|lia]|lia|]. rewrite Hc. exists (HtHash d).
      split; [done|]. split; [by constructor|]. by apply Forall_true.
    + destruct IH as (ho' & Hc & Hh2 & Hargs). cbn [HashType.hashTypeTryConversion] in Hc. exists ho'. split; [exact Hc|]. split; [done|].
      constructor; [|done]. destruct ho'; cbn; [lia|done].
  - exists (HtHash d). destruct args; (split; [done|]; split; [done|]; by apply Forall_true).
Qed.

Lemma zlen_set_pair f v l : NoDup l.*1 -> zlen (set_pair f v l) = zlen l + (if bool_decide (is_Some (field_index f l)) then 0 else 1).
Proof using Type.
  intros Hn. destruct (set_pair_spec f v l Hn) as (_ & _ & Hp). apply Permutation_length in Hp. rewrite length_fmap in Hp.
  case_bool_decide; cbn [length] in Hp; rewrite length_fmap in Hp; lia.
Qed.

Lemma set_pair_small f v l : small_string f -> small_string v -> Forall small_pair l -> Forall small_pair (set_pair f v l).
Proof using Type.
  intros Hf Hv Hl. assert (small_pair (f, v)) as Hx by done. unfold set_pair. destruct (field_index f l); apply Forall_app.
  - split; [by apply Forall_take|]. apply Forall_cons. split; [done|]. by apply Forall_drop.
  - split; [done|]. by apply Forall_singleton.
Qed.

Lemma field_index_map f l : NoDup l.*1 -> is_Some (field_index f l) <-> is_Some (pairs_map l !! f).
Proof using Type.
  intros Hn. rewrite <- !not_eq_None_Some. f_equiv. rewrite field_index_none. unfold pairs_map. by rewrite not_elem_of_list_to_map.
Qed.

(** A field or a value that a command sets. *)
Definition settable (ho : hashobj) (s : list Z) : Prop := match ho with ZlHash _ => small_string s | HtHash _ => True end.

Lemma hashTypeSet_spec ho m fo vo f v : hash_repr ho m -> stands_for fo f -> stands_for vo v -> settable ho f -> settable ho v ->
  Z.of_nat (base.size m) <= max_elements ->
  exists ho', hashTypeSet ho fo vo = Some (ho', bool_decide (is_Some (m !! f))) /\ hash_repr ho' (<[f := v]> m).
Proof using All.
  intros Hh Hfo Hvo Hf Hv Hb. destruct Hh as [zl l Hz Hn Hs Hlen|d m Hd]; cbn [HashType.hashTypeSet].
  - cbn [settable] in *. rewrite (stands_decoded fo f Hfo), (stands_decoded vo v Hvo). bind_simpl.
    destruct (set_pair_spec f v l Hn) as (Hn2 & Hm2 & _). pose proof (zlen_set_pair f v l Hn) as Hl2. pose proof (set_pair_small f v l Hf Hv Hs) as Hs2.
    assert (fits (flatten (set_pair f v l))) as Hf2 by (apply pairs_fit; [done|destruct (bool_decide _); lia]).
    destruct (zl_set_spec junk zl l f v Hz (small_str_ok _ Hf) (small_str_ok _ Hv)) as (zl1 & -> & Hz1).
    { pose proof (room_pairs l Hs) as Hr. unfold fits. rewrite !room_cons. destruct Hf as [_ Hf], Hv as [_ Hv]. unfold max_string in *. nia. }
    bind_simpl. destruct (zl_length zl1 _ Hz1 Hf2) as (zl2 & -> & Hz2). bind_simpl. rewrite <- Hm2.
    rewrite <- (bool_decide_ext _ _ (field_index_map f l Hn)). destruct (bool_decide_reflect (zlen (set_pair f v l) > max_entries)) as [Hconv|Hconv].
    + destruct (zl_convert zl2 _ Hz2 Hn2 Hf2) as (d & -> & Hd); [rewrite Hl2; destruct (bool_decide _); lia|]. bind_simpl.
      eexists. split; [done|]. by constructor.
    + bind_simpl. eexists. split; [done|]. constructor; [done..|lia].
  - rewrite (stands_decoded fo f Hfo). bind_simpl. destruct (hm_replace d m f vo v Hd Hvo Hb) as (d' & -> & Hd'). bind_simpl.
    exists (HtHash d'). split; [|by constructor]. do 2 f_equal. rewrite <- bool_decide_not. apply bool_decide_ext. apply not_eq_None_Some.
Qed.

Lemma hashTypeDelete_spec ho m fo f : hash_repr ho m -> stands_for fo f -> Z.of_nat (base.size m) <= max_elements ->
  exists ho', hashTypeDelete ho fo = Some (ho', bool_decide (is_Some (m !! f))) /\ hash_repr ho' (delete f m).
Proof using All.
  intros Hh Hfo Hb. destruct Hh as [zl l Hz Hn Hs Hlen|d m Hd]; cbn [HashType.hashTypeDelete].
  - rewrite (stands_decoded fo f Hfo). bind_simpl. destruct (del_pair_spec f l Hn) as (Hn2 & Hm2 & Hl2).
    assert (fits (flatten l)) as Hfl by (apply pairs_fit; [done|lia]). rewrite <- Hm2, <- (bool_decide_ext _ _ (field_index_map f l Hn)).
    assert (Forall small_pair (del_pair f l)) as Hs2.
    { unfold del_pair. destruct (field_index f l); [|done]. apply Forall_app. split; [by apply Forall_take|by apply Forall_drop]. }
    destruct (field_index f l) as [i|] eqn:Hi.
    + destruct (zl_delete_spec junk zl l f i Hz Hfl Hi) as (p & zl1 & zl2 & -> & Hd1 & Hd2 & Hz2). bind_simpl. rewrite Hd1. bind_simpl. rewrite Hd2. bind_simpl.
      rewrite bool_decide_true by done. eexists. split; [done|]. constructor; [done..|lia].
    + destruct Hz as (cnt & es & Hrepr & Hl). rewrite (find_field_spec zl cnt es l Hrepr (eq_sym Hl) Hfl f), Hi. bind_simpl. cbn [fmap option_fmap option_map].
      rewrite bool_decide_false by by intros [? ?]. eexists. split; [done|]. unfold del_pair in *. rewrite Hi. constructor; [by exists cnt, es|done..].
  - rewrite (stands_decoded fo f Hfo). bind_simpl. destruct (hm_delete d m f Hd) as (d1 & -> & Hd1). bind_simpl.
    destruct (bool_decide_reflect (is_Some (m !! f))) as [Hin|Hin].
    + destruct (htNeedsResize d1); [|bind_simpl; eexists; split; [done|by constructor]].
      destruct (hm_resize d1 (delete f m) Hd1) as (d2 & ok & -> & Hd2); [|bind_simpl; eexists; split; [done|by constructor]].
      pose proof (map_subseteq_size _ _ (delete_subseteq m f)). lia.
    + eexists. split; [done|]. by constructor.
Qed.

Abbreviation set_encoded := (set_encoded seed can_resize junk junk_obj max_entries).
Abbreviation hset_object := (hset_object seed can_resize junk junk_obj max_entries max_value).
Abbreviation hsetnx_object := (hsetnx_object seed can_resize junk junk_obj max_entries max_value).

Lemma encoding_stands ho s : stands_for (hashTypeTryObjectEncoding ho (Raw s)) s.
Proof using Type. destruct ho; [done|]. apply encoded_stands. Qed.

Lemma argument_settable ho s : argument_fits ho s -> bytes_ok s -> settable ho s.
Proof using Type. destruct ho; [|done]. cbn. intros Hs Hb. split; [done|]. unfold max_string. lia. Qed.

Lemma set_encoded_spec ho m f v : hash_repr ho m -> argument_fits ho f -> argument_fits ho v -> bytes_ok f -> bytes_ok v ->
  Z.of_nat (base.size m) <= max_elements ->
  exists ho', set_encoded ho f v = Some (ho', bool_decide (is_Some (m !! f))) /\ hash_repr ho' (<[f := v]> m).
Proof using All.
  intros Hh Hf Hv Hbf Hbv Hb. apply hashTypeSet_spec; [done|apply encoding_stands|apply encoding_stands|by apply argument_settable|by apply argument_settable|done].
Qed.

Lemma hset_spec ho m f v : hash_repr ho m -> bytes_ok f -> bytes_ok v -> Z.of_nat (base.size m) <= max_elements ->
  exists ho', hset_object ho f v = Some (ho', bool_decide (is_Some (m !! f))) /\ hash_repr ho' (<[f := v]> m).
Proof using All.
  intros Hh Hf Hv Hb. destruct (hashTypeTryConversion_spec [f; v] ho m Hh) as (ho1 & Hc & Hh1 & Hargs).
  apply Forall_cons in Hargs as [H1 [H2 _]%Forall_cons]. unfold HashType.hset_object. cbn [fmap list_fmap] in Hc. rewrite Hc. bind_simpl.
  by apply set_encoded_spec.
Qed.

Lemma hsetnx_spec ho m f v : hash_repr ho m -> bytes_ok f -> bytes_ok v -> Z.of_nat (base.size m) <= max_elements ->
  exists ho', hsetnx_object ho f v = Some (ho', bool_decide (m !! f = None)) /\
    hash_repr ho' (if bool_decide (m !! f = None) then <[f := v]> m else m).
Proof using All.
  intros Hh Hf Hv Hb. destruct (hashTypeTryConversion_spec [f; v] ho m Hh) as (ho1 & Hc & Hh1 & Hargs).
  apply Forall_cons in Hargs as [H1 [H2 _]%Forall_cons]. unfold HashType.hsetnx_object. cbn [fmap list_fmap] in Hc. rewrite Hc. bind_simpl.
  destruct (hashTypeExists_spec ho1 m (Raw f) f Hh1 eq_refl) as (ho2 & He & Hh2). rewrite He. bind_simpl.
  assert (forall s, argument_fits ho1 s -> argument_fits ho2 s) as Hargs.
  { unfold HashType.hashTypeExists in He. destruct ho1 as [zl|d].
    - destruct (hashTypeGetFromZiplist zl (Raw f)); bind_simpl; [|done]. by injection He as <- _.
    - destruct (hashTypeGetFromHashTable seed d (Raw f)) as [[d' r]|]; bind_simpl; [|done]. by injection He as <- _. }
  destruct (m !! f) as [v0|] eqn:Hm.
  - rewrite (bool_decide_true (is_Some _)), bool_decide_false by done. by exists ho2.
  - rewrite (bool_decide_false (is_Some _)), bool_decide_true by (done || by intros [? ?]).
    destruct (set_encoded_spec ho2 m f v Hh2) as (ho3 & -> & Hh3); [by apply Hargs|by apply Hargs|done..|]. bind_simpl. by exists ho3.
Qed.

Lemma new_hash_repr : hash_repr createHashObject ∅.
Proof using Hentries. apply (repr_zl ziplistNew []); [apply new_repr|constructor|constructor|cbn; lia]. Qed.

(** ** Sequences of operations *)

Inductive hash_call := HSet (f v : list Z) | HSetNx (f v : list Z) | HGet (f : list Z) | HExists (f : list Z) | HDel (f : list Z) | HLen.
Inductive hash_result := RFlag (b : bool) | RValue (v : option (list Z)) | RNum (n : Z).

Definition flag (r : hashobj * bool) : hashobj * hash_result := (r.1, RFlag r.2).

Definition hash_call_step (ho : hashobj) (op : hash_call) : option (hashobj * hash_result) :=
  match op with
  | HSet f v => flag <$> hset_object ho f v
  | HSetNx f v => flag <$> hsetnx_object ho f v
  | HGet f => '(ho, r) ← hashTypeGetObject ho (Raw f);
              match r with None => Some (ho, RValue None) | Some o => v ← getDecodedObject o; Some (ho, RValue (Some v)) end
  | HExists f => flag <$> hashTypeExists ho (Raw f)
  | HDel f => flag <$> hashTypeDelete ho (Raw f)
  | HLen => '(ho, n) ← hashTypeLength ho; Some (ho, RNum n)
  end.

Fixpoint hash_run (ho : hashobj) (ops : list hash_call) : option (hashobj * list hash_result) :=
  match ops with
  | [] => Some (ho, [])
  | op :: ops => '(ho, r) ← hash_call_step ho op; '(ho, rs) ← hash_run ho ops; Some (ho, r :: rs)
  end.

(** The same calls on a map. *)
Definition map_call (m : smap) (op : hash_call) : smap * hash_result :=
  match op with
  | HSet f v => (<[f := v]> m, RFlag (bool_decide (is_Some (m !! f))))
  | HSetNx f v => (if bool_decide (m !! f = None) then <[f := v]> m else m, RFlag (bool_decide (m !! f = None)))
  | HGet f => (m, RValue (m !! f))
  | HExists f => (m, RFlag (bool_decide (is_Some (m !! f))))
  | HDel f => (delete f m, RFlag (bool_decide (is_Some (m !! f))))
  | HLen => (m, RNum (Z.of_nat (base.size m)))
  end.

Fixpoint map_run (m : smap) (ops : list hash_call) : smap * list hash_result :=
  match ops with
  | [] => (m, [])
  | op :: ops => let '(m, r) := map_call m op in let '(m, rs) := map_run m ops in (m, r :: rs)
  end.

Definition hash_call_ok (op : hash_call) : Prop :=
  match op with HSet f v | HSetNx f v => bytes_ok f /\ bytes_ok v | _ => True end.

(** Only small hashes of short strings are ziplists. *)
Definition hash_encoding_ok (ho : hashobj) (m : smap) : Prop :=
  match ho with
  | ZlHash _ => Z.of_nat (base.size m) <= max_entries /\ map_Forall (fun k v => zlen k <= max_string /\ zlen v <= max_string) m
  | HtHash _ => True
  end.

Lemma hash_repr_encoding ho m : hash_repr ho m -> hash_encoding_ok ho m.
Proof using Type.
  intros [zl l Hz Hn Hs Hlen|]; [|done]. split; [by rewrite pairs_map_size|]. intros k v Hkv%elem_of_list_to_map_2.
  rewrite Forall_forall in Hs. by destruct (Hs _ Hkv) as [[_ H1] [_ H2]].
Qed.

Lemma insert_size (m : smap) f v : Z.of_nat (base.size (<[f := v]> m)) <= Z.of_nat (base.size m) + 1.
Proof using Type. clear. rewrite map_size_insert. destruct (m !! f); unfold id; lia. Qed.

Lemma hash_call_spec ho m op : hash_repr ho m -> hash_call_ok op -> Z.of_nat (base.size m) <= max_elements ->
  exists ho', hash_call_step ho op = Some (ho', (map_call m op).2) /\ hash_repr ho' (map_call m op).1 /\
    Z.of_nat (base.size (map_call m op).1) <= Z.of_nat (base.size m) + 1.
Proof using All.
  intros Hh Hop Hb. pose proof (insert_size m) as Hi. destruct op as [f v|f v|f|f|f|]; cbn [hash_call_step map_call fst snd hash_call_ok] in *.
  - destruct Hop as [Hf Hv]. destruct (hset_spec ho m f v Hh Hf Hv Hb) as (ho' & -> & Hh'). by exists ho'.
  - destruct Hop as [Hf Hv]. destruct (hsetnx_spec ho m f v Hh Hf Hv Hb) as (ho' & -> & Hh'). exists ho'. split; [done|]. split; [done|].
    case_bool_decide; [done|lia].
  - destruct (hashTypeGetObject_spec ho m (Raw f) f Hh eq_refl) as (ho' & r & -> & Hr & Hh'). bind_simpl. exists ho'.
    destruct Hr as [o v Hv|]; [rewrite (stands_decoded o v Hv)|]; (split; [done|]; split; [done|lia]).
  - destruct (hashTypeExists_spec ho m (Raw f) f Hh eq_refl) as (ho' & -> & Hh'). exists ho'. split; [done|]. split; [done|lia].
  - destruct (hashTypeDelete_spec ho m (Raw f) f Hh eq_refl Hb) as (ho' & -> & Hh'). exists ho'. split; [done|]. split; [done|].
    pose proof (map_subseteq_size _ _ (delete_subseteq m f)). lia.
  - destruct (hashTypeLength_spec ho m Hh) as (ho' & -> & Hh'). bind_simpl. exists ho'. split; [done|]. split; [done|lia].
Qed.

Lemma hash_run_spec ops ho m : hash_repr ho m -> Forall hash_call_ok ops -> Z.of_nat (base.size m) + zlen ops <= max_elements ->
  exists ho', hash_run ho ops = Some (ho', (map_run m ops).2) /\ hash_repr ho' (map_run m ops).1.
Proof using All.
  intros Hh Hops. revert ho m Hh. induction Hops as [|op ops Hop _ IH]; intros ho m Hh Hb; cbn [hash_run map_run length] in *.
  { by exists ho. }
  destruct (hash_call_spec ho m op Hh Hop ltac:(lia)) as (ho1 & -> & Hh1 & Hs1). bind_simpl.
  destruct (map_call m op) as [m1 r1]. cbn [fst snd] in *.
  destruct (IH ho1 m1 Hh1 ltac:(lia)) as (ho2 & -> & Hh2). bind_simpl. destruct (map_run m1 ops) as [m2 rs]. by exists ho2.
Qed.

(** C3: the two encodings of a hash implement one type.  On a new hash any
    sequence of HSET, HSETNX, HGET, HEXISTS, HDEL and HLEN, whatever
    conversions to a hash table, updates of entries inside a ziplist, resizing
    and rehashing they cause, gives the results of a finite map from strings
    to strings; no update leaves the block of the ziplist; an iteration of
    the hash yields exactly its pairs; and the hash is a ziplist only while it
    has at most [hash_max_ziplist_entries] pairs of short strings. *)
Theorem hash_run_refines ops : Forall hash_call_ok ops -> zlen ops <= max_elements ->
  exists ho es, hash_run createHashObject ops = Some (ho, (map_run ∅ ops).2) /\ hash_encoding_ok ho (map_run ∅ ops).1 /\
    hash_iterate ho = Some es /\ hash_yields es (map_run ∅ ops).1.
Proof using Hentries Hroom.
  intros Hops Hb. destruct (hash_run_spec ops createHashObject ∅ new_hash_repr Hops) as (ho & Hrun & Hh); [rewrite map_size_empty; lia|].
  destruct (hash_yields_spec ho _ Hh) as (es & Hes & Hy). exists ho, es. split; [done|]. split; [by apply hash_repr_encoding|]. done.
Qed.
End Spec.

(** ** Examples *)

Lemma sample_limits : (0 <= 2 < max_elements) /\ 11 + 2 * (2 + 1) * (max_string 64 + 24) < 2 ^ 32.
Proof. by vm_compute. Qed.

(** The third pair makes the ziplist a hash table. *)
Definition sample_calls : list hash_call :=
  [HSet [97] [49]; HSetNx [97] [50]; HGet [97]; HSet [98] [120]; HExists [98]; HSet [97] [55]; HLen; HSet [99] [121]; HGet [97]; HDel [98]; HGet [98]; HLen].

Lemma hash_run_refines_witness : exists ho es, hash_run 0 true (fun _ => 7) (IntObj 0) 2 64 createHashObject sample_calls = Some (ho,
      [RFlag false; RFlag false; RValue (Some [49]); RFlag false; RFlag true; RFlag true; RNum 2; RFlag false; RValue (Some [55]); RFlag true; RValue None; RNum 2]) /\
    hash_encoding_ok 2 64 ho (map_run ∅ sample_calls).1 /\ hash_iterate ho = Some es /\ hash_yields es (map_run ∅ sample_calls).1.
Proof.
  refine (hash_run_refines 0 true (fun _ => 7) (IntObj 0) 2 64 (proj1 sample_limits) (proj2 sample_limits) sample_calls _ _).
  - repeat constructor; unfold is_byte; lia.
  - vm_compute. discriminate.
Defined.
