(* ===== verification/HashCommands.v ===== *)
(** * Hash commands ([t_hash.c])

    The value of a key that holds a hash is the address of its object in a
    store.  The arguments of a command are raw strings.  HINCRBYFLOAT, which
    prints a floating-point number, and HSCAN are not here. *)
From Stdlib Require Import String.
From S2P Require Import Prelude Util Dict DictIter Sds Server StringCommands ObjectStore Ziplist SetType HashType.

Abbreviation hashes := (gmap nat hashobj).
Abbreviation HashM := (SM hashes).

(** The object of a value that passed [checkType]. *)
Definition hash_address (o : robj) : option nat := match o with Other REDIS_HASH p => Some p | _ => None end.

Section Commands.
Context (clock : nat -> Z) (seed : Z) (can_resize : bool) (junk : nat -> Z) (junk_obj : robj) (max_entries max_value : Z).

Abbreviation hset_object := (hset_object seed can_resize junk junk_obj max_entries max_value).
Abbreviation hsetnx_object := (hsetnx_object seed can_resize junk junk_obj max_entries max_value).
Abbreviation set_encoded := (set_encoded seed can_resize junk junk_obj max_entries).
Abbreviation hashTypeSet := (hashTypeSet seed can_resize junk junk_obj max_entries).
Abbreviation hashTypeTryConversion := (hashTypeTryConversion seed can_resize junk_obj max_value).
Abbreviation hashTypeDelete := (hashTypeDelete seed can_resize junk).

(** [None] after an error reply. *)
Definition hashTypeLookupWriteOrCreate (c : client_id) (d : nat) (key : bytes) : HashM (option nat) :=
  o ← srv (lookupKeyWrite clock d key);
  match o with
  | None => p ← new_obj createHashObject; srv (dbAdd d key (Other REDIS_HASH p));; mret (Some p)
  | Some o =>
      if bool_decide (type_of o = REDIS_HASH) then p ← srv (lift (hash_address o)); mret (Some p)
      else srv (addReply c wrongtypeerr);; mret None
  end.

(** The hash of a command that only needs an existing one; [None] after the
    reply for a missing key or a type error. *)
Definition lookup_hash (c : client_id) (lookup : M (option robj)) : HashM (option nat) :=
  o ← srv lookup;
  match o with
  | None => mret None
  | Some o =>
      wrong ← srv (checkType c o REDIS_HASH);
      if (wrong : bool) then mret None else p ← srv (lift (hash_address o)); mret (Some p)
  end.

(** What a successful change ends with. *)
Definition hash_modified (d : nat) (key : bytes) (event : string) (n : Z) : HashM unit :=
  srv (signalModifiedKey d key);; srv (notifyKeyspaceEvent NOTIFY_HASH event key d);; srv (add_dirty n).

(** ** Changes *)

Definition hsetCommand (c : client_id) : HashM unit :=
  d ← srv (current_db c); key ← srv (argv c 1);
  p ← hashTypeLookupWriteOrCreate c d key;
  match p with
  | None => mret tt
  | Some p =>
      field ← srv (argv c 2); value ← srv (argv c 3);
      update ← on_store (update_obj p (fun o => hset_object o field value));
      srv (addReply c (if (update : bool) then czero else cone));;
      hash_modified d key "hset" 1
  end.

Definition hsetnxCommand (c : client_id) : HashM unit :=
  d ← srv (current_db c); key ← srv (argv c 1);
  p ← hashTypeLookupWriteOrCreate c d key;
  match p with
  | None => mret tt
  | Some p =>
      field ← srv (argv c 2); value ← srv (argv c 3);
      b ← on_store (update_obj p (fun o => hsetnx_object o field value));
      if (b : bool) then srv (addReply c cone);; hash_modified d key "hset" 1
      else srv (addReply c czero)
  end.

(** The loop of [hmsetCommand], on the hash it has looked up. *)
Fixpoint hmset_loop (o : hashobj) (args : list bytes) : option hashobj :=
  match args with
  | field :: value :: args => '(o, _) ← set_encoded o field value; hmset_loop o args
  | _ => Some o
  end.

Definition hmset_object (args : list bytes) (o : hashobj) : option (hashobj * unit) :=
  o ← hashTypeTryConversion o (Raw <$> args);
  o ← hmset_loop o args; Some (o, tt).

Definition hmsetCommand (c : client_id) : HashM unit :=
  n ← srv (argc c);
  if bool_decide (n `mod` 2 = 1)%nat then srv (addReplyError c "wrong number of arguments for HMSET")
  else
    d ← srv (current_db c); key ← srv (argv c 1); cl ← srv (client c);
    p ← hashTypeLookupWriteOrCreate c d key;
    match p with
    | None => mret tt
    | Some p =>
        on_store (update_obj p (hmset_object (drop 2 (c_argv cl))));;
        srv (addReply c ReplyOk);;
        hash_modified d key "hset" 1
    end.

Definition hincr_overflows (incr oldvalue : Z) : bool :=
  bool_decide (incr < 0) && bool_decide (oldvalue < 0) && bool_decide (incr < LLONG_MIN - oldvalue) ||
  bool_decide (incr > 0) && bool_decide (oldvalue > 0) && bool_decide (incr > LLONG_MAX - oldvalue).

(** The number that a field holds; [None] after an error reply. *)
Definition hincr_value (c : client_id) (p : nat) (field : bytes) : HashM (option Z) :=
  current ← on_store (update_obj p (fun o => hashTypeGetObject seed o (Raw field)));
  match current with
  | None => mret (Some 0)
  | Some current =>
      value ← srv (lift (getLongLongFromObject (Some current)));
      match value with
      | None => srv (addReplyError c "hash value is not an integer");; mret None
      | Some value => mret (Some value)
      end
  end.

Definition hincrbyCommand (c : client_id) : HashM unit :=
  d ← srv (current_db c); key ← srv (argv c 1); incr ← srv (argv c 3);
  incr ← srv (getLongLongFromObjectOrReply c (Some (Raw incr)));
  match incr with
  | None => mret tt
  | Some incr =>
      p ← hashTypeLookupWriteOrCreate c d key;
      match p with
      | None => mret tt
      | Some p =>
          field ← srv (argv c 2);
          value ← hincr_value c p field;
          match value with
          | None => mret tt
          | Some oldvalue =>
              if hincr_overflows incr oldvalue then srv (addReplyError c "increment or decrement would overflow")
              else
                let value := swrap 64 (oldvalue + incr) in
                let new := createStringObjectFromLongLong value in
                on_store (update_obj p (fun o => hashTypeSet o (hashTypeTryObjectEncoding o (Raw field)) new));;
                srv (addReply c (ReplyInt value));;
                hash_modified d key "hincrby" 1
          end
      end
  end.

(** The number of fields removed, and whether the key was. *)
Fixpoint hdel_loop (d : nat) (key : bytes) (p : nat) (args : list bytes) (deleted : Z) : HashM (Z * bool) :=
  match args with
  | [] => mret (deleted, false)
  | a :: args =>
      b ← on_store (update_obj p (fun o => hashTypeDelete o (Raw a)));
      if (b : bool) then
        n ← on_store (update_obj p hashTypeLength);
        if bool_decide (n = 0) then srv (dbDelete d key);; mret (deleted + 1, true)
        else hdel_loop d key p args (deleted + 1)
      else hdel_loop d key p args deleted
  end.

Definition hdelCommand (c : client_id) : HashM unit :=
  d ← srv (current_db c); key ← srv (argv c 1); cl ← srv (client c);
  p ← lookup_hash c (lookupKeyWriteOrReply clock c d key czero);
  match p with
  | None => mret tt
  | Some p =>
      '(deleted, keyremoved) ← hdel_loop d key p (drop 2 (c_argv cl)) 0;
      (if bool_decide (deleted <> 0) then
         srv (signalModifiedKey d key);;
         srv (notifyKeyspaceEvent NOTIFY_HASH "hdel" key d);;
         (if (keyremoved : bool) then srv (notifyKeyspaceEvent NOTIFY_GENERIC "del" key d) else mret tt);;
         srv (add_dirty deleted)
       else mret tt);;
      srv (addReply c (ReplyInt deleted))
  end.

(** ** Reads *)

(** The bytes of a field, in either encoding. *)
Definition field_text (o : hashobj) (field : bytes) : option (hashobj * option bytes) :=
  match o with
  | ZlHash zl =>
      r ← hashTypeGetFromZiplist zl (Raw field);
      match r with
      | None => Some (o, None)
      | Some (inl vstr) => Some (o, Some vstr)
      | Some (inr vll) => s ← ll2string 64 vll; Some (o, Some s)
      end
  | HtHash d =>
      '(d, r) ← hashTypeGetFromHashTable seed d (Raw field);
      match r with None => Some (HtHash d, None) | Some value => s ← getDecodedObject value; Some (HtHash d, Some s) end
  end.

Definition addHashFieldToReply (c : client_id) (p : option nat) (field : bytes) : HashM unit :=
  match p with
  | None => srv (addReply c ReplyNullBulk)
  | Some p =>
      r ← on_store (update_obj p (fun o => field_text o field));
      srv (addReply c (match r with None => ReplyNullBulk | Some s => ReplyBulk s end))
  end.

Definition hgetCommand (c : client_id) : HashM unit :=
  d ← srv (current_db c); key ← srv (argv c 1);
  p ← lookup_hash c (lookupKeyReadOrReply clock c d key ReplyNullBulk);
  match p with None => mret tt | Some p => field ← srv (argv c 2); addHashFieldToReply c (Some p) field end.

Fixpoint hmget_loop (c : client_id) (p : option nat) (args : list bytes) : HashM unit :=
  match args with
  | [] => mret tt
  | field :: args => addHashFieldToReply c p field;; hmget_loop c p args
  end.

Definition hmgetCommand (c : client_id) : HashM unit :=
  d ← srv (current_db c); key ← srv (argv c 1); cl ← srv (client c);
  o ← srv (lookupKeyRead clock d key);
  match o with
  | Some o =>
      if bool_decide (type_of o <> REDIS_HASH) then srv (addReply c wrongtypeerr)
      else
        p ← srv (lift (hash_address o));
        srv (addReply c (ReplyMultiBulkLen (zlen (c_argv cl) - 2)));; hmget_loop c (Some p) (drop 2 (c_argv cl))
  | None => srv (addReply c (ReplyMultiBulkLen (zlen (c_argv cl) - 2)));; hmget_loop c None (drop 2 (c_argv cl))
  end.

Definition hlenCommand (c : client_id) : HashM unit :=
  d ← srv (current_db c); key ← srv (argv c 1);
  p ← lookup_hash c (lookupKeyReadOrReply clock c d key czero);
  match p with None => mret tt | Some p => n ← on_store (update_obj p hashTypeLength); srv (addReply c (ReplyInt n)) end.

(** What [addHashIteratorCursorToReply] prints of one pair. *)
Definition cursor_objects (keys values : bool) (e : robj * robj) : list robj :=
  (if keys then [e.1] else []) ++ (if values then [e.2] else []).

Fixpoint reply_objects (c : client_id) (os : list robj) : M unit :=
  match os with [] => mret tt | o :: os => addReplyBulk c o;; reply_objects c os end.

Definition genericHgetallCommand (c : client_id) (keys values : bool) : HashM unit :=
  d ← srv (current_db c); key ← srv (argv c 1);
  p ← lookup_hash c (lookupKeyReadOrReply clock c d key emptymultibulk);
  match p with
  | None => mret tt
  | Some p =>
      let multiplier := Z.b2z keys + Z.b2z values in
      n ← on_store (update_obj p hashTypeLength);
      let length := swrap 32 (n * multiplier) in
      srv (addReply c (ReplyMultiBulkLen length));;
      o ← get_obj p;
      es ← srv (lift (hash_iterate o));
      let os := es ≫= cursor_objects keys values in
      srv (reply_objects c os);;
      srv (redisAssert (bool_decide (zlen os = length)))
  end.

Definition hkeysCommand (c : client_id) : HashM unit := genericHgetallCommand c true false.
Definition hvalsCommand (c : client_id) : HashM unit := genericHgetallCommand c false true.
Definition hgetallCommand (c : client_id) : HashM unit := genericHgetallCommand c true true.

Definition hexistsCommand (c : client_id) : HashM unit :=
  d ← srv (current_db c); key ← srv (argv c 1);
  p ← lookup_hash c (lookupKeyReadOrReply clock c d key czero);
  match p with
  | None => mret tt
  | Some p =>
      field ← srv (argv c 2);
      b ← on_store (update_obj p (fun o => hashTypeExists seed o (Raw field)));
      srv (addReply c (if (b : bool) then cone else czero))
  end.

(** ** A client's requests *)

Inductive hash_command := HSETc | HSETNXc | HMSETc | HINCRBYc | HDELc | HGETc | HMGETc | HLENc | HKEYSc | HVALSc | HGETALLc | HEXISTSc.

Definition hash_proc (cmd : hash_command) : client_id -> HashM unit :=
  match cmd with
  | HSETc => hsetCommand | HSETNXc => hsetnxCommand | HMSETc => hmsetCommand | HINCRBYc => hincrbyCommand
  | HDELc => hdelCommand | HGETc => hgetCommand | HMGETc => hmgetCommand | HLENc => hlenCommand
  | HKEYSc => hkeysCommand | HVALSc => hvalsCommand | HGETALLc => hgetallCommand | HEXISTSc => hexistsCommand
  end.

(** The arguments of a request take the place of those of the last one. *)
Fixpoint hash_requests (c : client_id) (reqs : list (hash_command * list bytes)) : HashM unit :=
  match reqs with
  | [] => mret tt
  | (cmd, av) :: reqs => srv (on_client c (set_c_argv av));; hash_proc cmd c;; hash_requests c reqs
  end.
End Commands.
