(* ===== verification/HashProperties.v ===== *)
(** * Hash commands refine a key space of maps

    [space] relates a database and the store of hash objects to a map from
    keys to maps of strings; [spec_request] says what each command does to it
    and what it replies.  Sequences of requests refine sequences of these. *)
From Stdlib Require Import String.
#[local] Set Warnings "-clear-no-such-hyp".
From S2P Require Import Prelude Util Dict DictIter Sds Server StringCommands ObjectStore Ziplist ZiplistLogic SetType SetSpecs HashType HashSpecs HashCommands.
From S2P Require Import ServerLogic StringSpecs StringEffects ServerProperties.

Abbreviation smap := (gmap bytes bytes).

(** The keys of a database: a hash, or a value of another type. *)
Abbreviation keyspace := (gmap bytes (option smap)).

(** ** What the commands mean *)

Record spec_result := SpecResult { sr_hash : option smap; sr_reply : list redis_reply -> Prop; sr_dirty : Z }.

(** The pairs of [HMSET]. *)
Fixpoint set_all (m : smap) (args : list bytes) : smap :=
  match args with f :: v :: args => set_all (<[f := v]> m) args | _ => m end.

(** The fields removed one after the other, as long as there are any. *)
Definition del_all (m : smap) (fs : list bytes) : smap := foldl (fun m f => delete f m) m fs.

(** The number that a string holds, read by [strtoll]. *)
Definition number_of (b : bytes) : option Z := default None (getLongLongFromObject (Some (Raw b))).

Definition bulk (v : option bytes) : redis_reply := match v with None => ReplyNullBulk | Some s => ReplyBulk s end.

(** The texts of a reply of HKEYS, HVALS or HGETALL. *)
Definition pair_texts (keys values : bool) (x : bytes * bytes) : list bytes := (if keys then [x.1] else []) ++ (if values then [x.2] else []).

Definition lists_pairs (keys values : bool) (m : smap) (rs : list redis_reply) : Prop :=
  exists l, NoDup l.*1 /\ pairs_map l = m /\
    rs = ReplyMultiBulkLen (zlen l * (Z.b2z keys + Z.b2z values)) :: (ReplyBulk <$> (l ≫= pair_texts keys values)).

Definition unchanged (m : option smap) (r : list redis_reply) : spec_result := SpecResult m (eq r) 0.

Definition spec_hash (cmd : hash_command) (args : list bytes) (mo : option smap) : spec_result :=
  let m := default ∅ mo in
  match cmd, args with
  | HSETc, [f; v] => SpecResult (Some (<[f := v]> m)) (eq [ReplyInt (Z.b2z (bool_decide (m !! f = None)))]) 1
  | HSETNXc, [f; v] => if bool_decide (m !! f = None) then SpecResult (Some (<[f := v]> m)) (eq [ReplyInt 1]) 1 else unchanged mo [ReplyInt 0]
  | HMSETc, _ => SpecResult (Some (set_all m args)) (eq [ReplyOk]) 1
  | HINCRBYc, [f; i] =>
      match from_option number_of (Some 0) (m !! f), number_of i with
      | Some old, Some incr =>
          if bool_decide (srange 64 (old + incr))
          then SpecResult (Some (<[f := notation (old + incr)]> m)) (eq [ReplyInt (old + incr)]) 1
          else unchanged mo [ReplyError "increment or decrement would overflow"]
      | _, _ => unchanged mo [ReplyError "hash value is not an integer"]
      end
  | HDELc, _ =>
      let m' := del_all m args in
      let n := Z.of_nat (base.size m) - Z.of_nat (base.size m') in
      SpecResult (if bool_decide (m' = ∅) then None else Some m') (eq [ReplyInt n]) n
  | HGETc, [f] => unchanged mo [bulk (m !! f)]
  | HMGETc, _ => unchanged mo (ReplyMultiBulkLen (zlen args) :: ((fun f => bulk (m !! f)) <$> args))
  | HLENc, _ => unchanged mo [ReplyInt (Z.of_nat (base.size m))]
  | HKEYSc, _ => SpecResult mo (lists_pairs true false m) 0
  | HVALSc, _ => SpecResult mo (lists_pairs false true m) 0
  | HGETALLc, _ => SpecResult mo (lists_pairs true true m) 0
  | HEXISTSc, [f] => unchanged mo [ReplyInt (Z.b2z (bool_decide (is_Some (m !! f))))]
  | _, _ => unchanged mo []
  end.

(** Errors found before the key is looked up. *)
Definition early_error (cmd : hash_command) (args : list bytes) : option redis_reply :=
  match cmd, args with
  | HMSETc, _ => if bool_decide (length args `mod` 2 = 0)%nat then None else Some (ReplyError "wrong number of arguments for HMSET")
  | HINCRBYc, [_; i] => match number_of i with None => Some (ReplyError "value is not an integer or out of range") | Some _ => None end
  | _, _ => None
  end.

Definition set_hash (key : bytes) (mo : option smap) (A : keyspace) : keyspace :=
  match mo with Some m => <[key := Some m]> A | None => delete key A end.

(** A request changes the key space from [A] to [A'], gets [rs] and counts [n]
    changes. *)
Definition spec_request (cmd : hash_command) (key : bytes) (args : list bytes) (A A' : keyspace) (rs : list redis_reply) (n : Z) : Prop :=
  match early_error cmd args with
  | Some e => A' = A /\ rs = [e] /\ n = 0
  | None =>
      match A !! key with
      | Some None => A' = A /\ rs = [wrongtypeerr] /\ n = 0
      | Some (Some m) => let r := spec_hash cmd args (Some m) in A' = set_hash key (sr_hash r) A /\ sr_reply r rs /\ n = sr_dirty r
      | None => let r := spec_hash cmd args None in A' = set_hash key (sr_hash r) A /\ sr_reply r rs /\ n = sr_dirty r
      end
  end.

Inductive spec_requests : keyspace -> list (hash_command * list bytes) -> keyspace -> list redis_reply -> Z -> Prop :=
| requests_nil A : spec_requests A [] A [] 0
| requests_cons A cmd name key args reqs A1 rs n A2 rs2 n2 :
    spec_request cmd key args A A1 rs n -> spec_requests A1 reqs A2 rs2 n2 ->
    spec_requests A ((cmd, name :: key :: args) :: reqs) A2 (rs ++ rs2) (n + n2).

(** The table of commands checks the number of arguments. *)
Definition arity_ok (cmd : hash_command) (args : list bytes) : Prop :=
  match cmd with
  | HSETc | HSETNXc | HINCRBYc => length args = 2%nat
  | HMSETc => (2 <= length args)%nat
  | HDELc | HMGETc => args <> []
  | HGETc | HEXISTSc => length args = 1%nat
  | HLENc | HKEYSc | HVALSc | HGETALLc => args = []
  end.

(** HINCRBY is the one command that does not look at the length of the field
    it adds: it is bounded here. *)
Definition request_ok (max_value : Z) (r : hash_command * list bytes) : Prop :=
  exists name key args, r.2 = name :: key :: args /\ arity_ok r.1 args /\ Forall bytes_ok args /\
    (r.1 = HINCRBYc -> zlen (default [] (head args)) <= max_string max_value).

(** No hash is empty, and none has more than [B] fields. *)
Definition healthy (B : Z) (A : keyspace) : Prop :=
  forall k m, A !! k = Some (Some m) -> m <> ∅ /\ Z.of_nat (base.size m) <= B.

Definition arguments (reqs : list (hash_command * list bytes)) : Z := foldr (fun r n => zlen r.2 + n) 0 reqs.

(** ** The representation *)

Section Commands.
Context (clock : nat -> Z) (seed : Z) (can_resize : bool) (junk : nat -> Z) (junk_obj : robj) (max_entries max_value : Z).
Context (Hentries : 0 <= max_entries < max_elements) (Hroom : 11 + 2 * (max_entries + 1) * (max_string max_value + 24) < 2 ^ 32).
Context (conf : config) (c : client_id) (d : nat) (dbs0 : list redisDb).
Abbreviation hash_repr := (hash_repr seed max_entries max_value).

Record hash_db (a : gmap nat smap) (db : redisDb) (A : keyspace) : Prop := {
  hd_live : forall k, remains clock conf db k;
  hd_keys : forall k, match db_dict db !! k with
    | Some (Other REDIS_HASH p) => exists m, A !! k = Some (Some m) /\ a !! p = Some m
    | Some _ => A !! k = Some None
    | None => A !! k = None
    end;
  hd_distinct : forall k1 k2 p, db_dict db !! k1 = Some (Other REDIS_HASH p) -> db_dict db !! k2 = Some (Other REDIS_HASH p) -> k1 = k2 }.

(** The database [d] and the store stand for [A]; the others are those of
    [dbs0]. *)
Definition space (A : keyspace) (dbs : list redisDb) (h : hashes) : Prop := exists a db,
  represents hash_repr h a /\ dbs !! d = Some db /\ hash_db a db A /\ forall d', d' <> d -> dbs !! d' = dbs0 !! d'.

(** Moreover the hash of [key] is at [p]. *)
Definition focus (key : bytes) (p : nat) (A : keyspace) (dbs : list redisDb) (h : hashes) : Prop := exists a db,
  represents hash_repr h a /\ dbs !! d = Some db /\ hash_db a db A /\ (forall d', d' <> d -> dbs !! d' = dbs0 !! d') /\
  db_dict db !! key = Some (Other REDIS_HASH p).

Lemma focus_space key p A dbs h : focus key p A dbs h -> space A dbs h.
Proof using Type. intros (a & db & H1 & H2 & H3 & H4 & _). by exists a, db. Qed.

Lemma space_length A dbs h : space A dbs h -> (d < length dbs)%nat.
Proof using Type. intros (a & db & _ & Hdb & _). by eapply lookup_lt_Some. Qed.

(** The client [c], with arguments [av], has got [reply]; [n] changes. *)
Definition holds (P : list redisDb -> hashes -> Prop) (av : list bytes) (reply : list redis_reply) (n : Z) (s : server) (h : hashes) : Prop :=
  exists dbs, at_state conf c d av dbs reply n s /\ P dbs h.

Section Focus.
Context (key : bytes) (p : nat) (A : keyspace).

Lemma focus_update {B} dbs h m (f : hashobj -> option (hashobj * B)) b m' : focus key p A dbs h -> A !! key = Some (Some m) ->
  (forall o, hash_repr o m -> exists o', f o = Some (o', b) /\ hash_repr o' m') ->
  exists h', update_obj p f h = Some (b, h') /\ focus key p (<[key := Some m']> A) dbs h'.
Proof using Type.
  intros (a & db & Hh & Hdb & [L K D] & Hfr & Hkey) HA Hf. pose proof (K key) as Hk. rewrite Hkey in Hk. destruct Hk as (m0 & HA' & Hp).
  rewrite HA in HA'. injection HA' as <-. destruct (update_at hash_repr h a p m f b m' Hh Hp Hf) as (h' & Hu & Hh'). exists h'. split; [done|].
  exists (<[p := m']> a), db. split; [done|]. split; [done|]. split; [|done]. split; [done| |done].
  intros k. specialize (K k). destruct (decide (key = k)) as [<-|Hne].
  - rewrite Hkey. exists m'. by rewrite !lookup_insert_eq.
  - rewrite lookup_insert_ne by done. destruct (db_dict db !! k) as [[s|v|t q]|] eqn:Hdk; [done|done| |done].
    destruct t; try done. destruct K as (m1 & H1 & H2). exists m1. split; [done|]. rewrite lookup_insert_ne; [done|].
    intros <-. apply Hne. by eapply D.
Qed.

Lemma focus_read {B} dbs h m (f : hashobj -> option (hashobj * B)) b : focus key p A dbs h -> A !! key = Some (Some m) ->
  (forall o, hash_repr o m -> exists o', f o = Some (o', b) /\ hash_repr o' m) ->
  exists h', update_obj p f h = Some (b, h') /\ focus key p A dbs h'.
Proof using Type.
  intros HF HA Hf. destruct (focus_update dbs h m f b m HF HA Hf) as (h' & Hu & HF'). exists h'. by rewrite insert_id in HF'.
Qed.

Lemma focus_object dbs h m : focus key p A dbs h -> A !! key = Some (Some m) -> exists o, h !! p = Some o /\ hash_repr o m.
Proof using Type.
  intros (a & db & Hh & Hdb & [L K D] & _ & Hkey) HA. specialize (K key). rewrite Hkey in K. destruct K as (m0 & HA' & Hp).
  rewrite HA in HA'. injection HA' as <-. by apply Hh.
Qed.
End Focus.

(** ** Steps *)

Section Steps.
Context (P : list redisDb -> hashes -> Prop) (av : list bytes) (HP : forall dbs h, P dbs h -> (d < length dbs)%nat).
Context (reply : list redis_reply) (n : Z) (s : server) (h : hashes) (Hs : holds P av reply n s h).

Lemma argv_h j x Q : av !! j = Some x -> Q x s h -> swp (srv (argv c j)) Q s h.
Proof using Hs. destruct Hs as (dbs & Hat & _). intros Hj HQ. apply swp_srv. by eapply argv_at. Qed.

Lemma current_db_h Q : Q d s h -> swp (srv (current_db c)) Q s h.
Proof using Hs. destruct Hs as (dbs & Hat & _). intros HQ. apply swp_srv. by eapply current_db_at. Qed.

Lemma client_h Q : (forall cl, c_argv cl = av -> Q cl s h) -> swp (srv (client c)) Q s h.
Proof using Hs. destruct Hs as (dbs & Hat & _). intros HQ. apply swp_srv. eapply client_at; [exact Hat|]. auto. Qed.

Lemma addReply_h r Q : (forall s', holds P av (reply ++ [r]) n s' h -> Q tt s' h) -> swp (srv (addReply c r)) Q s h.
Proof using Hs. destruct Hs as (dbs & Hat & Hp). intros HQ. apply swp_srv. eapply addReply_at; [exact Hat|]. intros s' Hat'. apply HQ. by exists dbs. Qed.

Lemma modified_h key ev k Q : (forall s', holds P av reply (n + k) s' h -> Q tt s' h) -> swp (hash_modified d key ev k) Q s h.
Proof using Hs HP.
  destruct Hs as (dbs & Hat & Hp). intros HQ. apply swp_bind, swp_srv. eapply signal_at; [by eapply HP|exact Hat|]. intros s1 Hat1.
  apply swp_bind, swp_srv. eapply notify_at; [exact Hat1|]. intros s2 Hat2. apply swp_srv. eapply add_dirty_at; [exact Hat2|]. intros s3 Hat3.
  apply HQ. by exists dbs.
Qed.
End Steps.

(** ** Lookups *)

Lemma space_key (A : keyspace) key a db : hash_db a db A -> match db_dict db !! key with
  | Some (Other REDIS_HASH p) => exists m, A !! key = Some (Some m) /\ a !! p = Some m
  | Some _ => A !! key = Some None
  | None => A !! key = None end /\ remains clock conf db key.
Proof using Type. intros [L K D]. split; [apply K|apply L]. Qed.

(** The map of a key, an empty one when it is missing. *)
Definition map_at (A : keyspace) (key : bytes) : smap := match A !! key with Some (Some m) => m | _ => ∅ end.

Lemma wrong_type_address o A key a db : hash_db a db A -> db_dict db !! key = Some o -> type_of o <> REDIS_HASH -> A !! key = Some None.
Proof using Type. intros [L K D] Ho Ht. specialize (K key). rewrite Ho in K. destruct o as [b|v|t p]; [done|done|]. destruct t; done. Qed.

Lemma hash_type_address o A key a db : hash_db a db A -> db_dict db !! key = Some o -> type_of o = REDIS_HASH ->
  exists p m, o = Other REDIS_HASH p /\ A !! key = Some (Some m) /\ a !! p = Some m.
Proof using Type.
  intros [L K D] Ho Ht. specialize (K key). rewrite Ho in K. destruct o as [b|v|t p]; [done|done|]. cbn in Ht. subst t. destruct K as (m & H1 & H2). by exists p, m.
Qed.

Lemma lookup_create_h A key av reply n s h (Q : option nat -> server -> hashes -> Prop) : holds (space A) av reply n s h ->
  (A !! key = Some None -> forall s', holds (space A) av (reply ++ [wrongtypeerr]) n s' h -> Q None s' h) ->
  (A !! key <> Some None -> forall p s' h', holds (focus key p (<[key := Some (map_at A key)]> A)) av reply n s' h' -> Q (Some p) s' h') ->
  swp (hashTypeLookupWriteOrCreate clock c d key) Q s h.
Proof using Hentries.
  intros (dbs & Hat & a & db & Hh & Hdb & Hd & Hfr) Hwrong Hok. destruct (space_key A key a db Hd) as [Hkey Hexp].
  apply swp_bind, swp_srv. eapply lookupKeyWrite_at; [exact Hat|exact Hdb|exact Hexp|]. clear s Hat. intros s Hat. destruct (db_dict db !! key) as [o|] eqn:Ho.
  - destruct (bool_decide_reflect (type_of o = REDIS_HASH)) as [Ht|Ht].
    + destruct (hash_type_address o A key a db Hd Ho Ht) as (p & m & -> & HA & Hp). apply swp_bind. eapply swp_lift; [done|].
      apply swp_ret. apply Hok; [by rewrite HA|]. exists dbs. split; [done|]. exists a, db. unfold map_at. rewrite HA, insert_id by done. done.
    + apply swp_bind, swp_srv. eapply addReply_at; [exact Hat|]. intros s' Hat'. apply swp_ret. apply Hwrong; [by eapply wrong_type_address|].
      exists dbs. split; [done|]. by exists a, db.
  - destruct (fresh_at hash_repr h a createHashObject ∅ Hh (new_hash_repr seed max_entries max_value Hentries)) as (p & h' & Hn & Hp & Hh').
    apply swp_bind. eapply swp_on_store; [exact Hn|]. apply swp_bind, swp_srv. eapply dbAdd_at; [exact Hat|exact Hdb|done|]. intros s' Hat'.
    apply swp_ret. apply Hok; [by rewrite Hkey|]. exists (write_key d key (Other REDIS_HASH p) dbs). split; [exact Hat'|].
    exists (<[p := ∅]> a), (set_dict (<[key := Other REDIS_HASH p]>) db). unfold map_at. rewrite Hkey. split; [done|].
    split; [unfold write_key; by rewrite list_lookup_alter_eq, Hdb|]. split; [|split].
    + destruct Hd as [L K D]. split; [intros k; by apply remains_written| |].
      * intros k. cbn. destruct (decide (key = k)) as [<-|Hne]; [rewrite !lookup_insert_eq; by exists ∅|].
        rewrite !lookup_insert_ne by done. specialize (K k). destruct (db_dict db !! k) as [[b|v|t q]|]; [done|done| |done]. destruct t; try done.
        destruct K as (m & H1 & H2). exists m. split; [done|]. rewrite lookup_insert_ne; [done|]. intros <-. congruence.
      * assert (forall k q, db_dict db !! k = Some (Other REDIS_HASH q) -> q <> p) as Hfresh.
        { intros k q Hk ->. specialize (K k). rewrite Hk in K. destruct K as (m & _ & H2). congruence. }
        intros k1 k2 q. cbn. rewrite !lookup_insert_Some. intros [[<- E1]|[Hn1 H1]] [[<- E2]|[Hn2 H2]]; [done| | |by eapply D].
        -- injection E1 as <-. by apply Hfresh in H2.
        -- injection E2 as <-. by apply Hfresh in H1.
    + intros d' Hd'. unfold write_key. rewrite list_lookup_alter_ne by done. by apply Hfr.
    + cbn. by rewrite lookup_insert_eq.
Qed.

(** A lookup that replies [r] when the key is missing. *)
Definition looks_up (key : bytes) (r : redis_reply) (m : M (option robj)) : Prop :=
  forall av dbs db reply n s Q, at_state conf c d av dbs reply n s -> dbs !! d = Some db -> remains clock conf db key ->
    match db_dict db !! key with
    | None => forall s', at_state conf c d av dbs (reply ++ [r]) n s' -> Q None s'
    | Some o => forall s', at_state conf c d av dbs reply n s' -> Q (Some o) s'
    end -> wp m Q s.

Lemma read_looks_up key r : looks_up key r (lookupKeyReadOrReply clock c d key r).
Proof using Type.
  intros av dbs db reply n s Q Hat Hdb He HQ. apply wp_bind. eapply lookupKeyRead_at; [exact Hat|exact Hdb|exact He|]. intros s1 Hat1.
  destruct (db_dict db !! key) as [o|]; [apply wp_ret; by apply HQ|]. apply wp_bind. eapply addReply_at; [exact Hat1|]. intros s2 Hat2. apply wp_ret. by apply HQ.
Qed.

Lemma write_looks_up key r : looks_up key r (lookupKeyWriteOrReply clock c d key r).
Proof using Type.
  intros av dbs db reply n s Q Hat Hdb He HQ. apply wp_bind. eapply lookupKeyWrite_at; [exact Hat|exact Hdb|exact He|]. intros s1 Hat1.
  destruct (db_dict db !! key) as [o|]; [apply wp_ret; by apply HQ|]. apply wp_bind. eapply addReply_at; [exact Hat1|]. intros s2 Hat2. apply wp_ret. by apply HQ.
Qed.

Lemma lookup_hash_h A key r look av reply n s h (Q : option nat -> server -> hashes -> Prop) : looks_up key r look -> holds (space A) av reply n s h ->
  (A !! key = None -> forall s', holds (space A) av (reply ++ [r]) n s' h -> Q None s' h) ->
  (A !! key = Some None -> forall s', holds (space A) av (reply ++ [wrongtypeerr]) n s' h -> Q None s' h) ->
  (forall m, A !! key = Some (Some m) -> forall p s', holds (focus key p A) av reply n s' h -> Q (Some p) s' h) ->
  swp (lookup_hash c look) Q s h.
Proof using Type.
  intros Hlook (dbs & Hat & a & db & Hh & Hdb & Hd & Hfr) Hnone Hwrong Hok. destruct (space_key A key a db Hd) as [Hkey Hexp].
  apply swp_bind, swp_srv. eapply (Hlook av dbs db); [exact Hat|exact Hdb|exact Hexp|]. destruct (db_dict db !! key) as [o|] eqn:Ho; intros s1 Hat1.
  - apply swp_bind, swp_srv. eapply checkType_at; [exact Hat1|]. destruct (bool_decide_reflect (type_of o = REDIS_HASH)) as [Ht|Ht].
    + destruct (hash_type_address o A key a db Hd Ho Ht) as (p & m & -> & HA & Hp). apply swp_bind. eapply swp_lift; [done|].
      apply swp_ret. apply (Hok m HA). exists dbs. split; [done|]. by exists a, db.
    + intros s2 Hat2. apply swp_ret. apply Hwrong; [by eapply wrong_type_address|]. exists dbs. split; [done|]. by exists a, db.
  - apply swp_ret. apply Hnone; [done|]. exists dbs. split; [done|]. by exists a, db.
Qed.

(** ** Operations on the object in focus *)

Lemma update_h {B} key p A av reply n s h m (f : hashobj -> option (hashobj * B)) b m' (Q : B -> server -> hashes -> Prop) :
  holds (focus key p A) av reply n s h -> A !! key = Some (Some m) ->
  (forall o, hash_repr o m -> exists o', f o = Some (o', b) /\ hash_repr o' m') ->
  (forall h', holds (focus key p (<[key := Some m']> A)) av reply n s h' -> Q b s h') -> swp (on_store (update_obj p f)) Q s h.
Proof using Type.
  intros (dbs & Hat & HF) HA Hf HQ. destruct (focus_update key p A dbs h m f b m' HF HA Hf) as (h' & Hu & HF').
  eapply swp_on_store; [exact Hu|]. apply HQ. by exists dbs.
Qed.

Lemma read_h {B} key p A av reply n s h m (f : hashobj -> option (hashobj * B)) b (Q : B -> server -> hashes -> Prop) :
  holds (focus key p A) av reply n s h -> A !! key = Some (Some m) ->
  (forall o, hash_repr o m -> exists o', f o = Some (o', b) /\ hash_repr o' m) ->
  (forall h', holds (focus key p A) av reply n s h' -> Q b s h') -> swp (on_store (update_obj p f)) Q s h.
Proof using Type.
  intros Hs HA Hf HQ. eapply update_h; [exact Hs|exact HA|exact Hf|]. intros h' Hs'. apply HQ. by rewrite insert_id in Hs'.
Qed.

(** The value of a field: an object that stands for it. *)
Lemma get_h key p A av reply n s h m f (Q : option robj -> server -> hashes -> Prop) :
  holds (focus key p A) av reply n s h -> A !! key = Some (Some m) ->
  (forall r h', option_Forall2 stands_for r (m !! f) -> holds (focus key p A) av reply n s h' -> Q r s h') ->
  swp (on_store (update_obj p (fun o => hashTypeGetObject seed o (Raw f)))) Q s h.
Proof using All.
  intros (dbs & Hat & HF) HA HQ. destruct (focus_object key p A dbs h m HF HA) as (o & Ho & Hr).
  destruct (hashTypeGetObject_spec seed can_resize junk junk_obj max_entries max_value Hentries Hroom o m (Raw f) f Hr eq_refl) as (o' & r & Hg & Hres & Hr').
  assert (exists h', update_obj p (fun o => hashTypeGetObject seed o (Raw f)) h = Some (r, h') /\ focus key p A dbs h') as (h' & Hu & HF').
  { exists (<[p := o']> h). split; [unfold update_obj; rewrite Ho; bind_simpl; by rewrite Hg|]. destruct HF as (a & db & Hh & Hdb & Hd & Hfr & Hkey).
    exists a, db. split; [|done]. destruct Hd as [L K D]. specialize (K key). rewrite Hkey in K. destruct K as (m1 & H1 & H2). rewrite HA in H1. injection H1 as <-.
    intros p' x Hx. destruct (decide (p = p')) as [<-|Hne]; [|rewrite lookup_insert_ne by done; by apply Hh].
    rewrite lookup_insert_eq. rewrite H2 in Hx. injection Hx as <-. by exists o'. }
  eapply swp_on_store; [exact Hu|]. apply (HQ r); [done|]. by exists dbs.
Qed.

(** ** The end of a command *)

Definition key_hash (A : keyspace) (key : bytes) : option smap := mjoin (A !! key).

Lemma key_hash_default A key : default ∅ (key_hash A key) = map_at A key.
Proof using Type. unfold key_hash, map_at. by destruct (A !! key) as [[m|]|]. Qed.

Definition step_ok (cmd : hash_command) (key : bytes) (args : list bytes) (A : keyspace) (av : list bytes) (reply : list redis_reply) (n : Z)
    (s : server) (h : hashes) : Prop :=
  exists A' rs k, spec_request cmd key args A A' rs k /\ holds (space A') av (reply ++ rs) (n + k) s h.

Section Ends.
Context (cmd : hash_command) (key : bytes) (args av : list bytes) (A : keyspace) (reply : list redis_reply) (n : Z) (s : server) (h : hashes).

Lemma step_early e : early_error cmd args = Some e -> holds (space A) av (reply ++ [e]) n s h -> step_ok cmd key args A av reply n s h.
Proof using Type. intros He Hs. exists A, [e], 0. unfold spec_request. rewrite He, Z.add_0_r. done. Qed.

Lemma step_wrong : early_error cmd args = None -> A !! key = Some None -> holds (space A) av (reply ++ [wrongtypeerr]) n s h -> step_ok cmd key args A av reply n s h.
Proof using Type. intros He HA Hs. exists A, [wrongtypeerr], 0. unfold spec_request. rewrite He, HA, Z.add_0_r. done. Qed.

Lemma step_result rs : early_error cmd args = None -> A !! key <> Some None ->
  let r := spec_hash cmd args (key_hash A key) in sr_reply r rs ->
  holds (space (set_hash key (sr_hash r) A)) av (reply ++ rs) (n + sr_dirty r) s h -> step_ok cmd key args A av reply n s h.
Proof using Type.
  intros He HA r Hr Hs. exists (set_hash key (sr_hash r) A), rs, (sr_dirty r). split; [|done]. unfold spec_request. rewrite He.
  unfold r, key_hash in *. destruct (A !! key) as [[m|]|]; done.
Qed.

(** Nothing has changed. *)
Lemma step_unchanged rs : early_error cmd args = None -> A !! key <> Some None ->
  spec_hash cmd args (key_hash A key) = unchanged (key_hash A key) rs ->
  holds (space A) av (reply ++ rs) n s h -> step_ok cmd key args A av reply n s h.
Proof using Type.
  intros He HA Hr Hs. eapply (step_result rs He HA); rewrite Hr; [done|]. cbn [unchanged sr_hash sr_dirty]. rewrite Z.add_0_r.
  replace (set_hash key (key_hash A key) A) with A; [done|]. unfold set_hash, key_hash. destruct (A !! key) as [[m|]|] eqn:E; cbn; [by rewrite insert_id|done|by rewrite delete_id].
Qed.
End Ends.

Lemma holds_space key p A av reply n s h : holds (focus key p A) av reply n s h -> holds (space A) av reply n s h.
Proof using Type. intros (dbs & Hat & HF). exists dbs. split; [done|]. by eapply focus_space. Qed.

Lemma focus_length key p A dbs h : focus key p A dbs h -> (d < length dbs)%nat.
Proof using Type. intros HF. eapply space_length. by eapply focus_space. Qed.

Abbreviation runs_ok cmd key args A av reply n m s h := (swp m (fun _ s' h' => step_ok cmd key args A av reply n s' h') s h).

(** A command whose reply comes before the change is recorded. *)
Lemma end_modified cmd key args A av reply n s h p m r ev : early_error cmd args = None -> A !! key <> Some None ->
  spec_hash cmd args (key_hash A key) = SpecResult (Some m) (eq [r]) 1 ->
  holds (focus key p (<[key := Some m]> A)) av reply n s h ->
  runs_ok cmd key args A av reply n (srv (addReply c r);; hash_modified d key ev 1) s h.
Proof using Type.
  intros He HA Hr Hs. apply swp_bind. eapply addReply_h; [exact Hs|]. intros s1 Hs1.
  eapply modified_h; [by eapply focus_length|exact Hs1|]. intros s2 Hs2. eapply (step_result _ _ _ _ _ _ _ _ _ [r] He HA); rewrite Hr; [done|].
  by eapply holds_space.
Qed.

Definition small_enough (A : keyspace) (key : bytes) (args : list bytes) : Prop := Z.of_nat (base.size (map_at A key)) + zlen args <= max_elements.

(** ** Objects under several operations *)

Lemma encoded_fits ho f v ho' b x : HashType.set_encoded seed can_resize junk junk_obj max_entries ho f v = Some (ho', b) ->
  argument_fits max_value ho x -> argument_fits max_value ho' x.
Proof using Type.
  unfold HashType.set_encoded, HashType.hashTypeSet. destruct ho as [zl|dd]; cbn [hashTypeTryObjectEncoding].
  - intros _. destruct ho'; done.
  - destruct (getDecodedObject _); bind_simpl; [|done]. destruct (dictReplace _ _ _ _ _) as [[d1 ins]|]; bind_simpl; [|done]. by intros [= <- _].
Qed.

Lemma set_all_size args : forall (m : smap), Z.of_nat (base.size (set_all m args)) <= Z.of_nat (base.size m) + zlen args.
Proof using Type.
  clear. assert (forall k args (m : smap), (length args <= k)%nat -> Z.of_nat (base.size (set_all m args)) <= Z.of_nat (base.size m) + zlen args) as H; [|by eauto].
  intros k. induction k as [|k IH]; intros [|f [|v l]] m Hk; cbn [set_all length] in *; try lia.
  pose proof (IH l (<[f := v]> m) ltac:(lia)). pose proof (insert_size m f v). lia.
Qed.

Lemma hmset_loop_spec k : forall args ho m, (length args <= k)%nat -> hash_repr ho m -> Forall bytes_ok args -> Forall (argument_fits max_value ho) args ->
  Z.of_nat (base.size m) + zlen args <= max_elements ->
  exists ho', hmset_loop seed can_resize junk junk_obj max_entries ho args = Some ho' /\ hash_repr ho' (set_all m args).
Proof using All.
  induction k as [|k IH]; intros [|f [|v l]] ho m Hk Hh Hok Hfit Hb; cbn [hmset_loop set_all length] in *; try lia; try (by exists ho).
  apply Forall_cons in Hok as [Hf [Hv Hok]%Forall_cons]. apply Forall_cons in Hfit as [Ff [Fv Hfit]%Forall_cons].
  destruct (set_encoded_spec seed can_resize junk junk_obj max_entries max_value Hentries Hroom ho m f v Hh Ff Fv Hf Hv ltac:(lia)) as (ho1 & Hs & Hh1).
  rewrite Hs. bind_simpl. apply IH; [lia|done|done| |].
  - eapply Forall_impl; [exact Hfit|]. intros x. by eapply encoded_fits.
  - pose proof (insert_size m f v). lia.
Qed.

Lemma hmset_spec args ho m : hash_repr ho m -> Forall bytes_ok args -> Z.of_nat (base.size m) + zlen args <= max_elements ->
  exists ho', hmset_object seed can_resize junk junk_obj max_entries max_value args ho = Some (ho', tt) /\ hash_repr ho' (set_all m args).
Proof using All.
  intros Hh Hok Hb. destruct (hashTypeTryConversion_spec seed can_resize junk junk_obj max_entries max_value Hentries Hroom args ho m Hh) as (ho1 & Hc & Hh1 & Hfit).
  unfold hmset_object. rewrite Hc. bind_simpl. destruct (hmset_loop_spec (length args) args ho1 m) as (ho2 & Hl & Hh2); [done..|].
  rewrite Hl. bind_simpl. by exists ho2.
Qed.

(** The texts of the fields of a hash. *)
Lemma field_text_spec ho m f : hash_repr ho m -> exists ho', field_text seed ho f = Some (ho', m !! f) /\ hash_repr ho' m.
Proof using All.
  intros Hh. pose proof Hh as Hh'. destruct Hh as [zl l Hz Hn Hs Hlen|dd m Hd]; cbn [field_text].
  - rewrite (zl_get zl l (Raw f) f Hz Hn); [|apply (pairs_fit seed can_resize junk junk_obj max_entries max_value Hentries Hroom); [done|lia]|done].
    bind_simpl. exists (ZlHash zl). split; [|done]. destruct (pairs_map l !! f) as [v|]; [|done]. cbn [fmap option_fmap option_map].
    pose proof (value_stands v) as Hv. unfold zvalue in *. destruct (zipTryEncoding v) as [[x enc]|]; [|done]. destruct Hv as [Hx Hd].
    rewrite (ll2string_decimal 64 x v) by done. done.
  - destruct (hm_find seed dd m f Hd) as (d' & r & -> & Hr & Hd'). bind_simpl. exists (HtHash d'). split; [|by constructor].
    destruct Hr as [o v Hv|]; [|done]. rewrite (stands_decoded o v Hv). done.
Qed.

(** ** The commands *)

Section Command.
Context (key name : bytes) (A : keyspace) (reply : list redis_reply) (n : Z).

Lemma hset_h f v s h : small_enough A key [f; v] -> bytes_ok f -> bytes_ok v -> holds (space A) [name; key; f; v] reply n s h ->
  runs_ok HSETc key [f; v] A [name; key; f; v] reply n (hsetCommand clock seed can_resize junk junk_obj max_entries max_value c) s h.
Proof using All.
  intros Hb Hf Hv Hs. unfold small_enough in Hb. apply swp_bind. eapply current_db_h; [exact Hs|]. apply swp_bind. eapply argv_h; [exact Hs|done|].
  apply swp_bind. eapply lookup_create_h; [exact Hs|intros HA s1 Hs1; apply swp_ret; by apply step_wrong|]. clear s h Hs. intros HA p s h Hs.
  apply swp_bind. eapply argv_h; [exact Hs|done|]. apply swp_bind. eapply argv_h; [exact Hs|done|].
  apply swp_bind. eapply update_h; [exact Hs|apply lookup_insert_eq| |].
  { intros o Ho. by apply (hset_spec seed can_resize junk junk_obj max_entries max_value Hentries Hroom o _ f v Ho Hf Hv); cbn [length] in Hb; lia. }
  intros h' Hs'. rewrite insert_insert_eq in Hs'. eapply end_modified; [done|exact HA| |exact Hs'].
  cbn [spec_hash]. rewrite key_hash_default. do 2 f_equal. f_equal. by destruct (map_at A key !! f).
Qed.

Lemma hsetnx_h f v s h : small_enough A key [f; v] -> bytes_ok f -> bytes_ok v -> holds (space A) [name; key; f; v] reply n s h ->
  runs_ok HSETNXc key [f; v] A [name; key; f; v] reply n (hsetnxCommand clock seed can_resize junk junk_obj max_entries max_value c) s h.
Proof using All.
  intros Hb Hf Hv Hs. unfold small_enough in Hb. apply swp_bind. eapply current_db_h; [exact Hs|]. apply swp_bind. eapply argv_h; [exact Hs|done|].
  apply swp_bind. eapply lookup_create_h; [exact Hs|intros HA s1 Hs1; apply swp_ret; by apply step_wrong|]. clear s h Hs. intros HA p s h Hs.
  apply swp_bind. eapply argv_h; [exact Hs|done|]. apply swp_bind. eapply argv_h; [exact Hs|done|].
  apply swp_bind. eapply update_h; [exact Hs|apply lookup_insert_eq| |].
  { intros o Ho. by apply (hsetnx_spec seed can_resize junk junk_obj max_entries max_value Hentries Hroom o _ f v Ho Hf Hv); cbn [length] in Hb; lia. }
  intros h' Hs'. rewrite insert_insert_eq in Hs'. destruct (bool_decide_reflect (map_at A key !! f = None)) as [Hn|Hn].
  - eapply end_modified; [done|exact HA| |exact Hs']. cbn [spec_hash]. by rewrite key_hash_default, bool_decide_true.
  - eapply addReply_h; [exact Hs'|]. intros s1 Hs1. apply (step_unchanged _ _ _ _ _ _ _ _ _ [ReplyInt 0]); [done|done| |].
    + cbn [spec_hash]. by rewrite key_hash_default, bool_decide_false.
    + apply holds_space in Hs1. unfold map_at in Hs1, Hn. destruct (A !! key) as [[m|]|] eqn:E; [by rewrite insert_id in Hs1|done|]. by rewrite lookup_empty in Hn.
Qed.

Lemma hmset_h args s h : small_enough A key args -> Forall bytes_ok args -> holds (space A) (name :: key :: args) reply n s h ->
  runs_ok HMSETc key args A (name :: key :: args) reply n (hmsetCommand clock seed can_resize junk junk_obj max_entries max_value c) s h.
Proof using All.
  intros Hb Hok Hs. unfold small_enough in Hb. unfold hmsetCommand. apply swp_bind.
  assert (forall Q, Q (length (name :: key :: args)) s h -> swp (srv (argc c)) Q s h) as Hargc.
  { intros Q HQ. destruct Hs as (dbs & Hat & _). apply swp_srv, wp_bind. eapply client_at; [exact Hat|]. intros cl Hav _. rewrite Hav. by apply wp_ret. }
  apply Hargc. clear Hargc. cbn [length]. replace (S (S (length args)) `mod` 2)%nat with (length args `mod` 2)%nat.
  2:{ replace (S (S (length args))) with (length args + 1 * 2)%nat by lia. by rewrite Nat.Div0.mod_add. }
  assert (early_error HMSETc args = if bool_decide (length args `mod` 2 = 1)%nat then Some (ReplyError "wrong number of arguments for HMSET") else None) as He.
  { cbn. pose proof (Nat.mod_upper_bound (length args) 2 ltac:(lia)). do 2 case_bool_decide; try done; lia. }
  destruct (bool_decide (length args `mod` 2 = 1)%nat).
  { eapply addReply_h; [exact Hs|]. intros s1 Hs1. by eapply step_early. }
  apply swp_bind. eapply current_db_h; [exact Hs|]. apply swp_bind. eapply argv_h; [exact Hs|done|]. apply swp_bind. eapply client_h; [exact Hs|]. intros cl Hav.
  apply swp_bind. eapply lookup_create_h; [exact Hs|intros HA s1 Hs1; apply swp_ret; by apply step_wrong|]. clear s h Hs. intros HA p s h Hs.
  rewrite Hav. cbn [drop]. apply swp_bind. eapply update_h; [exact Hs|apply lookup_insert_eq| |].
  { intros o Ho. by apply (hmset_spec args o _ Ho). }
  intros h' Hs'. rewrite insert_insert_eq in Hs'. eapply end_modified; [done|exact HA| |exact Hs']. cbn [spec_hash]. by rewrite key_hash_default.
Qed.

(** A command that needs an existing hash and only reads. *)
Lemma read_command cmd args look r s h (body : nat -> HashM unit) : early_error cmd args = None -> looks_up key r look ->
  sr_reply (spec_hash cmd args None) [r] /\ sr_hash (spec_hash cmd args None) = None /\ sr_dirty (spec_hash cmd args None) = 0 ->
  holds (space A) (name :: key :: args) reply n s h ->
  (forall m p s, A !! key = Some (Some m) -> holds (focus key p A) (name :: key :: args) reply n s h ->
    swp (body p) (fun _ s' h' => exists rs, sr_reply (spec_hash cmd args (Some m)) rs /\ sr_hash (spec_hash cmd args (Some m)) = Some m /\
      sr_dirty (spec_hash cmd args (Some m)) = 0 /\ holds (focus key p A) (name :: key :: args) (reply ++ rs) n s' h') s h) ->
  runs_ok cmd key args A (name :: key :: args) reply n (p ← lookup_hash c look; match p with None => mret tt | Some p => body p end) s h.
Proof using Type.
  intros He Hlook (N1 & N2 & N3) Hs Hbody. apply swp_bind. eapply lookup_hash_h; [exact Hlook|exact Hs|..].
  - intros HA s1 Hs1. apply swp_ret. eapply (step_result _ _ _ _ _ _ _ _ _ [r]); [done|by rewrite HA|..]; unfold key_hash; rewrite HA; cbn [mjoin option_join]; [done|].
    rewrite N2, N3, Z.add_0_r. unfold set_hash. by rewrite delete_id.
  - intros HA s1 Hs1. apply swp_ret. by apply step_wrong.
  - intros m HA p s1 Hs1. pose proof (Hbody m p s1 HA Hs1) as Hw. unfold swp in *. destruct (body p s1 h) as [[[[] s2] h2]|]; [|done].
    destruct Hw as (rs & Hr & Hh & Hd & Hs2). eapply (step_result _ _ _ _ _ _ _ _ _ rs); [done|by rewrite HA|..]; unfold key_hash; rewrite HA; cbn [mjoin option_join]; [done|].
    rewrite Hh, Hd, Z.add_0_r. unfold set_hash. rewrite insert_id by done. by eapply holds_space.
Qed.

Lemma reply_field_h p av reply' s h m f (Q : unit -> server -> hashes -> Prop) : holds (focus key p A) av reply' n s h -> A !! key = Some (Some m) ->
  (forall s' h', holds (focus key p A) av (reply' ++ [bulk (m !! f)]) n s' h' -> Q tt s' h') -> swp (addHashFieldToReply seed c (Some p) f) Q s h.
Proof using All.
  intros Hs HA HQ. apply swp_bind. eapply read_h; [exact Hs|exact HA|intros o Ho; by apply field_text_spec|]. intros h' Hs'.
  eapply addReply_h; [exact Hs'|]. intros s1 Hs1. by apply HQ.
Qed.

Lemma hget_h f s h : holds (space A) [name; key; f] reply n s h -> runs_ok HGETc key [f] A [name; key; f] reply n (hgetCommand clock seed c) s h.
Proof using All.
  intros Hs. apply swp_bind. eapply current_db_h; [exact Hs|]. apply swp_bind. eapply argv_h; [exact Hs|done|].
  eapply read_command; [done|apply read_looks_up|done|exact Hs|]. clear s Hs. intros m p s HA Hs. apply swp_bind. eapply argv_h; [exact Hs|done|].
  eapply reply_field_h; [exact Hs|exact HA|]. intros s1 h1 Hs1. by exists [bulk (m !! f)].
Qed.

Lemma hexists_h f s h : holds (space A) [name; key; f] reply n s h -> runs_ok HEXISTSc key [f] A [name; key; f] reply n (hexistsCommand clock seed c) s h.
Proof using All.
  intros Hs. apply swp_bind. eapply current_db_h; [exact Hs|]. apply swp_bind. eapply argv_h; [exact Hs|done|].
  eapply read_command; [done|apply read_looks_up|done|exact Hs|]. clear s Hs. intros m p s HA Hs. apply swp_bind. eapply argv_h; [exact Hs|done|].
  apply swp_bind. eapply read_h; [exact Hs|exact HA| |].
  { intros o Ho. by apply (hashTypeExists_spec seed can_resize junk junk_obj max_entries max_value Hentries Hroom o m (Raw f) f Ho). }
  intros h1 Hs1. eapply addReply_h; [exact Hs1|]. intros s2 Hs2. eexists. split; [done|]. split; [done|]. split; [done|].
  change (default ∅ (Some m)) with m. destruct (bool_decide (is_Some (m !! f))); exact Hs2.
Qed.

Lemma hlen_h s h : holds (space A) [name; key] reply n s h -> runs_ok HLENc key [] A [name; key] reply n (hlenCommand clock c) s h.
Proof using All.
  intros Hs. apply swp_bind. eapply current_db_h; [exact Hs|]. apply swp_bind. eapply argv_h; [exact Hs|done|].
  eapply read_command; [done|apply read_looks_up|done|exact Hs|]. clear s Hs. intros m p s HA Hs.
  apply swp_bind. eapply read_h; [exact Hs|exact HA| |].
  { intros o Ho. by apply (hashTypeLength_spec seed can_resize junk junk_obj max_entries max_value Hentries Hroom o m Ho). }
  intros h1 Hs1. eapply addReply_h; [exact Hs1|]. intros s2 Hs2. eexists. split; [done|]. done.
Qed.

Lemma hmget_loop_h p m : A !! key = Some (Some m) -> forall args av reply' s h (Q : unit -> server -> hashes -> Prop), holds (focus key p A) av reply' n s h ->
  (forall s' h', holds (focus key p A) av (reply' ++ ((fun f => bulk (m !! f)) <$> args)) n s' h' -> Q tt s' h') -> swp (hmget_loop seed c (Some p) args) Q s h.
Proof using All.
  intros HA. induction args as [|f args IH]; intros av reply' s h Q Hs HQ; cbn [hmget_loop].
  { apply swp_ret, HQ. by rewrite app_nil_r. }
  apply swp_bind. eapply reply_field_h; [exact Hs|exact HA|]. intros s1 h1 Hs1. eapply IH; [exact Hs1|]. intros s2 h2 Hs2. apply HQ.
  by rewrite <- app_assoc in Hs2.
Qed.

Lemma hmget_none_h : forall args av reply' s h (Q : unit -> server -> hashes -> Prop), holds (space A) av reply' n s h ->
  (forall s', holds (space A) av (reply' ++ ((fun _ => ReplyNullBulk) <$> args)) n s' h -> Q tt s' h) -> swp (hmget_loop seed c None args) Q s h.
Proof using Type.
  induction args as [|f args IH]; intros av reply' s h Q Hs HQ; cbn [hmget_loop].
  { apply swp_ret, HQ. by rewrite app_nil_r. }
  apply swp_bind. eapply addReply_h; [exact Hs|]. intros s1 Hs1. eapply IH; [exact Hs1|]. intros s2 Hs2. apply HQ. by rewrite <- app_assoc in Hs2.
Qed.

Lemma hmget_h args s h : holds (space A) (name :: key :: args) reply n s h ->
  runs_ok HMGETc key args A (name :: key :: args) reply n (hmgetCommand clock seed c) s h.
Proof using All.
  intros Hs. apply swp_bind. eapply current_db_h; [exact Hs|]. apply swp_bind. eapply argv_h; [exact Hs|done|]. apply swp_bind. eapply client_h; [exact Hs|]. intros cl Hav.
  apply swp_bind. destruct Hs as (dbs & Hat & a & db & Hh & Hdb & Hd & Hfr). destruct (space_key A key a db Hd) as [Hkey Hexp].
  apply swp_srv. eapply lookupKeyRead_at; [exact Hat|exact Hdb|exact Hexp|]. clear s Hat. intros s Hat.
  assert (holds (space A) (name :: key :: args) reply n s h) as Hs by (exists dbs; split; [done|]; by exists a, db).
  assert (zlen (c_argv cl) - 2 = zlen args) as Hlen by (rewrite Hav; cbn [length]; lia). rewrite Hlen, Hav. cbn [drop].
  destruct (db_dict db !! key) as [o|] eqn:Ho.
  - destruct (bool_decide_reflect (type_of o <> REDIS_HASH)) as [Ht|Ht].
    + pose proof (wrong_type_address o A key a db Hd Ho Ht) as HA. eapply addReply_h; [exact Hs|]. intros s1 Hs1. by apply step_wrong.
    + destruct (hash_type_address o A key a db Hd Ho ltac:(by destruct (decide (type_of o = REDIS_HASH)))) as (p & m & -> & HA & Hp).
      apply swp_bind. eapply swp_lift; [done|]. assert (holds (focus key p A) (name :: key :: args) reply n s h) as Hf by (exists dbs; split; [done|]; by exists a, db).
      apply swp_bind. eapply addReply_h; [exact Hf|]. intros s1 Hs1. eapply (hmget_loop_h p m HA); [exact Hs1|]. intros s2 h2 Hs2.
      rewrite <- app_assoc in Hs2. eapply step_unchanged; [done|by rewrite HA| |by eapply holds_space]. cbn [spec_hash]. unfold key_hash. by rewrite HA.
  - apply swp_bind. eapply addReply_h; [exact Hs|]. intros s1 Hs1. eapply hmget_none_h; [exact Hs1|]. intros s2 Hs2. rewrite <- app_assoc in Hs2.
    eapply step_unchanged; [done|by rewrite Hkey| |exact Hs2]. cbn [spec_hash]. unfold key_hash. rewrite Hkey. cbn. do 2 f_equal.
Qed.

Lemma reply_objects_at os ts av dbs reply' s Q : Forall2 stands_for os ts -> at_state conf c d av dbs reply' n s ->
  (forall s', at_state conf c d av dbs (reply' ++ (ReplyBulk <$> ts)) n s' -> Q tt s') -> wp (reply_objects c os) Q s.
Proof using Type.
  intros Hos. revert reply' s. induction Hos as [|o t os ts Ho _ IH]; intros reply' s Hs HQ; cbn [reply_objects].
  { apply wp_ret, HQ. by rewrite app_nil_r. }
  apply wp_bind, wp_bind. eapply wp_lift; [by apply stands_decoded|]. eapply addReply_at; [exact Hs|]. intros s1 Hs1. eapply IH; [exact Hs1|].
  intros s2 Hs2. apply HQ. by rewrite <- app_assoc in Hs2.
Qed.

Lemma cursor_texts keys values es l : Forall2 pair_stands es l -> Forall2 stands_for (es ≫= cursor_objects keys values) (l ≫= pair_texts keys values).
Proof using Type.
  clear. induction 1 as [|e x es l [H1 H2] _ IH]; [done|]. change ((e :: es) ≫= cursor_objects keys values) with (cursor_objects keys values e ++ (es ≫= cursor_objects keys values)).
  change ((x :: l) ≫= pair_texts keys values) with (pair_texts keys values x ++ (l ≫= pair_texts keys values)). apply Forall2_app; [|done].
  unfold cursor_objects, pair_texts. apply Forall2_app; [destruct keys|destruct values]; repeat constructor; done.
Qed.

Lemma texts_length keys values (l : list (bytes * bytes)) : zlen (l ≫= pair_texts keys values) = zlen l * (Z.b2z keys + Z.b2z values).
Proof using Type.
  clear. induction l as [|x l IH]; [done|]. change ((x :: l) ≫= pair_texts keys values) with (pair_texts keys values x ++ (l ≫= pair_texts keys values)).
  rewrite length_app, Nat2Z.inj_add, IH. unfold pair_texts. destruct keys, values; cbn [app length Z.b2z]; lia.
Qed.

Lemma hgetall_h cmd keys values s h : (forall mo, spec_hash cmd [] mo = SpecResult mo (lists_pairs keys values (default ∅ mo)) 0) -> early_error cmd [] = None ->
  small_enough A key [] -> holds (space A) [name; key] reply n s h ->
  runs_ok cmd key [] A [name; key] reply n (genericHgetallCommand clock c keys values) s h.
Proof using All.
  intros Hspec He Hb Hs. apply swp_bind. eapply current_db_h; [exact Hs|]. apply swp_bind. eapply argv_h; [exact Hs|done|].
  eapply read_command; [exact He|apply read_looks_up| |exact Hs|].
  { rewrite Hspec. cbn. split; [|done]. exists []. split; [constructor|]. done. }
  clear s Hs. intros m p s HA Hs. unfold small_enough, map_at in Hb. rewrite HA in Hb. cbn [length] in Hb. unfold max_elements in Hb.
  apply swp_bind. eapply read_h; [exact Hs|exact HA| |].
  { intros o Ho. by apply (hashTypeLength_spec seed can_resize junk junk_obj max_entries max_value Hentries Hroom o m Ho). }
  clear h Hs. intros h Hs. assert (swrap 32 (Z.of_nat (base.size m) * (Z.b2z keys + Z.b2z values)) = Z.of_nat (base.size m) * (Z.b2z keys + Z.b2z values)) as Hsw.
  { apply swrap_small; [lia|]. unfold srange. change (32 - 1) with 31. destruct keys, values; cbn [Z.b2z]; lia. }
  rewrite Hsw. apply swp_bind. eapply addReply_h; [exact Hs|]. clear s Hs. intros s (dbs & Hat & HF).
  destruct (focus_object key p A dbs h m HF HA) as (o & Ho & Hr).
  destruct (hash_yields_spec seed can_resize junk junk_obj max_entries max_value Hentries Hroom o m Hr) as (es & Hes & l & Hy & Hn & Hm).
  apply swp_bind. eapply swp_on_store; [by rewrite Ho|]. apply swp_bind. eapply swp_lift; [exact Hes|].
  pose proof (cursor_texts keys values es l Hy) as Ht. apply swp_bind, swp_srv. eapply reply_objects_at; [exact Ht|exact Hat|]. intros s1 Hat1.
  assert (zlen (es ≫= cursor_objects keys values) = Z.of_nat (base.size m) * (Z.b2z keys + Z.b2z values)) as Hlen.
  { apply Forall2_length in Ht. rewrite Ht, texts_length, <- Hm, pairs_map_size by done. done. }
  apply swp_srv, wp_assert; [by apply bool_decide_eq_true|]. rewrite Hspec. cbn [sr_reply sr_hash sr_dirty].
  exists (ReplyMultiBulkLen (Z.of_nat (base.size m) * (Z.b2z keys + Z.b2z values)) :: (ReplyBulk <$> (l ≫= pair_texts keys values))).
  split; [|split; [done|split; [done|]]].
  - exists l. split; [done|]. split; [done|]. by rewrite <- Hm, pairs_map_size.
  - exists dbs. split; [|done]. by rewrite <- app_assoc in Hat1.
Qed.

Lemma delete_h p B av reply' s h (Q : bool -> server -> hashes -> Prop) : holds (focus key p B) av reply' n s h ->
  (forall b s', holds (space (delete key B)) av reply' n s' h -> Q b s' h) -> swp (srv (dbDelete d key)) Q s h.
Proof using Type.
  intros (dbs & Hat & a & db & Hh & Hdb & [L K D] & Hfr & Hkey) HQ. apply swp_srv. eapply dbDelete_at; [exact Hat|exact Hdb|]. intros s' Hat'. apply HQ.
  eexists. split; [exact Hat'|]. exists a, (without key db). split; [done|]. split; [by rewrite list_lookup_alter_eq, Hdb|]. split.
  - split; cbn.
    + intros k t Ht. cbn in *. apply lookup_delete_Some in Ht as [Hne Ht]. rewrite lookup_delete_ne by done. by apply L.
    + intros k. destruct (decide (key = k)) as [<-|Hne]; [by rewrite !lookup_delete_eq|]. rewrite !lookup_delete_ne by done. apply K.
    + intros k1 k2 q [_ H1]%lookup_delete_Some [_ H2]%lookup_delete_Some. by eapply D.
  - intros d' Hd'. rewrite list_lookup_alter_ne by done. by apply Hfr.
Qed.

Lemma del_all_empty fs : del_all ∅ fs = ∅.
Proof using Type. clear. unfold del_all. induction fs as [|f fs IH]; [done|]. cbn. by rewrite delete_empty. Qed.

Lemma delete_size (m : smap) f : is_Some (m !! f) -> Z.of_nat (base.size (delete f m)) = Z.of_nat (base.size m) - 1.
Proof using Type.
  clear. intros [v Hv]. rewrite map_size_delete_Some by done. assert (base.size m <> 0)%nat; [|lia].
  intros Hz. apply map_size_empty_inv in Hz. by rewrite Hz, lookup_empty in Hv.
Qed.

Lemma hdel_loop_h p : forall args B m deleted av reply' s h (Q : Z * bool -> server -> hashes -> Prop),
  holds (focus key p B) av reply' n s h -> B !! key = Some (Some m) -> m <> ∅ -> Z.of_nat (base.size m) <= max_elements ->
  (forall s' h', del_all m args <> ∅ -> holds (focus key p (<[key := Some (del_all m args)]> B)) av reply' n s' h' ->
     Q (deleted + (Z.of_nat (base.size m) - Z.of_nat (base.size (del_all m args))), false) s' h') ->
  (forall s' h', del_all m args = ∅ -> holds (space (delete key B)) av reply' n s' h' -> Q (deleted + Z.of_nat (base.size m), true) s' h') ->
  swp (hdel_loop seed can_resize junk d key p args deleted) Q s h.
Proof using All.
  induction args as [|f args IH]; intros B m deleted av reply' s h Q Hs HB Hne Hb Hmore Hgone; cbn [hdel_loop].
  { apply swp_ret. replace deleted with (deleted + (Z.of_nat (base.size m) - Z.of_nat (base.size (del_all m [])))) by (cbn; lia).
    apply Hmore; [done|]. cbn. by rewrite insert_id. }
  apply swp_bind. eapply update_h; [exact Hs|exact HB| |].
  { intros o Ho. by apply (hashTypeDelete_spec seed can_resize junk junk_obj max_entries max_value Hentries Hroom o m (Raw f) f Ho). }
  clear h Hs. intros h Hs. change (del_all m (f :: args)) with (del_all (delete f m) args) in *.
  destruct (bool_decide_reflect (is_Some (m !! f))) as [Hin|Hin].
  - pose proof (delete_size m f Hin) as Hsz. apply swp_bind. eapply read_h; [exact Hs|apply lookup_insert_eq| |].
    { intros o Ho. by apply (hashTypeLength_spec seed can_resize junk junk_obj max_entries max_value Hentries Hroom o _ Ho). }
    clear h Hs. intros h Hs. destruct (bool_decide_reflect (Z.of_nat (base.size (delete f m)) = 0)) as [Hz|Hz].
    + apply swp_bind. eapply delete_h; [exact Hs|]. intros b s1 Hs1. apply swp_ret. rewrite delete_insert_eq in Hs1.
      replace (deleted + 1) with (deleted + Z.of_nat (base.size m)) by lia. apply Hgone; [|done].
      assert (delete f m = ∅) as -> by (apply map_size_empty_inv; lia). apply del_all_empty.
    + eapply (IH _ (delete f m)); [exact Hs|apply lookup_insert_eq|intros E; rewrite E, map_size_empty in Hz; lia|lia| |]; intros s1 h1 Hd Hs1.
      * rewrite insert_insert_eq in Hs1. match goal with |- Q (?x, _) _ _ => replace x with (deleted + (Z.of_nat (base.size m) - Z.of_nat (base.size (del_all (delete f m) args)))) by lia end.
        by apply Hmore.
      * rewrite delete_insert_eq in Hs1. match goal with |- Q (?x, _) _ _ => replace x with (deleted + Z.of_nat (base.size m)) by lia end. by apply Hgone.
  - assert (delete f m = m) as Hdm by (apply delete_id; by destruct (m !! f); [destruct Hin; eexists|]). rewrite Hdm in *. rewrite insert_id in Hs by done.
    by eapply (IH _ m).
Qed.

(** The end of HDEL, where [k] fields have been removed. *)
Lemma hdel_end (P : list redisDb -> hashes -> Prop) k removed args s h : (forall dbs h, P dbs h -> (d < length dbs)%nat) ->
  holds P (name :: key :: args) reply n s h ->
  (forall s2 h2, holds P (name :: key :: args) (reply ++ [ReplyInt k]) (n + k) s2 h2 -> step_ok HDELc key args A (name :: key :: args) reply n s2 h2) ->
  runs_ok HDELc key args A (name :: key :: args) reply n
   ((if bool_decide (k <> 0) then srv (signalModifiedKey d key);; srv (notifyKeyspaceEvent NOTIFY_HASH "hdel" key d);;
       (if (removed : bool) then srv (notifyKeyspaceEvent NOTIFY_GENERIC "del" key d) else mret tt);; srv (add_dirty k) else mret tt);;
    srv (addReply c (ReplyInt k))) s h.
Proof using Type.
  intros HP Hs Hdone. apply swp_bind. destruct (bool_decide_reflect (k <> 0)) as [Hk|Hk].
  - destruct Hs as (dbs & Hat & Hp). apply swp_bind, swp_srv. eapply signal_at; [by eapply HP|exact Hat|]. clear s Hat. intros s Hat.
    apply swp_bind, swp_srv. eapply notify_at; [exact Hat|]. clear s Hat. intros s Hat. apply swp_bind.
    assert (forall s3, at_state conf c d (name :: key :: args) dbs reply n s3 -> runs_ok HDELc key args A (name :: key :: args) reply n (srv (add_dirty k);; srv (addReply c (ReplyInt k))) s3 h) as Hlast.
    { intros s3 Hat3. apply swp_bind, swp_srv. eapply add_dirty_at; [exact Hat3|]. intros s4 Hat4. apply swp_srv. eapply addReply_at; [exact Hat4|]. intros s5 Hat5.
      apply Hdone. by exists dbs. }
    destruct removed; [|exact (Hlast s Hat)]. apply swp_srv. eapply notify_at; [exact Hat|]. intros s2 Hat2. exact (Hlast s2 Hat2).
  - apply swp_ret. eapply addReply_h; [exact Hs|]. intros s2 Hs2. apply Hdone. by replace (n + k) with n by lia.
Qed.

Lemma hdel_spec args m : A !! key = Some (Some m) -> let m' := del_all m args in let k := Z.of_nat (base.size m) - Z.of_nat (base.size m') in
  spec_hash HDELc args (key_hash A key) = SpecResult (if bool_decide (m' = ∅) then None else Some m') (eq [ReplyInt k]) k.
Proof using Type. intros HA. unfold key_hash. by rewrite HA. Qed.

Lemma hdel_h args s h : small_enough A key args -> A !! key <> Some (Some ∅) -> holds (space A) (name :: key :: args) reply n s h ->
  runs_ok HDELc key args A (name :: key :: args) reply n (hdelCommand clock seed can_resize junk c) s h.
Proof using All.
  intros Hb Hne Hs. unfold small_enough in Hb. apply swp_bind. eapply current_db_h; [exact Hs|]. apply swp_bind. eapply argv_h; [exact Hs|done|].
  apply swp_bind. eapply client_h; [exact Hs|]. intros cl Hav. apply swp_bind. eapply lookup_hash_h; [apply write_looks_up|exact Hs|..].
  - intros HA s1 Hs1. apply swp_ret. eapply step_unchanged; [done|by rewrite HA| |exact Hs1]. unfold key_hash. rewrite HA.
    cbn [spec_hash mjoin option_join]. change (default ∅ None) with (∅ : smap). by rewrite del_all_empty, map_size_empty, bool_decide_true.
  - intros HA s1 Hs1. apply swp_ret. by apply step_wrong.
  - clear s Hs. intros m HA p s Hs. unfold map_at in Hb. rewrite HA in Hb. rewrite Hav. cbn [drop]. pose proof (hdel_spec args m HA) as Hspec.
    assert (A !! key <> Some None) as HA' by by rewrite HA.
    apply swp_bind. eapply (hdel_loop_h p args A m 0); [exact Hs|exact HA|intros ->; by apply Hne|lia| |]; intros s1 h1 Hd Hs1; rewrite Z.add_0_l; cbv beta iota.
    + eapply (hdel_end (focus key p (<[key := Some (del_all m args)]> A)) _ false); [intros dbs h2; apply focus_length|exact Hs1|]. intros s2 h2 Hs2.
      eapply (step_result HDELc key args _ A _ _ _ _ [_] eq_refl HA'); rewrite Hspec; [done|]. cbn [sr_hash sr_dirty].
      rewrite bool_decide_false by done. by eapply holds_space.
    + eapply (hdel_end (space (delete key A)) _ true); [intros dbs h2; apply space_length|exact Hs1|]. intros s2 h2 Hs2.
      eapply (step_result HDELc key args _ A _ _ _ _ [_] eq_refl HA'); rewrite Hspec, Hd, map_size_empty, Z.sub_0_r; [done|]. cbn [sr_hash sr_dirty].
      by rewrite bool_decide_true.
Qed.

Lemma raw_number b : getLongLongFromObject (Some (Raw b)) = Some (number_of b).
Proof using Type. unfold number_of. cbn. destruct (strtoll b) as [[v rest] e]. by destruct (_ || _). Qed.

Lemma number_of_range b v : number_of b = Some v -> srange 64 v.
Proof using Type. intros Hv. apply (number_range b). by rewrite raw_number, Hv. Qed.

Lemma object_number o b : stands_for o b -> getLongLongFromObject (Some o) = Some (number_of b).
Proof using Type.
  destruct o as [x|v|]; cbn [stands_for]; [intros ->; apply raw_number| |done]. intros [Hv Hd]. pose proof (number_decimal v b Hv Hd) as Hn.
  rewrite raw_number in Hn. injection Hn as ->. done.
Qed.

Lemma notation_small v : srange 64 v -> small_string max_value (notation v).
Proof using Type.
  clear. intros Hv. destruct (notation_decimal v Hv) as (l & Hl & Hlv & ->). unfold srange in Hv. change (64 - 1) with 63 in Hv.
  pose proof (canonical_length_below 19 l ltac:(lia) Hl ltac:(rewrite Hlv; simpl; lia)). destruct Hl as [Hd _].
  assert (bytes_ok l) as Hb by (eapply Forall_impl; [exact Hd|]; intros x Hx; cbn in Hx; unfold is_byte; lia).
  split; case_bool_decide; cbn [length]; unfold max_string; try lia; try done. by constructor.
Qed.

Lemma overflow_spec incr old : srange 64 incr -> srange 64 old -> hincr_overflows incr old = negb (bool_decide (srange 64 (old + incr))).
Proof using Type.
  clear. intros Hi Ho. unfold hincr_overflows, srange, LLONG_MIN, LLONG_MAX in *. change (64 - 1) with 63 in *. repeat case_bool_decide; try done; lia.
Qed.

Definition current_number (m : smap) (f : bytes) : option Z := from_option number_of (Some 0) (m !! f).

Lemma hincr_value_h p B av reply' s h m f (Q : option Z -> server -> hashes -> Prop) : holds (focus key p B) av reply' n s h -> B !! key = Some (Some m) ->
  (forall s' h', match current_number m f with
     | Some v => holds (focus key p B) av reply' n s' h' -> Q (Some v) s' h'
     | None => holds (focus key p B) av (reply' ++ [ReplyError "hash value is not an integer"]) n s' h' -> Q None s' h' end) ->
  swp (hincr_value seed c p f) Q s h.
Proof using All.
  intros Hs HB HQ. apply swp_bind. eapply get_h; [exact Hs|exact HB|]. intros r h' Hr Hs'. unfold current_number in HQ. destruct Hr as [o b Hob|]; cbn [from_option] in HQ.
  - apply swp_bind. eapply swp_lift; [by apply object_number|]. destruct (number_of b) as [v|]; [by apply swp_ret, (HQ s h')|].
    apply swp_bind. eapply addReply_h; [exact Hs'|]. intros s1 Hs1. by apply swp_ret, HQ.
  - by apply swp_ret, (HQ s h').
Qed.

Lemma hincrby_spec f i : A !! key <> Some None -> spec_hash HINCRBYc [f; i] (key_hash A key) =
  match current_number (map_at A key) f, number_of i with
  | Some old, Some incr =>
      if bool_decide (srange 64 (old + incr))
      then SpecResult (Some (<[f := notation (old + incr)]> (map_at A key))) (eq [ReplyInt (old + incr)]) 1
      else unchanged (key_hash A key) [ReplyError "increment or decrement would overflow"]
  | _, _ => unchanged (key_hash A key) [ReplyError "hash value is not an integer"]
  end.
Proof using Type. intros _. cbn [spec_hash]. by rewrite key_hash_default. Qed.

(** An error is only possible for a field that exists, so the hash did. *)
Lemma error_existed f (x : option Z) : current_number (map_at A key) f = x -> x <> Some 0 -> A !! key <> Some None -> <[key := Some (map_at A key)]> A = A.
Proof using Type.
  intros Hx Hne HA. unfold current_number, map_at in *. destruct (A !! key) as [[m|]|] eqn:E; [by rewrite insert_id|done|]. rewrite lookup_empty in Hx. by subst x.
Qed.

Lemma hincrby_h f i s h : small_enough A key [f; i] -> small_string max_value f -> holds (space A) [name; key; f; i] reply n s h ->
  runs_ok HINCRBYc key [f; i] A [name; key; f; i] reply n (hincrbyCommand clock seed can_resize junk junk_obj max_entries c) s h.
Proof using All.
  intros Hb Hf Hs. unfold small_enough in Hb. apply swp_bind. eapply current_db_h; [exact Hs|]. apply swp_bind. eapply argv_h; [exact Hs|done|].
  apply swp_bind. eapply argv_h; [exact Hs|done|]. apply swp_bind. pose proof (raw_number i) as Hi.
  assert (early_error HINCRBYc [f; i] = match number_of i with None => Some (ReplyError "value is not an integer or out of range") | Some _ => None end) as He by done.
  destruct Hs as (dbs & Hat & HS). apply swp_srv. eapply number_at; [exact Hat|exact Hi|]. destruct (number_of i) as [incr|] eqn:Hincr.
  2:{ intros s1 Hat1. apply swp_ret. eapply step_early; [exact He|]. by exists dbs. }
  assert (holds (space A) [name; key; f; i] reply n s h) as Hs by by exists dbs. clear dbs Hat HS.
  apply swp_bind. eapply lookup_create_h; [exact Hs|intros HA s1 Hs1; apply swp_ret; by apply step_wrong|]. clear s h Hs. intros HA p s h Hs.
  pose proof (hincrby_spec f i HA) as Hspec. rewrite Hincr in Hspec. apply swp_bind. eapply argv_h; [exact Hs|done|]. apply swp_bind.
  eapply hincr_value_h; [exact Hs|apply lookup_insert_eq|]. clear s h Hs. intros s h. destruct (current_number (map_at A key) f) as [old|] eqn:Hold; intros Hs.
  2:{ apply swp_ret. rewrite (error_existed f _ Hold) in Hs by done. eapply step_unchanged; [exact He|exact HA|exact Hspec|by eapply holds_space]. }
  assert (srange 64 old) as Ho.
  { unfold current_number in Hold. destruct (map_at A key !! f) as [b|]; cbn in Hold; [by eapply number_of_range|]. injection Hold as <-. done. }
  pose proof (number_of_range i incr Hincr) as Hir. rewrite (overflow_spec incr old Hir Ho). destruct (bool_decide_reflect (srange 64 (old + incr))) as [Hr|Hr]; cbn [negb].
  - rewrite swrap_small by (done || lia). apply swp_bind. eapply update_h; [exact Hs|apply lookup_insert_eq| |].
    { intros o Hor. apply (hashTypeSet_spec seed can_resize junk junk_obj max_entries max_value Hentries Hroom o _ _ _ f (notation (old + incr)) Hor);
        [apply encoding_stands|by apply notation_stands|by destruct o|destruct o; [by apply notation_small|done]|cbn [length] in Hb; lia]. }
    intros h' Hs'. rewrite insert_insert_eq in Hs'. eapply end_modified; [exact He|exact HA|exact Hspec|exact Hs'].
  - eapply addReply_h; [exact Hs|]. intros s1 Hs1. rewrite (error_existed f _ Hold) in Hs1; [|intros [= ->]; by apply Hr|done].
    eapply step_unchanged; [exact He|exact HA|exact Hspec|by eapply holds_space].
Qed.
End Command.

(** ** Requests *)

Lemma healthy_small A B key args : healthy B A -> B + zlen args <= max_elements -> 0 <= B -> small_enough A key args.
Proof using Type.
  clear. intros HA Hb HB. unfold small_enough, map_at. destruct (A !! key) as [[m|]|] eqn:E; [|rewrite map_size_empty; lia..].
  destruct (HA key m E). lia.
Qed.

Lemma set_all_ne args : forall m : smap, m <> ∅ -> set_all m args <> ∅.
Proof using Type.
  clear. assert (forall k args (m : smap), (length args <= k)%nat -> m <> ∅ -> set_all m args <> ∅) as H; [|by eauto].
  intros k. induction k as [|k IH]; intros [|f [|v l]] m Hk Hm; cbn [set_all length] in *; try lia; try done.
  apply IH; [lia|]. apply insert_non_empty.
Qed.

Lemma set_hash_healthy B B' key mo A : healthy B A -> B <= B' -> (forall m, mo = Some m -> m <> ∅ /\ Z.of_nat (base.size m) <= B') -> healthy B' (set_hash key mo A).
Proof using Type.
  clear. intros HA HB Hmo k m Hk. destruct mo as [m'|]; cbn [set_hash] in Hk.
  - apply lookup_insert_Some in Hk as [[_ E]|[_ Hk]]; [injection E as ->; by apply Hmo|]. destruct (HA k m Hk). split; [done|lia].
  - apply lookup_delete_Some in Hk as [_ Hk]. destruct (HA k m Hk). split; [done|lia].
Qed.

Lemma del_all_size fs : forall m : smap, (base.size (del_all m fs) <= base.size m)%nat.
Proof using Type.
  clear. induction fs as [|f fs IH]; intros m; [done|]. change (del_all m (f :: fs)) with (del_all (delete f m) fs).
  pose proof (IH (delete f m)). pose proof (map_subseteq_size _ _ (delete_subseteq m f)). lia.
Qed.

Definition fields_bound (B : Z) (m : gmap bytes bytes) : Prop := m <> ∅ /\ Z.of_nat (base.size m) <= B.

Lemma insert_bound (B : Z) (m : smap) f v k : Z.of_nat (base.size m) <= B -> 1 <= k -> fields_bound (B + k) (<[f := v]> m).
Proof using Type. clear. intros Hm Hk. pose proof (insert_size m f v). split; [apply insert_non_empty|lia]. Qed.

Lemma spec_hash_bound cmd args mo (B : Z) : arity_ok cmd args -> 0 <= B -> (forall m, mo = Some m -> fields_bound B m) ->
  forall m, sr_hash (spec_hash cmd args mo) = Some m -> fields_bound (B + zlen args) m.
Proof using Type.
  clear. intros Har HB Hmo m. assert (Z.of_nat (base.size (default ∅ mo)) <= B) as Hs.
  { destruct mo as [m0|]; [by apply Hmo|]. change (default ∅ None) with (∅ : smap). rewrite map_size_empty. lia. }
  assert (forall m, mo = Some m -> fields_bound (B + zlen args) m) as Hsame by (intros m0 Hm0; destruct (Hmo m0 Hm0); split; [done|lia]).
  assert (forall f v, (2 <= length args)%nat -> fields_bound (B + zlen args) (<[f := v]> (default ∅ mo))) as Hins.
  { intros f v Hl. apply insert_bound; [done|lia]. }
  destruct cmd; cbn [arity_ok] in Har.
  4: { destruct args as [|f [|i [|]]]; try done. cbn [spec_hash]. destruct (from_option number_of (Some 0) _), (number_of i); try exact (Hsame m).
    case_bool_decide; [|exact (Hsame m)]. intros [= <-]. by apply Hins. }
  4: { cbn [spec_hash sr_hash]. case_bool_decide as Hd; [done|]. intros [= <-]. split; [done|]. pose proof (del_all_size args (default ∅ mo)). lia. }
  3: { cbn [spec_hash sr_hash]. intros [= <-]. destruct args as [|f [|v l]]; cbn [length] in Har; [lia..|]. cbn [set_all]. split.
    - apply set_all_ne, insert_non_empty.
    - pose proof (set_all_size (f :: v :: l) (default ∅ mo)). cbn [set_all] in *. lia. }
  all: destruct args as [|f [|v [|]]]; try done; cbn [spec_hash]; try case_bool_decide; try exact (Hsame m).
  all: intros [= <-]; by apply Hins.
Qed.

(** Every request keeps the hashes from being empty, and they grow with its
    arguments at most. *)
Lemma request_healthy cmd key args A A' rs k (B : Z) : arity_ok cmd args -> 0 <= B -> healthy B A ->
  spec_request cmd key args A A' rs k -> healthy (B + zlen args) A'.
Proof using Type.
  clear. intros Har HB HA. assert (healthy (B + zlen args) A) as HA' by (intros k' m Hm; destruct (HA k' m Hm); split; [done|lia]).
  unfold spec_request. destruct (early_error cmd args); [by intros [-> _]|]. destruct (A !! key) as [[m|]|] eqn:E; [|by intros [-> _]|].
  all: intros (-> & _); eapply set_hash_healthy; [exact HA|lia|].
  all: apply (spec_hash_bound cmd args _ B Har HB); [intros m' Hm'; try done; injection Hm' as <-; by eapply HA].
Qed.

Lemma request_h cmd name key args A reply n s h (B : Z) : arity_ok cmd args -> Forall bytes_ok args ->
  (cmd = HINCRBYc -> zlen (default [] (head args)) <= max_string max_value) -> 0 <= B -> B + zlen args <= max_elements -> healthy B A ->
  holds (space A) (name :: key :: args) reply n s h ->
  runs_ok cmd key args A (name :: key :: args) reply n (hash_proc clock seed can_resize junk junk_obj max_entries max_value cmd c) s h.
Proof using All.
  intros Har Hok Hincr HB Hb HA Hs. pose proof (healthy_small A B key args HA Hb HB) as Hsm.
  assert (A !! key <> Some (Some ∅)) as Hne by (intros E; by destruct (HA key ∅ E)).
  destruct cmd; cbn [arity_ok hash_proc] in *.
  3: by apply hmset_h.
  4: by apply hdel_h.
  5: by apply hmget_h.
  all: destruct args as [|f [|v [|]]]; try done; try (apply Forall_cons in Hok as [Hf Hok]); try (apply Forall_cons in Hok as [Hv _]).
  - by apply hset_h.
  - by apply hsetnx_h.
  - apply hincrby_h; [done| |done]. split; [done|]. by apply Hincr.
  - by apply hget_h.
  - by apply hlen_h.
  - by apply hgetall_h.
  - by apply hgetall_h.
  - by apply hgetall_h.
  - by apply hexists_h.
Qed.

Lemma set_argv_h P av av' reply n s h Q : holds P av reply n s h -> (forall s', holds P av' reply n s' h -> Q tt s' h) ->
  swp (srv (on_client c (set_c_argv av'))) Q s h.
Proof using Type.
  intros (dbs & [Hdb (cl & Hc & Hd & Ha & Hr) Hn Hcf] & HP) HQ. apply swp_srv. unfold on_client. apply wp_modify, HQ. exists dbs. split; [|done].
  split; [done| |done|done]. exists (set_c_argv av' cl). cbn. by rewrite lookup_alter_eq, Hc.
Qed.

Lemma swp_mono {X} (m : HashM X) (Q Q' : X -> server -> hashes -> Prop) s h : swp m Q s h -> (forall x s h, Q x s h -> Q' x s h) -> swp m Q' s h.
Proof using Type. unfold swp. destruct (m s h) as [[[x s'] h']|]; auto. Qed.

Lemma arguments_nonneg reqs : 0 <= arguments reqs.
Proof using Type. clear. unfold arguments. induction reqs; cbn; lia. Qed.

Lemma requests_h reqs : Forall (request_ok max_value) reqs -> forall A av reply n s h (B : Z), 0 <= B -> B + arguments reqs <= max_elements ->
  healthy B A -> holds (space A) av reply n s h ->
  swp (hash_requests clock seed can_resize junk junk_obj max_entries max_value c reqs)
    (fun _ s' h' => exists A' rs k av', spec_requests A reqs A' rs k /\ healthy (B + arguments reqs) A' /\ holds (space A') av' (reply ++ rs) (n + k) s' h') s h.
Proof using All.
  induction 1 as [|[cmd av1] reqs Hreq _ IH]; intros A av reply n s h B HB Hb HA Hs; cbn [hash_requests arguments foldr] in *.
  { apply swp_ret. exists A, [], 0, av. rewrite app_nil_r, !Z.add_0_r. split; [constructor|]. done. }
  destruct Hreq as (name & key & args & Hav & Har & Hok & Hincr). cbn [fst snd] in *. subst av1. cbn [length] in *. change (foldr _ 0 reqs) with (arguments reqs) in *.
  pose proof (arguments_nonneg reqs) as Hpos. apply swp_bind. eapply set_argv_h; [exact Hs|]. intros s1 Hs1. apply swp_bind.
  eapply swp_mono; [apply (request_h cmd name key args A reply n s1 h B); [done..|lia|done|done]|].
  intros [] s2 h2 (A1 & rs1 & k1 & Hspec & Hs2). assert (healthy (B + zlen args) A1) as HA1 by (by eapply request_healthy).
  eapply swp_mono; [apply (IH A1 (name :: key :: args) (reply ++ rs1) (n + k1) s2 h2 (B + zlen args)); [lia|lia|done|exact Hs2]|].
  intros [] s3 h3 (A2 & rs2 & k2 & av2 & Hspecs & HA2 & Hs3). exists A2, (rs1 ++ rs2), (k1 + k2), av2. rewrite (app_assoc reply), (Z.add_assoc n).
  split; [by econstructor|]. split; [|done]. intros k m Hk. destruct (HA2 k m Hk). split; [done|lia].
Qed.

(** C25: hashes behave as maps from strings to strings, through the commands
    of a client.  From any state whose database stands for a key space [A] of
    non-empty maps and values of other types, with expires that are not reached
    while the sequence runs ([remains]), a sequence of HSET, HSETNX,
    HMSET, HINCRBY, HDEL, HGET, HMGET, HLEN, HKEYS, HVALS, HGETALL and
    HEXISTS runs to its end, and replies, changes the key space and counts
    changes as [spec_request] says for each command in turn: errors for keys
    of another type and for wrong numbers, overflow and odd arguments leave
    everything as it was, keys appear with their first field and go with
    their last, and the other databases are not touched.  This holds whatever
    encodings the hashes go through.  The commands have the numbers of
    arguments of the table of commands, the field of HINCRBY is not longer than
    the limit for a ziplist or 20 bytes ([request_ok]; [hincrby_ignores_limit]
    shows why this one is bounded), and the fields and arguments add up to
    [max_elements] at most. *)
Theorem hash_requests_refine reqs A av reply n s h (B : Z) : Forall (request_ok max_value) reqs -> 0 <= B -> B + arguments reqs <= max_elements ->
  healthy B A -> holds (space A) av reply n s h ->
  exists s' h' A' rs k av', hash_requests clock seed can_resize junk junk_obj max_entries max_value c reqs s h = Some (tt, s', h') /\
    spec_requests A reqs A' rs k /\ healthy (B + arguments reqs) A' /\ holds (space A') av' (reply ++ rs) (n + k) s' h'.
Proof using All.
  intros Hreqs HB Hb HA Hs. destruct (swp_run _ _ _ _ (requests_h reqs Hreqs A av reply n s h B HB Hb HA Hs)) as ([] & s' & h' & Hrun & A' & rs & k & av' & H).
  by exists s', h', A', rs, k, av'.
Qed.
End Commands.

(** ** Examples *)

(** A client, and a database with a string that has an expire. *)
Definition hash_sample : server :=
  set_clients {[0%nat := RClient 0 0 [] [] [] []]} (set_dbs [RedisDb {[str "t" := Raw (str "v")]} {[str "t" := 5000]} ∅] sample).

Definition sample_space : keyspace := {[str "t" := None]}.

(** Conversions by the number of fields, an update inside a ziplist, an
    overflow, a key of another type, and a hash that loses its last field. *)
Definition sample_requests : list (hash_command * list bytes) :=
  [(HSETc, [str "hset"; str "k"; str "a"; str "5"]); (HINCRBYc, [str "hincrby"; str "k"; str "a"; str "10"]);
   (HINCRBYc, [str "hincrby"; str "k"; str "a"; str "9223372036854775807"]);
   (HMSETc, [str "hmset"; str "k"; str "b"; str "x"; str "c"; str "y"]); (HMGETc, [str "hmget"; str "k"; str "a"; str "z"; str "c"]);
   (HSETc, [str "hset"; str "t"; str "f"; str "v"]); (HDELc, [str "hdel"; str "k"; str "c"; str "a"; str "b"]); (HLENc, [str "hlen"; str "k"])].

Lemma sample_requests_ok : Forall (request_ok 64) sample_requests.
Proof.
  repeat constructor; unfold request_ok; do 3 eexists; (split; [reflexivity|]); (split; [vm_compute; try reflexivity; try lia; try discriminate|]);
    (split; [|intros ?; vm_compute; try discriminate; done]); apply (bool_decide_unpack _); vm_compute; exact I.
Qed.

Lemma sample_holds : holds (s_conf sample) 0 0 (space steady_clock 0 2 64 (s_conf sample) 0 (s_db hash_sample) sample_space) [] [] 0 hash_sample ∅.
Proof.
  exists (s_db hash_sample). split; [split; [done| |done|done]; by eexists|]. exists ∅, (RedisDb {[str "t" := Raw (str "v")]} {[str "t" := 5000]} ∅).
  split; [intros p m; by rewrite lookup_empty|]. split; [done|]. split; [|done]. split.
  - intros k t Ht. cbn in Ht. apply lookup_singleton_Some in Ht as [<- <-]. split; [by eexists|]. do 3 right. intros i. unfold steady_clock. lia.
  - intros k. cbn. unfold sample_space. destruct (decide (str "t" = k)) as [<-|Hne]; [done|]. by rewrite !lookup_insert_ne.
  - intros k1 k2 p. cbn. by intros [_ E]%lookup_singleton_Some.
Qed.

Lemma hash_requests_refine_witness :
  exists s' h' A' rs k av', hash_requests steady_clock 0 true (fun _ => 7) (IntObj 0) 2 64 0 sample_requests hash_sample ∅ = Some (tt, s', h') /\
    spec_requests sample_space sample_requests A' rs k /\ healthy (0 + arguments sample_requests) A' /\
    holds (s_conf sample) 0 0 (space steady_clock 0 2 64 (s_conf sample) 0 (s_db hash_sample) A') av' ([] ++ rs) (0 + k) s' h'.
Proof.
  apply (hash_requests_refine steady_clock 0 true (fun _ => 7) (IntObj 0) 2 64 (proj1 sample_limits) (proj2 sample_limits) (s_conf sample) 0 0 (s_db hash_sample)
    sample_requests sample_space [] [] 0 hash_sample ∅ 0 sample_requests_ok).
  - lia. - vm_compute. discriminate.
  - intros k m Hk. unfold sample_space in Hk. apply lookup_singleton_Some in Hk as [_ E]. discriminate.
  - apply sample_holds.
Defined.

Lemma sample_requests_run :
  match hash_requests steady_clock 0 true (fun _ => 7) (IntObj 0) 2 64 0 sample_requests hash_sample ∅ with
  | Some (_, s, _) => c_reply <$> (s_clients s !! 0%nat) = Some [ReplyInt 1; ReplyInt 15; ReplyError "increment or decrement would overflow"; ReplyOk;
      ReplyMultiBulkLen 3; ReplyBulk (str "15"); ReplyNullBulk; ReplyBulk (str "y"); wrongtypeerr; ReplyInt 3; ReplyInt 0] /\
      s_dirty s = 6 /\ (db_dict <$> s_db s) = [ {[str "t" := Raw (str "v")]} ]
  | None => False
  end.
Proof. vm_compute. repeat split. Qed.

(** ** A field longer than the limit

    HSET makes a hash table when the field is longer than
    [hash_max_ziplist_value]; HINCRBY, which does not call
    [hashTypeTryConversion], leaves such a field in a ziplist. *)
Definition long_field (first : hash_command * list bytes) : option (list bool) :=
  r ← hash_requests steady_clock 0 true (fun _ => 7) (IntObj 0) 2 4 0 [first] hash_sample ∅;
  let '(_, _, h) := r in Some ((fun o => match o.2 with ZlHash _ => true | HtHash _ => false end) <$> map_to_list h).

Lemma hincrby_ignores_limit :
  long_field (HSETc, [str "hset"; str "k"; str "counter"; str "1"]) = Some [false] /\
  long_field (HINCRBYc, [str "hincrby"; str "k"; str "counter"; str "1"]) = Some [true].
Proof. by vm_compute. Qed.
