(* ===== verification/Glob.v ===== *)
(** * Pattern matching ([stringmatchlen] of [util.c])

    The function on the buffers of two sds strings, which end with a NUL; a
    read outside a buffer is [None].  [parse_glob] and [glob_matches] are the
    syntax and the meaning of a pattern. *)
From Stdlib Require Import String.
From S2P Require Import Prelude Memory.

Definition c_star := 42.
Definition c_question := 63.
Definition c_lbracket := 91.
Definition c_rbracket := 93.
Definition c_caret := 94.
Definition c_backslash := 92.
Definition c_dash := 45.

(** [tolower] when [nocase]. *)
Definition fold_case (nocase : bool) (c : Z) : Z := if nocase then tolower c else c.

Section Match.
(** The buffers, and [nocase]. *)
Context (pat s : list Z) (nocase : bool).

(** [char] is signed. *)
Definition pchar (i : Z) : option Z := swrap 8 <$> zget i (pat ++ [0]).
Definition schar (j : Z) : option Z := swrap 8 <$> zget j (s ++ [0]).

(** [while (pattern[k] == '*') pattern++, patternLen--] *)
Fixpoint skip_stars (fuel : nat) (k i patternLen : Z) : option (Z * Z) :=
  match fuel with
  | O => None
  | S fuel =>
      c ← pchar (i + k);
      if bool_decide (c = c_star) then skip_stars fuel k (i + 1) (patternLen - 1) else Some (i, patternLen)
  end.

(** One iteration of the loop on the members of a class; [inr] when it ends. *)
Definition class_step (j : Z) (st : Z * Z * bool) : option (Z * Z * bool + Z * Z * bool) :=
  let '(i, patternLen, matched) := st in
  p0 ← pchar i;
  if bool_decide (p0 = c_backslash) then
    p1 ← pchar (i + 1); c ← schar j;
    Some (inl (i + 2, patternLen - 2, matched || bool_decide (p1 = c)))
  else if bool_decide (p0 = c_rbracket) then Some (inr (i, patternLen, matched))
  else if bool_decide (patternLen = 0) then Some (inr (i - 1, patternLen + 1, matched))
  else
    p1 ← pchar (i + 1);
    if bool_decide (p1 = c_dash /\ patternLen >= 3) then
      p2 ← pchar (i + 2); c ← schar j;
      let '(start, end_) := if bool_decide (p0 > p2) then (p2, p0) else (p0, p2) in
      let start := fold_case nocase start in
      let end_ := fold_case nocase end_ in
      let c := fold_case nocase c in
      Some (inl (i + 3, patternLen - 3, matched || bool_decide (start <= c <= end_)))
    else
      c ← schar j;
      Some (inl (i + 1, patternLen - 1, matched || bool_decide (fold_case nocase p0 = fold_case nocase c))).

Definition class_loop (j i patternLen : Z) : option (Z * Z * bool) :=
  mjoin (loop (length pat + 2) (fun st => as_step (class_step j st)) (i, patternLen, false)).

(** The case of ['\[']: the position of the last character of the class, and
    whether the character of the string is accepted. *)
Definition match_class (j i patternLen : Z) : option (Z * Z * bool) :=
  let i := i + 1 in
  let patternLen := patternLen - 1 in
  p0 ← pchar i;
  let neg := bool_decide (p0 = c_caret) in
  '(i, patternLen, matched) ← (if neg then class_loop j (i + 1) (patternLen - 1) else class_loop j i patternLen);
  Some (i, patternLen, if neg then negb matched else matched).

(** The [switch] for a character other than ['*']: the new position in the
    pattern, when a character of the string is consumed. *)
Definition match_one (j i patternLen stringLen p0 : Z) : option (option (Z * Z)) :=
  if bool_decide (p0 = c_question) then
    Some (if bool_decide (stringLen = 0) then None else Some (i, patternLen))
  else if bool_decide (p0 = c_lbracket) then
    '(i, patternLen, matched) ← match_class j i patternLen;
    Some (if (matched : bool) then Some (i, patternLen) else None)
  else
    let '(i, patternLen) := if bool_decide (p0 = c_backslash /\ patternLen >= 2) then (i + 1, patternLen - 1) else (i, patternLen) in
    p0 ← pchar i; c ← schar j;
    Some (if bool_decide (fold_case nocase p0 = fold_case nocase c) then Some (i, patternLen) else None).

(** The rest of the pattern against the tails of the string that are not
    empty. *)
Fixpoint tails (match_rest : Z -> Z -> option bool) (n : nat) (j stringLen : Z) : option bool :=
  if bool_decide (stringLen = 0) then Some false
  else match n with
       | O => None
       | S n => r ← match_rest j stringLen; if (r : bool) then Some true else tails match_rest n (j + 1) (stringLen - 1)
       end.

(** [stringmatchlen(pattern, patternLen, string, stringLen, nocase)]: one unit
    of fuel for each iteration of the outer loop. *)
Fixpoint match_from (fuel : nat) (i patternLen j stringLen : Z) : option bool :=
  match fuel with
  | O => None
  | S fuel =>
      if bool_decide (patternLen = 0) then Some (bool_decide (stringLen = 0))
      else
        p0 ← pchar i;
        if bool_decide (p0 = c_star) then
          '(i, patternLen) ← skip_stars (length pat + 1) 1 i patternLen;
          if bool_decide (patternLen = 1) then Some true
          else
            tails (match_from fuel (i + 1) (patternLen - 1)) (length s) j stringLen
        else
          r ← match_one j i patternLen stringLen p0;
          match r with
          | None => Some false
          | Some (i, patternLen) =>
              let i := i + 1 in
              let patternLen := patternLen - 1 in
              let stringLen := stringLen - 1 in
              if bool_decide (stringLen = 0) then
                '(_, patternLen) ← skip_stars (length pat + 1) 0 i patternLen;
                Some (bool_decide (patternLen = 0))
              else match_from fuel i patternLen (j + 1) stringLen
          end
  end.
End Match.

Definition stringmatchlen (pat s : list Z) (nocase : bool) : option bool :=
  match_from pat s nocase (length pat + 1) 0 (zlen pat) 0 (zlen s).

(** ** The patterns *)

Inductive class_item := Single (c : Z) | Quoted (c : Z) | Range (a b : Z).

Inductive glob_item := Star | AnyChar | Class (neg : bool) (items : list class_item) | Literal (c : Z).

(** The members of a class and what follows it: a class may lack its bracket;
    [None] for a backslash that quotes nothing. *)
Fixpoint parse_class (l : list Z) : option (list class_item * list Z) :=
  match l with
  | [] => Some ([], [])
  | a :: l =>
      if bool_decide (a = c_backslash) then
        match l with b :: l => '(items, r) ← parse_class l; Some (Quoted b :: items, r) | [] => None end
      else if bool_decide (a = c_rbracket) then Some ([], l)
      else
        let single := '(items, r) ← parse_class l; Some (Single a :: items, r) in
        match l with
        | b :: c :: l => if bool_decide (b = c_dash) then '(items, r) ← parse_class l; Some (Range a c :: items, r) else single
        | _ => single
        end
  end.

Fixpoint parse_items (fuel : nat) (l : list Z) : option (list glob_item) :=
  match fuel, l with
  | O, _ => None
  | _, [] => Some []
  | S fuel, a :: l =>
      if bool_decide (a = c_star) then gs ← parse_items fuel l; Some (Star :: gs)
      else if bool_decide (a = c_question) then gs ← parse_items fuel l; Some (AnyChar :: gs)
      else if bool_decide (a = c_lbracket) then
        let neg := bool_decide (hd 0 l = c_caret) in
        '(items, r) ← parse_class (if neg then tail l else l);
        gs ← parse_items fuel r; Some (Class neg items :: gs)
      else match l with
           | b :: l' => if bool_decide (a = c_backslash) then gs ← parse_items fuel l'; Some (Literal b :: gs)
                        else gs ← parse_items fuel l; Some (Literal a :: gs)
           | [] => Some [Literal a]
           end
  end.

Definition parse_glob (pat : list Z) : option (list glob_item) := parse_items (S (length pat)) pat.

(** The characters are compared as signed ones. *)
Definition item_accepts (nocase : bool) (c : Z) (it : class_item) : bool :=
  match it with
  | Single b => bool_decide (fold_case nocase (swrap 8 b) = fold_case nocase (swrap 8 c))
  | Quoted b => bool_decide (b = c)
  | Range a b =>
      let lo := Z.min (swrap 8 a) (swrap 8 b) in
      let hi := Z.max (swrap 8 a) (swrap 8 b) in
      bool_decide (fold_case nocase lo <= fold_case nocase (swrap 8 c) <= fold_case nocase hi)
  end.

Definition accepts (nocase : bool) (g : glob_item) (c : Z) : bool :=
  match g with
  | Star => false
  | AnyChar => true
  | Class neg items => xorb neg (existsb (item_accepts nocase c) items)
  | Literal b => bool_decide (fold_case nocase (swrap 8 b) = fold_case nocase (swrap 8 c))
  end.

Inductive glob_matches (nocase : bool) : list glob_item -> list Z -> Prop :=
| gm_end : glob_matches nocase [] []
| gm_char g gs c t : accepts nocase g c = true -> glob_matches nocase gs t -> glob_matches nocase (g :: gs) (c :: t)
| gm_none gs t : glob_matches nocase gs t -> glob_matches nocase (Star :: gs) t
| gm_some gs c t : glob_matches nocase (Star :: gs) t -> glob_matches nocase (Star :: gs) (c :: t).


(** * Correctness *)

Lemma swrap8_inj x y : is_byte x -> is_byte y -> swrap 8 x = swrap 8 y -> x = y.
Proof.
  unfold urange. intros Hx Hy E. rewrite <- (uwrap_small 8 x), <- (uwrap_small 8 y) by done.
  by rewrite <- (uwrap_swrap 8 x), <- (uwrap_swrap 8 y), E by lia.
Qed.

Lemma swrap8_const x c : is_byte x -> is_byte c -> c < 128 -> bool_decide (swrap 8 x = c) = bool_decide (x = c).
Proof.
  intros Hx Hc Hlt. apply bool_decide_ext. assert (swrap 8 c = c) as E.
  { apply swrap_small; unfold urange, srange in *; simpl in *; lia. }
  split; [|by intros ->]. intros Heq. apply swrap8_inj; [done..|]. by rewrite E.
Qed.

Lemma hd_ok l : bytes_ok l -> is_byte (hd 0 l).
Proof. intros [|x l' Hx _]; [unfold urange; simpl; lia|done]. Qed.

Section Spec.
Context (pat s : list Z) (nocase : bool).
Context (Hpat : bytes_ok pat) (Hs : bytes_ok s).
Abbreviation pget := (pchar pat).
Abbreviation sget := (schar s).

Lemma pchar_at pre r i : pat = pre ++ r -> i = zlen pre -> pget i = Some (swrap 8 (hd 0 r)).
Proof using Type.
  clear. intros -> ->. unfold pchar. destruct r as [|x r]; rewrite <- app_assoc; simpl; by rewrite zget_app.
Qed.

Lemma schar_at pre t j : s = pre ++ t -> j = zlen pre -> sget j = Some (swrap 8 (hd 0 t)).
Proof using Type.
  clear. intros -> ->. unfold schar. destruct t as [|x t]; rewrite <- app_assoc; simpl; by rewrite zget_app.
Qed.

Lemma pat_ok pre r : pat = pre ++ r -> bytes_ok r.
Proof using Hpat. intros E. rewrite E in Hpat. by apply Forall_app in Hpat as [_ ?]. Qed.

Lemma shift pre a r : pat = pre ++ a :: r -> pat = (pre ++ [a]) ++ r.
Proof using Type. intros E. by rewrite <- app_assoc. Qed.

(** The loop on the members of a class: [run] is the loop from a state,
    [class_ends] what it has to return. *)
Definition run (j : Z) (fuel : nat) (st : Z * Z * bool) : option (Z * Z * bool) :=
  mjoin (loop fuel (fun st => as_step (class_step pat s nocase j st)) st).

Lemma run_S j fuel st : run j (S fuel) st =
  match class_step pat s nocase j st with Some (inl st) => run j fuel st | Some (inr r) => Some r | None => None end.
Proof using Type. unfold run. rewrite loop_S. by destruct (class_step pat s nocase j st) as [[?|?]|]. Qed.

Definition class_ends (c : Z) (res : option (Z * Z * bool)) (m : bool) (items : list class_item) (r : list Z) : Prop :=
  exists pre' x, pat = pre' ++ x :: r /\ res = Some (zlen pre', 1 + zlen r, m || existsb (item_accepts nocase c) items).

Lemma class_ends_cons c res m it items r :
  class_ends c res (m || item_accepts nocase c it) items r -> class_ends c res m (it :: items) r.
Proof using Type. intros (pre' & x & Hp & Hr). exists pre', x. split; [done|]. rewrite Hr. cbn [existsb]. by rewrite orb_assoc. Qed.

Lemma range_accepts a b c :
  (let '(start, end_) := if bool_decide (swrap 8 a > swrap 8 b) then (swrap 8 b, swrap 8 a) else (swrap 8 a, swrap 8 b) in
   bool_decide (fold_case nocase start <= fold_case nocase (swrap 8 c) <= fold_case nocase end_)) = item_accepts nocase c (Range a b).
Proof using Type.
  cbn [item_accepts]. destruct (bool_decide_reflect (swrap 8 a > swrap 8 b)).
  - by rewrite Z.min_r, Z.max_l by lia.
  - by rewrite Z.min_l, Z.max_r by lia.
Qed.

Lemma class_loop_spec c j : is_byte c -> sget j = Some (swrap 8 c) ->
  forall n l items r pre m fuel, (length l <= n)%nat -> parse_class l = Some (items, r) ->
  pat = pre ++ l -> pre <> [] -> (length l < fuel)%nat -> class_ends c (run j fuel (zlen pre, zlen l, m)) m items r.
Proof using Hpat.
  intros Hc Hj. induction n as [|n IH]; intros l items r pre m [|fuel] Hn Hl Hp Hne Hf; try lia.
  all: rewrite run_S; unfold class_step; rewrite (pchar_at pre l (zlen pre)) by done; bind_simpl;
    pose proof (pat_ok _ _ Hp) as Hok; rewrite !swrap8_const by (try apply hd_ok; try done; unfold urange; simpl; lia).
  all: destruct l as [|a l]; cbn [hd]; cbn [length] in Hn, Hf; try lia.
  1, 2: destruct pre as [|x pre _] using rev_ind; [done|]; cbn; injection Hl as <- <-; exists pre, x; rewrite app_nil_r in Hp;
    split; [done|]; rewrite orb_false_r, length_app; simpl; do 4 f_equal; lia.
  assert (forall it pre' l' items' r', (length l' < length (a :: l))%nat -> pat = pre' ++ l' -> pre' <> [] ->
    parse_class l' = Some (items', r') ->
    class_ends c (run j fuel (zlen pre', zlen l', m || item_accepts nocase c it)) m (it :: items') r') as Hnext.
  { intros it pre' l' items' r' Hlt Hp' Hne' Hl'. apply class_ends_cons. simpl in Hlt. by apply IH; try lia. }
  pose proof (shift _ _ _ Hp) as Hp1. apply Forall_cons in Hok as [Ha Hok]. cbn [parse_class] in Hl.
  assert (forall p, parse_class l = Some p -> Some (Single a :: p.1, p.2) = Some (items, r) ->
    class_ends c (run j fuel (zlen pre + 1, zlen (a :: l) - 1, m || item_accepts nocase c (Single a))) m items r) as Hsingle.
  { intros [its r'] Hp' [= <- <-]. replace (zlen pre + 1) with (zlen (pre ++ [a])) by (rewrite length_app; simpl; lia).
    replace (zlen (a :: l) - 1) with (zlen l) by (simpl; lia). apply Hnext; [simpl; lia|done|by intros []%app_nil|done]. }
  rewrite ?(pchar_at (pre ++ [a]) l (zlen pre + 1)) by (first [done|rewrite length_app; simpl; lia]).
  destruct (bool_decide_reflect (a = c_backslash)) as [->|Hbs].
  { destruct l as [|b l]; [done|]. destruct (parse_class l) as [[its r']|] eqn:Hl'; [|done]. injection Hl as <- <-.
    rewrite Hj. cbn [mbind option_bind hd]. apply Forall_cons in Hok as [Hb Hok].
    replace (zlen pre + 2) with (zlen ((pre ++ [c_backslash]) ++ [b])) by (rewrite !length_app; simpl; lia).
    replace (zlen (c_backslash :: b :: l) - 2) with (zlen l) by (simpl; lia).
    replace (bool_decide (swrap 8 b = swrap 8 c)) with (item_accepts nocase c (Quoted b)).
    - apply Hnext; [simpl; lia|by apply shift|by intros []%app_nil|done].
    - apply bool_decide_ext. split; [by intros ->|by apply swrap8_inj]. }
  destruct (bool_decide_reflect (a = c_rbracket)) as [->|Hrb].
  { injection Hl as <- <-. exists pre, c_rbracket. split; [done|]. rewrite orb_false_r. cbn. do 4 f_equal. lia. }
  rewrite bool_decide_false by (simpl; lia). bind_simpl. rewrite Hj. bind_simpl.
  destruct l as [|b [|d l]]; cbn [hd].
  - rewrite (bool_decide_false (_ /\ _)) by (simpl; lia).
    destruct (parse_class []) as [[its r']|] eqn:Hl'; [|done]. by apply (Hsingle (its, r')).
  - rewrite (bool_decide_false (_ /\ _)) by (simpl; lia).
    destruct (parse_class [b]) as [[its r']|] eqn:Hl'; [|done]. by apply (Hsingle (its, r')).
  - assert (bool_decide (swrap 8 b = c_dash /\ zlen (a :: b :: d :: l) >= 3) = bool_decide (b = c_dash)) as ->.
    { rewrite <- (swrap8_const b c_dash); [|by inversion Hok|done|done]. apply bool_decide_ext. simpl. split; [tauto|]. intros ->. split; [done|lia]. }
    destruct (bool_decide_reflect (b = c_dash)) as [->|Hd].
    + rewrite (pchar_at ((pre ++ [a]) ++ [c_dash]) (d :: l) (zlen pre + 2)) by (first [by apply shift|rewrite !length_app; simpl; lia]). cbn [mbind option_bind hd].
      destruct (parse_class l) as [[its r']|] eqn:Hl'; [|done]. injection Hl as <- <-.
      pose proof (range_accepts a d c) as Hr.
      destruct (if bool_decide (swrap 8 a > swrap 8 d) then _ else _) as [start end_] in Hr |- *. rewrite Hr.
      replace (zlen pre + 3) with (zlen (((pre ++ [a]) ++ [c_dash]) ++ [d])) by (rewrite !length_app; simpl; lia).
      replace (zlen (a :: c_dash :: d :: l) - 3) with (zlen l) by (simpl; lia).
      apply Hnext; [simpl; lia|by apply shift, shift|by intros []%app_nil|done].
    + destruct (parse_class (b :: d :: l)) as [[its r']|] eqn:Hl'; [|done]. by apply (Hsingle (its, r')).
Qed.

Lemma skip_stars_spec k : forall l pre i patternLen fuel, pat = pre ++ l -> i + k = zlen pre -> (length l < fuel)%nat ->
  exists m l', l = replicate m c_star ++ l' /\ hd 0 l' <> c_star /\
    skip_stars pat fuel k i patternLen = Some (i + Z.of_nat m, patternLen - Z.of_nat m).
Proof using Hpat.
  induction l as [|a l IH]; intros pre i n [|fuel] Hp Hi Hf; simpl in Hf; try lia; cbn [skip_stars];
    pose proof (pat_ok _ _ Hp) as Hok; rewrite (pchar_at _ _ (i + k) Hp Hi); bind_simpl;
    rewrite swrap8_const by (try apply hd_ok; try done; unfold urange; simpl; lia); cbn [hd].
  - exists 0%nat, []. split; [done|]. split; [done|]. simpl. do 2 f_equal; lia.
  - destruct (bool_decide_reflect (a = c_star)) as [->|Ha].
    + destruct (IH (pre ++ [c_star]) (i + 1) (n - 1) fuel (shift _ _ _ Hp)) as (m & l' & -> & Hh & ->);
        [rewrite length_app; simpl; lia|lia|]. exists (S m), l'. split; [done|]. split; [done|]. do 2 f_equal; lia.
    + exists 0%nat, (a :: l). split; [done|]. split; [done|]. simpl. do 2 f_equal; lia.
Qed.
End Spec.

(** ** The meaning of stars *)

Section Stars.
Context (nocase : bool).
Abbreviation matches := (glob_matches nocase).

Lemma star_suffix gs t : matches (Star :: gs) t <-> exists t1 t2, t = t1 ++ t2 /\ matches gs t2.
Proof.
  split.
  - remember (Star :: gs) as l eqn:El. intros H. revert El. induction H as [|g gs' c t Hg|gs' t H|gs' c t H IH]; try done.
    + intros [= -> ->]. done.
    + intros [= ->]. by exists [], t.
    + intros [= ->]. destruct (IH eq_refl) as (t1 & t2 & -> & Hm). by exists (c :: t1), t2.
  - intros (t1 & t2 & -> & H). induction t1 as [|c t1 IH]; simpl; by constructor.
Qed.

Lemma stars_merge m gs t : matches (replicate m Star ++ Star :: gs) t <-> matches (Star :: gs) t.
Proof.
  revert t. induction m as [|m IH]; intros t; [done|]. cbn [replicate app]. rewrite star_suffix. split.
  - intros (t1 & t2 & -> & Hm). apply IH in Hm. apply star_suffix in Hm as (t3 & t4 & -> & Hm). apply star_suffix.
    exists (t1 ++ t3), t4. by rewrite <- app_assoc.
  - intros Hm. exists [], t. split; [done|]. by apply IH.
Qed.

Lemma star_step gs c t : matches (Star :: gs) (c :: t) <-> matches gs (c :: t) \/ matches (Star :: gs) t.
Proof. split; [|by intros [?|?]; constructor]. inversion 1; subst; [done|by left|by right]. Qed.

Lemma item_step g gs c t : g <> Star -> matches (g :: gs) (c :: t) <-> accepts nocase g c = true /\ matches gs t.
Proof. intros Hg. split; [by inversion 1; subst|]. intros [? ?]. by constructor. Qed.

Lemma item_empty g gs : g <> Star -> ~ matches (g :: gs) [].
Proof. intros Hg. by inversion 1. Qed.

Lemma stars_empty gs m : matches (replicate m Star ++ gs) [] <-> matches gs [].
Proof.
  induction m as [|m IH]; [done|]. cbn [replicate app]. rewrite <- IH. split; [by inversion 1|]. by constructor.
Qed.
End Stars.

(** ** Parsing *)

Lemma parse_stars m l f gs : parse_items f (replicate m c_star ++ l) = Some gs ->
  exists gs' f', gs = replicate m Star ++ gs' /\ parse_items f' l = Some gs'.
Proof.
  revert f gs. induction m as [|m IH]; intros f gs Hp; [by exists gs, f|]. destruct f as [|f]; [done|].
  cbn in Hp. destruct (parse_items f _) as [gs1|] eqn:E; [|done]. injection Hp as <-.
  destruct (IH f gs1 E) as (gs' & f' & -> & Hp'). by exists gs', f'.
Qed.

(** What [parse_items] has read before the rest [l']. *)
Inductive reads (a : Z) (l : list Z) : glob_item -> list Z -> Prop :=
| reads_any : a = c_question -> reads a l AnyChar l
| reads_class items l' : a = c_lbracket ->
    parse_class (if bool_decide (hd 0 l = c_caret) then tail l else l) = Some (items, l') ->
    reads a l (Class (bool_decide (hd 0 l = c_caret)) items) l'
| reads_quoted b l' : a = c_backslash -> l = b :: l' -> reads a l (Literal b) l'
| reads_literal : a <> c_question -> a <> c_lbracket -> (a = c_backslash -> l = []) -> reads a l (Literal a) l.

Lemma parse_cons f a l gs : parse_items f (a :: l) = Some gs -> a <> c_star ->
  exists g gs' l' f', gs = g :: gs' /\ g <> Star /\ reads a l g l' /\ parse_items f' l' = Some gs'.
Proof.
  intros Hp Ha. destruct f as [|f]; [done|]. cbn [parse_items] in Hp. rewrite bool_decide_false in Hp by done.
  destruct (bool_decide_reflect (a = c_question)) as [Hq|Hq].
  { destruct (parse_items f l) as [gs'|] eqn:E; [|done]. injection Hp as <-. exists AnyChar, gs', l, f. by split_and!; [..|constructor|]. }
  destruct (bool_decide_reflect (a = c_lbracket)) as [Hb|Hb].
  { destruct (parse_class _) as [[items l']|] eqn:Ec; [|done]. cbn [mbind option_bind] in Hp.
    destruct (parse_items f l') as [gs'|] eqn:E; [|done]. injection Hp as <-. eexists _, gs', l', f. by split_and!; [..|constructor|]. }
  destruct l as [|b l]; [injection Hp as <-; exists (Literal a), [], [], 1%nat; by split_and!; [..|constructor|]|].
  destruct (bool_decide_reflect (a = c_backslash)) as [Hs|Hs].
  - destruct (parse_items f l) as [gs'|] eqn:E; [|done]. injection Hp as <-. exists (Literal b), gs', l, f. by split_and!; [..|by apply reads_quoted|].
  - destruct (parse_items f (b :: l)) as [gs'|] eqn:E; [|done]. injection Hp as <-. exists (Literal a), gs', (b :: l), f.
    by split_and!; [..|by apply reads_literal|].
Qed.

Lemma parse_class_length n : forall l items r, (length l <= n)%nat -> parse_class l = Some (items, r) -> (length r <= length l)%nat.
Proof.
  induction n as [|n IH]; intros [|a l] items r Hn Hp; simpl in Hn; try lia; try (by injection Hp as <- <-). cbn [parse_class] in Hp.
  assert (forall p, parse_class l = Some p -> Some (Single a :: p.1, p.2) = Some (items, r) -> (length r <= length (a :: l))%nat) as Hsingle.
  { intros [its r'] Hp' [= <- <-]. apply IH in Hp'; simpl; lia. }
  case_bool_decide; [|case_bool_decide; [injection Hp as <- <-; simpl; lia|]].
  - destruct l as [|b l]; [done|]. destruct (parse_class l) as [[its r']|] eqn:E; [|done]. injection Hp as <- <-.
    apply IH in E; simpl in *; lia.
  - assert ((parse_class l ≫= fun '(items, r) => Some (Single a :: items, r)) = Some (items, r) -> (length r <= length (a :: l))%nat) as Hs.
    { destruct (parse_class l) as [[its r']|] eqn:E; [|done]. by apply (Hsingle (its, r')). }
    destruct l as [|b [|c l]]; [by apply Hs..|]. case_bool_decide; [|by apply Hs].
    destruct (parse_class l) as [[its r']|] eqn:E; [|done]. injection Hp as <- <-. apply IH in E; simpl in *; lia.
Qed.

Lemma reads_length a l g l' : reads a l g l' -> (length l' <= length l)%nat.
Proof.
  intros [->|items l1 _ Hc|b l1 _ ->|]; simpl; [lia| |lia..]. apply (parse_class_length _ _ _ _ (le_n _)) in Hc.
  case_bool_decide; [|done]. destruct l; simpl in *; lia.
Qed.

(** ** The function *)

(** The first item does not take the NUL at the end of an empty string for a
    character. *)
Definition safe_head (nocase : bool) (gs : list glob_item) : bool :=
  match gs with ((Class _ _ | Literal _) as g) :: _ => negb (accepts nocase g 0) | _ => true end.

Section Function.
Context (pat s : list Z) (nocase : bool).
Context (Hpat : bytes_ok pat) (Hs : bytes_ok s).

(** A character is consumed when there is one, and the item accepts it. *)
Definition consumes (g : glob_item) (t : list Z) : bool := match t with [] => false | c :: _ => accepts nocase g c end.

Lemma match_one_spec a l g l' pre ps t gs : reads a l g l' -> pat = pre ++ a :: l -> s = ps ++ t -> a <> c_star ->
  (t <> [] \/ safe_head nocase (g :: gs) = true) ->
  exists r, match_one pat s nocase (zlen ps) (zlen pre) (zlen (a :: l)) (zlen t) (swrap 8 a) = Some r /\
    if consumes g t then exists pre' x, pat = pre' ++ x :: l' /\ r = Some (zlen pre', 1 + zlen l') else r = None.
Proof using Hpat Hs.
  intros Hr Hp Hps Ha Hsafe. pose proof (pat_ok pat Hpat _ _ Hp) as Hok. apply Forall_cons in Hok as [Hoka Hok].
  pose proof (shift pat _ _ _ Hp) as Hp1.
  assert (is_byte (hd 0 t)) as Hc by (apply hd_ok; rewrite Hps in Hs; by apply Forall_app in Hs as [_ ?]).
  assert (g <> AnyChar -> consumes g t = accepts nocase g (hd 0 t)) as Hcons.
  { intros Hg. destruct t as [|c t]; cbn [consumes hd]; [|done]. destruct Hsafe as [?|Hsafe]; [done|].
    destruct g; cbn [safe_head] in *; try done; apply negb_true_iff in Hsafe; by rewrite Hsafe. }
  assert (schar s (zlen ps) = Some (swrap 8 (hd 0 t))) as Hsc by by apply (schar_at s ps).
  unfold match_one. rewrite !(swrap8_const a) by (try done; unfold urange; simpl; lia).
  destruct Hr as [->|items l' -> Hcl|b l' -> ->|Hq Hb Hbs].
  - eexists. split; [done|]. destruct t as [|c t]; [done|]. cbn [consumes accepts]. exists pre, c_question. split; [done|].
    rewrite bool_decide_false by (simpl; lia). do 2 f_equal. simpl. lia.
  - rewrite Hcons by done. cbn [accepts]. change (bool_decide (c_lbracket = c_question)) with false.
    change (bool_decide (c_lbracket = c_lbracket)) with true. cbv iota. unfold match_class.
    rewrite (pchar_at pat (pre ++ [c_lbracket]) l (zlen pre + 1)) by (first [done|rewrite length_app; simpl; lia]). bind_simpl.
    rewrite (swrap8_const (hd 0 l)) by (try apply hd_ok; try done; unfold urange; simpl; lia).
    destruct (bool_decide_reflect (hd 0 l = c_caret)) as [Hneg|Hneg].
    + destruct l as [|x l]; [done|]. cbn [hd tail] in *. subst x.
      destruct (class_loop_spec pat s nocase Hpat (hd 0 t) (zlen ps) Hc Hsc (length l) l items l' ((pre ++ [c_lbracket]) ++ [c_caret]) false
        (length pat + 2)%nat) as (pre' & x & Hp' & Hr'); [done|done|by apply shift|by intros []%app_nil|rewrite Hp, length_app; simpl; lia|].
      unfold class_loop. unfold run in Hr'. rewrite !length_app in Hr'.
      replace (zlen pre + 1 + 1) with (Z.of_nat (length pre + length [c_lbracket] + length [c_caret])) by (simpl; lia).
      replace (zlen (c_lbracket :: c_caret :: l) - 1 - 1) with (zlen l) by (simpl; lia).
      rewrite Hr'. eexists. split; [done|]. cbn [orb]. rewrite xorb_true_l. destruct (negb _); [|done]. by exists pre', x.
    + destruct (class_loop_spec pat s nocase Hpat (hd 0 t) (zlen ps) Hc Hsc (length l) l items l' (pre ++ [c_lbracket]) false
        (length pat + 2)%nat) as (pre' & x & Hp' & Hr'); [done|done|done|by intros []%app_nil|rewrite Hp, length_app; simpl; lia|].
      unfold class_loop. unfold run in Hr'. rewrite !length_app in Hr'.
      replace (zlen pre + 1) with (Z.of_nat (length pre + length [c_lbracket])) by (simpl; lia).
      replace (zlen (c_lbracket :: l) - 1) with (zlen l) by (simpl; lia).
      rewrite Hr'. eexists. split; [done|]. cbn [orb]. rewrite xorb_false_l. destruct (existsb _ _); [|done]. by exists pre', x.
  - rewrite Hcons by done. cbn [accepts]. change (bool_decide (c_backslash = c_question)) with false.
    change (bool_decide (c_backslash = c_lbracket)) with false. cbv iota.
    rewrite bool_decide_true by (split; [done|simpl; lia]).
    rewrite (pchar_at pat (pre ++ [c_backslash]) (b :: l') (zlen pre + 1)) by (first [done|rewrite length_app; simpl; lia]). bind_simpl.
    rewrite Hsc. bind_simpl. eexists. split; [done|]. cbn [hd]. case_bool_decide; [|done].
    exists (pre ++ [c_backslash]), b. split; [done|]. rewrite length_app. do 2 f_equal; simpl; lia.
  - rewrite Hcons by done. cbn [accepts]. rewrite (bool_decide_false (a = c_question)), (bool_decide_false (a = c_lbracket)) by done.
    rewrite (bool_decide_false (_ /\ _)) by (intros [E Hlen]; apply (swrap8_inj a c_backslash) in E; [rewrite (Hbs E) in Hlen; simpl in Hlen; lia|done..]).
    rewrite (pchar_at pat pre (a :: l) (zlen pre)) by done. bind_simpl. rewrite Hsc. bind_simpl. eexists. split; [done|]. cbn [hd].
    case_bool_decide; [|done]. exists pre, a. split; [done|]. do 2 f_equal. simpl. lia.
Qed.

(** The tails of a string against a pattern [gs] that needs a character. *)
Lemma tails_spec f gs (ps : list Z) : ~ glob_matches nocase gs [] -> forall (t : list Z) n k,
  (forall t1 t2, t = t1 ++ t2 -> t2 <> [] -> exists b, f (zlen ps + k + zlen t1) (zlen t2) = Some b /\ (b = true <-> glob_matches nocase gs t2)) ->
  (length t <= n)%nat -> exists b, tails f n (zlen ps + k) (zlen t) = Some b /\ (b = true <-> glob_matches nocase (Star :: gs) t).
Proof using Type.
  intros Hne. induction t as [|c t IH]; intros n k Hf Hn.
  - exists false. split; [by destruct n|]. split; [done|]. intros Hm. exfalso. apply Hne. by inversion Hm.
  - destruct n as [|n]; [simpl in Hn; lia|]. cbn [tails]. rewrite bool_decide_false by (simpl; lia).
    destruct (Hf [] (c :: t) eq_refl ltac:(done)) as (b & Hb & Hiff). change (zlen []) with 0 in Hb. rewrite Z.add_0_r in Hb. rewrite Hb. bind_simpl.
    destruct b.
    + exists true. split; [done|]. rewrite star_step. split; [|done]. intros _. left. by apply Hiff.
    + destruct (IH n (k + 1)) as (b & Hb' & Hiff'); [|simpl in Hn; lia|].
      * intros t1 t2 -> Ht2. destruct (Hf (c :: t1) t2 eq_refl Ht2) as (b & Hb' & Hiff'). exists b. split; [|done].
        rewrite <- Hb'. f_equal. simpl. lia.
      * exists b. rewrite Z.add_assoc in Hb'. replace (zlen (c :: t) - 1) with (zlen t) by (simpl; lia). split; [done|].
        rewrite star_step, Hiff'. split; [by right|]. intros [Hm|?]; [|done]. apply Hiff in Hm. done.
Qed.

Lemma stars_literal m l gs f : parse_items f (replicate m c_star ++ l) = Some gs -> hd 0 l <> c_star ->
  glob_matches nocase gs [] <-> l = [].
Proof using Type.
  intros Hp Hl. apply parse_stars in Hp as (gs' & f' & -> & Hp). rewrite stars_empty. destruct l as [|a l].
  - destruct f'; [done|]. injection Hp as <-. split; [done|]. intros _. constructor.
  - apply parse_cons in Hp as (g & gs1 & l' & f1 & -> & Hg & _); [|done]. split; [|done]. intros Hm. by apply item_empty in Hm.
Qed.

Lemma match_from_spec fuel : forall l gs f pre ps t, (length l < fuel)%nat -> pat = pre ++ l -> s = ps ++ t ->
  parse_items f l = Some gs -> (t <> [] \/ safe_head nocase gs = true) ->
  exists b, match_from pat s nocase fuel (zlen pre) (zlen l) (zlen ps) (zlen t) = Some b /\ (b = true <-> glob_matches nocase gs t).
Proof using Hpat Hs.
  induction fuel as [|fuel IH]; intros l gs f pre ps t Hf Hp Hps Hgs Hsafe; [lia|]. cbn [match_from].
  destruct l as [|a l].
  { rewrite bool_decide_true by done. eexists. split; [done|]. destruct f; [done|]. injection Hgs as <-. rewrite bool_decide_eq_true.
    split; [destruct t; simpl; [constructor|lia]|by inversion 1]. }
  rewrite bool_decide_false by (simpl; lia). rewrite (pchar_at pat pre (a :: l) (zlen pre)) by done. bind_simpl. cbn [hd].
  pose proof (pat_ok pat Hpat _ _ Hp) as Hok. apply Forall_cons in Hok as [Hoka Hok].
  rewrite swrap8_const by (try done; unfold urange; simpl; lia).
  destruct (bool_decide_reflect (a = c_star)) as [->|Ha].
  - destruct (skip_stars_spec pat Hpat 1 l (pre ++ [c_star]) (zlen pre) (zlen (c_star :: l)) (length pat + 1)%nat (shift _ _ _ _ Hp))
      as (m & l' & El & Hh & ->); [rewrite length_app; simpl; lia|rewrite Hp, length_app; simpl; lia|]. bind_simpl. subst l.
    destruct (parse_stars (S m) l' f gs Hgs) as (gs' & f' & -> & Hgs').
    assert (forall u, glob_matches nocase (replicate (S m) Star ++ gs') u <-> glob_matches nocase (Star :: gs') u) as Hmerge.
    { intros u. rewrite <- (stars_merge nocase m gs' u). by rewrite <- replicate_S_end, <- app_assoc || (rewrite replicate_S_end, <- app_assoc). }
    replace (zlen (c_star :: replicate m c_star ++ l') - Z.of_nat m) with (1 + zlen l') by (simpl; rewrite length_app, length_replicate; lia).
    lazymatch goal with |- exists b, ?e = Some b /\ _ =>
      cut (exists b, e = Some b /\ (b = true <-> glob_matches nocase (Star :: gs') t)) end;
      [intros (b & Hb & Hi); exists b; split; [exact Hb|]; rewrite Hi; symmetry; apply Hmerge|].
    destruct l' as [|x l'].
    + rewrite bool_decide_true by done. exists true. split; [done|]. split; [|done]. intros _. destruct f'; [done|]. injection Hgs' as <-.
      apply star_suffix. exists t, []. split; [by rewrite app_nil_r|constructor].
    + rewrite bool_decide_false by (simpl; lia).
      destruct (tails_spec (match_from pat s nocase fuel (zlen pre + Z.of_nat m + 1) (1 + zlen (x :: l') - 1)) gs' ps) with (t := t) (n := length s) (k := 0)
        as (b & Hb & Hiff).
      * intros Hm. apply (stars_literal 0 (x :: l') gs' f' Hgs' Hh) in Hm. done.
      * intros t1 t2 -> Ht2. destruct (IH (x :: l') gs' f' ((pre ++ [c_star]) ++ replicate m c_star) (ps ++ t1) t2) as (b & Hb & Hiff);
          [simpl in Hf; rewrite length_app, length_replicate in Hf; simpl in *; lia|rewrite <- app_assoc; by apply shift|by rewrite <- app_assoc|done|by left|].
        exists b. split; [|done]. rewrite <- Hb. rewrite !length_app, length_replicate. f_equal; simpl; lia.
      * rewrite Hps, length_app. lia.
      * exists b. by rewrite Z.add_0_r in Hb.
  - destruct (parse_cons f a l gs Hgs Ha) as (g & gs' & l' & f' & -> & Hg & Hr & Hgs').
    destruct (match_one_spec a l g l' pre ps t gs' Hr Hp Hps Ha Hsafe) as (r & -> & Hres). bind_simpl.
    destruct (consumes g t) eqn:Hc.
    + destruct Hres as (pre' & x & Hp' & ->). destruct t as [|c t]; [done|]. cbn [consumes] in Hc.
      pose proof (item_step nocase g gs' c t Hg) as Hstep.
      replace (zlen pre' + 1) with (zlen (pre' ++ [x])) by (rewrite length_app; simpl; lia).
      replace (1 + zlen l' - 1) with (zlen l') by lia. replace (zlen (c :: t) - 1) with (zlen t) by (simpl; lia).
      destruct (bool_decide_reflect (zlen t = 0)) as [Ht|Ht].
      * destruct t; [|simpl in Ht; lia].
        destruct (skip_stars_spec pat Hpat 0 l' (pre' ++ [x]) (zlen (pre' ++ [x])) (zlen l') (length pat + 1)%nat (shift _ _ _ _ Hp'))
          as (m & l2 & -> & Hh & ->); [lia|rewrite Hp', !length_app; simpl; lia|]. bind_simpl. eexists. split; [done|].
        rewrite bool_decide_eq_true, Hstep, (stars_literal m l2 gs' f' Hgs' Hh), length_app, length_replicate.
        split; [|intros [_ ->]; simpl; lia]. intros E. split; [done|]. destruct l2; [done|simpl in E; lia].
      * replace (zlen ps + 1) with (zlen (ps ++ [c])) by (rewrite length_app; simpl; lia).
        destruct (IH l' gs' f' (pre' ++ [x]) (ps ++ [c]) t) as (b & Hb & Hiff); [|by apply shift|by rewrite <- app_assoc|done|left; by intros ->|].
        { apply reads_length in Hr. simpl in Hf. lia. }
        exists b. split; [done|]. rewrite Hstep, Hiff. tauto.
    + subst r. exists false. split; [done|]. split; [done|]. intros Hm. destruct t as [|c t]; [by apply item_empty in Hm|].
      apply item_step in Hm as [Hm _]; [|done]. cbn [consumes] in Hc. congruence.
Qed.
End Function.

(** C22: pattern matching is exact, on a string that is not empty, or a pattern
    whose first item is not a literal or a class that accepts NUL, every
    backslash inside a class being followed by a character.  There
    [stringmatchlen] ends, reads inside the two buffers, and accepts exactly
    the strings that the pattern means: stars for any characters, classes with
    ranges between signed characters in any order, negation and a missing
    bracket, quoted characters, with or without case.  On the other patterns
    and strings it can read outside its buffers ([glob_reads_outside]). *)
Theorem stringmatchlen_matches pat s nocase gs :
  bytes_ok pat -> bytes_ok s -> parse_glob pat = Some gs -> s <> [] \/ safe_head nocase gs = true ->
  exists b, stringmatchlen pat s nocase = Some b /\ (b = true <-> glob_matches nocase gs s).
Proof.
  intros Hpat Hs Hgs Hsafe. apply (match_from_spec pat s nocase Hpat Hs (length pat + 1) pat gs (S (length pat)) [] [] s); [lia|done..].
Qed.

Definition chars (s : string) : list Z := (fun a => Z.of_nat (Ascii.nat_of_ascii a)) <$> list_ascii_of_string s.

Lemma stringmatchlen_matches_witness :
  exists b, stringmatchlen (chars "h[^a-f]*\*x[z") (chars "hilo*Xz") true = Some b /\
    (b = true <-> glob_matches true
      [Literal 104; Class true [Range 97 102]; Star; Literal 42; Literal 120; Class false [Single 122]] (chars "hilo*Xz")).
Proof.
  apply stringmatchlen_matches; [by apply (bool_decide_unpack _); vm_compute|by apply (bool_decide_unpack _); vm_compute|reflexivity|by left].
Defined.

Example sample_matches : stringmatchlen (chars "h[^a-f]*\*x[z") (chars "hilo*Xz") true = Some true.
Proof. reflexivity. Qed.

(** An empty string against a class that accepts its NUL makes [stringLen]
    negative, and a backslash at the end of a class makes [patternLen]
    negative: the function reads on after the buffers. *)
Lemma glob_reads_outside :
  stringmatchlen (chars "[^a]*b") [] false = None /\ stringmatchlen (chars "[\") (chars "x") false = None.
Proof. split; reflexivity. Qed.
