(* ===== verification/Pubsub.v ===== *)
(** * Publish/Subscribe ([pubsub.c])

    The tables of the server, from channels to the clients in the order of
    their subscriptions and the list of patterns, and those of each client.  A
    pointer to a client is its number; a [None] computation means that an
    assertion has failed, that a freed client or a null pointer was used, or
    that [stringmatchlen] has left its buffers. *)
From Stdlib Require Import String.
From S2P Require Import Prelude Server Bitops Glob.

(** What a client is sent. *)
Inductive pubsub_reply :=
| Subscribed (channel : bytes) (n : Z) | Unsubscribed (channel : option bytes) (n : Z)
| PSubscribed (pattern : bytes) (n : Z) | PUnsubscribed (pattern : option bytes) (n : Z)
| Message (channel message : bytes) | PMessage (pattern channel message : bytes)
| PReply (r : redis_reply).

Record pclient := PClient {
  pc_channels : gset bytes;
  pc_patterns : list bytes;
  pc_force_repl : bool;
  pc_reply : list pubsub_reply;
}.

Record pubsub := PubSub {
  ps_channels : gmap bytes (list client_id);
  ps_patterns : list (client_id * bytes);
  ps_clients : gmap client_id pclient;
}.

(** [listSearchKey] and [listDelNode]: the list without the first node that
    matches; [None] when there is none. *)
Fixpoint remove_first `{EqDecision A} (x : A) (l : list A) : option (list A) :=
  match l with
  | [] => None
  | y :: l => if bool_decide (y = x) then Some l else l ← remove_first x l; Some (y :: l)
  end.

(** ** Code on this state *)

Definition PM (A : Type) : Type := pubsub -> option (A * pubsub).

#[export] Instance PM_ret : MRet PM := fun A x s => Some (x, s).
#[export] Instance PM_bind : MBind PM := fun A B f m s =>
  match m s with Some (x, s) => f x s | None => None end.

Definition plift {A} (o : option A) : PM A := fun s => match o with Some x => Some (x, s) | None => None end.
Definition pmodify (f : pubsub -> pubsub) : PM unit := fun s => Some (tt, f s).
Definition pget {A} (f : pubsub -> A) : PM A := fun s => Some (f s, s).

Definition pclient_of (c : client_id) : PM pclient := fun s => plift (ps_clients s !! c) s.

(** A change of a client that must exist. *)
Definition on_pclient (c : client_id) (f : pclient -> pclient) : PM unit :=
  cl ← pclient_of c;
  pmodify (fun s => PubSub (ps_channels s) (ps_patterns s) (<[c := f cl]> (ps_clients s))).
Definition on_channels (f : gmap bytes (list client_id) -> gmap bytes (list client_id)) : PM unit :=
  pmodify (fun s => PubSub (f (ps_channels s)) (ps_patterns s) (ps_clients s)).
Definition set_ps_patterns (l : list (client_id * bytes)) : PM unit :=
  pmodify (fun s => PubSub (ps_channels s) l (ps_clients s)).

Definition set_pc_channels (x : gset bytes) (cl : pclient) : pclient := PClient x (pc_patterns cl) (pc_force_repl cl) (pc_reply cl).
Definition set_pc_patterns (x : list bytes) (cl : pclient) : pclient := PClient (pc_channels cl) x (pc_force_repl cl) (pc_reply cl).
Definition send (r : pubsub_reply) (cl : pclient) : pclient := PClient (pc_channels cl) (pc_patterns cl) (pc_force_repl cl) (pc_reply cl ++ [r]).
Definition force_repl (cl : pclient) : pclient := PClient (pc_channels cl) (pc_patterns cl) true (pc_reply cl).

Definition send_to (c : client_id) (r : pubsub_reply) : PM unit := on_pclient c (send r).

(** [dictSize(c->pubsub_channels)+listLength(c->pubsub_patterns)] *)
Definition subscriptions (cl : pclient) : Z := Z.of_nat (base.size (pc_channels cl)) + zlen (pc_patterns cl).

(** The reply that ends with the number of subscriptions. *)
Definition notify_count (c : client_id) (r : Z -> pubsub_reply) : PM unit :=
  cl ← pclient_of c; send_to c (r (subscriptions cl)).

(** ** Subscriptions *)

Definition pubsubSubscribeChannel (c : client_id) (channel : bytes) : PM bool :=
  cl ← pclient_of c;
  let retval := bool_decide (channel ∉ pc_channels cl) in
  (if retval then
     on_pclient c (set_pc_channels ({[channel]} ∪ pc_channels cl));;
     de ← pget (fun s => ps_channels s !! channel);
     let clients := match de with None => [] | Some clients => clients end in
     on_channels (<[channel := clients ++ [c]]>)
   else mret tt);;
  notify_count c (Subscribed channel);;
  mret retval.

Definition pubsubUnsubscribeChannel (c : client_id) (channel : bytes) (notify : bool) : PM bool :=
  cl ← pclient_of c;
  let retval := bool_decide (channel ∈ pc_channels cl) in
  (if retval then
     on_pclient c (set_pc_channels (pc_channels cl ∖ {[channel]}));;
     de ← pget (fun s => ps_channels s !! channel);
     clients ← plift de;
     clients ← plift (remove_first c clients);
     on_channels (match clients with [] => delete channel | _ => <[channel := clients]> end)
   else mret tt);;
  (if notify then notify_count c (Unsubscribed (Some channel)) else mret tt);;
  mret retval.

Definition pubsubSubscribePattern (c : client_id) (pattern : bytes) : PM bool :=
  cl ← pclient_of c;
  let retval := bool_decide (pattern ∉ pc_patterns cl) in
  (if retval then
     on_pclient c (set_pc_patterns (pc_patterns cl ++ [pattern]));;
     l ← pget ps_patterns;
     set_ps_patterns (l ++ [(c, pattern)])
   else mret tt);;
  notify_count c (PSubscribed pattern);;
  mret retval.

Definition pubsubUnsubscribePattern (c : client_id) (pattern : bytes) (notify : bool) : PM bool :=
  cl ← pclient_of c;
  retval ← match remove_first pattern (pc_patterns cl) with
           | None => mret false
           | Some patterns =>
               on_pclient c (set_pc_patterns patterns);;
               l ← pget ps_patterns;
               l ← plift (remove_first (c, pattern) l);
               set_ps_patterns l;;
               mret true
           end;
  (if notify then notify_count c (PUnsubscribed (Some pattern)) else mret tt);;
  mret retval.

Section Commands.
(** The order in which a hash table with given keys is iterated. *)
Context (iteration : gset bytes -> list bytes).

(** The loops return the number of subscriptions removed. *)
Fixpoint unsubscribe_channels (c : client_id) (channels : list bytes) (notify : bool) (count : Z) : PM Z :=
  match channels with
  | [] => mret count
  | channel :: channels =>
      b ← pubsubUnsubscribeChannel c channel notify;
      unsubscribe_channels c channels notify (if (b : bool) then count + 1 else count)
  end.

Definition pubsubUnsubscribeAllChannels (c : client_id) (notify : bool) : PM Z :=
  cl ← pclient_of c;
  count ← unsubscribe_channels c (iteration (pc_channels cl)) notify 0;
  (if notify && bool_decide (count = 0) then notify_count c (Unsubscribed None) else mret tt);;
  mret count.

Fixpoint unsubscribe_patterns (c : client_id) (patterns : list bytes) (notify : bool) (count : Z) : PM Z :=
  match patterns with
  | [] => mret count
  | pattern :: patterns =>
      b ← pubsubUnsubscribePattern c pattern notify;
      unsubscribe_patterns c patterns notify (if (b : bool) then count + 1 else count)
  end.

Definition pubsubUnsubscribeAllPatterns (c : client_id) (notify : bool) : PM Z :=
  cl ← pclient_of c;
  count ← unsubscribe_patterns c (pc_patterns cl) notify 0;
  (if notify && bool_decide (count = 0) then notify_count c (PUnsubscribed None) else mret tt);;
  mret count.

(** ** Publication *)

Fixpoint publish_clients (clients : list client_id) (channel message : bytes) (receivers : Z) : PM Z :=
  match clients with
  | [] => mret receivers
  | c :: clients => send_to c (Message channel message);; publish_clients clients channel message (receivers + 1)
  end.

Fixpoint publish_patterns (patterns : list (client_id * bytes)) (channel message : bytes) (receivers : Z) : PM Z :=
  match patterns with
  | [] => mret receivers
  | (c, pattern) :: patterns =>
      b ← plift (stringmatchlen pattern channel false);
      if (b : bool) then send_to c (PMessage pattern channel message);; publish_patterns patterns channel message (receivers + 1)
      else publish_patterns patterns channel message receivers
  end.

Definition pubsubPublishMessage (channel message : bytes) : PM Z :=
  de ← pget (fun s => ps_channels s !! channel);
  receivers ← match de with Some clients => publish_clients clients channel message 0 | None => mret 0 end;
  patterns ← pget ps_patterns;
  publish_patterns patterns channel message receivers.

(** ** Commands, on the arguments after the name *)

Fixpoint for_args (f : bytes -> PM bool) (args : list bytes) : PM unit :=
  match args with [] => mret tt | a :: args => f a;; for_args f args end.

Definition subscribeCommand (c : client_id) (args : list bytes) : PM unit := for_args (pubsubSubscribeChannel c) args.

Definition unsubscribeCommand (c : client_id) (args : list bytes) : PM unit :=
  match args with
  | [] => pubsubUnsubscribeAllChannels c true;; mret tt
  | _ => for_args (fun a => pubsubUnsubscribeChannel c a true) args
  end.

Definition psubscribeCommand (c : client_id) (args : list bytes) : PM unit := for_args (pubsubSubscribePattern c) args.

Definition punsubscribeCommand (c : client_id) (args : list bytes) : PM unit :=
  match args with
  | [] => pubsubUnsubscribeAllPatterns c true;; mret tt
  | _ => for_args (fun a => pubsubUnsubscribePattern c a true) args
  end.

Definition publishCommand (c : client_id) (args : list bytes) : PM unit :=
  channel ← plift (args !! 0%nat); message ← plift (args !! 1%nat);
  receivers ← pubsubPublishMessage channel message;
  on_pclient c force_repl;;
  send_to c (PReply (ReplyInt receivers)).

(** [PUBSUB CHANNELS]: the names, and their number for the deferred length. *)
Fixpoint matching_channels (pat : option bytes) (channels : list bytes) : option (list bytes) :=
  match channels with
  | [] => Some []
  | ch :: channels =>
      b ← match pat with None => Some true | Some pat => stringmatchlen pat ch false end;
      l ← matching_channels pat channels;
      Some (if (b : bool) then ch :: l else l)
  end.

Fixpoint send_replies (c : client_id) (rs : list redis_reply) : PM unit :=
  match rs with [] => mret tt | r :: rs => send_to c (PReply r);; send_replies c rs end.

Definition count_reply (n : Z) : option redis_reply := s ← Util.ll2string 64 n; Some (ReplyBulk s).

Fixpoint numsub (c : client_id) (args : list bytes) : PM unit :=
  match args with
  | [] => mret tt
  | a :: args =>
      l ← pget (fun s => ps_channels s !! a);
      send_to c (PReply (ReplyBulk a));;
      r ← plift (count_reply (match l with Some l => zlen l | None => 0 end));
      send_to c (PReply r);;
      numsub c args
  end.

Definition pubsubCommand (c : client_id) (args : list bytes) : PM unit :=
  sub ← plift (args !! 0%nat);
  if strcaseeq sub "channels" && bool_decide (length args = 1%nat \/ length args = 2%nat) then
    chs ← pget (fun s => dom (ps_channels s));
    l ← plift (matching_channels (args !! 1%nat) (iteration chs));
    send_replies c (ReplyMultiBulkLen (zlen l) :: (ReplyBulk <$> l))
  else if strcaseeq sub "numsub" then
    send_to c (PReply (ReplyMultiBulkLen ((zlen args - 1) * 2)));; numsub c (tail args)
  else if strcaseeq sub "numpat" && bool_decide (length args = 1%nat) then
    l ← pget ps_patterns; send_to c (PReply (ReplyInt (zlen l)))
  else send_to c (PReply (ReplyError "Unknown PUBSUB subcommand or wrong number of arguments")).

Inductive pubsub_command := CmdSubscribe | CmdUnsubscribe | CmdPsubscribe | CmdPunsubscribe | CmdPublish | CmdPubsub.

(** The guard of [processCommand], and the call. *)
Definition pubsub_call (c : client_id) (cmd : pubsub_command) (args : list bytes) : PM unit :=
  cl ← pclient_of c;
  let restricted := bool_decide (subscriptions cl > 0) in
  match cmd with
  | CmdSubscribe => subscribeCommand c args
  | CmdUnsubscribe => unsubscribeCommand c args
  | CmdPsubscribe => psubscribeCommand c args
  | CmdPunsubscribe => punsubscribeCommand c args
  | CmdPublish | CmdPubsub =>
      if restricted then send_to c (PReply (ReplyError "only (P)SUBSCRIBE / (P)UNSUBSCRIBE / QUIT allowed in this context"))
      else match cmd with CmdPublish => publishCommand c args | _ => pubsubCommand c args end
  end.

(** The part of [createClient] and of [freeClient] that concerns the tables. *)
Definition connect (c : client_id) : PM unit :=
  pmodify (fun s => PubSub (ps_channels s) (ps_patterns s) (<[c := PClient ∅ [] false []]> (ps_clients s))).

Definition disconnect (c : client_id) : PM unit :=
  pubsubUnsubscribeAllChannels c false;;
  pubsubUnsubscribeAllPatterns c false;;
  pmodify (fun s => PubSub (ps_channels s) (ps_patterns s) (delete c (ps_clients s))).

Inductive pubsub_event := Connect (c : client_id) | Disconnect (c : client_id) | Command (c : client_id) (cmd : pubsub_command) (args : list bytes).

Definition pubsub_step (e : pubsub_event) : PM unit :=
  match e with
  | Connect c => connect c
  | Disconnect c => disconnect c
  | Command c cmd args => pubsub_call c cmd args
  end.

Fixpoint pubsub_run (es : list pubsub_event) : PM unit :=
  match es with [] => mret tt | e :: es => pubsub_step e;; pubsub_run es end.
End Commands.

Definition no_subscriptions : pubsub := PubSub ∅ [] ∅.
