(* ===== verification/PubsubSpecs.v ===== *)
(** * The tables of Publish/Subscribe agree

    [tracks] relates the tables of the server and those of the clients to one
    set of subscriptions. *)
From Stdlib Require Import String.
#[local] Set Warnings "-clear-no-such-hyp".

From S2P Require Import Prelude Server Util Bitops Glob Pubsub.

(** ** Weakest preconditions *)

Definition pwp {A} (m : PM A) (Q : A -> pubsub -> Prop) (s : pubsub) : Prop :=
  match m s with Some (x, s) => Q x s | None => False end.

Lemma pwp_ret {A} (x : A) (Q : A -> pubsub -> Prop) s : Q x s -> pwp (mret x) Q s.
Proof. done. Qed.

Lemma pwp_bind {A B} (m : PM A) (f : A -> PM B) Q s : pwp m (fun x => pwp (f x) Q) s -> pwp (x ← m; f x) Q s.
Proof. unfold pwp, mbind, PM_bind. by destruct (m s) as [[x s']|]. Qed.

Lemma pwp_mono {A} (m : PM A) (Q Q' : A -> pubsub -> Prop) s : pwp m Q s -> (forall x s', Q x s' -> Q' x s') -> pwp m Q' s.
Proof. unfold pwp. destruct (m s) as [[x s']|]; auto. Qed.

Lemma pwp_run {A} (m : PM A) Q s : pwp m Q s -> exists x s', m s = Some (x, s') /\ Q x s'.
Proof. unfold pwp. destruct (m s) as [[x s']|]; [|done]. eauto. Qed.

Lemma pwp_lift {A} (o : option A) x (Q : A -> pubsub -> Prop) s : o = Some x -> Q x s -> pwp (plift o) Q s.
Proof. unfold pwp, plift. by intros ->. Qed.

Lemma pwp_client c cl (Q : pclient -> pubsub -> Prop) s : ps_clients s !! c = Some cl -> Q cl s -> pwp (pclient_of c) Q s.
Proof. unfold pwp, pclient_of, plift. by intros ->. Qed.

Definition with_client (c : client_id) (cl : pclient) (s : pubsub) : pubsub :=
  PubSub (ps_channels s) (ps_patterns s) (<[c := cl]> (ps_clients s)).

Lemma pwp_on_client c f cl (Q : unit -> pubsub -> Prop) s : ps_clients s !! c = Some cl -> Q tt (with_client c (f cl) s) -> pwp (on_pclient c f) Q s.
Proof. intros Hc HQ. apply pwp_bind. by eapply pwp_client. Qed.

Lemma pwp_get {A} (f : pubsub -> A) (Q : A -> pubsub -> Prop) s : Q (f s) s -> pwp (pget f) Q s.
Proof. done. Qed.

Lemma pwp_modify f (Q : unit -> pubsub -> Prop) s : Q tt (f s) -> pwp (pmodify f) Q s.
Proof. done. Qed.

Lemma remove_first_spec `{EqDecision A} (x : A) l : NoDup l -> x ∈ l ->
  exists l', remove_first x l = Some l' /\ l' = filter (fun y => y <> x) l.
Proof.
  induction l as [|y l IH]; intros Hn Hx; [by apply elem_of_nil in Hx|]. apply NoDup_cons in Hn as [Hy Hn]. cbn [remove_first].
  destruct (bool_decide_reflect (y = x)) as [->|Hne].
  - exists l. split; [done|]. rewrite filter_cons_False by naive_solver. symmetry. apply filter_all, Forall_forall. by intros z Hz ->.
  - apply elem_of_cons in Hx as [->|Hx]; [done|]. destruct (IH Hn Hx) as (l' & -> & ->). eexists. split; [done|].
    by rewrite filter_cons_True.
Qed.

Lemma remove_first_none `{EqDecision A} (x : A) l : x ∉ l -> remove_first x l = None.
Proof.
  induction l as [|y l IH]; [done|]. intros [Hy Hx]%not_elem_of_cons. cbn [remove_first]. rewrite bool_decide_false by done. by rewrite IH.
Qed.

(** ** The subscriptions *)

Record subs := Subs {
  sb_clients : gset client_id;
  sb_channels : gset (client_id * bytes);
  sb_patterns : list (client_id * bytes);
}.

Section Subscriptions.
(** Whether a channel may have an empty name. *)
Context (empties : bool).

(** The patterns and the channels on which [stringmatchlen] stays in its
    buffers ([Glob.glob_reads_outside] shows what happens on others): every
    backslash inside a class of the pattern is followed by a character, and a
    pattern that starts with a literal or a class that accepts NUL meets no
    empty name. *)
Definition pattern_ok (p : bytes) : Prop :=
  bytes_ok p /\ exists gs, parse_glob p = Some gs /\ (empties = true -> safe_head false gs = true).
Definition channel_ok (ch : bytes) : Prop := bytes_ok ch /\ (empties = false -> ch <> []).

Definition own_patterns (c : client_id) (l : list (client_id * bytes)) : list bytes := (filter (fun x => x.1 = c) l).*2.

#[local] Arguments own_patterns : simpl never.

Record tracks (s : pubsub) (a : subs) : Prop := {
  tr_clients : dom (ps_clients s) = sb_clients a;
  tr_channels : forall c cl, ps_clients s !! c = Some cl -> forall ch, ch ∈ pc_channels cl <-> (c, ch) ∈ sb_channels a;
  tr_table : forall ch, match ps_channels s !! ch with
    | Some cs => cs <> [] /\ NoDup cs /\ forall c, c ∈ cs <-> (c, ch) ∈ sb_channels a
    | None => forall c, (c, ch) ∉ sb_channels a
    end;
  tr_owners : forall c ch, (c, ch) ∈ sb_channels a -> c ∈ sb_clients a;
  tr_patterns : ps_patterns s = sb_patterns a;
  tr_own : forall c cl, ps_clients s !! c = Some cl -> pc_patterns cl = own_patterns c (sb_patterns a);
  tr_pattern_owners : forall c p, (c, p) ∈ sb_patterns a -> c ∈ sb_clients a;
  tr_nodup : NoDup (sb_patterns a);
  tr_pattern_ok : forall c p, (c, p) ∈ sb_patterns a -> pattern_ok p;
  tr_channel_ok : forall c ch, (c, ch) ∈ sb_channels a -> channel_ok ch }.

Lemma own_patterns_elem c p l : p ∈ own_patterns c l <-> (c, p) ∈ l.
Proof.
  unfold own_patterns. rewrite list_elem_of_fmap. split.
  - intros ([c' p'] & -> & Hin). by apply list_elem_of_filter in Hin as [<- Hin].
  - intros Hin. exists (c, p). split; [done|]. by apply list_elem_of_filter.
Qed.

Lemma tracks_client s a c : tracks s a -> c ∈ sb_clients a -> exists cl, ps_clients s !! c = Some cl.
Proof. intros Ht Hc. rewrite <- (tr_clients _ _ Ht), elem_of_dom in Hc. exact Hc. Qed.

(** Replies and flags do not matter. *)
Lemma tracks_same s a c cl cl' : tracks s a -> ps_clients s !! c = Some cl -> pc_channels cl' = pc_channels cl ->
  pc_patterns cl' = pc_patterns cl -> tracks (with_client c cl' s) a.
Proof.
  intros [T1 T2 T3 T4 T5 T6 T7 T8 T9 T10] Hc Hch Hpa. split; cbn; try done.
  - by rewrite dom_insert_lookup_L.
  - intros c1 cl1. destruct (decide (c = c1)) as [<-|]; [rewrite lookup_insert_eq; intros [= <-] ch; rewrite Hch; by apply T2|].
    rewrite lookup_insert_ne by done. apply T2.
  - intros c1 cl1. destruct (decide (c = c1)) as [<-|]; [rewrite lookup_insert_eq; intros [= <-]; rewrite Hpa; by apply T6|].
    rewrite lookup_insert_ne by done. apply T6.
Qed.

Lemma send_tracks c r a (Q : unit -> pubsub -> Prop) s : tracks s a -> c ∈ sb_clients a -> (forall s', tracks s' a -> Q tt s') -> pwp (send_to c r) Q s.
Proof.
  intros Ht Hc HQ. destruct (tracks_client s a c Ht Hc) as [cl Hcl]. eapply pwp_on_client; [exact Hcl|]. apply HQ. by eapply tracks_same.
Qed.

Lemma notify_tracks c r a (Q : unit -> pubsub -> Prop) s : tracks s a -> c ∈ sb_clients a -> (forall s', tracks s' a -> Q tt s') -> pwp (notify_count c r) Q s.
Proof.
  intros Ht Hc HQ. destruct (tracks_client s a c Ht Hc) as [cl Hcl]. apply pwp_bind. eapply pwp_client; [exact Hcl|]. by eapply send_tracks.
Qed.

(** ** The operations on the subscriptions *)

Definition add_channel (c : client_id) (ch : bytes) (a : subs) : subs := Subs (sb_clients a) ({[(c, ch)]} ∪ sb_channels a) (sb_patterns a).
Definition del_channel (c : client_id) (ch : bytes) (a : subs) : subs := Subs (sb_clients a) (sb_channels a ∖ {[(c, ch)]}) (sb_patterns a).
Definition add_pattern (c : client_id) (p : bytes) (a : subs) : subs :=
  Subs (sb_clients a) (sb_channels a) (if bool_decide ((c, p) ∈ sb_patterns a) then sb_patterns a else sb_patterns a ++ [(c, p)]).
Definition del_pattern (c : client_id) (p : bytes) (a : subs) : subs :=
  Subs (sb_clients a) (sb_channels a) (filter (fun x => x <> (c, p)) (sb_patterns a)).

Lemma subscribe_tracks c ch a s : tracks s a -> c ∈ sb_clients a -> channel_ok ch ->
  pwp (pubsubSubscribeChannel c ch) (fun b s' => b = bool_decide ((c, ch) ∉ sb_channels a) /\ tracks s' (add_channel c ch a)) s.
Proof.
  intros Ht Hc Hok. destruct (tracks_client s a c Ht Hc) as [cl Hcl]. apply pwp_bind. eapply pwp_client; [exact Hcl|].
  assert (bool_decide (ch ∉ pc_channels cl) = bool_decide ((c, ch) ∉ sb_channels a)) as ->.
  { apply bool_decide_ext. by rewrite (tr_channels _ _ Ht c cl Hcl ch). }
  assert (forall s', tracks s' (add_channel c ch a) -> pwp (notify_count c (Subscribed ch);; mret (bool_decide ((c, ch) ∉ sb_channels a)))
    (fun b s' => b = bool_decide ((c, ch) ∉ sb_channels a) /\ tracks s' (add_channel c ch a)) s') as Hend.
  { intros s' Ht'. apply pwp_bind. eapply notify_tracks; [exact Ht'|done|]. intros s2 Ht2. by apply pwp_ret. }
  apply pwp_bind. destruct (bool_decide_reflect ((c, ch) ∉ sb_channels a)) as [Hin|Hin].
  - apply pwp_bind. eapply pwp_on_client; [exact Hcl|]. apply pwp_bind, pwp_get, pwp_modify, Hend.
    destruct Ht as [T1 T2 T3 T4 T5 T6 T7 T8 T9 T10]. split; cbn; try done.
    + by rewrite dom_insert_lookup_L.
    + intros c1 cl1. destruct (decide (c = c1)) as [<-|].
      * rewrite lookup_insert_eq. intros [= <-] ch1. cbn. specialize (T2 c cl Hcl ch1). set_solver.
      * rewrite lookup_insert_ne by done. intros H1 ch1. specialize (T2 c1 cl1 H1 ch1). set_solver.
    + intros ch1. destruct (decide (ch = ch1)) as [<-|].
      * rewrite lookup_insert_eq. specialize (T3 ch). destruct (ps_channels s !! ch) as [cs|].
        -- destruct T3 as (Hne & Hn & Hcs). split; [by intros []%app_nil|]. split.
           ++ apply NoDup_app. split; [done|]. split; [|apply NoDup_singleton]. intros x Hx ->%list_elem_of_singleton. by apply Hin, Hcs.
           ++ intros c1. rewrite elem_of_app, list_elem_of_singleton, Hcs. set_solver.
        -- split; [done|]. split; [apply NoDup_singleton|]. intros c1. cbn. rewrite list_elem_of_singleton. set_solver.
      * rewrite lookup_insert_ne by done. specialize (T3 ch1). destruct (ps_channels s !! ch1) as [cs|]; [|set_solver].
        destruct T3 as (Hne & Hn & Hcs). split; [done|]. split; [done|]. set_solver.
    + intros c1 ch1. set_solver.
    + intros c1 cl1. destruct (decide (c = c1)) as [<-|]; [rewrite lookup_insert_eq; intros [= <-]; exact (T6 c cl Hcl)|].
      rewrite lookup_insert_ne by done. apply T6.
    + intros c1 ch1 [[= -> ->]%elem_of_singleton|H1]%elem_of_union; [done|by eapply T10].
  - apply pwp_ret, Hend. unfold add_channel. replace ({[(c, ch)]} ∪ sb_channels a) with (sb_channels a); [by destruct a|].
    apply set_eq. intros x. rewrite elem_of_union, elem_of_singleton. split; [auto|]. intros [->|]; [|done]. by destruct (decide ((c, ch) ∈ sb_channels a)).
Qed.

Lemma unsubscribe_tracks c ch notify a s : tracks s a -> c ∈ sb_clients a ->
  pwp (pubsubUnsubscribeChannel c ch notify) (fun b s' => b = bool_decide ((c, ch) ∈ sb_channels a) /\ tracks s' (del_channel c ch a)) s.
Proof.
  intros Ht Hc. destruct (tracks_client s a c Ht Hc) as [cl Hcl]. apply pwp_bind. eapply pwp_client; [exact Hcl|].
  assert (bool_decide (ch ∈ pc_channels cl) = bool_decide ((c, ch) ∈ sb_channels a)) as ->.
  { apply bool_decide_ext. by rewrite (tr_channels _ _ Ht c cl Hcl ch). }
  assert (forall s', tracks s' (del_channel c ch a) ->
    pwp ((if notify then notify_count c (Unsubscribed (Some ch)) else mret tt);; mret (bool_decide ((c, ch) ∈ sb_channels a)))
    (fun b s' => b = bool_decide ((c, ch) ∈ sb_channels a) /\ tracks s' (del_channel c ch a)) s') as Hend.
  { intros s' Ht'. apply pwp_bind. destruct notify; [|by apply pwp_ret, pwp_ret]. eapply notify_tracks; [exact Ht'|done|]. intros s2 Ht2. by apply pwp_ret. }
  apply pwp_bind. destruct (bool_decide_reflect ((c, ch) ∈ sb_channels a)) as [Hin|Hin].
  - apply pwp_bind. eapply pwp_on_client; [exact Hcl|]. apply pwp_bind, pwp_get. pose proof (tr_table _ _ Ht ch) as Htab. cbn [ps_channels with_client].
    destruct (ps_channels s !! ch) as [cs|] eqn:Hch; [|by apply Htab in Hin]. destruct Htab as (Hne & Hn & Hcs).
    destruct (remove_first_spec c cs Hn) as (cs' & Hrem & Hcs'); [by apply Hcs|].
    apply pwp_bind. eapply pwp_lift; [done|]. apply pwp_bind. eapply pwp_lift; [exact Hrem|]. apply pwp_modify, Hend.
    assert (forall c1, c1 ∈ cs' <-> (c1, ch) ∈ sb_channels a ∖ {[(c, ch)]}) as Hcs2.
    { intros c1. rewrite Hcs', list_elem_of_filter, Hcs, elem_of_difference, elem_of_singleton. naive_solver. }
    assert (NoDup cs') as Hn' by (subst cs'; by apply NoDup_filter).
    destruct Ht as [T1 T2 T3 T4 T5 T6 T7 T8 T9 T10]. split; cbn; try done.
    + by rewrite dom_insert_lookup_L.
    + intros c1 cl1. destruct (decide (c = c1)) as [<-|].
      * rewrite lookup_insert_eq. intros [= <-] ch1. cbn. specialize (T2 c cl Hcl ch1). set_solver.
      * rewrite lookup_insert_ne by done. intros H1 ch1. specialize (T2 c1 cl1 H1 ch1). set_solver.
    + intros ch1. destruct (decide (ch = ch1)) as [<-|].
      * destruct cs' as [|x cs'].
        -- rewrite lookup_delete_eq. intros c1 Hc1. apply Hcs2 in Hc1. by apply elem_of_nil in Hc1.
        -- rewrite lookup_insert_eq. done.
      * assert ((match cs' with [] => delete ch | _ => <[ch := cs']> end (ps_channels s)) !! ch1 = ps_channels s !! ch1) as ->
          by (destruct cs'; [by rewrite lookup_delete_ne|by rewrite lookup_insert_ne]).
        specialize (T3 ch1). destruct (ps_channels s !! ch1) as [cs1|]; [|set_solver].
        destruct T3 as (Hne1 & Hn1 & Hcs1). split; [done|]. split; [done|]. intros c1. rewrite Hcs1. set_solver.
    + intros c1 ch1. set_solver.
    + intros c1 cl1. destruct (decide (c = c1)) as [<-|]; [rewrite lookup_insert_eq; intros [= <-]; exact (T6 c cl Hcl)|].
      rewrite lookup_insert_ne by done. apply T6.
    + intros c1 ch1 [H1 _]%elem_of_difference. by eapply T10.
  - apply pwp_ret, Hend. unfold del_channel. replace (sb_channels a ∖ {[(c, ch)]}) with (sb_channels a); [by destruct a|].
    apply set_eq. intros x. rewrite elem_of_difference, elem_of_singleton. split; [|tauto]. intros Hx. split; [done|by intros ->].
Qed.

Lemma own_patterns_app c l1 l2 : own_patterns c (l1 ++ l2) = own_patterns c l1 ++ own_patterns c l2.
Proof. unfold own_patterns. by rewrite filter_app, fmap_app. Qed.

Lemma psubscribe_tracks c p a s : tracks s a -> c ∈ sb_clients a -> pattern_ok p ->
  pwp (pubsubSubscribePattern c p) (fun b s' => b = bool_decide ((c, p) ∉ sb_patterns a) /\ tracks s' (add_pattern c p a)) s.
Proof.
  intros Ht Hc Hok. destruct (tracks_client s a c Ht Hc) as [cl Hcl]. apply pwp_bind. eapply pwp_client; [exact Hcl|].
  assert (bool_decide (p ∉ pc_patterns cl) = bool_decide ((c, p) ∉ sb_patterns a)) as ->.
  { apply bool_decide_ext. by rewrite (tr_own _ _ Ht c cl Hcl), own_patterns_elem. }
  assert (forall s', tracks s' (add_pattern c p a) -> pwp (notify_count c (PSubscribed p);; mret (bool_decide ((c, p) ∉ sb_patterns a)))
    (fun b s' => b = bool_decide ((c, p) ∉ sb_patterns a) /\ tracks s' (add_pattern c p a)) s') as Hend.
  { intros s' Ht'. apply pwp_bind. eapply notify_tracks; [exact Ht'|done|]. intros s2 Ht2. by apply pwp_ret. }
  apply pwp_bind. destruct (bool_decide_reflect ((c, p) ∉ sb_patterns a)) as [Hin|Hin].
  - apply pwp_bind. eapply pwp_on_client; [exact Hcl|]. apply pwp_bind, pwp_get, pwp_modify, Hend. unfold add_pattern.
    rewrite bool_decide_false by done. destruct Ht as [T1 T2 T3 T4 T5 T6 T7 T8 T9 T10]. split; cbn; try done.
    + by rewrite dom_insert_lookup_L.
    + intros c1 cl1. destruct (decide (c = c1)) as [<-|]; [rewrite lookup_insert_eq; intros [= <-]; exact (T2 c cl Hcl)|].
      rewrite lookup_insert_ne by done. apply T2.
    + by rewrite T5.
    + intros c1 cl1. rewrite own_patterns_app. destruct (decide (c = c1)) as [<-|].
      * rewrite lookup_insert_eq. intros [= <-]. cbn. rewrite (T6 c cl Hcl). f_equal. unfold own_patterns. by rewrite filter_cons_True.
      * rewrite lookup_insert_ne by done. intros H1. rewrite (T6 c1 cl1 H1). unfold own_patterns at 3. rewrite filter_cons_False by done. cbn. by rewrite app_nil_r.
    + intros c1 p1 [H1|[= -> ->]%list_elem_of_singleton]%elem_of_app; [by eapply T7|done].
    + apply NoDup_app. split; [done|]. split; [|apply NoDup_singleton]. by intros x Hx ->%list_elem_of_singleton.
    + intros c1 p1 [H1|[= -> ->]%list_elem_of_singleton]%elem_of_app; [by eapply T9|done].
  - apply pwp_ret, Hend. unfold add_pattern. rewrite bool_decide_true; [by destruct a|]. by destruct (decide ((c, p) ∈ sb_patterns a)).
Qed.

Lemma own_patterns_remove c p l : own_patterns c (filter (fun x => x <> (c, p)) l) = filter (fun y => y <> p) (own_patterns c l).
Proof.
  induction l as [|[c1 p1] l IH]; [done|]. unfold own_patterns in *.
  destruct (decide ((c1, p1) = (c, p))) as [[= -> ->]|Hne].
  - rewrite filter_cons_False by naive_solver. rewrite (filter_cons_True _ (c, p)) by done. rewrite fmap_cons. cbn [snd]. rewrite (filter_cons_False _ p) by naive_solver. done.
  - rewrite filter_cons_True by done. destruct (decide (c1 = c)) as [->|].
    + rewrite !(filter_cons_True (fun x : client_id * bytes => x.1 = c)) by done. rewrite !fmap_cons. cbn [snd]. rewrite (filter_cons_True _ p1) by naive_solver. by rewrite IH.
    + rewrite !(filter_cons_False (fun x : client_id * bytes => x.1 = c)) by done. done.
Qed.

Lemma own_patterns_other c c' p l : c <> c' -> own_patterns c' (filter (fun x => x <> (c, p)) l) = own_patterns c' l.
Proof.
  intros Hc. induction l as [|[c1 p1] l IH]; [done|]. unfold own_patterns in *.
  destruct (decide ((c1, p1) = (c, p))) as [[= -> ->]|Hne].
  - rewrite filter_cons_False by naive_solver. rewrite (filter_cons_False _ (c, p)) by done. done.
  - rewrite filter_cons_True by done. destruct (decide (c1 = c')) as [->|].
    + rewrite !(filter_cons_True (fun x : client_id * bytes => x.1 = c')) by done. rewrite !fmap_cons. by rewrite IH.
    + rewrite !(filter_cons_False (fun x : client_id * bytes => x.1 = c')) by done. done.
Qed.

Lemma own_patterns_nodup c l : NoDup l -> NoDup (own_patterns c l).
Proof.
  intros Hn. unfold own_patterns. apply NoDup_fmap_2_strong; [|by apply NoDup_filter].
  intros [c1 p1] [c2 p2] [Hc1 _]%list_elem_of_filter [Hc2 _]%list_elem_of_filter. cbn in *. by intros ->; subst.
Qed.

Lemma punsubscribe_tracks c p notify a s : tracks s a -> c ∈ sb_clients a ->
  pwp (pubsubUnsubscribePattern c p notify) (fun b s' => b = bool_decide ((c, p) ∈ sb_patterns a) /\ tracks s' (del_pattern c p a)) s.
Proof.
  intros Ht Hc. destruct (tracks_client s a c Ht Hc) as [cl Hcl]. apply pwp_bind. eapply pwp_client; [exact Hcl|].
  assert (forall b s', b = bool_decide ((c, p) ∈ sb_patterns a) -> tracks s' (del_pattern c p a) ->
    pwp ((if notify then notify_count c (PUnsubscribed (Some p)) else mret tt);; mret b)
    (fun b s' => b = bool_decide ((c, p) ∈ sb_patterns a) /\ tracks s' (del_pattern c p a)) s') as Hend.
  { intros b s' -> Ht'. apply pwp_bind. destruct notify; [|by apply pwp_ret, pwp_ret]. eapply notify_tracks; [exact Ht'|done|]. intros s2 Ht2. by apply pwp_ret. }
  pose proof (tr_own _ _ Ht c cl Hcl) as Hown. apply pwp_bind. destruct (decide ((c, p) ∈ sb_patterns a)) as [Hin|Hin].
  - destruct (remove_first_spec p (pc_patterns cl)) as (l' & -> & Hl'); [rewrite Hown; by apply own_patterns_nodup, Ht|by rewrite Hown, own_patterns_elem|].
    apply pwp_bind. eapply pwp_on_client; [exact Hcl|]. apply pwp_bind, pwp_get. cbn [ps_patterns with_client]. rewrite (tr_patterns _ _ Ht).
    destruct (remove_first_spec (c, p) (sb_patterns a) (tr_nodup _ _ Ht) Hin) as (l2 & Hl2 & ->).
    apply pwp_bind. eapply pwp_lift; [exact Hl2|]. apply pwp_bind, pwp_modify, pwp_ret, Hend; [by rewrite bool_decide_true|].
    destruct Ht as [T1 T2 T3 T4 T5 T6 T7 T8 T9 T10]. split; cbn; try done.
    + by rewrite dom_insert_lookup_L.
    + intros c1 cl1. destruct (decide (c = c1)) as [<-|]; [rewrite lookup_insert_eq; intros [= <-]; exact (T2 c cl Hcl)|].
      rewrite lookup_insert_ne by done. apply T2.
    + intros c1 cl1. destruct (decide (c = c1)) as [<-|].
      * rewrite lookup_insert_eq. intros [= <-]. cbn. by rewrite own_patterns_remove, Hl', Hown.
      * rewrite lookup_insert_ne, own_patterns_other by done. apply T6.
    + intros c1 p1 [_ H1]%list_elem_of_filter. by eapply T7.
    + by apply NoDup_filter.
    + intros c1 p1 [_ H1]%list_elem_of_filter. by eapply T9.
  - rewrite remove_first_none by (by rewrite Hown, own_patterns_elem). apply pwp_ret, Hend; [by rewrite bool_decide_false|].
    unfold del_pattern. rewrite filter_all; [by destruct a|]. apply Forall_forall. by intros x Hx ->.
Qed.

(** ** Commands *)

Definition spec_command (c : client_id) (cmd : pubsub_command) (args : list bytes) (a : subs) : subs :=
  match cmd, args with
  | CmdSubscribe, _ => foldl (fun a ch => add_channel c ch a) a args
  | CmdUnsubscribe, [] => Subs (sb_clients a) (filter (fun x => x.1 <> c) (sb_channels a)) (sb_patterns a)
  | CmdUnsubscribe, _ => foldl (fun a ch => del_channel c ch a) a args
  | CmdPsubscribe, _ => foldl (fun a p => add_pattern c p a) a args
  | CmdPunsubscribe, [] => Subs (sb_clients a) (sb_channels a) (filter (fun x => x.1 <> c) (sb_patterns a))
  | CmdPunsubscribe, _ => foldl (fun a p => del_pattern c p a) a args
  | _, _ => a
  end.

Definition spec_event (e : pubsub_event) (a : subs) : subs :=
  match e with
  | Connect c => Subs ({[c]} ∪ sb_clients a) (sb_channels a) (sb_patterns a)
  | Disconnect c => Subs (sb_clients a ∖ {[c]}) (filter (fun x => x.1 <> c) (sb_channels a)) (filter (fun x => x.1 <> c) (sb_patterns a))
  | Command c cmd args => spec_command c cmd args a
  end.

(** What the event loop and the table of commands ensure, and patterns on
    which [stringmatchlen] is safe. *)
Definition event_ok (e : pubsub_event) (a : subs) : Prop :=
  match e with
  | Connect c => c ∉ sb_clients a
  | Disconnect c => c ∈ sb_clients a
  | Command c cmd args => c ∈ sb_clients a /\ Forall bytes_ok args /\
      match cmd with
      | CmdSubscribe => Forall channel_ok args
      | CmdPsubscribe => Forall pattern_ok args
      | CmdPublish => match args with [ch; _] => channel_ok ch | _ => False end
      | CmdPubsub => args <> [] /\ (forall sub p, args = [sub; p] -> strcaseeq sub "channels" = true -> pattern_ok p) /\ Z.of_nat (base.size (sb_clients a)) < 2 ^ 63
      | _ => True
      end
  end.

Fixpoint events_ok (es : list pubsub_event) (a : subs) : Prop :=
  match es with [] => True | e :: es => event_ok e a /\ events_ok es (spec_event e a) end.

Lemma glob_total p s : pattern_ok p -> channel_ok s -> exists gs b, parse_glob p = Some gs /\
  stringmatchlen p s false = Some b /\ (b = true <-> glob_matches false gs s).
Proof.
  intros (Hp & gs & Hgs & Hsafe) [Hs Hne]. exists gs.
  destruct (match_from_spec p s false Hp Hs (length p + 1) p gs (S (length p)) [] [] s) as (b & Hb & Hiff);
    [lia|done..|destruct empties; [right|left]; auto|].
  by exists b.
Qed.

Lemma foldl_clients {A} (f : subs -> A -> subs) l a : (forall a x, sb_clients (f a x) = sb_clients a) -> sb_clients (foldl f a l) = sb_clients a.
Proof. intros Hf. revert a. induction l as [|x l IH]; intros a; [done|]. simpl. by rewrite IH. Qed.

(** A command that handles its arguments one by one. *)
Lemma for_args_tracks (op : bytes -> PM bool) (f : bytes -> subs -> subs) (P : bytes -> Prop) c args :
  (forall x a s, tracks s a -> c ∈ sb_clients a -> P x -> pwp (op x) (fun _ s' => tracks s' (f x a)) s) ->
  (forall x a, sb_clients (f x a) = sb_clients a) -> Forall P args -> forall a s, tracks s a -> c ∈ sb_clients a ->
  pwp (for_args op args) (fun _ s' => tracks s' (foldl (fun a x => f x a) a args)) s.
Proof.
  intros Hop Hf Hargs. induction Hargs as [|x args Hx _ IH]; intros a s Ht Hc; [by apply pwp_ret|].
  cbn [for_args foldl]. apply pwp_bind. eapply pwp_mono; [by apply Hop|]. intros b s1 Ht1. apply IH; [done|]. by rewrite Hf.
Qed.

Lemma unsubscribe_channels_tracks c chs notify a s n : tracks s a -> c ∈ sb_clients a ->
  pwp (unsubscribe_channels c chs notify n) (fun _ s' => tracks s' (foldl (fun a ch => del_channel c ch a) a chs)) s.
Proof.
  revert a s n. induction chs as [|ch chs IH]; intros a s n Ht Hc; [by apply pwp_ret|]. cbn [unsubscribe_channels foldl].
  apply pwp_bind. eapply pwp_mono; [by apply unsubscribe_tracks|]. intros b s1 [_ Ht1]. by apply IH.
Qed.

Lemma unsubscribe_patterns_tracks c ps notify a s n : tracks s a -> c ∈ sb_clients a ->
  pwp (unsubscribe_patterns c ps notify n) (fun _ s' => tracks s' (foldl (fun a p => del_pattern c p a) a ps)) s.
Proof.
  revert a s n. induction ps as [|p ps IH]; intros a s n Ht Hc; [by apply pwp_ret|]. cbn [unsubscribe_patterns foldl].
  apply pwp_bind. eapply pwp_mono; [by apply punsubscribe_tracks|]. intros b s1 [_ Ht1]. by apply IH.
Qed.

Lemma foldl_del_channels c chs a : foldl (fun a ch => del_channel c ch a) a chs =
  Subs (sb_clients a) (filter (fun x => ~ (x.1 = c /\ x.2 ∈ chs)) (sb_channels a)) (sb_patterns a).
Proof.
  revert a. induction chs as [|ch chs IH]; intros a; cbn [foldl].
  - destruct a as [cl chn pa]. cbn. f_equal. apply set_eq. intros x. rewrite elem_of_filter, elem_of_nil. tauto.
  - rewrite IH. cbn. f_equal. apply set_eq. intros [c1 ch1]. rewrite !elem_of_filter, elem_of_difference, elem_of_singleton, elem_of_cons. cbn.
    destruct (decide ((c1, ch1) = (c, ch))) as [[= -> ->]|Hne]; [tauto|]. naive_solver.
Qed.

Lemma foldl_del_patterns c ps a : foldl (fun a p => del_pattern c p a) a ps =
  Subs (sb_clients a) (sb_channels a) (filter (fun x => ~ (x.1 = c /\ x.2 ∈ ps)) (sb_patterns a)).
Proof.
  revert a. induction ps as [|p ps IH]; intros a; cbn [foldl].
  - destruct a as [cl chn pa]. cbn. f_equal. symmetry. apply filter_all, Forall_forall. intros x _ [_ Hx]. by apply elem_of_nil in Hx.
  - rewrite IH. cbn. f_equal. rewrite list_filter_filter. apply list_filter_iff. intros [c1 p1]. rewrite elem_of_cons. cbn. naive_solver.
Qed.

(** ** Deliveries *)

Definition sends (rs : list pubsub_reply) (cl : pclient) : pclient :=
  PClient (pc_channels cl) (pc_patterns cl) (pc_force_repl cl) (pc_reply cl ++ rs).

(** Every client [d] has been sent [f d]. *)
Definition deliver (f : client_id -> list pubsub_reply) (s : pubsub) : pubsub :=
  PubSub (ps_channels s) (ps_patterns s) (map_imap (fun d cl => Some (sends (f d) cl)) (ps_clients s)).

Lemma deliver_lookup f s d : ps_clients (deliver f s) !! d = sends (f d) <$> ps_clients s !! d.
Proof. cbn. rewrite map_lookup_imap. by destruct (ps_clients s !! d). Qed.

Lemma deliver_eq s1 s2 : ps_channels s1 = ps_channels s2 -> ps_patterns s1 = ps_patterns s2 ->
  (forall d, ps_clients s1 !! d = ps_clients s2 !! d) -> s1 = s2.
Proof. destruct s1, s2. cbn. intros -> -> Hd. f_equal. by apply map_eq. Qed.

Lemma sends_app r1 r2 cl : sends r2 (sends r1 cl) = sends (r1 ++ r2) cl.
Proof. unfold sends. cbn. by rewrite app_assoc. Qed.

Lemma sends_nil cl : sends [] cl = cl.
Proof. destruct cl. unfold sends. cbn. by rewrite app_nil_r. Qed.

Lemma deliver_deliver f g s : deliver g (deliver f s) = deliver (fun d => f d ++ g d) s.
Proof.
  apply deliver_eq; [done..|]. intros d. rewrite !deliver_lookup. destruct (ps_clients s !! d); [|done]. cbn. by rewrite sends_app.
Qed.

Lemma deliver_none s : deliver (fun _ => []) s = s.
Proof. apply deliver_eq; [done..|]. intros d. rewrite deliver_lookup. destruct (ps_clients s !! d); [|done]. cbn. by rewrite sends_nil. Qed.

Lemma deliver_ext f g s : (forall d, f d = g d) -> deliver f s = deliver g s.
Proof. intros Hfg. apply deliver_eq; [done..|]. intros d. by rewrite !deliver_lookup, Hfg. Qed.

Definition only (c : client_id) (r : pubsub_reply) (d : client_id) : list pubsub_reply := if bool_decide (d = c) then [r] else [].

Lemma send_deliver c cl r s : ps_clients s !! c = Some cl -> with_client c (send r cl) s = deliver (only c r) s.
Proof.
  intros Hc. apply deliver_eq; [done..|]. intros d. rewrite deliver_lookup. cbn. unfold only. destruct (decide (c = d)) as [<-|Hne].
  - by rewrite lookup_insert_eq, Hc, bool_decide_true.
  - rewrite lookup_insert_ne, bool_decide_false by done. destruct (ps_clients s !! d); [|done]. cbn. by rewrite sends_nil.
Qed.

Lemma deliver_tracks f s a : tracks s a -> tracks (deliver f s) a.
Proof.
  intros [T1 T2 T3 T4 T5 T6 T7 T8 T9 T10].
  assert (forall c cl, ps_clients (deliver f s) !! c = Some cl -> exists cl0, ps_clients s !! c = Some cl0 /\
    pc_channels cl = pc_channels cl0 /\ pc_patterns cl = pc_patterns cl0) as Hcl.
  { intros c cl. rewrite deliver_lookup. destruct (ps_clients s !! c) as [cl0|]; [|done]. intros [= <-]. by exists cl0. }
  split; try done.
  - rewrite <- T1. apply set_eq. intros c. rewrite !elem_of_dom, deliver_lookup. by rewrite fmap_is_Some.
  - intros c cl (cl0 & H0 & -> & _)%Hcl. by apply T2.
  - intros c cl (cl0 & H0 & _ & ->)%Hcl. by apply T6.
Qed.

Lemma send_to_deliver c r (Q : unit -> pubsub -> Prop) s : is_Some (ps_clients s !! c) -> Q tt (deliver (only c r) s) -> pwp (send_to c r) Q s.
Proof. intros [cl Hc] HQ. eapply pwp_on_client; [exact Hc|]. by rewrite (send_deliver c cl r s Hc). Qed.

Lemma deliver_some f s c : is_Some (ps_clients s !! c) -> is_Some (ps_clients (deliver f s) !! c).
Proof. rewrite deliver_lookup. by rewrite fmap_is_Some. Qed.

(** The messages of a list of clients and of a list of patterns. *)
Definition to_clients (cs : list client_id) (ch msg : bytes) (d : client_id) : list pubsub_reply :=
  mjoin ((fun c => only c (Message ch msg) d) <$> cs).

(** The pattern gets the messages of the channel. *)
Definition delivers (ch p : bytes) : bool := default false (stringmatchlen p ch false).

Definition to_patterns (ps : list (client_id * bytes)) (ch msg : bytes) (d : client_id) : list pubsub_reply :=
  mjoin ((fun x => if delivers ch x.2 then only x.1 (PMessage x.2 ch msg) d else []) <$> ps).

Lemma publish_clients_deliver cs ch msg n (Q : Z -> pubsub -> Prop) s : (forall c, c ∈ cs -> is_Some (ps_clients s !! c)) ->
  Q (n + zlen cs) (deliver (to_clients cs ch msg) s) -> pwp (publish_clients cs ch msg n) Q s.
Proof.
  revert n s. induction cs as [|c cs IH]; intros n s Hcs HQ; cbn [publish_clients].
  { apply pwp_ret. rewrite (deliver_ext _ (fun _ => []) s), (deliver_none s) in HQ by done. by rewrite Z.add_0_r in HQ. }
  apply pwp_bind, send_to_deliver; [apply Hcs, list_elem_of_here|]. apply IH.
  - intros c' Hc'. apply deliver_some, Hcs. by apply list_elem_of_further.
  - rewrite deliver_deliver. replace (n + 1 + zlen cs) with (n + zlen (c :: cs)) by (simpl; lia). exact HQ.
Qed.

Lemma publish_patterns_deliver ps ch msg n (Q : Z -> pubsub -> Prop) s : (forall c p, (c, p) ∈ ps -> is_Some (ps_clients s !! c) /\ pattern_ok p) ->
  channel_ok ch -> Q (n + zlen (filter (fun x => delivers ch x.2 = true) ps)) (deliver (to_patterns ps ch msg) s) -> pwp (publish_patterns ps ch msg n) Q s.
Proof.
  intros Hps Hch. revert n s Hps. induction ps as [|[c p] ps IH]; intros n s Hps HQ; cbn [publish_patterns].
  { apply pwp_ret. rewrite (deliver_ext _ (fun _ => []) s), (deliver_none s) in HQ by done. by rewrite Z.add_0_r in HQ. }
  destruct (Hps c p (list_elem_of_here _ _)) as [Hc Hp]. destruct (glob_total p ch Hp Hch) as (gs & b & _ & Hb & _).
  apply pwp_bind. eapply pwp_lift; [exact Hb|]. assert (delivers ch p = b) as Hd by (unfold delivers; by rewrite Hb).
  rewrite (deliver_ext _ (fun d => (if delivers ch p then only c (PMessage p ch msg) d else []) ++ to_patterns ps ch msg d) s) in HQ by done.
  rewrite Hd in HQ. destruct b.
  - rewrite filter_cons_True in HQ by done. apply pwp_bind, send_to_deliver; [done|]. apply IH.
    + intros c' p' Hin. destruct (Hps c' p'); [by apply list_elem_of_further|]. split; [by apply deliver_some|done].
    + rewrite deliver_deliver. match goal with |- Q ?m _ => replace m with (n + zlen ((c, p) :: filter (fun x => delivers ch x.2 = true) ps)) by (simpl; lia) end. exact HQ.
  - rewrite filter_cons_False in HQ by (cbn [snd]; congruence). apply IH; [|done]. intros c' p' Hin. apply Hps. by apply list_elem_of_further.
Qed.

(** What a client receives of a publication. *)
Definition received (ch msg : bytes) (cl : pclient) : list pubsub_reply :=
  (if bool_decide (ch ∈ pc_channels cl) then [Message ch msg] else []) ++
  ((fun p => PMessage p ch msg) <$> filter (fun p => delivers ch p = true) (pc_patterns cl)).

Lemma to_clients_once cs ch msg d : NoDup cs -> to_clients cs ch msg d = if bool_decide (d ∈ cs) then [Message ch msg] else [].
Proof.
  induction 1 as [|c cs Hc _ IH]; [done|]. unfold to_clients in *. rewrite fmap_cons.
  lazymatch goal with |- mjoin (?x :: ?l) = _ => change (mjoin (x :: l)) with (x ++ mjoin l) end. rewrite IH. unfold only. destruct (decide (d = c)) as [->|Hne].
  - rewrite bool_decide_true, bool_decide_false by done. rewrite bool_decide_true by apply list_elem_of_here. done.
  - rewrite bool_decide_false by done. cbn. assert (bool_decide (d ∈ c :: cs) = bool_decide (d ∈ cs)) as ->; [|done].
    apply bool_decide_ext. rewrite elem_of_cons. tauto.
Qed.

Lemma to_patterns_own ps ch msg d : to_patterns ps ch msg d =
  (fun p => PMessage p ch msg) <$> filter (fun p => delivers ch p = true) (own_patterns d ps).
Proof.
  unfold to_patterns, own_patterns. induction ps as [|[c p] ps IH]; [done|]. rewrite fmap_cons.
  lazymatch goal with |- mjoin (?x :: ?l) = _ => change (mjoin (x :: l)) with (x ++ mjoin l) end. rewrite IH. cbn [fst snd]. unfold only. destruct (decide (c = d)) as [->|Hne].
  - rewrite (filter_cons_True (fun x : client_id * bytes => x.1 = d)) by done. rewrite fmap_cons. cbn [snd]. rewrite bool_decide_true by done.
    destruct (delivers ch p) eqn:Hd; [by rewrite filter_cons_True|by rewrite filter_cons_False by congruence].
  - rewrite (filter_cons_False (fun x : client_id * bytes => x.1 = d)) by done. rewrite bool_decide_false by congruence. by destruct (delivers ch p).
Qed.

Section Commands.
Context (iteration : gset bytes -> list bytes).
Context (iteration_spec : forall X, iteration X ≡ₚ elements X).

Lemma all_channels_tracks c notify a s : tracks s a -> c ∈ sb_clients a ->
  pwp (pubsubUnsubscribeAllChannels iteration c notify) (fun _ s' => tracks s' (spec_command c CmdUnsubscribe [] a)) s.
Proof using iteration_spec.
  intros Ht Hc. destruct (tracks_client s a c Ht Hc) as [cl Hcl]. apply pwp_bind. eapply pwp_client; [exact Hcl|]. apply pwp_bind.
  eapply pwp_mono; [by apply unsubscribe_channels_tracks|]. intros n s1 Ht1. rewrite foldl_del_channels in Ht1.
  replace (filter (fun x => ~ (x.1 = c /\ x.2 ∈ iteration (pc_channels cl))) (sb_channels a))
    with (filter (fun x : client_id * bytes => x.1 <> c) (sb_channels a)) in Ht1.
  { apply pwp_bind. destruct (notify && bool_decide (n = 0)); [|by apply pwp_ret, pwp_ret]. eapply notify_tracks; [exact Ht1|done|]. intros s2 Ht2. by apply pwp_ret. }
  apply set_eq. intros [c1 ch]. rewrite !elem_of_filter. cbn. rewrite (iteration_spec (pc_channels cl)), elem_of_elements.
  pose proof (tr_channels _ _ Ht c cl Hcl ch). naive_solver.
Qed.

Lemma all_patterns_tracks c notify a s : tracks s a -> c ∈ sb_clients a ->
  pwp (pubsubUnsubscribeAllPatterns c notify) (fun _ s' => tracks s' (spec_command c CmdPunsubscribe [] a)) s.
Proof using Type.
  intros Ht Hc. destruct (tracks_client s a c Ht Hc) as [cl Hcl]. apply pwp_bind. eapply pwp_client; [exact Hcl|]. apply pwp_bind.
  eapply pwp_mono; [by apply unsubscribe_patterns_tracks|]. intros n s1 Ht1. rewrite foldl_del_patterns in Ht1.
  replace (filter (fun x => ~ (x.1 = c /\ x.2 ∈ pc_patterns cl)) (sb_patterns a))
    with (filter (fun x : client_id * bytes => x.1 <> c) (sb_patterns a)) in Ht1.
  { apply pwp_bind. destruct (notify && bool_decide (n = 0)); [|by apply pwp_ret, pwp_ret]. eapply notify_tracks; [exact Ht1|done|]. intros s2 Ht2. by apply pwp_ret. }
  pose proof (tr_own _ _ Ht c cl Hcl) as Hown.
  assert (forall l : list (client_id * bytes), (forall x, x ∈ l -> x ∈ sb_patterns a) -> filter (fun x : client_id * bytes => x.1 <> c) l =
    filter (fun x => ~ (x.1 = c /\ x.2 ∈ pc_patterns cl)) l) as Hf; [|by apply Hf].
  induction l as [|[c1 p1] l IH]; intros Hin; [done|].
  assert ((c1, p1) ∈ sb_patterns a) as H1 by apply Hin, list_elem_of_here.
  assert (forall x, x ∈ l -> x ∈ sb_patterns a) as H2 by (intros x Hx; by apply Hin, list_elem_of_further).
  destruct (decide (c1 = c)) as [->|Hne].
  - rewrite !filter_cons_False; [by apply IH| |naive_solver]. intros Hn. apply Hn. cbn. split; [done|]. by rewrite Hown, own_patterns_elem.
  - rewrite !filter_cons_True by naive_solver. by rewrite IH.
Qed.

Lemma matching_total pat chs : match pat with None => True | Some p => pattern_ok p end -> Forall channel_ok chs ->
  exists l, matching_channels pat chs = Some l.
Proof using Type.
  intros Hp Hchs. induction Hchs as [|ch chs Hch _ (l & Hl)]; [by exists []|]. cbn [matching_channels]. rewrite Hl. destruct pat as [p|].
  - destruct (glob_total p ch Hp Hch) as (gs & b & _ & -> & _). bind_simpl. eauto.
  - bind_simpl. eauto.
Qed.

Lemma send_replies_tracks c rs a s : tracks s a -> c ∈ sb_clients a -> pwp (send_replies c rs) (fun _ s' => tracks s' a) s.
Proof using Type.
  revert s. induction rs as [|r rs IH]; intros s Ht Hc; [by apply pwp_ret|]. cbn [send_replies]. apply pwp_bind.
  eapply send_tracks; [exact Ht|done|]. intros s1 Ht1. by apply IH.
Qed.

Lemma subscribers_bound ch cs a s : tracks s a -> ps_channels s !! ch = Some cs -> zlen cs <= Z.of_nat (base.size (sb_clients a)).
Proof using Type.
  intros Ht Hch. pose proof (tr_table _ _ Ht ch) as Htab. rewrite Hch in Htab. destruct Htab as (_ & Hn & Htab).
  rewrite <- (size_list_to_set (C := gset client_id) cs Hn). apply inj_le, subseteq_size. intros c. rewrite elem_of_list_to_set. intros Hc.
  apply (tr_owners _ _ Ht c ch). by apply Htab.
Qed.

Lemma count_reply_total n : srange 64 n -> exists r, count_reply n = Some r.
Proof using Type.
  intros Hn. unfold count_reply. destruct (string2ll_print 64 n ltac:(done) Hn) as (x & -> & _). bind_simpl. eauto.
Qed.

Lemma numsub_tracks c args a s : tracks s a -> c ∈ sb_clients a -> Z.of_nat (base.size (sb_clients a)) < 2 ^ 63 ->
  pwp (numsub c args) (fun _ s' => tracks s' a) s.
Proof using Type.
  intros Ht Hc Hb. revert s Ht. induction args as [|x args IH]; intros s Ht; [by apply pwp_ret|]. cbn [numsub]. apply pwp_bind, pwp_get, pwp_bind.
  eapply send_tracks; [exact Ht|done|]. intros s1 Ht1. apply pwp_bind.
  destruct (count_reply_total (match ps_channels s !! x with Some l => zlen l | None => 0 end)) as (r & Hr).
  { destruct (ps_channels s !! x) as [cs|] eqn:Hx; [|by unfold srange]. pose proof (subscribers_bound _ _ _ _ Ht Hx). unfold srange. lia. }
  eapply pwp_lift; [exact Hr|]. apply pwp_bind. eapply send_tracks; [exact Ht1|done|]. intros s2 Ht2. by apply IH.
Qed.

(** PUBLISH delivers the messages of the channel, then those of the patterns. *)
Lemma publish_deliver ch msg a s (Q : Z -> pubsub -> Prop) : tracks s a -> channel_ok ch ->
  Q (zlen (default [] (ps_channels s !! ch)) + zlen (filter (fun x => delivers ch x.2 = true) (sb_patterns a)))
    (deliver (fun d => to_clients (default [] (ps_channels s !! ch)) ch msg d ++ to_patterns (sb_patterns a) ch msg d) s) ->
  pwp (pubsubPublishMessage ch msg) Q s.
Proof using Type.
  intros Ht Hch HQ. apply pwp_bind, pwp_get. pose proof (tr_table _ _ Ht ch) as Htab.
  set (cs := default [] (ps_channels s !! ch)) in *. apply pwp_bind.
  assert (pwp (match ps_channels s !! ch with Some clients => publish_clients clients ch msg 0 | None => mret 0 end)
    (fun n s' => n = zlen cs /\ s' = deliver (to_clients cs ch msg) s) s) as Hcl.
  { destruct (ps_channels s !! ch) as [cs0|]; cbn in cs.
    - apply publish_clients_deliver; [|by rewrite Z.add_0_l]. intros c Hc. destruct Htab as (_ & _ & Htab). apply Htab in Hc.
      apply (tr_owners _ _ Ht) in Hc. rewrite <- (tr_clients _ _ Ht) in Hc. by apply elem_of_dom.
    - apply pwp_ret. split; [done|]. by rewrite (deliver_ext _ (fun _ => []) s), deliver_none. }
  eapply pwp_mono; [exact Hcl|]. intros n s' [-> ->]. apply pwp_bind, pwp_get. cbn [ps_patterns deliver]. rewrite (tr_patterns _ _ Ht).
  apply publish_patterns_deliver; [|done|by rewrite deliver_deliver]. intros c p Hin. split; [|by eapply tr_pattern_ok].
  apply deliver_some. apply (tr_pattern_owners _ _ Ht) in Hin. rewrite <- (tr_clients _ _ Ht) in Hin. by apply elem_of_dom.
Qed.

Lemma publish_tracks c ch msg a s : tracks s a -> c ∈ sb_clients a -> channel_ok ch ->
  pwp (publishCommand c [ch; msg]) (fun _ s' => tracks s' a) s.
Proof using Type.
  intros Ht Hc Hch. apply pwp_bind, (pwp_lift _ ch); [done|]. apply pwp_bind, (pwp_lift _ msg); [done|]. apply pwp_bind.
  eapply publish_deliver; [exact Ht|done|]. apply pwp_bind.
  match goal with |- pwp _ _ ?s1 => assert (tracks s1 a) as Ht1 by by apply deliver_tracks end. destruct (tracks_client _ a c Ht1 Hc) as [cl Hcl].
  eapply pwp_on_client; [exact Hcl|]. eapply send_tracks; [|exact Hc|done]. by eapply tracks_same.
Qed.

Lemma pubsub_tracks c args a s : tracks s a -> c ∈ sb_clients a -> args <> [] ->
  (forall sub p, args = [sub; p] -> strcaseeq sub "channels" = true -> pattern_ok p) ->
  Z.of_nat (base.size (sb_clients a)) < 2 ^ 63 -> pwp (pubsubCommand iteration c args) (fun _ s' => tracks s' a) s.
Proof using iteration_spec.
  intros Ht Hc Hne Hargs Hb. destruct args as [|sub args]; [done|]. apply pwp_bind, (pwp_lift _ sub); [done|].
  destruct (_ && _) eqn:Hsub; [|clear Hsub; destruct (strcaseeq sub "numsub"); [|destruct (_ && _)]].
  - apply pwp_bind, pwp_get, pwp_bind. destruct (matching_total ((sub :: args) !! 1%nat) (iteration (dom (ps_channels s)))) as (l & Hl).
    + apply andb_true_iff in Hsub as [Hsub [Hl|Hl]%bool_decide_eq_true]; destruct args as [|p [|]]; try done. by apply (Hargs sub).
    + apply Forall_forall. intros ch. rewrite (iteration_spec _), elem_of_elements, elem_of_dom. intros [cs Hcs].
      pose proof (tr_table _ _ Ht ch) as Htab. rewrite Hcs in Htab. destruct Htab as (Hn & _ & Htab). destruct cs as [|c1 cs]; [done|].
      apply (tr_channel_ok _ _ Ht c1). apply Htab, list_elem_of_here.
    + eapply pwp_lift; [exact Hl|]. by apply send_replies_tracks.
  - apply pwp_bind. eapply send_tracks; [exact Ht|done|]. intros s1 Ht1. by apply numsub_tracks.
  - apply pwp_bind, pwp_get. by eapply send_tracks.
  - by eapply send_tracks.
Qed.

Lemma call_tracks c cmd args a s : tracks s a -> event_ok (Command c cmd args) a ->
  pwp (pubsub_call iteration c cmd args) (fun _ s' => tracks s' (spec_command c cmd args a)) s.
Proof using iteration_spec.
  intros Ht (Hc & Hargs & Hcmd). destruct (tracks_client s a c Ht Hc) as [cl Hcl]. apply pwp_bind. eapply pwp_client; [exact Hcl|].
  destruct cmd.
  - apply (for_args_tracks _ (add_channel c) channel_ok c); [|done..]. intros x a1 s1 Ht1 Hc1 Hx.
    eapply pwp_mono; [by apply subscribe_tracks|]. by intros b s2 [_ ?].
  - destruct args as [|x args].
    + apply pwp_bind. eapply pwp_mono; [by apply all_channels_tracks|]. intros n s1 Ht1. by apply pwp_ret.
    + apply (for_args_tracks _ (del_channel c) bytes_ok c); [|done..]. intros y a1 s1 Ht1 Hc1 _.
      eapply pwp_mono; [by apply unsubscribe_tracks|]. by intros b s2 [_ ?].
  - apply (for_args_tracks _ (add_pattern c) pattern_ok c); [|done..]. intros x a1 s1 Ht1 Hc1 Hx.
    eapply pwp_mono; [by apply psubscribe_tracks|]. by intros b s2 [_ ?].
  - destruct args as [|x args].
    + apply pwp_bind. eapply pwp_mono; [by apply all_patterns_tracks|]. intros n s1 Ht1. by apply pwp_ret.
    + apply (for_args_tracks _ (del_pattern c) bytes_ok c); [|done..]. intros y a1 s1 Ht1 Hc1 _.
      eapply pwp_mono; [by apply punsubscribe_tracks|]. by intros b s2 [_ ?].
  - destruct (bool_decide _); [by eapply send_tracks|]. destruct args as [|ch [|msg [|]]]; try done. by apply publish_tracks.
  - destruct Hcmd as (Hne & Hp & Hb). destruct (bool_decide _); [by eapply send_tracks|]. by apply pubsub_tracks.
Qed.

Lemma disconnect_tracks c a s : tracks s a -> c ∈ sb_clients a -> pwp (disconnect iteration c) (fun _ s' => tracks s' (spec_event (Disconnect c) a)) s.
Proof using iteration_spec.
  intros Ht Hc. apply pwp_bind. eapply pwp_mono; [by apply all_channels_tracks|]. intros n s1 Ht1. apply pwp_bind.
  eapply pwp_mono; [by apply (all_patterns_tracks c false _ s1 Ht1)|]. intros n2 s2 [T1 T2 T3 T4 T5 T6 T7 T8 T9 T10]. apply pwp_modify. cbn in *.
  split; cbn; try done.
  - by rewrite dom_delete_L, T1.
  - intros c1 cl1 [Hne H1]%lookup_delete_Some. by apply T2.
  - intros c1 ch Hin. pose proof (T4 _ _ Hin). apply elem_of_filter in Hin as [Hne _]. set_solver.
  - intros c1 cl1 [Hne H1]%lookup_delete_Some. by apply T6.
  - intros c1 p Hin. pose proof (T7 _ _ Hin). apply list_elem_of_filter in Hin as [Hne _]. set_solver.
Qed.

Lemma connect_tracks c a s : tracks s a -> c ∉ sb_clients a -> pwp (connect c) (fun _ s' => tracks s' (spec_event (Connect c) a)) s.
Proof using Type.
  clear iteration_spec iteration.
  intros [T1 T2 T3 T4 T5 T6 T7 T8 T9 T10] Hc. apply pwp_modify. split; cbn; try done.
  - by rewrite dom_insert_L, T1.
  - intros c1 cl1 [[<- <-]|[Hne H1]]%lookup_insert_Some; [|by apply T2]. intros ch. cbn. split; [set_solver|]. by intros Hin%T4.
  - intros c1 ch Hin%T4. set_solver.
  - intros c1 cl1 [[<- <-]|[Hne H1]]%lookup_insert_Some; [|by apply T6]. cbn. destruct (own_patterns c (sb_patterns a)) as [|p l] eqn:Hown; [done|].
    assert (p ∈ own_patterns c (sb_patterns a)) as Hp by (rewrite Hown; apply list_elem_of_here). apply own_patterns_elem, T7 in Hp. done.
  - intros c1 p Hin%T7. set_solver.
Qed.

Lemma step_tracks e a s : tracks s a -> event_ok e a -> pwp (pubsub_step iteration e) (fun _ s' => tracks s' (spec_event e a)) s.
Proof using iteration_spec. intros Ht He. destruct e; [by apply connect_tracks|by apply disconnect_tracks|by apply call_tracks]. Qed.

Lemma run_tracks es a s : tracks s a -> events_ok es a ->
  exists s', pubsub_run iteration es s = Some (tt, s') /\ tracks s' (foldl (fun a e => spec_event e a) a es).
Proof using iteration_spec.
  intros Ht Hes.
  assert (pwp (pubsub_run iteration es) (fun _ s' => tracks s' (foldl (fun a e => spec_event e a) a es)) s) as Hwp.
  { revert a s Ht Hes. induction es as [|e es IH]; intros a s Ht Hes; [by apply pwp_ret|]. destruct Hes as [He Hes]. cbn [pubsub_run foldl].
    apply pwp_bind. eapply pwp_mono; [by apply step_tracks|]. intros [] s1 Ht1. exact (IH _ _ Ht1 Hes). }
  apply pwp_run in Hwp as ([] & s' & Hs' & Ht'). by exists s'.
Qed.
End Commands.

Lemma no_subscriptions_tracks : tracks no_subscriptions (Subs ∅ ∅ []).
Proof.
  split; cbn; try done.
  - intros ch. rewrite lookup_empty. intros c. apply not_elem_of_empty.
  - by intros c p H%elem_of_nil.
  - constructor.
  - by intros c p H%elem_of_nil.
Qed.

(** ** What a publication does *)

(** What a client is sent, and the number of messages, by the subscriptions. *)
Definition spec_received (a : subs) (ch msg : bytes) (d : client_id) : list pubsub_reply :=
  (if bool_decide ((d, ch) ∈ sb_channels a) then [Message ch msg] else []) ++
  ((fun p => PMessage p ch msg) <$> filter (fun p => delivers ch p = true) (own_patterns d (sb_patterns a))).

Definition spec_receivers (a : subs) (ch : bytes) : Z :=
  Z.of_nat (base.size (filter (fun x => x.2 = ch) (sb_channels a))) + zlen (filter (fun x => delivers ch x.2 = true) (sb_patterns a)).

Lemma table_size ch a s : tracks s a -> zlen (default [] (ps_channels s !! ch)) = Z.of_nat (base.size (filter (fun x => x.2 = ch) (sb_channels a))).
Proof.
  intros Ht. pose proof (tr_table _ _ Ht ch) as Htab. destruct (ps_channels s !! ch) as [cs|]; cbn [default].
  - destruct Htab as (_ & Hn & Htab). f_equal. replace (filter (fun x : client_id * bytes => x.2 = ch) (sb_channels a))
      with (list_to_set ((fun c => (c, ch)) <$> cs) : gset (client_id * bytes)).
    + rewrite size_list_to_set; [by rewrite length_fmap|]. apply NoDup_fmap_2; [|done]. by intros x y [= ->].
    + apply set_eq. intros [c ch1]. rewrite elem_of_list_to_set, list_elem_of_fmap, elem_of_filter. cbn. split.
      * by intros (c1 & [= -> ->] & Hc%Htab).
      * intros [-> Hc%Htab]. by exists c.
  - replace (filter (fun x : client_id * bytes => x.2 = ch) (sb_channels a)) with (∅ : gset (client_id * bytes)); [by rewrite size_empty|].
    symmetry. apply set_eq. intros [c ch1]. rewrite elem_of_filter, elem_of_empty. cbn. split; [|done]. intros [-> Hc]. by apply Htab in Hc.
Qed.

Lemma table_received ch msg d a s : tracks s a ->
  to_clients (default [] (ps_channels s !! ch)) ch msg d ++ to_patterns (sb_patterns a) ch msg d = spec_received a ch msg d.
Proof.
  intros Ht. pose proof (tr_table _ _ Ht ch) as Htab. unfold spec_received. rewrite to_patterns_own. f_equal.
  destruct (ps_channels s !! ch) as [cs|]; cbn [default].
  - destruct Htab as (_ & Hn & Htab). rewrite to_clients_once by done. by rewrite (bool_decide_ext _ _ (Htab d)).
  - rewrite bool_decide_false by apply Htab. done.
Qed.

Lemma unrestricted c cl a s : tracks s a -> ps_clients s !! c = Some cl -> (forall ch, (c, ch) ∉ sb_channels a) -> (forall p, (c, p) ∉ sb_patterns a) ->
  subscriptions cl = 0.
Proof.
  intros Ht Hcl Hch Hp. unfold subscriptions. assert (pc_channels cl = ∅) as ->.
  { apply set_eq. intros ch. rewrite (tr_channels _ _ Ht c cl Hcl ch). set_solver. }
  rewrite (tr_own _ _ Ht c cl Hcl). destruct (own_patterns c (sb_patterns a)) as [|p l] eqn:Hown; [by rewrite size_empty|].
  assert (p ∈ own_patterns c (sb_patterns a)) as H by (rewrite Hown; apply list_elem_of_here). by apply own_patterns_elem, Hp in H.
Qed.

End Subscriptions.

(** The table of channels, that of patterns and those of the clients agree. *)

(** C20: whatever clients connect, subscribe and unsubscribe by channel or by
    pattern, publish, inspect and disconnect, no assertion of [pubsub.c]
    fails, no freed client is used, and the tables of the server and of the
    clients are those of the set of subscriptions that the commands describe,
    without an empty list of clients.  Commands have the numbers of arguments
    of the table of commands.  In the patterns of PSUBSCRIBE and of PUBSUB
    CHANNELS every backslash inside a class is followed by a character, and
    either none of them starts with a literal or a class that accepts NUL, or
    no channel of SUBSCRIBE and PUBLISH has an empty name: on the others
    [stringmatchlen] reads outside its buffers
    ([Glob.glob_reads_outside]). *)
Theorem pubsub_run_tracks (empties : bool) (iteration : gset bytes -> list bytes) (es : list pubsub_event) :
  (forall X, iteration X ≡ₚ elements X) -> events_ok empties es (Subs ∅ ∅ []) ->
  exists s, pubsub_run iteration es no_subscriptions = Some (tt, s) /\
    tracks empties s (foldl (fun a e => spec_event e a) (Subs ∅ ∅ []) es).
Proof. intros Hit Hes. apply run_tracks; [done|apply no_subscriptions_tracks|done]. Qed.

(** C21: [PUBLISH] by a client without subscriptions sends each client that is
    subscribed to the channel the message once, and once more, in the order of
    its subscriptions, for each of its patterns that matches the channel; the
    publisher gets the number of the messages sent.  This is after any events
    with the patterns and the channels on which [stringmatchlen] stays in its
    buffers, as for C20. *)
Theorem publish_delivers (empties : bool) (iteration : gset bytes -> list bytes) (es : list pubsub_event) (c : client_id) (ch msg : bytes) :
  let a := foldl (fun a e => spec_event e a) (Subs ∅ ∅ []) es in
  (forall X, iteration X ≡ₚ elements X) -> events_ok empties es (Subs ∅ ∅ []) -> c ∈ sb_clients a ->
  (forall x, (c, x) ∉ sb_channels a) -> (forall p, (c, p) ∉ sb_patterns a) -> channel_ok empties ch ->
  exists s s', pubsub_run iteration es no_subscriptions = Some (tt, s) /\ pubsub_call iteration c CmdPublish [ch; msg] s = Some (tt, s') /\
    ps_channels s' = ps_channels s /\ ps_patterns s' = ps_patterns s /\
    (forall d, d <> c -> ps_clients s' !! d = sends (spec_received a ch msg d) <$> ps_clients s !! d) /\
    pc_reply <$> (ps_clients s' !! c) = (fun cl => pc_reply cl ++ [PReply (ReplyInt (spec_receivers a ch))]) <$> (ps_clients s !! c) /\
    (forall d p, (d, p) ∈ sb_patterns a -> exists gs, parse_glob p = Some gs /\ (delivers ch p = true <-> glob_matches false gs ch)).
Proof.
  intros a Hit Hes Hc Hnc Hnp Hch. destruct (run_tracks empties iteration Hit es _ _ (no_subscriptions_tracks empties) Hes) as (s & Hs & Ht). fold a in Ht.
  destruct (tracks_client empties s a c Ht Hc) as [cl Hcl].
  assert (spec_received a ch msg c = []) as Hnone.
  { unfold spec_received. rewrite bool_decide_false by done. destruct (own_patterns c (sb_patterns a)) as [|p l] eqn:Hown; [done|].
    assert (p ∈ own_patterns c (sb_patterns a)) as Hp by (rewrite Hown; apply list_elem_of_here). by apply own_patterns_elem, Hnp in Hp. }
  assert (pwp (pubsub_call iteration c CmdPublish [ch; msg]) (fun _ s' => s' = with_client c (send (PReply (ReplyInt (spec_receivers a ch)))
    (force_repl cl)) (deliver (spec_received a ch msg) s)) s) as Hwp.
  { apply pwp_bind. eapply pwp_client; [exact Hcl|]. rewrite (unrestricted empties c cl a s) by done. apply pwp_bind, (pwp_lift _ ch); [done|].
    apply pwp_bind, (pwp_lift _ msg); [done|]. apply pwp_bind. apply (publish_deliver empties ch msg a); [done..|].
    rewrite (deliver_ext _ _ s (fun d => table_received empties ch msg d a s Ht)), (table_size empties ch a s Ht).
    assert (ps_clients (deliver (spec_received a ch msg) s) !! c = Some cl) as Hcl' by (rewrite deliver_lookup, Hcl, Hnone; cbn; by rewrite sends_nil).
    apply pwp_bind. eapply pwp_on_client; [exact Hcl'|]. eapply pwp_on_client; [apply lookup_insert_eq|].
    unfold with_client. cbn. by rewrite insert_insert_eq. }
  apply pwp_run in Hwp as ([] & s' & Hs' & ->). eexists s, _. split; [exact Hs|]. split; [exact Hs'|]. split; [done|]. split; [done|].
  split; [|split].
  - intros d Hd. cbn [ps_clients with_client]. by rewrite lookup_insert_ne, deliver_lookup.
  - cbn [ps_clients with_client]. by rewrite lookup_insert_eq, Hcl.
  - intros d p Hp. destruct (glob_total empties p ch) as (gs & b & Hgs & Hb & Hiff); [by apply (tr_pattern_ok _ _ _ Ht d)|done|].
    exists gs. split; [done|]. unfold delivers. by rewrite Hb.
Qed.

(** Three clients; the first subscribes to the channel [ab], the second to
    patterns, one of which would accept the NUL of an empty name.
    Then the second disconnects and comes back. *)
Definition demo_events : list pubsub_event :=
  [Connect 1%nat; Connect 2%nat; Connect 3%nat; Command 1%nat CmdSubscribe [chars "ab"; chars "a"; chars "ab"]; Command 1%nat CmdUnsubscribe [chars "a"];
   Command 2%nat CmdPsubscribe [chars "a*"; chars "?b"; chars "[^a]*c"]; Command 2%nat CmdPublish [chars "a"; chars "x"]; Command 3%nat CmdPublish [chars "a"; chars "y"]].

Definition demo_return : list pubsub_event :=
  demo_events ++ [Disconnect 2%nat; Connect 2%nat; Command 3%nat CmdPubsub [chars "channels"; chars "[^a]*"]; Command 3%nat CmdPubsub [chars "numsub"; chars "[\"]; Command 1%nat CmdUnsubscribe []].

(** Concrete sequences satisfy [events_ok]. *)
Ltac events_ok_tac :=
  cbn [demo_return demo_events app events_ok event_ok length tail]; split_and!; try done;
  try (intros ? ? [= <- <-]; intros E; first [by vm_compute in E|clear E; split]);
  repeat constructor; try (apply (bool_decide_unpack _); by vm_compute); try (eexists; split; [reflexivity|done]); try done.

Lemma pubsub_run_tracks_witness : exists s, pubsub_run elements demo_return no_subscriptions = Some (tt, s) /\
  tracks false s (foldl (fun a e => spec_event e a) (Subs ∅ ∅ []) demo_return).
Proof. apply (pubsub_run_tracks false); [done|]. events_ok_tac. Defined.

Lemma publish_delivers_witness : exists s s', pubsub_run elements demo_events no_subscriptions = Some (tt, s) /\
  pubsub_call elements 3%nat CmdPublish [chars "ab"; chars "z"] s = Some (tt, s') /\ ps_patterns s' = ps_patterns s.
Proof.
  destruct (publish_delivers false elements demo_events 3%nat (chars "ab") (chars "z")) as (s & s' & H1 & H2 & _ & H3 & _).
  - done.
  - events_ok_tac.
  - apply (bool_decide_unpack _); by vm_compute.
  - assert (set_Forall (fun y => y.1 <> 3%nat) (sb_channels (foldl (fun a e => spec_event e a) (Subs ∅ ∅ []) demo_events))) as H
      by (apply (bool_decide_unpack _); by vm_compute).
    intros x Hx. by apply (H _ Hx).
  - assert (Forall (fun y => y.1 <> 3%nat) (sb_patterns (foldl (fun a e => spec_event e a) (Subs ∅ ∅ []) demo_events))) as H
      by (apply (bool_decide_unpack _); by vm_compute).
    intros x Hx. by apply (proj1 (Forall_forall _ _) H _ Hx).
  - split; [apply (bool_decide_unpack _); by vm_compute|done].
  - eauto.
Defined.

(** What the second client and the publisher have been sent. *)
Example publish_sample : pubsub_run elements (demo_events ++ [Command 3%nat CmdPublish [chars "ab"; chars "z"]]) no_subscriptions
  ≫= (fun r => mret ((fun cl => (base.size (pc_channels cl), drop 4 (pc_reply cl))) <$> (ps_clients r.2 !! 2%nat), pc_reply <$> (ps_clients r.2 !! 3%nat))) =
  Some (Some (0%nat, [PMessage (chars "a*") (chars "a") (chars "y"); PMessage (chars "a*") (chars "ab") (chars "z"); PMessage (chars "?b") (chars "ab") (chars "z")]),
    Some [PReply (ReplyInt 1); PReply (ReplyInt 3)]).
Proof. vm_compute. reflexivity. Qed.
